(* ===== verification/_CoqProject ===== *)
-Q . S2P
Prelude.v
GoLib.v
GoFloat.v
Value.v
ValueOrder.v
PathElement.v
SortedSlice.v
FieldSet.v
FieldSetSpec.v
FieldSetOps.v
FieldSetInsert.v
FieldSetIter.v
PathElementMap.v
Serialize.v
Managers.v
Schema.v
SchemaIndex.v
FieldSetSchema.v
TypedHelpers.v
GoReflect.v
JsonTag.v
ReflectCache.v
ReflectCacheSpec.v
ValueReflect.v
ReflectSpec.v
Allocator.v
AllocatorSpec.v
AllocatorBound.v
Unstructured.v
ReflectDynamic.v
ReflectWrite.v
ConvertSpec.v
Validate.v
SchemaSchema.v
ToFieldSet.v
ToFieldSetSpec.v
Remove.v
MapZip.v
ReflectZip.v
ValueInterface.v
ValueInterfaceSpec.v
ReflectEqual.v
Compare.v
CompareSpec.v
CompareOk.v
Merge.v
MergeSpec.v
MergeOk.v
MergeRefine.v
CompareRefine.v
SerializeSpec.v
JsonInstance.v
Reconcile.v
ReconcileSpec.v
Typed.v
Parser.v
Updater.v
UpdaterSpec.v
State.v
Format.v
Cli.v
StateSpec.v
GoodState.v
PruneSpec.v
PropsFieldpath.v
PropsTyped.v
PropsMerge.v
PropsState.v
PropsJson.v
PropsReflect.v
PropsValue.v
PropsCli.v
PropsFindings.v
