(* ===== verification/Prelude.v ===== *)
(** * Verification of structured-merge-diff

    The repository implements the merge and diff of structured objects behind
    Kubernetes' server-side apply: objects are trees of values, a schema gives
    them types, each manager owns a set of field paths, and an updater merges
    configurations, detects conflicts between managers and keeps track of who
    owns what.  This library models its Go code as executable functions and
    proves what they compute.

    ** The program and the files that model it

    - Package [value] (dynamic values).  [GoFloat.v] models float64 (IEEE 754
      with the conversion from int64 and the comparisons), [Value.v] the values
      backed by [interface{}] (src/value/valueunstructured.go,
      mapunstructured.go, list.go, map.go, scalar.go, fields.go, value.go):
      kinds and accessors, [Equals], [Compare], the traversals of two maps.
      [ValueOrder.v] shows when [Compare] is an order and [Equals] its
      equivalence, [MapZip.v] what the traversals visit.  [GoLib.v] has
      [sort.Search] and stable sorting.  [Unstructured.v] (mapunstructured.go,
      listunstructured.go, list.go) has the maps keyed by [interface{}], the
      writes of maps, and the loops over ranges.  [Allocator.v] (allocator.go)
      models the objects that accessors hand out as a memory, both allocators
      and their clients; [AllocatorSpec.v] proves both against one contract
      (class [AllocatorLaws]), [AllocatorBound.v] that freed objects are used
      again.
    - Package [value] (Go structs, maps and slices behind the same interface).
      [GoReflect.v] has Go types and values as package [reflect] presents them,
      for the struct types that a program declares ([GoProgram]); [JsonTag.v]
      (jsontagutil.go) the tags of struct fields; [ReflectCache.v]
      (reflectcache.go) the layouts of structs, built with slices in memory, and
      the shared cache of them, which [ReflectCacheSpec.v] proves correct;
      [ValueReflect.v] (valuereflect.go, structreflect.go, mapreflect.go,
      listreflect.go, and the conversions of reflectcache.go) the values.
      [ReflectSpec.v] shows that they agree with their unstructured form,
      [ReflectDynamic.v] what dynamic values look like through reflection,
      [ReflectZip.v] the fast paths of traversals, [ReflectWrite.v] writing,
      [ConvertSpec.v] the limit on the nesting of converted JSON.
      [ValueInterface.v] has the interfaces [Value], [Map] and [List] with both
      implementations behind them, and the comparisons and traversals of any mix
      of the two ([EqualsUsing], [CompareUsing], [ZipUsing] of each type);
      [ValueInterfaceSpec.v] shows that they compute what the unstructured forms
      give, [ReflectEqual.v] what [reflect.DeepEqual] of two lists implies.
    - Package [fieldpath] (paths and sets of paths).  [PathElement.v]
      (element.go, path.go) has path elements and paths with their orders;
      [SortedSlice.v] the reasoning on sorted slices that [PathElementSet],
      [SetNodeMap] and [PathElementMap] share; [FieldSet.v] (set.go, element.go)
      the trie [Set] with every operation; [FieldSetSpec.v], [FieldSetOps.v],
      [FieldSetInsert.v], [FieldSetIter.v] what the operations do to the
      members; [PathElementMap.v] (pathelementmap.go, fromvalue.go) sorted maps
      and [SetFromValue]; [Managers.v] (managers.go) the managed fields;
      [Serialize.v] (serialize.go, serialize-pe.go) the JSON form of path elements
      and sets over a JSON library that is a parameter, [SerializeSpec.v] its
      round trips, [JsonInstance.v] a library that satisfies the laws;
      [FieldSetSchema.v] the schema-directed [EnsureNamedFieldsAreMembers].
    - Package [schema].  [Schema.v] (elements.go, equals.go): the types,
      resolution with its cache, the [Equals] functions.  [SchemaIndex.v]
      (elements.go): the state of a schema and of a map (the index built once, the
      resolved references), searches on it, and [CopyInto].  [SchemaSchema.v]
      (schemaschema.go): the schema of schemas, and that it accepts the YAML form
      of every schema.
    - Package [typed].  [TypedHelpers.v] (helpers.go) has errors, the dispatch
      on atoms and the keys of list items; each walker has its file, and a file
      of what it computes: [Validate.v], [ToFieldSet.v] and [ToFieldSetSpec.v],
      [Remove.v], [Compare.v] with [CompareSpec.v], [CompareOk.v] and
      [CompareRefine.v] (what a comparison reports), [Merge.v] [MergeSpec.v], [MergeOk.v] and [MergeRefine.v], [Reconcile.v] and
      [ReconcileSpec.v]; [Typed.v] (typed.go) is the type [TypedValue] with its methods, [Parser.v] (parser.go) the parsers, over a
      YAML library that is a parameter.
    - Package [merge].  [Updater.v] (conflict.go, update.go) models conflicts and
      the updater, [UpdaterSpec.v] the effect of an update on each manager,
      [PruneSpec.v] that of pruning on the merged object.
    - The fixture (internal/fixture/state.go).  [State.v] has the state of an
      object with its managers and every operation on it, as a state machine;
      [StateSpec.v] and [GoodState.v] have its invariants.
    - Texts.  [Format.v] has the [String] and [Error] methods of all packages,
      over the verbs of package fmt ([GoFormat]).
    - The command line tool (internal/cli, smd/main.go).  [Cli.v] has its options,
      its operations and a whole run, on a world of files and the standard output.
    - [PropsFieldpath.v], [PropsTyped.v], [PropsMerge.v], [PropsState.v],
      [PropsJson.v], [PropsReflect.v], [PropsValue.v], [PropsCli.v] and
      [PropsFindings.v] state the properties,
      with an instance of each that has hypotheses.

    ** How the code is modelled

    A value is an inductive tree; a map is an association list with distinct
    keys in the order Go's runtime happens to iterate it.  Strings are byte
    strings, integers are [Z] (with the conversion to int64 where the code
    converts), floats are Standard Library [spec_float]s.  Sorted slices are
    lists, and the two-index loops over them recursions on the unread suffixes.
    A walker's mutable fields are a state that its handlers pass along; a Go
    function that can panic returns [Outcome], one that returns an error a sum
    in it; error messages are values that keep their arguments and not their
    texts.  Pointers that the code compares (a schema, an element relationship)
    carry an address.  The walkers take the values that allocators hand out as
    pure values; [freelists_transparent] is why that is right for clients that do
    not use freed objects.  Pools of walkers and locks have no counterpart.  A range over a map that the
    updater makes takes its order from an argument, one for each loop.  The
    [Converter] of the updater, which the repository leaves to its users, is a
    parameter: a function of the object and the version, with no hypothesis.
    Libraries outside the repository are parameters too: the JSON library of
    serialization ([JsonLib], with its laws [JsonLaws]), YAML decoding
    ([YamlLib]) and encoding ([YamlWriter]), the operating system and formatted
    printing ([Os], [GoFormat], [GoPrintf]), [encoding/json] as the conversions use it ([GoJson]), and the
    types and methods of the program that uses the package ([GoProgram]).  Where
    the code appends to a slice that may share its array, slices are addresses
    into a memory and growth follows Go's rule ([go_growth]).

    Recursion that is not structural (comparison of values, walkers) runs on
    fuel: the height of the value, or the depth of the field set for
    reconciliation.  The lemmas named [_unfold] show that this is enough: each
    function satisfies the equation of the code, without fuel.  The loop of
    [Merge] over two lists has the sum of their lengths as fuel, [Unstructured]
    the depth of the Go object, a lookup of the cache the number of field types of
    the program; the theorems say that the fuel suffices.

    ** What the theorems show

    - Values and path elements are totally ordered, [Equals] being the
      equivalence, in two regimes ([Regime]): no floats, or floats other than NaN
      with integers below 2^53.  Outside them the order fails
      ([compare_anomalies]).  Sets are correct for the path elements of a regime.
    - [Set_ok] is the invariant of [Set]: sorted slices without duplicates and no
      empty nodes.  Every operation keeps it, and is characterised by the members
      of its result ([Difference] above the members of the set that is taken away, since
      below them the code and its comment disagree); [Equals] is equality of members; [Iterate] enumerates them.
    - [AsTyped] accepts exactly the values that conform to the type, by an
      inductive definition of conformance that does not mention the walker.
      [ToFieldSet] gives exactly the paths of a reference function; [Merge]
      terminates and refines an inductive specification of merging, in which
      leaves of the configuration win and the order of both lists is kept;
      [Compare] reports as removed, added and modified exactly the paths that a
      lookup in the two objects ([nodeAt]) says, never panics on well-formed
      objects and returns well-formed sets; [RemoveItems] removes what it is given;
      [ReconcileFieldSetWithSchema] collapses exactly the fields that became
      atomic.
    - [update] takes from every other manager exactly the fields the request
      touches, reports conflicts exactly, and does not depend on the order of the
      ranges; [Update] and [Apply] give the acting manager the documented fields.
      With everything at one version, [prune] removes the scalars that were applied
      before and are owned by nobody now, and keeps the others.
      Over any sequence of operations of the fixture whose objects and texts are
      comparable, with a converter that keeps objects comparable, objects and sets stay
      well formed; over any operations no manager is left with an empty set, and a failed operation leaves
      the managers as they were.
    - Sets survive the round trip through JSON, whatever is read is well formed,
      and a parser accepts the YAML form of every schema.
    - A Go object seen through reflection shows, through every accessor and at
      every depth, its unstructured form.  Traversing and comparing any two
      values gives what their unstructured forms give, whichever implementations
      and fast paths are involved; only lists of two Go objects can be told apart
      although their forms are equal, and are never equal when their forms differ if
      what converts itself holds nothing that [reflect.DeepEqual] takes for equal and
      that converts to different values ([conversions_exact]).  A field that takes
      exactly the value that is set reads back and the others stay; concurrent lookups
      of the type cache terminate and return the declared layout.  All of this is for
      programs that inline structs at most two deep ([shallow_program]): three deep
      the code mixes up fields ([reflect_anomalies]).
    - The freelist allocator is indistinguishable from the heap for clients that
      respect the contract, its lists stay within their limit, and of each type it
      creates no more objects than its client holds at a time, and as many again for each
      type of range that owns one of them; maps keyed by [interface{}]
      behave as the maps they stand for; the loops over ranges end and compute
      what the recursions on lists do.
    - A schema answers as its types do, however it was searched and copied into new
      schemas.
    - The tool resolves its options as documented, the text it writes for a field
      set reads back as the paths of the object in the file, and it empties its
      output before it reads its inputs.
    - [PropsFindings.v] has runs on which the code does not do what it says.

    ** What is not modelled

    The texts of validation errors (messages keep their kind and arguments),
    [ParseableType.FromStructured], which wraps a reflected value (the walkers
    take unstructured values), the ordering of maps keyed by [interface{}],
    goroutines that share a schema, the shared memory that lets
    [reflect.DeepEqual] answer early, partial writes of the operating system, and
    the splitting of the command line into flags by package flag.

    ** Plan

    Next: the walkers on values behind the interface; the effect of [prune] on
    list items and through conversions; comparison of lists with duplicates; the
    texts of validation errors.

    This file holds what all others share: the contract of three-way
    comparisons, lexicographic order, Go's strings and association lists. *)

From Stdlib Require Export ZArith Lia.
From stdpp Require Export base strings sorting numbers option list.
Open Scope Z_scope.

(** ** Go's three-way comparison functions

    Every [Compare] of the Go code returns a negative, zero or positive int.
    [CmpOrder cmp dom] is the contract such a function promises to its clients
    on the values satisfying [dom]: antisymmetric and transitive. *)
Class CmpOrder {A : Type} (cmp : A -> A -> Z) (dom : A -> Prop) : Prop := {
  cmp_range x y : dom x -> dom y -> -1 <= cmp x y <= 1;
  cmp_antisym x y : dom x -> dom y -> cmp y x = - cmp x y;
  cmp_trans x y z :
    dom x -> dom y -> dom z -> cmp x y <= 0 -> cmp y z <= 0 -> cmp x z <= 0;
}.

#[global] Arguments cmp_range {A} cmp dom {_} x y.
#[global] Arguments cmp_antisym {A} cmp dom {_} x y.
#[global] Arguments cmp_trans {A} cmp dom {_} x y z.

Create HintDb smd.
Create Rewrite HintDb smd.

Definition Z_of_comparison (c : comparison) : Z :=
  match c with Lt => -1 | Eq => 0 | Gt => 1 end.

(** Lexicographic comparison of two sequences, a proper prefix being smaller. *)
Fixpoint lex_compare {A} (cmp : A -> A -> Z) (l1 l2 : list A) : Z :=
  match l1, l2 with
  | [], [] => 0
  | [], _ :: _ => -1
  | _ :: _, [] => 1
  | x :: l1', y :: l2' =>
    let c := cmp x y in if c =? 0 then lex_compare cmp l1' l2' else c
  end.

(** Break every [if] on a comparison of integers, keeping the equations. *)
Ltac zcase :=
  repeat match goal with
  | |- context [if ?b =? ?c then _ else _] => destruct (Z.eqb_spec b c)
  | |- context [if ?b <? ?c then _ else _] => destruct (Z.ltb_spec b c)
  | H : context [if ?b =? ?c then _ else _] |- _ => destruct (Z.eqb_spec b c)
  | H : context [if ?b <? ?c then _ else _] |- _ => destruct (Z.ltb_spec b c)
  end.

Section CmpOrderFacts.
Context {A : Type} (cmp : A -> A -> Z) (dom : A -> Prop) `{!CmpOrder cmp dom}.

Lemma cmp_refl x : dom x -> cmp x x = 0.
Proof. intros H. pose proof (cmp_antisym cmp dom x x H H). lia. Qed.

Lemma cmp_lt_trans x y z :
  dom x -> dom y -> dom z -> cmp x y < 0 -> cmp y z <= 0 -> cmp x z < 0.
Proof.
  intros Hx Hy Hz H1 H2.
  pose proof (cmp_trans cmp dom x y z Hx Hy Hz ltac:(lia) H2).
  destruct (Z.eq_dec (cmp x z) 0) as [E|]; [|lia].
  pose proof (cmp_antisym cmp dom x z Hx Hz). pose proof (cmp_antisym cmp dom x y Hx Hy).
  pose proof (cmp_trans cmp dom y z x Hy Hz Hx H2 ltac:(lia)). lia.
Qed.

Lemma cmp_le_lt_trans x y z :
  dom x -> dom y -> dom z -> cmp x y <= 0 -> cmp y z < 0 -> cmp x z < 0.
Proof.
  intros Hx Hy Hz H1 H2.
  pose proof (cmp_trans cmp dom x y z Hx Hy Hz H1 ltac:(lia)).
  destruct (Z.eq_dec (cmp x z) 0) as [E|]; [|lia].
  pose proof (cmp_antisym cmp dom x z Hx Hz). pose proof (cmp_antisym cmp dom y z Hy Hz).
  pose proof (cmp_trans cmp dom z x y Hz Hx Hy ltac:(lia) H1). lia.
Qed.

Lemma cmp_eq_trans x y z :
  dom x -> dom y -> dom z -> cmp x y = 0 -> cmp y z = 0 -> cmp x z = 0.
Proof.
  intros Hx Hy Hz H1 H2.
  pose proof (cmp_trans cmp dom x y z Hx Hy Hz ltac:(lia) ltac:(lia)).
  pose proof (cmp_antisym cmp dom x y Hx Hy). pose proof (cmp_antisym cmp dom y z Hy Hz).
  pose proof (cmp_antisym cmp dom x z Hx Hz).
  pose proof (cmp_trans cmp dom z y x Hz Hy Hx ltac:(lia) ltac:(lia)). lia.
Qed.

(** Equivalent elements compare alike with every other element. *)
Lemma cmp_eq_l x y z :
  dom x -> dom y -> dom z -> cmp x y = 0 -> cmp x z = cmp y z.
Proof.
  intros Hx Hy Hz E.
  pose proof (cmp_antisym cmp dom x y Hx Hy). pose proof (cmp_range cmp dom x z Hx Hz).
  pose proof (cmp_range cmp dom y z Hy Hz). pose proof (cmp_antisym cmp dom y z Hy Hz).
  pose proof (cmp_antisym cmp dom x z Hx Hz).
  destruct (Ztrichotomy (cmp x z) 0) as [L|[L|L]].
  - pose proof (cmp_le_lt_trans y x z Hy Hx Hz ltac:(lia) L). lia.
  - pose proof (cmp_eq_trans y x z Hy Hx Hz ltac:(lia) L). lia.
  - pose proof (cmp_lt_trans z x y Hz Hx Hy ltac:(lia) ltac:(lia)). lia.
Qed.

Lemma cmp_eq_r x y z :
  dom x -> dom y -> dom z -> cmp y z = 0 -> cmp x y = cmp x z.
Proof.
  intros Hx Hy Hz E.
  pose proof (cmp_eq_l y z x Hy Hz Hx E).
  pose proof (cmp_antisym cmp dom x y Hx Hy). pose proof (cmp_antisym cmp dom x z Hx Hz). lia.
Qed.

(** Sequences are ordered lexicographically. *)
Lemma lex_compare_order : CmpOrder (lex_compare cmp) (Forall dom).
Proof.
  constructor.
  - induction x as [|x xs IH]; intros [|y ys]; simpl; try (intros; lia).
    intros [Hx Hxs]%Forall_cons [Hy Hys]%Forall_cons.
    zcase; [auto|]. by apply (cmp_range cmp dom).
  - induction x as [|x xs IH]; intros [|y ys]; simpl; try (intros; lia).
    intros [Hx Hxs]%Forall_cons [Hy Hys]%Forall_cons.
    pose proof (cmp_antisym cmp dom x y Hx Hy). zcase; try lia. auto.
  - induction x as [|x xs IH]; intros [|y ys] [|z zs]; simpl; try (intros; lia).
    intros [Hx Hxs]%Forall_cons [Hy Hys]%Forall_cons [Hz Hzs]%Forall_cons.
    intros H1 H2.
    destruct (Z.eqb_spec (cmp x y) 0) as [E1|N1].
    + rewrite (cmp_eq_l x y z) by done. zcase; eauto.
    + destruct (Z.eqb_spec (cmp y z) 0) as [E2|N2].
      * rewrite <-(cmp_eq_r x y z) by done. zcase; [lia|]. lia.
      * pose proof (cmp_lt_trans x y z Hx Hy Hz ltac:(lia) H2). zcase; lia.
Qed.

Lemma cmp_order_weaken (dom' : A -> Prop) :
  (forall x, dom' x -> dom x) -> CmpOrder cmp dom'.
Proof.
  intros W. constructor; intros.
  - apply (cmp_range cmp dom); auto.
  - apply (cmp_antisym cmp dom); auto.
  - eapply (cmp_trans cmp dom x y); auto.
Qed.
End CmpOrderFacts.

#[export] Existing Instance lex_compare_order.

(** A comparison that factors through a key inherits its order. *)
Lemma cmp_order_key {A B} (cmp : A -> A -> Z) (dom : A -> Prop)
    (cmpB : B -> B -> Z) (domB : B -> Prop) (key : A -> B) :
  CmpOrder cmpB domB ->
  (forall x, dom x -> domB (key x)) ->
  (forall x y, dom x -> dom y -> cmp x y = cmpB (key x) (key y)) ->
  CmpOrder cmp dom.
Proof.
  intros HB Hd He. constructor; intros.
  - rewrite He by done. apply (cmp_range cmpB domB); auto.
  - rewrite !He by done. apply (cmp_antisym cmpB domB); auto.
  - rewrite !He in * by done. eapply (cmp_trans cmpB domB _ (key y)); eauto.
Qed.

(** Comparison of pairs, first components first. *)
Definition pair_compare {A B} (cmpA : A -> A -> Z) (cmpB : B -> B -> Z)
    (p q : A * B) : Z :=
  let c := cmpA p.1 q.1 in if c =? 0 then cmpB p.2 q.2 else c.

Lemma pair_compare_order {A B} (cmpA : A -> A -> Z) (cmpB : B -> B -> Z) domA domB :
  CmpOrder cmpA domA -> CmpOrder cmpB domB ->
  CmpOrder (pair_compare cmpA cmpB) (fun p => domA p.1 /\ domB p.2).
Proof.
  intros OA OB. unfold pair_compare. constructor.
  - intros x y [] []. zcase; [by apply (cmp_range cmpB domB)|by apply (cmp_range cmpA domA)].
  - intros x y [Hx1 Hx2] [Hy1 Hy2]. pose proof (cmp_antisym cmpA domA x.1 y.1 Hx1 Hy1).
    zcase; try lia. by apply (cmp_antisym cmpB domB).
  - intros x y z [Hx1 Hx2] [Hy1 Hy2] [Hz1 Hz2] H1 H2.
    destruct (Z.eqb_spec (cmpA x.1 y.1) 0) as [E1|N1].
    + rewrite (cmp_eq_l cmpA domA x.1 y.1 z.1) by done.
      zcase; [|lia]. by apply (cmp_trans cmpB domB x.2 y.2 z.2).
    + destruct (Z.eqb_spec (cmpA y.1 z.1) 0) as [E2|N2].
      * rewrite <-(cmp_eq_r cmpA domA x.1 y.1 z.1) by done. zcase; lia.
      * pose proof (cmp_lt_trans cmpA domA x.1 y.1 z.1 Hx1 Hy1 Hz1 ltac:(lia) H2). zcase; lia.
Qed.

#[export] Existing Instance pair_compare_order.

(** ** Integers and strings *)
Definition Z_compare (x y : Z) : Z := Z_of_comparison (x ?= y).

#[export] Instance Z_compare_order : CmpOrder Z_compare (fun _ => True).
Proof.
  unfold Z_compare. constructor; intros *.
  - destruct (x ?= y); simpl; lia.
  - rewrite (Z.compare_antisym x y). destruct (x ?= y); simpl; lia.
  - destruct (Z.compare_spec x y), (Z.compare_spec y z), (Z.compare_spec x z); simpl; lia.
Qed.

Definition ascii_compare (a b : Ascii.ascii) : Z :=
  Z_compare (Z.of_N (Ascii.N_of_ascii a)) (Z.of_N (Ascii.N_of_ascii b)).

#[export] Instance ascii_compare_order : CmpOrder ascii_compare (fun _ => True).
Proof.
  eapply (cmp_order_key _ _ Z_compare (fun _ => True)); [apply _| |]; done.
Qed.

Lemma ascii_compare_spec a b : ascii_compare a b = Z_of_comparison (Ascii.compare a b).
Proof. unfold ascii_compare, Z_compare, Ascii.compare. by rewrite N2Z.inj_compare. Qed.

(** Go's [strings.Compare]: byte-wise lexicographic. *)
Definition strings_Compare (a b : string) : Z := Z_of_comparison (String.compare a b).

Lemma strings_Compare_lex a b :
  strings_Compare a b =
  lex_compare ascii_compare (String.list_ascii_of_string a) (String.list_ascii_of_string b).
Proof.
  unfold strings_Compare. revert b.
  induction a as [|c a IH]; intros [|d b]; simpl; try done.
  rewrite ascii_compare_spec, <-IH. by destruct (Ascii.compare c d).
Qed.

#[export] Instance strings_Compare_order : CmpOrder strings_Compare (fun _ => True).
Proof.
  eapply (cmp_order_key _ _ (lex_compare ascii_compare) (Forall (fun _ => True))
            String.list_ascii_of_string).
  - apply lex_compare_order, _.
  - intros. by apply Forall_true.
  - intros. apply strings_Compare_lex.
Qed.

Lemma Z_of_comparison_0 c : Z_of_comparison c = 0 <-> c = Eq.
Proof. by destruct c. Qed.

Lemma strings_Compare_eq a b : strings_Compare a b = 0 <-> a = b.
Proof.
  split.
  - intros H%Z_of_comparison_0. by apply String.compare_eq_iff.
  - intros ->. by apply (cmp_refl strings_Compare (fun _ => True)).
Qed.

Lemma strings_Compare_refl a : strings_Compare a a = 0.
Proof. by apply strings_Compare_eq. Qed.

Lemma Z_compare_eq a b : Z_compare a b = 0 <-> a = b.
Proof. unfold Z_compare. rewrite Z_of_comparison_0. apply Z.compare_eq_iff. Qed.

(** Go's [==] on strings. *)
Definition string_eqb (a b : string) : bool := bool_decide (a = b).
(** Go's [<] on strings. *)
Definition string_ltb (a b : string) : bool := strings_Compare a b <? 0.

Lemma string_eqb_Compare a b : string_eqb a b = (strings_Compare a b =? 0).
Proof.
  unfold string_eqb. case_bool_decide as E; symmetry.
  - apply Z.eqb_eq. by apply strings_Compare_eq.
  - apply Z.eqb_neq. by rewrite strings_Compare_eq.
Qed.

Lemma string_eqb_refl a : string_eqb a a = true.
Proof. by apply bool_decide_eq_true. Qed.

Lemma string_eqb_true a b : string_eqb a b = true <-> a = b.
Proof. apply bool_decide_eq_true. Qed.

Lemma string_eqb_false a b : string_eqb a b = false <-> a <> b.
Proof. apply bool_decide_eq_false. Qed.

#[export] Hint Rewrite string_eqb_refl strings_Compare_refl : smd.

(** ** Lists *)
Lemma Forall2_impl_in {A B} (P Q : A -> B -> Prop) l k :
  (forall x y, x ∈ l -> y ∈ k -> P x y -> Q x y) -> Forall2 P l k -> Forall2 Q l k.
Proof.
  intros H F. induction F as [|x y l k HP F IH]; constructor.
  - apply H; [left|left|done].
  - apply IH. intros. apply H; [by right|by right|done].
Qed.

Lemma forallb_Forall {A} (p : A -> bool) l : forallb p l = true <-> Forall (fun x => p x = true) l.
Proof.
  rewrite Forall_forall. rewrite forallb_forall. by setoid_rewrite list_elem_of_In.
Qed.

(** ** Association lists: Go maps with a fixed enumeration order *)
Section Assoc.
Context {V : Type}.
Implicit Types (m : list (string * V)) (k : string).

(** [m[k]] with the second result: the value, if the key is present. *)
Fixpoint assoc_get k m : option V :=
  match m with
  | [] => None
  | (k', v) :: m' => if string_eqb k' k then Some v else assoc_get k m'
  end.

Definition assoc_has k m : bool :=
  match assoc_get k m with Some _ => true | None => false end.

(** [m[k] = v]: replaces the value of a present key, adds an absent one. *)
Fixpoint assoc_set k (v : V) m : list (string * V) :=
  match m with
  | [] => [(k, v)]
  | (k', v') :: m' =>
    if string_eqb k' k then (k', v) :: m' else (k', v') :: assoc_set k v m'
  end.

(** [delete(m, k)]. *)
Definition assoc_delete k m : list (string * V) :=
  base.filter (fun kv => kv.1 <> k) m.

Definition assoc_keys m : list string := m.*1.

Lemma assoc_get_Some k v m : assoc_get k m = Some v -> (k, v) ∈ m.
Proof.
  induction m as [|[k' v'] m IH]; simpl; [done|].
  destruct (string_eqb k' k) eqn:E.
  - apply string_eqb_true in E as ->. intros [= ->]. left.
  - intros H. right. auto.
Qed.

Lemma assoc_get_None k m : assoc_get k m = None <-> k ∉ assoc_keys m.
Proof.
  unfold assoc_keys. induction m as [|[k' v'] m IH]; simpl.
  - split; [intros _; apply not_elem_of_nil|done].
  - rewrite not_elem_of_cons. destruct (string_eqb k' k) eqn:E.
    + apply string_eqb_true in E as ->. split; [done|]. by intros [].
    + apply string_eqb_false in E. rewrite IH. split; [|by intros [_ ?]].
      intros ?; split; [congruence|done].
Qed.

Lemma assoc_get_NoDup k v m :
  NoDup (assoc_keys m) -> assoc_get k m = Some v <-> (k, v) ∈ m.
Proof.
  intros ND. split; [apply assoc_get_Some|].
  unfold assoc_keys in ND. induction m as [|[k' v'] m IH]; simpl.
  - by intros ?%not_elem_of_nil.
  - simpl in ND. apply NoDup_cons in ND as [Hn ND].
    rewrite elem_of_cons. intros [[= -> ->]|Hin].
    + by rewrite string_eqb_refl.
    + destruct (string_eqb k' k) eqn:E; [|auto].
      apply string_eqb_true in E as ->.
      exfalso. apply Hn. by apply (list_elem_of_fmap_2 fst _ (k, v)).
Qed.

Lemma assoc_get_perm k m1 m2 :
  NoDup (assoc_keys m1) -> m1 ≡ₚ m2 -> assoc_get k m1 = assoc_get k m2.
Proof.
  intros ND P.
  assert (ND2 : NoDup (assoc_keys m2)) by (unfold assoc_keys in *; by rewrite <-P).
  apply option_eq. intros v. rewrite !assoc_get_NoDup by done. by rewrite P.
Qed.

Lemma assoc_get_set k k' v m :
  assoc_get k' (assoc_set k v m) = if string_eqb k k' then Some v else assoc_get k' m.
Proof.
  induction m as [|[k0 v0] m IH]; simpl; [done|].
  destruct (string_eqb k0 k) eqn:E; simpl.
  - apply string_eqb_true in E as ->. by destruct (string_eqb k k').
  - rewrite IH. destruct (string_eqb k0 k') eqn:E2; [|done].
    apply string_eqb_true in E2 as ->.
    destruct (string_eqb k k') eqn:E3; [|done].
    apply string_eqb_true in E3 as ->. by rewrite string_eqb_refl in E.
Qed.

Lemma assoc_set_absent k v m : assoc_get k m = None -> assoc_set k v m = m ++ [(k, v)].
Proof.
  induction m as [|[k' v'] m IH]; simpl; [done|]. destruct (string_eqb k' k); [done|].
  intros H. by rewrite IH.
Qed.

Lemma assoc_set_keys k v m : forall x, x ∈ assoc_keys (assoc_set k v m) -> x = k \/ x ∈ assoc_keys m.
Proof.
  induction m as [|[k' v'] m IH]; simpl; intros x Hx.
  - apply list_elem_of_singleton in Hx. by left.
  - destruct (string_eqb k' k); [by right|]. apply elem_of_cons in Hx as [-> |Hx]; [right; left|].
    apply IH in Hx as [-> |Hx]; [by left|right; by right].
Qed.

Lemma assoc_set_elem k v m x : x ∈ assoc_keys (assoc_set k v m) <-> x = k \/ x ∈ assoc_keys m.
Proof.
  split; [apply assoc_set_keys|]. intros H. destruct (decide (x ∈ assoc_keys (assoc_set k v m))) as [|N]; [done|].
  apply assoc_get_None in N. rewrite assoc_get_set in N. destruct (string_eqb k x) eqn:E; [done|].
  apply assoc_get_None in N. destruct H as [-> |H]; [by rewrite string_eqb_refl in E|done].
Qed.

Lemma assoc_set_Forall (P : string * V -> Prop) k v m : P (k, v) -> Forall P m -> Forall P (assoc_set k v m).
Proof.
  intros Hk F. induction F as [|[k' v'] m Hv F IH]; cbn [assoc_set]; [by repeat constructor|].
  destruct (string_eqb k' k) eqn:E; [apply string_eqb_true in E as ->|]; by constructor.
Qed.

Lemma assoc_set_NoDup k v m : NoDup (assoc_keys m) -> NoDup (assoc_keys (assoc_set k v m)).
Proof.
  unfold assoc_keys. induction m as [|[k' v'] m IH]; cbn [assoc_set]; [intros _; apply NoDup_singleton|].
  destruct (string_eqb k' k) eqn:E; [done|]. rewrite !fmap_cons. cbn [fst]. intros [Hk ND]%NoDup_cons. apply NoDup_cons.
  split; [|by apply IH]. intros [-> |H]%assoc_set_keys; [by rewrite string_eqb_refl in E|done].
Qed.

Lemma assoc_delete_cons k k' x m :
  assoc_delete k ((k', x) :: m) = if string_eqb k' k then assoc_delete k m else (k', x) :: assoc_delete k m.
Proof.
  unfold assoc_delete. rewrite filter_cons. cbn [fst]. destruct (string_eqb k' k) eqn:E.
  - apply string_eqb_true in E. by rewrite decide_False by congruence.
  - apply string_eqb_false in E. by rewrite decide_True.
Qed.

Lemma assoc_get_delete k k' m :
  assoc_get k' (assoc_delete k m) = if string_eqb k k' then None else assoc_get k' m.
Proof.
  induction m as [|[k0 v] m IH]; [by destruct (string_eqb k k')|]. rewrite assoc_delete_cons. cbn [assoc_get].
  destruct (string_eqb k0 k) eqn:E.
  - apply string_eqb_true in E as ->. rewrite IH. by destruct (string_eqb k k').
  - cbn [assoc_get]. rewrite IH. destruct (string_eqb k k') eqn:E2; [|done].
    apply string_eqb_true in E2 as <-. by rewrite E.
Qed.

End Assoc.
