(* ===== verification/GoLib.v ===== *)
(** * The parts of Go's standard library the packages rely on

    [sort.Search] (the binary search every sorted slice of package [fieldpath]
    is accessed with), the stable sort of [sort.SliceStable]/[sort.Strings],
    and the list lookup both are used through.  Also the generic theory of
    slices kept sorted by a key: what binary search finds in them, and what the
    two-index merge loops of the code compute. *)
From S2P Require Import Prelude.

(** ** sort.Search *)

(** One run of the loop of [sort.Search] from the bounds [i], [j]. *)
Fixpoint search_loop (fuel : nat) (f : nat -> bool) (i j : nat) : nat :=
  match fuel with
  | O => i
  | S fuel =>
    if (i <? j)%nat then
      let h := ((i + j) / 2)%nat in
      if f h then search_loop fuel f i h else search_loop fuel f (S h) j
    else i
  end.

(** [n] rounds always suffice: each one shrinks [j - i]. *)
Definition sort_Search (n : nat) (f : nat -> bool) : nat := search_loop n f 0 n.

Lemma search_loop_spec fuel f b i j :
  (j - i <= fuel)%nat -> (i <= b <= j)%nat ->
  (forall k, (i <= k < b)%nat -> f k = false) ->
  (forall k, (b <= k < j)%nat -> f k = true) ->
  search_loop fuel f i j = b.
Proof.
  revert i j. induction fuel as [|fuel IH]; intros i j Hf Hb Hlo Hhi; cbn [search_loop].
  - lia.
  - destruct (Nat.ltb_spec i j) as [Hij|]; [|lia].
    assert (Hh : (i <= (i + j) / 2 < j)%nat).
    { split; [apply Nat.div_le_lower_bound; lia|apply Nat.Div0.div_lt_upper_bound; lia]. }
    cbv zeta. destruct (f ((i + j) / 2)%nat) eqn:E.
    + apply IH; try lia.
      * destruct (decide (b <= (i + j) / 2)%nat); [lia|].
        rewrite Hlo in E by lia. done.
      * intros k Hk. apply Hlo. lia.
      * intros k Hk. apply Hhi. lia.
    + destruct (decide (b <= (i + j) / 2)%nat).
      { rewrite Hhi in E by lia. done. }
      apply IH; try lia; intros k Hk; [apply Hlo|apply Hhi]; lia.
Qed.

(** [sort.Search] returns the boundary of a monotone predicate. *)
Lemma sort_Search_spec n f b :
  (b <= n)%nat ->
  (forall k, (k < b)%nat -> f k = false) ->
  (forall k, (b <= k < n)%nat -> f k = true) ->
  sort_Search n f = b.
Proof. intros. apply search_loop_spec; try lia; eauto with lia. Qed.

(** ** Stable sorting *)
Section StableSort.
Context {A : Type} (less : A -> A -> bool).

Fixpoint insert_stable (x : A) (l : list A) : list A :=
  match l with
  | [] => [x]
  | y :: l' => if less y x then y :: insert_stable x l' else x :: y :: l'
  end.

(** The result of [sort.SliceStable] with comparison [less]. *)
Definition sort_stable (l : list A) : list A := foldr insert_stable [] l.

Lemma insert_stable_perm x l : insert_stable x l ≡ₚ x :: l.
Proof.
  induction l as [|y l IH]; simpl; [done|].
  destruct (less y x); [|done]. rewrite IH. apply Permutation_swap.
Qed.

Lemma sort_stable_perm l : sort_stable l ≡ₚ l.
Proof.
  induction l as [|x l IH]; simpl; [done|].
  by rewrite insert_stable_perm, IH.
Qed.
End StableSort.

Section StableSortOrder.
Context {A : Type} (cmp : A -> A -> Z) (dom : A -> Prop) `{!CmpOrder cmp dom}.
Let less x y := cmp x y <? 0.

Lemma insert_stable_sorted x l :
  dom x -> Forall dom l -> StronglySorted (fun a b => cmp a b <= 0) l ->
  StronglySorted (fun a b => cmp a b <= 0) (insert_stable less x l).
Proof.
  intros Hx. induction l as [|y l IH]; simpl; intros Hd HS.
  - repeat constructor.
  - apply Forall_cons in Hd as [Hy Hd].
    apply StronglySorted_inv in HS as [HS Hall].
    subst less. simpl in *. destruct (Z.ltb_spec (cmp y x) 0) as [L|L].
    + constructor; [auto|].
      rewrite insert_stable_perm. constructor; [lia|done].
    + pose proof (cmp_antisym cmp dom x y Hx Hy).
      constructor; [by constructor|]. constructor; [lia|].
      rewrite Forall_forall in Hall, Hd |- *. intros z Hz.
      apply (cmp_trans cmp dom x y z); auto. lia.
Qed.

Lemma sort_stable_sorted l :
  Forall dom l -> StronglySorted (fun a b => cmp a b <= 0) (sort_stable less l).
Proof.
  induction l as [|x l IH]; simpl; intros Hd; [constructor|].
  apply Forall_cons in Hd as [Hx Hd]. apply insert_stable_sorted; auto.
  by rewrite sort_stable_perm.
Qed.
End StableSortOrder.
