(* ===== verification/GoFloat.v ===== *)
(** * Go's float64, and the conversion from int64

    A float64 is an IEEE-754 binary64 datum, here the Standard Library's
    [spec_float] (signed zeros, infinities, NaN, and sign/mantissa/exponent).
    The comparison operators are the IEEE ones; [float64(i)] rounds to nearest
    even with 53 bits of precision. *)
From S2P Require Import Prelude.
From Stdlib Require Export SpecFloat.

(** [l == r], [l < r] and [l > r] on float64: all false when one is a NaN. *)
Definition float_eqb (l r : spec_float) : bool := SFeqb l r.
Definition float_ltb (l r : spec_float) : bool := SFltb l r.
Definition float_gtb (l r : spec_float) : bool := SFltb r l.

(** [float64(i)] for an int64 [i]. *)
Definition float64_of_int (i : Z) : spec_float := binary_normalize 53 1024 i 0 false.

Definition float_is_nan (f : spec_float) : bool :=
  match f with S754_nan => true | _ => false end.

(** Position of a non-NaN float in the order, as a sequence of integers
    compared lexicographically. *)
Definition float_key (f : spec_float) : list Z :=
  match f with
  | S754_infinity true => [-2]
  | S754_finite true m e => [-1; -e; - Zpos m]
  | S754_zero _ => [0]
  | S754_finite false m e => [1; e; Zpos m]
  | S754_infinity false => [2]
  | S754_nan => []
  end.

Lemma SFcompare_key l r :
  float_is_nan l = false -> float_is_nan r = false ->
  exists c, SFcompare l r = Some c /\
    Z_of_comparison c = lex_compare Z_compare (float_key l) (float_key r).
Proof.
  assert (Z_compare_opp : forall a b, Z_compare (-a) (-b) = Z_compare b a).
  { intros. unfold Z_compare. by rewrite Z.compare_opp. }
  destruct l as [[]|[]| |[] m1 e1], r as [[]|[]| |[] m2 e2]; simpl; intros; try done;
    eexists; (split; [done|]); try done.
  - change (Z.neg m1) with (- Zpos m1). change (Z.neg m2) with (- Zpos m2).
    rewrite !Z_compare_opp. unfold Z_compare.
    change (Zpos m2 ?= Zpos m1) with (m2 ?= m1)%positive.
    rewrite (Pos.compare_antisym m1 m2), (Z.compare_antisym e1 e2).
    change (Pos.compare_cont Eq m1 m2) with (m1 ?= m2)%positive.
    destruct (e1 ?= e2), (m1 ?= m2)%positive; done.
  - unfold Z_compare. change (Pos.compare_cont Eq m1 m2) with (m1 ?= m2)%positive.
    change (Zpos m1 ?= Zpos m2) with (m1 ?= m2)%positive.
    destruct (e1 ?= e2), (m1 ?= m2)%positive; done.
Qed.

(** ** Integers of at most 53 bits convert exactly *)

Lemma digits2_pos_size m : digits2_pos m = Pos.size m.
Proof. induction m; simpl; congruence. Qed.

Lemma digits2_pos_shift m k :
  Zpos (digits2_pos (Pos.iter xO m k)) = Zpos (digits2_pos m) + Zpos k.
Proof.
  induction k using Pos.peano_ind.
  - simpl. lia.
  - rewrite Pos.iter_succ. simpl. lia.
Qed.

Lemma pos_shift_value m k : Zpos (Pos.iter xO m k) = Zpos m * 2 ^ Zpos k.
Proof.
  induction k using Pos.peano_ind; [simpl; lia|].
  rewrite Pos.iter_succ, Pos2Z.inj_succ, Z.pow_succ_r by lia.
  rewrite Pos2Z.inj_xO, IHk. lia.
Qed.

Lemma digits2_pos_bounds m :
  2 ^ (Zpos (digits2_pos m) - 1) <= Zpos m < 2 ^ Zpos (digits2_pos m).
Proof.
  rewrite digits2_pos_size. split.
  - pose proof (Pos.size_le m). replace (Zpos (Pos.size m) - 1) with (Z.pred (Zpos (Pos.size m))) by lia.
    assert (2 ^ Zpos (Pos.size m) <= Zpos m~0) by (rewrite <-Pos2Z.inj_pow; apply H).
    replace (Zpos (Pos.size m)) with (Z.succ (Z.pred (Zpos (Pos.size m)))) in H0 by lia.
    rewrite Z.pow_succ_r in H0 by lia. lia.
  - pose proof (Pos.size_gt m). rewrite <-Pos2Z.inj_pow. apply H.
Qed.

(** A mantissa of exactly 53 bits with a non-positive exponent is left as it is. *)
Lemma shr_fexp_exact m e :
  Zpos (digits2_pos m) = 53 -> -53 <= e <= 0 ->
  shr_fexp 53 1024 (Zpos m) e loc_Exact = (Build_shr_record (Zpos m) false false, e).
Proof.
  intros Hd He. unfold shr_fexp, Zdigits2. rewrite Hd.
  replace (Z.sub (fexp 53 1024 (Z.add 53 e)) e) with 0; [done|].
  unfold fexp, emin. lia.
Qed.

Lemma binary_round_exact s m :
  Zpos (digits2_pos m) <= 53 ->
  exists m', binary_round 53 1024 s m 0 = S754_finite s m' (Zpos (digits2_pos m) - 53)
    /\ Zpos m' = Zpos m * 2 ^ (53 - Zpos (digits2_pos m)).
Proof.
  intros Hd. set (d := Zpos (digits2_pos m)) in *.
  assert (0 < d) by done.
  assert (Hal : exists m', shl_align m 0 (fexp 53 1024 (Z.add d 0)) = (m', d - 53)
    /\ Zpos (digits2_pos m') = 53 /\ Zpos m' = Zpos m * 2 ^ (53 - d)).
  { unfold shl_align. replace (Z.sub (fexp 53 1024 (Z.add d 0)) 0) with (d - 53)
      by (unfold fexp, emin; lia).
    replace (fexp 53 1024 (Z.add d 0)) with (d - 53) by (unfold fexp, emin; lia).
    destruct (d - 53) as [|p|p] eqn:E; [| |].
    - exists m. replace (53 - d) with 0 by lia. split_and!; [done|subst d; lia|lia].
    - lia.
    - exists (Pos.iter xO m p). split_and!; [done| |].
      + rewrite digits2_pos_shift. subst d. lia.
      + rewrite pos_shift_value. by replace (53 - d) with (Zpos p) by lia. }
  destruct Hal as (m' & Hal & Hd' & Hv). exists m'. split; [|done].
  unfold binary_round. fold d. rewrite Hal. unfold binary_round_aux.
  rewrite shr_fexp_exact by lia. cbn [shr_m loc_of_shr_record round_nearest_even].
  rewrite shr_fexp_exact by lia. cbn [shr_m].
  destruct (Z.leb_spec (d - 53) (Z.sub 1024 53)); [done|lia].
Qed.

(** The largest magnitude up to which every int64 is a float64. *)
Definition float_exact_bound : Z := 2 ^ 53.

Definition int_is_exact (i : Z) : bool := Z.abs i <? float_exact_bound.

Lemma digits2_pos_exact m : Zpos m < float_exact_bound -> Zpos (digits2_pos m) <= 53.
Proof.
  intros H. pose proof (digits2_pos_bounds m) as [Hb _].
  assert (Zpos (digits2_pos m) - 1 < 53); [|lia].
  apply (Z.pow_lt_mono_r_iff 2); unfold float_exact_bound in *; lia.
Qed.

Lemma shifted_compare a b :
  0 < a < float_exact_bound -> 0 < b < float_exact_bound ->
  forall da db, 2 ^ (da - 1) <= a < 2 ^ da -> 2 ^ (db - 1) <= b < 2 ^ db ->
  0 < da <= 53 -> 0 < db <= 53 ->
  lex_compare Z_compare [da - 53; a * 2 ^ (53 - da)] [db - 53; b * 2 ^ (53 - db)]
  = Z_compare a b.
Proof.
  intros Ha Hb da db Hda Hdb Hd1 Hd2. simpl. unfold Z_compare.
  destruct (Z.compare_spec (da - 53) (db - 53)) as [E|L|L]; simpl.
  - assert (da = db) as -> by lia.
    assert (0 < 2 ^ (53 - db)) by (apply Z.pow_pos_nonneg; lia).
    destruct (Z.compare_spec (a * 2 ^ (53 - db)) (b * 2 ^ (53 - db))), (Z.compare_spec a b);
      simpl; nia.
  - assert (2 ^ da <= 2 ^ (db - 1)) by (apply Z.pow_le_mono_r; lia).
    assert (a < b) by lia. by rewrite (proj2 (Z.compare_lt_iff a b)).
  - assert (2 ^ db <= 2 ^ (da - 1)) by (apply Z.pow_le_mono_r; lia).
    assert (b < a) by lia. by rewrite (proj2 (Z.compare_gt_iff a b)).
Qed.

(** The key of a converted integer: sign, bit length and scaled magnitude. *)
Lemma float64_of_int_key i :
  int_is_exact i = true ->
  (i = 0 /\ float_key (float64_of_int i) = [0]) \/
  (exists m d m', i = Zpos m /\ float_key (float64_of_int i) = [1; d - 53; Zpos m'] /\
     d = Zpos (digits2_pos m) /\ d <= 53 /\ Zpos m' = Zpos m * 2 ^ (53 - d)) \/
  (exists m d m', i = Zneg m /\ float_key (float64_of_int i) = [-1; - (d - 53); - Zpos m'] /\
     d = Zpos (digits2_pos m) /\ d <= 53 /\ Zpos m' = Zpos m * 2 ^ (53 - d)).
Proof.
  unfold int_is_exact. intros H%Z.ltb_lt. unfold float64_of_int.
  destruct i as [|m|m]; simpl binary_normalize.
  - by left.
  - right; left. destruct (binary_round_exact false m) as (m' & -> & Hm').
    { apply digits2_pos_exact. lia. }
    exists m, (Zpos (digits2_pos m)), m'. split_and!; try done.
    apply digits2_pos_exact. lia.
  - right; right. destruct (binary_round_exact true m) as (m' & -> & Hm').
    { apply digits2_pos_exact. lia. }
    exists m, (Zpos (digits2_pos m)), m'. split_and!; try done.
    apply digits2_pos_exact. lia.
Qed.

Lemma float64_of_int_not_nan i : int_is_exact i = true -> float_is_nan (float64_of_int i) = false.
Proof.
  intros H%float64_of_int_key. destruct (float64_of_int i); try done.
  destruct H as [[_ ?]|[(?&?&?&_&?&_)|(?&?&?&_&?&_)]]; done.
Qed.

(** On exactly representable integers the conversion preserves the order. *)
Lemma float64_of_int_compare i j :
  int_is_exact i = true -> int_is_exact j = true ->
  lex_compare Z_compare (float_key (float64_of_int i)) (float_key (float64_of_int j))
  = Z_compare i j.
Proof.
  intros Hi Hj. pose proof Hi as Hi'. pose proof Hj as Hj'.
  unfold int_is_exact in Hi', Hj'. apply Z.ltb_lt in Hi', Hj'.
  destruct (float64_of_int_key i Hi) as [[-> ->]|[(m&d&m'&->&->&Hd&Hd'&Hm)|(m&d&m'&->&->&Hd&Hd'&Hm)]];
  destruct (float64_of_int_key j Hj) as [[-> ->]|[(n&e&n'&->&->&He&He'&Hn)|(n&e&n'&->&->&He&He'&Hn)]];
  try done.
  - pose proof (digits2_pos_bounds m). pose proof (digits2_pos_bounds n).
    rewrite <-(shifted_compare (Zpos m) (Zpos n)) with (da := d) (db := e); [|lia|lia| | |lia|lia];
      [|by rewrite Hd|by rewrite He].
    rewrite Hm, Hn. done.
  - pose proof (digits2_pos_bounds m). pose proof (digits2_pos_bounds n).
    replace (Z_compare (Z.neg m) (Z.neg n)) with (Z_compare (Zpos n) (Zpos m)).
    2:{ unfold Z_compare. change (Z.neg m) with (- Zpos m). change (Z.neg n) with (- Zpos n).
        by rewrite Z.compare_opp. }
    rewrite <-(shifted_compare (Zpos n) (Zpos m)) with (da := e) (db := d); [|lia|lia| | |lia|lia];
      [|by rewrite He|by rewrite Hd].
    rewrite Hm, Hn. cbn -[Z.mul Z.pow Z.sub Z_compare Z.opp].
    unfold Z_compare. rewrite !Z.compare_opp. done.
Qed.
