(* ===== verification/Value.v ===== *)
(** * Package value: unstructured values, their equality and ordering

    Models [value/value.go], [value/valueunstructured.go],
    [value/listunstructured.go], [value/mapunstructured.go] (string-keyed maps),
    [value/list.go], [value/map.go], [value/scalar.go] and [value/fields.go].

    A [value] is the dynamic Go [interface{}] a [valueUnstructured] wraps.  A Go
    map is its entries in the order the runtime enumerates them; that order is
    arbitrary, so every result about maps is stated for all orders.  The Go
    interface value [nil] (as opposed to a JSON null) is [None] of
    [option value].

    Recursive Go functions are written as a non-recursive body over the
    recursive call, closed by fuel; the fuel is the height of the left operand
    and the [*_unfold] lemmas show that it never runs out. *)
From S2P Require Import Prelude GoLib GoFloat.

(** The integer types an [interface{}] can hold. *)
Inductive IntKind :=
  | KInt | KInt8 | KInt16 | KInt32 | KInt64
  | KUint | KUint8 | KUint16 | KUint32 | KUint64.

#[warnings="-register-all"]
Inductive value : Type :=
  | VNull
  | VBool (b : bool)
  | VInt (k : IntKind) (i : Z)
  | VFloat32 (f : spec_float)
  | VFloat64 (f : spec_float)
  | VString (s : string)
  | VList (l : list value)
  | VMap (m : list (string * value)).

(** A [value.Map] backed by [map[string]interface{}]. *)
Abbreviation Map := (list (string * value)).

Section ValueInd.
Context (P : value -> Prop).
Hypothesis (Hnull : P VNull) (Hbool : forall b, P (VBool b))
  (Hint : forall k i, P (VInt k i)) (Hf32 : forall f, P (VFloat32 f))
  (Hf64 : forall f, P (VFloat64 f)) (Hstr : forall s, P (VString s))
  (Hlist : forall l, Forall P l -> P (VList l))
  (Hmap : forall m : Map, Forall (fun kv => P kv.2) m -> P (VMap m)).

Fixpoint value_rect_nested (v : value) : P v :=
  match v with
  | VNull => Hnull
  | VBool b => Hbool b
  | VInt k i => Hint k i
  | VFloat32 f => Hf32 f
  | VFloat64 f => Hf64 f
  | VString s => Hstr s
  | VList l => Hlist l
      ((fix go l := match l return Forall P l with
        | [] => List.Forall_nil _
        | v :: l' => List.Forall_cons _ _ _ (value_rect_nested v) (go l')
        end) l)
  | VMap m => Hmap m
      ((fix go (m : Map) := match m return Forall (fun kv => P kv.2) m with
        | [] => List.Forall_nil _
        | kv :: m' => List.Forall_cons _ _ _ (value_rect_nested kv.2) (go m')
        end) m)
  end.
End ValueInd.

(** ** Methods of valueUnstructured *)

Definition IsMap (v : value) : bool := match v with VMap _ => true | _ => false end.
Definition IsList (v : value) : bool := match v with VList _ => true | _ => false end.
Definition IsFloat (v : value) : bool :=
  match v with VFloat64 _ | VFloat32 _ => true | _ => false end.
(** [uint64] is not an Int: it does not fit an int64. *)
Definition IsInt (v : value) : bool :=
  match v with
  | VInt KUint64 _ => false
  | VInt _ _ => true
  | _ => false
  end.
Definition IsString (v : value) : bool := match v with VString _ => true | _ => false end.
Definition IsBool (v : value) : bool := match v with VBool _ => true | _ => false end.
Definition IsNull (v : value) : bool := match v with VNull => true | _ => false end.

(** The conversion [int64(i)]. *)
Definition to_int64 (i : Z) : Z := (i + 2 ^ 63) mod 2 ^ 64 - 2 ^ 63.

(** The [As*] conversions panic outside their [Is*] test; every call in the
    packages is guarded by it, so the results given here for the other cases
    are never observed. *)
Definition AsMap (v : value) : Map := match v with VMap m => m | _ => [] end.
Definition AsList (v : value) : list value := match v with VList l => l | _ => [] end.
Definition AsFloat (v : value) : spec_float :=
  match v with VFloat32 f | VFloat64 f => f | _ => S754_nan end.
Definition AsInt (v : value) : Z := match v with VInt _ i => to_int64 i | _ => 0 end.
Definition AsString (v : value) : string := match v with VString s => s | _ => EmptyString end.
Definition AsBool (v : value) : bool := match v with VBool b => b | _ => false end.

(** ** scalar.go *)

Definition FloatCompare (lhs rhs : spec_float) : Z :=
  if float_gtb lhs rhs then 1 else if float_ltb lhs rhs then -1 else 0.

Definition IntCompare (lhs rhs : Z) : Z :=
  if rhs <? lhs then 1 else if lhs <? rhs then -1 else 0.

Definition BoolCompare (lhs rhs : bool) : Z :=
  if Bool.eqb lhs rhs then 0 else if Bool.eqb lhs false then -1 else 1.

(** ** map.go: traversing two maps together *)

Inductive MapTraverseOrder := Unordered | LexicalKeyOrder.

Definition map_Length (m : option Map) : nat :=
  match m with Some m => length m | None => 0 end.
Definition map_Empty (m : option Map) : bool := (map_Length m =? 0)%nat.
Definition map_Get (m : option Map) (k : string) : option value :=
  match m with Some m => assoc_get k m | None => None end.

Section Zip.
(** [fn] is the callback, with the variables it captures as the state [S];
    its boolean result says whether to go on. *)
Context {S : Type} (fn : string -> option value -> option value -> S -> S * bool).

(** [Map.Iterate]: run [f] on each entry until it returns false. *)
Fixpoint map_Iterate (f : string -> value -> S -> S * bool) (m : Map) (s : S) : S * bool :=
  match m with
  | [] => (s, true)
  | (k, v) :: m' =>
    let '(s', ok) := f k v s in
    if ok then map_Iterate f m' s' else (s', false)
  end.

Definition unorderedMapZip (lhs rhs : option Map) (s : S) : S * bool :=
  if map_Empty lhs && map_Empty rhs then (s, true)
  else
    let '(s, ok) :=
      match lhs with
      | Some l => map_Iterate (fun key lhsValue => fn key (Some lhsValue) (map_Get rhs key)) l s
      | None => (s, true)
      end in
    if negb ok then (s, false)
    else
      match rhs with
      | Some r =>
        map_Iterate (fun key rhsValue s =>
          match map_Get lhs key with
          | None => fn key None (Some rhsValue) s
          | Some _ => (s, true)
          end) r s
      | None => (s, true)
      end.

(** The keys of both maps, sorted by [sort.Strings]. *)
Definition orderedKeys (lhs rhs : option Map) : list string :=
  let l := match lhs with Some l => assoc_keys l | None => [] end in
  let r := match rhs with
    | Some r => base.filter (fun key => map_Get lhs key = None) (assoc_keys r)
    | None => []
    end in
  sort_stable string_ltb (l ++ r).

Fixpoint zipKeys (lhs rhs : option Map) (ordered : list string) (s : S) : S * bool :=
  match ordered with
  | [] => (s, true)
  | key :: ordered' =>
    let '(s', ok) := fn key (map_Get lhs key) (map_Get rhs key) s in
    if ok then zipKeys lhs rhs ordered' s' else (s', false)
  end.

Definition lexicalKeyOrderedMapZip (lhs rhs : option Map) (s : S) : S * bool :=
  if ((map_Length lhs =? 0) && (map_Length rhs =? 0))%nat then (s, true)
  else zipKeys lhs rhs (orderedKeys lhs rhs) s.

Definition defaultMapZip (lhs rhs : option Map) (order : MapTraverseOrder) (s : S) : S * bool :=
  match order with
  | Unordered => unorderedMapZip lhs rhs s
  | LexicalKeyOrder => lexicalKeyOrderedMapZip lhs rhs s
  end.
End Zip.

Definition MapZipUsing {S} (lhs rhs : option Map) (order : MapTraverseOrder)
    (fn : string -> option value -> option value -> S -> S * bool) (s : S) : S * bool :=
  match lhs, rhs with
  | Some _, _ => defaultMapZip fn lhs rhs order s
  | None, Some _ => defaultMapZip (fun key rhs lhs => fn key lhs rhs) rhs lhs order s
  | None, None => (s, true)
  end.

(** ** Equality *)
Section EqualsBody.
(** The recursive call of [EqualsUsing]. *)
Variable Equals : value -> value -> bool.

Fixpoint listRangeEquals (lhs rhs : list value) : bool :=
  match lhs, rhs with
  | lv :: lhs', rv :: rhs' => if Equals lv rv then listRangeEquals lhs' rhs' else false
  | _, _ => true
  end.

Definition ListEqualsUsing (lhs rhs : list value) : bool :=
  if negb (length lhs =? length rhs)%nat then false else listRangeEquals lhs rhs.

(** [mapUnstructuredString.EqualsUsing]. *)
Definition mapUnstructuredString_EqualsUsing (m other : Map) : bool :=
  if negb (length m =? length other)%nat then false
  else if (length m =? 0)%nat then true
  else
    (map_Iterate (fun key v (_ : unit) =>
      match assoc_get key m with
      | None => (tt, false)
      | Some lhsVal => (tt, Equals lhsVal v)
      end) other tt).2.

(** The number a value stands for in a comparison with a float. *)
Definition floatOperand (v : value) : option spec_float :=
  if IsFloat v then Some (AsFloat v)
  else if IsInt v then Some (float64_of_int (AsInt v))
  else None.

Definition EqualsUsing (lhs rhs : value) : bool :=
  if IsFloat lhs || IsFloat rhs then
    match floatOperand lhs, floatOperand rhs with
    | Some lf, Some rf => float_eqb lf rf
    | _, _ => false
    end
  else if IsInt lhs then
    if IsInt rhs then AsInt lhs =? AsInt rhs else false
  else if IsInt rhs then false
  else if IsString lhs then
    if IsString rhs then string_eqb (AsString lhs) (AsString rhs) else false
  else if IsString rhs then false
  else if IsBool lhs then
    if IsBool rhs then Bool.eqb (AsBool lhs) (AsBool rhs) else false
  else if IsBool rhs then false
  else if IsList lhs then
    if IsList rhs then ListEqualsUsing (AsList lhs) (AsList rhs) else false
  else if IsList rhs then false
  else if IsMap lhs then
    if IsMap rhs then mapUnstructuredString_EqualsUsing (AsMap lhs) (AsMap rhs) else false
  else if IsMap rhs then false
  else if IsNull lhs then
    if IsNull rhs then true else false
  else if IsNull rhs then false
  else true.
End EqualsBody.

(** ** Ordering *)
Section CompareBody.
(** The recursive call of [CompareUsing]. *)
Variable Compare : value -> value -> Z.

Fixpoint ListCompareUsing (lhs rhs : list value) : Z :=
  match lhs, rhs with
  | [], [] => 0
  | [], _ :: _ => -1
  | _ :: _, [] => 1
  | lv :: lhs', rv :: rhs' =>
    let c := Compare lv rv in
    if negb (c =? 0) then c else ListCompareUsing lhs' rhs'
  end.

Definition MapCompareUsing (lhs rhs : option Map) : Z :=
  let llength := map_Length lhs in
  let rlength := map_Length rhs in
  if ((llength =? 0) && (rlength =? 0))%nat then 0
  else
    (MapZipUsing lhs rhs LexicalKeyOrder
      (fun key lhs rhs '(_, i) =>
        let c :=
          if (i =? llength)%nat then -1
          else if (i =? rlength)%nat then 1
          else match lhs, rhs with
            | None, _ => 1
            | _, None => -1
            | Some l, Some r => Compare l r
            end in
        ((c, S i), c =? 0)) (0, O)).1.1.

Definition CompareUsing (lhs rhs : value) : Z :=
  if IsFloat lhs then
    if negb (IsFloat rhs) then
      if IsInt rhs then FloatCompare (AsFloat lhs) (float64_of_int (AsInt rhs)) else -1
    else FloatCompare (AsFloat lhs) (AsFloat rhs)
  else if IsFloat rhs then
    if IsInt lhs then FloatCompare (float64_of_int (AsInt lhs)) (AsFloat rhs) else 1
  else if IsInt lhs then
    if negb (IsInt rhs) then -1 else IntCompare (AsInt lhs) (AsInt rhs)
  else if IsInt rhs then 1
  else if IsString lhs then
    if negb (IsString rhs) then -1 else strings_Compare (AsString lhs) (AsString rhs)
  else if IsString rhs then 1
  else if IsBool lhs then
    if negb (IsBool rhs) then -1 else BoolCompare (AsBool lhs) (AsBool rhs)
  else if IsBool rhs then 1
  else if IsList lhs then
    if negb (IsList rhs) then -1 else ListCompareUsing (AsList lhs) (AsList rhs)
  else if IsList rhs then 1
  else if IsMap lhs then
    if negb (IsMap rhs) then -1 else MapCompareUsing (Some (AsMap lhs)) (Some (AsMap rhs))
  else if IsMap rhs then 1
  else if IsNull lhs then
    if negb (IsNull rhs) then -1 else 0
  else if IsNull rhs then 1
  else 0.
End CompareBody.

(** ** Closing the recursion *)

Fixpoint height (v : value) : nat :=
  match v with
  | VList l => S (foldr (fun v h => Nat.max (height v) h) 0%nat l)
  | VMap m => S (foldr (fun kv h => Nat.max (height kv.2) h) 0%nat m)
  | _ => O
  end.

Fixpoint Equals_fuel (n : nat) : value -> value -> bool :=
  match n with
  | O => fun _ _ => false
  | S n => EqualsUsing (Equals_fuel n)
  end.

Definition Equals (lhs rhs : value) : bool := Equals_fuel (S (height lhs)) lhs rhs.

Fixpoint Compare_fuel (n : nat) : value -> value -> Z :=
  match n with
  | O => fun _ _ => 0
  | S n => CompareUsing (Compare_fuel n)
  end.

Definition Compare (lhs rhs : value) : Z := Compare_fuel (S (height lhs)) lhs rhs.

Definition Less (lhs rhs : value) : bool := Compare lhs rhs =? -1.

(** ** fields.go *)

Record Field := mkField { Name : string; FieldValue : value }.

Abbreviation FieldList := (list Field).

Definition FieldList_Sort (f : FieldList) : FieldList :=
  match f with
  | [] | [_] => f
  | [f0; f1] => if string_ltb (Name f1) (Name f0) then [f1; f0] else [f0; f1]
  | _ => sort_stable (fun a b => string_ltb (Name a) (Name b)) f
  end.

Fixpoint FieldList_Compare (f rhs : FieldList) : Z :=
  match f, rhs with
  | [], [] => 0
  | [], _ :: _ => -1
  | _ :: _, [] => 1
  | a :: f', b :: rhs' =>
    let c := strings_Compare (Name a) (Name b) in
    if negb (c =? 0) then c
    else
      let c := Compare (FieldValue a) (FieldValue b) in
      if negb (c =? 0) then c else FieldList_Compare f' rhs'
  end.

Definition FieldList_Less (f rhs : FieldList) : bool := FieldList_Compare f rhs =? -1.

Fixpoint fieldsEqual (f rhs : FieldList) : bool :=
  match f, rhs with
  | a :: f', b :: rhs' =>
    if negb (string_eqb (Name a) (Name b)) then false
    else if negb (Equals (FieldValue a) (FieldValue b)) then false
    else fieldsEqual f' rhs'
  | _, _ => true
  end.

Definition FieldList_Equals (f rhs : FieldList) : bool :=
  if negb (length f =? length rhs)%nat then false else fieldsEqual f rhs.
