(* ===== verification/ValueOrder.v ===== *)
(** * Package value: laws of Equals and Compare

    The ordering the sorted containers of package [fieldpath] rest on.
    [value_ok r] delimits the values on which it is a total order: either no
    floats occur ([NoFloats]), or no NaN occurs and every integer is exactly a
    float64 ([ExactInts]).  Outside it the laws fail
    ([compare_anomalies] in [PropsFindings.v]). *)
From S2P Require Import Prelude GoLib GoFloat Value.

(** ** The fuel is enough *)

Definition children (v : value) : list value :=
  match v with
  | VList l => l
  | VMap m => m.*2
  | _ => []
  end.

Lemma height_child c v : c ∈ children v -> (height c < height v)%nat.
Proof.
  destruct v as [| | | | | |l|m]; simpl; try by intros ?%not_elem_of_nil.
  - induction l as [|x l IH]; [by intros ?%not_elem_of_nil|]. simpl.
    intros [->|H]%elem_of_cons; [lia|]. specialize (IH H). lia.
  - induction m as [|[k x] m IH]; [by intros ?%not_elem_of_nil|]. simpl.
    intros [->|H]%elem_of_cons; [lia|]. specialize (IH H). lia.
Qed.

Lemma assoc_get_child k (m : Map) v : assoc_get k m = Some v -> v ∈ children (VMap m).
Proof. intros H%assoc_get_Some. by apply (list_elem_of_fmap_2 snd _ (k, v)). Qed.

Lemma listRangeEquals_ext f g lhs rhs :
  (forall x y, x ∈ lhs -> f x y = g x y) -> listRangeEquals f lhs rhs = listRangeEquals g lhs rhs.
Proof.
  revert rhs. induction lhs as [|x lhs IH]; intros [|y rhs] H; simpl; try done.
  rewrite (H x y) by left. rewrite IH; [done|]. intros. apply H. by right.
Qed.

Lemma map_Iterate_ext {S} (f g : string -> value -> S -> S * bool) m s :
  (forall k v s, f k v s = g k v s) -> map_Iterate f m s = map_Iterate g m s.
Proof.
  intros H. revert s. induction m as [|[k v] m IH]; intros s; simpl; [done|].
  rewrite H. destruct (g k v s) as [s' []]; auto.
Qed.

Lemma EqualsUsing_ext f g lhs rhs :
  (forall x y, x ∈ children lhs -> f x y = g x y) ->
  EqualsUsing f lhs rhs = EqualsUsing g lhs rhs.
Proof.
  intros H. unfold EqualsUsing. destruct lhs as [| |[]| | | |l|m]; simpl; try done;
    destruct rhs as [| |[]| | | |l'|m']; simpl; try done.
  - unfold ListEqualsUsing. by rewrite (listRangeEquals_ext f g).
  - unfold mapUnstructuredString_EqualsUsing.
    erewrite map_Iterate_ext; [done|]. intros k v []; simpl.
    destruct (assoc_get k m) eqn:E; [|done]. by rewrite H by by eapply assoc_get_child.
Qed.

Lemma Equals_fuel_enough n1 n2 lhs rhs :
  (height lhs < n1)%nat -> (height lhs < n2)%nat ->
  Equals_fuel n1 lhs rhs = Equals_fuel n2 lhs rhs.
Proof.
  revert n2 lhs rhs. induction n1 as [|n1 IH]; intros [|n2] lhs rhs H1 H2; try lia.
  simpl. apply EqualsUsing_ext. intros x y Hx%height_child. apply IH; lia.
Qed.

(** [Equals] satisfies the recursive equation of [EqualsUsing]. *)
Lemma Equals_unfold lhs rhs : Equals lhs rhs = EqualsUsing Equals lhs rhs.
Proof.
  unfold Equals at 1. simpl. apply EqualsUsing_ext.
  intros x y Hx%height_child. apply Equals_fuel_enough; lia.
Qed.

Lemma ListCompareUsing_ext f g lhs rhs :
  (forall x y, x ∈ lhs -> f x y = g x y) -> ListCompareUsing f lhs rhs = ListCompareUsing g lhs rhs.
Proof.
  revert rhs. induction lhs as [|x lhs IH]; intros [|y rhs] H; simpl; try done.
  rewrite (H x y) by left. rewrite IH; [done|]. intros. apply H. by right.
Qed.

Lemma zipKeys_ext {S} (fn1 fn2 : string -> option value -> option value -> S -> S * bool)
    lhs rhs ks s :
  (forall k s, k ∈ ks -> fn1 k (map_Get lhs k) (map_Get rhs k) s
                       = fn2 k (map_Get lhs k) (map_Get rhs k) s) ->
  zipKeys fn1 lhs rhs ks s = zipKeys fn2 lhs rhs ks s.
Proof.
  revert s. induction ks as [|k ks IH]; intros s H; simpl; [done|].
  rewrite H by left. destruct (fn2 _ _ _ _) as [s' []]; [|done].
  apply IH. intros. apply H. by right.
Qed.

Lemma CompareUsing_ext f g lhs rhs :
  (forall x y, x ∈ children lhs -> f x y = g x y) ->
  CompareUsing f lhs rhs = CompareUsing g lhs rhs.
Proof.
  intros H. unfold CompareUsing. destruct lhs as [| |[]| | | |l|m]; simpl; try done;
    destruct rhs as [| |[]| | | |l'|m']; simpl; try done.
  - by apply ListCompareUsing_ext.
  - unfold MapCompareUsing, MapZipUsing, defaultMapZip, lexicalKeyOrderedMapZip; simpl.
    destruct (_ && _); [done|]. do 2 f_equal. apply zipKeys_ext.
    intros k [c i] _. simpl. destruct (assoc_get k m) eqn:E; [|done].
    destruct (assoc_get k m') as [v'|]; [|done].
    by rewrite (H v v') by by eapply assoc_get_child.
Qed.

Lemma Compare_fuel_enough n1 n2 lhs rhs :
  (height lhs < n1)%nat -> (height lhs < n2)%nat ->
  Compare_fuel n1 lhs rhs = Compare_fuel n2 lhs rhs.
Proof.
  revert n2 lhs rhs. induction n1 as [|n1 IH]; intros [|n2] lhs rhs H1 H2; try lia.
  simpl. apply CompareUsing_ext. intros x y Hx%height_child. apply IH; lia.
Qed.

(** [Compare] satisfies the recursive equation of [CompareUsing]. *)
Lemma Compare_unfold lhs rhs : Compare lhs rhs = CompareUsing Compare lhs rhs.
Proof.
  unfold Compare at 1. simpl. apply CompareUsing_ext.
  intros x y Hx%height_child. apply Compare_fuel_enough; lia.
Qed.

(** ** MapCompareUsing is the lexicographic order of the sorted entries *)

Definition entry_less (a b : string * value) : bool := string_ltb a.1 b.1.
Definition sorted_entries (m : Map) : Map := sort_stable entry_less m.

Definition keys_lt {V} (a b : string * V) : Prop := strings_Compare a.1 b.1 < 0.
Definition str_lt (a b : string) : Prop := strings_Compare a b < 0.

Lemma str_lt_irrefl a : ~ str_lt a a.
Proof. unfold str_lt. rewrite strings_Compare_refl. lia. Qed.

Lemma str_lt_trans a b c : str_lt a b -> str_lt b c -> str_lt a c.
Proof.
  unfold str_lt. intros H1 H2.
  apply (cmp_lt_trans strings_Compare (fun _ => True) a b c); auto; lia.
Qed.

Lemma str_lt_asym a b : str_lt a b -> ~ str_lt b a.
Proof. intros H1 H2. by eapply (str_lt_irrefl a), str_lt_trans. Qed.

Lemma str_lt_total a b : str_lt a b \/ a = b \/ str_lt b a.
Proof.
  unfold str_lt. rewrite (cmp_antisym strings_Compare (fun _ => True) a b) by done.
  rewrite <-(strings_Compare_eq a b). lia.
Qed.

Lemma StronglySorted_strict {A} (cmp : A -> A -> Z) (R : A -> A -> Prop) l :
  (forall a b, cmp a b <= 0 -> R a b -> cmp a b < 0) ->
  StronglySorted (fun a b => cmp a b <= 0) l -> StronglySorted R l ->
  StronglySorted (fun a b => cmp a b < 0) l.
Proof.
  intros HR. induction l as [|x l IH]; intros S1 S2; constructor.
  - inversion S1; inversion S2; auto.
  - apply StronglySorted_inv in S1 as [_ F1]. apply StronglySorted_inv in S2 as [_ F2].
    rewrite Forall_forall in F1, F2 |- *. auto.
Qed.

Lemma NoDup_StronglySorted_neq {A B} (f : A -> B) l :
  NoDup (f <$> l) -> StronglySorted (fun a b => f a <> f b) l.
Proof.
  induction l as [|x l IH]; simpl; intros H; constructor.
  - apply NoDup_cons in H as [_ H]. auto.
  - apply NoDup_cons in H as [H _]. apply Forall_forall. intros y Hy E.
    apply H. rewrite E. by apply list_elem_of_fmap_2.
Qed.

Lemma sort_keys_strict {V} (m : list (string * V)) :
  NoDup (assoc_keys m) ->
  StronglySorted keys_lt (sort_stable (fun a b => string_ltb a.1 b.1) m).
Proof.
  intros ND. set (cmp := fun a b : string * V => strings_Compare a.1 b.1).
  assert (CmpOrder cmp (fun _ => True)).
  { by eapply (cmp_order_key cmp _ strings_Compare (fun _ => True) fst); [apply _|..]. }
  apply (StronglySorted_strict cmp (fun a b => a.1 <> b.1)).
  - intros a b. unfold cmp. rewrite <-(strings_Compare_eq a.1 b.1). lia.
  - apply (sort_stable_sorted cmp (fun _ => True)). by apply Forall_true.
  - apply NoDup_StronglySorted_neq. by rewrite sort_stable_perm.
Qed.

Lemma sort_strings_strict (l : list string) :
  NoDup l -> StronglySorted str_lt (sort_stable string_ltb l).
Proof.
  intros ND. apply (StronglySorted_strict strings_Compare (fun a b => a <> b)).
  - intros a b. rewrite <-(strings_Compare_eq a b). lia.
  - apply (sort_stable_sorted strings_Compare (fun _ => True)). by apply Forall_true.
  - apply (NoDup_StronglySorted_neq id). by rewrite list_fmap_id, sort_stable_perm.
Qed.

Lemma keys_lt_head {V} k v (m : list (string * V)) k' :
  StronglySorted keys_lt ((k, v) :: m) -> k' ∈ assoc_keys m -> str_lt k k'.
Proof.
  intros [_ F]%StronglySorted_inv ([k0 v0] & -> & Hin)%list_elem_of_fmap.
  rewrite Forall_forall in F. by apply (F (k0, v0)).
Qed.

(** A key smaller than the first one is absent. *)
Lemma keys_lt_get_None {V} k b (y : V) m :
  StronglySorted keys_lt ((b, y) :: m) -> str_lt k b -> assoc_get k ((b, y) :: m) = None.
Proof.
  intros S L. apply assoc_get_None. intros [->|H]%elem_of_cons.
  - by eapply str_lt_irrefl.
  - apply (keys_lt_head b y m k S) in H. by eapply str_lt_asym.
Qed.

(** The enumeration [ks] of the keys of two sorted maps starts with the smaller
    of their first keys. *)
Lemma union_keys_head {V} k ks a (x : V) sl b (y : V) sr :
  StronglySorted str_lt (k :: ks) ->
  StronglySorted keys_lt ((a, x) :: sl) -> StronglySorted keys_lt ((b, y) :: sr) ->
  (forall k', k' ∈ k :: ks <-> k' ∈ assoc_keys ((a, x) :: sl) \/ k' ∈ assoc_keys ((b, y) :: sr)) ->
  (k = a /\ str_lt a b) \/ (k = a /\ a = b) \/ (k = b /\ str_lt b a).
Proof.
  intros [_ Fk]%StronglySorted_inv Sl Sr Hk. rewrite Forall_forall in Fk.
  assert (Ha : a = k \/ str_lt k a).
  { assert (a ∈ k :: ks) as [->|?]%elem_of_cons by (apply Hk; left; left); auto. }
  assert (Hb : b = k \/ str_lt k b).
  { assert (b ∈ k :: ks) as [->|?]%elem_of_cons by (apply Hk; right; left); auto. }
  assert (Hin : k = a \/ str_lt a k \/ k = b \/ str_lt b k).
  { destruct (proj1 (Hk k) ltac:(left)) as [[->|H]%elem_of_cons|[->|H]%elem_of_cons]; auto.
    - right; left. by eapply keys_lt_head.
    - right; right; right. by eapply keys_lt_head. }
  destruct Ha as [->|Ha], Hb as [->|Hb]; auto.
  destruct Hin as [->|[?|[->|?]]]; auto; exfalso; by eapply str_lt_asym.
Qed.

(** After a shared first key, the rest enumerates the keys of the tails. *)
Lemma union_keys_tail {V} k ks (x : V) sl (y : V) sr :
  StronglySorted str_lt (k :: ks) ->
  StronglySorted keys_lt ((k, x) :: sl) -> StronglySorted keys_lt ((k, y) :: sr) ->
  (forall k', k' ∈ k :: ks <-> k' ∈ assoc_keys ((k, x) :: sl) \/ k' ∈ assoc_keys ((k, y) :: sr)) ->
  forall k', k' ∈ ks <-> k' ∈ assoc_keys sl \/ k' ∈ assoc_keys sr.
Proof.
  intros [_ Fk]%StronglySorted_inv Sl Sr Hk k'. rewrite Forall_forall in Fk.
  specialize (Hk k'). simpl in Hk. rewrite !elem_of_cons in Hk.
  assert (k' ∈ ks -> k' <> k) by (intros H%Fk ->; by eapply str_lt_irrefl).
  assert (k' ∈ assoc_keys sl -> k' <> k)
    by (intros H' ->; by eapply str_lt_irrefl, (keys_lt_head k x)).
  assert (k' ∈ assoc_keys sr -> k' <> k)
    by (intros H' ->; by eapply str_lt_irrefl, (keys_lt_head k y)).
  unfold assoc_keys in *. tauto.
Qed.

Lemma strings_Compare_lt a b : str_lt a b -> strings_Compare a b = -1 /\ strings_Compare b a = 1.
Proof.
  unfold str_lt. pose proof (cmp_range strings_Compare (fun _ => True) a b I I).
  pose proof (cmp_antisym strings_Compare (fun _ => True) a b I I). lia.
Qed.

Section MapCompare.
Context (f : value -> value -> Z).
Let entry_compare := pair_compare strings_Compare f.

(** The callback of [MapCompareUsing] over maps of the given lengths. *)
Let fn (llength rlength : nat) (key : string) (lhs rhs : option value) (st : Z * nat) :=
  let '(_, i) := st in
  let c :=
    if (i =? llength)%nat then -1
    else if (i =? rlength)%nat then 1
    else match lhs, rhs with
      | None, _ => 1
      | _, None => -1
      | Some l, Some r => f l r
      end in
  ((c, S i), c =? 0).

Lemma zip_compare_lex lhs rhs ll rl ks : forall sl sr i,
  StronglySorted str_lt ks -> StronglySorted keys_lt sl -> StronglySorted keys_lt sr ->
  (forall k, k ∈ ks <-> k ∈ assoc_keys sl \/ k ∈ assoc_keys sr) ->
  (forall k, k ∈ ks -> map_Get lhs k = assoc_get k sl) ->
  (forall k, k ∈ ks -> map_Get rhs k = assoc_get k sr) ->
  ll = (i + length sl)%nat -> rl = (i + length sr)%nat ->
  (zipKeys (fn ll rl) lhs rhs ks (0, i)).1.1 = lex_compare entry_compare sl sr.
Proof.
  induction ks as [|k ks IH]; intros sl sr i Sk Sl Sr Hk Hl Hr Ell Erl.
  { destruct sl as [|[a x] sl]; [|exfalso; apply (not_elem_of_nil a), Hk; left; left].
    destruct sr as [|[b y] sr]; [done|exfalso; apply (not_elem_of_nil b), Hk; right; left]. }
  simpl zipKeys. rewrite Hl, Hr by left.
  destruct sl as [|[a x] sl]; [|destruct sr as [|[b y] sr]].
  - destruct sr as [|[b y] sr].
    { by destruct (proj1 (Hk k) ltac:(left)) as [?%not_elem_of_nil|?%not_elem_of_nil]. }
    simpl. by rewrite (proj2 (Nat.eqb_eq i ll)) by (simpl in *; lia).
  - simpl. rewrite (proj2 (Nat.eqb_neq i ll)) by (simpl in *; lia).
    by rewrite (proj2 (Nat.eqb_eq i rl)) by (simpl in *; lia).
  - unfold fn at 1. simpl in Ell, Erl.
    rewrite (proj2 (Nat.eqb_neq i ll)), (proj2 (Nat.eqb_neq i rl)) by lia.
    assert (Hc : entry_compare (a, x) (b, y) =
      if strings_Compare a b =? 0 then f x y else strings_Compare a b) by done.
    cbn [lex_compare]. cbv zeta. rewrite Hc.
    destruct (union_keys_head k ks a x sl b y sr Sk Sl Sr Hk) as [[-> L]|[[-> <-]|[-> L]]].
    + rewrite (keys_lt_get_None a b y sr Sr L). simpl.
      rewrite string_eqb_refl. by rewrite (proj1 (strings_Compare_lt _ _ L)).
    + simpl. rewrite string_eqb_refl, strings_Compare_refl. simpl.
      destruct (Z.eqb_spec (f x y) 0) as [E0|]; [|done]. rewrite E0.
      pose proof (union_keys_tail a ks x sl y sr Sk Sl Sr Hk) as Hk'.
      apply StronglySorted_inv in Sk as [Sk Fk]. rewrite Forall_forall in Fk.
      apply StronglySorted_inv in Sl as [Sl _]. apply StronglySorted_inv in Sr as [Sr _].
      assert (Hne : forall k', k' ∈ ks -> string_eqb a k' = false).
      { intros k' H%Fk. apply string_eqb_false. intros ->. by eapply str_lt_irrefl. }
      apply IH; try done; try lia; intros k' Hin'.
      * rewrite Hl by by right. simpl. by rewrite Hne.
      * rewrite Hr by by right. simpl. by rewrite Hne.
    + rewrite (keys_lt_get_None b a x sl Sl L). simpl. by rewrite (proj2 (strings_Compare_lt _ _ L)).
Qed.

Lemma orderedKeys_spec l r :
  NoDup (assoc_keys l) -> NoDup (assoc_keys r) ->
  StronglySorted str_lt (orderedKeys (Some l) (Some r)) /\
  forall k, k ∈ orderedKeys (Some l) (Some r) <-> k ∈ assoc_keys l \/ k ∈ assoc_keys r.
Proof.
  intros NDl NDr. unfold orderedKeys. split.
  - apply sort_strings_strict, NoDup_app. split_and!; [done| |by apply NoDup_filter].
    intros k Hk [Hn _]%list_elem_of_filter. by apply assoc_get_None in Hn.
  - intros k. rewrite sort_stable_perm, elem_of_app, list_elem_of_filter. simpl.
    rewrite assoc_get_None. destruct (decide (k ∈ assoc_keys l)); tauto.
Qed.

Lemma MapCompareUsing_lex l r :
  NoDup (assoc_keys l) -> NoDup (assoc_keys r) ->
  MapCompareUsing f (Some l) (Some r) =
  lex_compare entry_compare (sorted_entries l) (sorted_entries r).
Proof.
  intros NDl NDr. unfold MapCompareUsing.
  assert (Pl : sorted_entries l ≡ₚ l) by apply sort_stable_perm.
  assert (Pr : sorted_entries r ≡ₚ r) by apply sort_stable_perm.
  assert (Hkeys : forall m k, k ∈ assoc_keys (sorted_entries m) <-> k ∈ assoc_keys m).
  { intros m k. unfold assoc_keys, sorted_entries. by rewrite sort_stable_perm. }
  unfold MapZipUsing, defaultMapZip, lexicalKeyOrderedMapZip; simpl map_Length.
  destruct ((length l =? 0) && (length r =? 0))%nat eqn:E0.
  { apply andb_true_iff in E0 as [E1 E2]. apply Nat.eqb_eq in E1, E2.
    by apply nil_length_inv in E1 as ->; apply nil_length_inv in E2 as ->. }
  destruct (orderedKeys_spec l r NDl NDr) as [Sk Hk].
  apply (zip_compare_lex (Some l) (Some r)); try done.
  - by apply sort_keys_strict.
  - by apply sort_keys_strict.
  - intros k. by rewrite Hk, !Hkeys.
  - intros k _. simpl. apply assoc_get_perm; [done|]. by rewrite Pl.
  - intros k _. simpl. apply assoc_get_perm; [done|]. by rewrite Pr.
  - by rewrite (Permutation_length Pl).
  - by rewrite (Permutation_length Pr).
Qed.
End MapCompare.

(** ** The values Compare orders totally *)

Inductive Regime := NoFloats | ExactInts.

Fixpoint value_ok (r : Regime) (v : value) : bool :=
  match v with
  | VInt _ _ =>
    match r with
    | NoFloats => true
    | ExactInts => negb (IsInt v) || int_is_exact (AsInt v)
    end
  | VFloat32 f | VFloat64 f =>
    match r with
    | NoFloats => false
    | ExactInts => negb (float_is_nan f)
    end
  | VList l => forallb (value_ok r) l
  | VMap m => bool_decide (NoDup (assoc_keys m)) && forallb (fun kv => value_ok r kv.2) m
  | _ => true
  end.

Lemma value_ok_list r l : value_ok r (VList l) = true <-> Forall (fun v => value_ok r v = true) l.
Proof. apply forallb_Forall. Qed.

Lemma value_ok_map r (m : Map) :
  value_ok r (VMap m) = true <->
  NoDup (assoc_keys m) /\ Forall (fun kv => value_ok r kv.2 = true) m.
Proof. simpl. rewrite andb_true_iff, bool_decide_eq_true, forallb_Forall. done. Qed.

(** [m[k] = v] on a comparable map. *)
Lemma map_set_ok r k v (m : Map) :
  value_ok r (VMap m) = true -> value_ok r v = true -> value_ok r (VMap (assoc_set k v m)) = true.
Proof.
  rewrite !value_ok_map. intros [N F] Hv. induction m as [|[k' v'] m IH]; simpl.
  - split; [apply NoDup_singleton|by apply Forall_singleton].
  - unfold assoc_keys in N. simpl in N. apply NoDup_cons in N as [N1 N2]. apply Forall_cons in F as [F1 F2].
    destruct (string_eqb k' k) eqn:Ek.
    + split; [by constructor|by constructor].
    + destruct (IH N2 F2) as [N' F']. split; [|by constructor]. constructor; [|done].
      intros [E|Hin]%assoc_set_keys; [|done]. simpl in E. subst. by rewrite string_eqb_refl in Ek.
Qed.

Lemma value_ok_child r v c : value_ok r v = true -> c ∈ children v -> value_ok r c = true.
Proof.
  destruct v as [| | | | | |l|m]; simpl children; try by intros _ ?%not_elem_of_nil.
  - rewrite value_ok_list, Forall_forall. auto.
  - intros [_ H]%value_ok_map ([k x] & -> & Hin)%list_elem_of_fmap.
    rewrite Forall_forall in H. by apply (H (k, x)).
Qed.

(** *** Comparing numbers *)

Definition is_number (v : value) : bool := IsFloat v || IsInt v.

Definition number_key (r : Regime) (v : value) : list Z :=
  if is_number v then
    match r with
    | NoFloats => [AsInt v]
    | ExactInts => match floatOperand v with Some f => float_key f | None => [] end
    end
  else [].

Lemma FloatCompare_key l r :
  float_is_nan l = false -> float_is_nan r = false ->
  FloatCompare l r = lex_compare Z_compare (float_key l) (float_key r).
Proof.
  intros Hl Hr. destruct (SFcompare_key l r Hl Hr) as (c & E & <-).
  destruct (SFcompare_key r l Hr Hl) as (c' & E' & Hc').
  assert (Z_of_comparison c' = - Z_of_comparison c) as Hopp.
  { destruct (SFcompare_key l r Hl Hr) as (c0 & E0 & Hc0).
    rewrite E in E0. injection E0 as <-. rewrite Hc0, Hc'.
    apply (cmp_antisym (lex_compare Z_compare) (Forall (fun _ => True))); by apply Forall_true. }
  unfold FloatCompare, float_gtb, float_ltb, SFltb. rewrite E, E'.
  by destruct c, c'; try done; simpl in *; lia.
Qed.

Lemma IntCompare_Z i j : IntCompare i j = Z_compare i j.
Proof.
  unfold IntCompare, Z_compare.
  destruct (Z.ltb_spec j i), (Z.ltb_spec i j), (Z.compare_spec i j); simpl; lia.
Qed.

Lemma BoolCompare_Z b c : BoolCompare b c = Z_compare (Z.b2z b) (Z.b2z c).
Proof. by destruct b, c. Qed.

Lemma floatOperand_ok v f :
  value_ok ExactInts v = true -> floatOperand v = Some f -> float_is_nan f = false.
Proof.
  unfold floatOperand. destruct v as [| |k i|g|g| | |]; simpl; try done.
  - destruct k; simpl; intros H [= <-] || intros H ?; try done; by apply float64_of_int_not_nan.
  - intros H%negb_true_iff [= <-]. done.
  - intros H%negb_true_iff [= <-]. done.
Qed.

(** The number part of [CompareUsing], written over both operands. *)
Lemma Compare_numbers r v w :
  value_ok r v = true -> value_ok r w = true -> is_number v = true -> is_number w = true ->
  Compare v w = lex_compare Z_compare (number_key r v) (number_key r w).
Proof.
  intros Hv Hw Nv Nw. rewrite Compare_unfold. unfold number_key. rewrite Nv, Nw.
  destruct r.
  - (* no floats: both are integers *)
    unfold CompareUsing, is_number in *.
    destruct (IsFloat v) eqn:Fv; [by destruct v|]. destruct (IsFloat w) eqn:Fw; [by destruct w|].
    simpl in *. rewrite Nv, Nw. simpl. rewrite IntCompare_Z.
    by destruct (Z.eqb_spec (Z_compare (AsInt v) (AsInt w)) 0).
  - destruct (floatOperand v) as [fv|] eqn:Ev; [|unfold floatOperand, is_number in *; by destruct (IsFloat v), (IsInt v)].
    destruct (floatOperand w) as [fw|] eqn:Ew; [|unfold floatOperand, is_number in *; by destruct (IsFloat w), (IsInt w)].
    pose proof (floatOperand_ok v fv Hv Ev). pose proof (floatOperand_ok w fw Hw Ew).
    unfold CompareUsing, floatOperand, is_number in *.
    destruct (IsFloat v) eqn:Fv, (IsFloat w) eqn:Fw; simpl in *;
      rewrite ?Nv, ?Nw in *; simpl in *; simplify_eq; try (by apply FloatCompare_key).
    rewrite IntCompare_Z. symmetry. apply float64_of_int_compare.
    + destruct v as [| |[]| | | | |]; done.
    + destruct w as [| |[]| | | | |]; done.
Qed.

(** *** Compare through a sort key *)

(** The group of a value: numbers first, then strings, booleans, lists, maps,
    null, and values of no supported type. *)
Definition value_rank (v : value) : Z :=
  if is_number v then 0 else
  match v with
  | VString _ => 1 | VBool _ => 2 | VList _ => 3 | VMap _ => 4 | VNull => 5 | _ => 6
  end.

Definition value_key (r : Regime) (v : value)
    : Z * (list Z * (string * (Z * (list value * Map)))) :=
  (value_rank v,
    (number_key r v,
      (AsString v, (Z.b2z (AsBool v), (AsList v, sorted_entries (AsMap v)))))).

Definition key_compare (cmp : value -> value -> Z) :=
  pair_compare Z_compare
    (pair_compare (lex_compare Z_compare)
      (pair_compare strings_Compare
        (pair_compare Z_compare
          (pair_compare (lex_compare cmp)
            (lex_compare (pair_compare strings_Compare cmp)))))).

Lemma ListCompareUsing_lex f l r : ListCompareUsing f l r = lex_compare f l r.
Proof.
  revert r. induction l as [|x l IH]; intros [|y r]; simpl; try done.
  rewrite IH. by destruct (f x y =? 0).
Qed.

Lemma Compare_key r v w :
  value_ok r v = true -> value_ok r w = true ->
  Compare v w = key_compare Compare (value_key r v) (value_key r w).
Proof.
  intros Hv Hw. unfold key_compare, value_key, value_rank.
  destruct (is_number v) eqn:Nv, (is_number w) eqn:Nw.
  - rewrite (Compare_numbers r v w) by done. unfold pair_compare; simpl.
    assert (AsString v = AsString w /\ AsBool v = AsBool w /\ AsList v = [] /\ AsList w = []
      /\ AsMap v = [] /\ AsMap w = []) as (-> & -> & -> & -> & -> & ->)
      by (destruct v as [| |[]| | | | |]; try done; destruct w as [| |[]| | | | |]; done).
    rewrite strings_Compare_refl. simpl. rewrite (proj2 (Z_compare_eq _ _) eq_refl). simpl.
    by destruct (Z.eqb_spec (lex_compare Z_compare (number_key r v) (number_key r w)) 0).
  - rewrite Compare_unfold. unfold CompareUsing, is_number in *.
    destruct v as [| |[]| | | | |]; try done; destruct w as [| |[]| | | | |]; done.
  - rewrite Compare_unfold. unfold CompareUsing, is_number in *.
    destruct v as [| |[]| | | | |]; try done; destruct w as [| |[]| | | | |]; done.
  - rewrite Compare_unfold. unfold number_key. rewrite Nv, Nw.
    destruct v as [|b|[]| | |s|l|m]; try done; destruct w as [|b'|[]| | |s'|l'|m']; try done;
      unfold pair_compare; cbn -[lex_compare strings_Compare BoolCompare sorted_entries
        Z_compare MapCompareUsing ListCompareUsing].
    + rewrite BoolCompare_Z.
      by destruct (Z.eqb_spec (Z_compare (Z.b2z b) (Z.b2z b')) 0).
    + by destruct (Z.eqb_spec (strings_Compare s s') 0).
    + rewrite ListCompareUsing_lex.
      by destruct (Z.eqb_spec (lex_compare Compare l l') 0).
    + apply value_ok_map in Hv as [NDv _], Hw as [NDw _].
      by rewrite MapCompareUsing_lex.
Qed.

Definition value_dom (r : Regime) (v : value) : Prop := value_ok r v = true.

Lemma key_compare_order cmp (dom : value -> Prop) :
  CmpOrder cmp dom ->
  CmpOrder (key_compare cmp)
    (fun k => True /\ (Forall (fun _ => True) k.2.1 /\ (True /\ (True /\
      (Forall dom k.2.2.2.2.1 /\ Forall (fun kv : string * value => True /\ dom kv.2) k.2.2.2.2.2))))).
Proof.
  intros H. unfold key_compare.
  exact (pair_compare_order _ _ _ _ _ (pair_compare_order _ _ _ _ _
    (pair_compare_order _ _ _ _ _ (pair_compare_order _ _ _ _ _ (pair_compare_order _ _ _ _ _ _))))).
Qed.

Lemma Compare_order_height r n :
  CmpOrder Compare (fun v => value_dom r v /\ (height v < n)%nat).
Proof.
  induction n as [|n IH].
  - constructor; intros * [_ H]; lia.
  - eapply (cmp_order_key _ _ _ _ (value_key r)).
    + by apply key_compare_order.
    + intros v [Hv Hh]. simpl. split_and!; try done; [by apply Forall_true|..].
      * apply Forall_forall. intros c Hc.
        assert (c ∈ children v) as Hc' by (by destruct v; try by apply not_elem_of_nil in Hc).
        split; [by eapply value_ok_child|]. apply height_child in Hc'. lia.
      * apply Forall_forall. intros [k c] Hc. split; [done|]. simpl.
        unfold sorted_entries in Hc. rewrite sort_stable_perm in Hc.
        assert (c ∈ children v) as Hc'.
        { destruct v; try by apply not_elem_of_nil in Hc.
          by apply (list_elem_of_fmap_2 snd _ (k, c)). }
        split; [by eapply value_ok_child|]. apply height_child in Hc'. lia.
    + intros v w [Hv _] [Hw _]. by apply Compare_key.
Qed.

(** Compare is a total order (up to [Compare _ _ = 0]) on [value_ok] values. *)
#[export] Instance Compare_order r : CmpOrder Compare (value_dom r).
Proof.
  constructor.
  - intros x y Hx Hy.
    apply (@cmp_range _ Compare _ (Compare_order_height r (S (Nat.max (height x) (height y)))));
      split; auto; lia.
  - intros x y Hx Hy.
    apply (@cmp_antisym _ Compare _ (Compare_order_height r (S (Nat.max (height x) (height y)))));
      split; auto; lia.
  - intros x y z Hx Hy Hz.
    apply (@cmp_trans _ Compare _ (Compare_order_height r (S (Nat.max (height x) (Nat.max (height y) (height z))))));
      split; auto; lia.
Qed.

(** ** Equals is Compare = 0 *)

Lemma float_eqb_Compare l r :
  float_is_nan l = false -> float_is_nan r = false ->
  float_eqb l r = (FloatCompare l r =? 0).
Proof.
  intros Hl Hr. rewrite FloatCompare_key by done.
  destruct (SFcompare_key l r Hl Hr) as (c & E & <-).
  unfold float_eqb, SFeqb. rewrite E. by destruct c.
Qed.

Lemma lex_compare_0 {A} (cmp : A -> A -> Z) l r :
  lex_compare cmp l r = 0 <-> Forall2 (fun x y => cmp x y = 0) l r.
Proof.
  revert r. induction l as [|x l IH]; intros [|y r]; simpl.
  - split; [constructor|done].
  - split; [done|inversion 1].
  - split; [done|inversion 1].
  - destruct (Z.eqb_spec (cmp x y) 0); rewrite ?IH, Forall2_cons; tauto.
Qed.

Lemma listEquals_Forall2 f l r :
  ListEqualsUsing f l r = true <-> Forall2 (fun x y => f x y = true) l r.
Proof.
  unfold ListEqualsUsing. revert r. induction l as [|x l IH]; intros [|y r]; simpl.
  - split; [constructor|done].
  - split; [done|inversion 1].
  - split; [done|inversion 1].
  - specialize (IH r). destruct (length l =? length r)%nat; simpl in *.
    + rewrite Forall2_cons. destruct (f x y); [tauto|]. split; [done|by intros []].
    + rewrite Forall2_cons. split; [done|]. by intros [_ ?%IH].
Qed.

Lemma map_Iterate_forall (f : string -> value -> bool) (m : Map) :
  (map_Iterate (fun k v (_ : unit) => (tt, f k v)) m tt).2 = forallb (fun kv => f kv.1 kv.2) m.
Proof.
  induction m as [|[k v] m IH]; simpl; [done|]. by destruct (f k v).
Qed.

(** [m.EqualsUsing(other)]: as many entries, and each entry of [other] matched. *)
Lemma mapEquals_spec f m other :
  mapUnstructuredString_EqualsUsing f m other = true <->
  length m = length other /\
  forall k v', (k, v') ∈ other -> exists v, assoc_get k m = Some v /\ f v v' = true.
Proof.
  unfold mapUnstructuredString_EqualsUsing.
  destruct (Nat.eqb_spec (length m) (length other)) as [El|]; simpl; [|split; [done|by intros [? _]]].
  rewrite (map_Iterate_ext _ (fun k v (_ : unit) => (tt,
    match assoc_get k m with Some v0 => f v0 v | None => false end)))
    by (intros k v []; by destruct (assoc_get k m)).
  destruct (Nat.eqb_spec (length m) 0) as [E0|].
  - rewrite E0 in El. symmetry in El. apply nil_length_inv in E0 as ->, El as ->.
    split; [|done]. intros _. split; [done|]. by intros ?? ?%not_elem_of_nil.
  - rewrite (map_Iterate_forall (fun k v =>
      match assoc_get k m with Some v0 => f v0 v | None => false end)).
    rewrite forallb_Forall, Forall_forall. split.
    + intros H. split; [done|]. intros k v' Hin%H. simpl in Hin.
      destruct (assoc_get k m) as [v|]; [by exists v|done].
    + intros [_ H] [k v'] (v & E & Hf)%H. simpl. by rewrite E.
Qed.

(** Sorted maps with the same keys list them in the same order. *)
Lemma sorted_keys_unique {V W} (l : list (string * V)) (r : list (string * W)) :
  StronglySorted keys_lt l -> StronglySorted keys_lt r ->
  (forall k, k ∈ assoc_keys l <-> k ∈ assoc_keys r) -> assoc_keys l = assoc_keys r.
Proof.
  revert r. induction l as [|[a x] l IH]; intros [|[b y] r] Sl Sr H.
  - done.
  - exfalso. apply (not_elem_of_nil b), H. left.
  - exfalso. apply (not_elem_of_nil a), H. left.
  - assert (a = b) as <-.
    { pose proof (proj1 (H a) ltac:(left)) as [->|Ha]%elem_of_cons; [done|].
      pose proof (proj2 (H b) ltac:(left)) as [->|Hb]%elem_of_cons; [done|].
      apply (keys_lt_head b y r a Sr) in Ha. apply (keys_lt_head a x l b Sl) in Hb.
      by apply str_lt_asym in Ha. }
    unfold assoc_keys in *. simpl. f_equal.
    apply IH; [by apply StronglySorted_inv in Sl as []|by apply StronglySorted_inv in Sr as []|].
    intros k. specialize (H k). simpl in H. rewrite !elem_of_cons in H.
    assert (k ∈ l.*1 -> k <> a) by (intros H' ->; by eapply str_lt_irrefl, (keys_lt_head a x l)).
    assert (k ∈ r.*1 -> k <> a) by (intros H' ->; by eapply str_lt_irrefl, (keys_lt_head a y r)).
    tauto.
Qed.

Lemma Forall2_entries {V W} (R : V -> W -> Prop) (l : list (string * V)) (r : list (string * W)) :
  StronglySorted keys_lt l -> StronglySorted keys_lt r ->
  Forall2 (fun a b => a.1 = b.1 /\ R a.2 b.2) l r <->
  (forall k, k ∈ assoc_keys l <-> k ∈ assoc_keys r) /\
  (forall k v', (k, v') ∈ r -> exists v, (k, v) ∈ l /\ R v v').
Proof.
  intros Sl Sr. split.
  - intros F. split.
    + assert (assoc_keys l = assoc_keys r) as E; [|by rewrite E].
      unfold assoc_keys. induction F as [|[] [] ?? [? _]]; simpl in *; [done|].
      apply StronglySorted_inv in Sl as [], Sr as []. f_equal; auto.
    + intros k v' Hin. clear Sl Sr. induction F as [|[a x] [b y] l r [E HR] F IH];
        [by apply not_elem_of_nil in Hin|]. simpl in *. subst b.
      apply elem_of_cons in Hin as [[= -> ->]|Hin].
      * exists x. split; [left|done].
      * destruct (IH Hin) as (v & ? & ?). exists v. split; [by right|done].
  - intros [Hk Hv]. pose proof (sorted_keys_unique l r Sl Sr Hk) as E. clear Hk.
    revert r Sr Hv E. induction l as [|[a x] l IH]; intros [|[b y] r] Sr Hv E; try done.
    injection E as -> E. apply Forall2_cons. simpl. split.
    + split; [done|]. destruct (Hv b y ltac:(left)) as (v & [[= ->]|Hin]%elem_of_cons & HR); [done|].
      exfalso. eapply str_lt_irrefl, (keys_lt_head b x l b Sl).
      by apply (list_elem_of_fmap_2 fst _ (b, v)).
    + apply IH; [by apply StronglySorted_inv in Sl as []|by apply StronglySorted_inv in Sr as []| |done].
      intros k v' Hin. destruct (Hv k v' ltac:(by right)) as (v & [[= -> ->]|Hin']%elem_of_cons & HR); eauto.
      exfalso. eapply str_lt_irrefl, (keys_lt_head b y r b Sr).
      by apply (list_elem_of_fmap_2 fst _ (b, v')).
Qed.

Lemma mapEquals_entries f m other :
  NoDup (assoc_keys m) -> NoDup (assoc_keys other) ->
  mapUnstructuredString_EqualsUsing f m other = true <->
  Forall2 (fun a b => a.1 = b.1 /\ f a.2 b.2 = true) (sorted_entries m) (sorted_entries other).
Proof.
  intros ND ND'. rewrite mapEquals_spec.
  rewrite (Forall2_entries (fun x y => f x y = true)) by (by apply sort_keys_strict).
  assert (Hk : forall m k, k ∈ assoc_keys (sorted_entries m) <-> k ∈ assoc_keys m).
  { intros m0 k. unfold assoc_keys, sorted_entries. by rewrite sort_stable_perm. }
  setoid_rewrite Hk. unfold sorted_entries. setoid_rewrite (sort_stable_perm entry_less).
  setoid_rewrite (assoc_get_NoDup _ _ m ND). split.
  - intros [El H]. split; [|done].
    assert (assoc_keys other ⊆+ assoc_keys m) as Hsub.
    { apply NoDup_submseteq; [done|]. intros k ([k0 v'] & -> & Hin)%list_elem_of_fmap.
      destruct (H k0 v' Hin) as (v & Hv & _). by apply (list_elem_of_fmap_2 fst _ (k0, v)). }
    assert (assoc_keys other ≡ₚ assoc_keys m) as P.
    { apply submseteq_length_Permutation; [done|]. unfold assoc_keys. rewrite !length_fmap. lia. }
    intros k. by rewrite P.
  - intros [Hkeys H]. split; [|done].
    assert (assoc_keys m ≡ₚ assoc_keys other) as P by (by apply NoDup_Permutation).
    apply Permutation_length in P. unfold assoc_keys in P. by rewrite !length_fmap in P.
Qed.

Lemma pair_compare_0 {A B} (cmpA : A -> A -> Z) (cmpB : B -> B -> Z) p q :
  pair_compare cmpA cmpB p q = 0 <-> cmpA p.1 q.1 = 0 /\ cmpB p.2 q.2 = 0.
Proof. unfold pair_compare. destruct (Z.eqb_spec (cmpA p.1 q.1) 0); tauto. Qed.

Lemma Equals_numbers r v w :
  value_ok r v = true -> value_ok r w = true ->
  is_number v = true \/ is_number w = true ->
  Equals v w = (Compare v w =? 0).
Proof.
  intros Hv Hw N. rewrite Equals_unfold, Compare_unfold.
  unfold EqualsUsing, CompareUsing, floatOperand.
  pose proof (floatOperand_ok v) as Ov. pose proof (floatOperand_ok w) as Ow.
  unfold floatOperand in Ov, Ow. unfold is_number in N.
  assert (r = NoFloats -> IsFloat v = false /\ IsFloat w = false) as Hr.
  { intros ->. by destruct v, w. }
  destruct (IsFloat v) eqn:Fv, (IsFloat w) eqn:Fw; simpl;
    try (destruct r; [by destruct (Hr eq_refl)|]).
  - apply float_eqb_Compare; eauto.
  - destruct (IsInt w); [|done]. apply float_eqb_Compare; eauto.
  - destruct (IsInt v); [|done]. apply float_eqb_Compare; eauto.
  - simpl in N. destruct (IsInt v), (IsInt w); simpl; try done; [|by destruct N].
    rewrite IntCompare_Z. destruct (Z.eqb_spec (AsInt v) (AsInt w)) as [->|Hne].
    + by rewrite (proj2 (Z_compare_eq _ _) eq_refl).
    + symmetry. apply Z.eqb_neq. by rewrite Z_compare_eq.
Qed.

Lemma Equals_Compare r v w :
  value_ok r v = true -> value_ok r w = true -> Equals v w = (Compare v w =? 0).
Proof.
  revert w. induction v as [|b|k i|f|f|s|l IH|m IH] using value_rect_nested; intros w Hv Hw.
  all: destruct (is_number w) eqn:Nw; [by eapply Equals_numbers; eauto|].
  all: try (by eapply Equals_numbers; eauto).
  all: rewrite Equals_unfold, Compare_unfold;
    try (by destruct w as [|b'|[]| | | | |]).
  - destruct w as [|b'|[]| | | | |]; try done. by destruct b, b'.
  - destruct k; try (by eapply Equals_numbers; eauto);
    by destruct w as [|b'|[]| | | | |].
  - destruct w as [| |[]| | |s'| |]; try done. apply string_eqb_Compare.
  - destruct w as [| |[]| | | |l'|]; try done. cbn -[ListEqualsUsing ListCompareUsing].
    rewrite ListCompareUsing_lex. apply eq_true_iff_eq.
    rewrite listEquals_Forall2, Z.eqb_eq, lex_compare_0.
    apply value_ok_list in Hv, Hw. rewrite Forall_forall in IH, Hv, Hw.
    split; apply Forall2_impl_in; intros x y Hx Hy; rewrite IH by auto; lia.
  - destruct w as [| |[]| | | | |m']; try done.
    cbn -[mapUnstructuredString_EqualsUsing MapCompareUsing].
    apply value_ok_map in Hv as [ND Hv], Hw as [ND' Hw].
    rewrite MapCompareUsing_lex by done. apply eq_true_iff_eq.
    rewrite mapEquals_entries, Z.eqb_eq, lex_compare_0 by done.
    rewrite Forall_forall in IH, Hv, Hw.
    assert (Hse : forall m x, x ∈ sorted_entries m -> x ∈ m).
    { intros m0 x Hx. unfold sorted_entries in Hx. by rewrite sort_stable_perm in Hx. }
    split; apply Forall2_impl_in; intros x y Hx%Hse Hy%Hse;
      rewrite pair_compare_0, strings_Compare_eq, IH, Z.eqb_eq by auto; done.
Qed.
