(* ===== verification/PathElement.v ===== *)
(** * Package fieldpath: path elements and paths

    Models the [PathElement] type of [fieldpath/element.go] with its order, and
    the [Path] type of [fieldpath/path.go]. *)
From S2P Require Import Prelude GoLib GoFloat Value ValueOrder.

(** Selects a child of a containing object.  The Go struct has four optional
    pointers, exactly one of which should be set. *)
Record PathElement := mkPE {
  FieldName : option string;
  Key : option FieldList;
  PEValue : option value;
  Index : option Z;
}.

Definition peField (name : string) : PathElement := mkPE (Some name) None None None.
Definition peKey (k : FieldList) : PathElement := mkPE None (Some k) None None.
Definition peValue (v : value) : PathElement := mkPE None None (Some v) None.
Definition peIndex (i : Z) : PathElement := mkPE None None None (Some i).
(** The zero value [PathElement{}]. *)
Definition peZero : PathElement := mkPE None None None None.

Definition PathElement_Compare (e rhs : PathElement) : Z :=
  match FieldName e, FieldName rhs with
  | Some _, None => -1
  | Some a, Some b => strings_Compare a b
  | None, Some _ => 1
  | None, None =>
    match Key e, Key rhs with
    | Some _, None => -1
    | Some a, Some b => FieldList_Compare a b
    | None, Some _ => 1
    | None, None =>
      match PEValue e, PEValue rhs with
      | Some _, None => -1
      | Some a, Some b => Compare a b
      | None, Some _ => 1
      | None, None =>
        match Index e, Index rhs with
        | Some _, None => -1
        | Some a, Some b => if a <? b then -1 else if a =? b then 0 else 1
        | None, Some _ => 1
        | None, None => 0
        end
      end
    end
  end.

Definition PathElement_Less (e rhs : PathElement) : bool := PathElement_Compare e rhs <? 0.

Definition PathElement_Equals (e rhs : PathElement) : bool :=
  match FieldName e, FieldName rhs with
  | Some _, None => false
  | Some a, Some b => string_eqb a b
  | None, Some _ => false
  | None, None =>
    match Key e, Key rhs with
    | Some _, None => false
    | Some a, Some b => FieldList_Equals a b
    | None, Some _ => false
    | None, None =>
      match PEValue e, PEValue rhs with
      | Some _, None => false
      | Some a, Some b => Equals a b
      | None, Some _ => false
      | None, None =>
        match Index e, Index rhs with
        | Some _, None => false
        | Some a, Some b => a =? b
        | None, Some _ => false
        | None, None => true
        end
      end
    end
  end.

(** [KeyByFields] on its arguments already grouped in name/value pairs. *)
Definition KeyByFields (nameValues : list (string * value)) : FieldList :=
  FieldList_Sort ((fun nv => mkField nv.1 nv.2) <$> nameValues).

(** ** Paths *)

Abbreviation Path := (list PathElement).

Fixpoint pathElementsEqual (fp fp2 : Path) : bool :=
  match fp, fp2 with
  | a :: fp', b :: fp2' =>
    if negb (PathElement_Equals a b) then false else pathElementsEqual fp' fp2'
  | _, _ => true
  end.

Definition Path_Equals (fp fp2 : Path) : bool :=
  if negb (length fp =? length fp2)%nat then false else pathElementsEqual fp fp2.

Fixpoint Path_Compare (fp rhs : Path) : Z :=
  match fp, rhs with
  | [], [] => 0
  | [], _ :: _ => -1
  | _ :: _, [] => 1
  | a :: fp', b :: rhs' =>
    let c := PathElement_Compare a b in
    if negb (c =? 0) then c else Path_Compare fp' rhs'
  end.

(** The arguments [MakePath] accepts; any other Go value is [PartOther]. *)
Inductive PathPart :=
  | PartPE (pe : PathElement)
  | PartInt (i : Z)
  | PartString (s : string)
  | PartKey (k : FieldList)
  | PartValue (v : value)
  | PartOther.

Inductive MakePathError := ErrEmptyKey | ErrNotAPathElement.

Fixpoint MakePath (parts : list PathPart) : MakePathError + Path :=
  match parts with
  | [] => inr []
  | p :: parts' =>
    let pe :=
      match p with
      | PartPE t => inr t
      | PartInt t => inr (peIndex t)
      | PartString t => inr (peField t)
      | PartKey t => if (length t =? 0)%nat then inl ErrEmptyKey else inr (peKey t)
      | PartValue t => inr (peValue t)
      | PartOther => inl ErrNotAPathElement
      end in
    match pe with
    | inl err => inl err
    | inr pe =>
      match MakePath parts' with
      | inl err => inl err
      | inr fp => inr (pe :: fp)
      end
    end
  end.

(** ** The order on path elements *)

Definition fieldlist_ok (r : Regime) (f : FieldList) : bool :=
  forallb (fun x => value_ok r (FieldValue x)) f.

(** At most one of the four pointers is set. *)
Definition pe_single (pe : PathElement) : bool :=
  match FieldName pe, Key pe, PEValue pe, Index pe with
  | Some _, None, None, None | None, Some _, None, None | None, None, Some _, None
  | None, None, None, _ => true
  | _, _, _, _ => false
  end.

Definition pe_ok (r : Regime) (pe : PathElement) : bool :=
  pe_single pe &&
  (match Key pe with Some k => fieldlist_ok r k | None => true end) &&
  (match PEValue pe with Some v => value_ok r v | None => true end).

Definition pe_dom (r : Regime) (pe : PathElement) : Prop := pe_ok r pe = true.

Definition field_compare (a b : Field) : Z :=
  pair_compare strings_Compare Compare (Name a, FieldValue a) (Name b, FieldValue b).

Lemma FieldList_Compare_lex f g : FieldList_Compare f g = lex_compare field_compare f g.
Proof.
  revert g. induction f as [|a f IH]; intros [|b g]; simpl; try done.
  assert (Hc : field_compare a b = if strings_Compare (Name a) (Name b) =? 0
    then Compare (FieldValue a) (FieldValue b) else strings_Compare (Name a) (Name b)) by done.
  rewrite IH, Hc.
  destruct (strings_Compare (Name a) (Name b) =? 0) eqn:E; simpl; [|by rewrite E].
  by destruct (Compare (FieldValue a) (FieldValue b) =? 0).
Qed.

#[export] Instance field_compare_order r :
  CmpOrder field_compare (fun x => value_ok r (FieldValue x) = true).
Proof.
  eapply (cmp_order_key _ _ (pair_compare strings_Compare Compare)
    (fun p => True /\ value_dom r p.2) (fun x => (Name x, FieldValue x))); [|done|done].
  exact (pair_compare_order _ _ (fun _ => True) (value_dom r) _ _).
Qed.

#[export] Instance FieldList_Compare_order r :
  CmpOrder FieldList_Compare (fun f => fieldlist_ok r f = true).
Proof.
  eapply (cmp_order_key _ _ (lex_compare field_compare) _ id); [apply _| |].
  - intros f. unfold fieldlist_ok, id. apply forallb_Forall.
  - intros. apply FieldList_Compare_lex.
Qed.

Definition option_compare {A} (cmp : A -> A -> Z) (a b : option A) : Z :=
  match a, b with
  | Some _, None => -1
  | Some a, Some b => cmp a b
  | None, Some _ => 1
  | None, None => 0
  end.

Lemma option_compare_order {A} (cmp : A -> A -> Z) dom :
  CmpOrder cmp dom ->
  CmpOrder (option_compare cmp) (fun o => match o with Some a => dom a | None => True end).
Proof.
  intros O. constructor.
  - intros [x|] [y|]; simpl; intros; try lia. by apply (cmp_range cmp dom).
  - intros [x|] [y|]; simpl; intros; try lia. by apply (cmp_antisym cmp dom).
  - intros [x|] [y|] [z|]; simpl; intros; try lia. by apply (cmp_trans cmp dom x y z).
Qed.
#[export] Existing Instance option_compare_order.

(** What [Compare] looks at: the first field that is set decides. *)
Definition pe_key (e : PathElement) : option string * (option FieldList * (option value * option Z)) :=
  (FieldName e,
    match FieldName e with Some _ => (None, (None, None)) | None =>
      (Key e, match Key e with Some _ => (None, None) | None =>
        (PEValue e, match PEValue e with Some _ => None | None => Index e end) end) end).

Definition pe_key_compare :=
  pair_compare (option_compare strings_Compare)
    (pair_compare (option_compare FieldList_Compare)
      (pair_compare (option_compare Compare) (option_compare Z_compare))).

Lemma PathElement_Compare_key e e' :
  PathElement_Compare e e' = pe_key_compare (pe_key e) (pe_key e').
Proof.
  unfold PathElement_Compare, pe_key_compare, pe_key, pair_compare.
  destruct e as [[s|] k v i], e' as [[s'|] k' v' i']; simpl; try done.
  { by destruct (Z.eqb_spec (strings_Compare s s') 0). }
  destruct k as [k|], k' as [k'|]; simpl; try done.
  { by destruct (Z.eqb_spec (FieldList_Compare k k') 0). }
  destruct v as [v|], v' as [v'|]; simpl; try done.
  { by destruct (Z.eqb_spec (Compare v v') 0). }
  destruct i as [i|], i' as [i'|]; simpl; try done.
  unfold Z_compare. destruct (Z.ltb_spec i i'), (Z.eqb_spec i i'), (Z.compare_spec i i'); simpl; lia.
Qed.

#[export] Instance PathElement_Compare_order r : CmpOrder PathElement_Compare (pe_dom r).
Proof.
  eapply (cmp_order_key _ _ pe_key_compare _ pe_key).
  - unfold pe_key_compare. apply _.
  - intros [s k v i] [[_ Hk]%andb_true_iff Hv]%andb_true_iff. simpl in *.
    destruct s, k, v, i; simpl; split_and!; done.
  - intros. apply PathElement_Compare_key.
Qed.

Lemma FieldList_Equals_Compare r f g :
  fieldlist_ok r f = true -> fieldlist_ok r g = true ->
  FieldList_Equals f g = (FieldList_Compare f g =? 0).
Proof.
  unfold FieldList_Equals, fieldlist_ok.
  revert g. induction f as [|a f IH]; intros [|b g]; simpl; try done.
  intros [Ha Hf]%andb_true_iff [Hb Hg]%andb_true_iff. specialize (IH g Hf Hg).
  rewrite string_eqb_Compare, (Equals_Compare r) by done.
  destruct (Z.eqb_spec (strings_Compare (Name a) (Name b)) 0) as [E|E]; simpl.
  - destruct (Z.eqb_spec (Compare (FieldValue a) (FieldValue b)) 0) as [E'|E']; simpl; [done|].
    apply Z.eqb_neq in E'. rewrite E'. by destruct (negb _).
  - apply Z.eqb_neq in E. rewrite E. by destruct (negb _).
Qed.

(** Two path elements are equal exactly when they compare as 0. *)
Lemma PathElement_Equals_Compare r e e' :
  pe_dom r e -> pe_dom r e' -> PathElement_Equals e e' = (PathElement_Compare e e' =? 0).
Proof.
  unfold pe_dom, pe_ok, PathElement_Equals, PathElement_Compare.
  destruct e as [[s|] k v i], e' as [[s'|] k' v' i']; simpl; intros H H'; try done.
  { apply string_eqb_Compare. }
  apply andb_true_iff in H as [[_ Hk]%andb_true_iff Hv], H' as [[_ Hk']%andb_true_iff Hv'].
  destruct k as [k|], k' as [k'|]; try done.
  { by apply (FieldList_Equals_Compare r). }
  destruct v as [v|], v' as [v'|]; try done.
  { by apply (Equals_Compare r). }
  destruct i as [i|], i' as [i'|]; try done.
  by destruct (Z.ltb_spec i i'), (Z.eqb_spec i i'); simpl; try lia.
Qed.

Lemma Path_Compare_lex p q : Path_Compare p q = lex_compare PathElement_Compare p q.
Proof.
  revert q. induction p as [|a p IH]; intros [|b q]; simpl; try done.
  rewrite IH. by destruct (PathElement_Compare a b =? 0).
Qed.

#[export] Instance Path_Compare_order r : CmpOrder Path_Compare (Forall (pe_dom r)).
Proof.
  eapply (cmp_order_key _ _ (lex_compare PathElement_Compare) _ id); [apply _|done|].
  intros. apply Path_Compare_lex.
Qed.

(** ** FieldList.Sort *)

Lemma FieldList_Sort_stable f :
  FieldList_Sort f = sort_stable (fun a b => string_ltb (Name a) (Name b)) f.
Proof. by destruct f as [|f0 [|f1 [|f2 f]]]. Qed.

Lemma FieldList_Sort_perm f : FieldList_Sort f ≡ₚ f.
Proof. rewrite FieldList_Sort_stable. apply sort_stable_perm. Qed.

Lemma FieldList_Sort_names f :
  StronglySorted (fun a b => strings_Compare (Name a) (Name b) <= 0) (FieldList_Sort f).
Proof.
  rewrite FieldList_Sort_stable.
  assert (CmpOrder (fun a b : Field => strings_Compare (Name a) (Name b)) (fun _ => True)).
  { by eapply (cmp_order_key _ _ strings_Compare (fun _ => True) Name); [apply _|..]. }
  apply (sort_stable_sorted (fun a b => strings_Compare (Name a) (Name b)) (fun _ => True)).
  by apply Forall_true.
Qed.

Lemma fieldlist_ok_perm r f g : f ≡ₚ g -> fieldlist_ok r f = true -> fieldlist_ok r g = true.
Proof. unfold fieldlist_ok. rewrite !forallb_Forall. by intros ->. Qed.
