(* ===== verification/SortedSlice.v ===== *)
(** * Slices kept sorted by path element

    Shared theory of the three sorted containers of package [fieldpath]
    ([PathElementSet], [SetNodeMap], [PathElementMap]): what [sort.Search]
    finds in a sorted slice, insertion at the found place, and the two-index
    merge loops that walk two sorted slices together.  [slice_find] is the
    reference: a linear scan for an equal path element. *)
From S2P Require Import Prelude GoLib GoFloat Value ValueOrder PathElement.

Section Order.
Context (r : Regime).
Implicit Types a b c : PathElement.

Lemma pe_Less_spec a b : PathElement_Less a b = true <-> PathElement_Compare a b < 0.
Proof. apply Z.ltb_lt. Qed.

Lemma pe_Less_false a b : PathElement_Less a b = false <-> 0 <= PathElement_Compare a b.
Proof. apply Z.ltb_ge. Qed.

Lemma pe_Equals_spec a b :
  pe_dom r a -> pe_dom r b -> PathElement_Equals a b = true <-> PathElement_Compare a b = 0.
Proof. intros. rewrite (PathElement_Equals_Compare r) by done. apply Z.eqb_eq. Qed.

Lemma pe_Equals_refl a : pe_dom r a -> PathElement_Equals a a = true.
Proof. intros. apply pe_Equals_spec; auto. by apply (cmp_refl PathElement_Compare (pe_dom r)). Qed.

Lemma pe_Equals_sym a b :
  pe_dom r a -> pe_dom r b -> PathElement_Equals a b = PathElement_Equals b a.
Proof.
  intros. rewrite !(PathElement_Equals_Compare r) by done.
  rewrite (cmp_antisym PathElement_Compare (pe_dom r) a b) by done. apply eq_true_iff_eq. lia.
Qed.

(** Equal path elements can replace each other. *)
Lemma pe_Equals_l a b c :
  pe_dom r a -> pe_dom r b -> pe_dom r c -> PathElement_Equals a b = true ->
  PathElement_Compare a c = PathElement_Compare b c.
Proof. intros ??? E%pe_Equals_spec; auto. by apply (cmp_eq_l PathElement_Compare (pe_dom r)). Qed.

Lemma pe_Equals_trans_l a b c :
  pe_dom r a -> pe_dom r b -> pe_dom r c -> PathElement_Equals a b = true ->
  PathElement_Equals a c = PathElement_Equals b c.
Proof.
  intros. rewrite !(PathElement_Equals_Compare r) by done.
  by rewrite (pe_Equals_l a b c).
Qed.

Lemma pe_Less_trans a b c :
  pe_dom r a -> pe_dom r b -> pe_dom r c ->
  PathElement_Less a b = true -> PathElement_Less b c = true -> PathElement_Less a c = true.
Proof.
  rewrite !pe_Less_spec. intros. apply (cmp_lt_trans PathElement_Compare (pe_dom r) a b c); auto; lia.
Qed.

Lemma pe_Less_Equals_l a b c :
  pe_dom r a -> pe_dom r b -> pe_dom r c -> PathElement_Equals a b = true ->
  PathElement_Less a c = true -> PathElement_Less b c = true.
Proof. intros ???? L. rewrite !pe_Less_spec in *. by rewrite <-(pe_Equals_l a b c). Qed.

Lemma pe_Less_asym a b :
  pe_dom r a -> pe_dom r b -> PathElement_Less a b = true -> PathElement_Less b a = false.
Proof.
  rewrite pe_Less_spec, pe_Less_false. intros.
  rewrite (cmp_antisym PathElement_Compare (pe_dom r) a b) by done. lia.
Qed.

Lemma pe_Less_not_Equals a b :
  pe_dom r a -> pe_dom r b -> PathElement_Less a b = true -> PathElement_Equals a b = false.
Proof.
  intros ?? L%pe_Less_spec. rewrite (PathElement_Equals_Compare r) by done.
  apply Z.eqb_neq. lia.
Qed.

(** Neither is less: the path elements are equal. *)
Lemma pe_not_Less_Equals a b :
  pe_dom r a -> pe_dom r b -> PathElement_Less a b = false -> PathElement_Less b a = false ->
  PathElement_Equals a b = true.
Proof.
  rewrite !pe_Less_false. intros Ha Hb ??. apply pe_Equals_spec; auto.
  pose proof (cmp_antisym PathElement_Compare (pe_dom r) a b Ha Hb). lia.
Qed.
End Order.

Section Slice.
Context {A : Type} (key : A -> PathElement).

(** The search every sorted slice is accessed with:
    [sort.Search(len(l), func(i int) bool { return !key(l[i]).Less(pe) })]. *)
Definition search_pe (l : list A) (pe : PathElement) : nat :=
  sort_Search (length l) (fun i =>
    match l !! i with
    | Some m => negb (PathElement_Less (key m) pe)
    | None => true
    end).

Fixpoint slice_sorted (l : list A) : bool :=
  match l with
  | [] => true
  | a :: l' => forallb (fun b => PathElement_Less (key a) (key b)) l' && slice_sorted l'
  end.

(** Sorted without duplicates, and only comparable path elements. *)
Definition slice_ok (r : Regime) (l : list A) : bool :=
  forallb (fun a => pe_ok r (key a)) l && slice_sorted l.

Fixpoint slice_find (pe : PathElement) (l : list A) : option A :=
  match l with
  | [] => None
  | a :: l' => if PathElement_Equals (key a) pe then Some a else slice_find pe l'
  end.

Context (r : Regime).

Lemma slice_ok_cons a l :
  slice_ok r (a :: l) = true <->
  pe_dom r (key a) /\ Forall (fun b => PathElement_Less (key a) (key b) = true) l /\
  slice_ok r l = true.
Proof.
  unfold slice_ok, pe_dom. simpl. rewrite !andb_true_iff, <-(forallb_Forall (fun b => PathElement_Less (key a) (key b))).
  tauto.
Qed.

Lemma slice_ok_dom l : slice_ok r l = true -> Forall (fun a => pe_dom r (key a)) l.
Proof. unfold slice_ok. rewrite andb_true_iff, forallb_Forall. tauto. Qed.

Lemma slice_find_None pe l :
  Forall (fun a => PathElement_Equals (key a) pe = false) l -> slice_find pe l = None.
Proof. induction 1 as [|a l E F IH]; simpl; [done|]. by rewrite E. Qed.

Lemma slice_find_Some pe l a :
  slice_find pe l = Some a -> a ∈ l /\ PathElement_Equals (key a) pe = true.
Proof.
  induction l as [|b l IH]; simpl; [done|].
  destruct (PathElement_Equals (key b) pe) eqn:E.
  - intros [= ->]. split; [left|done].
  - intros [? ?]%IH. split; [by right|done].
Qed.

(** Nothing equals a path element below the whole slice. *)
Lemma slice_find_lt pe a l :
  pe_dom r pe -> slice_ok r (a :: l) = true -> PathElement_Less pe (key a) = true ->
  slice_find pe (a :: l) = None.
Proof.
  intros Hpe (Ha & Fl & Hl)%slice_ok_cons L. apply slice_ok_dom in Hl.
  apply slice_find_None. constructor.
  - rewrite (pe_Equals_sym r) by done. by apply (pe_Less_not_Equals r).
  - rewrite Forall_forall in Fl, Hl |- *. intros b Hb.
    rewrite (pe_Equals_sym r) by auto. apply (pe_Less_not_Equals r); auto.
    eapply (pe_Less_trans r); [| | |done|]; auto.
Qed.

(** A sorted slice has at most one element equal to [pe]. *)
Lemma slice_find_head pe a l :
  pe_dom r pe -> slice_ok r (a :: l) = true -> PathElement_Equals (key a) pe = true ->
  slice_find pe l = None.
Proof.
  intros Hpe (Ha & Fl & Hl)%slice_ok_cons E. apply slice_ok_dom in Hl.
  apply slice_find_None. rewrite Forall_forall in Fl, Hl |- *. intros b Hb.
  rewrite (pe_Equals_sym r) by auto.
  rewrite <-(pe_Equals_trans_l r (key a) pe (key b)) by auto.
  apply (pe_Less_not_Equals r); auto.
Qed.

Lemma slice_find_Equals pe pe' l :
  pe_dom r pe -> pe_dom r pe' -> Forall (fun a => pe_dom r (key a)) l ->
  PathElement_Equals pe pe' = true -> slice_find pe l = slice_find pe' l.
Proof.
  intros Hp Hp' Hl E. induction Hl as [|a l Ha Hl IH]; simpl; [done|]. rewrite IH.
  by rewrite (pe_Equals_sym r _ pe), (pe_Equals_sym r _ pe'), (pe_Equals_trans_l r pe pe').
Qed.

(** [search_pe] splits a sorted slice at [pe]. *)
Lemma search_pe_split l pe :
  pe_dom r pe -> slice_ok r l = true ->
  exists l1 l2, l = l1 ++ l2 /\ search_pe l pe = length l1 /\
    Forall (fun a => PathElement_Less (key a) pe = true) l1 /\
    Forall (fun a => PathElement_Less (key a) pe = false) l2.
Proof.
  intros Hpe Hok.
  assert (exists l1 l2, l = l1 ++ l2 /\
    Forall (fun a => PathElement_Less (key a) pe = true) l1 /\
    Forall (fun a => PathElement_Less (key a) pe = false) l2) as (l1 & l2 & -> & F1 & F2).
  { induction l as [|a l IH]; [by exists [], []|].
    apply slice_ok_cons in Hok as (Ha & Fl & Hl).
    destruct (PathElement_Less (key a) pe) eqn:E.
    - destruct (IH Hl) as (l1 & l2 & -> & F1 & F2). exists (a :: l1), l2. by auto.
    - exists [], (a :: l). split_and!; auto. constructor; [done|].
      apply slice_ok_dom in Hl. rewrite Forall_forall in Fl, Hl |- *. intros b Hb.
      destruct (PathElement_Less (key b) pe) eqn:E'; [|done].
      rewrite (pe_Less_trans r (key a) (key b) pe) in E by auto. done. }
  exists l1, l2. split_and!; auto. unfold search_pe. rewrite length_app.
  apply sort_Search_spec; [lia|..].
  - intros k Hk. rewrite lookup_app_l by done.
    destruct (lookup_lt_is_Some_2 l1 k Hk) as [x Ex]. rewrite Ex.
    rewrite Forall_lookup in F1. by rewrite (F1 k x Ex).
  - intros k Hk. rewrite lookup_app_r by lia.
    destruct (l2 !! (k - length l1)%nat) as [x|] eqn:Ex; [|done].
    rewrite Forall_lookup in F2. by rewrite (F2 _ x Ex).
Qed.

(** *** Lookup *)

(** Reading the slice at the found place: the element, if it equals [pe]. *)
Definition slice_get (l : list A) (pe : PathElement) : option A :=
  let loc := search_pe l pe in
  if (loc =? length l)%nat then None
  else
    match l !! loc with
    | Some a => if PathElement_Equals (key a) pe then Some a else None
    | None => None
    end.

Lemma slice_find_app pe l1 l2 :
  pe_dom r pe -> Forall (fun a => pe_dom r (key a)) l1 ->
  Forall (fun a => PathElement_Less (key a) pe = true) l1 ->
  slice_find pe (l1 ++ l2) = slice_find pe l2.
Proof.
  intros Hpe D F. induction F as [|a l L F IH]; simpl; [done|].
  apply Forall_cons in D as [Ha D].
  rewrite (pe_Less_not_Equals r) by done. auto.
Qed.

Lemma slice_get_find l pe :
  pe_dom r pe -> slice_ok r l = true -> slice_get l pe = slice_find pe l.
Proof.
  intros Hpe Hok. unfold slice_get.
  pose proof (slice_ok_dom _ Hok) as D.
  destruct (search_pe_split l pe Hpe Hok) as (l1 & l2 & -> & Es & F1 & F2).
  rewrite Es. apply Forall_app in D as [D1 D2].
  rewrite slice_find_app by done. rewrite length_app.
  destruct l2 as [|a l2]; simpl.
  { by rewrite (proj2 (Nat.eqb_eq (length l1) (length l1 + 0)%nat)) by lia. }
  rewrite (proj2 (Nat.eqb_neq _ _)) by lia.
  rewrite lookup_app_r, Nat.sub_diag by lia. simpl.
  destruct (PathElement_Equals (key a) pe) eqn:E; [done|].
  symmetry. apply slice_find_None.
  apply Forall_cons in F2 as [L F2], D2 as [Da D2].
  assert (slice_ok r (a :: l2) = true) as Hok2.
  { clear -Hok. induction l1 as [|b l1 IH]; [done|]. apply slice_ok_cons in Hok as (_&_&?). auto. }
  apply slice_ok_cons in Hok2 as (_ & Fa & _).
  assert (PathElement_Less pe (key a) = true) as Lpe.
  { destruct (PathElement_Less pe (key a)) eqn:E'; [done|].
    by rewrite (pe_not_Less_Equals r) in E. }
  rewrite Forall_forall in Fa, D2 |- *. intros b Hb.
  rewrite (pe_Equals_sym r) by auto. apply (pe_Less_not_Equals r); auto.
  eapply (pe_Less_trans r); [| | |exact Lpe|]; auto.
Qed.

(** *** Insertion *)

(** The slice after [append], [copy] and the assignment at [loc]. *)
Definition slice_insert_at (loc : nat) (x : A) (l : list A) : list A :=
  take loc l ++ x :: drop loc l.

Lemma slice_ok_app l1 l2 :
  slice_ok r (l1 ++ l2) = true <->
  slice_ok r l1 = true /\ slice_ok r l2 = true /\
  Forall (fun a => Forall (fun b => PathElement_Less (key a) (key b) = true) l2) l1.
Proof.
  induction l1 as [|a l1 IH].
  - simpl. split; [intros; split_and!; [done|done|constructor]|tauto].
  - rewrite <-app_comm_cons, !slice_ok_cons, IH, Forall_app, Forall_cons. tauto.
Qed.

(** Inserting an absent element at its place keeps the slice sorted. *)
Lemma slice_insert_ok x l :
  pe_dom r (key x) -> slice_ok r l = true -> slice_find (key x) l = None ->
  slice_ok r (slice_insert_at (search_pe l (key x)) x l) = true.
Proof.
  intros Hx Hok Hn. unfold slice_insert_at.
  pose proof (slice_ok_dom _ Hok) as D.
  destruct (search_pe_split l (key x) Hx Hok) as (l1 & l2 & -> & -> & F1 & F2).
  rewrite take_app_length, drop_app_length.
  apply slice_ok_app in Hok as (Hok1 & Hok2 & F12).
  apply Forall_app in D as [D1 D2]. rewrite slice_find_app in Hn by done.
  apply slice_ok_app. split_and!; [done| |].
  - apply slice_ok_cons. split_and!; [done| |done].
    clear -Hx Hn F2 D2. induction F2 as [|b l L F IH]; constructor.
    + apply Forall_cons in D2 as [Db D2]. simpl in Hn.
      destruct (PathElement_Less (key x) (key b)) eqn:E; [done|].
      by rewrite (pe_not_Less_Equals r) in Hn.
    + apply Forall_cons in D2 as [Db D2]. simpl in Hn.
      destruct (PathElement_Equals (key b) (key x)); [done|]. auto.
  - rewrite Forall_forall in F1, F12 |- *. intros a Ha. constructor; auto.
Qed.

Lemma slice_find_skip pe x l1 l2 :
  PathElement_Equals (key x) pe = false ->
  slice_find pe (l1 ++ x :: l2) = slice_find pe (l1 ++ l2).
Proof.
  intros E. induction l1 as [|a l1 IH]; simpl; [by rewrite E|]. by rewrite IH.
Qed.

Lemma slice_find_hit pe x l1 l2 :
  PathElement_Equals (key x) pe = true -> slice_find pe (l1 ++ l2) = None ->
  slice_find pe (l1 ++ x :: l2) = Some x.
Proof.
  intros E. induction l1 as [|a l1 IH]; simpl; [by rewrite E|].
  destruct (PathElement_Equals (key a) pe); [done|]. auto.
Qed.

Lemma slice_find_insert x l pe :
  pe_dom r (key x) -> pe_dom r pe -> slice_ok r l = true -> slice_find (key x) l = None ->
  slice_find pe (slice_insert_at (search_pe l (key x)) x l) =
    if PathElement_Equals (key x) pe then Some x else slice_find pe l.
Proof.
  intros Hx Hpe Hok Hn. pose proof (slice_ok_dom _ Hok) as D.
  unfold slice_insert_at.
  destruct (PathElement_Equals (key x) pe) eqn:E.
  - apply slice_find_hit; [done|]. rewrite take_drop.
    by rewrite <-(slice_find_Equals (key x) pe).
  - by rewrite slice_find_skip, take_drop.
Qed.
End Slice.

(** ** Walking two sorted slices together *)

Lemma omap_Some_id {A} (l : list A) : omap Some l = l.
Proof. induction l as [|a l IH]; [done|]. change (a :: omap Some l = a :: l). by rewrite IH. Qed.

Lemma omap_None_nil {A B} (l : list A) : omap (fun _ => @None B) l = [].
Proof. by induction l. Qed.

Definition opt_cons {C} (o : option C) (l : list C) : list C :=
  match o with Some c => c :: l | None => l end.

Section Merge.
Context {A B C : Type}
  (kA : A -> PathElement) (kB : B -> PathElement) (kC : C -> PathElement)
  (onL : A -> option C) (onBoth : A -> B -> option C) (onR : B -> option C).

(** The generic merge loop: [onL]/[onR] say what becomes of an element whose
    path element is only in one slice, [onBoth] of a pair of equal ones. *)
Fixpoint merge_loop (l1 : list A) : list B -> list C :=
  fix go (l2 : list B) : list C :=
    match l1, l2 with
    | [], _ => omap onR l2
    | _, [] => omap onL l1
    | a :: l1', b :: l2' =>
      if PathElement_Less (kA a) (kB b) then opt_cons (onL a) (merge_loop l1' l2)
      else if PathElement_Less (kB b) (kA a) then opt_cons (onR b) (go l2')
      else opt_cons (onBoth a b) (merge_loop l1' l2')
    end.

(** What the loop should compute, key by key. *)
Definition merge_opt (a : option A) (b : option B) : option C :=
  match a, b with
  | Some a, Some b => onBoth a b
  | Some a, None => onL a
  | None, Some b => onR b
  | None, None => None
  end.

Lemma merge_loop_nil_l l2 : merge_loop [] l2 = omap onR l2.
Proof. by destruct l2. Qed.
Lemma merge_loop_nil_r l1 : merge_loop l1 [] = omap onL l1.
Proof. by destruct l1. Qed.

Lemma merge_loop_cons a l1 b l2 :
  merge_loop (a :: l1) (b :: l2) =
    if PathElement_Less (kA a) (kB b) then opt_cons (onL a) (merge_loop l1 (b :: l2))
    else if PathElement_Less (kB b) (kA a) then opt_cons (onR b) (merge_loop (a :: l1) l2)
    else opt_cons (onBoth a b) (merge_loop l1 l2).
Proof. done. Qed.

Lemma omap_cons_opt {X Y} (f : X -> option Y) x l : omap f (x :: l) = opt_cons (f x) (omap f l).
Proof. simpl. by destruct (f x). Qed.

(** Every output comes from one of the three cases. *)
Lemma merge_loop_Forall (P : C -> Prop) l1 l2 :
  Forall (fun a => forall c, onL a = Some c -> P c) l1 ->
  Forall (fun b => forall c, onR b = Some c -> P c) l2 ->
  Forall (fun a => Forall (fun b => forall c, onBoth a b = Some c -> P c) l2) l1 ->
  Forall P (merge_loop l1 l2).
Proof.
  assert (Hoc : forall o l, (forall c, o = Some c -> P c) -> Forall P l -> Forall P (opt_cons o l)).
  { intros [c|] l Ho Hl; simpl; [constructor; auto|done]. }
  assert (Hom : forall X (f : X -> option C) l,
    Forall (fun x => forall c, f x = Some c -> P c) l -> Forall P (omap f l)).
  { intros X f l F. induction F; [constructor|]. rewrite omap_cons_opt. auto. }
  revert l2. induction l1 as [|a l1 IH]; intros l2; [rewrite merge_loop_nil_l; auto|].
  induction l2 as [|b l2 IH2]; [rewrite merge_loop_nil_r; auto|].
  intros FL FR FB. rewrite merge_loop_cons.
  pose proof FL as FL'. pose proof FR as FR'. pose proof FB as FB'.
  apply Forall_cons in FL as [HL FL], FR as [HR FR], FB as [HB FB].
  assert (FBt : Forall (fun a => Forall (fun b => forall c, onBoth a b = Some c -> P c) l2) l1).
  { eapply Forall_impl; [exact FB|]. intros x Hx. by apply Forall_cons in Hx as []. }
  apply Forall_cons in HB as [HB HBt].
  destruct (PathElement_Less (kA a) (kB b)); [|destruct (PathElement_Less (kB b) (kA a))];
    apply Hoc; auto.
Qed.

Context (r : Regime).
(** The outputs keep the path element of their inputs. *)
Definition keeps_keys (l1 : list A) (l2 : list B) : Prop :=
  (forall a c, a ∈ l1 -> onL a = Some c -> kC c = kA a) /\
  (forall b c, b ∈ l2 -> onR b = Some c -> kC c = kB b) /\
  (forall a b c, a ∈ l1 -> b ∈ l2 -> onBoth a b = Some c -> kC c = kA a \/ kC c = kB b).

Lemma slice_find_opt_cons pe o l :
  slice_find kC pe (opt_cons o l) =
    match o with
    | Some c => if PathElement_Equals (kC c) pe then Some c else slice_find kC pe l
    | None => slice_find kC pe l
    end.
Proof. by destruct o. Qed.

Lemma slice_ok_opt_cons o l :
  (forall c, o = Some c ->
    pe_dom r (kC c) /\ Forall (fun d => PathElement_Less (kC c) (kC d) = true) l) ->
  slice_ok kC r l = true -> slice_ok kC r (opt_cons o l) = true.
Proof.
  intros Ho Hl. destruct o as [c|]; [|done]. simpl.
  destruct (Ho c eq_refl). by apply slice_ok_cons.
Qed.

(** Filtering a sorted slice through a key-preserving function. *)
Lemma omap_slice {X} (kX : X -> PathElement) (f : X -> option C) l :
  slice_ok kX r l = true -> (forall x c, x ∈ l -> f x = Some c -> kC c = kX x) ->
  slice_ok kC r (omap f l) = true /\
  forall pe, pe_dom r pe -> slice_find kC pe (omap f l) = slice_find kX pe l ≫= f.
Proof.
  induction l as [|x l IH]; intros Hok Hk; [done|].
  pose proof Hok as (Hx & Fx & Hl)%slice_ok_cons.
  destruct IH as [IHok IHf]; [done|intros; apply Hk; [by right|done]|].
  rewrite omap_cons_opt. split.
  - apply slice_ok_opt_cons; [|done]. intros c Ec.
    rewrite (Hk x c ltac:(left) Ec). split; [done|].
    apply Forall_forall. intros d (y & Hy & Ed)%list_elem_of_omap.
    rewrite (Hk y d ltac:(by right) Ed). rewrite Forall_forall in Fx. auto.
  - intros pe Hpe. rewrite slice_find_opt_cons, IHf by done. simpl.
    destruct (PathElement_Equals (kX x) pe) eqn:E; simpl.
    + rewrite (slice_find_head kX r pe x l) by done. simpl.
      destruct (f x) as [c|] eqn:Ec; [|done].
      by rewrite (Hk x c ltac:(left) Ec), E.
    + destruct (f x) as [c|] eqn:Ec; [|done].
      by rewrite (Hk x c ltac:(left) Ec), E.
Qed.

Lemma keeps_keys_tail l1 l2 l1' l2' :
  l1' ⊆ l1 -> l2' ⊆ l2 -> keeps_keys l1 l2 -> keeps_keys l1' l2'.
Proof. intros S1 S2 (HL & HR & HB). unfold keeps_keys. eauto 10. Qed.

Lemma keeps_keys_cons a l1 b l2 :
  keeps_keys (a :: l1) (b :: l2) ->
  keeps_keys l1 (b :: l2) /\ keeps_keys (a :: l1) l2 /\ keeps_keys l1 l2.
Proof.
  intros HK. split_and!; eapply keeps_keys_tail; try exact HK; try done;
    intros x Hx; by right.
Qed.

(** One step of the merge adds at most an element with the path element [k]. *)
Lemma slice_find_step pe o l k :
  (forall c, o = Some c -> PathElement_Equals (kC c) pe = PathElement_Equals k pe) ->
  slice_find kC pe (opt_cons o l) =
    if PathElement_Equals k pe then
      match o with Some c => Some c | None => slice_find kC pe l end
    else slice_find kC pe l.
Proof.
  intros Ho. rewrite slice_find_opt_cons. destruct o as [c|]; [|by destruct (PathElement_Equals k pe)].
  by rewrite (Ho c).
Qed.

Lemma merge_loop_lower k l1 l2 :
  keeps_keys l1 l2 ->
  Forall (fun a => PathElement_Less k (kA a) = true) l1 ->
  Forall (fun b => PathElement_Less k (kB b) = true) l2 ->
  Forall (fun c => PathElement_Less k (kC c) = true) (merge_loop l1 l2).
Proof.
  intros (HL & HR & HB) F1 F2. rewrite Forall_forall in F1. rewrite Forall_forall in F2.
  apply merge_loop_Forall.
  - apply Forall_forall. intros a Ha c Ec. rewrite (HL a c Ha Ec). auto.
  - apply Forall_forall. intros b Hb c Ec. rewrite (HR b c Hb Ec). auto.
  - apply Forall_forall. intros a Ha. apply Forall_forall. intros b Hb c Ec.
    destruct (HB a b c Ha Hb Ec) as [-> | ->]; auto.
Qed.

Lemma slice_Less_trans {X} (kX : X -> PathElement) k k' l :
  pe_dom r k -> pe_dom r k' -> slice_ok kX r l = true -> PathElement_Less k k' = true ->
  Forall (fun x => PathElement_Less k' (kX x) = true) l ->
  Forall (fun x => PathElement_Less k (kX x) = true) l.
Proof.
  intros Hk Hk' Hl%slice_ok_dom L F. rewrite Forall_forall in F, Hl |- *.
  intros x Hx. eapply (pe_Less_trans r); [| | |exact L|]; auto.
Qed.

Lemma slice_Less_Equals {X} (kX : X -> PathElement) k k' l :
  pe_dom r k -> pe_dom r k' -> slice_ok kX r l = true -> PathElement_Equals k k' = true ->
  Forall (fun x => PathElement_Less k' (kX x) = true) l ->
  Forall (fun x => PathElement_Less k (kX x) = true) l.
Proof.
  intros Hk Hk' Hl%slice_ok_dom E F. rewrite Forall_forall in F, Hl |- *.
  intros x Hx. apply pe_Less_spec. rewrite (pe_Equals_l r k k') by auto.
  apply pe_Less_spec. auto.
Qed.

(** The merged slice is sorted. *)
Lemma merge_loop_ok l1 l2 :
  slice_ok kA r l1 = true -> slice_ok kB r l2 = true -> keeps_keys l1 l2 ->
  slice_ok kC r (merge_loop l1 l2) = true.
Proof.
  revert l2. induction l1 as [|a l1 IH]; intros l2.
  { intros _ H2 (_ & HR & _). rewrite merge_loop_nil_l. by eapply (omap_slice kB). }
  induction l2 as [|b l2 IH2]; intros H1 H2 HK.
  { destruct HK as (HL & _). rewrite merge_loop_nil_r. by eapply (omap_slice kA). }
  pose proof (keeps_keys_cons a l1 b l2 HK) as (HK1 & HK2 & HK3).
  destruct HK as (HL & HR & HB).
  pose proof H1 as (Da & Fa & Hl1)%slice_ok_cons. pose proof H2 as (Db & Fb & Hl2)%slice_ok_cons.
  rewrite merge_loop_cons.
  destruct (PathElement_Less (kA a) (kB b)) eqn:Lab; [|destruct (PathElement_Less (kB b) (kA a)) eqn:Lba];
    apply slice_ok_opt_cons; auto; intros c Ec.
  - rewrite (HL a c ltac:(left) Ec). split; [done|]. apply merge_loop_lower; auto.
    constructor; [done|]. by apply (slice_Less_trans kB _ (kB b)).
  - rewrite (HR b c ltac:(left) Ec). split; [done|]. apply merge_loop_lower; auto.
    constructor; [done|]. by apply (slice_Less_trans kA _ (kA a)).
  - pose proof (pe_not_Less_Equals r _ _ Da Db Lab Lba) as E.
    destruct (HB a b c ltac:(left) ltac:(left) Ec) as [-> | ->]; (split; [done|]);
      apply merge_loop_lower; auto.
    + by apply (slice_Less_Equals kB _ (kB b)).
    + apply (slice_Less_Equals kA _ (kA a)); auto. by rewrite (pe_Equals_sym r).
Qed.

(** The merged slice holds, for each path element, what the case table says. *)
Lemma merge_loop_find l1 l2 pe :
  pe_dom r pe -> slice_ok kA r l1 = true -> slice_ok kB r l2 = true -> keeps_keys l1 l2 ->
  slice_find kC pe (merge_loop l1 l2) = merge_opt (slice_find kA pe l1) (slice_find kB pe l2).
Proof.
  intros Hpe. revert l2. induction l1 as [|a l1 IH]; intros l2.
  { intros _ H2 (_ & HR & _). rewrite merge_loop_nil_l.
    rewrite (proj2 (omap_slice kB onR l2 H2 HR)) by done. simpl.
    by destruct (slice_find kB pe l2). }
  induction l2 as [|b l2 IH2]; intros H1 H2 HK.
  { destruct HK as (HL & _). rewrite merge_loop_nil_r.
    rewrite (proj2 (omap_slice kA onL (a :: l1) H1 HL)) by done.
    by destruct (slice_find kA pe (a :: l1)). }
  pose proof (keeps_keys_cons a l1 b l2 HK) as (HK1 & HK2 & HK3).
  destruct HK as (HL & HR & HB).
  pose proof H1 as (Da & Fa & Hl1)%slice_ok_cons. pose proof H2 as (Db & Fb & Hl2)%slice_ok_cons.
  rewrite merge_loop_cons.
  destruct (PathElement_Less (kA a) (kB b)) eqn:Lab; [|destruct (PathElement_Less (kB b) (kA a)) eqn:Lba].
  - rewrite (slice_find_step pe (onL a) _ (kA a)) by (intros c Ec; by rewrite (HL a c ltac:(left) Ec)).
    rewrite IH by done. cbn [slice_find]. destruct (PathElement_Equals (kA a) pe) eqn:E; [|done].
    rewrite (slice_find_head kA r pe a l1) by done.
    change (if PathElement_Equals (kB b) pe then Some b else slice_find kB pe l2)
      with (slice_find kB pe (b :: l2)).
    rewrite (slice_find_lt kB r); [simpl; by destruct (onL a)|done|done|].
    by apply (pe_Less_Equals_l r (kA a)).
  - rewrite (slice_find_step pe (onR b) _ (kB b)) by (intros c Ec; by rewrite (HR b c ltac:(left) Ec)).
    rewrite IH2 by done. cbn [slice_find]. destruct (PathElement_Equals (kB b) pe) eqn:E; [|done].
    rewrite (slice_find_head kB r pe b l2) by done.
    change (if PathElement_Equals (kA a) pe then Some a else slice_find kA pe l1)
      with (slice_find kA pe (a :: l1)).
    rewrite (slice_find_lt kA r); [simpl; by destruct (onR b)|done|done|].
    by apply (pe_Less_Equals_l r (kB b)).
  - pose proof (pe_not_Less_Equals r _ _ Da Db Lab Lba) as Eab.
    pose proof (pe_Equals_trans_l r (kA a) (kB b) pe Da Db Hpe Eab) as Epe.
    rewrite (slice_find_step pe (onBoth a b) _ (kA a))
      by (intros c Ec; by destruct (HB a b c ltac:(left) ltac:(left) Ec) as [-> | ->]).
    rewrite IH by done. cbn [slice_find]. rewrite <-Epe.
    destruct (PathElement_Equals (kA a) pe) eqn:E; [|done].
    rewrite (slice_find_head kA r pe a l1), (slice_find_head kB r pe b l2) by done.
    simpl. by destruct (onBoth a b).
Qed.
End Merge.
