(* ===== verification/FieldSet.v ===== *)
(** * Package fieldpath: sets of path elements and of paths

    Models [PathElementSet] of [fieldpath/element.go] and the trie [Set] /
    [SetNodeMap] of [fieldpath/set.go] (without the schema-directed
    [EnsureNamedFieldsAreMembers], see [FieldSetSchema]).  A
    [PathElementSet] and a [SetNodeMap] are their sorted [members] slices; the
    two-index loops of the code are recursions on the unread suffixes. *)
From S2P Require Import Prelude GoLib GoFloat Value ValueOrder PathElement SortedSlice.

(** ** PathElementSet *)

Abbreviation PathElementSet := (list PathElement).

Definition PathElementSet_Insert (s : PathElementSet) (pe : PathElement) : PathElementSet :=
  let loc := search_pe id s pe in
  if (loc =? length s)%nat then s ++ [pe]
  else
    match s !! loc with
    | Some m => if PathElement_Equals m pe then s else slice_insert_at loc pe s
    | None => s
    end.

Fixpoint PathElementSet_Union (s : PathElementSet) : PathElementSet -> PathElementSet :=
  fix go (s2 : PathElementSet) : PathElementSet :=
    match s, s2 with
    | [], _ => s2
    | _, [] => s
    | a :: s', b :: s2' =>
      if PathElement_Less a b then a :: PathElementSet_Union s' s2
      else b :: (if negb (PathElement_Less b a) then PathElementSet_Union s' s2' else go s2')
    end.

Fixpoint PathElementSet_Intersection (s : PathElementSet) : PathElementSet -> PathElementSet :=
  fix go (s2 : PathElementSet) : PathElementSet :=
    match s, s2 with
    | [], _ => []
    | _, [] => []
    | a :: s', b :: s2' =>
      if PathElement_Less a b then PathElementSet_Intersection s' s2
      else if negb (PathElement_Less b a) then a :: PathElementSet_Intersection s' s2'
      else go s2'
    end.

Fixpoint PathElementSet_Difference (s : PathElementSet) : PathElementSet -> PathElementSet :=
  fix go (s2 : PathElementSet) : PathElementSet :=
    match s, s2 with
    | [], _ => []
    | _, [] => s
    | a :: s', b :: s2' =>
      if PathElement_Less a b then a :: PathElementSet_Difference s' s2
      else if negb (PathElement_Less b a) then PathElementSet_Difference s' s2'
      else go s2'
    end.

Definition PathElementSet_Size (s : PathElementSet) : nat := length s.

Definition PathElementSet_Has (s : PathElementSet) (pe : PathElement) : bool :=
  let loc := search_pe id s pe in
  if (loc =? length s)%nat then false
  else
    match s !! loc with
    | Some m => if PathElement_Equals m pe then true else false
    | None => false
    end.

Fixpoint membersEqual (s s2 : PathElementSet) : bool :=
  match s, s2 with
  | a :: s', b :: s2' => if negb (PathElement_Equals a b) then false else membersEqual s' s2'
  | _, _ => true
  end.

Definition PathElementSet_Equals (s s2 : PathElementSet) : bool :=
  if negb (length s =? length s2)%nat then false else membersEqual s s2.

(** ** Set and SetNodeMap *)

#[warnings="-register-all"]
Inductive FSet := mkSet (Members : PathElementSet) (Children : list (PathElement * FSet)).

Abbreviation SetNodeMap := (list (PathElement * FSet)).

Definition Members (s : FSet) : PathElementSet := let (m, _) := s in m.
Definition Children (s : FSet) : SetNodeMap := let (_, c) := s in c.

(** The empty set [&Set{}]. *)
Definition emptySet : FSet := mkSet [] [].

(** [Descend] makes sure [pe] has a node, and returns the slice with the
    position of that node. *)
Definition SetNodeMap_Descend (s : SetNodeMap) (pe : PathElement) : SetNodeMap * nat :=
  let loc := search_pe fst s pe in
  if (loc =? length s)%nat then (s ++ [(pe, emptySet)], loc)
  else
    match s !! loc with
    | Some n =>
      if PathElement_Equals n.1 pe then (s, loc)
      else (slice_insert_at loc (pe, emptySet) s, loc)
    | None => (s, loc)
    end.

Definition SetNodeMap_Get (s : SetNodeMap) (pe : PathElement) : option FSet :=
  let loc := search_pe fst s pe in
  if (loc =? length s)%nat then None
  else
    match s !! loc with
    | Some n => if PathElement_Equals n.1 pe then Some n.2 else None
    | None => None
    end.

(** [Insert] descends to the node of the last path element and adds it there. *)
Fixpoint Set_Insert (s : FSet) (p : Path) : FSet :=
  match p with
  | [] => s
  | [pe] => mkSet (PathElementSet_Insert (Members s) pe) (Children s)
  | pe :: p' =>
    let '(children, loc) := SetNodeMap_Descend (Children s) pe in
    mkSet (Members s) (alter (fun n => (n.1, Set_Insert n.2 p')) loc children)
  end.

Definition NewSet (paths : list Path) : FSet := foldl Set_Insert emptySet paths.

Fixpoint Set_Has (s : FSet) (p : Path) : bool :=
  match p with
  | [] => false
  | [pe] => PathElementSet_Has (Members s) pe
  | pe :: p' =>
    match SetNodeMap_Get (Children s) pe with
    | None => false
    | Some sub => Set_Has sub p'
    end
  end.

Definition Set_WithPrefix (s : FSet) (pe : PathElement) : FSet :=
  match SetNodeMap_Get (Children s) pe with
  | None => NewSet []
  | Some subset => subset
  end.

(** *** Operations over the whole trie

    Each [SetNodeMap_*] takes the operation on sub-sets it calls. *)
Section SetNodeMapOps.
Variable size : FSet -> nat.
Definition SetNodeMap_Size (s : SetNodeMap) : nat :=
  foldl (fun count v => count + size v.2)%nat O s.

Variable empty : FSet -> bool.
Fixpoint SetNodeMap_Empty (s : SetNodeMap) : bool :=
  match s with
  | [] => true
  | n :: s' => if negb (empty n.2) then false else SetNodeMap_Empty s'
  end.

Variable equals : FSet -> FSet -> bool.
Fixpoint nodesEqual (s s2 : SetNodeMap) : bool :=
  match s, s2 with
  | a :: s', b :: s2' =>
    if negb (PathElement_Equals a.1 b.1) then false
    else if negb (equals a.2 b.2) then false
    else nodesEqual s' s2'
  | _, _ => true
  end.
Definition SetNodeMap_Equals (s s2 : SetNodeMap) : bool :=
  if negb (length s =? length s2)%nat then false else nodesEqual s s2.

Variable union : FSet -> FSet -> FSet.
Fixpoint SetNodeMap_Union (s : SetNodeMap) : SetNodeMap -> SetNodeMap :=
  fix go (s2 : SetNodeMap) : SetNodeMap :=
    match s, s2 with
    | [], _ => s2
    | _, [] => s
    | a :: s', b :: s2' =>
      if PathElement_Less a.1 b.1 then a :: SetNodeMap_Union s' s2
      else if negb (PathElement_Less b.1 a.1) then
        (a.1, union a.2 b.2) :: SetNodeMap_Union s' s2'
      else b :: go s2'
    end.

Variable intersection : FSet -> FSet -> FSet.
Variable is_empty : FSet -> bool.
Fixpoint SetNodeMap_Intersection (s : SetNodeMap) : SetNodeMap -> SetNodeMap :=
  fix go (s2 : SetNodeMap) : SetNodeMap :=
    match s, s2 with
    | [], _ => []
    | _, [] => []
    | a :: s', b :: s2' =>
      if PathElement_Less a.1 b.1 then SetNodeMap_Intersection s' s2
      else if negb (PathElement_Less b.1 a.1) then
        let res := intersection a.2 b.2 in
        if negb (is_empty res) then (a.1, res) :: SetNodeMap_Intersection s' s2'
        else SetNodeMap_Intersection s' s2'
      else go s2'
    end.

Variable difference : FSet -> FSet -> FSet.
Fixpoint SetNodeMap_Difference (s : SetNodeMap) : SetNodeMap -> SetNodeMap :=
  fix go (s2 : SetNodeMap) : SetNodeMap :=
    match s, s2 with
    | [], _ => []
    | _, [] => s
    | a :: s', b :: s2' =>
      if PathElement_Less a.1 b.1 then (a.1, a.2) :: SetNodeMap_Difference s' s2
      else if negb (PathElement_Less b.1 a.1) then
        let diff := difference a.2 b.2 in
        if negb (is_empty diff) then (a.1, diff) :: SetNodeMap_Difference s' s2'
        else SetNodeMap_Difference s' s2'
      else go s2'
    end.

Variable recursive_difference : FSet -> FSet -> FSet.
(** [members2] and the second slice are the two halves of the argument [s2]. *)
Variable members2 : PathElementSet.
Fixpoint SetNodeMap_RecursiveDifference (s : SetNodeMap) : SetNodeMap -> SetNodeMap :=
  fix go (s2 : SetNodeMap) : SetNodeMap :=
    match s, s2 with
    | [], _ => []
    | a :: s', [] =>
      if negb (PathElementSet_Has members2 a.1) then a :: SetNodeMap_RecursiveDifference s' []
      else SetNodeMap_RecursiveDifference s' []
    | a :: s', b :: s2' =>
      if PathElement_Less a.1 b.1 then
        if negb (PathElementSet_Has members2 a.1)
        then (a.1, a.2) :: SetNodeMap_RecursiveDifference s' s2
        else SetNodeMap_RecursiveDifference s' s2
      else if negb (PathElement_Less b.1 a.1) then
        if negb (PathElementSet_Has members2 a.1) then
          let diff := recursive_difference a.2 b.2 in
          if negb (is_empty diff) then (a.1, diff) :: SetNodeMap_RecursiveDifference s' s2'
          else SetNodeMap_RecursiveDifference s' s2'
        else SetNodeMap_RecursiveDifference s' s2'
      else go s2'
    end.

Variable leaves : FSet -> FSet.
Definition SetNodeMap_Leaves (s : SetNodeMap) : SetNodeMap :=
  (fun n => (n.1, leaves n.2)) <$> s.

Variable iterate_prefix : Path -> FSet -> list Path.
Definition SetNodeMap_iteratePrefix (prefix : Path) (s : SetNodeMap) : list Path :=
  s ≫= (fun n => iterate_prefix (prefix ++ [n.1]) n.2).
End SetNodeMapOps.

Fixpoint Set_Size (s : FSet) : nat :=
  let (m, c) := s in (PathElementSet_Size m + SetNodeMap_Size Set_Size c)%nat.

Fixpoint Set_Empty (s : FSet) : bool :=
  let (m, c) := s in
  if (0 <? PathElementSet_Size m)%nat then false else SetNodeMap_Empty Set_Empty c.

Fixpoint Set_Equals (s s2 : FSet) : bool :=
  let (m, c) := s in
  PathElementSet_Equals m (Members s2) && SetNodeMap_Equals Set_Equals c (Children s2).

Fixpoint Set_Union (s s2 : FSet) : FSet :=
  let (m, c) := s in
  mkSet (PathElementSet_Union m (Members s2)) (SetNodeMap_Union Set_Union c (Children s2)).

Fixpoint Set_Intersection (s s2 : FSet) : FSet :=
  let (m, c) := s in
  mkSet (PathElementSet_Intersection m (Members s2))
    (SetNodeMap_Intersection Set_Intersection Set_Empty c (Children s2)).

Fixpoint Set_Difference (s s2 : FSet) : FSet :=
  let (m, c) := s in
  mkSet (PathElementSet_Difference m (Members s2))
    (SetNodeMap_Difference Set_Empty Set_Difference c (Children s2)).

Fixpoint Set_RecursiveDifference (s s2 : FSet) : FSet :=
  let (m, c) := s in
  mkSet (PathElementSet_Difference m (Members s2))
    (SetNodeMap_RecursiveDifference Set_Empty Set_RecursiveDifference (Members s2) c (Children s2)).

(** The members that are not also children: the loop over [im] and [ic]. *)
Fixpoint leafMembers (ms : PathElementSet) : SetNodeMap -> PathElementSet :=
  match ms with
  | [] => fun _ => []
  | member :: ms' =>
    fix inner (cs : SetNodeMap) : PathElementSet :=
      match cs with
      | [] => member :: leafMembers ms' []
      | c :: cs' =>
        let d := PathElement_Compare member c.1 in
        if d =? 0 then leafMembers ms' cs'
        else if d <? 0 then member :: leafMembers ms' cs
        else inner cs'
      end
  end.

Fixpoint Set_Leaves (s : FSet) : FSet :=
  let (m, c) := s in mkSet (leafMembers m c) (SetNodeMap_Leaves Set_Leaves c).

(** The paths [Iterate] passes to its callback, in order. *)
Fixpoint Set_iteratePrefix (prefix : Path) (s : FSet) : list Path :=
  let (m, c) := s in
  ((fun pe => prefix ++ [pe]) <$> m) ++ SetNodeMap_iteratePrefix Set_iteratePrefix prefix c.

Definition Set_Iterate (s : FSet) : list Path := Set_iteratePrefix [] s.
