(* ===== verification/FieldSetSpec.v ===== *)
(** * Package fieldpath: what the set operations compute

    [Set_ok] is the invariant of [Set]: every slice sorted without duplicates,
    and no node without elements.  Under it the trie behaves as the set of the
    paths [Set_Has] reports: each operation is characterised by its effect on
    [Set_Has], preserves the invariant, and [Set_Equals] is equality of these
    sets of paths. *)
From S2P Require Import Prelude GoLib GoFloat Value ValueOrder PathElement SortedSlice FieldSet.

(** ** Sorted slices: positions *)
Section SliceMore.
Context {A : Type} (key : A -> PathElement) (r : Regime).

Lemma slice_ok_keys l l' :
  key <$> l = key <$> l' -> slice_ok key r l = true -> slice_ok key r l' = true.
Proof.
  revert l'. induction l as [|a l IH]; intros [|b l'] E; try done.
  injection E as Eab E. rewrite !slice_ok_cons. intros (Ha & Fa & Hl). rewrite <-Eab.
  split_and!; [done| |by apply IH].
  clear -E Fa. revert l' E. induction Fa as [|x l H F IH]; intros [|y l'] E; try done.
  injection E as Exy E. constructor; [by rewrite <-Exy|auto].
Qed.

Lemma slice_find_mid pe a l1 l2 :
  pe_dom r pe -> slice_ok key r (l1 ++ a :: l2) = true ->
  slice_find key pe (l1 ++ a :: l2) =
    if PathElement_Equals (key a) pe then Some a else slice_find key pe (l1 ++ l2).
Proof.
  intros Hpe Hok. destruct (PathElement_Equals (key a) pe) eqn:E; [|by apply slice_find_skip].
  apply slice_find_hit; [done|].
  apply slice_ok_app in Hok as (H1 & H2 & F12).
  apply slice_find_None, Forall_app. split.
  - apply slice_ok_dom in H1. apply slice_ok_cons in H2 as (Da & _).
    rewrite Forall_forall in F12, H1 |- *. intros b Hb. specialize (F12 b Hb).
    apply Forall_cons in F12 as [L _].
    rewrite (pe_Equals_sym r), <-(pe_Equals_trans_l r (key a) pe), (pe_Equals_sym r) by auto.
    apply (pe_Less_not_Equals r); auto.
  - apply slice_ok_cons in H2 as (Da & Fa & H2). apply slice_ok_dom in H2.
    rewrite Forall_forall in Fa, H2 |- *. intros b Hb.
    rewrite (pe_Equals_sym r), <-(pe_Equals_trans_l r (key a) pe) by auto.
    apply (pe_Less_not_Equals r); auto.
Qed.

Lemma slice_find_Some_dom pe l a :
  slice_ok key r l = true -> slice_find key pe l = Some a -> pe_dom r (key a).
Proof.
  intros Hok%slice_ok_dom [Hin _]%slice_find_Some. rewrite Forall_forall in Hok. auto.
Qed.

(** The element of the slice itself is found. *)
Lemma slice_find_in l a :
  slice_ok key r l = true -> a ∈ l -> slice_find key (key a) l = Some a.
Proof.
  intros Hok (l1 & l2 & ->)%list_elem_of_split.
  pose proof (slice_ok_dom _ _ _ Hok) as D. apply Forall_app in D as [_ [Da _]%Forall_cons].
  rewrite slice_find_mid by done. by rewrite (pe_Equals_refl r).
Qed.

(** Two sorted slices with the same path elements list equal ones at the same places. *)
Lemma slice_find_ext {B} (keyB : B -> PathElement) (l : list A) (l' : list B) :
  slice_ok key r l = true -> slice_ok keyB r l' = true ->
  (forall pe, pe_dom r pe -> is_Some (slice_find key pe l) <-> is_Some (slice_find keyB pe l')) ->
  Forall2 (fun a b => PathElement_Equals (key a) (keyB b) = true) l l'.
Proof.
  revert l'. induction l as [|a l IH]; intros [|b l'] H H' Hf.
  - constructor.
  - apply slice_ok_cons in H' as (Db & _). destruct (Hf (keyB b) Db) as [_ Hf'].
    simpl in Hf'. rewrite (pe_Equals_refl r) in Hf' by done. destruct Hf' as [? ?]; eauto. done.
  - apply slice_ok_cons in H as (Da & _). destruct (Hf (key a) Da) as [Hf' _].
    simpl in Hf'. rewrite (pe_Equals_refl r) in Hf' by done. destruct Hf' as [? ?]; eauto. done.
  - pose proof H as (Da & Fa & Hl)%slice_ok_cons. pose proof H' as (Db & Fb & Hl')%slice_ok_cons.
    assert (Eab : PathElement_Equals (key a) (keyB b) = true).
    { apply (pe_not_Less_Equals r); auto.
      - destruct (PathElement_Less (key a) (keyB b)) eqn:L; [|done].
        destruct (proj1 (Hf (key a) Da)) as [x Hx].
        { simpl. rewrite (pe_Equals_refl r) by done. eauto. }
        by rewrite (slice_find_lt keyB r) in Hx.
      - destruct (PathElement_Less (keyB b) (key a)) eqn:L; [|done].
        destruct (proj2 (Hf (keyB b) Db)) as [x Hx].
        { simpl. rewrite (pe_Equals_refl r) by done. eauto. }
        by rewrite (slice_find_lt key r) in Hx. }
    constructor; [done|]. apply IH; auto. intros pe Hpe. specialize (Hf pe Hpe). simpl in Hf.
    rewrite <-(pe_Equals_trans_l r (key a) (keyB b) pe) in Hf by done.
    destruct (PathElement_Equals (key a) pe) eqn:E; [|done].
    rewrite (slice_find_head key r pe a l), (slice_find_head keyB r pe b l'); try done.
    by rewrite <-(pe_Equals_trans_l r (key a) (keyB b) pe).
Qed.
End SliceMore.

(** ** PathElementSet *)

(** Membership, by linear scan. *)
Definition pes_mem (pe : PathElement) (s : PathElementSet) : bool :=
  match slice_find id pe s with Some _ => true | None => false end.

Definition pes_ok (r : Regime) (s : PathElementSet) : bool := slice_ok id r s.

Section PES.
Context (r : Regime).
Implicit Types (s : PathElementSet) (pe : PathElement).

Lemma PathElementSet_Has_mem s pe :
  pe_dom r pe -> pes_ok r s = true -> PathElementSet_Has s pe = pes_mem pe s.
Proof.
  intros Hpe Hok. unfold pes_mem. rewrite <-(slice_get_find id r) by done.
  unfold PathElementSet_Has, slice_get. destruct (_ =? _)%nat; [done|].
  destruct (s !! _) as [m|]; [|done]. unfold id. by destruct (PathElement_Equals m pe).
Qed.

Lemma pes_mem_Equals s pe pe' :
  pe_dom r pe -> pe_dom r pe' -> pes_ok r s = true -> PathElement_Equals pe pe' = true ->
  pes_mem pe s = pes_mem pe' s.
Proof.
  intros Hp Hp' Hs E. unfold pes_mem.
  by rewrite (slice_find_Equals id r pe pe' s Hp Hp' (slice_ok_dom _ _ _ Hs) E).
Qed.

(** Insertion either leaves the slice alone or puts the element at its place. *)
Lemma PathElementSet_Insert_eq s pe :
  pe_dom r pe -> pes_ok r s = true ->
  PathElementSet_Insert s pe =
    if pes_mem pe s then s else slice_insert_at (search_pe id s pe) pe s.
Proof.
  intros Hpe Hok. unfold pes_mem. rewrite <-(slice_get_find id r) by done.
  unfold PathElementSet_Insert, slice_get, id.
  destruct (Nat.eqb_spec (search_pe (fun x => x) s pe) (length s)) as [E|N].
  - unfold slice_insert_at. rewrite E. by rewrite firstn_all, drop_all.
  - destruct (s !! _) as [m|] eqn:Es; [by destruct (PathElement_Equals m pe)|].
    apply lookup_ge_None in Es.
    destruct (search_pe_split id r s pe Hpe Hok) as (l1 & l2 & El & Elen & _).
    unfold id in *. rewrite Elen in *. subst s. rewrite length_app in *. lia.
Qed.

Lemma PathElementSet_Insert_ok s pe :
  pe_dom r pe -> pes_ok r s = true -> pes_ok r (PathElementSet_Insert s pe) = true.
Proof.
  intros Hpe Hok. rewrite PathElementSet_Insert_eq by done. unfold pes_mem.
  destruct (slice_find id pe s) eqn:E; [done|]. by apply (slice_insert_ok id r pe).
Qed.

Lemma pes_mem_Insert s pe pe' :
  pe_dom r pe -> pe_dom r pe' -> pes_ok r s = true ->
  pes_mem pe' (PathElementSet_Insert s pe) = PathElement_Equals pe pe' || pes_mem pe' s.
Proof.
  intros Hpe Hpe' Hok. rewrite PathElementSet_Insert_eq by done.
  unfold pes_mem at 2. destruct (slice_find id pe s) eqn:E.
  - destruct (PathElement_Equals pe pe') eqn:E'; [|done].
    rewrite <-(pes_mem_Equals s pe pe') by done. unfold pes_mem. by rewrite E.
  - unfold pes_mem. change (search_pe id s pe) with (search_pe id s (id pe)).
    rewrite (slice_find_insert id r pe s pe') by done. unfold id.
    by destruct (PathElement_Equals pe pe').
Qed.

(** *** The merge loops *)

Lemma PathElementSet_Union_merge s s2 :
  PathElementSet_Union s s2 = merge_loop id id Some (fun _ b => Some b) Some s s2.
Proof.
  revert s2. induction s as [|a s IH]; intros s2.
  { rewrite merge_loop_nil_l, omap_Some_id. by destruct s2. }
  induction s2 as [|b s2 IH2]; [by rewrite merge_loop_nil_r, omap_Some_id|].
  rewrite merge_loop_cons. simpl. unfold id in *. rewrite IH.
  destruct (PathElement_Less a b); [done|]. rewrite IH.
  destruct (PathElement_Less b a); simpl; [|done]. f_equal. exact IH2.
Qed.

Lemma PathElementSet_Intersection_merge s s2 :
  PathElementSet_Intersection s s2 =
  merge_loop id id (fun _ => None) (fun a _ => Some a) (fun _ => None) s s2.
Proof.
  revert s2. induction s as [|a s IH]; intros s2.
  { rewrite merge_loop_nil_l, omap_None_nil. by destruct s2. }
  induction s2 as [|b s2 IH2]; [by rewrite merge_loop_nil_r, omap_None_nil|].
  rewrite merge_loop_cons. simpl. unfold id in *. rewrite !IH.
  destruct (PathElement_Less a b); [done|].
  destruct (PathElement_Less b a); simpl; [exact IH2|done].
Qed.

Lemma PathElementSet_Difference_merge s s2 :
  PathElementSet_Difference s s2 =
  merge_loop id id Some (fun _ _ => None) (fun _ => None) s s2.
Proof.
  revert s2. induction s as [|a s IH]; intros s2.
  { rewrite merge_loop_nil_l, omap_None_nil. by destruct s2. }
  induction s2 as [|b s2 IH2]; [by rewrite merge_loop_nil_r, omap_Some_id|].
  rewrite merge_loop_cons. simpl. unfold id in *. rewrite !IH.
  destruct (PathElement_Less a b); [done|].
  destruct (PathElement_Less b a); simpl; [exact IH2|done].
Qed.

Lemma pes_keeps_keys (onL : PathElement -> option PathElement) onBoth onR s s2 :
  (forall a c, onL a = Some c -> c = a) -> (forall b c, onR b = Some c -> c = b) ->
  (forall a b c, onBoth a b = Some c -> c = a \/ c = b) ->
  keeps_keys id id id onL onBoth onR s s2.
Proof. intros HL HR HB. unfold keeps_keys, id. eauto 10. Qed.

Lemma PathElementSet_Union_ok s s2 :
  pes_ok r s = true -> pes_ok r s2 = true -> pes_ok r (PathElementSet_Union s s2) = true.
Proof.
  intros. rewrite PathElementSet_Union_merge. apply (merge_loop_ok id id); auto.
  apply pes_keeps_keys; naive_solver.
Qed.

Lemma PathElementSet_Intersection_ok s s2 :
  pes_ok r s = true -> pes_ok r s2 = true -> pes_ok r (PathElementSet_Intersection s s2) = true.
Proof.
  intros. rewrite PathElementSet_Intersection_merge. apply (merge_loop_ok id id); auto.
  apply pes_keeps_keys; naive_solver.
Qed.

Lemma PathElementSet_Difference_ok s s2 :
  pes_ok r s = true -> pes_ok r s2 = true -> pes_ok r (PathElementSet_Difference s s2) = true.
Proof.
  intros. rewrite PathElementSet_Difference_merge. apply (merge_loop_ok id id); auto.
  apply pes_keeps_keys; naive_solver.
Qed.

Lemma pes_mem_Union s s2 pe :
  pe_dom r pe -> pes_ok r s = true -> pes_ok r s2 = true ->
  pes_mem pe (PathElementSet_Union s s2) = pes_mem pe s || pes_mem pe s2.
Proof.
  intros. unfold pes_mem. rewrite PathElementSet_Union_merge.
  rewrite (merge_loop_find id id id _ _ _ r); auto.
  - by destruct (slice_find id pe s), (slice_find id pe s2).
  - apply pes_keeps_keys; naive_solver.
Qed.

Lemma pes_mem_Intersection s s2 pe :
  pe_dom r pe -> pes_ok r s = true -> pes_ok r s2 = true ->
  pes_mem pe (PathElementSet_Intersection s s2) = pes_mem pe s && pes_mem pe s2.
Proof.
  intros. unfold pes_mem. rewrite PathElementSet_Intersection_merge.
  rewrite (merge_loop_find id id id _ _ _ r); auto.
  - by destruct (slice_find id pe s), (slice_find id pe s2).
  - apply pes_keeps_keys; naive_solver.
Qed.

Lemma pes_mem_Difference s s2 pe :
  pe_dom r pe -> pes_ok r s = true -> pes_ok r s2 = true ->
  pes_mem pe (PathElementSet_Difference s s2) = pes_mem pe s && negb (pes_mem pe s2).
Proof.
  intros. unfold pes_mem. rewrite PathElementSet_Difference_merge.
  rewrite (merge_loop_find id id id _ _ _ r); auto.
  - by destruct (slice_find id pe s), (slice_find id pe s2).
  - apply pes_keeps_keys; naive_solver.
Qed.

Lemma membersEqual_Forall2 s s2 :
  PathElementSet_Equals s s2 = true <-> Forall2 (fun a b => PathElement_Equals a b = true) s s2.
Proof.
  unfold PathElementSet_Equals. revert s2. induction s as [|a s IH]; intros [|b s2]; simpl.
  - split; [constructor|done].
  - split; [done|inversion 1].
  - split; [done|inversion 1].
  - rewrite Forall2_cons, <-IH.
    destruct (length s =? length s2)%nat; simpl; [|by split; [|intros []]].
    destruct (PathElement_Equals a b); simpl; [tauto|]. by split; [|intros []].
Qed.

(** [Equals] is equality of the sets of members. *)
Lemma PathElementSet_Equals_mem s s2 :
  pes_ok r s = true -> pes_ok r s2 = true ->
  PathElementSet_Equals s s2 = true <->
  forall pe, pe_dom r pe -> pes_mem pe s = pes_mem pe s2.
Proof.
  intros Hs Hs2. rewrite membersEqual_Forall2. split.
  - intros F pe Hpe. unfold pes_mem.
    apply slice_ok_dom in Hs, Hs2. induction F as [|a b s s2 E F IH]; [done|].
    apply Forall_cons in Hs as [Ha Hs], Hs2 as [Hb Hs2]. simpl. unfold id in *.
    rewrite (pe_Equals_trans_l r a b pe) by done.
    destruct (PathElement_Equals b pe); auto.
  - intros H. apply (slice_find_ext id r id); auto. intros pe Hpe. specialize (H pe Hpe).
    unfold pes_mem in H. destruct (slice_find id pe s), (slice_find id pe s2); try done;
      split; intros [? ?]; eauto; done.
Qed.
End PES.

(** ** Set: the invariant *)

Section FSetInd.
Context (P : FSet -> Prop).
Hypothesis H : forall m (c : SetNodeMap), Forall (fun n => P n.2) c -> P (mkSet m c).

Fixpoint FSet_nested_ind (s : FSet) : P s :=
  match s with
  | mkSet m c => H m c
      ((fix go (c : SetNodeMap) := match c return Forall (fun n => P n.2) c with
        | [] => List.Forall_nil _
        | n :: c' => List.Forall_cons _ _ _ (FSet_nested_ind n.2) (go c')
        end) c)
  end.
End FSetInd.

(** Every slice of the trie is sorted, without duplicates. *)
Fixpoint Set_wf (r : Regime) (s : FSet) : bool :=
  let (m, c) := s in
  pes_ok r m && slice_ok fst r c && forallb (fun n => Set_wf r n.2) c.

(** "We aren't permitted to add nodes with no elements." *)
Fixpoint Set_full (s : FSet) : bool :=
  let (m, c) := s in
  forallb (fun n => negb (Set_Empty n.2) && Set_full n.2) c.

Definition Set_ok (r : Regime) (s : FSet) : bool := Set_wf r s && Set_full s.

Lemma Set_wf_mk r m c :
  Set_wf r (mkSet m c) = true <->
  pes_ok r m = true /\ slice_ok fst r c = true /\ Forall (fun n => Set_wf r n.2 = true) c.
Proof. simpl. rewrite !andb_true_iff, forallb_Forall. tauto. Qed.

Lemma Set_full_mk m c :
  Set_full (mkSet m c) = true <->
  Forall (fun n => Set_Empty n.2 = false /\ Set_full n.2 = true) c.
Proof.
  simpl. rewrite forallb_Forall. apply Forall_proper; [|done]. intros n.
  by rewrite andb_true_iff, negb_true_iff.
Qed.

Lemma Set_ok_iff r s : Set_ok r s = true <-> Set_wf r s = true /\ Set_full s = true.
Proof. apply andb_true_iff. Qed.

Lemma emptySet_wf r : Set_wf r emptySet = true.
Proof. done. Qed.

(** The node of a path element, by linear scan. *)
Definition child (pe : PathElement) (s : FSet) : option FSet := snd <$> slice_find fst pe (Children s).

Section SetGet.
Context (r : Regime).
Implicit Types (s : FSet) (c : SetNodeMap) (pe : PathElement) (p : Path).

Lemma SetNodeMap_Get_find c pe :
  pe_dom r pe -> slice_ok fst r c = true -> SetNodeMap_Get c pe = snd <$> slice_find fst pe c.
Proof.
  intros Hpe Hok. rewrite <-(slice_get_find fst r) by done.
  unfold SetNodeMap_Get, slice_get. destruct (_ =? _)%nat; [done|].
  destruct (c !! _) as [n|]; [|done]. by destruct (PathElement_Equals n.1 pe).
Qed.

Lemma child_wf s pe s' : Set_wf r s = true -> child pe s = Some s' -> Set_wf r s' = true.
Proof.
  destruct s as [m c]. rewrite Set_wf_mk. unfold child. simpl. intros (_ & _ & F) E.
  apply fmap_Some in E as (n & [Hin _]%slice_find_Some & ->).
  rewrite Forall_forall in F. auto.
Qed.

Lemma Set_Has_single s pe :
  Set_wf r s = true -> pe_dom r pe -> Set_Has s [pe] = pes_mem pe (Members s).
Proof. destruct s as [m c]. intros (Hm & _)%Set_wf_mk Hpe. by apply (PathElementSet_Has_mem r). Qed.

Lemma Set_Has_cons s pe (q : PathElement) p :
  Set_wf r s = true -> pe_dom r pe ->
  Set_Has s (pe :: q :: p) = match child pe s with Some s' => Set_Has s' (q :: p) | None => false end.
Proof.
  destruct s as [m c]. intros (_ & Hc & _)%Set_wf_mk Hpe. unfold child. simpl.
  rewrite SetNodeMap_Get_find by done. by destruct (slice_find fst pe c).
Qed.

Lemma Set_WithPrefix_child s pe :
  Set_wf r s = true -> pe_dom r pe -> Set_WithPrefix s pe = default emptySet (child pe s).
Proof.
  destruct s as [m c]. intros (_ & Hc & _)%Set_wf_mk Hpe. unfold child, Set_WithPrefix. simpl.
  rewrite SetNodeMap_Get_find by done. by destruct (slice_find fst pe c).
Qed.

(** An empty set has no member. *)
Lemma Set_Empty_Has s p : Set_Empty s = true -> Set_Has s p = false.
Proof.
  revert p. induction s as [m c IH] using FSet_nested_ind. intros p. simpl.
  destruct m as [|m0 m]; [simpl|done]. intros HE.
  assert (F : Forall (fun n => Set_Empty n.2 = true) c).
  { clear -HE. induction c as [|n c IH]; constructor; simpl in HE;
      destruct (Set_Empty n.2); simpl in HE; auto; done. }
  destruct p as [|pe [|q p]]; [done|done|].
  change (match SetNodeMap_Get c pe with
    Some sub => Set_Has sub (q :: p) | None => false end = false).
  unfold SetNodeMap_Get.
  destruct (_ =? _)%nat; [done|]. destruct (c !! _) as [n|] eqn:En; [|done].
  destruct (PathElement_Equals n.1 pe); [|done].
  rewrite Forall_lookup in IH. rewrite Forall_lookup in F.
  eapply IH; eauto.
Qed.

Lemma SetNodeMap_Empty_forall c :
  SetNodeMap_Empty Set_Empty c = forallb (fun n => Set_Empty n.2) c.
Proof. induction c as [|n c IH]; simpl; [done|]. rewrite IH. by destruct (Set_Empty n.2). Qed.

(** A set that is not empty has one. *)
Lemma Set_nonempty_Has s :
  Set_wf r s = true -> Set_Empty s = false ->
  exists p, Forall (pe_dom r) p /\ Set_Has s p = true.
Proof.
  induction s as [m c IH] using FSet_nested_ind. intros Hwf HE.
  pose proof Hwf as (Hm & Hc & Fc)%Set_wf_mk. simpl in HE.
  destruct m as [|m0 m].
  - simpl in HE. rewrite SetNodeMap_Empty_forall in HE.
    apply not_true_iff_false in HE. rewrite forallb_Forall in HE.
    apply not_Forall_Exists in HE; [|intros ?; apply bool_eq_dec].
    apply Exists_exists in HE as (n & Hn & HE). apply not_true_is_false in HE.
    rewrite Forall_forall in IH. rewrite Forall_forall in Fc.
    destruct (IH n Hn (Fc n Hn) HE) as (p & Dp & Hp). exists (n.1 :: p).
    pose proof (slice_ok_dom _ _ _ Hc) as D. rewrite Forall_forall in D.
    split; [constructor; auto|]. destruct p as [|q p]; [done|].
    rewrite Set_Has_cons by auto. unfold child. simpl. by rewrite (slice_find_in fst r).
  - exists [m0]. pose proof Hm as (D0 & _)%slice_ok_cons.
    split; [by repeat constructor|]. rewrite Set_Has_single by done.
    unfold pes_mem. simpl. by rewrite (pe_Equals_refl r m0).
Qed.

(** More members than a non-empty set: not empty. *)
Lemma Set_Empty_mono s s' :
  Set_wf r s = true -> Set_Empty s = false ->
  (forall p, Forall (pe_dom r) p -> Set_Has s p = true -> Set_Has s' p = true) ->
  Set_Empty s' = false.
Proof.
  intros Hwf HE Hsub. destruct (Set_nonempty_Has s Hwf HE) as (p & Dp & Hp).
  apply not_true_iff_false. intros HE'. apply (Set_Empty_Has s' p) in HE'.
  by rewrite Hsub in HE'.
Qed.
End SetGet.
