(* ===== verification/FieldSetOps.v ===== *)
(** * Package fieldpath: the set operations as operations on sets of paths

    Each operation of [Set] is characterised by its effect on [Set_Has], for
    well-formed operands, and is shown to preserve [Set_ok]. *)
From S2P Require Import Prelude GoLib GoFloat Value ValueOrder PathElement SortedSlice FieldSet.
From S2P Require Import FieldSetSpec.

(** ** Merging two node maps *)
Section NodeMerge.
Context (gL : PathElement -> FSet -> option FSet)
  (gBoth : PathElement -> FSet -> FSet -> option FSet) (gR : FSet -> option FSet) (r : Regime).

Definition node_merge : SetNodeMap -> SetNodeMap -> SetNodeMap :=
  merge_loop fst fst (fun a => pair a.1 <$> gL a.1 a.2)
    (fun a b => pair a.1 <$> gBoth a.1 a.2 b.2) (fun b => pair b.1 <$> gR b.2).

Lemma node_merge_keeps c c2 :
  keeps_keys fst fst fst (fun a => pair a.1 <$> gL a.1 a.2)
    (fun a b => pair a.1 <$> gBoth a.1 a.2 b.2) (fun b : PathElement * FSet => pair b.1 <$> gR b.2) c c2.
Proof.
  unfold keeps_keys. split_and!.
  - intros a x _ (y & _ & ->)%fmap_Some. done.
  - intros b x _ (y & _ & ->)%fmap_Some. done.
  - intros a b x _ _ (y & _ & ->)%fmap_Some. by left.
Qed.

Lemma node_merge_ok c c2 :
  slice_ok fst r c = true -> slice_ok fst r c2 = true -> slice_ok fst r (node_merge c c2) = true.
Proof. intros. apply (merge_loop_ok fst fst); auto using node_merge_keeps. Qed.

Lemma node_merge_find c c2 pe :
  pe_dom r pe -> slice_ok fst r c = true -> slice_ok fst r c2 = true ->
  snd <$> slice_find fst pe (node_merge c c2) =
  match slice_find fst pe c, slice_find fst pe c2 with
  | Some a, Some b => gBoth a.1 a.2 b.2
  | Some a, None => gL a.1 a.2
  | None, Some b => gR b.2
  | None, None => None
  end.
Proof.
  intros. unfold node_merge. rewrite (merge_loop_find fst fst fst _ _ _ r); auto using node_merge_keeps.
  destruct (slice_find fst pe c) as [a|], (slice_find fst pe c2) as [b|]; simpl; [| | |done];
    rewrite <-option_fmap_compose; apply option_fmap_id.
Qed.

Lemma node_merge_Forall (P : FSet -> Prop) c c2 :
  Forall (fun a => forall x, gL a.1 a.2 = Some x -> P x) c ->
  Forall (fun b => forall x, gR b.2 = Some x -> P x) c2 ->
  Forall (fun a => Forall (fun b => forall x, gBoth a.1 a.2 b.2 = Some x -> P x) c2) c ->
  Forall (fun n => P n.2) (node_merge c c2).
Proof.
  intros FL FR FB. apply merge_loop_Forall.
  - eapply Forall_impl; [exact FL|]. intros a Ha x (y & Ey & ->)%fmap_Some. simpl. auto.
  - eapply Forall_impl; [exact FR|]. intros a Ha x (y & Ey & ->)%fmap_Some. simpl. auto.
  - eapply Forall_impl; [exact FB|]. intros a Ha. eapply Forall_impl; [exact Ha|].
    intros b Hb x (y & Ey & ->)%fmap_Some. simpl. auto.
Qed.
End NodeMerge.

(** A computed sub-set, dropped when it has no element. *)
Definition nonempty (s : FSet) : option FSet := if negb (Set_Empty s) then Some s else None.

Lemma nonempty_Some s x : nonempty s = Some x -> x = s /\ Set_Empty s = false.
Proof. unfold nonempty. destruct (Set_Empty s); [done|]. by intros [= ->]. Qed.

(** Dropping an empty sub-set does not show in [Has]. *)
Definition opt_Has (o : option FSet) (p : Path) : bool :=
  match o with Some s => Set_Has s p | None => false end.

Lemma opt_Has_nonempty s p : opt_Has (nonempty s) p = Set_Has s p.
Proof.
  unfold nonempty. destruct (Set_Empty s) eqn:E; simpl; [|done].
  by rewrite Set_Empty_Has.
Qed.

(** ** The loops are merges *)
Lemma fmap_pair_Some (l : SetNodeMap) : omap (fun a => pair a.1 <$> Some a.2) l = l.
Proof.
  rewrite <-(omap_Some_id l) at 2. apply list_omap_ext, Forall_Forall2_diag, Forall_true.
  by intros [].
Qed.

Lemma SetNodeMap_Union_merge f c c2 :
  SetNodeMap_Union f c c2 = node_merge (fun _ => Some) (fun _ a b => Some (f a b)) Some c c2.
Proof.
  unfold node_merge. revert c2. induction c as [|[ka a] c IH]; intros c2.
  { rewrite merge_loop_nil_l, fmap_pair_Some. by destruct c2. }
  induction c2 as [|[kb b] c2 IH2]; [by rewrite merge_loop_nil_r, fmap_pair_Some|].
  rewrite merge_loop_cons. simpl. rewrite !IH.
  destruct (PathElement_Less ka kb); [done|].
  destruct (PathElement_Less kb ka); simpl; [|done]. f_equal. exact IH2.
Qed.

Lemma SetNodeMap_Intersection_merge f c c2 :
  SetNodeMap_Intersection f Set_Empty c c2 =
  node_merge (fun _ _ => None) (fun _ a b => nonempty (f a b)) (fun _ => None) c c2.
Proof.
  unfold node_merge, nonempty. revert c2. induction c as [|[ka a] c IH]; intros c2.
  { rewrite merge_loop_nil_l. simpl. rewrite omap_None_nil. by destruct c2. }
  induction c2 as [|[kb b] c2 IH2].
  { rewrite merge_loop_nil_r. simpl. by rewrite omap_None_nil. }
  rewrite merge_loop_cons. simpl. rewrite !IH.
  destruct (PathElement_Less ka kb); [done|].
  destruct (PathElement_Less kb ka); simpl; [exact IH2|].
  by destruct (Set_Empty (f a b)).
Qed.

Lemma SetNodeMap_Difference_merge f c c2 :
  SetNodeMap_Difference Set_Empty f c c2 =
  node_merge (fun _ => Some) (fun _ a b => nonempty (f a b)) (fun _ => None) c c2.
Proof.
  unfold node_merge, nonempty. revert c2. induction c as [|[ka a] c IH]; intros c2.
  { rewrite merge_loop_nil_l. simpl. rewrite omap_None_nil. by destruct c2. }
  induction c2 as [|[kb b] c2 IH2]; [by rewrite merge_loop_nil_r, fmap_pair_Some|].
  rewrite merge_loop_cons. simpl. rewrite !IH.
  destruct (PathElement_Less ka kb); [done|].
  destruct (PathElement_Less kb ka); simpl; [exact IH2|].
  by destruct (Set_Empty (f a b)).
Qed.

Lemma SetNodeMap_RecursiveDifference_merge f m c c2 :
  SetNodeMap_RecursiveDifference Set_Empty f m c c2 =
  node_merge (fun k a => if negb (PathElementSet_Has m k) then Some a else None)
    (fun k a b => if negb (PathElementSet_Has m k) then nonempty (f a b) else None)
    (fun _ => None) c c2.
Proof.
  unfold node_merge, nonempty. revert c2. induction c as [|[ka a] c IH]; intros c2.
  { rewrite merge_loop_nil_l. simpl. rewrite omap_None_nil. by destruct c2. }
  induction c2 as [|[kb b] c2 IH2].
  { rewrite merge_loop_nil_r. simpl. rewrite IH, merge_loop_nil_r. by destruct (PathElementSet_Has m ka). }
  rewrite merge_loop_cons. simpl.
  destruct (PathElement_Less ka kb); [rewrite IH; by destruct (PathElementSet_Has m ka)|].
  destruct (PathElement_Less kb ka); simpl; [exact IH2|]. rewrite IH.
  by destruct (PathElementSet_Has m ka), (Set_Empty (f a b)).
Qed.

Lemma Set_Union_mk m c m2 c2 :
  Set_Union (mkSet m c) (mkSet m2 c2) =
  mkSet (PathElementSet_Union m m2)
    (node_merge (fun _ => Some) (fun _ a b => Some (Set_Union a b)) Some c c2).
Proof. rewrite <-SetNodeMap_Union_merge. done. Qed.

Lemma Set_Intersection_mk m c m2 c2 :
  Set_Intersection (mkSet m c) (mkSet m2 c2) =
  mkSet (PathElementSet_Intersection m m2)
    (node_merge (fun _ _ => None) (fun _ a b => nonempty (Set_Intersection a b)) (fun _ => None) c c2).
Proof. rewrite <-SetNodeMap_Intersection_merge. done. Qed.

Lemma Set_Difference_mk m c m2 c2 :
  Set_Difference (mkSet m c) (mkSet m2 c2) =
  mkSet (PathElementSet_Difference m m2)
    (node_merge (fun _ => Some) (fun _ a b => nonempty (Set_Difference a b)) (fun _ => None) c c2).
Proof. rewrite <-SetNodeMap_Difference_merge. done. Qed.

Lemma Set_RecursiveDifference_mk m c m2 c2 :
  Set_RecursiveDifference (mkSet m c) (mkSet m2 c2) =
  mkSet (PathElementSet_Difference m m2)
    (node_merge (fun k a => if negb (PathElementSet_Has m2 k) then Some a else None)
      (fun k a b => if negb (PathElementSet_Has m2 k) then nonempty (Set_RecursiveDifference a b) else None)
      (fun _ => None) c c2).
Proof. rewrite <-SetNodeMap_RecursiveDifference_merge. done. Qed.

(** ** Union, intersection, difference *)
Section Binary.
Context (r : Regime).
Implicit Types (s : FSet) (c : SetNodeMap) (pe : PathElement) (p : Path).

Lemma Set_Has_opt s pe q p :
  Set_wf r s = true -> pe_dom r pe -> Set_Has s (pe :: q :: p) = opt_Has (child pe s) (q :: p).
Proof. intros. by rewrite (Set_Has_cons r). Qed.

Lemma opt_Has_find c pe p :
  opt_Has (snd <$> slice_find fst pe c) p =
  match slice_find fst pe c with Some n => Set_Has n.2 p | None => false end.
Proof. by destruct (slice_find fst pe c). Qed.

Lemma Set_Union_wf s s2 :
  Set_wf r s = true -> Set_wf r s2 = true -> Set_wf r (Set_Union s s2) = true.
Proof.
  revert s2. induction s as [m c IH] using FSet_nested_ind. intros [m2 c2].
  rewrite !Set_wf_mk. intros (Hm & Hc & Fc) (Hm2 & Hc2 & Fc2). rewrite Set_Union_mk, Set_wf_mk.
  split_and!; [by apply PathElementSet_Union_ok| |].
  - by apply node_merge_ok.
  - apply (node_merge_Forall _ _ _ (fun s => Set_wf r s = true)).
    + eapply Forall_impl; [exact Fc|]. by intros n Hn x [= <-].
    + eapply Forall_impl; [exact Fc2|]. by intros n Hn x [= <-].
    + rewrite Forall_forall in IH. rewrite Forall_forall in Fc. rewrite Forall_forall in Fc2.
      apply Forall_forall. intros a Ha. apply Forall_forall. intros b Hb x [= <-]. auto.
Qed.

Lemma Set_Has_Union s s2 p :
  Forall (pe_dom r) p -> Set_wf r s = true -> Set_wf r s2 = true ->
  Set_Has (Set_Union s s2) p = Set_Has s p || Set_Has s2 p.
Proof.
  intros Hp. revert s s2.
  induction Hp as [|pe p Hpe Hp IH]; intros [m c] [m2 c2] Hs Hs2; [done|].
  pose proof (Set_Union_wf _ _ Hs Hs2) as HU.
  pose proof Hs as (Hm & Hc & Fc)%Set_wf_mk. pose proof Hs2 as (Hm2 & Hc2 & Fc2)%Set_wf_mk.
  destruct p as [|q p].
  { rewrite !(Set_Has_single r) by done. rewrite Set_Union_mk. by apply (pes_mem_Union r). }
  rewrite !Set_Has_opt by done. unfold child. rewrite Set_Union_mk.
  cbn [Children]. rewrite (node_merge_find _ _ _ r) by done.
  pose proof (child_wf r (mkSet m c) pe) as W. pose proof (child_wf r (mkSet m2 c2) pe) as W2.
  unfold child in W, W2. simpl in W, W2.
  destruct (slice_find fst pe c) as [a|], (slice_find fst pe c2) as [b|]; simpl;
    rewrite ?orb_false_r; [|done..]. apply IH; [by apply W|by apply W2].
Qed.

Lemma Set_Intersection_wf s s2 :
  Set_wf r s = true -> Set_wf r s2 = true -> Set_wf r (Set_Intersection s s2) = true.
Proof.
  revert s2. induction s as [m c IH] using FSet_nested_ind. intros [m2 c2].
  rewrite !Set_wf_mk. intros (Hm & Hc & Fc) (Hm2 & Hc2 & Fc2). rewrite Set_Intersection_mk, Set_wf_mk.
  split_and!; [by apply PathElementSet_Intersection_ok| |].
  - by apply node_merge_ok.
  - apply (node_merge_Forall _ _ _ (fun s => Set_wf r s = true)); [by apply Forall_true..|].
    rewrite Forall_forall in IH. rewrite Forall_forall in Fc. rewrite Forall_forall in Fc2.
    apply Forall_forall. intros a Ha. apply Forall_forall. intros b Hb x [-> _]%nonempty_Some. auto.
Qed.

Lemma Set_Has_Intersection s s2 p :
  Forall (pe_dom r) p -> Set_wf r s = true -> Set_wf r s2 = true ->
  Set_Has (Set_Intersection s s2) p = Set_Has s p && Set_Has s2 p.
Proof.
  intros Hp. revert s s2.
  induction Hp as [|pe p Hpe Hp IH]; intros [m c] [m2 c2] Hs Hs2; [done|].
  pose proof (Set_Intersection_wf _ _ Hs Hs2) as HU.
  pose proof Hs as (Hm & Hc & Fc)%Set_wf_mk. pose proof Hs2 as (Hm2 & Hc2 & Fc2)%Set_wf_mk.
  destruct p as [|q p].
  { rewrite !(Set_Has_single r) by done. rewrite Set_Intersection_mk. by apply (pes_mem_Intersection r). }
  rewrite !Set_Has_opt by done. unfold child. rewrite Set_Intersection_mk.
  cbn [Children]. rewrite (node_merge_find _ _ _ r) by done.
  pose proof (child_wf r (mkSet m c) pe) as W. pose proof (child_wf r (mkSet m2 c2) pe) as W2.
  unfold child in W, W2. simpl in W, W2.
  destruct (slice_find fst pe c) as [a|], (slice_find fst pe c2) as [b|]; simpl;
    rewrite ?andb_false_r; [|done..]. rewrite opt_Has_nonempty. apply IH; [by apply W|by apply W2].
Qed.

Lemma Set_Difference_wf s s2 :
  Set_wf r s = true -> Set_wf r s2 = true -> Set_wf r (Set_Difference s s2) = true.
Proof.
  revert s2. induction s as [m c IH] using FSet_nested_ind. intros [m2 c2].
  rewrite !Set_wf_mk. intros (Hm & Hc & Fc) (Hm2 & Hc2 & Fc2). rewrite Set_Difference_mk, Set_wf_mk.
  split_and!; [by apply PathElementSet_Difference_ok| |].
  - by apply node_merge_ok.
  - apply (node_merge_Forall _ _ _ (fun s => Set_wf r s = true)); [|by apply Forall_true|].
    + eapply Forall_impl; [exact Fc|]. by intros n Hn x [= <-].
    + rewrite Forall_forall in IH. rewrite Forall_forall in Fc. rewrite Forall_forall in Fc2.
      apply Forall_forall. intros a Ha. apply Forall_forall. intros b Hb x [-> _]%nonempty_Some. auto.
Qed.

Lemma Set_Has_Difference s s2 p :
  Forall (pe_dom r) p -> Set_wf r s = true -> Set_wf r s2 = true ->
  Set_Has (Set_Difference s s2) p = Set_Has s p && negb (Set_Has s2 p).
Proof.
  intros Hp. revert s s2.
  induction Hp as [|pe p Hpe Hp IH]; intros [m c] [m2 c2] Hs Hs2; [done|].
  pose proof (Set_Difference_wf _ _ Hs Hs2) as HU.
  pose proof Hs as (Hm & Hc & Fc)%Set_wf_mk. pose proof Hs2 as (Hm2 & Hc2 & Fc2)%Set_wf_mk.
  destruct p as [|q p].
  { rewrite !(Set_Has_single r) by done. rewrite Set_Difference_mk. by apply (pes_mem_Difference r). }
  rewrite !Set_Has_opt by done. unfold child. rewrite Set_Difference_mk.
  cbn [Children]. rewrite (node_merge_find _ _ _ r) by done.
  pose proof (child_wf r (mkSet m c) pe) as W. pose proof (child_wf r (mkSet m2 c2) pe) as W2.
  unfold child in W, W2. simpl in W, W2.
  destruct (slice_find fst pe c) as [a|], (slice_find fst pe c2) as [b|]; simpl;
    rewrite ?andb_true_r; [|done..]. rewrite opt_Has_nonempty. apply IH; [by apply W|by apply W2].
Qed.
End Binary.

(** ** Recursive difference *)

(** The non-empty prefixes of a path: the fields it lies under, and itself. *)
Fixpoint path_prefixes (p : Path) : list Path :=
  match p with
  | [] => []
  | pe :: p' => [pe] :: (cons pe <$> path_prefixes p')
  end.

(** The path or one of the fields above it is in the set. *)
Definition covered (s : FSet) (p : Path) : bool := existsb (Set_Has s) (path_prefixes p).

Lemma existsb_fmap {A B} (f : A -> B) (g : B -> bool) l : existsb g (f <$> l) = existsb (g ∘ f) l.
Proof. induction l as [|a l IH]; [done|]. rewrite fmap_cons. cbn [existsb]. by rewrite IH. Qed.

Lemma existsb_ext_in {A} (f g : A -> bool) l :
  (forall a, a ∈ l -> f a = g a) -> existsb f l = existsb g l.
Proof.
  induction l as [|a l IH]; intros H; simpl; [done|].
  rewrite (H a) by left. rewrite IH; [done|]. intros. apply H. by right.
Qed.

Lemma existsb_const {A} (l : list A) : existsb (fun _ => false) l = false.
Proof. by induction l. Qed.

Lemma path_prefixes_nonnil p q : q ∈ path_prefixes p -> q <> [].
Proof.
  destruct p as [|pe p]; simpl; [by intros ?%not_elem_of_nil|].
  intros [->|(x & -> & _)%list_elem_of_fmap]%elem_of_cons; done.
Qed.

Lemma path_prefixes_self p : p <> [] -> p ∈ path_prefixes p.
Proof.
  induction p as [|pe [|q p] IH]; intros Hne; [done|by left|]. right. by apply list_elem_of_fmap_2, IH.
Qed.

Lemma path_prefixes_split p q : q ∈ path_prefixes p -> exists q', p = q ++ q'.
Proof.
  revert q. induction p as [|pe p IH]; intros q Hq; [by apply not_elem_of_nil in Hq|].
  apply elem_of_cons in Hq as [->|(x & -> & Hx)%list_elem_of_fmap]; [by exists p|].
  destruct (IH x Hx) as [q' ->]. by exists q'.
Qed.

(** No field above the path is in the set. *)
Definition not_below (s : FSet) (p : Path) : Prop := forall p' q, p = p' ++ q -> q <> [] -> Set_Has s p' = false.

Lemma covered_not_below s p : not_below s p -> covered s p = Set_Has s p.
Proof.
  intros H. destruct (Set_Has s p) eqn:E.
  - apply existsb_exists. exists p. split; [|done]. apply list_elem_of_In, path_prefixes_self. by intros ->; destruct s.
  - apply not_true_iff_false. intros (p' & Hp%list_elem_of_In & Hp')%existsb_exists.
    destruct (path_prefixes_split p p' Hp) as [[|x q] Ep]; [rewrite app_nil_r in Ep; congruence|].
    by rewrite (H p' _ Ep) in Hp'.
Qed.

Section RecDiff.
Context (r : Regime).
Implicit Types (s : FSet) (p : Path).

Lemma covered_cons s pe p :
  Set_wf r s = true -> pe_dom r pe ->
  covered s (pe :: p) =
  pes_mem pe (Members s) || match child pe s with Some s' => covered s' p | None => false end.
Proof.
  intros Hs Hpe. unfold covered at 1. cbn [path_prefixes existsb].
  rewrite (Set_Has_single r), existsb_fmap by done. f_equal.
  rewrite (existsb_ext_in _ (fun p => match child pe s with Some s' => Set_Has s' p | None => false end)).
  - destruct (child pe s); [done|]. apply existsb_const.
  - intros q Hq%path_prefixes_nonnil. destruct q; [done|]. simpl. by apply (Set_Has_cons r).
Qed.

Lemma Set_RecursiveDifference_wf s s2 :
  Set_wf r s = true -> Set_wf r s2 = true -> Set_wf r (Set_RecursiveDifference s s2) = true.
Proof.
  revert s2. induction s as [m c IH] using FSet_nested_ind. intros [m2 c2].
  rewrite !Set_wf_mk. intros (Hm & Hc & Fc) (Hm2 & Hc2 & Fc2).
  rewrite Set_RecursiveDifference_mk, Set_wf_mk.
  split_and!; [by apply PathElementSet_Difference_ok| |].
  - by apply node_merge_ok.
  - apply (node_merge_Forall _ _ _ (fun s => Set_wf r s = true)); [|by apply Forall_true|].
    + eapply Forall_impl; [exact Fc|]. intros n Hn x. destruct (negb _); [|done]. by intros [= <-].
    + rewrite Forall_forall in IH. rewrite Forall_forall in Fc. rewrite Forall_forall in Fc2.
      apply Forall_forall. intros a Ha. apply Forall_forall. intros b Hb x.
      destruct (negb _); [|done]. intros [-> _]%nonempty_Some. auto.
Qed.

Lemma Set_Has_RecursiveDifference s s2 p :
  Forall (pe_dom r) p -> Set_wf r s = true -> Set_wf r s2 = true ->
  Set_Has (Set_RecursiveDifference s s2) p = Set_Has s p && negb (covered s2 p).
Proof.
  intros Hp. revert s s2.
  induction Hp as [|pe p Hpe Hp IH]; intros [m c] [m2 c2] Hs Hs2; [done|].
  pose proof (Set_RecursiveDifference_wf _ _ Hs Hs2) as HU.
  pose proof Hs as (Hm & Hc & Fc)%Set_wf_mk. pose proof Hs2 as (Hm2 & Hc2 & Fc2)%Set_wf_mk.
  rewrite covered_cons by done. destruct p as [|q p].
  { rewrite !(Set_Has_single r) by done. rewrite Set_RecursiveDifference_mk.
    cbn [Members]. rewrite (pes_mem_Difference r) by done.
    unfold covered. simpl. by destruct (child pe _); rewrite orb_false_r. }
  rewrite !(Set_Has_opt r) by done. unfold child. rewrite Set_RecursiveDifference_mk.
  cbn [Children Members]. rewrite (node_merge_find _ _ _ r) by done.
  pose proof (child_wf r (mkSet m c) pe) as W. pose proof (child_wf r (mkSet m2 c2) pe) as W2.
  unfold child in W, W2. simpl in W, W2.
  destruct (slice_find fst pe c) as [a|] eqn:Ea; [|by destruct (slice_find fst pe c2)].
  apply slice_find_Some in Ea as [Hin Ea].
  pose proof (slice_ok_dom _ _ _ Hc) as Dc. rewrite Forall_forall in Dc.
  rewrite (PathElementSet_Has_mem r), (pes_mem_Equals r m2 a.1 pe) by auto.
  destruct (slice_find fst pe c2) as [b|]; destruct (pes_mem pe m2); simpl;
    rewrite ?andb_false_r, ?andb_true_r; [done| |done|done].
  rewrite opt_Has_nonempty. apply IH; [by apply W|by apply W2].
Qed.
End RecDiff.

(** ** No empty nodes *)
Section Full.
Context (r : Regime).

Definition node_full (s : FSet) : Prop := Set_Empty s = false /\ Set_full s = true.

Lemma Set_ok_mk m c :
  Set_ok r (mkSet m c) = true <->
  pes_ok r m = true /\ slice_ok fst r c = true /\
  Forall (fun n => Set_Empty n.2 = false /\ Set_ok r n.2 = true) c.
Proof.
  rewrite Set_ok_iff, Set_wf_mk, Set_full_mk. setoid_rewrite Set_ok_iff.
  rewrite !Forall_and. tauto.
Qed.

Lemma Set_ok_node_full m c : Set_ok r (mkSet m c) = true -> Forall (fun n => node_full n.2) c.
Proof. intros [_ H]%Set_ok_iff. by apply Set_full_mk in H. Qed.

Lemma Set_ok_nodes m c :
  Set_ok r (mkSet m c) = true -> Forall (fun n => Set_ok r n.2 = true) c.
Proof. intros (_ & _ & F)%Set_ok_mk. eapply Forall_impl; [exact F|]. by intros ? []. Qed.

Lemma Set_Union_ok s s2 :
  Set_ok r s = true -> Set_ok r s2 = true -> Set_ok r (Set_Union s s2) = true.
Proof.
  revert s2. induction s as [m c IH] using FSet_nested_ind. intros [m2 c2] Hs Hs2.
  apply Set_ok_iff. split.
  { apply Set_ok_iff in Hs as [], Hs2 as []. by apply Set_Union_wf. }
  rewrite Set_Union_mk. apply Set_full_mk, (node_merge_Forall _ _ _ node_full).
  - eapply Forall_impl; [by eapply Set_ok_node_full|]. by intros n Hn x [= <-].
  - eapply Forall_impl; [by eapply Set_ok_node_full|]. by intros n Hn x [= <-].
  - pose proof (Set_ok_node_full _ _ Hs) as F. apply Set_ok_nodes in Hs, Hs2.
    rewrite Forall_forall in IH. rewrite Forall_forall in Hs. rewrite Forall_forall in Hs2.
    rewrite Forall_forall in F.
    apply Forall_forall. intros a Ha. apply Forall_forall. intros b Hb x [= <-].
    pose proof (IH a Ha b.2 (Hs a Ha) (Hs2 b Hb)) as [_ HU]%Set_ok_iff. split; [|done].
    specialize (Hs a Ha). specialize (Hs2 b Hb). apply Set_ok_iff in Hs as [], Hs2 as [].
    apply (Set_Empty_mono r a.2); [done|by apply F|].
    intros p Hp Hh. by rewrite (Set_Has_Union r), Hh.
Qed.

(** An operation that drops empty results keeps the trie full. *)
Lemma node_merge_full (gL : PathElement -> FSet -> option FSet) (f : FSet -> FSet -> FSet)
    (keep : PathElement -> bool) m c m2 c2 :
  (forall k a x, gL k a = Some x -> x = a) ->
  Forall (fun n => forall s2, Set_ok r n.2 = true -> Set_ok r s2 = true -> Set_ok r (f n.2 s2) = true) c ->
  Set_ok r (mkSet m c) = true -> Set_ok r (mkSet m2 c2) = true ->
  Forall (fun n => node_full n.2)
    (node_merge gL (fun k a b => if keep k then nonempty (f a b) else None) (fun _ => None) c c2).
Proof.
  intros HgL IH Hs Hs2. apply (node_merge_Forall _ _ _ node_full); [|by apply Forall_true|].
  - eapply Forall_impl; [by eapply Set_ok_node_full|]. by intros n Hn x ->%HgL.
  - apply Set_ok_nodes in Hs, Hs2.
    rewrite Forall_forall in IH. rewrite Forall_forall in Hs. rewrite Forall_forall in Hs2.
    apply Forall_forall. intros a Ha. apply Forall_forall. intros b Hb x.
    destruct (keep a.1); [|done]. intros [-> HE]%nonempty_Some. split; [done|].
    by pose proof (IH a Ha b.2 (Hs a Ha) (Hs2 b Hb)) as [_ HU]%Set_ok_iff.
Qed.

Lemma Set_Intersection_ok s s2 :
  Set_ok r s = true -> Set_ok r s2 = true -> Set_ok r (Set_Intersection s s2) = true.
Proof.
  revert s2. induction s as [m c IH] using FSet_nested_ind. intros [m2 c2] Hs Hs2.
  apply Set_ok_iff. split.
  { apply Set_ok_iff in Hs as [], Hs2 as []. by apply Set_Intersection_wf. }
  rewrite Set_Intersection_mk. apply Set_full_mk.
  by apply (node_merge_full (fun _ _ => None) Set_Intersection (fun _ => true) m c m2 c2).
Qed.

Lemma Set_Difference_ok s s2 :
  Set_ok r s = true -> Set_ok r s2 = true -> Set_ok r (Set_Difference s s2) = true.
Proof.
  revert s2. induction s as [m c IH] using FSet_nested_ind. intros [m2 c2] Hs Hs2.
  apply Set_ok_iff. split.
  { apply Set_ok_iff in Hs as [], Hs2 as []. by apply Set_Difference_wf. }
  rewrite Set_Difference_mk. apply Set_full_mk.
  apply (node_merge_full (fun _ => Some) Set_Difference (fun _ => true) m c m2 c2); auto.
  by intros ??? [= ->].
Qed.

Lemma Set_RecursiveDifference_ok s s2 :
  Set_ok r s = true -> Set_ok r s2 = true -> Set_ok r (Set_RecursiveDifference s s2) = true.
Proof.
  revert s2. induction s as [m c IH] using FSet_nested_ind. intros [m2 c2] Hs Hs2.
  apply Set_ok_iff. split.
  { apply Set_ok_iff in Hs as [], Hs2 as []. by apply Set_RecursiveDifference_wf. }
  rewrite Set_RecursiveDifference_mk. apply Set_full_mk.
  apply (node_merge_full _ Set_RecursiveDifference (fun k => negb (PathElementSet_Has m2 k)) m c m2 c2); auto.
  intros k a x. destruct (negb _); [|done]. by intros [= ->].
Qed.
End Full.
