(* ===== verification/FieldSetInsert.v ===== *)
(** * Package fieldpath: building, comparing and enumerating sets

    [Insert], [NewSet], [WithPrefix], [Equals], [Iterate], [Size] and [Leaves]
    of [Set], by their effect on [Set_Has]. *)
From S2P Require Import Prelude GoLib GoFloat Value ValueOrder PathElement SortedSlice FieldSet.
From S2P Require Import FieldSetSpec FieldSetOps.

Lemma Path_Equals_cons a p b q :
  Path_Equals (a :: p) (b :: q) = PathElement_Equals a b && Path_Equals p q.
Proof.
  unfold Path_Equals. simpl. destruct (length p =? length q)%nat; simpl.
  - by destruct (PathElement_Equals a b).
  - by rewrite andb_false_r.
Qed.

Lemma Path_Equals_nil_l q : Path_Equals [] q = match q with [] => true | _ => false end.
Proof. by destruct q. Qed.
Lemma Path_Equals_nil_r p : Path_Equals p [] = match p with [] => true | _ => false end.
Proof. by destruct p. Qed.

Lemma Path_Equals_refl r p : Forall (pe_dom r) p -> Path_Equals p p = true.
Proof.
  induction 1 as [|a p Ha Hp IH]; [done|].
  by rewrite Path_Equals_cons, (pe_Equals_refl r), IH.
Qed.

(** ** Insert *)
Section Insert.
Context (r : Regime).
Implicit Types (s : FSet) (c : SetNodeMap) (pe : PathElement) (p : Path).

(** The slice after [Descend] and an update of the node it returns. *)
Definition descend_alter (c : SetNodeMap) (pe : PathElement) (f : FSet -> FSet) : SetNodeMap :=
  let '(c', loc) := SetNodeMap_Descend c pe in alter (fun n => (n.1, f n.2)) loc c'.

Lemma alter_middle {A} (f : A -> A) (l1 l2 : list A) x n :
  n = length l1 -> alter f n (l1 ++ x :: l2) = l1 ++ f x :: l2.
Proof. intros ->. by rewrite alter_app_r_alt, Nat.sub_diag. Qed.

Lemma search_pe_le c pe :
  pe_dom r pe -> slice_ok fst r c = true -> (search_pe fst c pe <= length c)%nat.
Proof.
  intros Hpe Hok. destruct (search_pe_split fst r c pe Hpe Hok) as (l1 & l2 & -> & -> & _).
  rewrite length_app. lia.
Qed.

(** Where there is no node, an empty one is put at its place. *)
Lemma SetNodeMap_Descend_absent c pe :
  pe_dom r pe -> slice_ok fst r c = true -> slice_find fst pe c = None ->
  SetNodeMap_Descend c pe =
    (slice_insert_at (search_pe fst c pe) (pe, emptySet) c, search_pe fst c pe).
Proof.
  intros Hpe Hok Ef. pose proof (slice_get_find fst r c pe Hpe Hok) as G.
  rewrite Ef in G. unfold slice_get in G. unfold SetNodeMap_Descend.
  destruct (Nat.eqb_spec (search_pe fst c pe) (length c)) as [E|N].
  - unfold slice_insert_at. by rewrite E, firstn_all, drop_all.
  - destruct (c !! search_pe fst c pe) as [x|] eqn:Ex.
    + by destruct (PathElement_Equals x.1 pe).
    + apply lookup_ge_None in Ex. pose proof (search_pe_le c pe Hpe Hok). lia.
Qed.

Lemma SetNodeMap_Descend_present c pe n :
  pe_dom r pe -> slice_ok fst r c = true -> slice_find fst pe c = Some n ->
  SetNodeMap_Descend c pe = (c, search_pe fst c pe) /\ c !! search_pe fst c pe = Some n.
Proof.
  intros Hpe Hok Ef. pose proof (slice_get_find fst r c pe Hpe Hok) as G.
  rewrite Ef in G. unfold slice_get in G. unfold SetNodeMap_Descend.
  destruct (_ =? _)%nat; [done|]. destruct (c !! search_pe fst c pe) as [x|]; [|done].
  destruct (PathElement_Equals x.1 pe); [|done]. by injection G as ->.
Qed.

(** [Descend] finds the node of [pe] or makes it. *)
Lemma descend_alter_split c pe f :
  pe_dom r pe -> slice_ok fst r c = true ->
  exists l1 l2 k sub,
    descend_alter c pe f = l1 ++ (k, f sub) :: l2 /\
    slice_ok fst r (l1 ++ (k, sub) :: l2) = true /\ PathElement_Equals k pe = true /\
    sub = default emptySet (snd <$> slice_find fst pe c) /\
    (c = (l1 ++ (k, sub) :: l2) \/ c = (l1 ++ l2)).
Proof.
  intros Hpe Hok. unfold descend_alter.
  pose proof (search_pe_le c pe Hpe Hok) as Hle.
  destruct (slice_find fst pe c) as [n|] eqn:Ef.
  - destruct (SetNodeMap_Descend_present c pe n Hpe Hok Ef) as [-> Ex].
    pose proof (take_drop_middle _ _ _ Ex) as Ec.
    exists (take (search_pe fst c pe) c), (drop (S (search_pe fst c pe)) c), n.1, n.2.
    assert (Hn : (n.1, n.2) = n) by by destruct n. rewrite Hn, Ec.
    split_and!; auto; [|by apply slice_find_Some in Ef as []].
    rewrite <-Ec at 2. by rewrite alter_middle by by rewrite length_take_le.
  - rewrite SetNodeMap_Descend_absent by done.
    pose proof (slice_insert_ok fst r (pe, emptySet) c Hpe Hok Ef) as Hok'.
    simpl in Hok'. unfold slice_insert_at in *.
    exists (take (search_pe fst c pe) c), (drop (search_pe fst c pe) c), pe, emptySet.
    split_and!; auto; [|by apply (pe_Equals_refl r)|right; by rewrite take_drop].
    by rewrite alter_middle by by rewrite length_take_le.
Qed.

Lemma descend_alter_ok c pe f :
  pe_dom r pe -> slice_ok fst r c = true -> slice_ok fst r (descend_alter c pe f) = true.
Proof.
  intros Hpe Hok.
  destruct (descend_alter_split c pe f Hpe Hok) as (l1 & l2 & k & sub & -> & Hok' & _).
  eapply slice_ok_keys; [|exact Hok']. by rewrite !fmap_app, !fmap_cons.
Qed.

Lemma descend_alter_find c pe f pe' :
  pe_dom r pe -> pe_dom r pe' -> slice_ok fst r c = true ->
  snd <$> slice_find fst pe' (descend_alter c pe f) =
    if PathElement_Equals pe pe' then Some (f (default emptySet (snd <$> slice_find fst pe c)))
    else snd <$> slice_find fst pe' c.
Proof.
  intros Hpe Hpe' Hok. pose proof (descend_alter_ok c pe f Hpe Hok) as Hok2.
  destruct (descend_alter_split c pe f Hpe Hok) as (l1 & l2 & k & sub & E & Hok' & Ek & <- & Hc).
  rewrite E in *. rewrite (slice_find_mid fst r) by done. cbn [fst].
  pose proof (slice_ok_dom _ _ _ Hok') as D. apply Forall_app in D as [_ [Dk _]%Forall_cons].
  rewrite (pe_Equals_trans_l r k pe pe') by done.
  destruct (PathElement_Equals pe pe') eqn:Epe; [done|].
  destruct Hc as [-> | ->]; [|done].
  rewrite (slice_find_skip fst); [done|]. cbn [fst].
  by rewrite (pe_Equals_trans_l r k pe pe').
Qed.

Lemma descend_alter_Forall (Q : FSet -> Prop) c pe f :
  pe_dom r pe -> slice_ok fst r c = true -> Forall (fun n => Q n.2) c ->
  Q (f (default emptySet (snd <$> slice_find fst pe c))) ->
  Forall (fun n => Q n.2) (descend_alter c pe f).
Proof.
  intros Hpe Hok F HQ.
  destruct (descend_alter_split c pe f Hpe Hok) as (l1 & l2 & k & sub & -> & _ & _ & Es & Hc).
  rewrite <-Es in HQ. clear Es. destruct Hc as [-> | ->]; apply Forall_app in F as [F1 F2]; apply Forall_app; split; auto.
  apply Forall_cons in F2 as []. by constructor.
Qed.

Lemma Set_Insert_cons s pe q p :
  Set_Insert s (pe :: q :: p) =
  mkSet (Members s) (descend_alter (Children s) pe (fun s' => Set_Insert s' (q :: p))).
Proof.
  cbn [Set_Insert]. unfold descend_alter. by destruct (SetNodeMap_Descend (Children s) pe).
Qed.

Lemma default_child_wf pe s :
  Set_wf r s = true -> Set_wf r (default emptySet (child pe s)) = true.
Proof. intros H. destruct (child pe s) eqn:E; [by eapply child_wf|done]. Qed.

Lemma Set_Insert_wf s p :
  Forall (pe_dom r) p -> Set_wf r s = true -> Set_wf r (Set_Insert s p) = true.
Proof.
  intros Hp. revert s. induction Hp as [|pe p Hpe Hp IH]; intros s Hs; [done|].
  pose proof (default_child_wf pe s Hs) as Hd.
  destruct s as [m c]. pose proof Hs as (Hm & Hc & Fc)%Set_wf_mk.
  destruct p as [|q p]; [|rewrite Set_Insert_cons]; apply Set_wf_mk.
  { split_and!; auto. by apply PathElementSet_Insert_ok. }
  split_and!; auto; [by apply descend_alter_ok|].
  apply (descend_alter_Forall (fun s => Set_wf r s = true)); auto.
Qed.

Lemma Set_Has_Insert s p p' :
  Forall (pe_dom r) p -> Forall (pe_dom r) p' -> Set_wf r s = true -> p' <> [] ->
  Set_Has (Set_Insert s p) p' = Path_Equals p p' || Set_Has s p'.
Proof.
  intros Hp. revert s p'. induction Hp as [|pe p Hpe Hp IH]; intros s p' Hp' Hs Hne.
  { by destruct p'. }
  destruct p' as [|pe' p']; [done|]. apply Forall_cons in Hp' as [Hpe' Hp'].
  pose proof (Set_Insert_wf s (pe :: p) ltac:(by constructor) Hs) as HI.
  pose proof (default_child_wf pe s Hs) as Hd.
  pose proof (child_wf r s) as W.
  destruct s as [m c]. pose proof Hs as (Hm & Hc & Fc)%Set_wf_mk.
  rewrite Path_Equals_cons. destruct p as [|q p], p' as [|q' p'].
  - rewrite !(Set_Has_single r) by done. rewrite andb_true_r. by apply (pes_mem_Insert r).
  - rewrite Path_Equals_nil_l, andb_false_r, !(Set_Has_cons r) by done. done.
  - rewrite Path_Equals_nil_r, andb_false_r, !(Set_Has_single r) by done. by rewrite Set_Insert_cons.
  - rewrite !(Set_Has_cons r), Set_Insert_cons by done. unfold child in *. cbn [Children] in *.
    rewrite descend_alter_find by done.
    destruct (PathElement_Equals pe pe') eqn:E; [|done]. rewrite andb_true_l. cbv iota beta.
    rewrite IH by done. f_equal.
    rewrite <-(slice_find_Equals fst r pe pe' c) by (try done; by apply slice_ok_dom).
    destruct (slice_find fst pe c); [done|]. by apply Set_Empty_Has.
Qed.

Lemma Set_Insert_nonempty s p :
  p <> [] -> Forall (pe_dom r) p -> Set_wf r s = true -> Set_Empty (Set_Insert s p) = false.
Proof.
  intros Hne Hp Hs. apply not_true_iff_false. intros HE. apply (Set_Empty_Has _ p) in HE.
  by rewrite Set_Has_Insert, (Path_Equals_refl r) in HE.
Qed.

Lemma default_child_ok pe s :
  Set_ok r s = true -> Set_ok r (default emptySet (child pe s)) = true.
Proof.
  destruct s as [m c]. intros F%Set_ok_nodes. unfold child. simpl.
  destruct (slice_find fst pe c) as [n|] eqn:E; [|done]. simpl.
  apply slice_find_Some in E as [Hin _]. rewrite Forall_forall in F. auto.
Qed.

Lemma Set_Insert_ok s p :
  Forall (pe_dom r) p -> Set_ok r s = true -> Set_ok r (Set_Insert s p) = true.
Proof.
  intros Hp. revert s. induction Hp as [|pe p Hpe Hp IH]; intros s Hs; [done|].
  pose proof (default_child_ok pe s Hs) as Hd. pose proof (proj1 (Set_ok_iff _ _) Hd) as [Hdw _].
  pose proof Hs as [Hw _]%Set_ok_iff.
  pose proof (Set_Insert_wf s (pe :: p) ltac:(by constructor) Hw) as HI.
  destruct s as [m c]. pose proof Hs as (Hm & Hc & Fc)%Set_ok_mk.
  destruct p as [|q p]; [|rewrite Set_Insert_cons]; apply Set_ok_mk.
  { split_and!; auto. by apply PathElementSet_Insert_ok. }
  split_and!; auto; [by apply descend_alter_ok|].
  apply (descend_alter_Forall (fun s => Set_Empty s = false /\ Set_ok r s = true)); auto.
  split; [by apply Set_Insert_nonempty|]. by apply IH.
Qed.

(** ** NewSet *)
Lemma NewSet_ok ps : Forall (Forall (pe_dom r)) ps -> Set_ok r (NewSet ps) = true.
Proof.
  unfold NewSet. assert (H : Set_ok r emptySet = true) by done. revert H.
  generalize emptySet as s. induction ps as [|p ps IH]; intros s Hs F; [done|].
  apply Forall_cons in F as [Hp F]. simpl. apply IH; [|done]. by apply Set_Insert_ok.
Qed.

Lemma Set_Has_NewSet ps p :
  Forall (Forall (pe_dom r)) ps -> Forall (pe_dom r) p -> p <> [] ->
  Set_Has (NewSet ps) p = existsb (fun p' => Path_Equals p' p) ps.
Proof.
  intros F Hp Hne. unfold NewSet.
  assert (H : forall s, Set_wf r s = true ->
    Set_Has (foldl Set_Insert s ps) p = existsb (fun p' => Path_Equals p' p) ps || Set_Has s p).
  { induction F as [|q ps Hq F IH]; intros s Hs; [done|]. simpl.
    rewrite IH by by apply Set_Insert_wf. rewrite Set_Has_Insert by done.
    by destruct (Path_Equals q p), (existsb _ ps), (Set_Has s p). }
  rewrite H by done. simpl. replace (Set_Has emptySet p) with false; [by rewrite orb_false_r|].
  symmetry. by apply Set_Empty_Has.
Qed.
End Insert.
