(* ===== verification/FieldSetIter.v ===== *)
(** * Package fieldpath: equality, enumeration and leaves of sets *)
From S2P Require Import Prelude GoLib GoFloat Value ValueOrder PathElement SortedSlice FieldSet.
From S2P Require Import FieldSetSpec FieldSetOps FieldSetInsert.

(** ** Equals *)
Section EqualsHas.
Context (r : Regime).
Implicit Types (s : FSet) (c : SetNodeMap) (pe : PathElement) (p : Path).

Lemma SetNodeMap_Equals_Forall2 f c c2 :
  SetNodeMap_Equals f c c2 = true <->
  Forall2 (fun a b => PathElement_Equals a.1 b.1 = true /\ f a.2 b.2 = true) c c2.
Proof.
  unfold SetNodeMap_Equals. revert c2. induction c as [|a c IH]; intros [|b c2]; simpl.
  - split; [constructor|done].
  - split; [done|inversion 1].
  - split; [done|inversion 1].
  - rewrite Forall2_cons, <-IH.
    destruct (length c =? length c2)%nat; simpl; [|by split; [|intros []]].
    destruct (PathElement_Equals a.1 b.1), (f a.2 b.2); simpl; intuition done.
Qed.

(** Pointwise related slices with equal keys answer lookups alike. *)
Lemma Forall2_slice_find {A B} (kA : A -> PathElement) (kB : B -> PathElement)
    (R : A -> B -> Prop) l l' pe :
  pe_dom r pe -> slice_ok kA r l = true -> slice_ok kB r l' = true ->
  Forall2 (fun a b => PathElement_Equals (kA a) (kB b) = true /\ R a b) l l' ->
  option_Forall2 R (slice_find kA pe l) (slice_find kB pe l').
Proof.
  intros Hpe H%slice_ok_dom H'%slice_ok_dom F.
  induction F as [|a b l l' [E HR] F IH]; simpl; [constructor|].
  apply Forall_cons in H as [Ha H], H' as [Hb H'].
  rewrite (pe_Equals_trans_l r (kA a) (kB b) pe) by done.
  destruct (PathElement_Equals (kB b) pe); [by constructor|auto].
Qed.

Lemma Set_Equals_sound s s2 p :
  Set_wf r s = true -> Set_wf r s2 = true -> Set_Equals s s2 = true ->
  Forall (pe_dom r) p -> Set_Has s p = Set_Has s2 p.
Proof.
  intros Hs Hs2 E Hp. revert s s2 Hs Hs2 E.
  induction Hp as [|pe p Hpe Hp IH]; intros [m c] [m2 c2] Hs Hs2 [Em Ec]%andb_true_iff; [done|].
  pose proof Hs as (Hm & Hc & Fc)%Set_wf_mk. pose proof Hs2 as (Hm2 & Hc2 & Fc2)%Set_wf_mk.
  destruct p as [|q p].
  { rewrite !(Set_Has_single r) by done. simpl in Em.
    by apply (proj1 (PathElementSet_Equals_mem r m m2 Hm Hm2)). }
  rewrite !(Set_Has_cons r) by done.
  pose proof (child_wf r (mkSet m c) pe) as W. pose proof (child_wf r (mkSet m2 c2) pe) as W2.
  unfold child in *. cbn [Children] in *.
  apply SetNodeMap_Equals_Forall2, (Forall2_slice_find fst fst _ c c2 pe) in Ec; [|done..].
  destruct Ec as [a b E|]; [|done]. simpl in *. apply IH; auto.
Qed.

Lemma child_Has_ok s pe s' :
  Set_ok r s = true -> pe_dom r pe -> child pe s = Some s' ->
  exists q p, Forall (pe_dom r) (q :: p) /\ Set_Has s (pe :: q :: p) = true.
Proof.
  intros Hs Hpe Ec. pose proof Hs as [Hw _]%Set_ok_iff.
  assert (HE : Set_Empty s' = false).
  { destruct s as [m c]. apply Set_ok_mk in Hs as (_ & _ & F). unfold child in Ec. simpl in Ec.
    apply fmap_Some in Ec as (n & [Hin _]%slice_find_Some & ->). rewrite Forall_forall in F.
    by apply F. }
  destruct (Set_nonempty_Has r s') as ([|q p] & Hp & HH); [by eapply child_wf|done|done|].
  exists q, p. split; [done|]. by rewrite (Set_Has_cons r), Ec.
Qed.

(** In a set without empty nodes the nodes are determined by the members. *)
Lemma child_is_Some sA sB pe :
  Set_ok r sA = true -> Set_wf r sB = true ->
  (forall p, Forall (pe_dom r) p -> Set_Has sA p = Set_Has sB p) ->
  pe_dom r pe -> is_Some (child pe sA) -> is_Some (child pe sB).
Proof.
  intros HA HB HAB Hpe [x Ex].
  destruct (child_Has_ok sA pe x HA Hpe Ex) as (q & p & Hp & Hh).
  rewrite HAB, (Set_Has_cons r) in Hh by (try done; by constructor).
  destruct (child pe sB); [eauto|done].
Qed.

Lemma Set_Equals_complete s s2 :
  Set_ok r s = true -> Set_ok r s2 = true ->
  (forall p, Forall (pe_dom r) p -> Set_Has s p = Set_Has s2 p) -> Set_Equals s s2 = true.
Proof.
  revert s2. induction s as [m c IH] using FSet_nested_ind. intros [m2 c2] Hs Hs2 HH.
  pose proof Hs as [Hw _]%Set_ok_iff. pose proof Hs2 as [Hw2 _]%Set_ok_iff.
  pose proof Hs as (Hm & Hc & Fc)%Set_ok_mk. pose proof Hs2 as (Hm2 & Hc2 & Fc2)%Set_ok_mk.
  simpl. apply andb_true_iff. split.
  { apply (PathElementSet_Equals_mem r); [done..|]. intros pe Hpe.
    specialize (HH [pe] ltac:(by repeat constructor)). by rewrite !(Set_Has_single r) in HH. }
  apply SetNodeMap_Equals_Forall2.
  assert (F2 : Forall2 (fun a b => PathElement_Equals a.1 b.1 = true) c c2).
  { apply (slice_find_ext fst r fst); [done..|]. intros pe Hpe.
    pose proof (child_is_Some (mkSet m c) (mkSet m2 c2) pe Hs Hw2 HH Hpe) as S1.
    pose proof (child_is_Some (mkSet m2 c2) (mkSet m c) pe Hs2 Hw ltac:(by symmetry; auto) Hpe) as S2.
    unfold child in S1, S2. rewrite !fmap_is_Some in S1, S2. by split. }
  eapply Forall2_impl_in; [|exact F2]. intros a b Ha Hb E. split; [done|].
  rewrite Forall_forall in IH. rewrite Forall_forall in Fc. rewrite Forall_forall in Fc2.
  apply IH; [done|by apply Fc|by apply Fc2|].
  intros p Hp. destruct p as [|q p]; [done|].
  pose proof (slice_ok_dom _ _ _ Hc) as D. rewrite Forall_forall in D. specialize (D a Ha).
  pose proof (slice_ok_dom _ _ _ Hc2) as D2.
  specialize (HH (a.1 :: q :: p) ltac:(by constructor)).
  rewrite !(Set_Has_cons r) in HH by done. unfold child in HH. cbn [Children] in HH.
  rewrite (slice_find_in fst r c a), (slice_find_Equals fst r a.1 b.1 c2) in HH
    by (try done; rewrite Forall_forall in D2; auto).
  by rewrite (slice_find_in fst r c2 b) in HH by done.
Qed.
End EqualsHas.

(** ** Iterate and Size *)

Fixpoint paths_distinct (l : list Path) : bool :=
  match l with
  | [] => true
  | p :: l' => forallb (fun q => negb (Path_Equals p q)) l' && paths_distinct l'
  end.

Lemma Set_iteratePrefix_app prefix s :
  Set_iteratePrefix prefix s = (fun p => prefix ++ p) <$> Set_Iterate s.
Proof.
  unfold Set_Iterate. revert prefix. induction s as [m c IH] using FSet_nested_ind. intros prefix.
  simpl. rewrite fmap_app, <-!list_fmap_compose. f_equal.
  unfold SetNodeMap_iteratePrefix. simpl. induction IH as [|n c Hn F IHc]; [done|].
  rewrite !bind_cons, fmap_app, IHc. f_equal.
  rewrite (Hn (prefix ++ [n.1])), (Hn ([n.1])), <-list_fmap_compose.
  apply list_fmap_ext. intros _ p _. simpl. by rewrite <-app_assoc.
Qed.

Lemma Set_Iterate_mk m c :
  Set_Iterate (mkSet m c) =
  ((fun pe => [pe]) <$> m) ++ (c ≫= (fun n => (cons n.1) <$> Set_Iterate n.2)).
Proof.
  unfold Set_Iterate at 1. simpl. f_equal. unfold SetNodeMap_iteratePrefix.
  apply list_bind_ext; [|done]. intros n. simpl. apply (Set_iteratePrefix_app [n.1]).
Qed.

Lemma length_bind {A B} (f : A -> list B) l :
  length (l ≫= f) = foldl (fun k a => k + length (f a))%nat O l.
Proof.
  assert (H : forall k, (k + length (l ≫= f))%nat = foldl (fun k a => k + length (f a))%nat k l).
  { induction l as [|a l IH]; intros k; [simpl; lia|].
    rewrite bind_cons, length_app. simpl. rewrite <-IH. lia. }
  apply (H O).
Qed.

Lemma foldl_ext_in {A B} (f g : B -> A -> B) l k :
  Forall (fun a => forall k, f k a = g k a) l -> foldl f k l = foldl g k l.
Proof. intros F. revert k. induction F as [|a l H F IH]; intros k; simpl; [done|]. by rewrite H, IH. Qed.

(** [Size] counts what [Iterate] lists. *)
Lemma Set_Size_Iterate s : Set_Size s = length (Set_Iterate s).
Proof.
  induction s as [m c IH] using FSet_nested_ind. rewrite Set_Iterate_mk, length_app, length_fmap.
  simpl. unfold PathElementSet_Size, SetNodeMap_Size. f_equal. rewrite length_bind.
  apply foldl_ext_in. eapply Forall_impl; [exact IH|]. intros n Hn k.
  by rewrite length_fmap, Hn.
Qed.

Lemma Set_Empty_Size s : Set_Empty s = (Set_Size s =? 0)%nat.
Proof.
  rewrite Set_Size_Iterate.
  induction s as [m c IH] using FSet_nested_ind. rewrite Set_Iterate_mk, length_app, length_fmap.
  cbn [Set_Empty]. unfold PathElementSet_Size. destruct m as [|m0 m]; [simpl|done].
  rewrite SetNodeMap_Empty_forall. induction IH as [|n c Hn F IHc]; [done|].
  rewrite bind_cons, length_app, length_fmap. simpl. rewrite Hn, IHc.
  by destruct (length (Set_Iterate n.2)).
Qed.

Section Iterate.
Context (r : Regime).
Implicit Types (s : FSet) (c : SetNodeMap) (pe : PathElement) (p : Path).

Lemma existsb_bind {A B} (f : A -> list B) (g : B -> bool) l :
  existsb g (l ≫= f) = existsb (fun a => existsb g (f a)) l.
Proof.
  induction l as [|a l IH]; [done|]. rewrite bind_cons, existsb_app. simpl. by rewrite IH.
Qed.

Lemma existsb_find {A} (key : A -> PathElement) pe l (g : A -> bool) :
  pe_dom r pe -> slice_ok key r l = true ->
  existsb (fun a => PathElement_Equals (key a) pe && g a) l =
  match slice_find key pe l with Some a => g a | None => false end.
Proof.
  intros Hpe. induction l as [|a l IH]; intros Hok; [done|]. simpl.
  pose proof Hok as (Ha & Fa & Hl)%slice_ok_cons. rewrite IH by done.
  destruct (PathElement_Equals (key a) pe) eqn:E; simpl; [|done].
  by rewrite (slice_find_head key r pe a l), orb_false_r.
Qed.

(** [Iterate] lists, up to equality of paths, exactly the members. *)
Lemma Set_Iterate_Has s p :
  Forall (pe_dom r) p -> Set_wf r s = true ->
  existsb (fun q => Path_Equals q p) (Set_Iterate s) = Set_Has s p.
Proof.
  intros Hp. revert s. induction Hp as [|pe p Hpe Hp IH]; intros [m c] Hs;
    rewrite Set_Iterate_mk, existsb_app, existsb_fmap, existsb_bind.
  { simpl. rewrite existsb_const. simpl. induction c as [|n c IHc]; [done|].
    apply Set_wf_mk in Hs as (Hm & (_ & _ & Hc)%slice_ok_cons & [_ Fc]%Forall_cons).
    simpl. rewrite IHc by by apply Set_wf_mk. by rewrite existsb_fmap, existsb_const. }
  pose proof Hs as (Hm & Hc & Fc)%Set_wf_mk.
  rewrite (existsb_ext_in _ (fun n => PathElement_Equals n.1 pe &&
    existsb (fun q => Path_Equals q p) (Set_Iterate n.2))).
  2:{ intros n _. rewrite existsb_fmap. simpl. induction (Set_Iterate n.2) as [|q l IHl]; simpl.
      - by rewrite andb_false_r.
      - rewrite IHl, Path_Equals_cons. by destruct (PathElement_Equals n.1 pe). }
  rewrite (existsb_find fst pe c) by done.
  rewrite (existsb_ext_in _ (fun a => PathElement_Equals (id a) pe && match p with [] => true | _ => false end)).
  2:{ intros a _. simpl. by rewrite Path_Equals_cons, Path_Equals_nil_l. }
  rewrite (existsb_find id pe m) by done.
  assert (Hchild : match slice_find fst pe c with
      Some a => existsb (fun q => Path_Equals q p) (Set_Iterate a.2) | None => false end
    = match child pe (mkSet m c) with Some s' => Set_Has s' p | None => false end).
  { pose proof (child_wf r (mkSet m c) pe) as W. unfold child in *. cbn [Children] in *.
    destruct (slice_find fst pe c); [|done]. simpl in *. apply IH. auto. }
  rewrite Hchild. destruct p as [|q p].
  - rewrite (Set_Has_single r) by done. unfold pes_mem. simpl.
    destruct (slice_find id pe m); [done|]. by destruct (child pe _).
  - rewrite (Set_Has_cons r) by done. by destruct (slice_find id pe m).
Qed.

Lemma Set_Iterate_dom s : Set_wf r s = true -> Forall (Forall (pe_dom r)) (Set_Iterate s).
Proof.
  induction s as [m c IH] using FSet_nested_ind. intros (Hm & Hc & Fc)%Set_wf_mk.
  rewrite Set_Iterate_mk. apply Forall_app. split.
  - apply Forall_fmap. apply slice_ok_dom in Hm. eapply Forall_impl; [exact Hm|].
    intros x Hx. by repeat constructor.
  - apply slice_ok_dom in Hc. apply Forall_bind.
    rewrite Forall_forall in IH. rewrite Forall_forall in Hc. rewrite Forall_forall in Fc.
    apply Forall_forall. intros n Hn. apply Forall_fmap.
    eapply Forall_impl; [exact (IH n Hn (Fc n Hn))|]. intros p Hp. constructor; auto.
Qed.

Lemma paths_distinct_app l1 l2 :
  paths_distinct (l1 ++ l2) = true <->
  paths_distinct l1 = true /\ paths_distinct l2 = true /\
  Forall (fun p => Forall (fun q => Path_Equals p q = false) l2) l1.
Proof.
  induction l1 as [|p l1 IH]; simpl.
  - split; [by repeat split|tauto].
  - rewrite !andb_true_iff, IH, forallb_app, andb_true_iff, Forall_cons.
    assert (H : forallb (fun q => negb (Path_Equals p q)) l2 = true <->
      Forall (fun q => Path_Equals p q = false) l2).
    { rewrite forallb_Forall. apply Forall_proper; [|done]. intros q. apply negb_true_iff. }
    rewrite H. tauto.
Qed.

Lemma paths_distinct_cons_map pe l :
  paths_distinct l = true -> paths_distinct (cons pe <$> l) = true.
Proof.
  induction l as [|p l IH]; [done|]. rewrite fmap_cons. cbn [paths_distinct].
  rewrite !andb_true_iff, !forallb_Forall, Forall_fmap. intros [F H]. split; [|auto].
  eapply Forall_impl; [exact F|]. intros q Hq. unfold compose. rewrite Path_Equals_cons.
  rewrite negb_true_iff in *. by rewrite Hq, andb_false_r.
Qed.

Lemma paths_distinct_members m :
  pes_ok r m = true -> paths_distinct ((fun pe => [pe]) <$> m) = true.
Proof.
  induction m as [|a m IH]; [done|]. intros (Ha & Fa & Hm)%slice_ok_cons.
  rewrite fmap_cons. cbn [paths_distinct]. apply andb_true_iff. split; [|auto].
  apply slice_ok_dom in Hm. rewrite forallb_Forall, Forall_fmap.
  rewrite Forall_forall in Fa. rewrite Forall_forall in Hm. apply Forall_forall. intros b Hb.
  unfold compose. rewrite Path_Equals_cons, andb_true_r, negb_true_iff.
  apply (pe_Less_not_Equals r); [done|by apply Hm|by apply Fa].
Qed.

Lemma paths_distinct_children c :
  slice_ok fst r c = true -> Forall (fun n => paths_distinct (Set_Iterate n.2) = true) c ->
  paths_distinct (c ≫= (fun n => cons n.1 <$> Set_Iterate n.2)) = true.
Proof.
  induction c as [|n c IH]; [done|].
  intros (Ha & Fa & Hc)%slice_ok_cons [Hn F]%Forall_cons.
  rewrite bind_cons, paths_distinct_app. split_and!; auto using paths_distinct_cons_map.
  apply slice_ok_dom in Hc. apply Forall_fmap, Forall_true. intros p.
  apply Forall_bind. rewrite Forall_forall in Fa. rewrite Forall_forall in Hc.
  apply Forall_forall. intros n' Hn'. apply Forall_fmap, Forall_true. intros q.
  unfold compose. rewrite Path_Equals_cons, (pe_Less_not_Equals r); auto.
Qed.

(** No path is listed twice. *)
Lemma Set_Iterate_distinct s : Set_wf r s = true -> paths_distinct (Set_Iterate s) = true.
Proof.
  induction s as [m c IH] using FSet_nested_ind. intros (Hm & Hc & Fc)%Set_wf_mk.
  rewrite Set_Iterate_mk, paths_distinct_app. split_and!; auto using paths_distinct_members.
  - apply paths_distinct_children; [done|]. rewrite Forall_forall in IH.
    rewrite Forall_forall in Fc. apply Forall_forall. auto.
  - apply Forall_fmap, Forall_true. intros pe. apply Forall_bind, Forall_forall. intros n Hn.
    apply Forall_fmap, Forall_forall. intros q Hq. unfold compose. rewrite Path_Equals_cons.
    assert (q <> []) as Hne.
    { intros ->. assert (existsb (fun q => Path_Equals q []) (Set_Iterate n.2) = true) as HE.
      { apply existsb_exists. exists []. by rewrite <-list_elem_of_In. }
      rewrite Forall_forall in Fc. by rewrite Set_Iterate_Has in HE by (try constructor; auto). }
    destruct q; [done|]. by rewrite Path_Equals_nil_l, andb_false_r.
Qed.
End Iterate.

(** ** Leaves *)
Section Leaves.
Context (r : Regime).
Implicit Types (s : FSet) (c : SetNodeMap) (pe : PathElement) (p : Path).

Lemma leafMembers_merge m c :
  pes_ok r m = true -> slice_ok fst r c = true ->
  leafMembers m c = merge_loop id fst Some (fun _ _ => None) (fun _ => None) m c.
Proof.
  revert c. induction m as [|a m IH]; intros c Hm Hc.
  { rewrite merge_loop_nil_l, omap_None_nil. by destruct c. }
  pose proof Hm as (Da & _ & Hm')%slice_ok_cons.
  assert (Hnil : leafMembers (a :: m) [] = a :: m).
  { simpl. rewrite IH by done. by rewrite merge_loop_nil_r, omap_Some_id. }
  induction c as [|n c IHc]; [by rewrite merge_loop_nil_r, omap_Some_id|].
  pose proof Hc as (Dn & _ & Hc')%slice_ok_cons.
  rewrite merge_loop_cons. unfold PathElement_Less. change (id a) with a.
  rewrite (cmp_antisym PathElement_Compare (pe_dom r) a n.1) by done.
  specialize (IHc Hc'). cbn [leafMembers].
  destruct (Z.ltb_spec (PathElement_Compare a n.1) 0), (Z.eqb_spec (PathElement_Compare a n.1) 0); try lia.
  - cbn [opt_cons]. f_equal. by apply IH.
  - destruct (Z.ltb_spec (- PathElement_Compare a n.1) 0); [lia|]. by apply IH.
  - destruct (Z.ltb_spec (- PathElement_Compare a n.1) 0); [|lia]. exact IHc.
Qed.

Lemma leafMembers_ok m c :
  pes_ok r m = true -> slice_ok fst r c = true -> pes_ok r (leafMembers m c) = true.
Proof.
  intros. rewrite leafMembers_merge by done. apply (merge_loop_ok id fst); auto.
  unfold keeps_keys, id. naive_solver.
Qed.

Lemma leafMembers_mem m c pe :
  pe_dom r pe -> pes_ok r m = true -> slice_ok fst r c = true ->
  pes_mem pe (leafMembers m c) =
  pes_mem pe m && match slice_find fst pe c with Some _ => false | None => true end.
Proof.
  intros. unfold pes_mem. rewrite leafMembers_merge by done.
  rewrite (merge_loop_find id fst id _ _ _ r); auto.
  - by destruct (slice_find id pe m), (slice_find fst pe c).
  - unfold keeps_keys, id. naive_solver.
Qed.

Lemma Leaves_children_find c pe :
  snd <$> slice_find fst pe (SetNodeMap_Leaves Set_Leaves c) =
  Set_Leaves <$> (snd <$> slice_find fst pe c).
Proof.
  induction c as [|n c IH]; [done|]. unfold SetNodeMap_Leaves. rewrite fmap_cons.
  simpl. by destruct (PathElement_Equals n.1 pe).
Qed.

Lemma Set_Leaves_wf s : Set_wf r s = true -> Set_wf r (Set_Leaves s) = true.
Proof.
  induction s as [m c IH] using FSet_nested_ind. intros (Hm & Hc & Fc)%Set_wf_mk.
  cbn [Set_Leaves]. apply Set_wf_mk. split_and!.
  - by apply leafMembers_ok.
  - eapply (slice_ok_keys fst r c); [|done]. unfold SetNodeMap_Leaves.
    by rewrite <-list_fmap_compose.
  - unfold SetNodeMap_Leaves. apply Forall_fmap. rewrite Forall_forall in IH.
    rewrite Forall_forall in Fc. apply Forall_forall. intros n Hn. by apply IH, Fc.
Qed.

Lemma Set_Leaves_nonempty s :
  Set_full s = true -> Set_Empty s = false -> Set_Empty (Set_Leaves s) = false.
Proof.
  induction s as [m c IH] using FSet_nested_ind. intros F%Set_full_mk HE.
  cbn [Set_Leaves Set_Empty] in *.
  destruct (0 <? PathElementSet_Size (leafMembers m c))%nat eqn:E; [done|].
  destruct c as [|n c].
  - replace (leafMembers m []) with m in E; [|by clear; induction m as [|a m IH]; simpl; [|rewrite <-IH]].
    by rewrite E in HE.
  - apply Forall_cons in F as [[HEn Fn] F], IH as [Hn IH]. unfold SetNodeMap_Leaves.
    rewrite fmap_cons. cbn [SetNodeMap_Empty fst snd]. by rewrite Hn.
Qed.

Lemma Set_Leaves_ok s : Set_ok r s = true -> Set_ok r (Set_Leaves s) = true.
Proof.
  intros [Hw Hf]%Set_ok_iff. apply Set_ok_iff. split; [by apply Set_Leaves_wf|]. clear Hw.
  induction s as [m c IH] using FSet_nested_ind. apply Set_full_mk in Hf.
  cbn [Set_Leaves]. apply Set_full_mk. unfold SetNodeMap_Leaves. apply Forall_fmap.
  rewrite Forall_forall in IH. rewrite Forall_forall in Hf. apply Forall_forall. intros n Hn.
  simpl. destruct (Hf n Hn). split; [by apply Set_Leaves_nonempty|]. by apply IH.
Qed.

(** The leaves are the members with no member below them. *)
Lemma Set_Has_Leaves s p :
  Set_ok r s = true -> Forall (pe_dom r) p -> p <> [] ->
  Set_Has (Set_Leaves s) p = true <->
  Set_Has s p = true /\
  forall q, Forall (pe_dom r) q -> q <> [] -> Set_Has s (p ++ q) = false.
Proof.
  intros Hs Hp. revert s Hs. induction Hp as [|pe p Hpe Hp IH]; intros s Hs Hne; [done|].
  pose proof Hs as [Hw _]%Set_ok_iff. pose proof (Set_Leaves_wf _ Hw) as HL.
  pose proof (default_child_ok r pe s Hs) as Hd. pose proof (child_Has_ok r s pe) as HC.
  destruct s as [m c]. pose proof Hw as (Hm & Hc & Fc)%Set_wf_mk. destruct p as [|q p].
  - rewrite !(Set_Has_single r) by done. cbn [Set_Leaves Members].
    rewrite leafMembers_mem, andb_true_iff by done. apply and_iff_compat_l. split.
    + destruct (slice_find fst pe c) eqn:E; [done|]. intros _ [|q p] _ Hq; [done|]. simpl app.
      rewrite (Set_Has_cons r) by done. unfold child. cbn [Children]. by rewrite E.
    + intros HN. destruct (slice_find fst pe c) as [n|] eqn:E; [|done].
      destruct (HC n.2) as (q & p & Hq & HH); [done|done| |].
      { unfold child. cbn [Children]. by rewrite E. }
      specialize (HN (q :: p) Hq ltac:(done)). cbn [app] in HN. congruence.
  - cbn [app]. setoid_rewrite (Set_Has_cons r); [|done..].
    unfold child in *. cbn [Children Set_Leaves] in *. rewrite Leaves_children_find.
    destruct (slice_find fst pe c) as [n|]; simpl in Hd |- *; [by apply IH|]. by split; [|intros []].
Qed.
End Leaves.
