(* ===== verification/PathElementMap.v ===== *)
(** * Package fieldpath: maps keyed by path elements, and sets from values

    Models [fieldpath/pathelementmap.go] (a sorted slice of path element/value
    pairs; [interface{}] is the type parameter) and [fieldpath/fromvalue.go]. *)
From S2P Require Import Prelude GoLib GoFloat Value ValueOrder PathElement SortedSlice FieldSet.
From S2P Require Import FieldSetSpec FieldSetOps FieldSetInsert.

(** A [PathElementMap] is its sorted [members] slice. *)
Abbreviation PathElementMap V := (list (PathElement * V)).

Section PathElementMap.
Context {V : Type}.

Definition MakePathElementMap : PathElementMap V := [].

Definition PathElementMap_Insert (s : PathElementMap V) (pe : PathElement) (v : V) : PathElementMap V :=
  let loc := search_pe fst s pe in
  if (loc =? length s)%nat then s ++ [(pe, v)]
  else
    match s !! loc with
    | Some m =>
      if PathElement_Equals m.1 pe then <[loc := (m.1, v)]> s
      else slice_insert_at loc (pe, v) s
    | None => s
    end.

Definition PathElementMap_Get (s : PathElementMap V) (pe : PathElement) : option V :=
  let loc := search_pe fst s pe in
  if (loc =? length s)%nat then None
  else
    match s !! loc with
    | Some m => if PathElement_Equals m.1 pe then Some m.2 else None
    | None => None
    end.

Context (r : Regime).
Implicit Types (s : PathElementMap V) (pe : PathElement).

Lemma PathElementMap_Get_find s pe :
  pe_dom r pe -> slice_ok fst r s = true -> PathElementMap_Get s pe = snd <$> slice_find fst pe s.
Proof.
  intros Hpe Hok. rewrite <-(slice_get_find fst r) by done.
  unfold PathElementMap_Get, slice_get. destruct (_ =? _)%nat; [done|].
  destruct (s !! _) as [n|]; [|done]. by destruct (PathElement_Equals n.1 pe).
Qed.

Lemma PathElementMap_Insert_absent s pe v :
  pe_dom r pe -> slice_ok fst r s = true -> slice_find fst pe s = None ->
  PathElementMap_Insert s pe v = slice_insert_at (search_pe fst s pe) (pe, v) s.
Proof.
  intros Hpe Hok Ef. pose proof (slice_get_find fst r s pe Hpe Hok) as G.
  rewrite Ef in G. unfold slice_get in G. unfold PathElementMap_Insert.
  destruct (search_pe_split fst r s pe Hpe Hok) as (l1 & l2 & El & Elen & _).
  destruct (Nat.eqb_spec (search_pe fst s pe) (length s)) as [E|N].
  - unfold slice_insert_at. by rewrite E, firstn_all, drop_all.
  - destruct (s !! search_pe fst s pe) as [x|] eqn:Ex.
    + by destruct (PathElement_Equals x.1 pe).
    + apply lookup_ge_None in Ex. rewrite Elen in *. subst s. rewrite length_app in *. lia.
Qed.

Lemma PathElementMap_Insert_present s pe v n :
  pe_dom r pe -> slice_ok fst r s = true -> slice_find fst pe s = Some n ->
  exists l1 l2, s = l1 ++ n :: l2 /\ PathElementMap_Insert s pe v = l1 ++ (n.1, v) :: l2.
Proof.
  intros Hpe Hok Ef. pose proof (slice_get_find fst r s pe Hpe Hok) as G.
  rewrite Ef in G. unfold slice_get in G. unfold PathElementMap_Insert.
  destruct (_ =? _)%nat; [done|]. destruct (s !! search_pe fst s pe) as [x|] eqn:Ex; [|done].
  destruct (PathElement_Equals x.1 pe); [|done]. injection G as ->.
  exists (take (search_pe fst s pe) s), (drop (S (search_pe fst s pe)) s).
  split; [by rewrite take_drop_middle|]. apply insert_take_drop.
  by eapply lookup_lt_Some.
Qed.

Lemma PathElementMap_Insert_ok s pe v :
  pe_dom r pe -> slice_ok fst r s = true -> slice_ok fst r (PathElementMap_Insert s pe v) = true.
Proof.
  intros Hpe Hok. destruct (slice_find fst pe s) as [n|] eqn:Ef.
  - destruct (PathElementMap_Insert_present s pe v n Hpe Hok Ef) as (l1 & l2 & -> & ->).
    eapply slice_ok_keys; [|exact Hok]. by rewrite !fmap_app, !fmap_cons.
  - rewrite PathElementMap_Insert_absent by done. by apply (slice_insert_ok fst r (pe, v)).
Qed.

Lemma PathElementMap_Get_Insert_eq s pe v pe' :
  pe_dom r pe -> pe_dom r pe' -> slice_ok fst r s = true ->
  PathElementMap_Get (PathElementMap_Insert s pe v) pe' =
    if PathElement_Equals pe pe' then Some v else PathElementMap_Get s pe'.
Proof.
  intros Hpe Hpe' Hok. pose proof (PathElementMap_Insert_ok s pe v Hpe Hok) as Hok'.
  rewrite !PathElementMap_Get_find by done. destruct (slice_find fst pe s) as [n|] eqn:Ef.
  - pose proof (slice_find_Some_dom fst r pe s n Hok Ef) as Dn.
    destruct (PathElementMap_Insert_present s pe v n Hpe Hok Ef) as (l1 & l2 & E1 & E2).
    rewrite E2 in *. apply slice_find_Some in Ef as [_ En].
    rewrite <-(pe_Equals_trans_l r n.1 pe pe') by done.
    rewrite (slice_find_mid fst r) by done. cbn [fst].
    destruct (PathElement_Equals n.1 pe') eqn:E; [done|]. subst s.
    by rewrite (slice_find_skip fst).
  - rewrite PathElementMap_Insert_absent by done.
    rewrite (slice_find_insert fst r (pe, v)) by done. cbn [fst].
    by destruct (PathElement_Equals pe pe').
Qed.
End PathElementMap.

(** ** SetFromValue *)

Definition AssociativeListCandidateFieldNames : list string := ["key"; "id"; "name"].

(** The loop body of [GuessBestListPathElement]: add the field as a key if it
    is a scalar. *)
Definition addCandidateKey (m : Map) (keys : FieldList) (name : string) : FieldList :=
  match assoc_get name m with
  | None => keys
  | Some f => if IsNull f || IsMap f || IsList f then keys else keys ++ [mkField name f]
  end.

Definition GuessBestListPathElement (index : Z) (item : value) : PathElement :=
  if negb (IsMap item) then peIndex index
  else
    let m := AsMap item in
    let keys := foldl (addCandidateKey m) [] AssociativeListCandidateFieldNames in
    if (0 <? length keys)%nat then peKey (FieldList_Sort keys) else peIndex index.

(** [walk] threads the state the callback [do] captures. *)
Fixpoint walk {S : Type} (do : Path -> S -> S) (path : Path) (v : value) (s : S) : S :=
  match v with
  | VList l =>
    (fix walkItems (i : Z) (l : list value) (s : S) : S :=
      match l with
      | [] => s
      | item :: l' =>
        walkItems (i + 1) l' (walk do (path ++ [GuessBestListPathElement i item]) item s)
      end) 0 l s
  | VMap m =>
    (fix walkEntries (m : Map) (s : S) : S :=
      match m with
      | [] => s
      | (k, val) :: m' => walkEntries m' (walk do (path ++ [peField k]) val s)
      end) m s
  | _ => if (0 <? length path)%nat then do path s else s
  end.

Definition SetFromValue (v : value) : FSet := walk (fun p s => Set_Insert s p) [] v emptySet.

(** The leaves of a value, with the path element guessed for each list item. *)
Fixpoint leafPaths (v : value) : list Path :=
  match v with
  | VList l =>
    (fix go (i : Z) (l : list value) : list Path :=
      match l with
      | [] => []
      | item :: l' => (cons (GuessBestListPathElement i item) <$> leafPaths item) ++ go (i + 1) l'
      end) 0 l
  | VMap m => m ≫= (fun kv => cons (peField kv.1) <$> leafPaths kv.2)
  | _ => [[]]
  end.

(** The callback is called on the leaves, in order (never on the root). *)
Lemma walk_leafPaths {S} (do : Path -> S -> S) v path s :
  walk do path v s =
  foldl (fun s p => if (0 <? length p)%nat then do p s else s) s
    ((fun p => path ++ p) <$> leafPaths v).
Proof.
  revert path s. induction v as [|b|k i|f|f|str|l IH|m IH] using value_rect_nested; intros path s;
    try (cbn [walk leafPaths fmap list_fmap foldl]; by rewrite app_nil_r).
  - cbn [walk leafPaths]. generalize 0 as i. revert s.
    induction IH as [|item l Hi F IHl]; intros s i; [done|].
    rewrite fmap_app, foldl_app, IHl, Hi, <-list_fmap_compose. do 2 f_equal.
    apply list_fmap_ext. intros _ p _. simpl. by rewrite <-app_assoc.
  - cbn [walk leafPaths]. revert s.
    induction IH as [|[k val] m Hi F IHm]; intros s; [done|].
    rewrite bind_cons, fmap_app, foldl_app, IHm, Hi, <-list_fmap_compose. do 2 f_equal.
    apply list_fmap_ext. intros _ p _. simpl. by rewrite <-app_assoc.
Qed.

Lemma SetFromValue_NewSet v : SetFromValue v = NewSet (leafPaths v).
Proof.
  unfold SetFromValue, NewSet. rewrite walk_leafPaths. rewrite list_fmap_id.
  generalize emptySet. induction (leafPaths v) as [|p l IH]; intros s; [done|]. simpl.
  rewrite IH. by destruct p.
Qed.

Lemma GuessBestListPathElement_dom r i item :
  value_ok r item = true -> pe_dom r (GuessBestListPathElement i item).
Proof.
  intros Hv. unfold GuessBestListPathElement. destruct item as [| | | | | | |m]; try done.
  apply value_ok_map in Hv as [_ Hm]. cbn [IsMap negb AsMap].
  assert (Hk : forall names keys, fieldlist_ok r keys = true ->
    fieldlist_ok r (foldl (addCandidateKey m) keys names) = true).
  { induction names as [|name names IH]; intros keys Hks; [done|]. simpl. apply IH.
    unfold addCandidateKey. destruct (assoc_get name m) as [f|] eqn:Ef; [|done]. destruct (_ || _ || _); [done|].
    apply assoc_get_Some in Ef. rewrite Forall_forall in Hm. specialize (Hm _ Ef).
    unfold fieldlist_ok in *. rewrite forallb_app, Hks. simpl in *. by rewrite Hm. }
  specialize (Hk AssociativeListCandidateFieldNames [] eq_refl). revert Hk.
  generalize (foldl (addCandidateKey m) [] AssociativeListCandidateFieldNames) as keys.
  intros keys Hk. cbv zeta. destruct (_ <? _)%nat; [|done].
  unfold pe_dom, pe_ok. cbn [pe_single FieldName Index Key PEValue peKey andb]. rewrite andb_true_r.
  eapply fieldlist_ok_perm; [symmetry; apply FieldList_Sort_perm|done].
Qed.

Lemma leafPaths_dom r v : value_ok r v = true -> Forall (Forall (pe_dom r)) (leafPaths v).
Proof.
  induction v as [|b|k i|f|f|str|l IH|m IH] using value_rect_nested; intros Hv;
    try by repeat constructor.
  - apply value_ok_list in Hv. cbn [leafPaths]. generalize 0 as i.
    induction IH as [|item l Hi F IHl]; intros i; [constructor|].
    apply Forall_cons in Hv as [Hit Hv]. apply Forall_app. split; [|by apply IHl].
    apply Forall_fmap. eapply Forall_impl; [by apply Hi|]. intros p Hp.
    constructor; [by apply GuessBestListPathElement_dom|done].
  - apply value_ok_map in Hv as [_ Hv]. cbn [leafPaths]. apply Forall_bind.
    rewrite Forall_forall in IH. rewrite Forall_forall in Hv. apply Forall_forall. intros kv Hkv.
    apply Forall_fmap. eapply Forall_impl; [by apply IH, Hv|]. intros p Hp. by constructor.
Qed.
