(* ===== verification/Serialize.v ===== *)
(** * Package fieldpath: the JSON form of path elements and sets

    Models [fieldpath/serialize-pe.go], [fieldpath/serialize.go] and the JSON
    functions of [value/value.go].  Reading and writing JSON text is the work of
    the library jsoniter, which is a parameter here ([JsonLib]): the code drives
    it through calls on a stream, and [render] is the text a sequence of calls
    writes; it reads through an iterator, and [read] is the document the iterator
    finds in a text.  Keys of objects are strings, and a path element is written
    as one: [f:], [k:], [v:] or [i:] and the name, the keys, the value or the
    index.  Pools of streams and buffers are memory management.

    A read that fails returns the first error; the set the Go function leaves
    behind in that case is not modelled, nor is which of several errors is the
    first when the text itself is not JSON. *)
From S2P Require Import Prelude GoLib GoFloat Value ValueOrder PathElement SortedSlice FieldSet.
From Stdlib Require Import Ascii DecimalString Decimal DecimalZ DecimalFacts.

(** ** The library *)

(** A JSON document, as an iterator walks it: an object by its fields, in the
    order of the text, or any other value. *)
#[warnings="-register-all"]
Inductive jdoc :=
  | DVal (v : value)
  | DObj (fields : list (string * jdoc)).

(** The calls on a stream. *)
Inductive jevent :=
  | WriteObjectStart
  | WriteObjectEnd
  | WriteObjectField (name : string)
  | WriteMore
  | WriteEmptyObject
  | WriteVal (v : value).

(** [render] is [None] when the stream reports an unsupported value, [read] when
    the text does not start with a JSON document. *)
Class JsonLib := {
  render : list jevent -> option string;
  read : string -> option jdoc;
}.

(** [iter.Read()]: objects become maps, the last of equal keys wins. *)
Fixpoint iter_Read (d : jdoc) : value :=
  match d with
  | DVal v => v
  | DObj fields =>
    VMap ((fix go (fs : list (string * jdoc)) (m : Map) : Map :=
      match fs with
      | [] => m
      | (k, d') :: fs' => go fs' (assoc_set k (iter_Read d') m)
      end) fields [])
  end.

(** ** Errors *)

Inductive JsonError :=
  | ErrUnknownPathElementType
  | ErrInvalidPathElement
  | ErrUnsupportedValue
  | ErrKeyLength
  | ErrMissingColon (s : string)
  | ErrSyntax
  | ErrNotObject
  | ErrAtoi.

(** ** strconv.Atoi and the text of an int *)

Definition min_int : Z := - 2 ^ 63.
Definition max_int : Z := 2 ^ 63 - 1.

Definition itoa (i : Z) : string := NilZero.string_of_int (Z.to_int i).

(** An optional sign and digits, in the range of [int]. *)
Definition Atoi (s : string) : option Z :=
  let number :=
    match s with
    | String "+"%char s' => Z.of_uint <$> NilZero.uint_of_string s'
    | String "-"%char s' => Z.opp ∘ Z.of_uint <$> NilZero.uint_of_string s'
    | _ => Z.of_uint <$> NilZero.uint_of_string s
    end in
  match number with
  | Some i => if (min_int <=? i) && (i <=? max_int) then Some i else None
  | None => None
  end.

Section Json.
Context `{JsonLib}.

(** ** Values *)

Definition value_ToJSON (v : value) : JsonError + string :=
  match render [WriteVal v] with Some s => inr s | None => inl ErrUnsupportedValue end.

Definition ReadJSONIter (s : string) : JsonError + value :=
  match read s with Some d => inr (iter_Read d) | None => inl ErrSyntax end.

Definition value_FromJSON (s : string) : JsonError + value := ReadJSONIter s.

(** ** Path elements *)

(** The loop over the fields of a key. *)
Fixpoint keyEvents (first : bool) (fields : FieldList) : list jevent :=
  match fields with
  | [] => []
  | field :: fields' =>
    (if first then [] else [WriteMore]) ++
    WriteObjectField (Name field) :: WriteVal (FieldValue field) :: keyEvents false fields'
  end.

(** What the stream holds at the end, after the two bytes of the prefix. *)
Definition flush (prefix : string) (events : list jevent) : JsonError + string :=
  match render events with Some s => inr (prefix ++ s)%string | None => inl ErrUnsupportedValue end.

Definition SerializePathElement (pe : PathElement) : JsonError + string :=
  match FieldName pe, Key pe, PEValue pe, Index pe with
  | Some name, _, _, _ => inr ("f:" ++ name)%string
  | None, Some k, _, _ => flush "k:" (WriteObjectStart :: keyEvents true k ++ [WriteObjectEnd])
  | None, None, Some v, _ => flush "v:" [WriteVal v]
  | None, None, None, Some i => inr ("i:" ++ itoa i)%string
  | None, None, None, None => inl ErrInvalidPathElement
  end.

(** [iter.ReadObjectCB] with the callback that collects the fields. *)
Definition readKey (s : string) : JsonError + FieldList :=
  match read s with
  | None => inl ErrSyntax
  | Some (DObj fields) => inr ((fun f => mkField f.1 (iter_Read f.2)) <$> fields)
  | Some (DVal VNull) => inr []
  | Some (DVal _) => inl ErrNotObject
  end.

Definition DeserializePathElement (s : string) : JsonError + PathElement :=
  match s with
  | String typ (String sep b) =>
    if negb (Ascii.eqb sep ":"%char) then inl (ErrMissingColon s)
    else if Ascii.eqb typ "f"%char then inr (peField b)
    else if Ascii.eqb typ "v"%char then
      match ReadJSONIter b with inl err => inl err | inr v => inr (peValue v) end
    else if Ascii.eqb typ "k"%char then
      match readKey b with inl err => inl err | inr fields => inr (peKey (FieldList_Sort fields)) end
    else if Ascii.eqb typ "i"%char then
      match Atoi b with Some i => inr (peIndex i) | None => inl ErrAtoi end
    else inl ErrUnknownPathElementType
  | _ => inl ErrKeyLength
  end.

(** ** Writing a set *)

Notation "x <-? e ; f" := (match e with inl err => inl err | inr x => f end)
  (at level 100, e at next level, right associativity).

(** [preWrite], the field of a path element with its content, and the rest. *)
Definition emitField (first : bool) (pe : PathElement) (content rest : JsonError + list jevent) :
    JsonError + list jevent :=
  key <-? SerializePathElement pe;
  content <-? content;
  rest <-? rest;
  inr ((if first then [] else [WriteMore]) ++ WriteObjectField key :: content ++ rest).

(** [WriteObjectStart], the contents of a child, [WriteObjectEnd]. *)
Definition emitObject (content : JsonError + list jevent) : JsonError + list jevent :=
  content <-? content; inr (WriteObjectStart :: content ++ [WriteObjectEnd]).

(** The loops over the members and children still to be written, which are in
    order: a member that is also a child is written with its child. *)
Section EmitLoop.
Variable emit : bool -> FSet -> JsonError + list jevent.

Fixpoint emitLoop (cs : SetNodeMap) : PathElementSet -> bool -> JsonError + list jevent :=
  fix loopM (ms : PathElementSet) (first : bool) : JsonError + list jevent :=
    let emitMember m rest := emitField first m (inr [WriteEmptyObject]) rest in
    let emitChild (c : PathElement * FSet) withSelf rest :=
      emitField first c.1 (emitObject (emit withSelf c.2)) rest in
    match ms, cs with
    | [], [] => inr []
    | m :: ms', [] => emitMember m (loopM ms' false)
    | [], c :: cs' => emitChild c false (emitLoop cs' [] false)
    | m :: ms', c :: cs' =>
      let cmp := PathElement_Compare m c.1 in
      if cmp <? 0 then emitMember m (loopM ms' false)
      else if 0 <? cmp then emitChild c false (emitLoop cs' ms false)
      else emitChild c true (emitLoop cs' ms' false)
    end.
End EmitLoop.

Fixpoint emitContentsV1 (includeSelf : bool) (s : FSet) {struct s} : JsonError + list jevent :=
  let 'mkSet members children := s in
  let self := includeSelf && negb ((length members =? 0) && (length children =? 0))%nat in
  rest <-? emitLoop emitContentsV1 children members (negb self);
  inr ((if self then [WriteObjectField "."; WriteEmptyObject] else []) ++ rest).

Definition Set_ToJSON (s : FSet) : JsonError + string :=
  events <-? emitObject (emitContentsV1 false s);
  flush "" events.

(** ** Reading a set *)

(** [*m = append( *m, pe)] if that keeps the order, else [Insert]. *)
Definition readMember (pe : PathElement) (s : FSet) : FSet :=
  let m := Members s in
  let appendOK := match last m with None => true | Some x => PathElement_Less x pe end in
  mkSet (if appendOK then m ++ [pe] else PathElementSet_Insert m pe) (Children s).

Definition readChild (pe : PathElement) (grandchildren s : FSet) : FSet :=
  let m := Children s in
  let appendOK := match last m with None => true | Some x => PathElement_Less x.1 pe end in
  mkSet (Members s)
    (if appendOK then m ++ [(pe, grandchildren)]
     else let '(m, loc) := SetNodeMap_Descend m pe in alter (fun n => (n.1, grandchildren)) loc m).

(** The callback of [readIterV1], with the result [sub] of reading the value;
    the state is [children] and [isMember]. *)
Definition readEntry (key : string) (sub : JsonError + (option FSet * bool)) (st : option FSet * bool) :
    JsonError + (option FSet * bool) :=
  if string_eqb key "." then inr (st.1, true)
  else
    match DeserializePathElement key with
    | inl ErrUnknownPathElementType => inr st
    | inl err => inl err
    | inr pe =>
      sub <-? sub;
      let '(grandchildren, childIsMember) := sub in
      let children := if (childIsMember : bool) then Some (readMember pe (default emptySet st.1)) else st.1 in
      let children :=
        match grandchildren with
        | Some g => Some (readChild pe g (default emptySet children))
        | None => children
        end in
      inr (children, st.2)
    end.

(** [isMember] is also set when there are no children. *)
Definition orEmpty (st : option FSet * bool) : option FSet * bool :=
  match st.1 with None => (None, true) | Some _ => st end.

(** The callbacks of [iter.ReadMapCB], one for each field. *)
Section ReadFields.
Variable rec : jdoc -> JsonError + (option FSet * bool).

Fixpoint readFields (fs : list (string * jdoc)) (st : option FSet * bool) : JsonError + (option FSet * bool) :=
  match fs with
  | [] => inr st
  | (key, d) :: fs' => st <-? readEntry key (rec d) st; readFields fs' st
  end.
End ReadFields.

Fixpoint readIterV1 (d : jdoc) : JsonError + (option FSet * bool) :=
  match d with
  | DObj fields => st <-? readFields readIterV1 fields (None, false); inr (orEmpty st)
  | DVal VNull => inr (orEmpty (None, false))
  | DVal _ => inl ErrNotObject
  end.

Definition Set_FromJSON (s : string) : JsonError + FSet :=
  match read s with
  | None => inl ErrSyntax
  | Some d => found <-? readIterV1 d; inr (default emptySet found.1)
  end.
End Json.
