(* ===== verification/Managers.v ===== *)
(** * Package fieldpath: managed fields

    Models [fieldpath/managers.go].  [ManagedFields] is a Go map from manager
    names; the functions that range over it take the enumeration the runtime
    chose as an argument, and are shown not to depend on it. *)
From stdpp Require Import gmap.
From S2P Require Import Prelude GoLib GoFloat Value ValueOrder PathElement SortedSlice FieldSet.
From S2P Require Import FieldSetSpec FieldSetOps FieldSetInsert FieldSetIter.

Record VersionedSet := NewVersionedSet {
  VSet : FSet;
  APIVersion : string;
  Applied : bool;
}.

Abbreviation ManagedFields := (gmap string VersionedSet).

(** [l] is an order in which a range over [m] may visit the entries. *)
Definition enumerates {V} (l : list (string * V)) (m : gmap string V) : Prop := l ≡ₚ map_to_list m.

(** The loop of [Equals] over the entries of [lhs]. *)
Fixpoint managersEqual (l : list (string * VersionedSet)) (rhs : ManagedFields) : bool :=
  match l with
  | [] => true
  | (manager, leftV) :: l' =>
    match rhs !! manager with
    | None => false
    | Some rightV =>
      if negb (string_eqb (APIVersion leftV) (APIVersion rightV)) ||
         negb (Bool.eqb (Applied leftV) (Applied rightV)) then false
      else if negb (Set_Equals (VSet leftV) (VSet rightV)) then false
      else managersEqual l' rhs
    end
  end.

Definition ManagedFields_Equals (l : list (string * VersionedSet)) (lhs rhs : ManagedFields) : bool :=
  if negb (size lhs =? size rhs)%nat then false else managersEqual l rhs.

Definition ManagedFields_Copy (l : list (string * VersionedSet)) : ManagedFields :=
  foldl (fun copy '(manager, set) => <[manager := set]> copy) ∅ l.

(** One iteration of the first loop of [Difference]. *)
Definition diffLeft (rhs diff : ManagedFields) (entry : string * VersionedSet) : ManagedFields :=
  let '(manager, leftV) := entry in
  match rhs !! manager with
  | None => if negb (Set_Empty (VSet leftV)) then <[manager := leftV]> diff else diff
  | Some rightV =>
    if negb (string_eqb (APIVersion leftV) (APIVersion rightV)) then <[manager := rightV]> diff
    else
      let newSet := Set_Union (Set_Difference (VSet leftV) (VSet rightV))
        (Set_Difference (VSet rightV) (VSet leftV)) in
      if negb (Set_Empty newSet)
      then <[manager := NewVersionedSet newSet (APIVersion rightV) false]> diff
      else diff
  end.

(** One iteration of the second loop. *)
Definition diffRight (lhs diff : ManagedFields) (entry : string * VersionedSet) : ManagedFields :=
  let '(manager, set) := entry in
  match lhs !! manager with
  | Some _ => diff
  | None => if negb (Set_Empty (VSet set)) then <[manager := set]> diff else diff
  end.

Definition ManagedFields_Difference (ll lr : list (string * VersionedSet))
    (lhs rhs : ManagedFields) : ManagedFields :=
  foldl (diffRight lhs) (foldl (diffLeft rhs) ∅ ll) lr.

(** ** What the functions compute *)

(** The entry of a manager in the difference. *)
Definition diff_entry (leftV rightV : option VersionedSet) : option VersionedSet :=
  match leftV, rightV with
  | None, None => None
  | Some v, None | None, Some v => if Set_Empty (VSet v) then None else Some v
  | Some leftV, Some rightV =>
    if string_eqb (APIVersion leftV) (APIVersion rightV) then
      let s := Set_Union (Set_Difference (VSet leftV) (VSet rightV))
        (Set_Difference (VSet rightV) (VSet leftV)) in
      if Set_Empty s then None else Some (NewVersionedSet s (APIVersion rightV) false)
    else Some rightV
  end.

Section Loops.
(** A loop whose iterations write at most the entry of their own key. *)
Context {V : Type} (step : gmap string V -> string * V -> gmap string V)
  (entry : string -> V -> option V).
Hypothesis Hstep : forall diff k v,
  step diff (k, v) = match entry k v with Some x => <[k := x]> diff | None => diff end.

Lemma foldl_own_key l diff k :
  NoDup l.*1 ->
  foldl step diff l !! k =
    match list_to_map (M := gmap string V) l !! k with
    | Some v => match entry k v with Some x => Some x | None => diff !! k end
    | None => diff !! k
    end.
Proof.
  revert diff. induction l as [|[k' v'] l IH]; intros diff ND; [done|].
  apply NoDup_cons in ND as [Hn ND]. cbn [foldl]. rewrite IH by done.
  rewrite list_to_map_cons, Hstep. destruct (decide (k' = k)) as [->|Hne].
  - rewrite lookup_insert_eq, (not_elem_of_list_to_map_1 _ _ Hn).
    destruct (entry k v'); [by rewrite lookup_insert_eq|done].
  - rewrite lookup_insert_ne by done. by destruct (entry k' v'); rewrite ?lookup_insert_ne by done.
Qed.

Lemma foldl_own_key_enum l m diff k :
  enumerates l m ->
  foldl step diff l !! k =
    match m !! k with
    | Some v => match entry k v with Some x => Some x | None => diff !! k end
    | None => diff !! k
    end.
Proof.
  intros E. assert (ND : NoDup l.*1) by (unfold enumerates in E; rewrite E; apply NoDup_fst_map_to_list).
  rewrite foldl_own_key by done.
  by rewrite (list_to_map_proper l (map_to_list m) ND E), list_to_map_to_list.
Qed.
End Loops.

Lemma diffLeft_step rhs diff k v :
  diffLeft rhs diff (k, v) =
  match diff_entry (Some v) (rhs !! k) with Some x => <[k := x]> diff | None => diff end.
Proof.
  simpl. destruct (rhs !! k) as [w|]; [|by destruct (Set_Empty _)].
  destruct (string_eqb _ _); simpl; [|done]. by destruct (Set_Empty _).
Qed.

Lemma diffRight_step lhs diff k v :
  diffRight lhs diff (k, v) =
  match match lhs !! k with Some _ => None | None => diff_entry None (Some v) end with
  | Some x => <[k := x]> diff | None => diff end.
Proof. simpl. destruct (lhs !! k); [done|]. by destruct (Set_Empty _). Qed.

Lemma ManagedFields_Difference_lookup ll lr lhs rhs k :
  enumerates ll lhs -> enumerates lr rhs ->
  ManagedFields_Difference ll lr lhs rhs !! k = diff_entry (lhs !! k) (rhs !! k).
Proof.
  intros EL ER. unfold ManagedFields_Difference.
  rewrite (foldl_own_key_enum _ _ (diffRight_step lhs) lr rhs) by done.
  rewrite (foldl_own_key_enum _ _ (diffLeft_step rhs) ll lhs) by done.
  rewrite lookup_empty.
  destruct (lhs !! k), (rhs !! k); simpl; repeat case_match; congruence.
Qed.

Lemma ManagedFields_Copy_eq l m : enumerates l m -> ManagedFields_Copy l = m.
Proof.
  intros E. apply map_eq. intros k. unfold ManagedFields_Copy.
  rewrite (foldl_own_key_enum _ (fun _ v => Some v) (fun _ _ _ => eq_refl) l m) by done.
  by destruct (m !! k).
Qed.

(** Entries are equal when version, kind and set are. *)
Definition vs_equal (leftV rightV : VersionedSet) : bool :=
  string_eqb (APIVersion leftV) (APIVersion rightV) && Bool.eqb (Applied leftV) (Applied rightV) &&
  Set_Equals (VSet leftV) (VSet rightV).

Lemma managersEqual_forall l rhs :
  managersEqual l rhs = true <->
  Forall (fun e => exists rightV, rhs !! e.1 = Some rightV /\ vs_equal e.2 rightV = true) l.
Proof.
  induction l as [|[k v] l IH]; simpl; [done|]. rewrite Forall_cons, <-IH. simpl. clear IH.
  destruct (rhs !! k) as [w|]; [|by split; [|intros [(? & ? & _) _]]].
  assert (H : (exists rightV, Some w = Some rightV /\ vs_equal v rightV = true) <-> vs_equal v w = true).
  { split; [by intros (? & [= ->] & ?)|by eauto]. }
  rewrite H. unfold vs_equal.
  destruct (string_eqb _ _), (Bool.eqb _ _), (Set_Equals _ _); simpl; intuition done.
Qed.

(** Whatever the enumeration, [Equals] compares the two maps entry by entry. *)
Lemma ManagedFields_Equals_iff l lhs rhs :
  enumerates l lhs ->
  ManagedFields_Equals l lhs rhs = true <->
  forall k, match lhs !! k, rhs !! k with
    | Some leftV, Some rightV => vs_equal leftV rightV = true
    | None, None => True
    | _, _ => False
    end.
Proof.
  intros E. unfold ManagedFields_Equals.
  assert (HF : managersEqual l rhs = true <->
    forall k v, lhs !! k = Some v -> exists rightV, rhs !! k = Some rightV /\ vs_equal v rightV = true).
  { rewrite managersEqual_forall, Forall_forall. unfold enumerates in E. setoid_rewrite E.
    split.
    - intros H k v Hk. apply (H (k, v)). by apply elem_of_map_to_list.
    - intros H [k v] Hk%elem_of_map_to_list. by apply H. }
  destruct (Nat.eqb_spec (size lhs) (size rhs)) as [Es|Ns]; simpl.
  - rewrite HF. split.
    + intros H k. destruct (lhs !! k) as [v|] eqn:Ek.
      { by destruct (H k v Ek) as (w & -> & ?). }
      destruct (rhs !! k) as [w|] eqn:Er; [|done].
      assert (Hsub : dom lhs ⊆ dom rhs).
      { intros j [v Hj]%elem_of_dom. apply elem_of_dom. destruct (H j v Hj) as (? & -> & _). eauto. }
      assert (Hdom : dom lhs ≡ dom rhs).
      { apply set_subseteq_size_equiv; [done|]. by rewrite !size_dom, Es. }
      apply not_elem_of_dom in Ek. apply Ek, Hdom, elem_of_dom. eauto.
    + intros H k v Hk. specialize (H k). rewrite Hk in H.
      destruct (rhs !! k); [eauto|done].
  - split; [done|]. intros H. exfalso. apply Ns. rewrite <-!size_dom.
    apply set_size_proper. intros k. rewrite !elem_of_dom. specialize (H k).
    destruct (lhs !! k), (rhs !! k); split; intros [? ?]; eauto; done.
Qed.
