(* ===== verification/Schema.v ===== *)
(** * Package schema

    Models the types of [schema/elements.go] with [FindField],
    [FindNamedType], [resolveNoOverrides], [Resolve] and its cache, and the
    comparison functions of [schema/equals.go].

    Go's string-typed enumerations ([Scalar], [ElementRelationship]) are
    strings.  A pointer is [option]; the pointer [TypeRef.ElementRelationship]
    also carries its address, because [TypeRef.Equals] compares the pointers
    and not what they point to.  The indices built once under [sync.Once] are
    rebuilt at each search: the types are immutable. *)
From S2P Require Import Prelude GoLib GoFloat Value ValueOrder.

Abbreviation Scalar := string.
Abbreviation ElementRelationship := string.

Definition Numeric : Scalar := "numeric".
Definition String_ : Scalar := "string".
Definition Boolean : Scalar := "boolean".
Definition Untyped : Scalar := "untyped".

Definition Associative : ElementRelationship := "associative".
Definition Atomic : ElementRelationship := "atomic".
Definition Separable : ElementRelationship := "separable".

(** A non-nil pointer to an element relationship: its address and its target. *)
Record ERPtr := mkERPtr { er_addr : nat; er_target : ElementRelationship }.

Record UnionField := mkUnionField {
  uf_FieldName : string;
  uf_DiscriminatorValue : string;
}.

Record Union := mkUnion {
  un_Discriminator : option string;
  un_DeduceInvalidDiscriminator : bool;
  un_Fields : list UnionField;
}.

(** [m_Fields] is [None] for the nil slice, which [isUntypedDeducedMap] tests. *)
#[warnings="-register-all"]
Inductive TypeRef :=
  mkTypeRef (NamedType : option string) (Inlined : Atom) (ER : option ERPtr)
with Atom :=
  mkAtom (a_Scalar : option Scalar) (a_List : option ListT) (a_Map : option MapT)
with ListT :=
  mkListT (ElementType : TypeRef) (ER : ElementRelationship) (Keys : list string)
with MapT :=
  mkMapT (Fields : option (list StructField)) (Unions : list Union)
    (ElementType : TypeRef) (ER : ElementRelationship)
with StructField :=
  mkStructField (Name : string) (Type_ : TypeRef) (Default : option value).

Definition tr_NamedType (t : TypeRef) := let 'mkTypeRef n _ _ := t in n.
Definition tr_Inlined (t : TypeRef) := let 'mkTypeRef _ a _ := t in a.
Definition tr_ER (t : TypeRef) := let 'mkTypeRef _ _ e := t in e.
Definition a_Scalar (a : Atom) := let 'mkAtom s _ _ := a in s.
Definition a_List (a : Atom) := let 'mkAtom _ l _ := a in l.
Definition a_Map (a : Atom) := let 'mkAtom _ _ m := a in m.
Definition l_ElementType (l : ListT) := let 'mkListT t _ _ := l in t.
Definition l_ER (l : ListT) := let 'mkListT _ e _ := l in e.
Definition l_Keys (l : ListT) := let 'mkListT _ _ k := l in k.
Definition m_Fields (m : MapT) := let 'mkMapT f _ _ _ := m in f.
Definition m_Unions (m : MapT) := let 'mkMapT _ u _ _ := m in u.
Definition m_ElementType (m : MapT) := let 'mkMapT _ _ t _ := m in t.
Definition m_ER (m : MapT) := let 'mkMapT _ _ _ e := m in e.
Definition sf_Name (f : StructField) := let 'mkStructField n _ _ := f in n.
Definition sf_Type (f : StructField) := let 'mkStructField _ t _ := f in t.
Definition sf_Default (f : StructField) := let 'mkStructField _ _ d := f in d.

(** The zero values [Atom{}] and [TypeRef{}]. *)
Definition Atom0 : Atom := mkAtom None None None.
Definition TypeRef0 : TypeRef := mkTypeRef None Atom0 None.

(** [tr == schema.TypeRef{}]: every pointer of the struct is nil. *)
Definition TypeRef_isZero (t : TypeRef) : bool :=
  match t with
  | mkTypeRef None (mkAtom None None None) None => true
  | _ => false
  end.

Record TypeDef := mkTypeDef { td_Name : string; td_Atom : Atom }.

(** The named types of a schema. *)
Record Schema := mkSchema { Types : list TypeDef }.

(** The elements a range over [Fields] visits. *)
Definition fields_of (m : MapT) : list StructField := default [] (m_Fields m).

(** The index of the fields by name, a later field replacing an earlier one. *)
Definition fieldIndex (m : MapT) : list (string * StructField) :=
  foldl (fun idx field => assoc_set (sf_Name field) field idx) [] (fields_of m).

Definition FindField (m : MapT) (name : string) : option StructField :=
  assoc_get name (fieldIndex m).

Definition FindNamedType (s : Schema) (name : string) : option TypeDef :=
  assoc_get name (foldl (fun idx t => assoc_set (td_Name t) t idx) [] (Types s)).

Definition resolveNoOverrides (s : Schema) (tr : TypeRef) : option Atom :=
  match tr_NamedType tr with
  | Some name =>
    match FindNamedType s name with
    | None => None
    | Some t => Some (td_Atom t)
    end
  | None => Some (tr_Inlined tr)
  end.

(** [CopyInto] a fresh map, then the override of the relationship. *)
Definition Map_withER (m : MapT) (er : ElementRelationship) : MapT :=
  mkMapT (m_Fields m) (m_Unions m) (m_ElementType m) er.
Definition List_withER (l : ListT) (er : ElementRelationship) : ListT :=
  mkListT (l_ElementType l) er (l_Keys l).

(** The computation of [Resolve] behind its cache. *)
Definition resolveOverride (s : Schema) (tr : TypeRef) (er : ElementRelationship) : option Atom :=
  match resolveNoOverrides s tr with
  | Some result =>
    match a_Map result, a_List result with
    | Some m, _ => Some (mkAtom (a_Scalar result) (a_List result) (Some (Map_withER m er)))
    | None, Some l => Some (mkAtom (a_Scalar result) (Some (List_withER l er)) (a_Map result))
    | None, None => None
    end
  | None => None
  end.

(** [Resolve], without the cache. *)
Definition Resolve (s : Schema) (tr : TypeRef) : option Atom :=
  match tr_ER tr with
  | None => resolveNoOverrides s tr
  | Some er => resolveOverride s tr (er_target er)
  end.

(** ** The cache of Resolve *)
Section Cache.
(** [==] on the keys of [resolvedTypes]: all their pointers are the same. *)
Variable same : TypeRef -> TypeRef -> bool.

Fixpoint cache_get (tr : TypeRef) (resolvedTypes : list (TypeRef * Atom)) : option Atom :=
  match resolvedTypes with
  | [] => None
  | (tr', a) :: rest => if same tr tr' then Some a else cache_get tr rest
  end.

(** [Resolve] with the state of [resolvedTypes]. *)
Definition ResolveCached (s : Schema) (tr : TypeRef) (resolvedTypes : list (TypeRef * Atom)) :
    option Atom * list (TypeRef * Atom) :=
  match tr_ER tr with
  | None => (resolveNoOverrides s tr, resolvedTypes)
  | Some er =>
    match cache_get tr resolvedTypes with
    | Some result => (Some result, resolvedTypes)
    | None =>
      match resolveOverride s tr (er_target er) with
      | None => (None, resolvedTypes)
      | Some result => (Some result, (tr, result) :: resolvedTypes)
      end
    end
  end.

(** References with the same pointers are the same reference. *)
Hypothesis same_eq : forall a b, same a b = true -> a = b.

Definition cache_ok (s : Schema) (resolvedTypes : list (TypeRef * Atom)) : Prop :=
  Forall (fun e => Resolve s e.1 = Some e.2) resolvedTypes.

Lemma cache_get_ok s tr c a : cache_ok s c -> cache_get tr c = Some a -> Resolve s tr = Some a.
Proof.
  induction 1 as [|[tr' a'] c H F IH]; simpl; [done|].
  destruct (same tr tr') eqn:E; [|done]. apply same_eq in E as ->. by intros [= <-].
Qed.

Lemma ResolveCached_spec s tr c :
  cache_ok s c ->
  (ResolveCached s tr c).1 = Resolve s tr /\ cache_ok s (ResolveCached s tr c).2.
Proof.
  intros Hc. unfold ResolveCached.
  destruct (tr_ER tr) as [er|] eqn:Eer; [|by unfold Resolve; rewrite Eer].
  destruct (cache_get tr c) as [a|] eqn:Eg; [by rewrite (cache_get_ok s tr c a)|].
  assert (E : Resolve s tr = resolveOverride s tr (er_target er)) by (unfold Resolve; by rewrite Eer).
  destruct (resolveOverride s tr (er_target er)) as [a|]; [|done].
  split; [done|]. by constructor.
Qed.
End Cache.

(** ** equals.go *)

(** [reflect.DeepEqual] of two [interface{}] values that hold unstructured data. *)
Fixpoint DeepEqual (a b : value) : bool :=
  match a, b with
  | VNull, VNull => true
  | VBool x, VBool y => Bool.eqb x y
  | VInt ka x, VInt kb y =>
    match ka, kb with
    | KInt, KInt | KInt8, KInt8 | KInt16, KInt16 | KInt32, KInt32 | KInt64, KInt64
    | KUint, KUint | KUint8, KUint8 | KUint16, KUint16 | KUint32, KUint32
    | KUint64, KUint64 => x =? y
    | _, _ => false
    end
  | VFloat32 x, VFloat32 y => float_eqb x y
  | VFloat64 x, VFloat64 y => float_eqb x y
  | VString x, VString y => string_eqb x y
  | VList x, VList y =>
    (fix go (x y : list value) : bool :=
      match x, y with
      | [], [] => true
      | v :: x', w :: y' => DeepEqual v w && go x' y'
      | _, _ => false
      end) x y
  | VMap x, VMap y =>
    (length x =? length y)%nat &&
    forallb (fun kv => match assoc_get kv.1 y with Some w => DeepEqual kv.2 w | None => false end) x
  | _, _ => false
  end.

Definition Default_Equals (a b : option value) : bool :=
  match a, b with
  | None, None => true
  | Some v, Some w => DeepEqual v w
  | _, _ => false
  end.

Definition option_is_nil {A} (o : option A) : bool := match o with None => true | Some _ => false end.

(** [==] on pointers. *)
Definition ERPtr_eqb (a b : option ERPtr) : bool :=
  match a, b with
  | None, None => true
  | Some x, Some y => (er_addr x =? er_addr y)%nat
  | _, _ => false
  end.

Definition UnionField_Equals (a b : UnionField) : bool :=
  if negb (string_eqb (uf_FieldName a) (uf_FieldName b)) then false
  else if negb (string_eqb (uf_DiscriminatorValue a) (uf_DiscriminatorValue b)) then false
  else true.

(** The loop over two slices of the same length. *)
Fixpoint slicesEqual {A} (eq : A -> A -> bool) (a b : list A) : bool :=
  match a, b with
  | x :: a', y :: b' => if negb (eq x y) then false else slicesEqual eq a' b'
  | _, _ => true
  end.

Definition Union_Equals (a b : Union) : bool :=
  if negb (Bool.eqb (option_is_nil (un_Discriminator a)) (option_is_nil (un_Discriminator b))) then false
  else if match un_Discriminator a, un_Discriminator b with
    | Some x, Some y => negb (string_eqb x y) | _, _ => false end then false
  else if negb (Bool.eqb (un_DeduceInvalidDiscriminator a) (un_DeduceInvalidDiscriminator b)) then false
  else if negb (length (un_Fields a) =? length (un_Fields b))%nat then false
  else slicesEqual UnionField_Equals (un_Fields a) (un_Fields b).

Fixpoint TypeRef_Equals (a b : TypeRef) {struct a} : bool :=
  let 'mkTypeRef aName aInlined aER := a in
  if negb (Bool.eqb (option_is_nil aName) (option_is_nil (tr_NamedType b))) then false
  else if match aName, tr_NamedType b with
    | Some x, Some y => negb (string_eqb x y) | _, _ => false end then false
  else if negb (ERPtr_eqb aER (tr_ER b)) then false
  else Atom_Equals aInlined (tr_Inlined b)
with Atom_Equals (a b : Atom) {struct a} : bool :=
  let 'mkAtom aScalar aList aMap := a in
  if negb (Bool.eqb (option_is_nil aScalar) (option_is_nil (a_Scalar b))) then false
  else if negb (Bool.eqb (option_is_nil aList) (option_is_nil (a_List b))) then false
  else if negb (Bool.eqb (option_is_nil aMap) (option_is_nil (a_Map b))) then false
  else
    match aScalar, a_Scalar b with
    | Some x, Some y => string_eqb x y
    | _, _ =>
      match aList, a_List b with
      | Some x, Some y => List_Equals x y
      | _, _ =>
        match aMap, a_Map b with
        | Some x, Some y => Map_Equals x y
        | _, _ => true
        end
      end
    end
with List_Equals (a b : ListT) {struct a} : bool :=
  let 'mkListT aElem aER aKeys := a in
  if negb (TypeRef_Equals aElem (l_ElementType b)) then false
  else if negb (string_eqb aER (l_ER b)) then false
  else if negb (length aKeys =? length (l_Keys b))%nat then false
  else slicesEqual string_eqb aKeys (l_Keys b)
with Map_Equals (a b : MapT) {struct a} : bool :=
  let 'mkMapT aFields aUnions aElem aER := a in
  if negb (TypeRef_Equals aElem (m_ElementType b)) then false
  else if negb (string_eqb aER (m_ER b)) then false
  else if negb (match aFields with Some f => length f | None => 0%nat end =? length (fields_of b))%nat
  then false
  else if negb (match aFields with
    | Some f =>
      (fix fieldsEq (f g : list StructField) {struct f} : bool :=
        match f, g with
        | x :: f', y :: g' => if negb (StructField_Equals x y) then false else fieldsEq f' g'
        | _, _ => true
        end) f (fields_of b)
    | None => true
    end) then false
  else if negb (length aUnions =? length (m_Unions b))%nat then false
  else slicesEqual Union_Equals aUnions (m_Unions b)
with StructField_Equals (a b : StructField) {struct a} : bool :=
  let 'mkStructField aName aType aDefault := a in
  if negb (string_eqb aName (sf_Name b)) then false
  else if negb (Default_Equals aDefault (sf_Default b)) then false
  else TypeRef_Equals aType (sf_Type b).

Definition TypeDef_Equals (a b : TypeDef) : bool :=
  if negb (string_eqb (td_Name a) (td_Name b)) then false
  else Atom_Equals (td_Atom a) (td_Atom b).

Definition Schema_Equals (a b : Schema) : bool :=
  if negb (length (Types a) =? length (Types b))%nat then false
  else slicesEqual TypeDef_Equals (Types a) (Types b).
