(* ===== verification/SchemaIndex.v ===== *)
(** * Package schema: the state of a schema

    A [Schema] builds an index of its types on the first search, guarded by a
    [sync.Once], and remembers the references that [Resolve] overrides; a [Map]
    indexes its fields the same way.  [CopyInto] copies them.  Here these are
    the state of a schema, and the searches are state passing; the theorems say
    that they give what Schema.v computes from the types alone. *)
From S2P Require Import Prelude GoLib GoFloat Value ValueOrder Schema.

(** ** An index that is built once *)

(** [sync.Once] with the map that it guards; [None] is the nil map. *)
Record Lazy (A : Type) := mkLazy { consumed : bool; index : option (list (string * A)) }.
#[global] Arguments mkLazy {A} consumed index.
#[global] Arguments consumed {A} l.
#[global] Arguments index {A} l.

Definition Lazy0 {A} : Lazy A := mkLazy false None.

(** [once.Do]: builds the index unless that has been done. *)
Definition once_Do {A} (build : list (string * A)) (l : Lazy A) : Lazy A :=
  if consumed l then l else mkLazy true (Some build).

(** A lookup in a map; the nil map has no entries. *)
Definition index_get {A} (name : string) (l : Lazy A) : option A := assoc_get name (default [] (index l)).

(** The copy of an index: nothing for a nil map, else a new [sync.Once] that is consumed. *)
Definition copyIndex {A} (src dst : Lazy A) : Lazy A :=
  match index src with Some m => once_Do m Lazy0 | None => dst end.

(** ** Maps *)

Record MapState := mkMapState { ms_Map : MapT; ms_m : Lazy StructField }.

Definition MapState_FindField (m : MapState) (name : string) : option StructField * MapState :=
  let l := once_Do (fieldIndex (ms_Map m)) (ms_m m) in
  (index_get name l, mkMapState (ms_Map m) l).

(** [Map.CopyInto]; [None] is a nil destination. *)
Definition Map_CopyInto (m : MapState) (dst : option MapState) : option MapState :=
  (fun dst => mkMapState
    (mkMapT (m_Fields (ms_Map m)) (m_Unions (ms_Map m)) (m_ElementType (ms_Map m)) (m_ER (ms_Map m)))
    (copyIndex (ms_m m) (ms_m dst))) <$> dst.

(** ** Schemas *)

Record SchemaState := mkSchemaState {
  ss_Types : list TypeDef;
  ss_m : Lazy TypeDef;
  ss_resolvedTypes : list (TypeRef * Atom);
}.

Definition typeIndex (types : list TypeDef) : list (string * TypeDef) :=
  foldl (fun idx t => assoc_set (td_Name t) t idx) [] types.

(** A schema that has not been searched. *)
Definition newSchema (types : list TypeDef) : SchemaState := mkSchemaState types Lazy0 [].

Definition State_FindNamedType (s : SchemaState) (name : string) : option TypeDef * SchemaState :=
  let l := once_Do (typeIndex (ss_Types s)) (ss_m s) in
  (index_get name l, mkSchemaState (ss_Types s) l (ss_resolvedTypes s)).

Definition State_resolveNoOverrides (s : SchemaState) (tr : TypeRef) : option Atom * SchemaState :=
  match tr_NamedType tr with
  | Some name =>
    let '(t, s) := State_FindNamedType s name in
    match t with
    | None => (None, s)
    | Some t => (Some (td_Atom t), s)
    end
  | None => (Some (tr_Inlined tr), s)
  end.

(** The override of the relationship, in a copy of the map or list. *)
Definition overrideER (result : Atom) (er : ElementRelationship) : option Atom :=
  match a_Map result, a_List result with
  | Some m, _ => Some (mkAtom (a_Scalar result) (a_List result) (Some (Map_withER m er)))
  | None, Some l => Some (mkAtom (a_Scalar result) (Some (List_withER l er)) (a_Map result))
  | None, None => None
  end.

Section Resolve.
(** [==] on the keys of [resolvedTypes]: all their pointers are the same. *)
Variable same : TypeRef -> TypeRef -> bool.

Definition State_Resolve (s : SchemaState) (tr : TypeRef) : option Atom * SchemaState :=
  match tr_ER tr with
  | None => State_resolveNoOverrides s tr
  | Some er =>
    match cache_get same tr (ss_resolvedTypes s) with
    | Some result => (Some result, s)
    | None =>
      let '(result, s) := State_resolveNoOverrides s tr in
      match result with
      | None => (None, s)
      | Some result =>
        match overrideER result (er_target er) with
        | None => (None, s)
        | Some result => (Some result, mkSchemaState (ss_Types s) (ss_m s) ((tr, result) :: ss_resolvedTypes s))
        end
      end
    end
  end.
End Resolve.

(** [Schema.CopyInto]; [None] is a nil destination. *)
Definition Schema_CopyInto (s : SchemaState) (dst : option SchemaState) : option SchemaState :=
  (fun dst => mkSchemaState (ss_Types s) (copyIndex (ss_m s) (ss_m dst)) (ss_resolvedTypes dst)) <$> dst.

(** ** Correct states *)

(** An index is absent before its [sync.Once] is consumed, and complete afterwards. *)
Definition lazy_ok {A} (build : list (string * A)) (l : Lazy A) : Prop :=
  index l = if consumed l then Some build else None.

Lemma once_Do_ok {A} (build : list (string * A)) l :
  lazy_ok build l -> lazy_ok build (once_Do build l) /\ forall name, index_get name (once_Do build l) = assoc_get name build.
Proof. unfold lazy_ok, once_Do, index_get. destruct l as [[] i]; intros E; cbn in *; [by rewrite E|done]. Qed.

Lemma copyIndex_ok {A} (build : list (string * A)) src : lazy_ok build src -> lazy_ok build (copyIndex src Lazy0).
Proof. unfold lazy_ok, copyIndex. destruct src as [[] i]; cbn; intros ->; done. Qed.

Definition schema_ok (s : SchemaState) : Prop :=
  lazy_ok (typeIndex (ss_Types s)) (ss_m s) /\ cache_ok (mkSchema (ss_Types s)) (ss_resolvedTypes s).

Lemma newSchema_ok types : schema_ok (newSchema types).
Proof. split; [done|constructor]. Qed.

Lemma FindNamedType_ok s name :
  schema_ok s ->
  (State_FindNamedType s name).1 = FindNamedType (mkSchema (ss_Types s)) name /\
  schema_ok (State_FindNamedType s name).2 /\ ss_Types (State_FindNamedType s name).2 = ss_Types s.
Proof.
  intros [Hl Hc]. destruct (once_Do_ok _ _ Hl) as [Hl' Hg]. split; [apply Hg|]. by split.
Qed.

Lemma resolveNoOverrides_ok s tr :
  schema_ok s ->
  (State_resolveNoOverrides s tr).1 = resolveNoOverrides (mkSchema (ss_Types s)) tr /\
  schema_ok (State_resolveNoOverrides s tr).2 /\ ss_Types (State_resolveNoOverrides s tr).2 = ss_Types s.
Proof.
  intros H. unfold State_resolveNoOverrides, resolveNoOverrides. destruct (tr_NamedType tr) as [name|]; [|done].
  destruct (FindNamedType_ok s name H) as (E & H' & Et). destruct (State_FindNamedType s name) as [t s']. cbn [fst snd] in E, H', Et. rewrite <-E. by destruct t.
Qed.

Lemma Resolve_ok same s tr :
  (forall a b, same a b = true -> a = b) -> schema_ok s ->
  (State_Resolve same s tr).1 = Resolve (mkSchema (ss_Types s)) tr /\
  schema_ok (State_Resolve same s tr).2 /\ ss_Types (State_Resolve same s tr).2 = ss_Types s.
Proof.
  intros Hs H. destruct (resolveNoOverrides_ok s tr H) as (E & H' & Et). unfold State_Resolve, Resolve.
  destruct (tr_ER tr) as [er|] eqn:Eer; [|done]. destruct (cache_get same tr (ss_resolvedTypes s)) as [a|] eqn:Ec.
  { split; [|done]. destruct H as [_ Hc]. pose proof (cache_get_ok same Hs _ tr _ a Hc Ec) as Er. unfold Resolve in Er. by rewrite Eer in Er. }
  unfold resolveOverride. destruct (State_resolveNoOverrides s tr) as [r s']. cbn [fst snd] in E, H', Et. rewrite <-E.
  destruct r as [result|]; [|done]. fold (overrideER result (er_target er)). destruct (overrideER result (er_target er)) as [a|] eqn:Eo; [|done].
  split; [done|]. split; [|done]. destruct H' as [Hl Hc]. split; [done|]. constructor; [|done]. cbn [fst snd ss_Types].
  unfold Resolve, resolveOverride. rewrite Eer, Et, <-E. exact Eo.
Qed.

Lemma Schema_CopyInto_ok s types' dst :
  schema_ok s -> Schema_CopyInto s (Some (newSchema types')) = Some dst -> schema_ok dst /\ ss_Types dst = ss_Types s.
Proof. intros [Hl Hc] [= <-]. split; [|done]. split; [by apply copyIndex_ok|constructor]. Qed.

(** ** Histories of a schema *)

(** A schema as it is built, searched, and copied into schemas that have not been searched. *)
Inductive schema_history (same : TypeRef -> TypeRef -> bool) (types : list TypeDef) : SchemaState -> Prop :=
  | history_new : schema_history same types (newSchema types)
  | history_find s name : schema_history same types s -> schema_history same types (State_FindNamedType s name).2
  | history_resolve s tr : schema_history same types s -> schema_history same types (State_Resolve same s tr).2
  | history_copy s types' dst :
      schema_history same types s -> Schema_CopyInto s (Some (newSchema types')) = Some dst -> schema_history same types dst.

Lemma schema_history_ok same types s :
  (forall a b, same a b = true -> a = b) -> schema_history same types s -> schema_ok s /\ ss_Types s = types.
Proof.
  intros Hs. induction 1 as [|s name _ [H E]|s tr _ [H E]|s types' dst _ [H E] Hd].
  - split; [apply newSchema_ok|done].
  - destruct (FindNamedType_ok s name H) as (_ & H' & E'). by rewrite E', E.
  - destruct (Resolve_ok same s tr Hs H) as (_ & H' & E'). by rewrite E', E.
  - destruct (Schema_CopyInto_ok s types' dst H Hd) as [H' E']. by rewrite E', E.
Qed.

(** A map and its copies. *)
Inductive map_history (m : MapT) : MapState -> Prop :=
  | map_new : map_history m (mkMapState m Lazy0)
  | map_find s name : map_history m s -> map_history m (MapState_FindField s name).2
  | map_copy s m' dst : map_history m s -> Map_CopyInto s (Some (mkMapState m' Lazy0)) = Some dst -> map_history m dst.

Lemma map_history_ok m s : map_history m s -> lazy_ok (fieldIndex m) (ms_m s) /\ ms_Map s = m.
Proof.
  induction 1 as [|s name _ [H E]|s m' dst _ [H E] Hd]; [done| |].
  - cbn. rewrite E. by destruct (once_Do_ok _ _ H).
  - injection Hd as <-. cbn. split; [by apply copyIndex_ok|]. by rewrite E; destruct m.
Qed.
