(* ===== verification/FieldSetSchema.v ===== *)
(** * Package fieldpath: EnsureNamedFieldsAreMembers

    The schema-directed operation of [fieldpath/set.go]: every named field on
    the way to a member becomes a member itself. *)
From S2P Require Import Prelude GoLib GoFloat Value ValueOrder PathElement SortedSlice FieldSet.
From S2P Require Import FieldSetSpec FieldSetOps FieldSetInsert FieldSetIter Schema.

(** [atom, _ := sc.Resolve(tr)]. *)
Definition resolveOrZero (sc : Schema) (tr : TypeRef) : Atom := default Atom0 (Resolve sc tr).

(** Is this child a field the schema names? *)
Definition isNamedField (atom : Atom) (pe : PathElement) : bool :=
  match FieldName pe, a_Map atom with
  | Some name, Some m => match FindField m name with Some _ => true | None => false end
  | _, _ => false
  end.

(** The type reference of the children under [pe]. *)
Definition childTypeRef (atom : Atom) (pe : PathElement) : TypeRef :=
  match FieldName pe, a_Map atom with
  | Some name, Some m =>
    match FindField m name with
    | Some sf => sf_Type sf
    | None => m_ElementType m
    end
  | _, _ =>
    match Key pe, a_List atom with
    | Some _, Some l => l_ElementType l
    | _, _ => TypeRef0
    end
  end.

Section EnsureNamed.
Variable ensureNamed : TypeRef -> FSet -> FSet.
Variable sc : Schema.

Definition SetNodeMap_EnsureNamedFieldsAreMembers (tr : TypeRef) (s : SetNodeMap) : SetNodeMap :=
  let atom := resolveOrZero sc tr in
  (fun member => (member.1, ensureNamed (childTypeRef atom member.1) member.2)) <$> s.
End EnsureNamed.

Fixpoint Set_EnsureNamedFieldsAreMembers (sc : Schema) (tr : TypeRef) (s : FSet) : FSet :=
  let (m, c) := s in
  let atom := resolveOrZero sc tr in
  mkSet
    (foldl (fun members node =>
      if isNamedField atom node.1 then PathElementSet_Insert members node.1 else members) m c)
    (SetNodeMap_EnsureNamedFieldsAreMembers (Set_EnsureNamedFieldsAreMembers sc) sc tr c).

(** ** What it computes *)

(** There is a node of the trie at the path. *)
Fixpoint has_node (s : FSet) (p : Path) : bool :=
  match p with
  | [] => true
  | pe :: p' => match child pe s with Some s' => has_node s' p' | None => false end
  end.

(** The schema names the field the (non-empty) path ends in. *)
Fixpoint is_named (sc : Schema) (tr : TypeRef) (p : Path) : bool :=
  match p with
  | [] => false
  | [pe] => isNamedField (resolveOrZero sc tr) pe
  | pe :: p' => is_named sc (childTypeRef (resolveOrZero sc tr) pe) p'
  end.

Section Spec.
Context (r : Regime) (sc : Schema).
Implicit Types (s : FSet) (pe : PathElement) (p : Path).

Lemma PathElement_Equals_shape pe pe' :
  PathElement_Equals pe pe' = true ->
  FieldName pe = FieldName pe' /\ (FieldName pe = None -> option_is_nil (Key pe) = option_is_nil (Key pe')).
Proof.
  unfold PathElement_Equals. destruct (FieldName pe), (FieldName pe'); try done.
  - intros ->%string_eqb_true. done.
  - by destruct (Key pe), (Key pe').
Qed.

Lemma isNamedField_Equals atom pe pe' :
  PathElement_Equals pe pe' = true -> isNamedField atom pe = isNamedField atom pe'.
Proof. intros [E _]%PathElement_Equals_shape. unfold isNamedField. by rewrite E. Qed.

Lemma childTypeRef_Equals atom pe pe' :
  pe_dom r pe -> pe_dom r pe' ->
  PathElement_Equals pe pe' = true -> childTypeRef atom pe = childTypeRef atom pe'.
Proof.
  intros [[S _]%andb_true_iff _]%andb_true_iff [[S' _]%andb_true_iff _]%andb_true_iff.
  unfold pe_single in S, S'. intros [E K]%PathElement_Equals_shape. unfold childTypeRef.
  rewrite <-E in *.
  destruct (FieldName pe) as [name|]; [|specialize (K eq_refl)];
    by destruct (Key pe), (Key pe'), (a_List atom).
Qed.

(** The members of the node, and the named children. *)
Lemma ensure_members atom m c :
  pes_ok r m = true -> Forall (fun n => pe_dom r n.1) c ->
  let m' := foldl (fun members (node : PathElement * FSet) =>
    if isNamedField atom node.1 then PathElementSet_Insert members node.1 else members) m c in
  pes_ok r m' = true /\
  forall pe, pe_dom r pe ->
    pes_mem pe m' = pes_mem pe m ||
      (isNamedField atom pe && match slice_find fst pe c with Some _ => true | None => false end).
Proof.
  revert m. induction c as [|n c IH]; intros m Hm F; simpl.
  { split; [done|]. intros pe _. by rewrite andb_false_r, orb_false_r. }
  apply Forall_cons in F as [Hn F].
  destruct (IH (if isNamedField atom n.1 then PathElementSet_Insert m n.1 else m)) as [IH1 IH2].
  { destruct (isNamedField atom n.1); [by apply PathElementSet_Insert_ok|done]. }
  { done. }
  split; [exact IH1|]. intros pe Hpe. rewrite IH2 by done.
  destruct (PathElement_Equals n.1 pe) eqn:E.
  - rewrite <-(isNamedField_Equals atom n.1 pe E).
    destruct (isNamedField atom n.1); simpl; [|done].
    rewrite (pes_mem_Insert r), E by done. simpl. by rewrite orb_true_r.
  - destruct (isNamedField atom n.1); [|done]. by rewrite (pes_mem_Insert r), E by done.
Qed.

Lemma ensure_find (f : PathElement -> FSet -> FSet) (c : SetNodeMap) pe :
  slice_find fst pe ((fun member => (member.1, f member.1 member.2)) <$> c) =
  (fun n => (n.1, f n.1 n.2)) <$> slice_find fst pe c.
Proof.
  induction c as [|n c IH]; [done|]. rewrite fmap_cons. simpl.
  by destruct (PathElement_Equals n.1 pe).
Qed.

Lemma Set_EnsureNamed_wf tr s :
  Set_wf r s = true -> Set_wf r (Set_EnsureNamedFieldsAreMembers sc tr s) = true.
Proof.
  revert tr. induction s as [m c IH] using FSet_nested_ind. intros tr (Hm & Hc & Fc)%Set_wf_mk.
  cbn [Set_EnsureNamedFieldsAreMembers]. apply Set_wf_mk. split_and!.
  - apply ensure_members; [done|]. by apply slice_ok_dom.
  - eapply (slice_ok_keys fst r c); [|done]. unfold SetNodeMap_EnsureNamedFieldsAreMembers.
    by rewrite <-list_fmap_compose.
  - unfold SetNodeMap_EnsureNamedFieldsAreMembers. apply Forall_fmap.
    rewrite Forall_forall in IH. rewrite Forall_forall in Fc. apply Forall_forall.
    intros n Hn. by apply IH, Fc.
Qed.

Lemma Set_EnsureNamed_Has tr s p :
  Set_wf r s = true -> Forall (pe_dom r) p ->
  Set_Has (Set_EnsureNamedFieldsAreMembers sc tr s) p =
  Set_Has s p || (has_node s p && is_named sc tr p).
Proof.
  intros Hs Hp. revert tr s Hs.
  induction Hp as [|pe p Hpe Hp IH]; intros tr [m c] Hs; [by rewrite andb_false_r|].
  pose proof (Set_EnsureNamed_wf tr _ Hs) as HE. pose proof Hs as (Hm & Hc & Fc)%Set_wf_mk.
  pose proof (slice_ok_dom _ _ _ Hc) as D. destruct p as [|q p].
  - rewrite !(Set_Has_single r) by done.
    cbn [Set_EnsureNamedFieldsAreMembers Members has_node is_named].
    rewrite (proj2 (ensure_members _ m c Hm D)) by done. f_equal. unfold child. cbn [Children].
    by destruct (slice_find fst pe c); rewrite ?andb_true_r, ?andb_false_r.
  - rewrite !(Set_Has_cons r) by done. pose proof (child_wf r (mkSet m c) pe) as W.
    cbn [has_node]. unfold child in *.
    cbn [Set_EnsureNamedFieldsAreMembers Children] in *.
    unfold SetNodeMap_EnsureNamedFieldsAreMembers.
    rewrite (ensure_find (fun k => Set_EnsureNamedFieldsAreMembers sc (childTypeRef (resolveOrZero sc tr) k))).
    destruct (slice_find fst pe c) as [n|] eqn:En; [|done].
    cbn [fmap option_fmap option_map fst snd] in *.
    rewrite IH by (by apply W). apply slice_find_Some in En as [Hin En].
    rewrite Forall_forall in D.
    by rewrite (childTypeRef_Equals (resolveOrZero sc tr) n.1 pe) by auto.
Qed.

Lemma Set_EnsureNamed_ok tr s :
  Set_ok r s = true -> Set_ok r (Set_EnsureNamedFieldsAreMembers sc tr s) = true.
Proof.
  revert tr. induction s as [m c IH] using FSet_nested_ind. intros tr Hs.
  pose proof Hs as [Hw _]%Set_ok_iff. apply Set_ok_iff. split; [by apply Set_EnsureNamed_wf|].
  apply Set_ok_mk in Hs as (_ & _ & F). cbn [Set_EnsureNamedFieldsAreMembers].
  apply Set_full_mk. unfold SetNodeMap_EnsureNamedFieldsAreMembers. apply Forall_fmap.
  rewrite Forall_forall in IH. rewrite Forall_forall in F. apply Forall_forall. intros n Hn.
  destruct (F n Hn) as [HE Hn']. simpl. pose proof Hn' as [Hnw _]%Set_ok_iff. split.
  - apply (Set_Empty_mono r n.2); [done|done|]. intros p Hp Hh.
    by rewrite Set_EnsureNamed_Has, Hh.
  - by pose proof (IH n Hn (childTypeRef (resolveOrZero sc tr) n.1) Hn') as [_ ?]%Set_ok_iff.
Qed.
End Spec.
