(* ===== verification/TypedHelpers.v ===== *)
(** * Package typed: errors, type resolution and list keys

    Models [typed/helpers.go].  A nil [value.Value] is [None]; a call of a
    method on it panics, which is the outcome [Panic].  An error message is its
    kind with the arguments that identify it, and the textual path of a
    [ValidationError] is the list of the path elements it is built from. *)
From S2P Require Import Prelude GoLib GoFloat Value ValueOrder PathElement SortedSlice FieldSet.
From S2P Require Import Schema.

(** ** Outcomes *)

(** A Go call returns or panics. *)
Inductive Outcome (A : Type) := Panic | Ret (a : A).
#[global] Arguments Panic {A}.
#[global] Arguments Ret {A} a.

#[export] Instance Outcome_ret : MRet Outcome := @Ret.
#[export] Instance Outcome_bind : MBind Outcome := fun A B f m =>
  match m with Panic => Panic | Ret a => f a end.

(** ** Errors *)

Inductive DefaultError := ErrInvalidElementType | ErrNonMapElementType.

Inductive ItemError :=
  | ErrNullElement
  | ErrNonMapElement
  | ErrNoDefault (fieldName : string) (err : DefaultError)
  | ErrOmitsKey (fieldName : string)
  | ErrSetOfMaps
  | ErrSetOfLists
  | ErrSetNull
  | ErrNonAssociativeList.

(** Which operand a scalar error is about: the [prefix] argument. *)
Inductive Side := NoSide | LHS | RHS.

Inductive ErrorMessage :=
  | MsgNoType (typeName : option string)
  | MsgInvalidAtom (typeName : option string)
  | MsgExpectedList
  | MsgExpectedMap
  | MsgExpectedNumeric (side : Side)
  | MsgExpectedString (side : Side)
  | MsgExpectedBoolean (side : Side)
  | MsgExpectedScalar (side : Side)
  | MsgUnexpectedScalarType (side : Side) (t : Scalar)
  | MsgElement (i : nat) (err : ItemError)
  | MsgDuplicate (pe : PathElement)
  | MsgNotDeclared
  | MsgBothNil
  | MsgDifferentSchemas
  | MsgDifferentTypes
  | MsgUnresolved (tr : TypeRef).

Record ValidationError := mkValidationError {
  ve_Path : Path;
  ve_Message : ErrorMessage;
}.

Abbreviation ValidationErrors := (list ValidationError).

Definition errorf (msg : ErrorMessage) : ValidationErrors := [mkValidationError [] msg].

Definition WithPrefix (prefix : PathElement) (errs : ValidationErrors) : ValidationErrors :=
  (fun e => mkValidationError (prefix :: ve_Path e) (ve_Message e)) <$> errs.

(** [fn] is nil for the root. *)
Definition WithLazyPrefix (fn : option PathElement) (errs : ValidationErrors) : ValidationErrors :=
  match fn with
  | None => errs
  | Some prefix => WithPrefix prefix errs
  end.

(** ** Atoms *)

(** The interface [atomHandler], for a walker whose fields are the state [S]. *)
Record atomHandler (S : Type) := mkAtomHandler {
  doScalar : Scalar -> S -> Outcome (ValidationErrors * S);
  doList : ListT -> S -> Outcome (ValidationErrors * S);
  doMap : MapT -> S -> Outcome (ValidationErrors * S);
}.
#[global] Arguments mkAtomHandler {S}.
#[global] Arguments doScalar {S}.
#[global] Arguments doList {S}.
#[global] Arguments doMap {S}.

Definition deduceAtom (atom : Atom) (val : option value) : Atom :=
  match val with
  | None => atom
  | Some v =>
    if IsFloat v || IsInt v || IsString v || IsBool v then
      match a_Scalar atom with Some s => mkAtom (Some s) None None | None => atom end
    else if IsList v then
      match a_List atom with Some l => mkAtom None (Some l) None | None => atom end
    else if IsMap v then
      match a_Map atom with Some m => mkAtom None None (Some m) | None => atom end
    else atom
  end.

Definition handleAtom {S} (a : Atom) (tr : TypeRef) (ah : atomHandler S) (w : S) :
    Outcome (ValidationErrors * S) :=
  match a_Map a, a_Scalar a, a_List a with
  | Some m, _, _ => doMap ah m w
  | None, Some s, _ => doScalar ah s w
  | None, None, Some l => doList ah l w
  | None, None, None => Ret (errorf (MsgInvalidAtom (tr_NamedType tr)), w)
  end.

Definition resolveSchema {S} (s : Schema) (tr : TypeRef) (v : option value) (ah : atomHandler S) (w : S) :
    Outcome (ValidationErrors * S) :=
  match Resolve s tr with
  | None => Ret (errorf (MsgNoType (tr_NamedType tr)), w)
  | Some a => handleAtom (deduceAtom a v) tr ah w
  end.

(** ** Lists and maps *)

(** The list (nil for a null), or an error. *)
Definition listValue (val : option value) : Outcome (ErrorMessage + option (list value)) :=
  match val with
  | None => Panic
  | Some v =>
    if IsNull v then Ret (inr None)
    else if negb (IsList v) then Ret (inl MsgExpectedList)
    else Ret (inr (Some (AsList v)))
  end.

Definition mapValue (val : option value) : ErrorMessage + option Map :=
  match val with
  | None => inl MsgExpectedMap
  | Some v =>
    if IsNull v then inr None
    else if negb (IsMap v) then inl MsgExpectedMap
    else inr (Some (AsMap v))
  end.

Definition getAssociativeKeyDefault (s : Schema) (lt : ListT) (fieldName : string) :
    DefaultError + option value :=
  match Resolve s (l_ElementType lt) with
  | None => inl ErrInvalidElementType
  | Some atom =>
    match a_Map atom with
    | None => inl ErrNonMapElementType
    | Some m =>
      match FindField m fieldName with
      | Some field => inr (sf_Default field)
      | None => inr None
      end
    end
  end.

(** The loop over [list.Keys], with the keys gathered so far. *)
Fixpoint gatherKeys (s : Schema) (lt : ListT) (m : Map) (keys : list string) (keyMap : FieldList) :
    ItemError + FieldList :=
  match keys with
  | [] => inr keyMap
  | fieldName :: keys' =>
    match assoc_get fieldName m with
    | Some val => gatherKeys s lt m keys' (keyMap ++ [mkField fieldName val])
    | None =>
      match getAssociativeKeyDefault s lt fieldName with
      | inl err => inl (ErrNoDefault fieldName err)
      | inr (Some def) => gatherKeys s lt m keys' (keyMap ++ [mkField fieldName def])
      | inr None => inl (ErrOmitsKey fieldName)
      end
    end
  end.

Definition keyedAssociativeListItemToPathElement (s : Schema) (lt : ListT) (child : value) :
    ItemError + PathElement :=
  if IsNull child then inl ErrNullElement
  else if negb (IsMap child) then inl ErrNonMapElement
  else
    match gatherKeys s lt (AsMap child) (l_Keys lt) [] with
    | inl err => inl err
    | inr keyMap => inr (peKey (FieldList_Sort keyMap))
    end.

Definition setItemToPathElement (child : value) : ItemError + PathElement :=
  if IsMap child then inl ErrSetOfMaps
  else if IsList child then inl ErrSetOfLists
  else if IsNull child then inl ErrSetNull
  else inr (peValue child).

Definition listItemToPathElement (s : Schema) (lt : ListT) (child : value) : ItemError + PathElement :=
  if negb (string_eqb (l_ER lt) Associative) then inl ErrNonAssociativeList
  else if (0 <? length (l_Keys lt))%nat then keyedAssociativeListItemToPathElement s lt child
  else setItemToPathElement child.

(** [pe, _ := listItemToPathElement(...)]: the zero path element on an error. *)
Definition itemPE (s : Schema) (lt : ListT) (child : value) : PathElement :=
  match listItemToPathElement s lt child with inr pe => pe | inl _ => peZero end.

(** The type reference a walker gives to the field of a map: the declared type,
    or the type of the unknown fields. *)
Definition mapFieldType (t : MapT) (key : string) : TypeRef :=
  match FindField t key with Some sf => sf_Type sf | None => m_ElementType t end.

(** ** The keys of list items are comparable *)

Lemma gatherKeys_ok r s lt m keys keyMap fl :
  Forall (fun kv => value_ok r kv.2 = true) m ->
  (forall k v, getAssociativeKeyDefault s lt k = inr (Some v) -> value_ok r v = true) ->
  fieldlist_ok r keyMap = true ->
  gatherKeys s lt m keys keyMap = inr fl -> fieldlist_ok r fl = true.
Proof.
  intros Hm Hd. revert keyMap.
  assert (Happ : forall keyMap k v, fieldlist_ok r keyMap = true -> value_ok r v = true ->
    fieldlist_ok r (keyMap ++ [mkField k v]) = true).
  { intros keyMap k v H Hv. unfold fieldlist_ok in *. rewrite forallb_app, H. simpl. by rewrite Hv. }
  induction keys as [|k keys IH]; intros keyMap Hk; simpl; [by intros [= <-]|].
  destruct (assoc_get k m) as [v|] eqn:Ev.
  { apply IH, Happ; [done|]. apply assoc_get_Some in Ev. rewrite Forall_forall in Hm.
    by apply (Hm (k, v)). }
  destruct (getAssociativeKeyDefault s lt k) as [e|[v|]] eqn:Ed; [done| |done].
  apply IH, Happ; [done|]. by eapply Hd.
Qed.

(** The defaults the schema gives to the keys of a list are comparable. *)
Definition list_defaults_ok (r : Regime) (s : Schema) (lt : ListT) : Prop :=
  forall k v, getAssociativeKeyDefault s lt k = inr (Some v) -> value_ok r v = true.

Lemma itemPE_dom r s lt child :
  list_defaults_ok r s lt -> value_ok r child = true -> pe_dom r (itemPE s lt child).
Proof.
  intros Hd Hc. unfold itemPE, listItemToPathElement.
  destruct (negb _); [done|]. destruct (_ <? _)%nat.
  - unfold keyedAssociativeListItemToPathElement. destruct (IsNull child) eqn:En; [done|].
    destruct child as [| | | | | | |m]; try done. cbn [IsMap negb AsMap].
    destruct (gatherKeys s lt m (l_Keys lt) []) as [e|fl] eqn:Eg; [done|].
    apply value_ok_map in Hc as [_ Hm]. apply (gatherKeys_ok r) in Eg; [|done..].
    unfold pe_dom, pe_ok. cbn [pe_single FieldName Key PEValue Index peKey]. rewrite andb_true_r.
    eapply fieldlist_ok_perm; [symmetry; apply FieldList_Sort_perm|done].
  - unfold setItemToPathElement.
    destruct (IsMap child); [done|]. destruct (IsList child); [done|]. destruct (IsNull child); [done|].
    unfold pe_dom, pe_ok. simpl. exact Hc.
Qed.

Lemma listItemToPathElement_dom r s lt child pe :
  list_defaults_ok r s lt -> value_ok r child = true ->
  listItemToPathElement s lt child = inr pe -> pe_dom r pe.
Proof.
  intros Hd Hc E. pose proof (itemPE_dom r s lt child Hd Hc) as H. unfold itemPE in H. by rewrite E in H.
Qed.
