(* ===== verification/GoReflect.v ===== *)
(** * The parts of Go's reflection that package value relies on

    Types and values of a Go program as package [reflect] presents them.  A
    program declares struct types (which may refer to each other, and to
    themselves) and says which types have the methods that the code looks for;
    this is the parameter [GoProgram].  A value is a tree: what a pointer or an
    interface holds is a part of it, [GNil] is the nil of any type that has one.
    Maps have keys of string kind.  A [reflect.Value] is a value with its type
    and whether it is addressable. *)
From S2P Require Import Prelude GoLib GoFloat Value ValueOrder Schema TypedHelpers.

(** ** Types *)

#[warnings="-register-all"]
Inductive GoType :=
  | TBool
  | TInt (k : IntKind)
  | TUintptr
  | TFloat32
  | TFloat64
  | TString
  | TComplex
  | TSlice (elem : GoType)
  | TArray (len : nat) (elem : GoType)
  | TMap (key elem : GoType)
  | TPtr (elem : GoType)
  | TInterface
  | TChan
  | TFunc
  | TUnsafePointer
  | TStruct (name : string)
  | TNamed (name : string) (underlying : GoType).

#[export] Instance IntKind_eq_dec : EqDecision IntKind.
Proof. solve_decision. Defined.
#[export] Instance GoType_eq_dec : EqDecision GoType.
Proof. solve_decision. Defined.

(** [reflect.Kind]. *)
Inductive GoKind :=
  | KdBool | KdInt (k : IntKind) | KdUintptr | KdFloat32 | KdFloat64 | KdString | KdComplex
  | KdSlice | KdArray | KdMap | KdPtr | KdInterface | KdChan | KdFunc | KdUnsafePointer | KdStruct.

Fixpoint Type_Kind (t : GoType) : GoKind :=
  match t with
  | TBool => KdBool
  | TInt k => KdInt k
  | TUintptr => KdUintptr
  | TFloat32 => KdFloat32
  | TFloat64 => KdFloat64
  | TString => KdString
  | TComplex => KdComplex
  | TSlice _ => KdSlice
  | TArray _ _ => KdArray
  | TMap _ _ => KdMap
  | TPtr _ => KdPtr
  | TInterface => KdInterface
  | TChan => KdChan
  | TFunc => KdFunc
  | TUnsafePointer => KdUnsafePointer
  | TStruct _ => KdStruct
  | TNamed _ u => Type_Kind u
  end.

(** [Type.Elem] of a slice, array, map or pointer type. *)
Fixpoint Type_Elem (t : GoType) : GoType :=
  match t with
  | TSlice e | TArray _ e | TMap _ e | TPtr e => e
  | TNamed _ u => Type_Elem u
  | t => t
  end.

(** [reflect.StructField]: its name, its type and the value of its [json] tag. *)
Record StructFieldT := mkStructFieldT { f_Name : string; f_jsonTag : string; f_Type : GoType }.

(** ** Values *)

#[warnings="-register-all"]
Inductive GoVal :=
  | GNil
  | GBool (b : bool)
  | GInt (i : Z)
  | GFloat (f : spec_float)
  | GString (s : string)
  | GSlice (l : list GoVal)
  | GMap (m : list (string * GoVal))
  | GPtr (v : GoVal)
  | GIface (t : GoType) (v : GoVal)
  | GStruct (fields : list GoVal)
  | GOpaque.

Section GoValInd.
Context (P : GoVal -> Prop).
Hypothesis (Hnil : P GNil) (Hbool : forall b, P (GBool b)) (Hint : forall i, P (GInt i)) (Hfloat : forall f, P (GFloat f))
  (Hstr : forall s, P (GString s)) (Hslice : forall l, Forall P l -> P (GSlice l))
  (Hmap : forall m : list (string * GoVal), Forall (fun kv => P kv.2) m -> P (GMap m))
  (Hptr : forall v, P v -> P (GPtr v)) (Hiface : forall t v, P v -> P (GIface t v))
  (Hstruct : forall l, Forall P l -> P (GStruct l)) (Hopaque : P GOpaque).

Fixpoint GoVal_rect_nested (v : GoVal) : P v :=
  let go := fix go l := match l return Forall P l with
    | [] => List.Forall_nil _
    | v :: l' => List.Forall_cons _ _ _ (GoVal_rect_nested v) (go l')
    end in
  match v with
  | GNil => Hnil
  | GBool b => Hbool b
  | GInt i => Hint i
  | GFloat f => Hfloat f
  | GString s => Hstr s
  | GSlice l => Hslice l (go l)
  | GMap m => Hmap m
      ((fix gom (m : list (string * GoVal)) := match m return Forall (fun kv => P kv.2) m with
        | [] => List.Forall_nil _
        | kv :: m' => List.Forall_cons _ _ _ (GoVal_rect_nested kv.2) (gom m')
        end) m)
  | GPtr v => Hptr v (GoVal_rect_nested v)
  | GIface t v => Hiface t v (GoVal_rect_nested v)
  | GStruct l => Hstruct l (go l)
  | GOpaque => Hopaque
  end.
End GoValInd.

(** What a program declares: the fields of its struct types, the types with the
    methods [MarshalJSON], [UnmarshalJSON] and [ToUnstructured], and these methods.  [UnmarshalJSON]
    of a pointer type gives what the pointer then refers to. *)
Class GoProgram := {
  structs : list (string * list StructFieldT);
  hasMarshalJSON : GoType -> bool;
  hasUnmarshalJSON : GoType -> bool;
  hasToUnstructured : GoType -> bool;
  MarshalError : Type;
  MarshalJSON : GoType -> GoVal -> MarshalError + string;
  UnmarshalJSON : GoType -> string -> MarshalError + GoVal;
  ToUnstructuredMethod : GoType -> GoVal -> value;
}.

Section Reflect.
Context {Pg : GoProgram}.

(** [Type.NumField] and [Type.Field(i)]. *)
Fixpoint Type_Fields (t : GoType) : list StructFieldT :=
  match t with
  | TStruct n => default [] (assoc_get n structs)
  | TNamed _ u => Type_Fields u
  | _ => []
  end.

(** A value is one of the type. *)
Fixpoint has_type (v : GoVal) : GoType -> bool :=
  fix go (t : GoType) : bool :=
  match t with
  | TNamed _ u => go u
  | TBool => match v with GBool _ => true | _ => false end
  | TInt _ | TUintptr => match v with GInt _ => true | _ => false end
  | TFloat32 | TFloat64 => match v with GFloat _ => true | _ => false end
  | TString => match v with GString _ => true | _ => false end
  | TSlice e => match v with GNil => true | GSlice l => forallb (fun x => has_type x e) l | _ => false end
  | TArray n e => match v with GSlice l => (length l =? n)%nat && forallb (fun x => has_type x e) l | _ => false end
  | TMap k e =>
    match v with
    | GNil => true
    | GMap m => bool_decide (NoDup (assoc_keys m)) && forallb (fun kv => has_type kv.2 e) m
    | _ => false
    end && match Type_Kind k with KdString => true | _ => false end
  | TPtr e => match v with GNil => true | GPtr x => has_type x e | _ => false end
  | TInterface =>
    match v with
    | GNil => true
    | GIface t x => has_type x t && match Type_Kind t with KdInterface => false | _ => true end
    | _ => false
    end
  | TChan | TFunc | TUnsafePointer => match v with GNil | GOpaque => true | _ => false end
  | TComplex => match v with GOpaque => true | _ => false end
  | TStruct n =>
    match v with
    | GStruct l =>
      (fix fields (l : list GoVal) (fs : list StructFieldT) : bool :=
        match l, fs with
        | [], [] => true
        | x :: l', f :: fs' => has_type x (f_Type f) && fields l' fs'
        | _, _ => false
        end) l (default [] (assoc_get n structs))
    | _ => false
    end
  end.

(** ** reflect.Value *)

Record RValue := mkRV { rv_type : GoType; rv_val : GoVal; rv_addr : bool }.

Definition Kind (v : RValue) : GoKind := Type_Kind (rv_type v).

(** [reflect.ValueOf] a value of the type. *)
Definition ValueOf (t : GoType) (v : GoVal) : RValue := mkRV t v false.

(** [Value.IsNil] panics on kinds without nil. *)
Definition IsNil (v : RValue) : Outcome bool :=
  match Kind v with
  | KdChan | KdFunc | KdMap | KdPtr | KdUnsafePointer | KdInterface | KdSlice =>
    Ret (match rv_val v with GNil => true | _ => false end)
  | _ => Panic
  end.

(** [Value.Elem]: what a pointer refers to is addressable, what an interface holds is not. *)
Definition Elem (v : RValue) : Outcome RValue :=
  match rv_val v with
  | GPtr x => Ret (mkRV (Type_Elem (rv_type v)) x true)
  | GIface t x => Ret (mkRV t x false)
  | _ => Panic
  end.

(** [Value.Len]. *)
Definition Len (v : RValue) : nat :=
  match rv_val v with
  | GSlice l => length l
  | GMap m => length m
  | GString s => String.length s
  | _ => 0
  end.

(** [Value.Index] of a slice: its elements are addressable. *)
Definition Index_ (v : RValue) (i : nat) : Outcome RValue :=
  match rv_val v with
  | GSlice l => match l !! i with Some x => Ret (mkRV (Type_Elem (rv_type v)) x true) | None => Panic end
  | _ => Panic
  end.

(** [Value.FieldByIndex] with one index: a field is addressable if the struct is. *)
Definition Field_ (v : RValue) (i : nat) : Outcome RValue :=
  match rv_val v, Type_Fields (rv_type v) !! i with
  | GStruct l, Some f => match l !! i with Some x => Ret (mkRV (f_Type f) x (rv_addr v)) | None => Panic end
  | _, _ => Panic
  end.

(** [Value.MapIndex]: the zero value, [None], for a key that is absent. *)
Definition MapIndex (v : RValue) (k : string) : option RValue :=
  match rv_val v with
  | GMap m => (fun x => mkRV (Type_Elem (rv_type v)) x false) <$> assoc_get k m
  | _ => None
  end.

(** The entries that [Value.MapRange] visits. *)
Definition MapEntries (v : RValue) : list (string * RValue) :=
  match rv_val v with
  | GMap m => (fun kv => (kv.1, mkRV (Type_Elem (rv_type v)) kv.2 false)) <$> m
  | _ => []
  end.

(** [reflect.Zero]: the zero value of a type, its struct types nested at most [n] deep. *)
Fixpoint zeroVal (n : nat) (t : GoType) : GoVal :=
  let fix go (t : GoType) : GoVal :=
    match t with
    | TBool => GBool false
    | TInt _ | TUintptr => GInt 0
    | TFloat32 | TFloat64 => GFloat (S754_zero false)
    | TString => GString EmptyString
    | TComplex => GOpaque
    | TArray k e => GSlice (replicate k (go e))
    | TNamed _ u => go u
    | TStruct s =>
      match n with
      | O => GNil
      | S n => GStruct ((fun f => zeroVal n (f_Type f)) <$> default [] (assoc_get s structs))
      end
    | TSlice _ | TMap _ _ | TPtr _ | TInterface | TChan | TFunc | TUnsafePointer => GNil
    end in
  go t.
Definition Zero (t : GoType) : GoVal := zeroVal (S (length structs)) t.

End Reflect.

(** [reflect.ValueOf] the dynamic value that a conversion to unstructured returns,
    and a dynamic value as the element of a [[]interface{}] or
    [map[string]interface{}]. *)
Definition toIface (p : GoType * GoVal) : GoVal :=
  match p with
  | (TInterface, _) => GNil
  | (t, v) => GIface t v
  end.

Fixpoint goVal (v : value) : GoType * GoVal :=
  match v with
  | VNull => (TInterface, GNil)
  | VBool b => (TBool, GBool b)
  | VInt k i => (TInt k, GInt i)
  | VFloat32 f => (TFloat32, GFloat f)
  | VFloat64 f => (TFloat64, GFloat f)
  | VString s => (TString, GString s)
  | VList l => (TSlice TInterface, GSlice (map (fun x => toIface (goVal x)) l))
  | VMap m => (TMap TString TInterface, GMap (map (fun kv => (kv.1, toIface (goVal kv.2))) m))
  end.
