(* ===== verification/JsonTag.v ===== *)
(** * Package value: the json tags of struct fields

    Models [value/jsontagutil.go]: a tag is a name followed by options, all
    separated by commas. *)
From S2P Require Import Prelude GoLib GoFloat Value ValueOrder Schema TypedHelpers GoReflect.
From Stdlib Require Import Ascii.
#[local] Set Warnings "-clear-no-such-hyp".

Definition comma : ascii := ascii_of_nat 44.

(** The string before the first comma ([strings.Index]) and the string after it. *)
Fixpoint cutComma (s : string) : option (string * string) :=
  match s with
  | EmptyString => None
  | String c s' =>
    if Ascii.eqb c comma then Some (EmptyString, s')
    else (fun p => (String c p.1, p.2)) <$> cutComma s'
  end.

Definition parseTag (tag : string) : string * string :=
  match cutComma tag with
  | Some (name, opts) => (name, opts)
  | None => (tag, EmptyString)
  end.

(** The loop of [Contains]: each round drops at least one byte. *)
Fixpoint containsLoop (fuel : nat) (s optionName : string) : bool :=
  match fuel with
  | O => false
  | S fuel =>
    if string_eqb s EmptyString then false
    else
      let '(s, next) := match cutComma s with Some (a, b) => (a, b) | None => (s, EmptyString) end in
      if string_eqb s optionName then true else containsLoop fuel next optionName
  end.

Definition tagOptions_Contains (o optionName : string) : bool :=
  if (String.length o =? 0)%nat then false else containsLoop (String.length o) o optionName.

(** The name, and whether the field is omitted, inlined, omitted when empty. *)
Definition lookupJsonTags (f : StructFieldT) : string * bool * bool * bool :=
  let tag := f_jsonTag f in
  if string_eqb tag "-" then (EmptyString, true, false, false)
  else
    let '(name, opts) := parseTag tag in
    (if string_eqb name EmptyString then f_Name f else name, false,
     tagOptions_Contains opts "inline", tagOptions_Contains opts "omitempty").

Definition isZero {Pg : GoProgram} (v : RValue) : Outcome bool :=
  match Kind v with
  | KdArray | KdMap | KdSlice | KdString => Ret (Len v =? 0)%nat
  | KdBool => Ret (match rv_val v with GBool b => negb b | _ => false end)
  | KdInt _ | KdUintptr => Ret (match rv_val v with GInt i => i =? 0 | _ => false end)
  | KdFloat32 | KdFloat64 =>
    Ret (match rv_val v with GFloat f => float_eqb f (S754_zero false) | _ => false end)
  | KdInterface | KdPtr => IsNil v
  | KdChan | KdFunc => Panic
  | _ => Ret false
  end.

(** ** What Contains decides *)

(** The options of a tag. *)
Fixpoint splitComma (s : string) : list string :=
  match s with
  | EmptyString => [EmptyString]
  | String c s' =>
    if Ascii.eqb c comma then EmptyString :: splitComma s'
    else match splitComma s' with
      | [] => [String c EmptyString]
      | x :: l => String c x :: l
      end
  end.

Lemma splitComma_nonnil s : exists x l, splitComma s = x :: l.
Proof. destruct s as [|c s]; simpl; [eauto|]. destruct (Ascii.eqb c comma); [eauto|]. destruct (splitComma s); eauto. Qed.

Lemma cutComma_split s :
  splitComma s = match cutComma s with Some (a, b) => a :: splitComma b | None => [s] end.
Proof.
  induction s as [|c s IH]; simpl; [done|]. destruct (Ascii.eqb c comma); [done|]. rewrite IH.
  by destruct (cutComma s) as [[a b]|].
Qed.

Lemma cutComma_length s a b : cutComma s = Some (a, b) -> (String.length b < String.length s)%nat.
Proof.
  revert a b. induction s as [|c s IH]; simpl; [done|]. destruct (Ascii.eqb c comma); [intros a b [= <- <-]; lia|].
  intros a b. destruct (cutComma s) as [[a' b']|] eqn:E; [|done]. intros [= <- <-].
  specialize (IH a' b' eq_refl). simpl. lia.
Qed.

Lemma containsLoop_spec fuel s name :
  (String.length s <= fuel)%nat -> name <> EmptyString -> containsLoop fuel s name = true <-> name ∈ splitComma s.
Proof.
  intros Hf Hn. revert s Hf. induction fuel as [|fuel IH]; intros s Hf; simpl.
  - destruct s; [|simpl in Hf; lia]. simpl. rewrite list_elem_of_singleton. by split.
  - destruct (string_eqb s EmptyString) eqn:Es.
    { apply string_eqb_true in Es as ->. simpl. rewrite list_elem_of_singleton. by split. }
    rewrite cutComma_split. destruct (cutComma s) as [[a b]|] eqn:Ec.
    + apply cutComma_length in Ec. rewrite elem_of_cons. destruct (string_eqb a name) eqn:Ea.
      * apply string_eqb_true in Ea as ->. split; [by left|done].
      * apply string_eqb_false in Ea. rewrite IH by lia. naive_solver.
    + rewrite list_elem_of_singleton. destruct (string_eqb s name) eqn:Ea.
      * apply string_eqb_true in Ea as ->. by split.
      * apply string_eqb_false in Ea. destruct fuel; simpl; naive_solver.
Qed.

(** [Contains] finds exactly the options between the commas. *)
Lemma Contains_spec o name : name <> EmptyString -> tagOptions_Contains o name = true <-> name ∈ splitComma o.
Proof.
  intros Hn. unfold tagOptions_Contains. destruct (String.length o =? 0)%nat eqn:El.
  - destruct o; [|done]. simpl. rewrite list_elem_of_singleton. by split.
  - by apply containsLoop_spec.
Qed.
