(* ===== verification/ReflectCache.v ===== *)
(** * Package value: the cache of struct layouts

    Models the layout half of [value/reflectcache.go]: how the fields of a struct
    are found by their JSON names, through inlined structs, and the cache of
    these layouts, which goroutines share.

    The paths to fields are slices that [append] builds, and slices share their
    backing arrays: the arrays are a heap ([Heap]), a slice an address and a
    length, and the growth of a full array is the parameter [grow].  A pointer to
    a [TypeReflectCacheEntry] is the type it is the entry of, a pointer to a
    [FieldCacheEntry] its JSON name within a struct.  A recursion that does not
    return (a struct that inlines itself) exhausts its fuel, which is [None]. *)
From S2P Require Import Prelude GoLib GoFloat Value ValueOrder Schema TypedHelpers GoReflect JsonTag.

(** ** Slices of field indices *)

(** The backing arrays, each with its capacity. *)
Abbreviation Heap := (list (list nat)).

(** A slice; nil is [None]. *)
Record Slice := mkSlice { sl_addr : nat; sl_len : nat }.

Definition slice_read (h : Heap) (s : Slice) : list nat := take (sl_len s) (default [] (h !! sl_addr s)).
Definition slice_readO (h : Heap) (s : option Slice) : list nat := match s with Some s => slice_read h s | None => [] end.

(** The capacity of the array that [append] allocates to add one element to a full
    array of the given length. *)
Class Growth := { grow : nat -> nat; grow_enough n : (n < grow n)%nat }.

(** Go's rule for small slices: double the capacity. *)
Definition double (n : nat) : nat := if (n =? 0)%nat then 1%nat else (2 * n)%nat.
Lemma double_enough n : (n < double n)%nat.
Proof. unfold double. destruct (Nat.eqb_spec n 0); lia. Qed.
Definition go_growth : Growth := {| grow := double; grow_enough := double_enough |}.

Section Cache.
Context {G : Growth}.

Definition slice_alloc (h : Heap) (l : list nat) (x : nat) : Heap * Slice :=
  (h ++ [l ++ x :: replicate (grow (length l) - S (length l)) 0%nat], mkSlice (length h) (S (length l))).

(** [append(s, x)]: in place if there is room, else in a new array. *)
Definition slice_append (h : Heap) (s : option Slice) (x : nat) : Heap * Slice :=
  match s with
  | None => slice_alloc h [] x
  | Some s =>
    let arr := default [] (h !! sl_addr s) in
    if (sl_len s <? length arr)%nat
    then (<[sl_addr s := <[sl_len s := x]> arr]> h, mkSlice (sl_addr s) (S (sl_len s)))
    else slice_alloc h (take (sl_len s) arr) x
  end.

(** ** Layouts *)

Record FieldCacheEntry := mkFieldCacheEntry {
  JsonName : string;
  isOmitEmpty : bool;
  fieldPath : Slice;
  fieldType : GoType;
  TypeEntry : option GoType;
}.

Record TypeReflectCacheEntry := mkTypeReflectCacheEntry {
  isJsonMarshaler : bool;
  ptrIsJsonMarshaler : bool;
  isJsonUnmarshaler : bool;
  isStringConvertable : bool;
  ptrIsStringConvertable : bool;
  structFields : list (string * FieldCacheEntry);
  orderedStructFields : list string;
}.

Context {Pg : GoProgram}.

(** The struct type that an inlined field adds, if it is one: pointers are followed once. *)
Definition inlinedType (t : GoType) : option GoType :=
  let e := match Type_Kind t with KdPtr => Type_Elem t | _ => t end in
  match Type_Kind e with KdStruct => Some e | _ => None end.

Abbreviation Infos := (list (string * FieldCacheEntry)).

(** The loop over the fields from index [i] on; [build] is the recursive call. *)
Fixpoint buildFields (build : GoType -> Infos -> option Slice -> Heap -> option (Infos * Heap))
    (fields : list StructFieldT) (i : nat) (infos : Infos) (path : option Slice) (h : Heap) : option (Infos * Heap) :=
  match fields with
  | [] => Some (infos, h)
  | field :: fields' =>
    let '(jsonName, omit, isInline, isOmitempty) := lookupJsonTags field in
    if omit then buildFields build fields' (S i) infos path h
    else if isInline then
      match inlinedType (f_Type field) with
      | Some e =>
        let '(h, path') := slice_append h path i in
        res ← build e infos (Some path') h;
        buildFields build fields' (S i) res.1 path res.2
      | None => buildFields build fields' (S i) infos path h
      end
    else
      let '(h, path') := slice_append h path i in
      let info := mkFieldCacheEntry jsonName isOmitempty path' (f_Type field) None in
      buildFields build fields' (S i) (assoc_set jsonName info infos) path h
  end.

Fixpoint buildStructCacheEntry (fuel : nat) (t : GoType) (infos : Infos) (path : option Slice) (h : Heap) :
    option (Infos * Heap) :=
  match fuel with
  | O => None
  | S fuel => buildFields (buildStructCacheEntry fuel) (Type_Fields t) 0 infos path h
  end.

(** Enough for structs that do not inline themselves. *)
Definition buildFuel : nat := (3 + length structs)%nat.

(** [Implements] of the interface [UnstructuredConverter], which includes [json.Marshaler]. *)
Definition implementsConverter (t : GoType) : bool := hasMarshalJSON t && hasToUnstructured t.

(** The entry of a type, before the entries of the types of its fields. *)
Definition newEntry (t : GoType) (h : Heap) : option (TypeReflectCacheEntry * Heap) :=
  let entry := mkTypeReflectCacheEntry (hasMarshalJSON t) (hasMarshalJSON (TPtr t)) (hasUnmarshalJSON (TPtr t))
    (implementsConverter t) (implementsConverter (TPtr t)) in
  match Type_Kind t with
  | KdStruct =>
    res ← buildStructCacheEntry buildFuel t [] None h;
    Some (entry res.1 (sort_stable string_ltb (assoc_keys res.1)), res.2)
  | _ => Some (entry [] [], h)
  end.

(** ** The cache *)

Abbreviation reflectCacheMap := (list (GoType * TypeReflectCacheEntry)).

Fixpoint cm_get (t : GoType) (cm : reflectCacheMap) : option TypeReflectCacheEntry :=
  match cm with
  | [] => None
  | (t', e) :: cm' => if decide (t = t') then Some e else cm_get t cm'
  end.

Fixpoint cm_set (t : GoType) (e : TypeReflectCacheEntry) (cm : reflectCacheMap) : reflectCacheMap :=
  match cm with
  | [] => [(t, e)]
  | (t', e') :: cm' => if decide (t = t') then (t, e) :: cm' else (t', e') :: cm_set t e cm'
  end.

(** [field.TypeEntry = ...]: the entry of the type of the field. *)
Definition setTypeEntry (name : string) (e : TypeReflectCacheEntry) : TypeReflectCacheEntry :=
  mkTypeReflectCacheEntry (isJsonMarshaler e) (ptrIsJsonMarshaler e) (isJsonUnmarshaler e) (isStringConvertable e)
    (ptrIsStringConvertable e)
    ((fun kv => if string_eqb kv.1 name
        then (kv.1, mkFieldCacheEntry (JsonName kv.2) (isOmitEmpty kv.2) (fieldPath kv.2) (fieldType kv.2) (Some (fieldType kv.2)))
        else kv) <$> structFields e)
    (orderedStructFields e).

(** The loop that resolves the types of the fields of [t]; [rec] is the recursive call. *)
Fixpoint resolveFields (rec : GoType -> reflectCacheMap -> Heap -> option (reflectCacheMap * Heap))
    (t : GoType) (fields : Infos) (updates : reflectCacheMap) (h : Heap) : option (reflectCacheMap * Heap) :=
  match fields with
  | [] => Some (updates, h)
  | (name, field) :: fields' =>
    match TypeEntry field with
    | Some _ => resolveFields rec t fields' updates h
    | None =>
      res ← rec (fieldType field) updates h;
      let updates := match cm_get t res.1 with
        | Some e => cm_set t (setTypeEntry name e) res.1
        | None => res.1
        end in
      resolveFields rec t fields' updates res.2
    end
  end.

(** [typeReflectEntryOf]: the updates; the entry it returns is the one of [t] in the
    cache or the updates. *)
Fixpoint typeReflectEntryOf (fuel : nat) (cm : reflectCacheMap) (t : GoType) (updates : reflectCacheMap) (h : Heap) :
    option (reflectCacheMap * Heap) :=
  match fuel with
  | O => None
  | S fuel =>
    match cm_get t cm, cm_get t updates with
    | Some _, _ | None, Some _ => Some (updates, h)
    | None, None =>
      res ← newEntry t h;
      let '(entry, h) := res in
      resolveFields (typeReflectEntryOf fuel cm) t (structFields entry) (cm_set t entry updates) h
    end
  end.

(** The shared state: the current map, and the memory. *)
Record CacheState := mkCacheState { cs_map : reflectCacheMap; cs_heap : Heap }.

(** [typeReflectCache.update], under the lock. *)
Definition cache_update (current updates : reflectCacheMap) : reflectCacheMap :=
  if forallb (fun e => match cm_get e.1 current with Some _ => true | None => false end) updates then current
  else foldl (fun m e => cm_set e.1 e.2 m) current updates.

(** [TypeReflectEntryOf] when the map read at its start was [cm]: other goroutines may
    have replaced it since.  [fuel] bounds the nesting of struct types. *)
Definition TypeReflectEntryOf (fuel : nat) (cm : reflectCacheMap) (t : GoType) (s : CacheState) :
    option (TypeReflectCacheEntry * CacheState) :=
  match cm_get t cm with
  | Some record => Some (record, s)
  | None =>
    res ← typeReflectEntryOf fuel cm t [] (cs_heap s);
    let '(updates, h) := res in
    record ← cm_get t updates;
    Some (record, mkCacheState (if (0 <? length updates)%nat then cache_update (cs_map s) updates else cs_map s) h)
  end.

(** ** What an entry provides *)

(** A field as its users see it: the name, the path read from memory, its type. *)
Record FieldInfo := mkFieldInfo { fi_name : string; fi_omitEmpty : bool; fi_path : list nat; fi_type : GoType }.

Definition fieldInfo (h : Heap) (f : FieldCacheEntry) : FieldInfo :=
  mkFieldInfo (JsonName f) (isOmitEmpty f) (slice_read h (fieldPath f)) (fieldType f).

(** [Fields] and [OrderedFields]. *)
Definition Fields (h : Heap) (e : TypeReflectCacheEntry) : list (string * FieldInfo) :=
  (fun kv => (kv.1, fieldInfo h kv.2)) <$> structFields e.
Definition OrderedFields (h : Heap) (e : TypeReflectCacheEntry) : list FieldInfo :=
  omap (fun n => fieldInfo h <$> assoc_get n (structFields e)) (orderedStructFields e).
End Cache.
