(* ===== verification/ReflectCacheSpec.v ===== *)
(** * What the cache of struct layouts holds

    The layout of a struct, without slices: the fields by JSON name with the
    index path to each.  The code computes it as long as no slice it appends to
    has room to spare, which for Go's rule of growth means at most two nested
    inlinings.  The cache, whatever map a goroutine started from, only ever holds
    these layouts, and looking up a type terminates although types may refer to
    each other in cycles. *)
From S2P Require Import Prelude GoLib GoFloat Value ValueOrder Schema TypedHelpers GoReflect JsonTag ReflectCache.

Section Layout.
Context {Pg : GoProgram}.

(** ** The layout *)

Fixpoint layoutFields (rec : GoType -> list nat -> list (string * FieldInfo) -> list (string * FieldInfo))
    (fields : list StructFieldT) (i : nat) (path : list nat) (acc : list (string * FieldInfo)) : list (string * FieldInfo) :=
  match fields with
  | [] => acc
  | field :: fields' =>
    let '(jsonName, omit, isInline, isOmitempty) := lookupJsonTags field in
    layoutFields rec fields' (S i) path
      (if omit then acc
       else if isInline then
         match inlinedType (f_Type field) with Some e => rec e (path ++ [i]) acc | None => acc end
       else assoc_set jsonName (mkFieldInfo jsonName isOmitempty (path ++ [i]) (f_Type field)) acc)
  end.

(** The fields of [t] below [path], with at most [k] nested inlinings. *)
Fixpoint layout (k : nat) (t : GoType) (path : list nat) (acc : list (string * FieldInfo)) : list (string * FieldInfo) :=
  layoutFields (match k with O => fun _ _ acc => acc | S k => layout k end) (Type_Fields t) 0 path acc.

(** The struct types that a struct inlines. *)
Definition inlinedTypes (t : GoType) : list GoType :=
  omap (fun f => let '(_, omit, isInline, _) := lookupJsonTags f in
    if omit then None else if isInline then inlinedType (f_Type f) else None) (Type_Fields t).

(** At most [k] nested inlinings. *)
Fixpoint inlineWithin (k : nat) (t : GoType) : bool :=
  match k with
  | O => match inlinedTypes t with [] => true | _ => false end
  | S k => forallb (inlineWithin k) (inlinedTypes t)
  end.

(** ** Building it in memory *)

Definition slice_valid (h : Heap) (s : Slice) : Prop := (sl_addr s < length h)%nat.
Definition slice_full (h : Heap) (s : option Slice) : Prop :=
  match s with Some s => exists arr, h !! sl_addr s = Some arr /\ length arr = sl_len s | None => True end.
(** A field whose path is in memory, with the entry of its type or none yet. *)
Definition field_valid (h : Heap) (f : FieldCacheEntry) : Prop :=
  slice_valid h (fieldPath f) /\ (TypeEntry f = None \/ TypeEntry f = Some (fieldType f)).
Definition infos_valid (h : Heap) (infos : list (string * FieldCacheEntry)) : Prop :=
  Forall (fun kv => field_valid h kv.2) infos.

(** The fields as their users see them. *)
Definition resolve (h : Heap) (infos : list (string * FieldCacheEntry)) : list (string * FieldInfo) :=
  (fun kv => (kv.1, fieldInfo h kv.2)) <$> infos.

Lemma slice_read_ext h h' s : h `prefix_of` h' -> slice_valid h s -> slice_read h' s = slice_read h s.
Proof.
  intros [x ->] Hs. unfold slice_read. by rewrite lookup_app_l.
Qed.

Lemma slice_valid_ext h h' s : h `prefix_of` h' -> slice_valid h s -> slice_valid h' s.
Proof. intros [x ->] Hs. unfold slice_valid in *. rewrite length_app. lia. Qed.

Lemma slice_full_ext h h' s : h `prefix_of` h' -> slice_full h s -> slice_full h' s.
Proof. intros [x ->]. destruct s as [s|]; [|done]. intros (arr & E & L). exists arr. split; [by apply lookup_app_l_Some|done]. Qed.

Lemma slice_readO_ext h h' s : h `prefix_of` h' -> slice_full h s -> slice_readO h' s = slice_readO h s.
Proof.
  intros Hp. destruct s as [s|]; [|done]. intros (arr & E & L). apply slice_read_ext; [done|]. by eapply lookup_lt_Some.
Qed.

Lemma infos_valid_ext h h' infos : h `prefix_of` h' -> infos_valid h infos -> infos_valid h' infos.
Proof. intros Hp F. eapply Forall_impl; [exact F|]. intros kv [H1 H2]. split; [by eapply slice_valid_ext|done]. Qed.

Lemma resolve_ext h h' infos : h `prefix_of` h' -> infos_valid h infos -> resolve h' infos = resolve h infos.
Proof.
  intros Hp F. unfold resolve. apply list_fmap_ext. intros i kv Hkv. f_equal. unfold fieldInfo. f_equal.
  apply slice_read_ext; [done|]. unfold infos_valid in F. rewrite Forall_forall in F.
  apply F. by eapply list_elem_of_lookup_2.
Qed.

Lemma resolve_set h name f infos : resolve h (assoc_set name f infos) = assoc_set name (fieldInfo h f) (resolve h infos).
Proof.
  induction infos as [|[k x] infos IH]; [done|]. unfold resolve in *. cbn [assoc_set]. rewrite fmap_cons.
  cbn [assoc_set fst snd]. destruct (string_eqb k name); rewrite fmap_cons; [done|]. by rewrite IH.
Qed.

Lemma infos_valid_set h name f infos :
  field_valid h f -> infos_valid h infos -> infos_valid h (assoc_set name f infos).
Proof.
  intros Hf F. induction F as [|[k x] infos Hx F IH]; simpl; [by apply Forall_singleton|].
  destruct (string_eqb k name); constructor; done.
Qed.

Section Build.
Context {G : Growth}.

(** Appending to a full slice allocates: nothing else is written. *)
Lemma slice_append_full h s x :
  slice_full h s ->
  exists h' s', slice_append h s x = (h', s') /\ h `prefix_of` h' /\ slice_valid h' s' /\
    slice_read h' s' = slice_readO h s ++ [x] /\
    (grow (length (slice_readO h s)) = S (length (slice_readO h s)) -> slice_full h' (Some s')).
Proof.
  intros Hs.
  assert (E : slice_append h s x = slice_alloc h (slice_readO h s) x).
  { destruct s as [s|]; [|done]. destruct Hs as (arr & E & L). unfold slice_append, slice_readO, slice_read.
    rewrite E. cbn [from_option]. unfold id. destruct (Nat.ltb_spec (sl_len s) (length arr)); [lia|done]. }
  rewrite E. unfold slice_alloc. set (l := slice_readO h s). eexists _, _. split; [done|].
  assert (Hl : forall y, (h ++ [y]) !! length h = Some y) by (intros; by rewrite lookup_app_r, Nat.sub_diag).
  split_and!.
  - by eexists.
  - unfold slice_valid. simpl. rewrite length_app. simpl. lia.
  - unfold slice_read. cbn [sl_addr sl_len]. rewrite Hl. cbn [default].
    rewrite (cons_middle x), app_assoc. apply take_app_length'. rewrite length_app. simpl. lia.
  - intros Hg. eexists. cbn [sl_addr sl_len]. split; [apply Hl|]. rewrite length_app. simpl. rewrite length_replicate. lia.
Qed.

(** What a run of the builder does, from a full path. *)
Definition builds (res : option (list (string * FieldCacheEntry) * Heap)) (h : Heap) (expected : list (string * FieldInfo)) : Prop :=
  exists infos' h', res = Some (infos', h') /\ h `prefix_of` h' /\ infos_valid h' infos' /\ resolve h' infos' = expected.

Lemma buildFields_layout build rec fields i infos path h :
  (forall f e infos h, f ∈ fields -> (let '(_, omit, isInline, _) := lookupJsonTags f in omit = false /\ isInline = true) ->
    inlinedType (f_Type f) = Some e -> slice_full h path -> infos_valid h infos -> forall j,
    builds (let '(h, p) := slice_append h path j in build e infos (Some p) h) h
      (rec e (slice_readO h path ++ [j]) (resolve h infos))) ->
  slice_full h path -> infos_valid h infos ->
  builds (buildFields build fields i infos path h) h (layoutFields rec fields i (slice_readO h path) (resolve h infos)).
Proof.
  revert i infos h. induction fields as [|f fields IH]; intros i infos h Hrec Hp Hi; cbn [buildFields layoutFields].
  { by exists infos, h. }
  assert (Hnext : forall infos' h', h `prefix_of` h' -> infos_valid h' infos' ->
    builds (buildFields build fields (S i) infos' path h') h
      (layoutFields rec fields (S i) (slice_readO h path) (resolve h' infos'))).
  { intros infos' h' Hh Hi'. destruct (IH (S i) infos' h') as (x & h2 & E & P & V & Rs);
      [|by eapply slice_full_ext|done|].
    - intros f' e infos2 h2 Hf'. apply Hrec. by right.
    - exists x, h2. split_and!; [done|by etransitivity|done|]. rewrite Rs. by rewrite (slice_readO_ext h h') by done. }
  destruct (lookupJsonTags f) as [[[name omit] isInline] om] eqn:Et. destruct omit; [by apply Hnext|].
  destruct isInline.
  - destruct (inlinedType (f_Type f)) as [e|] eqn:Ee; [|by apply Hnext].
    specialize (Hrec f e infos h ltac:(left) ltac:(by rewrite Et) Ee Hp Hi i).
    destruct (slice_append h path i) as [h1 p1] eqn:Ea. destruct Hrec as (infos2 & h2 & E2 & P2 & V2 & R2).
    rewrite E2. cbn [mbind option_bind fst snd]. rewrite <-R2. by apply Hnext.
  - destruct (slice_append_full h path i Hp) as (h1 & p1 & -> & P1 & V1 & R1 & _).
    set (info := mkFieldCacheEntry name om p1 (f_Type f) None).
    replace (assoc_set name _ (resolve h infos)) with (resolve h1 (assoc_set name info infos)).
    + apply Hnext; [done|]. apply infos_valid_set; [by split; [|left]|]. by eapply infos_valid_ext.
    + rewrite resolve_set, (resolve_ext h h1) by done. f_equal. unfold fieldInfo, info. simpl. by rewrite R1.
Qed.

Lemma inlineWithin_elem k t f e :
  f ∈ Type_Fields t -> (let '(_, omit, isInline, _) := lookupJsonTags f in omit = false /\ isInline = true) ->
  inlinedType (f_Type f) = Some e -> inlineWithin k t = true -> exists k', k = S k' /\ inlineWithin k' e = true.
Proof.
  intros Hf Ht Ee Hk. assert (He : e ∈ inlinedTypes t).
  { unfold inlinedTypes. apply list_elem_of_omap. exists f. split; [done|].
    destruct (lookupJsonTags f) as [[[? ?] ?] ?]. by destruct Ht as [-> ->]. }
  destruct k as [|k]; simpl in Hk.
  - by destruct (inlinedTypes t); [apply not_elem_of_nil in He|].
  - exists k. split; [done|]. rewrite forallb_Forall, Forall_forall in Hk. auto.
Qed.

Definition path_len (s : option Slice) : nat := match s with Some s => sl_len s | None => 0 end.

Lemma slice_full_length h s : slice_full h s -> length (slice_readO h s) = path_len s.
Proof.
  destruct s as [s|]; [|done]. intros (arr & E & L). unfold slice_readO, slice_read. rewrite E. cbn [default path_len].
  unfold id. rewrite length_take, L. lia.
Qed.

(** The builder computes the layout, if no array has room to spare for the inlined paths. *)
Lemma build_layout k fuel t infos path h :
  (k < fuel)%nat -> inlineWithin k t = true ->
  (forall j, (j < k)%nat -> grow (path_len path + j) = S (path_len path + j)) ->
  slice_full h path -> infos_valid h infos ->
  builds (buildStructCacheEntry fuel t infos path h) h (layout k t (slice_readO h path) (resolve h infos)).
Proof.
  revert fuel t infos path h. induction k as [|k IH]; intros [|fuel] t infos path h Hf Hk Hg Hp Hi; try lia;
    cbn [buildStructCacheEntry layout]; apply buildFields_layout; try done;
    intros f e infos1 h1 Hfe Ht Ee Hp1 Hi1 j; destruct (inlineWithin_elem _ t f e Hfe Ht Ee Hk) as (k' & [= <-] & Hk').
  destruct (slice_append_full h1 path j Hp1) as (h2 & p2 & -> & P2 & V2 & R2 & F2).
  rewrite slice_full_length in F2 by done.
  assert (L2 : path_len (Some p2) = S (path_len path)).
  { pose proof (Hg 0%nat ltac:(lia)) as Hg0. rewrite Nat.add_0_r in Hg0.
    rewrite <-(slice_full_length h2) by auto. cbn [slice_readO]. rewrite R2, length_app, slice_full_length by done. simpl. lia. }
  destruct (IH fuel e infos1 (Some p2) h2) as (x & h3 & E3 & P3 & V3 & R3); [lia|done| | | |].
  - intros i Hi'. rewrite L2. specialize (Hg (S i) ltac:(lia)). rewrite <-plus_n_Sm in Hg. exact Hg.
  - apply F2. specialize (Hg 0%nat ltac:(lia)). by rewrite Nat.add_0_r in Hg.
  - by eapply infos_valid_ext.
  - exists x, h3. split_and!; [done|by etransitivity|done|]. rewrite R3. cbn [slice_readO]. rewrite R2.
    by rewrite (resolve_ext h1 h2).
Qed.
End Build.

(** ** The types of fields *)

(** The types of the fields that the program declares. *)
Definition fieldTypes : list GoType := structs ≫= (fun s => f_Type <$> s.2).

Lemma Type_Fields_types t f : f ∈ Type_Fields t -> f_Type f ∈ fieldTypes.
Proof.
  induction t; cbn [Type_Fields]; try by intros ?%not_elem_of_nil; auto. 2: done.
  intros Hf. destruct (assoc_get name structs) as [fs|] eqn:E; [|by apply not_elem_of_nil in Hf].
  apply assoc_get_Some in E. apply list_elem_of_bind. exists (name, fs). split; [|done]. by apply list_elem_of_fmap_2.
Qed.

Definition info_types (l : list (string * FieldInfo)) : Prop := Forall (fun kv => fi_type kv.2 ∈ fieldTypes) l.

Lemma info_types_set name x l : fi_type x ∈ fieldTypes -> info_types l -> info_types (assoc_set name x l).
Proof.
  intros Hx F. induction F as [|[k y] l Hy F IH]; simpl; [by apply Forall_singleton|].
  destruct (string_eqb k name); by constructor.
Qed.

Lemma layout_types k t path acc : info_types acc -> info_types (layout k t path acc).
Proof.
  assert (Hf : forall rec fields i path acc, (forall t path acc, info_types acc -> info_types (rec t path acc)) ->
    Forall (fun f => f_Type f ∈ fieldTypes) fields -> info_types acc -> info_types (layoutFields rec fields i path acc)).
  { intros rec fields i p acc' Hrec F. revert i acc'. induction F as [|f fields Hf F IH]; intros i acc' Ha; [done|].
    cbn [layoutFields]. destruct (lookupJsonTags f) as [[[name omit] isInline] om]. apply IH.
    destruct omit; [done|]. destruct isInline; [destruct (inlinedType _); auto|]. by apply info_types_set. }
  revert t path acc. induction k as [|k IH]; intros t path acc Ha; cbn [layout]; apply Hf; auto;
    apply Forall_forall; intros f; apply Type_Fields_types.
Qed.

(** ** Entries *)

(** The layout of a type; at most two nested inlinings. *)
Definition layoutOf (t : GoType) : list (string * FieldInfo) :=
  match Type_Kind t with KdStruct => layout 2 t [] [] | _ => [] end.

Record entry_ok (h : Heap) (t : GoType) (e : TypeReflectCacheEntry) : Prop := {
  ok_marshaler : isJsonMarshaler e = hasMarshalJSON t;
  ok_ptrMarshaler : ptrIsJsonMarshaler e = hasMarshalJSON (TPtr t);
  ok_unmarshaler : isJsonUnmarshaler e = hasUnmarshalJSON (TPtr t);
  ok_convertable : isStringConvertable e = implementsConverter t;
  ok_ptrConvertable : ptrIsStringConvertable e = implementsConverter (TPtr t);
  ok_valid : infos_valid h (structFields e);
  ok_fields : resolve h (structFields e) = layoutOf t;
  ok_ordered : orderedStructFields e = sort_stable string_ltb (assoc_keys (layoutOf t));
}.

Lemma entry_ok_ext h h' t e : h `prefix_of` h' -> entry_ok h t e -> entry_ok h' t e.
Proof.
  intros Hp []. split; try done; [by eapply infos_valid_ext|]. by rewrite (resolve_ext h h').
Qed.

Lemma resolve_keys h infos : assoc_keys (resolve h infos) = assoc_keys infos.
Proof. unfold resolve, assoc_keys. by rewrite <-list_fmap_compose. Qed.

Lemma setTypeEntry_ok h t e name : entry_ok h t e -> entry_ok h t (setTypeEntry name e).
Proof.
  intros []. split; try done; cbn [setTypeEntry structFields].
  - apply Forall_fmap. eapply Forall_impl; [exact ok_valid0|]. intros [k f] [H1 H2]. cbn [compose fst snd].
    destruct (string_eqb k name); split; try done. by right.
  - rewrite <-ok_fields0. unfold resolve. rewrite <-list_fmap_compose. apply list_fmap_ext. intros _ [k f] _.
    cbn [compose fst snd]. by destruct (string_eqb k name).
Qed.

(** No struct of the program nests more than two inlinings: a check of its declarations. *)
Definition shallow_program : bool := forallb (fun s => inlineWithin 2 (TStruct s.1)) structs.

Lemma shallow_types : shallow_program = true -> forall t, Type_Kind t = KdStruct -> inlineWithin 2 t = true.
Proof.
  intros Hs t. unfold shallow_program in Hs. rewrite forallb_Forall, Forall_forall in Hs.
  induction t; try done; cbn [Type_Kind]; intros Hk.
  destruct (assoc_get name structs) as [fs|] eqn:E.
  - apply assoc_get_Some in E. apply (Hs (name, fs) E).
  - cbn [inlineWithin]. unfold inlinedTypes. cbn [Type_Fields]. by rewrite E.
Qed.

Hypothesis shallow : forall t, Type_Kind t = KdStruct -> inlineWithin 2 t = true.

#[local] Existing Instance go_growth.

Lemma newEntry_ok t h :
  exists e h', newEntry t h = Some (e, h') /\ h `prefix_of` h' /\ entry_ok h' t e.
Proof.
  unfold newEntry.
  destruct (Type_Kind t) eqn:Ek;
    try (eexists _, h; split_and!; [done|done|]; split; try done; [constructor|..]; unfold layoutOf; by rewrite Ek).
  destruct (build_layout 2 buildFuel t [] None h) as (infos & h' & E & P & V & R);
    [unfold buildFuel; lia|by apply shallow| |done|constructor|].
  { intros j Hj. destruct j as [|[|]]; [done|done|lia]. }
  rewrite E. cbn [mbind option_bind fst snd]. eexists _, h'. split_and!; [done..|].
  split; try done; unfold layoutOf; rewrite Ek; [exact R|]. cbn [orderedStructFields].
  rewrite <-(resolve_keys h'). by rewrite R.
Qed.

(** ** The cache *)

Definition cache_ok (h : Heap) (cm : list (GoType * TypeReflectCacheEntry)) : Prop :=
  Forall (fun te => entry_ok h te.1 te.2) cm.

Lemma cache_ok_get h cm t e : cache_ok h cm -> cm_get t cm = Some e -> entry_ok h t e.
Proof.
  induction 1 as [|[u x] cm Hx F IH]; simpl; [done|]. destruct (decide (t = u)) as [-> |]; [by intros [= <-]|done].
Qed.

Lemma cache_ok_ext h h' cm : h `prefix_of` h' -> cache_ok h cm -> cache_ok h' cm.
Proof. intros Hp Hc. eapply Forall_impl; [exact Hc|]. intros te. by apply entry_ok_ext. Qed.

Lemma cm_get_set t t' e cm : cm_get t' (cm_set t e cm) = if decide (t' = t) then Some e else cm_get t' cm.
Proof.
  induction cm as [|[u x] cm IH]; simpl.
  - repeat destruct (decide _); congruence.
  - destruct (decide (t = u)) as [-> |Hne]; simpl; [by repeat destruct (decide _)|].
    rewrite IH. repeat destruct (decide _); congruence.
Qed.

Lemma cache_ok_set h t e cm : entry_ok h t e -> cache_ok h cm -> cache_ok h (cm_set t e cm).
Proof.
  intros He Hc. induction Hc as [|[u x] cm Hx F IH]; simpl; [by apply Forall_singleton|].
  destruct (decide (t = u)); by constructor.
Qed.

(** Everything in [cm] is in [cm']. *)
Definition cm_mono (cm cm' : list (GoType * TypeReflectCacheEntry)) : Prop :=
  forall t, is_Some (cm_get t cm) -> is_Some (cm_get t cm').

Lemma cm_mono_set t e cm : cm_mono cm (cm_set t e cm).
Proof. intros u Hu. rewrite cm_get_set. by destruct (decide _). Qed.

(** The types a lookup of [t0] can reach that are not in the map. *)
Definition missing (t0 : GoType) (cm : list (GoType * TypeReflectCacheEntry)) : nat :=
  length (base.filter (fun t => cm_get t cm = None) (t0 :: fieldTypes)).

Lemma missing_mono t0 cm cm' : cm_mono cm cm' -> (missing t0 cm' <= missing t0 cm)%nat.
Proof.
  intros Hm. unfold missing. induction (t0 :: fieldTypes) as [|t l IH]; [done|]. rewrite !filter_cons.
  destruct (decide (cm_get t cm' = None)) as [E'|E'], (decide (cm_get t cm = None)) as [E|E]; simpl; try lia.
  exfalso. destruct (Hm t) as [x Ex]; [by apply not_eq_None_Some|congruence].
Qed.

Lemma missing_set t0 t e cm :
  t ∈ t0 :: fieldTypes -> cm_get t cm = None -> (missing t0 (cm_set t e cm) < missing t0 cm)%nat.
Proof.
  intros Ht En. unfold missing. induction (t0 :: fieldTypes) as [|u l IH]; [by apply not_elem_of_nil in Ht|].
  assert (Hle : (length (base.filter (fun t' => cm_get t' (cm_set t e cm) = None) l) <=
    length (base.filter (fun t' => cm_get t' cm = None) l))%nat).
  { clear IH Ht. induction l as [|v l IH]; [done|]. rewrite !filter_cons. pose proof (cm_mono_set t e cm v) as Hv.
    destruct (decide (cm_get v (cm_set t e cm) = None)) as [E'|E'], (decide (cm_get v cm = None)) as [E|E]; simpl; try lia.
    exfalso. destruct Hv as [x Ex]; [by apply not_eq_None_Some|congruence]. }
  rewrite !filter_cons. pose proof (cm_mono_set t e cm u) as Hu. rewrite cm_get_set in Hu |- *.
  apply elem_of_cons in Ht as [<- |Ht].
  - rewrite (decide_True _ _ eq_refl). destruct (decide (Some e = None)); [done|].
    destruct (decide (cm_get t cm = None)); [simpl; lia|done].
  - specialize (IH Ht). destruct (decide (u = t)) as [-> |].
    + destruct (decide (Some e = None)); [done|]. destruct (decide (cm_get t cm = None)); simpl; lia.
    + destruct (decide (cm_get u cm = None)); simpl; lia.
Qed.

(** A lookup terminates, and leaves correct updates with the entry. *)
Definition looks_up (cm : list (GoType * TypeReflectCacheEntry)) (t : GoType) (updates : list (GoType * TypeReflectCacheEntry)) (h : Heap)
    (res : option (list (GoType * TypeReflectCacheEntry) * Heap)) : Prop :=
  exists updates' h', res = Some (updates', h') /\ h `prefix_of` h' /\ cache_ok h' updates' /\ cm_mono updates updates' /\
    (is_Some (cm_get t cm) \/ is_Some (cm_get t updates')).

Lemma resolveFields_ok rec cm t0 fuel t fields updates h :
  (forall t' updates h, t' ∈ t0 :: fieldTypes -> cache_ok h cm -> cache_ok h updates -> (missing t0 updates < fuel)%nat ->
    looks_up cm t' updates h (rec t' updates h)) ->
  Forall (fun kv => fieldType kv.2 ∈ fieldTypes) fields -> cache_ok h cm -> cache_ok h updates -> (missing t0 updates < fuel)%nat ->
  exists updates' h', resolveFields rec t fields updates h = Some (updates', h') /\ h `prefix_of` h' /\
    cache_ok h' updates' /\ cm_mono updates updates'.
Proof.
  intros Hrec F. revert updates h. induction F as [|[name field] fields Hf F IH]; intros updates h Hc Hu Hm; cbn [resolveFields].
  { exists updates, h. split_and!; try done. by intros u. }
  destruct (TypeEntry field); [by apply IH|].
  destruct (Hrec (fieldType field) updates h) as (u1 & h1 & E1 & P1 & C1 & M1 & _); [by right|done..|].
  rewrite E1. cbn [mbind option_bind fst snd]. cbv zeta.
  set (u2 := match cm_get t u1 with Some e => _ | None => _ end).
  assert (H2 : cache_ok h1 u2 /\ cm_mono updates u2).
  { unfold u2. destruct (cm_get t u1) as [e|] eqn:Et; [|done]. split.
    - apply cache_ok_set; [|done]. apply setTypeEntry_ok. by eapply cache_ok_get.
    - intros u Hu'. by apply cm_mono_set, M1. }
  destruct H2 as [C2 M2].
  destruct (IH u2 h1) as (u3 & h3 & E3 & P3 & C3 & M3); [by eapply cache_ok_ext|done| |].
  { pose proof (missing_mono t0 updates u2 M2). lia. }
  exists u3, h3. split_and!; [done|by etransitivity|done|]. intros u Hu'. by apply M3, M2.
Qed.

Lemma typeReflectEntryOf_ok cm t0 fuel t updates h :
  t ∈ t0 :: fieldTypes -> cache_ok h cm -> cache_ok h updates -> (missing t0 updates < fuel)%nat ->
  looks_up cm t updates h (typeReflectEntryOf fuel cm t updates h).
Proof.
  revert t updates h. induction fuel as [|fuel IH]; intros t updates h Ht Hc Hu Hm; [lia|]. cbn [typeReflectEntryOf].
  destruct (cm_get t cm) as [x|] eqn:Ec.
  { exists updates, h. split_and!; try done; [by intros u|]. rewrite Ec. eauto. }
  destruct (cm_get t updates) as [x|] eqn:Eu.
  { exists updates, h. split_and!; try done; [by intros u|]. rewrite Eu. eauto. }
  destruct (newEntry_ok t h) as (e & h1 & -> & P1 & He). cbn [mbind option_bind].
  destruct (resolveFields_ok (typeReflectEntryOf fuel cm) cm t0 fuel t (structFields e) (cm_set t e updates) h1)
    as (u2 & h2 & -> & P2 & C2 & M2).
  - intros t' u' h'. apply IH.
  - assert (Hl : info_types (layoutOf t)).
    { unfold layoutOf. destruct (Type_Kind t); try constructor. apply layout_types. constructor. }
    rewrite <-(ok_fields _ _ _ He) in Hl. unfold info_types, resolve in Hl. rewrite Forall_fmap in Hl. exact Hl.
  - by eapply cache_ok_ext.
  - apply cache_ok_set; [done|]. by eapply cache_ok_ext.
  - pose proof (missing_set t0 t e updates Ht Eu). lia.
  - exists u2, h2. split_and!; [done|by etransitivity|done| |].
    + intros u Hu'. by apply M2, cm_mono_set.
    + right. apply M2. rewrite cm_get_set, decide_True by done. eauto.
Qed.

Lemma cache_update_ok h current updates : cache_ok h current -> cache_ok h updates -> cache_ok h (cache_update current updates).
Proof.
  intros Hc Hu. unfold cache_update. destruct (forallb _ _); [done|]. revert current Hc.
  induction Hu as [|[t e] updates He F IH]; intros current Hc; [done|]. simpl. apply IH. by apply cache_ok_set.
Qed.

(** ** Goroutines *)

(** The maps published so far and the state, when goroutines look up types.  Each
    starts from the map that was current when it read it, which others may have
    replaced since. *)
Inductive cache_run (fuel : nat) : list (list (GoType * TypeReflectCacheEntry)) -> CacheState -> Prop :=
  | cache_start : cache_run fuel [[]] (mkCacheState [] [])
  | cache_lookup published s cm t e s' :
    cache_run fuel published s -> cm ∈ published -> TypeReflectEntryOf fuel cm t s = Some (e, s') ->
    cache_run fuel (cs_map s' :: published) s'.

Lemma TypeReflectEntryOf_ok fuel cm t s :
  (S (length fieldTypes) < fuel)%nat -> cache_ok (cs_heap s) cm -> cache_ok (cs_heap s) (cs_map s) ->
  exists e s', TypeReflectEntryOf fuel cm t s = Some (e, s') /\ cs_heap s `prefix_of` cs_heap s' /\
    entry_ok (cs_heap s') t e /\ cache_ok (cs_heap s') (cs_map s').
Proof.
  intros Hf Hc Hs. unfold TypeReflectEntryOf. destruct (cm_get t cm) as [x|] eqn:Ec.
  { exists x, s. split_and!; try done. exact (cache_ok_get _ _ _ _ Hc Ec). }
  destruct (typeReflectEntryOf_ok cm t fuel t [] (cs_heap s)) as (u & h & -> & P & Cu & _ & Hx); [by left|done|constructor| |].
  { unfold missing. pose proof (length_filter (fun x => cm_get x [] = None) (t :: fieldTypes)). simpl in *. lia. }
  destruct Hx as [[x Ex]|[x Ex]]; [congruence|]. cbn [mbind option_bind]. rewrite Ex. cbn [mbind option_bind].
  eexists x, _. split_and!; [done|done|exact (cache_ok_get h u t x Cu Ex)|]. cbn [cs_map cs_heap].
  destruct (_ <? _)%nat; [|by eapply cache_ok_ext]. apply cache_update_ok; [by eapply cache_ok_ext|done].
Qed.

Lemma cache_run_ok fuel published s :
  (S (length fieldTypes) < fuel)%nat -> cache_run fuel published s ->
  Forall (cache_ok (cs_heap s)) published /\ cache_ok (cs_heap s) (cs_map s).
Proof.
  intros Hf. induction 1 as [|published s cm t e s' Hr [IH1 IH2] Hcm E].
  { split; [|constructor]. repeat constructor. }
  destruct (TypeReflectEntryOf_ok fuel cm t s Hf) as (e1 & s1 & E1 & P & _ & C); [|done|].
  { rewrite Forall_forall in IH1. by apply IH1. }
  rewrite E in E1. injection E1 as <- <-. split; [|done]. constructor; [done|].
  eapply Forall_impl; [exact IH1|]. intros x. by apply cache_ok_ext.
Qed.
End Layout.
