(* ===== verification/ValueReflect.v ===== *)
(** * Package value: values backed by Go structs, maps and slices

    Models [value/valuereflect.go], [value/structreflect.go],
    [value/mapreflect.go], [value/listreflect.go] and the conversions of
    [value/reflectcache.go].  Encoding and decoding JSON text is the work of
    [encoding/json], a parameter here ([GoJson]), and so are the methods
    [MarshalJSON] and [ToUnstructured] of the program's types (in [GoProgram]).

    The entry of a type in the cache is the one a first lookup builds
    ([ReflectCacheSpec.v] shows that every lookup finds this one); a pointer to
    it is its type.  Allocators and the reuse of [valueReflect] objects are
    memory management.  Methods that recurse run on fuel: out of fuel is
    [Panic]. *)
From S2P Require Import Prelude GoLib GoFloat Value ValueOrder Schema TypedHelpers GoReflect JsonTag ReflectCache.
From Stdlib Require Import Ascii.

(** ** Conversion to unstructured *)

(** What [json.Decoder] decodes with [UseNumber]. *)
#[warnings="-register-all"]
Inductive jtree :=
  | JNull
  | JBool (b : bool)
  | JNumber (text : string)
  | JString (s : string)
  | JArray (l : list jtree)
  | JObject (m : list (string * jtree)).

Class GoJson := {
  JsonErr : Type;
  decodeString : string -> JsonErr + string;
  decodeObject : string -> JsonErr + list (string * jtree);
  decodeArray : string -> JsonErr + list jtree;
  decodeInt64 : string -> JsonErr + Z;
  decodeFloat64 : string -> JsonErr + spec_float;
  numberInt64 : string -> JsonErr + Z;
  numberFloat64 : string -> JsonErr + spec_float;
  encode : GoType -> GoVal -> JsonErr + string;
}.

(** Slices grow by Go's rule. *)
#[export] Existing Instance go_growth.

Section Convert.
Context {Pg : GoProgram} {J : GoJson}.

Inductive ConvError :=
  | ErrNotPointer
  | ErrMarshal (e : MarshalError)
  | ErrEmptyJson
  | ErrDecode (e : JsonErr)
  | ErrMaxDepth
  | ErrCannotConvert (t : GoType)
  | ErrEncode (e : JsonErr)
  | ErrCannotUnmarshal (from to : GoType).

Definition maxDepth : Z := 10000.

Definition convertNumber (n : string) : ConvError + value :=
  match numberInt64 n with
  | inr i => inr (VInt KInt64 i)
  | inl _ => match numberFloat64 n with inr f => inr (VFloat64 f) | inl e => inl (ErrDecode e) end
  end.

(** The value of an entry, [convertMapNumbers] and [convertSliceNumbers] being called
    with the given depth. *)
Fixpoint convertEntry (depth : Z) (v : jtree) : ConvError + value :=
  match v with
  | JNull => inr VNull
  | JBool b => inr (VBool b)
  | JString s => inr (VString s)
  | JNumber n => convertNumber n
  | JArray l =>
    if maxDepth <? depth then inl ErrMaxDepth
    else
      match (fix go (l : list jtree) : ConvError + list value :=
        match l with
        | [] => inr []
        | x :: l' =>
          match convertEntry (depth + 1) x with
          | inl e => inl e
          | inr y => match go l' with inl e => inl e | inr ys => inr (y :: ys) end
          end
        end) l with
      | inl e => inl e
      | inr ys => inr (VList ys)
      end
  | JObject m =>
    if maxDepth <? depth then inl ErrMaxDepth
    else
      match (fix go (m : list (string * jtree)) : ConvError + Map :=
        match m with
        | [] => inr []
        | (k, x) :: m' =>
          match convertEntry (depth + 1) x with
          | inl e => inl e
          | inr y => match go m' with inl e => inl e | inr ys => inr ((k, y) :: ys) end
          end
        end) m with
      | inl e => inl e
      | inr ys => inr (VMap ys)
      end
  end.

(** [unmarshal] into a map and into a slice. *)
Definition unmarshalObject (data : string) : ConvError + value :=
  match decodeObject data with inl e => inl (ErrDecode e) | inr m => convertEntry 0 (JObject m) end.
Definition unmarshalArray (data : string) : ConvError + value :=
  match decodeArray data with inl e => inl (ErrDecode e) | inr l => convertEntry 0 (JArray l) end.

(** The switch of [ToUnstructured] on the JSON form of a value. *)
Definition fromJson (data : string) : ConvError + value :=
  match data with
  | EmptyString => inl ErrEmptyJson
  | String c _ =>
    if string_eqb data "null" then inr VNull
    else if string_eqb data "true" then inr (VBool true)
    else if string_eqb data "false" then inr (VBool false)
    else if Ascii.eqb c (ascii_of_nat 34) then
      match decodeString data with inl e => inl (ErrDecode e) | inr s => inr (VString s) end
    else if Ascii.eqb c (ascii_of_nat 123) then unmarshalObject data
    else if Ascii.eqb c (ascii_of_nat 91) then unmarshalArray data
    else
      match decodeInt64 data with
      | inr i => inr (VInt KInt64 i)
      | inl _ => match decodeFloat64 data with inr f => inr (VFloat64 f) | inl e => inl (ErrDecode e) end
      end
  end.

Definition CanConvertToUnstructured (e : TypeReflectCacheEntry) : bool :=
  isJsonMarshaler e || ptrIsJsonMarshaler e || isStringConvertable e || ptrIsStringConvertable e.

(** The receiver of [ToUnstructured]: the value, or its address. *)
Definition getUnstructuredConverter (e : TypeReflectCacheEntry) (v : RValue) : option (GoType * GoVal) :=
  if isStringConvertable e then Some (rv_type v, rv_val v)
  else if ptrIsStringConvertable e then
    if rv_addr v then Some (TPtr (rv_type v), GPtr (rv_val v)) else None
  else None.

Definition getJsonMarshaler (e : TypeReflectCacheEntry) (v : RValue) : option (GoType * GoVal) :=
  if isJsonMarshaler e then Some (rv_type v, rv_val v)
  else if ptrIsJsonMarshaler e then
    if (match Kind v with KdPtr => false | _ => true end) && rv_addr v then Some (TPtr (rv_type v), GPtr (rv_val v)) else None
  else None.

Definition ToUnstructured (e : TypeReflectCacheEntry) (sv : RValue) : ConvError + value :=
  if (match Kind sv with KdPtr => true | _ => false end) && (match rv_val sv with GNil => true | _ => false end)
  then inr VNull
  else
    match getUnstructuredConverter e sv with
    | Some (t, v) => inr (ToUnstructuredMethod t v)
    | None =>
      match getJsonMarshaler e sv with
      | Some (t, v) =>
        match MarshalJSON t v with
        | inl err => inl (ErrMarshal err)
        | inr data => fromJson data
        end
      | None => inl (ErrCannotConvert (rv_type sv))
      end
    end.

(** *** Conversion from unstructured *)

Definition CanConvertFromUnstructured (e : TypeReflectCacheEntry) : bool := isJsonUnmarshaler e.

(** Taking the address of a value that has none panics. *)
Definition getJsonUnmarshaler (e : TypeReflectCacheEntry) (v : RValue) : Outcome (option GoType) :=
  if negb (isJsonUnmarshaler e) then Ret None
  else if rv_addr v then Ret (Some (TPtr (rv_type v))) else Panic.

(** What [dv] holds afterwards. *)
Definition entry_FromUnstructured (e : TypeReflectCacheEntry) (sv dv : RValue) : Outcome (ConvError + GoVal) :=
  match encode (rv_type sv) (rv_val sv) with
  | inl err => Ret (inl (ErrEncode err))
  | inr data =>
    unmarshaler ← getJsonUnmarshaler e dv;
    Ret (match unmarshaler with
      | Some t => match UnmarshalJSON t data with inl err => inl (ErrMarshal err) | inr x => inr x end
      | None => inl (ErrCannotUnmarshal (rv_type sv) (rv_type dv))
      end)
  end.

(** ** Values *)

Inductive reflectType :=
  | mapType | structMapType | listType | intType | uintType | floatType | stringType | byteStringType | boolType | nullType.

Record valueReflect := mkValueReflect {
  ParentMap : option (RValue * string);
  vr_Value : RValue;
  vr_kind : reflectType;
}.

Definition nilOr (v : RValue) (k : reflectType) : reflectType :=
  match rv_val v with GNil => nullType | _ => k end.

(** uint64 is not supported: it does not fit an int64. *)
Definition kind (v : RValue) : Outcome reflectType :=
  match Kind v with
  | KdMap => Ret (nilOr v mapType)
  | KdStruct => Ret structMapType
  | KdInt KUint64 => Panic
  | KdInt (KInt | KInt64 | KInt32 | KInt16 | KInt8) => Ret intType
  | KdInt (KUint | KUint32 | KUint16 | KUint8) => Ret uintType
  | KdFloat64 | KdFloat32 => Ret floatType
  | KdString => Ret stringType
  | KdBool => Ret boolType
  | KdSlice =>
    Ret (nilOr v (match Type_Kind (Type_Elem (rv_type v)) with KdInt KUint8 => byteStringType | _ => listType end))
  | KdChan | KdFunc | KdPtr | KdUnsafePointer | KdInterface =>
    match rv_val v with GNil => Ret nullType | _ => Panic end
  | _ => Panic
  end.

Definition safeIsNil (v : RValue) : bool :=
  match Kind v with
  | KdChan | KdFunc | KdMap | KdPtr | KdUnsafePointer | KdInterface | KdSlice =>
    match rv_val v with GNil => true | _ => false end
  | _ => false
  end.

Definition dereference (v : RValue) : Outcome RValue :=
  if (match Kind v with KdInterface | KdPtr => true | _ => false end) && negb (safeIsNil v) then Elem v else Ret v.

(** The entry of a type, as the cache holds it. *)
Definition entryOf (t : GoType) : Outcome (TypeReflectCacheEntry * Heap) :=
  match newEntry t [] with Some e => Ret e | None => Panic end.

(** [reuse]; [cacheEntry] is the entry of a type, [None] for nil. *)
Definition reuse (v : RValue) (cacheEntry : option GoType) (parent : option (RValue * string)) :
    Outcome (ConvError + valueReflect) :=
  e ← entryOf (default (rv_type v) cacheEntry);
  let converted := if CanConvertToUnstructured e.1 then
    match ToUnstructured e.1 v with
    | inl err => inl err
    | inr VNull => inr (mkRV (TPtr (TStruct EmptyString)) GNil false)
    | inr u => let '(t, x) := goVal u in inr (ValueOf t x)
    end else inr v in
  match converted with
  | inl err => Ret (inl err)
  | inr v =>
    d ← dereference v;
    k ← kind d;
    Ret (inr (mkValueReflect parent d k))
  end.

Definition mustReuse (v : RValue) (cacheEntry : option GoType) (parent : option (RValue * string)) : Outcome valueReflect :=
  res ← reuse v cacheEntry parent;
  match res with inl _ => Panic | inr r => Ret r end.

(** [wrapValueReflect] and [mustWrapValueReflect]. *)
Definition wrapValueReflect (v : RValue) (parent : option (RValue * string)) : Outcome (ConvError + valueReflect) :=
  reuse v None parent.
Definition mustWrapValueReflect (v : RValue) (parent : option (RValue * string)) : Outcome valueReflect :=
  mustReuse v None parent.

(** [NewValueReflect] of an [interface{}]: nil is the null of the unstructured values. *)
Definition NewValueReflect (x : option (GoType * GoVal)) : Outcome (ConvError + (value + valueReflect)) :=
  match x with
  | None => Ret (inr (inl VNull))
  | Some (t, v) =>
    match Type_Kind t with
    | KdPtr =>
      res ← wrapValueReflect (ValueOf t v) None;
      Ret (match res with inl e => inl e | inr r => inr (inr r) end)
    | _ => Ret (inl ErrNotPointer)
    end
  end.

Definition r_IsMap (r : valueReflect) : bool := match vr_kind r with mapType | structMapType => true | _ => false end.
Definition r_IsList (r : valueReflect) : bool := match vr_kind r with listType => true | _ => false end.
Definition r_IsBool (r : valueReflect) : bool := match vr_kind r with boolType => true | _ => false end.
Definition r_IsInt (r : valueReflect) : bool := match vr_kind r with intType | uintType => true | _ => false end.
Definition r_IsFloat (r : valueReflect) : bool := match vr_kind r with floatType => true | _ => false end.
Definition r_IsString (r : valueReflect) : bool := match vr_kind r with stringType | byteStringType => true | _ => false end.
Definition r_IsNull (r : valueReflect) : bool := match vr_kind r with nullType => true | _ => false end.

(** *** Scalars *)

(** [base64.StdEncoding]: the character of a group of six bits. *)
Definition base64_char (n : Z) : ascii :=
  ascii_of_nat (Z.to_nat (
    if n <? 26 then 65 + n else if n <? 52 then 71 + n else if n <? 62 then n - 4 else if n =? 62 then 43 else 47)).

Fixpoint base64_encode (bs : list Z) : string :=
  match bs with
  | [] => EmptyString
  | [a] =>
    String (base64_char (Z.shiftr a 2)) (String (base64_char (Z.shiftl (Z.land a 3) 4))
      (String (ascii_of_nat 61) (String (ascii_of_nat 61) EmptyString)))
  | [a; b] =>
    String (base64_char (Z.shiftr a 2)) (String (base64_char (Z.lor (Z.shiftl (Z.land a 3) 4) (Z.shiftr b 4)))
      (String (base64_char (Z.shiftl (Z.land b 15) 2)) (String (ascii_of_nat 61) EmptyString)))
  | a :: b :: c :: bs' =>
    String (base64_char (Z.shiftr a 2)) (String (base64_char (Z.lor (Z.shiftl (Z.land a 3) 4) (Z.shiftr b 4)))
      (String (base64_char (Z.lor (Z.shiftl (Z.land b 15) 2) (Z.shiftr c 6))) (String (base64_char (Z.land c 63))
        (base64_encode bs'))))
  end.

(** [Value.Bytes]. *)
Definition Bytes (v : RValue) : list Z :=
  match rv_val v with GSlice l => map (fun x => match x with GInt i => i | _ => 0 end) l | _ => [] end.

Definition r_AsBool (r : valueReflect) : Outcome bool :=
  if r_IsBool r then Ret (match rv_val (vr_Value r) with GBool b => b | _ => false end) else Panic.

Definition r_AsInt (r : valueReflect) : Outcome Z :=
  match vr_kind r with
  | intType => Ret (match rv_val (vr_Value r) with GInt i => i | _ => 0 end)
  | uintType => Ret (match rv_val (vr_Value r) with GInt i => to_int64 i | _ => 0 end)
  | _ => Panic
  end.

Definition r_AsFloat (r : valueReflect) : Outcome spec_float :=
  if r_IsFloat r then Ret (match rv_val (vr_Value r) with GFloat f => f | _ => S754_nan end) else Panic.

Definition r_AsString (r : valueReflect) : Outcome string :=
  match vr_kind r with
  | stringType => Ret (match rv_val (vr_Value r) with GString s => s | _ => EmptyString end)
  | byteStringType => Ret (base64_encode (Bytes (vr_Value r)))
  | _ => Panic
  end.

(** ** structreflect.go *)

(** [FieldCacheEntry.GetFrom]: through inlined structs and pointers to them. *)
Fixpoint getFrom (path : list nat) (v : RValue) : Outcome RValue :=
  match path with
  | [] => Ret v
  | i :: path' => d ← dereference v; f ← Field_ d i; getFrom path' f
  end.
Definition GetFrom (f : FieldInfo) (structVal : RValue) : Outcome RValue := getFrom (fi_path f) structVal.

Definition CanOmit (f : FieldInfo) (fieldVal : RValue) : Outcome bool :=
  if fi_omitEmpty f then if safeIsNil fieldVal then Ret true else isZero fieldVal else Ret false.

(** The fields of a struct type by name, in the order of their names. *)
Definition structEntry (t : GoType) : Outcome (list FieldInfo) :=
  e ← entryOf t; Ret (OrderedFields e.2 e.1).
Definition findField (t : GoType) (key : string) : Outcome (option FieldInfo) :=
  e ← entryOf t; Ret (assoc_get key (Fields e.2 e.1)).

Section Iterate.
(** The callback, with what it captures as the state [S]. *)
Context {S : Type}.

Fixpoint eachField (fn : GoType -> string -> RValue -> S -> Outcome (S * bool)) (fields : list FieldInfo)
    (structVal : RValue) (s : S) : Outcome (S * bool) :=
  match fields with
  | [] => Ret (s, true)
  | f :: fields' =>
    fieldVal ← GetFrom f structVal;
    omit ← CanOmit f fieldVal;
    if (omit : bool) then eachField fn fields' structVal s
    else
      res ← fn (fi_type f) (fi_name f) fieldVal s;
      if res.2 : bool then eachField fn fields' structVal res.1 else Ret (res.1, false)
  end.

Definition eachStructField (structVal : RValue) (fn : GoType -> string -> RValue -> S -> Outcome (S * bool)) (s : S) :
    Outcome (S * bool) :=
  fields ← structEntry (rv_type structVal); eachField fn fields structVal s.

Definition struct_Iterate (r : valueReflect) (fn : string -> valueReflect -> S -> Outcome (S * bool)) (s : S) :
    Outcome (S * bool) :=
  eachStructField (vr_Value r) (fun e name v s => r' ← mustReuse v (Some e) None; fn name r' s) s.

(** ** mapreflect.go: iteration *)

Fixpoint eachEntry (fn : GoType -> string -> RValue -> S -> Outcome (S * bool)) (t : GoType) (m : list (string * RValue))
    (s : S) : Outcome (S * bool) :=
  match m with
  | [] => Ret (s, true)
  | (k, v) :: m' =>
    res ← fn t k v s;
    if res.2 : bool then eachEntry fn t m' res.1 else Ret (res.1, false)
  end.

Definition eachMapEntry (v : RValue) (fn : GoType -> string -> RValue -> S -> Outcome (S * bool)) (s : S) : Outcome (S * bool) :=
  eachEntry fn (Type_Elem (rv_type v)) (MapEntries v) s.

Definition map_IterateR (r : valueReflect) (fn : string -> valueReflect -> S -> Outcome (S * bool)) (s : S) :
    Outcome (S * bool) :=
  if (Len (vr_Value r) =? 0)%nat then Ret (s, true)
  else eachMapEntry (vr_Value r) (fun e k v s => r' ← mustReuse v (Some e) (Some (vr_Value r, k)); fn k r' s) s.
End Iterate.

Definition struct_Length (r : valueReflect) : Outcome nat :=
  res ← eachStructField (vr_Value r) (fun _ _ _ i => Ret (S i, true)) 0%nat; Ret res.1.

Definition struct_Empty (r : valueReflect) : Outcome bool :=
  res ← eachStructField (vr_Value r) (fun _ _ _ (_ : unit) => Ret (tt, false)) tt; Ret res.2.

(** [findJsonNameField]: the value of a field that is not omitted. *)
Definition findJsonNameField (r : valueReflect) (jsonName : string) : Outcome (option RValue) :=
  f ← findField (rv_type (vr_Value r)) jsonName;
  match f with
  | None => Ret None
  | Some f =>
    fieldVal ← GetFrom f (vr_Value r);
    omit ← CanOmit f fieldVal;
    Ret (if (omit : bool) then None else Some fieldVal)
  end.

Definition struct_Get (r : valueReflect) (key : string) : Outcome (option valueReflect) :=
  v ← findJsonNameField r key;
  match v with
  | Some v => r' ← mustReuse v None None; Ret (Some r')
  | None => Ret None
  end.

Definition struct_Has (r : valueReflect) (key : string) : Outcome bool :=
  v ← findJsonNameField r key; Ret (match v with Some _ => true | None => false end).

(** ** mapreflect.go *)

Definition mapR_Length (r : valueReflect) : nat := Len (vr_Value r).
Definition mapR_Empty (r : valueReflect) : bool := (Len (vr_Value r) =? 0)%nat.

Definition mapR_Get (r : valueReflect) (key : string) : Outcome (option valueReflect) :=
  match MapIndex (vr_Value r) key with
  | None => Ret None
  | Some v => r' ← mustReuse v None (Some (vr_Value r, key)); Ret (Some r')
  end.

Definition mapR_Has (r : valueReflect) (key : string) : bool :=
  match MapIndex (vr_Value r) key with Some _ => true | None => false end.

(** ** listreflect.go *)

Definition listR_Length (r : valueReflect) : nat := Len (vr_Value r).

Definition listR_At (r : valueReflect) (i : nat) : Outcome valueReflect :=
  v ← Index_ (vr_Value r) i; mustWrapValueReflect v None.

(** [listReflectRange]: [Next] and [Item]. *)
Record listReflectRange := mkListReflectRange { lr_list : RValue; lr_i : Z; lr_entry : GoType }.

Definition listR_Range (r : valueReflect) : option listReflectRange :=
  if (Len (vr_Value r) =? 0)%nat then None
  else Some (mkListReflectRange (vr_Value r) (-1) (Type_Elem (rv_type (vr_Value r)))).

Definition lr_Next (rr : listReflectRange) : listReflectRange * bool :=
  let i := lr_i rr + 1 in (mkListReflectRange (lr_list rr) i (lr_entry rr), i <? Z.of_nat (Len (lr_list rr))).

Definition lr_Item (rr : listReflectRange) : Outcome (Z * valueReflect) :=
  if lr_i rr <? 0 then Panic
  else if Z.of_nat (Len (lr_list rr)) <=? lr_i rr then Panic
  else
    v ← Index_ (lr_list rr) (Z.to_nat (lr_i rr));
    r ← mustReuse v (Some (lr_entry rr)) None;
    Ret (lr_i rr, r).

(** ** Unstructured *)

(** [Unstructured] of a map or struct: the entries of [iterate] in a new map. *)
Definition collect (unstructured : valueReflect -> Outcome value)
    (iterate : (string -> valueReflect -> Map -> Outcome (Map * bool)) -> Map -> Outcome (Map * bool)) : Outcome value :=
  res ← iterate (fun k v result => u ← unstructured v; Ret (assoc_set k u result, true)) [];
  Ret (VMap res.1).

(** [listReflect.Unstructured]: [n] items from index [i] on. *)
Fixpoint listItems (unstructured : valueReflect -> Outcome value) (r : valueReflect) (i n : nat) : Outcome (list value) :=
  match n with
  | O => Ret []
  | S n =>
    r' ← listR_At r i;
    u ← unstructured r';
    rest ← listItems unstructured r (S i) n;
    Ret (u :: rest)
  end.

Definition unstructured_body (unstructured : valueReflect -> Outcome value) (r : valueReflect) : Outcome value :=
  if r_IsNull r then Ret VNull
  else
    match Kind (vr_Value r) with
    | KdStruct => collect unstructured (struct_Iterate r)
    | KdMap => collect unstructured (map_IterateR r)
    | _ =>
      if r_IsList r then l ← listItems unstructured r 0 (listR_Length r); Ret (VList l)
      else if r_IsString r then s ← r_AsString r; Ret (VString s)
      else if r_IsInt r then i ← r_AsInt r; Ret (VInt KInt64 i)
      else if r_IsBool r then b ← r_AsBool r; Ret (VBool b)
      else if r_IsFloat r then f ← r_AsFloat r; Ret (VFloat64 f)
      else Panic
    end.

Fixpoint Unstructured (fuel : nat) (r : valueReflect) : Outcome value :=
  match fuel with
  | O => Panic
  | S fuel => unstructured_body (Unstructured fuel) r
  end.

(** ** Traversing two values *)
Section Zip.
Context {S : Type} (fn : string -> option valueReflect -> option valueReflect -> S -> Outcome (S * bool)).

(** The value of a field, or nothing if it is omitted. *)
Definition zipOperand (f : FieldInfo) (omit : bool) (v : RValue) : Outcome (option valueReflect) :=
  if omit then Ret None else r ← mustReuse v (Some (fi_type f)) None; Ret (Some r).

Fixpoint zipFields (fields : list FieldInfo) (lhs rhs : RValue) (s : S) : Outcome (S * bool) :=
  match fields with
  | [] => Ret (s, true)
  | f :: fields' =>
    lhsFieldVal ← GetFrom f lhs;
    rhsFieldVal ← GetFrom f rhs;
    lhsOmit ← CanOmit f lhsFieldVal;
    rhsOmit ← CanOmit f rhsFieldVal;
    if (lhsOmit : bool) && (rhsOmit : bool) then zipFields fields' lhs rhs s
    else
      lhsVal ← zipOperand f lhsOmit lhsFieldVal;
      rhsVal ← zipOperand f rhsOmit rhsFieldVal;
      res ← fn (fi_name f) lhsVal rhsVal s;
      if res.2 : bool then zipFields fields' lhs rhs res.1 else Ret (res.1, false)
  end.

(** [structZip], for two structs of the same type. *)
Definition structZip (r other : valueReflect) (s : S) : Outcome (S * bool) :=
  fields ← structEntry (rv_type (vr_Value r)); zipFields fields (vr_Value r) (vr_Value other) s.

(** The loops of [unorderedReflectZip], over the right map and then over the keys of the
    left map that were not visited. *)
Fixpoint zipRight (lhs : RValue) (rhs : RValue) (m : list (string * RValue)) (s : S) : Outcome (S * bool) :=
  match m with
  | [] => Ret (s, true)
  | (key, v) :: m' =>
    rhsVal ← mustReuse v (Some (Type_Elem (rv_type rhs))) (Some (rhs, key));
    lhsVal ← match MapIndex lhs key with
      | Some x => l ← mustReuse x (Some (Type_Elem (rv_type lhs))) (Some (lhs, key)); Ret (Some l)
      | None => Ret None
      end;
    res ← fn key lhsVal (Some rhsVal) s;
    if res.2 : bool then zipRight lhs rhs m' res.1 else Ret (res.1, false)
  end.

Fixpoint zipLeft (lhs : RValue) (visited : list string) (m : list (string * RValue)) (s : S) : Outcome (S * bool) :=
  match m with
  | [] => Ret (s, true)
  | (key, v) :: m' =>
    if bool_decide (key ∈ visited) then zipLeft lhs visited m' s
    else
      l ← mustReuse v (Some (Type_Elem (rv_type lhs))) (Some (lhs, key));
      res ← fn key (Some l) None s;
      if res.2 : bool then zipLeft lhs visited m' res.1 else Ret (res.1, false)
  end.

(** [unorderedReflectZip]; a nil map is [None]. *)
Definition unorderedReflectZip (r : valueReflect) (other : option valueReflect) (s : S) : Outcome (S * bool) :=
  if mapR_Empty r && match other with Some o => mapR_Empty o | None => true end then Ret (s, true)
  else
    res ← match other with
      | Some o => zipRight (vr_Value r) (vr_Value o) (MapEntries (vr_Value o)) s
      | None => Ret (s, true)
      end;
    if negb (res.2 : bool) then Ret (res.1, false)
    else
      let visited := match other with Some o => (MapEntries (vr_Value o)).*1 | None => [] end in
      zipLeft (vr_Value r) visited (MapEntries (vr_Value r)) res.1.
End Zip.

(** ** Writing *)

(** What a write did: the struct itself now holds the value, or the entry of the
    parent map does. *)
Inductive Effect := InPlace (v : GoVal) | MapEntry (key : string) (v : GoVal).

(** A value is assignable to a type: the same type, or an interface. *)
Definition assign (t : GoType) (new : GoType * GoVal) : Outcome GoVal :=
  if decide (t = new.1) then Ret new.2
  else match Type_Kind t with KdInterface => Ret (toIface new) | _ => Panic end.

(** [Value.Set] on the field that a path leads to, in the struct that holds it.  A
    field of what a pointer refers to is settable; any other is if its struct is. *)
Fixpoint setAt (path : list nat) (v : RValue) (new : GoType * GoVal) : Outcome GoVal :=
  match path with
  | [] => if rv_addr v then assign (rv_type v) new else Panic
  | i :: path' =>
    d ← dereference v;
    f ← Field_ d i;
    x ← setAt path' f new;
    match rv_val d with
    | GStruct l =>
      let d' := GStruct (<[i := x]> l) in
      Ret (match rv_val v with
        | GPtr _ => GPtr d'
        | GIface t _ => GIface t d'
        | _ => d'
        end)
    | _ => Panic
    end
  end.

(** [reflect.ValueOf(val.Unstructured())]; [None] is the zero value of a nil. *)
Definition newVal (u : value) : option (GoType * GoVal) := match u with VNull => None | _ => Some (goVal u) end.

(** [structReflect.update]; assigning the zero [reflect.Value] panics. *)
Definition struct_update (r : valueReflect) (f : FieldInfo) (oldVal : RValue) (new : option (GoType * GoVal)) : Outcome Effect :=
  match new with
  | None => Panic
  | Some new =>
    if rv_addr oldVal then v ← setAt (fi_path f) (vr_Value r) new; Ret (InPlace v)
    else
      match ParentMap r with
      | Some (_, key) =>
        let t := rv_type (vr_Value r) in
        v ← setAt (fi_path f) (mkRV t (Zero t) true) new;
        Ret (MapEntry key v)
      | None => Panic
      end
  end.

Definition struct_Set (r : valueReflect) (key : string) (u : value) : Outcome Effect :=
  f ← findField (rv_type (vr_Value r)) key;
  match f with
  | None => Panic
  | Some f => oldVal ← GetFrom f (vr_Value r); struct_update r f oldVal (newVal u)
  end.

Definition struct_Delete (r : valueReflect) (key : string) : Outcome Effect :=
  f ← findField (rv_type (vr_Value r)) key;
  match f with
  | None => Panic
  | Some f =>
    oldVal ← GetFrom f (vr_Value r);
    if (match Kind oldVal with KdPtr => false | _ => true end) && negb (fi_omitEmpty f) then Panic
    else struct_update r f oldVal (Some (rv_type oldVal, Zero (rv_type oldVal)))
  end.

(** [mapReflect.Set] and [Delete]: the map afterwards.  Setting a nil deletes the key. *)
Definition mapR_Set (r : valueReflect) (key : string) (u : value) : Outcome GoVal :=
  match rv_val (vr_Value r) with
  | GMap m =>
    match newVal u with
    | None => Ret (GMap (base.filter (fun kv => kv.1 <> key) m))
    | Some new => v ← assign (Type_Elem (rv_type (vr_Value r))) new; Ret (GMap (assoc_set key v m))
    end
  | _ => Panic
  end.

Definition mapR_Delete (r : valueReflect) (key : string) : Outcome GoVal :=
  match rv_val (vr_Value r) with
  | GMap m => Ret (GMap (base.filter (fun kv => kv.1 <> key) m))
  | _ => Panic
  end.

(** ** The interface Map *)

(** [AsMap] followed by a method: a struct or a map. *)
Definition AsMap_Get (r : valueReflect) (key : string) : Outcome (option valueReflect) :=
  match vr_kind r with structMapType => struct_Get r key | mapType => mapR_Get r key | _ => Panic end.
Definition AsMap_Has (r : valueReflect) (key : string) : Outcome bool :=
  match vr_kind r with structMapType => struct_Has r key | mapType => Ret (mapR_Has r key) | _ => Panic end.
Definition AsMap_Length (r : valueReflect) : Outcome nat :=
  match vr_kind r with structMapType => struct_Length r | mapType => Ret (mapR_Length r) | _ => Panic end.
Definition AsMap_Empty (r : valueReflect) : Outcome bool :=
  match vr_kind r with structMapType => struct_Empty r | mapType => Ret (mapR_Empty r) | _ => Panic end.
Definition AsMap_Iterate {S} (r : valueReflect) (fn : string -> valueReflect -> S -> Outcome (S * bool)) (s : S) :
    Outcome (S * bool) :=
  match vr_kind r with structMapType => struct_Iterate r fn s | mapType => map_IterateR r fn s | _ => Panic end.
End Convert.
