(* ===== verification/ReflectSpec.v ===== *)
(** * Reflected values agree with their unstructured form

    [supported] says, by evaluation, which Go values the package can present:
    conversions succeed, no kind it refuses occurs, no inlined pointer is nil.
    On such a value [Unstructured] terminates, and every accessor (kinds,
    scalars, items of a list, and length, lookup and iteration of a map or
    struct) gives what the unstructured form has.  This carries the results on
    unstructured values over to typed Go objects. *)
From S2P Require Import Prelude GoLib GoFloat Value ValueOrder Schema TypedHelpers GoReflect JsonTag ReflectCache.
From S2P Require Import ReflectCacheSpec ValueReflect.

(** ** Layouts *)
Section Layouts.
Context {Pg : GoProgram}.

Definition layout_wf (l : list (string * FieldInfo)) : Prop :=
  NoDup (assoc_keys l) /\ Forall (fun kv => fi_name kv.2 = kv.1) l.

Lemma layout_wf_set name x l : fi_name x = name -> layout_wf l -> layout_wf (assoc_set name x l).
Proof.
  intros Hx [N F]. induction l as [|[k y] l IH]; simpl.
  - split; [apply NoDup_singleton|by apply Forall_singleton].
  - unfold assoc_keys in N. rewrite fmap_cons in N. apply NoDup_cons in N as [N1 N2]. apply Forall_cons in F as [F1 F2].
    simpl in F1, N1. destruct (string_eqb k name) eqn:Ek.
    + apply string_eqb_true in Ek. split; [by constructor|]. apply Forall_cons. split; [simpl; congruence|exact F2].
    + destruct (IH N2 F2) as [N' F']. split; [|apply Forall_cons; split; [exact F1|exact F']]. unfold assoc_keys. rewrite fmap_cons. apply NoDup_cons_2; [|done]. cbn [fst].
      intros [-> |Hin]%assoc_set_keys; [by rewrite string_eqb_refl in Ek|done].
Qed.

Lemma layout_is_wf k t path acc : layout_wf acc -> layout_wf (layout k t path acc).
Proof.
  assert (Hf : forall rec fields i path acc, (forall t path acc, layout_wf acc -> layout_wf (rec t path acc)) ->
    layout_wf acc -> layout_wf (layoutFields rec fields i path acc)).
  { intros rec fields i p acc' Hrec. revert i acc'. induction fields as [|f fields IH]; intros i acc' Ha; [done|].
    cbn [layoutFields]. destruct (lookupJsonTags f) as [[[name omit] isInline] om]. apply IH.
    destruct omit; [done|]. destruct isInline; [destruct (inlinedType _); auto|]. by apply layout_wf_set. }
  revert t path acc. induction k as [|k IH]; intros t path acc Ha; cbn [layout]; apply Hf; auto.
Qed.

Lemma layoutOf_wf t : layout_wf (layoutOf t).
Proof. unfold layoutOf. destruct (Type_Kind t); try (by split; constructor). apply layout_is_wf. by split; constructor. Qed.

(** The fields in the order of their names. *)
Definition orderedLayout (t : GoType) : list FieldInfo :=
  omap (fun n => assoc_get n (layoutOf t)) (sort_stable string_ltb (assoc_keys (layoutOf t))).

Lemma orderedLayout_names t : fi_name <$> orderedLayout t = sort_stable string_ltb (assoc_keys (layoutOf t)).
Proof.
  unfold orderedLayout. destruct (layoutOf_wf t) as [N F].
  assert (H : Forall (fun n => exists f, assoc_get n (layoutOf t) = Some f /\ fi_name f = n)
    (sort_stable string_ltb (assoc_keys (layoutOf t)))).
  { rewrite sort_stable_perm. apply Forall_forall. intros n Hn.
    destruct (assoc_get n (layoutOf t)) as [f|] eqn:E; [|by apply assoc_get_None in E].
    exists f. split; [done|]. apply assoc_get_Some in E. rewrite Forall_forall in F. by apply (F (n, f)). }
  induction H as [|n l (f & E & En) H IH]; [done|]. cbn [omap list_omap]. rewrite E. cbn. by rewrite IH, En.
Qed.

Lemma orderedLayout_NoDup t : NoDup (fi_name <$> orderedLayout t).
Proof. rewrite orderedLayout_names, sort_stable_perm. apply layoutOf_wf. Qed.

Lemma orderedLayout_elem t f : f ∈ orderedLayout t <-> assoc_get (fi_name f) (layoutOf t) = Some f.
Proof.
  unfold orderedLayout. rewrite list_elem_of_omap. setoid_rewrite sort_stable_perm. split.
  - intros (n & _ & E). assert (fi_name f = n) as ->; [|done].
    destruct (layoutOf_wf t) as [_ F]. apply assoc_get_Some in E. rewrite Forall_forall in F. by apply (F (n, f)).
  - intros E. exists (fi_name f). split; [|done]. apply assoc_get_Some in E. unfold assoc_keys.
    apply list_elem_of_fmap. by exists (fi_name f, f).
Qed.
End Layouts.

(** ** Supported values *)
Section Supported.
Context {Pg : GoProgram} {J : GoJson}.

Definition converts (t : GoType) : bool :=
  hasMarshalJSON t || hasMarshalJSON (TPtr t) || implementsConverter t || implementsConverter (TPtr t).

(** The flags of the entry of a type. *)
Definition flagsOf (t : GoType) : TypeReflectCacheEntry :=
  mkTypeReflectCacheEntry (hasMarshalJSON t) (hasMarshalJSON (TPtr t)) (hasUnmarshalJSON (TPtr t))
    (implementsConverter t) (implementsConverter (TPtr t)) [] [].

(** A field of a struct: it can be read, and it is omitted or supported. *)
Definition field_supported (sup : RValue -> bool) (v : RValue) (f : FieldInfo) : bool :=
  match GetFrom f v with
  | Panic => false
  | Ret fv =>
    match CanOmit f fv with
    | Panic => false
    | Ret omit => (omit || sup fv) && bool_decide (rv_type fv = fi_type f)
    end
  end.

(** A value after dereferencing, with supported parts. *)
Definition plain (sup : RValue -> bool) (v : RValue) : bool :=
  match kind v with
  | Panic => false
  | Ret k =>
    match k, rv_val v with
    | nullType, _ | boolType, GBool _ | intType, GInt _ | uintType, GInt _ | floatType, GFloat _ | stringType, GString _
    | byteStringType, GSlice _ => true
    | listType, GSlice l => forallb (fun x => sup (mkRV (Type_Elem (rv_type v)) x true)) l
    | mapType, GMap m =>
      bool_decide (NoDup (assoc_keys m)) && forallb (fun kv => sup (mkRV (Type_Elem (rv_type v)) kv.2 false)) m
    | structMapType, GStruct _ => forallb (field_supported sup v) (orderedLayout (rv_type v))
    | _, _ => false
    end
  end.

(** A value that [reuse] accepts, [n] levels deep. *)
Fixpoint supported (n : nat) (v : RValue) : bool :=
  match n with
  | O => false
  | S n =>
    if converts (rv_type v) then
      match ToUnstructured (flagsOf (rv_type v)) v with
      | inl _ => false
      | inr VNull => true
      | inr u => plain (supported n) (ValueOf (goVal u).1 (goVal u).2)
      end
    else match dereference v with Panic => false | Ret d => plain (supported n) d end
  end.

(** ** Agreement *)

(** A loop over entries, until the callback returns false. *)
Fixpoint foldEntries {A S} (fn : string -> A -> S -> Outcome (S * bool)) (rs : list (string * A)) (s : S) :
    Outcome (S * bool) :=
  match rs with
  | [] => Ret (s, true)
  | (k, r) :: rs' => res ← fn k r s; if res.2 : bool then foldEntries fn rs' res.1 else Ret (res.1, false)
  end.

(** The accessors of [r] give what [u] has; [R] relates the parts. *)
Definition agrees (R : valueReflect -> value -> Prop) (r : valueReflect) (u : value) : Prop :=
  (r_IsNull r, r_IsBool r, r_IsInt r, r_IsFloat r, r_IsString r, r_IsList r, r_IsMap r) =
    (IsNull u, IsBool u, IsInt u, IsFloat u, IsString u, IsList u, IsMap u) /\
  match u with
  | VNull => True
  | VBool b => r_AsBool r = Ret b
  | VInt _ i => r_AsInt r = Ret i
  | VFloat32 f | VFloat64 f => r_AsFloat r = Ret f
  | VString s => r_AsString r = Ret s
  | VList l =>
    let range := mkListReflectRange (vr_Value r) (-1) (Type_Elem (rv_type (vr_Value r))) in
    listR_Length r = length l /\ listR_Range r = (match l with [] => None | _ => Some range end) /\
    forall i x, l !! i = Some x ->
      (exists r', listR_At r i = Ret r' /\ R r' x) /\
      exists r', lr_Item (Nat.iter (S i) (fun rr => (lr_Next rr).1) range) = Ret (Z.of_nat i, r') /\ R r' x
  | VMap m =>
    NoDup (assoc_keys m) /\ AsMap_Length r = Ret (length m) /\ AsMap_Empty r = Ret (length m =? 0)%nat /\
    (forall k, match assoc_get k m with
      | Some x => AsMap_Has r k = Ret true /\ exists r', AsMap_Get r k = Ret (Some r') /\ R r' x
      | None => AsMap_Has r k = Ret false /\ AsMap_Get r k = Ret None
      end) /\
    exists rs, Forall2 (fun a b => a.1 = b.1 /\ R a.2 b.2) rs m /\
      forall S (fn : string -> valueReflect -> S -> Outcome (S * bool)) s, AsMap_Iterate r fn s = foldEntries fn rs s
  end.

(** [u] is the unstructured form of [r], and everything [r] shows, to the leaves, is in it. *)
Fixpoint refines (n : nat) (r : valueReflect) (u : value) : Prop :=
  match n with
  | O => False
  | S n => Unstructured (S n) r = Ret u /\ agrees (refines n) r u
  end.
End Supported.

(** ** The proof *)
Section Refine.
Context {Pg : GoProgram} {J : GoJson}.
Hypothesis shallow : forall t, Type_Kind t = KdStruct -> inlineWithin 2 t = true.

Lemma entryOf_ok t : exists e h, entryOf t = Ret (e, h) /\ entry_ok h t e.
Proof. unfold entryOf. destruct (newEntry_ok shallow t []) as (e & h & -> & _ & He). eauto. Qed.

Lemma resolve_get h k infos : assoc_get k (resolve h infos) = fieldInfo h <$> assoc_get k infos.
Proof. induction infos as [|[k' x] infos IH]; [done|]. unfold resolve in *. simpl. by destruct (string_eqb _ _). Qed.

Lemma structEntry_ordered t : structEntry t = Ret (orderedLayout t).
Proof.
  unfold structEntry. destruct (entryOf_ok t) as (e & h & -> & He). simpl. f_equal. unfold OrderedFields, orderedLayout.
  rewrite (ok_ordered _ _ _ He). apply list_omap_ext. apply Forall_Forall2_diag, Forall_true. intros n.
  by rewrite <-(ok_fields _ _ _ He), resolve_get.
Qed.

Lemma findField_layout t k : findField t k = Ret (assoc_get k (layoutOf t)).
Proof. unfold findField. destruct (entryOf_ok t) as (e & h & -> & He). simpl. by rewrite <-(ok_fields _ _ _ He). Qed.

(** What [reuse] reflects on: a value or what it converts to. *)
Definition presented (v : RValue) : Outcome RValue :=
  if converts (rv_type v) then
    match ToUnstructured (flagsOf (rv_type v)) v with
    | inl _ => Panic
    | inr VNull => Ret (mkRV (TPtr (TStruct EmptyString)) GNil false)
    | inr u => Ret (ValueOf (goVal u).1 (goVal u).2)
    end
  else Ret v.

Lemma ToUnstructured_flags h t e v : entry_ok h t e -> ToUnstructured e v = ToUnstructured (flagsOf t) v.
Proof.
  intros He. unfold ToUnstructured, getUnstructuredConverter, getJsonMarshaler, flagsOf. cbn [isJsonMarshaler ptrIsJsonMarshaler isStringConvertable ptrIsStringConvertable].
  by rewrite (ok_marshaler _ _ _ He), (ok_ptrMarshaler _ _ _ He), (ok_convertable _ _ _ He), (ok_ptrConvertable _ _ _ He).
Qed.

Definition own_entry (c : option GoType) (v : RValue) : Prop := c = None \/ c = Some (rv_type v).

Lemma mustReuse_presented v c parent :
  own_entry c v ->
  mustReuse v c parent = (p ← presented v; d ← dereference p; k ← kind d; Ret (mkValueReflect parent d k)).
Proof.
  intros Hc. unfold mustReuse, reuse, presented. replace (default (rv_type v) c) with (rv_type v) by (by destruct Hc as [-> | ->]).
  destruct (entryOf_ok (rv_type v)) as (e & h & -> & He). cbn [mbind Outcome_bind fst].
  rewrite (ToUnstructured_flags _ _ _ _ He). unfold CanConvertToUnstructured, converts.
  rewrite (ok_marshaler _ _ _ He), (ok_ptrMarshaler _ _ _ He), (ok_convertable _ _ _ He), (ok_ptrConvertable _ _ _ He).
  destruct (_ || _ || _ || _); [destruct (ToUnstructured _ _) as [err|[]]|]; try done; unfold ValueOf; cbn [goVal fst snd mbind Outcome_bind].
  all: destruct (dereference _) as [|d]; [done|]; cbn [mbind Outcome_bind]; by destruct (kind d).
Qed.

(** *** The parts *)
Section Parts.
Context (R : valueReflect -> value -> Prop).

(** Every way to reflect on [x] shows [u]. *)
Definition presents (x : RValue) (u : value) : Prop :=
  forall c parent, own_entry c x -> exists r, mustReuse x c parent = Ret r /\ R r u.

Abbreviation shows := (Forall2 (fun (a : string * valueReflect) (b : string * value) => a.1 = b.1 /\ R a.2 b.2)).

Lemma collect_entries f rs m acc :
  (forall r u, R r u -> f r = Ret u) -> shows rs m -> NoDup (assoc_keys (acc ++ m)) ->
  foldEntries (fun k v result => u ← f v; Ret (assoc_set k u result, true)) rs acc = Ret (acc ++ m, true).
Proof.
  intros Hf H. revert acc. induction H as [|[k r] [k' u] rs m [Ek Hr] H IH]; intros acc N; simpl; [by rewrite app_nil_r|].
  simpl in Ek, Hr. subst k'. rewrite (Hf _ _ Hr). cbn. rewrite assoc_set_absent.
  - rewrite (IH (acc ++ [(k, u)])); rewrite <-app_assoc; [done|exact N].
  - apply assoc_get_None. unfold assoc_keys in *. rewrite fmap_app in N. apply NoDup_app in N as (_ & N & _).
    intros Hin. apply (N k Hin). left.
Qed.

(** **** Structs *)

Definition field_shows (v : RValue) (f : FieldInfo) (o : option value) : Prop :=
  exists fv omit, GetFrom f v = Ret fv /\ CanOmit f fv = Ret omit /\ rv_type fv = fi_type f /\
    match o with None => omit = true | Some u => omit = false /\ presents fv u end.

Definition visible (fields : list FieldInfo) (os : list (option value)) : Map :=
  omap (fun fo => (fun u => (fi_name fo.1, u)) <$> fo.2) (zip fields os).

Lemma visible_cons f fields o os :
  visible (f :: fields) (o :: os) = match o with Some u => (fi_name f, u) :: visible fields os | None => visible fields os end.
Proof. by destruct o. Qed.

Lemma eachField_entries v fields os :
  Forall2 (field_shows v) fields os ->
  exists rs, shows rs (visible fields os) /\
    forall S (fn : string -> valueReflect -> S -> Outcome (S * bool)) s,
      eachField (fun e name x s => r' ← mustReuse x (Some e) None; fn name r' s) fields v s = foldEntries fn rs s.
Proof.
  induction 1 as [|f o fields os (fv & omit & Eg & Eo & Et & Ho) H (rs & Hrs & IH)]; [by exists []|].
  rewrite visible_cons. destruct o as [u|].
  - destruct Ho as [-> Hp]. destruct (Hp (Some (fi_type f)) None) as (r & Er & Hr); [right; congruence|].
    exists ((fi_name f, r) :: rs). split; [by constructor|]. intros S fn s. cbn. rewrite Eg. cbn. rewrite Eo. cbn. rewrite Er. cbn.
    destruct (fn _ _ _) as [|[s' []]]; cbn; auto.
  - subst omit. exists rs. split; [done|]. intros S fn s. cbn. rewrite Eg. cbn. rewrite Eo. cbn. apply IH.
Qed.

Lemma eachField_count v fields os i :
  Forall2 (field_shows v) fields os ->
  eachField (fun _ _ _ i => Ret (S i, true)) fields v i = Ret (i + length (visible fields os), true)%nat.
Proof.
  intros H. revert i. induction H as [|f o fields os (fv & omit & Eg & Eo & Et & Ho) H IH]; intros i; [simpl; by rewrite Nat.add_0_r|].
  rewrite visible_cons. cbn. rewrite Eg. cbn. rewrite Eo. cbn. destruct o as [u|].
  - destruct Ho as [-> _]. rewrite IH. cbn. by rewrite Nat.add_succ_r.
  - subst. apply IH.
Qed.

Lemma eachField_empty v fields os :
  Forall2 (field_shows v) fields os ->
  eachField (fun _ _ _ (_ : unit) => Ret (tt, false)) fields v tt = Ret (tt, length (visible fields os) =? 0)%nat.
Proof.
  induction 1 as [|f o fields os (fv & omit & Eg & Eo & Et & Ho) H IH]; [done|].
  rewrite visible_cons. cbn. rewrite Eg. cbn. rewrite Eo. cbn. destruct o as [u|]; [by destruct Ho as [-> _]|by subst].
Qed.

Lemma visible_keys v fields os : Forall2 (field_shows v) fields os -> assoc_keys (visible fields os) `sublist_of` (fi_name <$> fields).
Proof.
  induction 1 as [|f o fields os _ H IH]; [done|]. rewrite visible_cons. destruct o; [by constructor|]. by constructor.
Qed.

Lemma visible_get v fields os i f o :
  Forall2 (field_shows v) fields os -> NoDup (fi_name <$> fields) -> fields !! i = Some f -> os !! i = Some o ->
  assoc_get (fi_name f) (visible fields os) = o.
Proof.
  intros H. revert i. induction H as [|f' o' fields os _ H IH]; intros i N Hf Ho; [done|].
  rewrite fmap_cons in N. apply NoDup_cons in N as [N1 N2]. rewrite visible_cons. destruct i as [|i]; simplify_eq/=.
  - destruct o; simpl; [by rewrite string_eqb_refl|]. apply assoc_get_None. intros Hin. apply N1.
    eapply elem_of_sublist; [exact Hin|]. by eapply visible_keys.
  - rewrite <-(IH i N2 Hf Ho). destruct o' as [u|]; [|done]. simpl. destruct (string_eqb _ _) eqn:E; [|done].
    apply string_eqb_true in E. exfalso. apply N1. rewrite E. apply list_elem_of_fmap_2. by eapply list_elem_of_lookup_2.
Qed.

Context (f : valueReflect -> Outcome value) (HR : forall r u, R r u -> f r = Ret u).

Lemma struct_agrees parent d os :
  Forall2 (field_shows d) (orderedLayout (rv_type d)) os -> Kind d = KdStruct ->
  let r := mkValueReflect parent d structMapType in
  let u := VMap (visible (orderedLayout (rv_type d)) os) in
  unstructured_body f r = Ret u /\ agrees R r u.
Proof.
  intros H Hk r u. pose proof (orderedLayout_NoDup (rv_type d)) as N.
  assert (Nm : NoDup (assoc_keys (visible (orderedLayout (rv_type d)) os))).
  { eapply sublist_NoDup; [exact N|]. by eapply visible_keys. }
  destruct (eachField_entries d _ _ H) as (rs & Hrs & Hit).
  assert (Hit' : forall S (fn : string -> valueReflect -> S -> Outcome (S * bool)) s, struct_Iterate r fn s = foldEntries fn rs s).
  { intros S fn s. unfold struct_Iterate, eachStructField. cbn [vr_Value r]. rewrite structEntry_ordered. apply Hit. }
  split.
  { unfold unstructured_body. cbn [r_IsNull vr_kind vr_Value r]. rewrite Hk. unfold collect. rewrite Hit'.
    by rewrite (collect_entries f rs _ [] HR Hrs) by done. }
  split; [done|]. split; [done|]. unfold AsMap_Length, AsMap_Empty, AsMap_Has, AsMap_Get, AsMap_Iterate. cbn [vr_kind r].
  split_and!.
  - unfold struct_Length, eachStructField. cbn [vr_Value r]. rewrite structEntry_ordered. cbn [mbind Outcome_bind].
    by rewrite (eachField_count d _ os).
  - unfold struct_Empty, eachStructField. cbn [vr_Value r]. rewrite structEntry_ordered. cbn [mbind Outcome_bind].
    by rewrite (eachField_empty d _ os).
  - intros k. unfold struct_Has, struct_Get, findJsonNameField. cbn [vr_Value r]. rewrite findField_layout. cbn [mbind Outcome_bind].
    destruct (assoc_get k (layoutOf (rv_type d))) as [fi|] eqn:Ef.
    + assert (fi_name fi = k) as Ek.
      { destruct (layoutOf_wf (rv_type d)) as [_ F]. apply assoc_get_Some in Ef. rewrite Forall_forall in F. by apply (F (k, fi)). }
      subst k. pose proof Ef as Hin. apply orderedLayout_elem, list_elem_of_lookup in Hin as [i Hi].
      destruct (Forall2_lookup_l _ _ _ _ _ H Hi) as (o & Ho & fv & omit & Eg & Eo & _ & Hfo).
      rewrite (visible_get d _ _ i fi o H N Hi Ho), Eg. cbn [mbind Outcome_bind]. rewrite Eo. cbn [mbind Outcome_bind].
      destruct o as [x|]; [|by subst]. destruct Hfo as [-> Hp]. split; [done|].
      destruct (Hp None None) as (r' & -> & Hr'); [by left|]. by exists r'.
    + replace (assoc_get k (visible _ _)) with (@None value); [done|]. symmetry. apply assoc_get_None. intros Hin.
      apply assoc_get_None in Ef. apply Ef. rewrite <-(sort_stable_perm string_ltb), <-orderedLayout_names.
      eapply elem_of_sublist; [exact Hin|]. by eapply visible_keys.
  - by exists rs.
Qed.

(** **** Maps *)

Lemma eachEntry_entries v (m : list (string * RValue)) us :
  Forall2 (fun kv u => presents kv.2 u /\ rv_type kv.2 = Type_Elem (rv_type v)) m us ->
  exists rs, shows rs (zip m.*1 us) /\
    forall S (fn : string -> valueReflect -> S -> Outcome (S * bool)) s,
      eachEntry (fun e k x s => r' ← mustReuse x (Some e) (Some (v, k)); fn k r' s) (Type_Elem (rv_type v)) m s = foldEntries fn rs s.
Proof.
  induction 1 as [|[k x] u m us [Hp Et] H (rs & Hrs & IH)]; [by exists []|]. simpl in Hp, Et.
  destruct (Hp (Some (Type_Elem (rv_type v))) (Some (v, k))) as (r & Er & Hr); [right; congruence|].
  exists ((k, r) :: rs). split; [by constructor|]. intros S fn s. cbn. rewrite Er. cbn.
  destruct (fn _ _ _) as [|[s' []]]; cbn; auto.
Qed.

Lemma zip_get (P : string * GoVal -> value -> Prop) (m : list (string * GoVal)) us k :
  Forall2 P m us ->
  match assoc_get k (zip m.*1 us) with
  | Some u => exists x, assoc_get k m = Some x /\ P (k, x) u
  | None => assoc_get k m = None
  end.
Proof.
  induction 1 as [|[k' x] u m us Hp H IH]; simpl; [done|]. destruct (string_eqb k' k) eqn:E; [|done].
  apply string_eqb_true in E as ->. by exists x.
Qed.

Lemma zip_keys {A B} (m : list (string * A)) (us : list B) : length m = length us -> assoc_keys (zip m.*1 us) = assoc_keys m.
Proof. intros Hl. unfold assoc_keys. apply fst_zip. rewrite length_fmap. lia. Qed.

Lemma map_agrees parent d m us :
  rv_val d = GMap m -> Kind d = KdMap -> NoDup (assoc_keys m) ->
  Forall2 (fun kv u => presents (mkRV (Type_Elem (rv_type d)) kv.2 false) u) m us ->
  let r := mkValueReflect parent d mapType in
  let u := VMap (zip m.*1 us) in
  unstructured_body f r = Ret u /\ agrees R r u.
Proof.
  intros Ev Hk N H r u. pose proof (Forall2_length _ _ _ H) as Hl.
  assert (Hz : length (zip m.*1 us) = length m) by (rewrite length_zip_with, length_fmap; lia).
  destruct (eachEntry_entries d (MapEntries d) us) as (rs & Hrs & Hit).
  { unfold MapEntries. rewrite Ev. apply Forall2_fmap_l. eapply Forall2_impl; [exact H|]. by intros kv x Hx. }
  replace ((MapEntries d).*1) with (m.*1) in Hrs by (unfold MapEntries; rewrite Ev, <-list_fmap_compose; by apply list_fmap_ext).
  assert (Hit' : forall S (fn : string -> valueReflect -> S -> Outcome (S * bool)) s, map_IterateR r fn s = foldEntries fn rs s).
  { intros S fn s. unfold map_IterateR, eachMapEntry, Len. cbn [vr_Value r]. rewrite <-Hit, Ev. destruct m; [|done].
    unfold MapEntries. by rewrite Ev. }
  assert (Nz : NoDup (assoc_keys (zip m.*1 us))) by (by rewrite zip_keys).
  split.
  { unfold unstructured_body. cbn [r_IsNull vr_kind vr_Value r]. rewrite Hk. unfold collect. rewrite Hit'.
    by rewrite (collect_entries f rs _ [] HR Hrs) by done. }
  split; [done|]. split; [done|].
  unfold AsMap_Length, AsMap_Empty, AsMap_Has, AsMap_Get, AsMap_Iterate, mapR_Length, mapR_Empty, mapR_Has, mapR_Get, MapIndex, Len.
  cbn [vr_kind vr_Value r]. rewrite Ev, Hz. split_and!; [done|done| |by exists rs].
  intros k. pose proof (zip_get _ m us k H) as Hg. destruct (assoc_get k (zip m.*1 us)) as [x|]; [|by rewrite Hg].
  destruct Hg as (y & -> & Hp). split; [done|]. cbn. destruct (Hp None (Some (d, k))) as (r' & E & Hr'); [by left|]. exists r'. cbn [snd] in E. by rewrite E.
Qed.

(** **** Lists *)

Lemma listItems_all r us i n :
  (forall j u, us !! j = Some u -> exists r', listR_At r (i + j)%nat = Ret r' /\ R r' u) -> n = length us -> listItems f r i n = Ret us.
Proof.
  intros H ->. revert i H. induction us as [|u us IH]; intros i H; [done|]. cbn [listItems length].
  destruct (H 0%nat u eq_refl) as (r' & Er & Hr). rewrite Nat.add_0_r in Er. rewrite Er. cbn. rewrite (HR _ _ Hr). cbn.
  rewrite IH; [done|]. intros j x Hj. destruct (H (S j) x Hj) as (r2 & E2 & H2). exists r2. rewrite <-Nat.add_succ_comm in E2. done.
Qed.

Lemma lr_advance v e i : Nat.iter i (fun rr => (lr_Next rr).1) (mkListReflectRange v (-1) e) = mkListReflectRange v (Z.of_nat i - 1) e.
Proof. induction i as [|i IH]; [done|]. rewrite Nat.iter_succ, IH. unfold lr_Next. cbn. f_equal. lia. Qed.

Lemma list_agrees parent d l us :
  rv_val d = GSlice l -> Kind d = KdSlice ->
  Forall2 (fun x u => presents (mkRV (Type_Elem (rv_type d)) x true) u) l us ->
  let r := mkValueReflect parent d listType in
  unstructured_body f r = Ret (VList us) /\ agrees R r (VList us).
Proof.
  intros Ev Hk H r. pose proof (Forall2_length _ _ _ H) as Hl.
  assert (Hat : forall i u, us !! i = Some u -> exists x, l !! i = Some x /\ presents (mkRV (Type_Elem (rv_type d)) x true) u).
  { intros i u Hu. destruct (Forall2_lookup_r _ _ _ _ _ H Hu) as (x & Hx & Hp). eauto. }
  assert (Hat' : forall i u, us !! i = Some u -> exists r', listR_At r i = Ret r' /\ R r' u).
  { intros i u Hu. destruct (Hat i u Hu) as (x & Hx & Hp). unfold listR_At, Index_. cbn [vr_Value r]. rewrite Ev, Hx. cbn.
    destruct (Hp None None) as (r' & E & Hr); [by left|]. exists r'. done. }
  split.
  { unfold unstructured_body, listR_Length, Len. cbn [r_IsNull r_IsList vr_kind vr_Value r]. rewrite Hk, Ev.
    rewrite (listItems_all r us 0 (length l)); done. }
  split; [done|]. unfold listR_Length, listR_Range, Len. cbn [vr_Value r]. rewrite Ev. split_and!; [done| |].
  { rewrite Hl. by destruct us. }
  intros i u Hu. split; [by apply Hat'|]. destruct (Hat i u Hu) as (x & Hx & Hp). rewrite lr_advance. unfold lr_Item, Len, Index_.
  cbn [lr_i lr_list lr_entry]. rewrite Ev. pose proof (lookup_lt_Some _ _ _ Hx).
  destruct (Z.ltb_spec (Z.of_nat (S i) - 1) 0); [lia|]. destruct (Z.leb_spec (Z.of_nat (length l)) (Z.of_nat (S i) - 1)); [lia|].
  replace (Z.of_nat (S i) - 1)%Z with (Z.of_nat i) by lia. rewrite Nat2Z.id, Hx. cbn.
  destruct (Hp (Some (Type_Elem (rv_type d))) None) as (r' & -> & Hr); [by right|]. by exists r'.
Qed.

(** **** Every kind *)

Lemma kind_Kind d k :
  kind d = Ret k ->
  match k with
  | structMapType => Kind d = KdStruct
  | mapType => Kind d = KdMap
  | listType => Kind d = KdSlice
  | nullType => True
  | _ => Kind d <> KdStruct /\ Kind d <> KdMap
  end.
Proof.
  unfold kind, nilOr. destruct (Kind d) as [|[]| | | | | | | | | | | | | |]; try done;
    destruct (rv_val d); try done; repeat case_match; naive_solver.
Qed.

(** Outside structs, maps and lists, the scalar that the accessors show. *)
Lemma scalar_agrees parent d k u :
  kind d = Ret k ->
  match k, rv_val d with
  | nullType, _ => u = VNull
  | boolType, GBool b => u = VBool b
  | intType, GInt i => u = VInt KInt64 i
  | uintType, GInt i => u = VInt KInt64 (to_int64 i)
  | floatType, GFloat x => u = VFloat64 x
  | stringType, GString x => u = VString x
  | byteStringType, GSlice _ => u = VString (base64_encode (Bytes d))
  | _, _ => False
  end ->
  unstructured_body f (mkValueReflect parent d k) = Ret u /\ agrees R (mkValueReflect parent d k) u.
Proof.
  intros Hk%kind_Kind Hu.
  assert (Hb : forall X Y Z : Outcome value, (Kind d <> KdStruct /\ Kind d <> KdMap) ->
    match Kind d with KdStruct => X | KdMap => Y | _ => Z end = Z) by (intros X Y Z []; by destruct (Kind d)).
  unfold unstructured_body, agrees, r_AsBool, r_AsInt, r_AsFloat, r_AsString, r_IsBool, r_IsFloat. cbn [vr_Value vr_kind].
  destruct k; try done; try (subst; done); rewrite Hb by done; destruct (rv_val d) eqn:Ev; try done; by subst u.
Qed.

Lemma presents_all {A} (g : A -> RValue) sup l :
  (forall x, sup x = true -> exists u, presents x u) -> forallb (fun x => sup (g x)) l = true ->
  exists us, Forall2 (fun x u => presents (g x) u) l us.
Proof.
  intros Hsup. rewrite forallb_Forall. induction 1 as [|x l Hx H (us & IH)]; [by exists []|].
  destruct (Hsup (g x) Hx) as [u Hu]. exists (u :: us). by constructor.
Qed.

Lemma fields_show sup d fields :
  (forall x, sup x = true -> exists u, presents x u) -> forallb (field_supported sup d) fields = true ->
  exists os, Forall2 (field_shows d) fields os.
Proof.
  intros Hsup. rewrite forallb_Forall. induction 1 as [|fi fields Hx H (os & IH)]; [by exists []|].
  unfold field_supported in Hx. destruct (GetFrom fi d) as [|fv] eqn:Eg; [done|].
  destruct (CanOmit fi fv) as [|omit] eqn:Eo; [done|]. apply andb_true_iff in Hx as [Hx Et]. apply bool_decide_eq_true in Et.
  destruct omit; [exists (None :: os)|destruct (Hsup fv Hx) as [u Hu]; exists (Some u :: os)];
    (constructor; [|done]); eexists fv, _; eauto 6.
Qed.

Lemma plain_agrees sup d :
  (forall x, sup x = true -> exists u, presents x u) -> plain sup d = true ->
  exists k u, kind d = Ret k /\
    forall parent, unstructured_body f (mkValueReflect parent d k) = Ret u /\ agrees R (mkValueReflect parent d k) u.
Proof.
  intros Hsup. unfold plain. destruct (kind d) as [|k] eqn:Ek; [done|]. intros Hp. exists k. pose proof (kind_Kind d k Ek) as Hk.
  destruct k, (rv_val d) eqn:Ev; try done;
    try (eexists; split; [done|]; intros parent; apply scalar_agrees; [done|]; try rewrite Ev; reflexivity).
  - apply andb_true_iff in Hp as [N%bool_decide_eq_true Hp].
    destruct (presents_all (fun kv : string * GoVal => mkRV (Type_Elem (rv_type d)) kv.2 false) sup m Hsup Hp) as [us Hus].
    eexists. split; [done|]. intros parent. by apply map_agrees.
  - destruct (fields_show sup d _ Hsup Hp) as [os Hos]. eexists. split; [done|]. intros parent. by apply struct_agrees.
  - destruct (presents_all (fun x => mkRV (Type_Elem (rv_type d)) x true) sup l Hsup Hp) as [us Hus].
    eexists. split; [done|]. intros parent. by apply (list_agrees parent d l us).
Qed.
End Parts.

Lemma dereference_goVal u a : u <> VNull -> dereference (mkRV (goVal u).1 (goVal u).2 a) = Ret (mkRV (goVal u).1 (goVal u).2 a).
Proof. by destruct u. Qed.

(** A supported value can be reflected on, and what is shown is its unstructured form. *)
Lemma supported_presents (Q : nat -> valueReflect -> value -> Prop) :
  (forall n r u, Q n r u -> Unstructured n r = Ret u) ->
  (forall n parent d k u, kind d = Ret k -> plain (supported n) d = true -> let r := mkValueReflect parent d k in
    Unstructured (S n) r = Ret u -> agrees (Q n) r u -> Q (S n) r u) ->
  forall n v, supported n v = true -> exists u, presents (Q n) v u.
Proof.
  intros HQ HS n. induction n as [|n IH]; intros v Hs; [done|].
  assert (Hplain : forall d, plain (supported n) d = true -> exists k u, kind d = Ret k /\
    forall parent, Q (S n) (mkValueReflect parent d k) u).
  { intros d Hd. destruct (plain_agrees (Q n) (Unstructured n) (HQ n) (supported n) d IH Hd) as (k & u & Ek & Hu).
    exists k, u. split; [done|]. intros parent. by apply HS; [..|apply (Hu parent)|apply (Hu parent)]. }
  assert (Hgo : exists p d, presented v = Ret p /\ dereference p = Ret d /\ plain (supported n) d = true).
  { cbn [supported] in Hs. unfold presented. destruct (converts (rv_type v)).
    - destruct (ToUnstructured (flagsOf (rv_type v)) v) as [|u0]; [done|].
      assert (u0 = VNull \/ u0 <> VNull) as [-> |Hn] by (destruct u0; auto); [by eexists _, _|].
      exists (ValueOf (goVal u0).1 (goVal u0).2), (ValueOf (goVal u0).1 (goVal u0).2).
      split_and!; [by destruct u0|by apply dereference_goVal|by destruct u0].
    - destruct (dereference v) as [|d] eqn:Ed; [done|]. by exists v, d. }
  destruct Hgo as (p & d & Ep & Ed & Hd). destruct (Hplain d Hd) as (k & u & Ek & Hu). exists u. intros c parent Hc.
  rewrite mustReuse_presented, Ep by done. cbn. rewrite Ed. cbn. rewrite Ek. cbn. eexists. split; [done|apply Hu].
Qed.

Lemma supported_refines n v : supported n v = true -> exists u, presents (refines n) v u.
Proof. revert n v. apply supported_presents; [by intros [] ? ? []|by intros n parent d k u _ _ r]. Qed.

(** The fields of a supported struct, and the entries of a supported map. *)
Lemma supported_fields n d :
  Kind d = KdStruct -> plain (supported n) d = true ->
  exists os, Forall2 (field_shows (refines n) d) (orderedLayout (rv_type d)) os.
Proof.
  unfold plain, kind. intros -> Hp. destruct (rv_val d); try done.
  apply (fields_show _ (supported n)); [apply supported_refines|done].
Qed.

Lemma supported_entries n d :
  kind d = Ret mapType -> plain (supported n) d = true ->
  exists m us, rv_val d = GMap m /\ NoDup (assoc_keys m) /\
    Forall2 (fun kv u => presents (refines n) (mkRV (Type_Elem (rv_type d)) kv.2 false) u) m us.
Proof.
  unfold plain. intros ->. destruct (rv_val d) as [| | | | | |m| | | |]; try done.
  intros [N%bool_decide_eq_true Hp]%andb_true_iff.
  destruct (presents_all (refines n) (fun kv : string * GoVal => mkRV (Type_Elem (rv_type d)) kv.2 false) (supported n) m) as [us Hus];
    [apply supported_refines|done|]. by exists m, us.
Qed.

Lemma refines_Unstructured n r u : refines n r u -> Unstructured n r = Ret u.
Proof. destruct n; [done|]. by intros []. Qed.
End Refine.
