(* ===== verification/Allocator.v ===== *)
(** * Package value: allocators

    Models [value/allocator.go]: objects that the accessors hand out live in a
    memory, and an [Allocator] either takes them from it ([heapAllocator]) or
    keeps freed ones in lists, by type, to hand them out again
    ([freelistAllocator]).  A range of a list owns the object that its [Item]
    returns.  What a client does with an allocator is a list of commands on the
    handles it got; a write sets the fields that the code sets. *)
From S2P Require Import Prelude GoLib GoFloat Value ValueOrder Schema TypedHelpers GoReflect JsonTag ReflectCache ValueReflect.

(** ** Objects *)

Abbreviation loc := nat.

(** The types of objects. *)
Inductive ObjKind :=
  | kValueUnstructured | kListUnstructuredRange
  | kValueReflect | kMapReflect | kStructReflect | kListReflect | kListReflectRange.

#[export] Instance ObjKind_eq_dec : EqDecision ObjKind.
Proof. solve_decision. Defined.

(** The fields of an object, but for the pointer to the object it owns.  A
    [reflect.Value] that is not set is [None], and so is a nil pointer. *)
Inductive ObjFields :=
  | FValueUnstructured (Value : value)
  | FListUnstructuredRange (list : list value) (i : Z)
  | FValueReflect (parent : option (RValue * string)) (v : option RValue) (k : reflectType)
  | FMapReflect (parent : option (RValue * string)) (v : option RValue) (k : reflectType)
  | FStructReflect (parent : option (RValue * string)) (v : option RValue) (k : reflectType)
  | FListReflect (v : option RValue)
  | FListReflectRange (list : option RValue) (i : Z) (entry : option GoType).

Definition kindOf (f : ObjFields) : ObjKind :=
  match f with
  | FValueUnstructured _ => kValueUnstructured
  | FListUnstructuredRange _ _ => kListUnstructuredRange
  | FValueReflect _ _ _ => kValueReflect
  | FMapReflect _ _ _ => kMapReflect
  | FStructReflect _ _ _ => kStructReflect
  | FListReflect _ => kListReflect
  | FListReflectRange _ _ _ => kListReflectRange
  end.

(** An object; [o_inner] is the field [vv] or [vr] of a range. *)
Record Obj := mkObj { o_fields : ObjFields; o_inner : option loc }.

Abbreviation Mem := (list Obj).

(** The fields of [&T{}]. *)
Definition zeroFields (k : ObjKind) : ObjFields :=
  match k with
  | kValueUnstructured => FValueUnstructured VNull
  | kListUnstructuredRange => FListUnstructuredRange [] 0
  | kValueReflect => FValueReflect None None mapType
  | kMapReflect => FMapReflect None None mapType
  | kStructReflect => FStructReflect None None mapType
  | kListReflect => FListReflect None
  | kListReflectRange => FListReflectRange None 0 None
  end.

(** The type of the object that a range owns. *)
Definition innerKind (k : ObjKind) : option ObjKind :=
  match k with
  | kListUnstructuredRange => Some kValueUnstructured
  | kListReflectRange => Some kValueReflect
  | _ => None
  end.

(** [&T{}], [&listUnstructuredRange{vv: &valueUnstructured{}}] and the like. *)
Definition newObj (k : ObjKind) (m : Mem) : Mem * loc :=
  match innerKind k with
  | Some k' => (m ++ [mkObj (zeroFields k') None; mkObj (zeroFields k) (Some (length m))], S (length m))
  | None => (m ++ [mkObj (zeroFields k) None], length m)
  end.

(** Assign the fields of an object; its pointer stays. *)
Definition setFields (l : loc) (f : ObjFields) (m : Mem) : Mem :=
  alter (fun o => mkObj f (o_inner o)) l m.

(** ** The interface *)

(** [Free] of a pointer; any other value is left alone by every allocator. *)
Class Allocator (A : Type) := {
  a_new : A;
  a_alloc : ObjKind -> Mem * A -> Outcome (loc * (Mem * A));
  a_Free : loc -> Mem * A -> Mem * A;
}.

(** *** heapAllocator *)

Definition heap_alloc (k : ObjKind) (s : Mem * unit) : Outcome (loc * (Mem * unit)) :=
  let '(m, l) := newObj k s.1 in Ret (l, (m, tt)).
Definition heap_Free (_ : loc) (s : Mem * unit) : Mem * unit := s.

#[export] Instance heapAllocator : Allocator unit := {|
  a_new := tt;
  a_alloc := heap_alloc;
  a_Free := heap_Free;
|}.

(** *** freelistAllocator *)

Definition freelistMaxSize : nat := Z.to_nat 1000.

Record freelistState := mkFreelists {
  fl_valueUnstructured : list loc;
  fl_listUnstructuredRange : list loc;
  fl_valueReflect : list loc;
  fl_mapReflect : list loc;
  fl_structReflect : list loc;
  fl_listReflect : list loc;
  fl_listReflectRange : list loc;
}.

(** The freelist of a type, and replacing it. *)
Definition freelist (k : ObjKind) (w : freelistState) : list loc :=
  match k with
  | kValueUnstructured => fl_valueUnstructured w
  | kListUnstructuredRange => fl_listUnstructuredRange w
  | kValueReflect => fl_valueReflect w
  | kMapReflect => fl_mapReflect w
  | kStructReflect => fl_structReflect w
  | kListReflect => fl_listReflect w
  | kListReflectRange => fl_listReflectRange w
  end.

Definition with_freelist (k : ObjKind) (l : list loc) (w : freelistState) : freelistState :=
  let '(mkFreelists a b c d e f g) := w in
  match k with
  | kValueUnstructured => mkFreelists l b c d e f g
  | kListUnstructuredRange => mkFreelists a l c d e f g
  | kValueReflect => mkFreelists a b l d e f g
  | kMapReflect => mkFreelists a b c l e f g
  | kStructReflect => mkFreelists a b c d l f g
  | kListReflect => mkFreelists a b c d e l g
  | kListReflectRange => mkFreelists a b c d e f l
  end.

Definition NewFreelistAllocator : freelistState := mkFreelists [] [] [] [] [] [] [].

(** [freelist.allocate]: the object that was freed last, or a new one. *)
Definition freelist_allocate (k : ObjKind) (fl : list loc) (m : Mem) : loc * (Mem * list loc) :=
  match last fl with
  | Some l => (l, (m, removelast fl))
  | None => let '(m, l) := newObj k m in (l, (m, fl))
  end.

Definition freelist_free (l : loc) (fl : list loc) : list loc :=
  if (length fl <? freelistMaxSize)%nat then fl ++ [l] else fl.

(** The methods [allocValueUnstructured] and so on; the type assertion panics
    on an object of another type. *)
Definition freelist_alloc (k : ObjKind) (s : Mem * freelistState) : Outcome (loc * (Mem * freelistState)) :=
  let '(m, w) := s in
  let '(l, (m, fl)) := freelist_allocate k (freelist k w) m in
  match m !! l with
  | Some o => if decide (kindOf (o_fields o) = k) then Ret (l, (m, with_freelist k fl w)) else Panic
  | None => Panic
  end.

(** What [Free] clears, so as not to hold references. *)
Definition clearFields (f : ObjFields) : ObjFields :=
  match f with
  | FValueUnstructured _ => FValueUnstructured VNull
  | FValueReflect _ v k => FValueReflect None v k
  | f => f
  end.

Definition clear (l : loc) (m : Mem) : Mem := alter (fun o => mkObj (clearFields (o_fields o)) (o_inner o)) l m.

(** A range clears the object it owns, any other object itself. *)
Definition freelist_Free (l : loc) (s : Mem * freelistState) : Mem * freelistState :=
  let '(m, w) := s in
  match m !! l with
  | Some o =>
    let k := kindOf (o_fields o) in
    (match o_inner o with Some l' => clear l' m | None => clear l m end,
     with_freelist k (freelist_free l (freelist k w)) w)
  | None => (m, w)
  end.

#[export] Instance freelistAllocator : Allocator freelistState := {|
  a_new := NewFreelistAllocator;
  a_alloc := freelist_alloc;
  a_Free := freelist_Free;
|}.

(** ** Clients *)

(** A client names objects by the order in which it got them. *)
Inductive Cmd :=
  | CNew (f : ObjFields)
  | CWrite (h : nat) (f : ObjFields)
  | CWriteInner (h : nat) (f : ObjFields)
  | CRead (h : nat)
  | CReadInner (h : nat)
  | CFree (h : nat).

(** The memory, the allocator, the objects of the client, and what it has read. *)
Record Client A := mkClient { cl_mem : Mem; cl_alloc : A; cl_handles : list loc; cl_seen : list ObjFields }.
#[global] Arguments mkClient {A} _ _ _ _.
#[global] Arguments cl_mem {A} _.
#[global] Arguments cl_alloc {A} _.
#[global] Arguments cl_handles {A} _.
#[global] Arguments cl_seen {A} _.

Section Client.
Context {A : Type} {Al : Allocator A}.

Definition handle (s : Client A) (h : nat) : Outcome loc :=
  match cl_handles s !! h with Some l => Ret l | None => Panic end.
Definition load (m : Mem) (l : loc) : Outcome Obj :=
  match m !! l with Some o => Ret o | None => Panic end.
Definition inner (s : Client A) (h : nat) : Outcome loc :=
  l ← handle s h; o ← load (cl_mem s) l; match o_inner o with Some l' => Ret l' | None => Panic end.

Definition cstep (c : Cmd) (s : Client A) : Outcome (Client A) :=
  match c with
  | CNew f =>
    res ← a_alloc (kindOf f) (cl_mem s, cl_alloc s);
    let '(l, (m, a)) := res in
    Ret (mkClient (setFields l f m) a (cl_handles s ++ [l]) (cl_seen s))
  | CWrite h f =>
    l ← handle s h; Ret (mkClient (setFields l f (cl_mem s)) (cl_alloc s) (cl_handles s) (cl_seen s))
  | CWriteInner h f =>
    l ← inner s h; Ret (mkClient (setFields l f (cl_mem s)) (cl_alloc s) (cl_handles s) (cl_seen s))
  | CRead h =>
    l ← handle s h; o ← load (cl_mem s) l;
    Ret (mkClient (cl_mem s) (cl_alloc s) (cl_handles s) (cl_seen s ++ [o_fields o]))
  | CReadInner h =>
    l ← inner s h; o ← load (cl_mem s) l;
    Ret (mkClient (cl_mem s) (cl_alloc s) (cl_handles s) (cl_seen s ++ [o_fields o]))
  | CFree h =>
    l ← handle s h;
    let '(m, a) := a_Free l (cl_mem s, cl_alloc s) in Ret (mkClient m a (cl_handles s) (cl_seen s))
  end.

Fixpoint crun (prog : list Cmd) (s : Client A) : Outcome (Client A) :=
  match prog with
  | [] => Ret s
  | c :: prog' => s ← cstep c s; crun prog' s
  end.

Definition cinit : Client A := mkClient [] a_new [] [].
End Client.

(** ** The contract *)

(** The objects as a client should see them: a live object with its fields, and the
    fields of the object it owns once they are set; [None] when freed. *)
Record AState := mkAState { as_objs : list (option (ObjFields * option ObjFields)); as_seen : list ObjFields }.

Definition live (s : AState) (h : nat) : option (ObjFields * option ObjFields) := mjoin (as_objs s !! h).
Definition put (s : AState) (h : nat) (o : option (ObjFields * option ObjFields)) : AState :=
  mkAState (<[h := o]> (as_objs s)) (as_seen s).

(** A client that uses objects after freeing them, or reads what nobody set, has no
    behaviour here. *)
Definition astep (c : Cmd) (s : AState) : option AState :=
  match c with
  | CNew f => Some (mkAState (as_objs s ++ [Some (f, None)]) (as_seen s))
  | CWrite h f =>
    o ← live s h; if decide (kindOf f = kindOf o.1) then Some (put s h (Some (f, o.2))) else None
  | CWriteInner h f =>
    o ← live s h; if decide (innerKind (kindOf o.1) = Some (kindOf f)) then Some (put s h (Some (o.1, Some f))) else None
  | CRead h => o ← live s h; Some (mkAState (as_objs s) (as_seen s ++ [o.1]))
  | CReadInner h => o ← live s h; f ← o.2; Some (mkAState (as_objs s) (as_seen s ++ [f]))
  | CFree h => o ← live s h; Some (put s h None)
  end.

Fixpoint arun (prog : list Cmd) (s : AState) : option AState :=
  match prog with
  | [] => Some s
  | c :: prog' => s ← astep c s; arun prog' s
  end.

Definition ainit : AState := mkAState [] [].
