(* ===== verification/AllocatorSpec.v ===== *)
(** * Allocators keep their contract

    [AllocatorLaws] is what a client relies on: an allocated object is one that
    nobody holds, either new or given back before, and giving an object back
    touches nothing but it and the object it owns.  From these laws alone, every
    client that uses objects only until it frees them sees exactly the contract
    [arun].  Both allocators satisfy the laws, so they cannot be told apart. *)
From S2P Require Import Prelude GoLib GoFloat Value ValueOrder Schema TypedHelpers GoReflect JsonTag ReflectCache ValueReflect.
From S2P Require Import Allocator.

(** ** Memories *)

(** The types and the pointers of a memory, which only grow. *)
Definition shape (m : Mem) : list (ObjKind * option loc) := (fun o => (kindOf (o_fields o), o_inner o)) <$> m.

(** An object and the object it owns. *)
Definition foot (m : Mem) (l : loc) : list loc :=
  l :: match m !! l ≫= o_inner with Some l' => [l'] | None => [] end.

(** The object is of the type, and owns an object of the right type, or none. *)
Definition formed (m : Mem) (k : ObjKind) (l : loc) : Prop :=
  exists o, m !! l = Some o /\ kindOf (o_fields o) = k /\
    match innerKind k with
    | None => o_inner o = None
    | Some k' => exists l' o', o_inner o = Some l' /\ l' <> l /\ m !! l' = Some o' /\ kindOf (o_fields o') = k' /\ o_inner o' = None
    end.

(** Nobody shares an object with another. *)
Definition separated (m : Mem) (owners : list loc) : Prop :=
  NoDup owners /\ forall l1 l2, l1 ∈ owners -> l2 ∈ owners -> l1 <> l2 -> foot m l1 ## foot m l2.

(** [m'] differs from [m] only at [ls], and not in shape. *)
Definition changes_only (ls : list loc) (m m' : Mem) : Prop :=
  shape m' = shape m /\ forall l, l ∉ ls -> m' !! l = m !! l.

Lemma shape_lookup m l : shape m !! l = (fun o => (kindOf (o_fields o), o_inner o)) <$> m !! l.
Proof. apply list_lookup_fmap. Qed.

Lemma shape_grows m m' l o :
  shape m `prefix_of` shape m' -> m !! l = Some o ->
  exists o', m' !! l = Some o' /\ kindOf (o_fields o') = kindOf (o_fields o) /\ o_inner o' = o_inner o.
Proof.
  intros Hp Ho. assert (E : shape m' !! l = Some (kindOf (o_fields o), o_inner o)).
  { eapply prefix_lookup_Some; [|exact Hp]. by rewrite shape_lookup, Ho. }
  rewrite shape_lookup in E. destruct (m' !! l) as [o'|]; [|done]. simpl in E. exists o'. by injection E.
Qed.

Lemma foot_grows m m' l : shape m `prefix_of` shape m' -> is_Some (m !! l) -> foot m' l = foot m l.
Proof.
  intros Hp [o Ho]. destruct (shape_grows m m' l o Hp Ho) as (o' & Ho' & _ & Hi).
  unfold foot. rewrite Ho, Ho'. simpl. by rewrite Hi.
Qed.

Lemma formed_grows m m' k l : shape m `prefix_of` shape m' -> formed m k l -> formed m' k l.
Proof.
  intros Hp (o & Ho & Hk & Hi). destruct (shape_grows m m' l o Hp Ho) as (o' & Ho' & Hk' & Hi').
  exists o'. split_and!; [done|congruence|]. destruct (innerKind k) as [k'|]; [|congruence].
  destruct Hi as (l1 & o1 & E1 & Hne & E2 & E3 & E4). destruct (shape_grows m m' l1 o1 Hp E2) as (o2 & E5 & E6 & E7).
  exists l1, o2. split_and!; congruence.
Qed.

Lemma separated_perm m os1 os2 : os1 ≡ₚ os2 -> separated m os1 -> separated m os2.
Proof.
  intros Hp [N D]. split; [by rewrite <-Hp|]. intros l1 l2 H1 H2. apply D; by rewrite Hp.
Qed.

Lemma separated_sub m os1 os2 : os1 `sublist_of` os2 -> separated m os2 -> separated m os1.
Proof.
  intros Hs [N D]. split; [by eapply sublist_NoDup|]. intros l1 l2 H1 H2. apply D; by eapply elem_of_sublist.
Qed.

Lemma formed_Some m k l : formed m k l -> is_Some (m !! l).
Proof. intros (o & -> & _). done. Qed.

Lemma separated_grows m m' os :
  shape m `prefix_of` shape m' -> Forall (fun l => exists k, formed m k l) os -> separated m os -> separated m' os.
Proof.
  intros Hp F [N D]. rewrite Forall_forall in F. split; [done|]. intros l1 l2 H1 H2 Hne.
  destruct (F l1 H1) as [k1 F1], (F l2 H2) as [k2 F2]. rewrite !(foot_grows m m') by (by eauto using formed_Some). auto.
Qed.

Lemma foot_below m k l y : formed m k l -> y ∈ foot m l -> (y < length m)%nat.
Proof.
  intros (o & Ho & _ & Hi). unfold foot. rewrite Ho. cbn [mbind option_bind]. intros [-> |Hy]%elem_of_cons; [by eapply lookup_lt_Some|].
  destruct (innerKind k) as [k'|]; [|rewrite Hi in Hy; by apply not_elem_of_nil in Hy].
  destruct Hi as (l' & o' & Ei & _ & El & _). rewrite Ei in Hy. apply list_elem_of_singleton in Hy as ->. by eapply lookup_lt_Some.
Qed.

Lemma foot_shape m m' l : shape m' = shape m -> foot m' l = foot m l.
Proof.
  intros E. assert (El : shape m' !! l = shape m !! l) by (by rewrite E). rewrite !shape_lookup in El. unfold foot.
  destruct (m !! l) as [o|], (m' !! l) as [o'|]; try done. cbn in *. by injection El as _ ->.
Qed.

Lemma separated_shape m m' os : shape m' = shape m -> separated m os -> separated m' os.
Proof. intros E [N D]. split; [done|]. intros l1 l2 H1 H2 Hne. rewrite !(foot_shape m m') by done. auto. Qed.

Lemma changes_only_refl ls m : changes_only ls m m.
Proof. done. Qed.

(** Changing the fields of an object but not its type. *)
Lemma alter_changes l m (g : Obj -> Obj) :
  (forall o, m !! l = Some o -> kindOf (o_fields (g o)) = kindOf (o_fields o) /\ o_inner (g o) = o_inner o) ->
  changes_only [l] m (alter g l m).
Proof.
  intros Hg. split.
  - apply list_eq. intros i. rewrite !shape_lookup. destruct (decide (i = l)) as [-> |Hne].
    + rewrite list_lookup_alter_eq. destruct (m !! l) as [o|] eqn:Eo; [|done]. simpl. destruct (Hg o eq_refl). congruence.
    + by rewrite list_lookup_alter_ne.
  - intros i Hi. rewrite list_lookup_alter_ne; [done|]. intros ->. apply Hi. left.
Qed.

Lemma clear_changes l m : changes_only [l] m (clear l m).
Proof. apply alter_changes. intros o _. split; [by destruct o as [[]]|done]. Qed.

Lemma setFields_changes l f m k : formed m k l \/ (exists o, m !! l = Some o /\ kindOf (o_fields o) = k) -> kindOf f = k -> changes_only [l] m (setFields l f m).
Proof.
  intros Hk Hf. apply alter_changes. intros o Ho. simpl. split; [|done].
  destruct Hk as [(o' & Ho' & E & _)|(o' & Ho' & E)]; rewrite Ho in Ho'; injection Ho' as <-; congruence.
Qed.

Lemma changes_prefix ls m m' : changes_only ls m m' -> shape m `prefix_of` shape m'.
Proof. by intros [-> _]. Qed.

(** ** The laws *)

Class AllocatorLaws (A : Type) {Al : Allocator A} := {
  (** The objects that were given back and may be handed out again. *)
  available : A -> list loc;
  al_inv : Mem -> A -> Prop;
  al_new : al_inv [] a_new /\ available a_new = [];
  al_grows m m' a : shape m `prefix_of` shape m' -> al_inv m a -> al_inv m' a;
  al_formed m a l : al_inv m a -> l ∈ available a -> exists k, formed m k l;
  al_alloc k m a : al_inv m a ->
    exists l m' a', a_alloc k (m, a) = Ret (l, (m', a')) /\ al_inv m' a' /\ formed m' k l /\
      ((m' = m /\ available a ≡ₚ l :: available a') \/
       (m `prefix_of` m' /\ Forall (fun x => length m <= x)%nat (foot m' l) /\ available a' = available a));
  al_Free k l m a : al_inv m a -> formed m k l ->
    exists m' a', a_Free l (m, a) = (m', a') /\ al_inv m' a' /\ changes_only (foot m l) m m' /\
      (available a' ≡ₚ available a \/ available a' ≡ₚ l :: available a);
}.

(** ** Clients see the contract *)

(** The objects that a client holds. *)
Definition lives (hs : list loc) (objs : list (option (ObjFields * option ObjFields))) : list loc :=
  omap (fun p => (fun _ => p.1) <$> p.2) (zip hs objs).

Lemma lives_elem hs objs h l x : hs !! h = Some l -> objs !! h = Some (Some x) -> l ∈ lives hs objs.
Proof.
  intros Hl Hx. apply list_elem_of_omap. exists (l, Some x). split; [|done].
  apply list_elem_of_lookup. exists h. rewrite lookup_zip_with, Hl. simpl. by rewrite Hx.
Qed.

Lemma lives_put hs objs h x y : objs !! h = Some (Some x) -> lives hs (<[h := Some y]> objs) = lives hs objs.
Proof.
  revert hs h. induction objs as [|o objs IH]; intros hs h Hx; [done|]. destruct hs as [|l hs]; [by destruct h|].
  destruct h as [|h]; simplify_eq/=; [done|]. unfold lives in *. cbn. rewrite (IH hs h Hx). done.
Qed.

Lemma lives_delete hs objs h l x :
  hs !! h = Some l -> objs !! h = Some (Some x) -> lives hs objs ≡ₚ l :: lives hs (<[h := None]> objs).
Proof.
  revert hs h. induction objs as [|o objs IH]; intros hs h Hl Hx; [done|]. destruct hs as [|l0 hs]; [done|].
  destruct h as [|h]; simplify_eq/=; [done|]. unfold lives in *. cbn. destruct o; cbn; rewrite (IH hs h Hl Hx); [apply Permutation_swap|done].
Qed.

Lemma lives_app hs objs l x : length hs = length objs -> lives (hs ++ [l]) (objs ++ [Some x]) = lives hs objs ++ [l].
Proof.
  revert objs. induction hs as [|l0 hs IH]; intros [|o objs] Hl; simplify_eq/=; [done|]. unfold lives in *. cbn.
  destruct o; cbn; by rewrite IH.
Qed.

(** The memory has the object as the contract says. *)
Definition shows (m : Mem) (l : loc) (x : ObjFields * option ObjFields) : Prop :=
  formed m (kindOf x.1) l /\ o_fields <$> m !! l = Some x.1 /\
  match x.2 with
  | None => True
  | Some g => exists l', m !! l ≫= o_inner = Some l' /\ o_fields <$> m !! l' = Some g
  end.

Lemma shows_same m m' l x :
  shape m `prefix_of` shape m' -> (forall y, y ∈ foot m l -> m' !! y = m !! y) -> shows m l x -> shows m' l x.
Proof.
  intros Hp Hsame (Hf & Ho & Hi). split; [by eapply formed_grows|].
  assert (El : m' !! l = m !! l) by (apply Hsame; left). rewrite El. split; [done|].
  destruct x.2 as [g|]; [|done]. destruct Hi as (l' & E & Eg). exists l'. split; [done|].
  rewrite Hsame; [done|]. unfold foot. rewrite E. right. left.
Qed.

Section Refinement.
Context {A : Type} {Al : Allocator A} {Laws : AllocatorLaws A}.

Record sim (c : Client A) (s : AState) : Prop := {
  sim_seen : cl_seen c = as_seen s;
  sim_length : length (cl_handles c) = length (as_objs s);
  sim_inv : al_inv (cl_mem c) (cl_alloc c);
  sim_separated : separated (cl_mem c) (lives (cl_handles c) (as_objs s) ++ available (cl_alloc c));
  sim_shows h l x : cl_handles c !! h = Some l -> as_objs s !! h = Some (Some x) -> shows (cl_mem c) l x;
}.

Lemma live_handle c s h x :
  sim c s -> live s h = Some x -> exists l, cl_handles c !! h = Some l /\ as_objs s !! h = Some (Some x) /\ shows (cl_mem c) l x.
Proof.
  intros [_ Hlen _ _ Hsh] Hx. unfold live in Hx. destruct (as_objs s !! h) as [o|] eqn:Eo; [|done]. simpl in Hx. subst o.
  destruct (lookup_lt_is_Some_2 (cl_handles c) h) as [l Hl]; [rewrite Hlen; by eapply lookup_lt_Some|]. eauto.
Qed.

(** Objects of different handles are apart. *)
Lemma handles_apart c s h1 h2 l1 l2 x1 x2 :
  sim c s -> h1 <> h2 -> cl_handles c !! h1 = Some l1 -> as_objs s !! h1 = Some (Some x1) ->
  cl_handles c !! h2 = Some l2 -> as_objs s !! h2 = Some (Some x2) -> foot (cl_mem c) l1 ## foot (cl_mem c) l2.
Proof.
  intros [_ _ _ [N D] _] Hne H1 X1 H2 X2. apply NoDup_app in N as (N & _ & _).
  apply D; [apply elem_of_app; left; by eapply lives_elem..|]. rewrite (lives_delete _ _ _ _ _ H1 X1) in N.
  apply NoDup_cons in N as [N _]. intros <-. apply N. eapply lives_elem; [exact H2|]. by rewrite list_lookup_insert_ne.
Qed.

Lemma formed_owned c s :
  sim c s -> Forall (fun l => exists k, formed (cl_mem c) k l) (lives (cl_handles c) (as_objs s) ++ available (cl_alloc c)).
Proof.
  intros [_ _ Hinv _ Hsh]. apply Forall_app. split; apply Forall_forall; intros l Hl; [|by eapply al_formed].
  apply list_elem_of_omap in Hl as ([l' o] & Hin & Ho). destruct o as [x|]; [|done]. simpl in Ho. injection Ho as <-.
  apply list_elem_of_lookup in Hin as [h Hh]. apply lookup_zip_with_Some in Hh as (l2 & o2 & [= <- <-] & Hl & Hx).
  destruct (Hsh h l' x Hl Hx) as [Hf _]. eauto.
Qed.

(** A write within the object of one handle. *)
Lemma sim_write c s h l x x' m' :
  sim c s -> cl_handles c !! h = Some l -> as_objs s !! h = Some (Some x) ->
  changes_only (foot (cl_mem c) l) (cl_mem c) m' -> shows m' l x' ->
  sim (mkClient m' (cl_alloc c) (cl_handles c) (cl_seen c)) (put s h (Some x')).
Proof.
  intros Hs Hl Hx Hch Hx'. pose proof Hs as [Hseen Hlen Hinv Hsep Hsh]. pose proof (changes_prefix _ _ _ Hch) as Hp.
  split; cbn.
  - done.
  - by rewrite length_insert.
  - by eapply al_grows.
  - fold (lives (cl_handles c) (<[h := Some x']> (as_objs s))). rewrite (lives_put _ _ _ x) by done. eapply separated_shape; [apply Hch|done].
  - intros h2 l2 x2 Hl2 Hx2. destruct (decide (h = h2)) as [<- |Hne].
    + rewrite Hl in Hl2. injection Hl2 as <-. rewrite list_lookup_insert_eq in Hx2 by (by eapply lookup_lt_Some). by injection Hx2 as <-.
    + rewrite list_lookup_insert_ne in Hx2 by done. apply (shows_same (cl_mem c)); [done| |by eapply Hsh].
      intros y Hy. apply Hch. intros Hy'. by eapply (handles_apart c s h2 h l2 l).
Qed.

Lemma sim_new c s f :
  sim c s -> exists c', cstep (CNew f) c = Ret c' /\ sim c' (mkAState (as_objs s ++ [Some (f, None)]) (as_seen s)).
Proof.
  intros Hs. pose proof Hs as [Hseen Hlen Hinv Hsep Hsh].
  destruct (al_alloc (kindOf f) _ _ Hinv) as (l & m' & a' & E & Hinv' & Hform & Hcase).
  cbn [cstep]. rewrite E. cbn. eexists. split; [done|].
  assert (Hch : changes_only [l] m' (setFields l f m')) by (apply (setFields_changes _ _ _ (kindOf f)); [by left|done]).
  pose proof (changes_prefix _ _ _ Hch) as Hp'.
  assert (Hsame : forall y, (y < length (cl_mem c))%nat -> m' !! y = cl_mem c !! y).
  { intros y Hy. destruct Hcase as [[-> _]|[[x ->] _]]; [done|]. by apply lookup_app_l. }
  assert (Hp : shape (cl_mem c) `prefix_of` shape m').
  { destruct Hcase as [[-> _]|[[x ->] _]]; [done|]. unfold shape. rewrite fmap_app. by eexists. }
  assert (Hsep' : separated m' (lives (cl_handles c ++ [l]) (as_objs s ++ [Some (f, None)]) ++ available a')).
  { rewrite lives_app by done. destruct Hcase as [[-> Ha]|(Hm & Hf & ->)].
    - eapply separated_perm; [|exact Hsep]. rewrite Ha, <-app_assoc. done.
    - eapply (separated_perm _ (l :: (lives (cl_handles c) (as_objs s) ++ available (cl_alloc c)))).
      { rewrite <-app_assoc. by rewrite Permutation_middle. }
      pose proof (formed_owned c s Hs) as F. rewrite Forall_forall in F, Hf.
      assert (Hlow : forall l', l' ∈ lives (cl_handles c) (as_objs s) ++ available (cl_alloc c) ->
        forall y, y ∈ foot m' l' -> (y < length (cl_mem c))%nat).
      { intros l' Hl' y Hy. rewrite (foot_grows (cl_mem c)) in Hy by (done || by destruct (F l' Hl'); eapply formed_Some).
        destruct (F l' Hl') as [k Hk]. by eapply foot_below. }
      destruct (separated_grows _ m' _ Hp ltac:(by apply Forall_forall) Hsep) as [N D]. split.
      + constructor; [|done]. intros Hin. pose proof (Hlow l Hin l ltac:(left)). pose proof (Hf l ltac:(left)). lia.
      + intros l1 l2 H1 H2 Hne. apply elem_of_cons in H1, H2. destruct H1 as [-> |H1], H2 as [-> |H2]; [done| | |by apply D].
        * intros y Hy1 Hy2. pose proof (Hlow l2 H2 y Hy2). pose proof (Hf y Hy1). lia.
        * intros y Hy1 Hy2. pose proof (Hlow l1 H1 y Hy1). pose proof (Hf y Hy2). lia. }
  split; cbn [cl_mem cl_alloc cl_handles cl_seen as_objs as_seen].
  - done.
  - rewrite !length_app, Hlen. done.
  - by eapply al_grows.
  - eapply separated_shape; [apply Hch|done].
  - intros h l2 x Hl2 Hx. apply lookup_app_Some in Hl2 as [Hl2|[Hge Hl2]].
    + rewrite lookup_app_l in Hx by (rewrite <-Hlen; by eapply lookup_lt_Some).
      apply (shows_same (cl_mem c)); [by etransitivity| |by eapply Hsh].
      intros y Hy. pose proof (Hsh h l2 x Hl2 Hx) as [Hf2 _]. rewrite <-Hsame by (by eapply foot_below).
      apply Hch. intros ->%list_elem_of_singleton.
      destruct Hsep' as [N D]. rewrite lives_app, <-app_assoc in N, D by done.
      assert (H2 : l2 ∈ lives (cl_handles c) (as_objs s)) by (by eapply lives_elem).
      apply (D l2 l) with l; [apply elem_of_app; by left|apply elem_of_app; right; left| |by rewrite (foot_grows (cl_mem c)) by eauto using formed_Some|left].
      intros ->. apply NoDup_app in N as (_ & N & _). apply (N l H2). left.
    + rewrite lookup_app_r in Hx by lia. rewrite Hlen in Hl2. destruct (h - length (as_objs s))%nat; [|done].
      injection Hl2 as <-. injection Hx as <-. split_and!; [by eapply formed_grows| |done].
      cbn [fst]. destruct Hform as (o & Ho & _). unfold setFields. by rewrite list_lookup_alter_eq, Ho.
Qed.

(** What a handle leads to in the memory. *)
Lemma load_shown (c : Client A) h l x :
  cl_handles c !! h = Some l -> shows (cl_mem c) l x ->
  handle c h = Ret l /\ exists o, load (cl_mem c) l = Ret o /\ o_fields o = x.1 /\
    forall k', innerKind (kindOf x.1) = Some k' -> exists l' o', inner c h = Ret l' /\ l' ∈ foot (cl_mem c) l /\ l' <> l /\
      load (cl_mem c) l' = Ret o' /\ kindOf (o_fields o') = k' /\ forall g, x.2 = Some g -> o_fields o' = g.
Proof.
  intros Hl (Hf & Ho & Hi). unfold inner, handle, load. rewrite Hl. split; [done|]. destruct Hf as (o & Eo & Hk & Hin).
  rewrite Eo in Ho, Hi |- *. cbn in Ho, Hi. injection Ho as Ho. exists o. split_and!; [done|done|]. intros k' Hk'. rewrite Hk' in Hin.
  destruct Hin as (l' & o' & El & Hne & Eo' & Ek & _). exists l', o'. cbn. rewrite Eo. cbn. rewrite El. split_and!; try done.
  - unfold foot. rewrite Eo. cbn. rewrite El. right. left.
  - by rewrite Eo'.
  - intros g Hg. rewrite Hg in Hi. destruct Hi as (l2 & E2 & Eg). rewrite El in E2. injection E2 as <-. rewrite Eo' in Eg. by injection Eg.
Qed.

Lemma setFields_lookup l f m o : m !! l = Some o -> setFields l f m !! l = Some (mkObj f (o_inner o)).
Proof. intros Ho. unfold setFields. by rewrite list_lookup_alter_eq, Ho. Qed.

Lemma changes_weaken ls ls' m m' : ls ⊆ ls' -> changes_only ls m m' -> changes_only ls' m m'.
Proof. intros Hs [H1 H2]. split; [done|]. intros l Hl. apply H2. intros Hin. apply Hl. by apply Hs. Qed.

Lemma sim_free c s h x :
  sim c s -> live s h = Some x -> exists c', cstep (CFree h) c = Ret c' /\ sim c' (put s h None).
Proof.
  intros Hs Hx. pose proof Hs as [Hseen Hlen Hinv Hsep Hsh]. destruct (live_handle c s h x Hs Hx) as (l & Hl & Hox & Hshow).
  pose proof Hshow as (Hf & _). destruct (al_Free _ _ _ _ Hinv Hf) as (m' & a' & E & Hinv' & Hch & Hav).
  cbn [cstep]. unfold handle. rewrite Hl. cbn. rewrite E. eexists. split; [done|]. pose proof (changes_prefix _ _ _ Hch) as Hp.
  pose proof (lives_delete _ _ _ _ _ Hl Hox) as Hd.
  split; cbn [cl_mem cl_alloc cl_handles cl_seen as_objs as_seen put].
  - done.
  - by rewrite length_insert.
  - done.
  - fold (lives (cl_handles c) (<[h := None]> (as_objs s))). eapply separated_shape; [apply Hch|]. destruct Hav as [Ha|Ha].
    + eapply separated_sub; [|eapply separated_perm; [|exact Hsep]]; [|by rewrite Hd, <-Ha]. apply sublist_cons. done.
    + eapply separated_perm; [|exact Hsep]. rewrite Hd, Ha. cbn. by rewrite Permutation_middle.
  - intros h2 l2 x2 Hl2 Hx2. destruct (decide (h = h2)) as [<- |Hne].
    { rewrite list_lookup_insert_eq in Hx2 by (by eapply lookup_lt_Some). done. }
    rewrite list_lookup_insert_ne in Hx2 by done. apply (shows_same (cl_mem c)); [done| |by eapply Hsh].
    intros y Hy. apply Hch. intros Hy'. by eapply (handles_apart c s h2 h l2 l).
Qed.

Lemma sim_read c s h x f :
  sim c s -> live s h = Some x ->
  sim (mkClient (cl_mem c) (cl_alloc c) (cl_handles c) (cl_seen c ++ [f])) (mkAState (as_objs s) (as_seen s ++ [f])).
Proof. intros [Hseen Hlen Hinv Hsep Hsh] Hx. split; try done. cbn. by rewrite Hseen. Qed.

(** Every step of the contract is a step of the client. *)
Lemma sim_step cmd c s s' : sim c s -> astep cmd s = Some s' -> exists c', cstep cmd c = Ret c' /\ sim c' s'.
Proof.
  intros Hs Ha. destruct cmd as [f|h f|h f|h|h|h]; cbn [astep] in Ha.
  { injection Ha as <-. by apply sim_new. }
  all: destruct (live s h) as [x|] eqn:Hx; [|done]; cbn in Ha.
  5: { injection Ha as <-. by apply (sim_free c s h x). }
  all: destruct (live_handle c s h x Hs Hx) as (l & Hl & Hox & Hshow);
    destruct (load_shown c h l x Hl Hshow) as (Eh & o & Eo & Eof & Hin); cbn [cstep]; rewrite ?Eh; cbn [mbind Outcome_bind].
  - destruct (decide _) as [Hk|]; [|done]. injection Ha as <-. eexists. split; [done|].
    pose proof Hshow as (Hf & Hof & Hi). apply (sim_write c s h l x); try done.
    + eapply changes_weaken; [|apply (setFields_changes _ _ _ (kindOf x.1)); [by left|done]]. intros y ->%list_elem_of_singleton. left.
    + destruct Hf as (o1 & Ho1 & Hk1 & Hi1). unfold load in Eo. rewrite Ho1 in Eo, Hi. injection Eo as ->.
      assert (Hch : changes_only [l] (cl_mem c) (setFields l f (cl_mem c))).
      { apply (setFields_changes _ _ _ (kindOf x.1)); [right; by exists o|done]. }
      split_and!.
      * cbn [fst]. rewrite Hk. eapply formed_grows; [by eapply changes_prefix|]. by exists o.
      * by rewrite (setFields_lookup _ _ _ o).
      * cbn [snd]. destruct x.2 as [g|]; [|done]. destruct Hi as (l' & El & Eg). exists l'. cbn in El.
        rewrite (setFields_lookup _ _ _ o) by done. cbn. split; [done|]. destruct Hch as [_ Hch]. rewrite Hch; [done|].
        intros ->%list_elem_of_singleton. destruct (innerKind (kindOf x.1)); [|congruence].
        destruct Hi1 as (l2 & o2 & E2 & Hne & _). congruence.
  - destruct (decide _) as [Hk|]; [|done]. injection Ha as <-. destruct (Hin _ Hk) as (l' & o' & Ei & Hfoot & Hne & Eo' & Ek & _).
    rewrite Ei. cbn [mbind Outcome_bind]. eexists. split; [done|].
    unfold load in Eo'. destruct (cl_mem c !! l') as [o2|] eqn:E2; [|done]. injection Eo' as ->.
    assert (Hch : changes_only [l'] (cl_mem c) (setFields l' f (cl_mem c))).
    { apply (setFields_changes _ _ _ (kindOf f)); [right; by exists o'|done]. }
    apply (sim_write c s h l x); try done.
    + eapply changes_weaken; [|exact Hch]. by intros y ->%list_elem_of_singleton.
    + pose proof Hshow as (Hf & Hof & _). destruct Hch as [Hsh Hch]. split_and!.
      * cbn [fst]. eapply formed_grows; [|exact Hf]. by rewrite Hsh.
      * rewrite Hch; [done|]. intros ->%list_elem_of_singleton. done.
      * cbn [snd]. exists l'. rewrite (setFields_lookup _ _ _ o') by done. split; [|done].
        rewrite Hch by (by intros ->%list_elem_of_singleton). unfold inner, load in Ei. rewrite Eh in Ei. cbn in Ei.
        destruct (cl_mem c !! l) as [o3|]; [|done]. cbn in Ei |- *. destruct (o_inner o3); [|done]. by injection Ei as ->.
  - injection Ha as <-. rewrite Eo. cbn [mbind Outcome_bind]. eexists. split; [done|]. rewrite Eof. by apply (sim_read c s h x).
  - destruct x.2 as [g|] eqn:Eg; [|done]. injection Ha as <-. pose proof Hshow as (Hf & _ & Hi).
    destruct (innerKind (kindOf x.1)) as [k'|] eqn:Ek.
    + destruct (Hin k' eq_refl) as (l' & o' & Ei & _ & _ & Eo' & _ & Hg). rewrite Ei. cbn [mbind Outcome_bind]. rewrite Eo'.
      cbn [mbind Outcome_bind]. eexists. split; [done|]. rewrite (Hg g eq_refl). by apply (sim_read c s h x).
    + exfalso. destruct Hf as (o1 & Ho1 & _ & Hn). rewrite Ek in Hn. rewrite Eg in Hi. destruct Hi as (l' & El & _).
      rewrite Ho1 in El. cbn in El. congruence.
Qed.

Lemma sim_init : sim cinit ainit.
Proof.
  destruct al_new as [Hinv Hav]. split; try done. cbn. rewrite Hav. split; [constructor|]. by intros l1 l2 ?%not_elem_of_nil.
Qed.

(** A client of the contract runs, and reads what the contract says. *)
Lemma crun_contract prog s' : arun prog ainit = Some s' -> exists c', crun prog cinit = Ret c' /\ sim c' s'.
Proof.
  generalize sim_init. generalize (cinit (A := A)) as c, ainit as s. induction prog as [|cmd prog IH]; intros c s Hs Ha.
  - injection Ha as <-. by exists c.
  - cbn [arun crun] in *. destruct (astep cmd s) as [s1|] eqn:E; [|done]. destruct (sim_step cmd c s s1 Hs E) as (c1 & -> & Hs1).
    by apply (IH c1 s1).
Qed.
End Refinement.

(** ** Both allocators satisfy the laws *)

Lemma newObj_spec k m :
  let '(m', l) := newObj k m in
  m `prefix_of` m' /\ formed m' k l /\ Forall (fun x => length m <= x)%nat (foot m' l).
Proof.
  assert (H0 : forall x y, (m ++ x :: y) !! length m = Some x) by (intros; by rewrite lookup_app_r, Nat.sub_diag).
  assert (Hk : forall k, kindOf (zeroFields k) = k) by (by intros []).
  unfold newObj. destruct (innerKind k) as [k'|] eqn:Ek.
  - assert (H1 : forall x y, (m ++ [x; y]) !! S (length m) = Some y).
    { intros x y. rewrite lookup_app_r by lia. by replace (S (length m) - length m)%nat with 1%nat by lia. }
    split_and!; [by eexists| |].
    + exists (mkObj (zeroFields k) (Some (length m))). rewrite H1, Ek. split_and!; [done|apply Hk|].
      exists (length m), (mkObj (zeroFields k') None). rewrite H0. split_and!; [done|lia|done|apply Hk|done].
    + unfold foot. rewrite H1. cbn. repeat constructor; lia.
  - split_and!; [by eexists| |].
    + exists (mkObj (zeroFields k) None). rewrite H0, Ek. split_and!; [done|apply Hk|done].
    + unfold foot. rewrite H0. cbn. repeat constructor.
Qed.

#[export, refine] Instance heap_laws : AllocatorLaws unit := {|
  available := fun _ => [];
  al_inv := fun _ _ => True;
|}.
Proof.
  - done.
  - done.
  - by intros m a l _ ?%not_elem_of_nil.
  - intros k m [] _. pose proof (newObj_spec k m) as H. cbn [a_alloc heapAllocator]. unfold heap_alloc. cbn [fst].
    destruct (newObj k m) as [m' l]. destruct H as (Hp & Hf & Hl). exists l, m', tt. split_and!; [done..|]. by right.
  - intros k l m [] _ _. exists m, tt. split_and!; [done..|]. by left.
Defined.

(** The objects in the freelists. *)
Definition freed (w : freelistState) : list loc :=
  fl_valueUnstructured w ++ fl_listUnstructuredRange w ++ fl_valueReflect w ++ fl_mapReflect w ++
  fl_structReflect w ++ fl_listReflect w ++ fl_listReflectRange w.

(** Each freelist holds objects of its type, and no more than the limit. *)
Definition freelists_ok (m : Mem) (w : freelistState) : Prop :=
  forall k, Forall (formed m k) (freelist k w) /\ (length (freelist k w) <= freelistMaxSize)%nat.

Lemma freelist_with k k' fl w : freelist k' (with_freelist k fl w) = if decide (k' = k) then fl else freelist k' w.
Proof. destruct w. by destruct k, k'. Qed.

Lemma with_freelist_twice k fl fl' w : with_freelist k fl (with_freelist k fl' w) = with_freelist k fl w.
Proof. destruct w. by destruct k. Qed.

Lemma freed_split k w : freed w ≡ₚ freelist k w ++ freed (with_freelist k [] w).
Proof. destruct w as [a b c d e f g]. unfold freed. destruct k; simpl; solve_Permutation. Qed.

Lemma freed_with k fl w : freed (with_freelist k fl w) ≡ₚ fl ++ freed (with_freelist k [] w).
Proof. rewrite (freed_split k). by rewrite freelist_with, decide_True, with_freelist_twice by done. Qed.

Lemma freed_elem l w : l ∈ freed w -> exists k, l ∈ freelist k w.
Proof.
  unfold freed. rewrite !elem_of_app. intros [H|[H|[H|[H|[H|[H|H]]]]]];
    [exists kValueUnstructured|exists kListUnstructuredRange|exists kValueReflect|exists kMapReflect|exists kStructReflect
    |exists kListReflect|exists kListReflectRange]; exact H.
Qed.

Lemma freelists_ok_with m k fl w :
  freelists_ok m w -> Forall (formed m k) fl -> (length fl <= freelistMaxSize)%nat -> freelists_ok m (with_freelist k fl w).
Proof. intros Hw F L k'. rewrite freelist_with. destruct (decide (k' = k)) as [-> |]; [done|apply Hw]. Qed.

Lemma freelists_grow m m' w : shape m `prefix_of` shape m' -> freelists_ok m w -> freelists_ok m' w.
Proof. intros Hp Hw k. destruct (Hw k) as [F L]. split; [|done]. eapply Forall_impl; [exact F|]. intros l. by apply formed_grows. Qed.

Lemma freelist_alloc_ok k m w :
  freelists_ok m w ->
  exists l m' w', freelist_alloc k (m, w) = Ret (l, (m', w')) /\ freelists_ok m' w' /\ formed m' k l /\
    ((m' = m /\ freed w ≡ₚ l :: freed w') \/
     (m `prefix_of` m' /\ Forall (fun x => length m <= x)%nat (foot m' l) /\ freed w' = freed w)).
Proof.
  intros Hw. unfold freelist_alloc, freelist_allocate. destruct (Hw k) as [F L]. destruct (last (freelist k w)) as [l|] eqn:El.
  - apply last_Some in El as [fl El]. rewrite El in F, L. apply Forall_app in F as [F Fl]. apply Forall_cons in Fl as [Fl _].
    pose proof Fl as (o & Eo & Ek & _). rewrite Eo, decide_True by done. eexists _, _, _. split; [done|].
    assert (Er : removelast (freelist k w) = fl) by (by rewrite El, removelast_last). rewrite Er. rewrite length_app in L. simpl in L.
    split_and!; [apply freelists_ok_with; [done..|lia]|done|]. left. split; [done|].
    rewrite (freed_split k), El, (freed_with k fl). solve_Permutation.
  - pose proof (newObj_spec k m) as H. destruct (newObj k m) as [m' l]. destruct H as (Hp & Hf & Hl).
    pose proof Hf as (o & Eo & Ek & _). rewrite Eo, decide_True by done. eexists _, _, _. split; [done|].
    assert (Hp' : shape m `prefix_of` shape m') by (destruct Hp as [x ->]; unfold shape; rewrite fmap_app; by eexists).
    replace (with_freelist k (freelist k w) w) with w by (destruct w; by destruct k).
    split_and!; [by eapply freelists_grow|done|]. by right.
Qed.

Lemma freelist_Free_ok k l m w :
  freelists_ok m w -> formed m k l ->
  exists m' w', freelist_Free l (m, w) = (m', w') /\ freelists_ok m' w' /\ changes_only (foot m l) m m' /\
    (freed w' ≡ₚ freed w \/ freed w' ≡ₚ l :: freed w).
Proof.
  intros Hw Hf. pose proof Hf as (o & Eo & Ek & Hi). unfold freelist_Free. rewrite Eo, Ek. eexists _, _. split; [done|].
  set (m' := match o_inner o with Some l' => _ | None => _ end).
  assert (Hch : changes_only (foot m l) m m').
  { unfold m'. destruct (o_inner o) as [l'|] eqn:Ei; eapply changes_weaken; try apply clear_changes; intros y ->%list_elem_of_singleton;
      unfold foot; [|left]. rewrite Eo. cbn. rewrite Ei. right. left. }
  pose proof (changes_prefix _ _ _ Hch) as Hp. pose proof (freelists_grow _ _ _ Hp Hw) as Hw'. destruct (Hw' k) as [F L].
  split_and!; [|done|].
  - apply freelists_ok_with; [done| |]; unfold freelist_free; destruct (Nat.ltb_spec (length (freelist k w)) freelistMaxSize); try done.
    + apply Forall_app. split; [done|]. apply Forall_singleton. by eapply formed_grows.
    + rewrite length_app. simpl. lia.
  - rewrite (freed_with k (freelist_free l (freelist k w))), (freed_split k w). unfold freelist_free. destruct (_ <? _)%nat; [right|by left]. solve_Permutation.
Qed.

#[export, refine] Instance freelist_laws : AllocatorLaws freelistState := {|
  available := freed;
  al_inv := freelists_ok;
|}.
Proof.
  - split; [|done]. intros k. split; destruct k; cbn; try constructor; lia.
  - intros m m' a. apply freelists_grow.
  - intros m a l Hw Hl. apply freed_elem in Hl as [k Hl]. exists k. destruct (Hw k) as [F _]. rewrite Forall_forall in F. by apply F.
  - exact freelist_alloc_ok.
  - exact freelist_Free_ok.
Defined.
