(* ===== verification/AllocatorBound.v ===== *)
(** * Package value: freed objects are used again

    A client that never holds more than [n] objects of a type, where [n] is at
    most the limit of the freelists, makes the freelist allocator create at
    most [n] objects of that type, and [n] for each type of range that owns one,
    however many it asks for. *)
From S2P Require Import Prelude GoLib GoFloat Value ValueOrder Schema TypedHelpers GoReflect JsonTag ReflectCache ValueReflect Allocator AllocatorSpec.

Definition allKinds : list ObjKind :=
  [kValueUnstructured; kListUnstructuredRange; kValueReflect; kMapReflect; kStructReflect; kListReflect; kListReflectRange].

(** How many objects of a type are in the memory. *)
Definition kindCount (k : ObjKind) (m : Mem) : nat := length (filter (fun o => kindOf (o_fields o) = k) m).

(** The types of ranges that own an object of the type. *)
Definition ownersOf (k : ObjKind) : list ObjKind := filter (fun k' => innerKind k' = Some k) allKinds.

Definition one (k : ObjKind) (o : option (ObjFields * option ObjFields)) : nat :=
  match o with Some x => if decide (kindOf x.1 = k) then 1 else 0 | None => 0 end.

(** How many objects of a type the client holds. *)
Definition held (k : ObjKind) (s : AState) : nat := sum_list_with (one k) (as_objs s).

(** Along the whole run, the client holds at most [n] objects of each type. *)
Fixpoint holds_at_most (n : nat) (prog : list Cmd) (s : AState) : bool :=
  forallb (fun k => held k s <=? n)%nat allKinds &&
  match prog with
  | [] => true
  | c :: prog' => match astep c s with Some s' => holds_at_most n prog' s' | None => true end
  end.

Lemma held_app k objs seen seen' o :
  held k (mkAState (objs ++ [o]) seen) = (held k (mkAState objs seen') + one k o)%nat.
Proof. unfold held. cbn [as_objs]. rewrite sum_list_with_app. simpl. lia. Qed.

Lemma held_put k s h x o :
  live s h = Some x -> (held k (put s h o) + one k (Some x) = held k s + one k o)%nat.
Proof.
  unfold live, held, put. cbn [as_objs]. destruct (as_objs s !! h) as [y|] eqn:E; [|done]. simpl. intros ->.
  rewrite <-(take_drop_middle (as_objs s) h (Some x) E) at 2.
  rewrite insert_take_drop by (by eapply lookup_lt_Some). rewrite !sum_list_with_app. simpl. lia.
Qed.

(** ** One allocation and one free *)

(** What a new object of type [k] adds to the objects of type [k']. *)
Definition adds (k k' : ObjKind) : nat :=
  ((if decide (k' = k) then 1 else 0) + (if decide (innerKind k = Some k') then 1 else 0))%nat.

Lemma kindCount_app k m m' : kindCount k (m ++ m') = (kindCount k m + kindCount k m')%nat.
Proof. unfold kindCount. by rewrite filter_app, length_app. Qed.

Lemma kindCount_newObj k m k' : kindCount k' (newObj k m).1 = (kindCount k' m + adds k k')%nat.
Proof.
  unfold newObj. destruct (innerKind k) as [ki|] eqn:Ei; cbn [fst]; rewrite kindCount_app; f_equal; unfold adds; rewrite Ei;
    destruct k; simplify_eq/=; by destruct k'.
Qed.

(** It depends on the shape of the memory only. *)
Lemma kindCount_shape k m m' : shape m' = shape m -> kindCount k m' = kindCount k m.
Proof.
  unfold shape, kindCount. revert m'. induction m as [|o m IH]; intros [|o' m'] E; try done. rewrite !fmap_cons in E.
  injection E as E1 _ E2. rewrite !filter_cons, E1. destruct (decide _); cbn; by rewrite (IH m' E2).
Qed.

Lemma freelist_alloc_count k m w l m' w' :
  freelist_alloc k (m, w) = Ret (l, (m', w')) ->
  (m' = m /\ forall k', length (freelist k' w) = (length (freelist k' w') + if decide (k' = k) then 1 else 0)%nat) \/
  (freelist k w = [] /\ (forall k', kindCount k' m' = (kindCount k' m + adds k k')%nat) /\ forall k', freelist k' w' = freelist k' w).
Proof.
  unfold freelist_alloc, freelist_allocate. destruct (last (freelist k w)) as [x|] eqn:El.
  - destruct (m !! x) as [o|]; [|done]. destruct (decide _); [|done]. intros [= <- <- <-]. left. split; [done|].
    intros k'. rewrite freelist_with. destruct (decide (k' = k)) as [-> |]; [|lia].
    apply last_Some in El as [fl El]. rewrite El, removelast_last, length_app. done.
  - apply last_None in El. pose proof (kindCount_newObj k m) as Hn. destruct (newObj k m) as [m1 l1]. simpl in Hn.
    destruct (m1 !! l1) as [o|]; [|done]. destruct (decide _); [|done]. intros [= <- <- <-]. right. split; [done|]. split; [done|].
    intros k'. rewrite freelist_with. destruct (decide (k' = k)) as [-> |]; done.
Qed.

Lemma freelist_alloc_kind k m w l m' w' :
  freelist_alloc k (m, w) = Ret (l, (m', w')) -> exists o, m' !! l = Some o /\ kindOf (o_fields o) = k.
Proof.
  unfold freelist_alloc. destruct (freelist_allocate k (freelist k w) m) as [l1 [m1 fl]].
  destruct (m1 !! l1) as [o|] eqn:Eo; [|done]. destruct (decide _) as [Hk|]; [|done]. intros [= <- <- <-]. by exists o.
Qed.

Lemma freelist_Free_count k l m w :
  formed m k l -> (length (freelist k w) < freelistMaxSize)%nat ->
  let '(m', w') := freelist_Free l (m, w) in
  shape m' = shape m /\
  forall k', length (freelist k' w') = (length (freelist k' w) + if decide (k' = k) then 1 else 0)%nat.
Proof.
  intros (o & Eo & Ek & _) Hl. unfold freelist_Free. rewrite Eo, Ek. split.
  - destruct (o_inner o); apply clear_changes.
  - intros k'. rewrite freelist_with. destruct (decide (k' = k)) as [-> |]; [|lia]. unfold freelist_free.
    rewrite (proj2 (Nat.ltb_lt _ _) Hl), length_app. simpl. lia.
Qed.

(** ** The run *)

(** The objects of a type: those of the client and those that were freed. *)
Definition created (k : ObjKind) (c : Client freelistState) (s : AState) : nat :=
  (held k s + length (freelist k (cl_alloc c)))%nat.

(** The objects of a type in the memory, if there are [f k] that were handed out, for each type. *)
Definition expected (f : ObjKind -> nat) (k : ObjKind) : nat := (f k + sum_list_with f (ownersOf k))%nat.

Lemma expected_ext f g k : (forall k, f k = g k) -> expected f k = expected g k.
Proof. intros H. unfold expected. rewrite H. f_equal. induction (ownersOf k) as [|k' l IH]; cbn; [done|]. by rewrite H, IH. Qed.

Lemma expected_add f g k0 k :
  (forall k', g k' = (f k' + if decide (k' = k0) then 1 else 0)%nat) -> expected g k = (expected f k + adds k0 k)%nat.
Proof.
  intros H. unfold expected, adds.
  assert (L : forall l, NoDup l -> sum_list_with g l = (sum_list_with f l + if decide (k0 ∈ l) then 1 else 0)%nat).
  { induction 1 as [|k' l Hk _ IH]; cbn [sum_list_with]; [by destruct (decide _) as [?%not_elem_of_nil|]|]. rewrite IH, H.
    destruct (decide (k' = k0)) as [->|Hne].
    - rewrite (decide_False (P := k0 ∈ l)), (decide_True (P := k0 ∈ k0 :: l)) by (done || by left). lia.
    - destruct (decide (k0 ∈ l)) as [Hin|Hin].
      + rewrite decide_True by (by right). lia.
      + rewrite decide_False by (by intros [->|]%elem_of_cons). lia. }
  rewrite H, L by (apply NoDup_filter; by apply (bool_decide_unpack _)).
  assert (Hin : k0 ∈ ownersOf k <-> innerKind k0 = Some k).
  { unfold ownersOf. rewrite list_elem_of_filter. split; [by intros []|]. intros E. split; [done|].
    unfold allKinds. rewrite !elem_of_cons. destruct k0; tauto. }
  destruct (decide (k0 ∈ ownersOf k)), (decide (innerKind k0 = Some k)), (decide (k = k0)); try tauto; lia.
Qed.

Lemma expected_bound f n k : (forall k, f k <= n)%nat -> (expected f k <= n * S (length (ownersOf k)))%nat.
Proof.
  intros H. unfold expected. assert (L : forall l, (sum_list_with f l <= n * length l)%nat).
  { induction l as [|k' l IH]; cbn; [lia|]. specialize (H k'). lia. }
  specialize (H k). specialize (L (ownersOf k)). lia.
Qed.

(** The memory holds what was handed out and what that owns, and there are at most [n] of a type. *)
Definition accounts (n : nat) (c : Client freelistState) (s : AState) : Prop :=
  (forall k, kindCount k (cl_mem c) = expected (fun k => created k c s) k) /\ forall k, (created k c s <= n)%nat.

Lemma accounts_same n c c' s s' :
  accounts n c s -> shape (cl_mem c') = shape (cl_mem c) -> (forall k, created k c' s' = created k c s) -> accounts n c' s'.
Proof.
  intros [Hm Hn] El Ec. split; intros k; [|by rewrite Ec]. rewrite (kindCount_shape k _ _ El), Hm. by apply expected_ext.
Qed.

Lemma accounts_new n f c c' s :
  accounts n c s -> (forall k, held k (mkAState (as_objs s ++ [Some (f, None)]) (as_seen s)) <= n)%nat ->
  cstep (CNew f) c = Ret c' -> accounts n c' (mkAState (as_objs s ++ [Some (f, None)]) (as_seen s)).
Proof.
  intros [Hm Hn] Hh. cbn [cstep a_alloc freelistAllocator].
  destruct (freelist_alloc (kindOf f) (cl_mem c, cl_alloc c)) as [|[l [m' w']]] eqn:E; [done|]. intros [= <-].
  assert (Hheld : forall k, held k (mkAState (as_objs s ++ [Some (f, None)]) (as_seen s)) =
    (held k s + if decide (k = kindOf f) then 1 else 0)%nat).
  { intros k. rewrite (held_app k (as_objs s) (as_seen s) (as_seen s)). destruct s as [objs seen]. cbn [as_objs as_seen one fst].
    by destruct (decide (kindOf f = k)), (decide (k = kindOf f)). }
  assert (Hs : shape (setFields l f m') = shape m').
  { apply (setFields_changes l f m' (kindOf f)); [|done]. right. by eapply freelist_alloc_kind. }
  unfold accounts, created. cbn [cl_mem cl_alloc].
  apply freelist_alloc_count in E as [[-> Hl]|(Hnil & Hlen & Hl)].
  - split.
    + intros k. rewrite (kindCount_shape k _ _ Hs), Hm. apply expected_ext. intros k'. unfold created. rewrite Hheld, (Hl k'). lia.
    + intros k. specialize (Hn k). unfold created in Hn. rewrite Hheld. rewrite (Hl k) in Hn. lia.
  - split.
    + intros k. rewrite (kindCount_shape k _ _ Hs), Hlen, Hm. symmetry. apply expected_add. intros k'. unfold created. rewrite Hheld, Hl. lia.
    + intros k. rewrite Hl. destruct (decide (k = kindOf f)) as [-> |Hne].
      * rewrite Hnil. specialize (Hh (kindOf f)). simpl. lia.
      * specialize (Hn k). unfold created in Hn. rewrite Hheld, decide_False by done. lia.
Qed.

Lemma accounts_free n h c c' s x :
  (n <= freelistMaxSize)%nat -> sim c s -> accounts n c s -> live s h = Some x ->
  cstep (CFree h) c = Ret c' -> accounts n c' (put s h None).
Proof.
  intros Hmax Hs [Hm Hn] Hx. destruct (live_handle c s h x Hs Hx) as (l & Hl & _ & (Hf & _)).
  cbn [cstep]. unfold handle. rewrite Hl. cbn [mbind Outcome_bind a_Free freelistAllocator].
  pose proof (fun k => held_put k s h x None Hx) as Hh. set (k0 := kindOf x.1) in *.
  assert (Hone : forall k, one k (Some x) = if decide (k = k0) then 1%nat else 0%nat).
  { intros k. cbn [one]. fold k0. by destruct (decide (k0 = k)), (decide (k = k0)). }
  assert (Hlt : (length (freelist k0 (cl_alloc c)) < freelistMaxSize)%nat).
  { specialize (Hn k0). specialize (Hh k0). rewrite Hone, decide_True in Hh by done. unfold created in Hn. simpl in Hh. lia. }
  pose proof (freelist_Free_count k0 l (cl_mem c) (cl_alloc c) Hf Hlt) as HF.
  destruct (freelist_Free l (cl_mem c, cl_alloc c)) as [m' w']. destruct HF as [Hlen Hfl]. intros [= <-].
  apply (accounts_same n c _ s); [done|exact Hlen|]. intros k. unfold created. cbn [cl_alloc]. rewrite Hfl.
  specialize (Hh k). rewrite Hone in Hh. simpl in Hh. lia.
Qed.

Lemma accounts_step n cmd c c' s s' :
  (n <= freelistMaxSize)%nat -> sim c s -> accounts n c s -> astep cmd s = Some s' ->
  (forall k, held k s' <= n)%nat -> cstep cmd c = Ret c' -> accounts n c' s'.
Proof.
  intros Hmax Hs Ha E Hh Ec. destruct cmd as [f|h f|h f|h|h|h]; cbn [astep] in E.
  { injection E as <-. by eapply accounts_new. }
  all: destruct (live s h) as [x|] eqn:Hx; [|done]; cbn [mbind option_bind] in E.
  5: { injection E as <-. by eapply accounts_free. }
  all: cbn [cstep] in Ec.
  all: destruct (live_handle c s h x Hs Hx) as (l & Hl & _ & Hsh); unfold inner, handle in Ec; rewrite Hl in Ec; cbn [mbind Outcome_bind] in Ec.
  - destruct (decide _) as [Hk|]; [|done]. injection E as <-. injection Ec as <-.
    apply (accounts_same n c _ s); [done|apply (setFields_changes l f _ (kindOf x.1)); [left; apply Hsh|done]|]. intros k. unfold created. cbn [cl_alloc].
    pose proof (held_put k s h x (Some (f, x.2)) Hx) as Hp. cbn [one fst] in Hp. rewrite Hk in Hp. lia.
  - destruct (decide _) as [Hk|]; [|done]. injection E as <-.
    destruct Hsh as [(o & Eo & Eko & Hi) _]. rewrite Hk in Hi. destruct Hi as (l' & o' & Eoi & _ & Eo' & Ek' & _).
    unfold load in Ec. rewrite Eo in Ec. cbn [mbind Outcome_bind] in Ec. rewrite Eoi in Ec. injection Ec as <-.
    apply (accounts_same n c _ s); [done|apply (setFields_changes l' f _ (kindOf f)); [right; by exists o'|done]|]. intros k. unfold created. cbn [cl_alloc].
    pose proof (held_put k s h x (Some (x.1, Some f)) Hx) as Hp. cbn [one fst] in Hp. lia.
  - injection E as <-. destruct (load (cl_mem c) l); [done|]. injection Ec as <-. by apply (accounts_same n c _ s).
  - destruct x.2; [|done]. injection E as <-. destruct (load (cl_mem c) l) as [|ob]; [done|]. cbn [mbind Outcome_bind] in Ec.
    destruct (o_inner ob) as [l'|]; [|done]. cbn [mbind Outcome_bind] in Ec.
    destruct (load (cl_mem c) l'); [done|]. injection Ec as <-. by apply (accounts_same n c _ s).
Qed.

Lemma holds_at_most_now n prog s k : holds_at_most n prog s = true -> (held k s <= n)%nat.
Proof.
  destruct prog; cbn [holds_at_most]; intros [H _]%andb_true_iff; rewrite forallb_Forall, Forall_forall in H;
    apply Nat.leb_le, H; unfold allKinds; rewrite !elem_of_cons; destruct k; tauto.
Qed.

Lemma accounts_run n prog c c' s s' :
  (n <= freelistMaxSize)%nat -> sim c s -> accounts n c s -> arun prog s = Some s' ->
  holds_at_most n prog s = true -> crun prog c = Ret c' -> accounts n c' s'.
Proof.
  intros Hmax. revert c s. induction prog as [|cmd prog IH]; intros c s Hs Ha Er Hh Ec.
  { injection Er as <-. by injection Ec as <-. }
  cbn [arun crun holds_at_most] in *. apply andb_true_iff in Hh as [_ Hh].
  destruct (astep cmd s) as [s1|] eqn:E; [|done]. destruct (sim_step cmd c s s1 Hs E) as (c1 & E1 & Hs1).
  rewrite E1 in Ec. apply (IH c1 s1); try done. apply (accounts_step n cmd c c1 s s1 Hmax Hs Ha E); [|done]. intros k. by eapply holds_at_most_now.
Qed.

(** The memory holds at most [n] objects of each type, and [n] for each type of range that owns one. *)
Lemma memory_bounded n prog s :
  (n <= freelistMaxSize)%nat -> arun prog ainit = Some s -> holds_at_most n prog ainit = true ->
  exists c, crun (A := freelistState) prog cinit = Ret c /\
    forall k, (kindCount k (cl_mem c) <= n * S (length (ownersOf k)))%nat.
Proof.
  intros Hmax Er Hh. destruct (crun_contract (A := freelistState) prog s Er) as (c & Ec & _). exists c. split; [done|].
  assert (H0 : accounts n cinit ainit) by (split; intros []; cbn; try lia; by vm_compute).
  destruct (accounts_run n prog cinit c ainit s Hmax sim_init H0 Er Hh Ec) as [Hm Hn]. intros k. rewrite Hm. by apply expected_bound.
Qed.
