(* ===== verification/Unstructured.v ===== *)
(** * Package value: maps with dynamic keys, ranges, and the helpers on maps

    Models [value/mapunstructured.go] with both of its map types, the writes of
    maps, the ranges of [value/list.go] and [value/listunstructured.go], and
    [MapEqualsUsing] of [value/map.go].  A [uvalue] is a dynamic value that may
    hold a [map[interface{}]interface{}], as decoding YAML gives; [norm] is the
    [value] it stands for. *)
From S2P Require Import Prelude GoLib GoFloat Value ValueOrder TypedHelpers.

(** ** Values *)

#[warnings="-register-all"]
Inductive uvalue : Type :=
  | UNull
  | UBool (b : bool)
  | UInt (k : IntKind) (i : Z)
  | UFloat32 (f : spec_float)
  | UFloat64 (f : spec_float)
  | UString (s : string)
  | UList (l : list uvalue)
  | UStringMap (m : list (string * uvalue))
  | UInterfaceMap (m : list (uvalue * uvalue)).

Section UvalueInd.
Context (P : uvalue -> Prop).
Hypothesis (Hnull : P UNull) (Hbool : forall b, P (UBool b)) (Hint : forall k i, P (UInt k i))
  (Hf32 : forall f, P (UFloat32 f)) (Hf64 : forall f, P (UFloat64 f)) (Hstr : forall s, P (UString s))
  (Hlist : forall l, Forall P l -> P (UList l))
  (Hsmap : forall m, Forall (fun kv : string * uvalue => P kv.2) m -> P (UStringMap m))
  (Himap : forall m, Forall (fun kv : uvalue * uvalue => P kv.2) m -> P (UInterfaceMap m)).

Fixpoint uvalue_rect_nested (v : uvalue) : P v :=
  match v with
  | UNull => Hnull | UBool b => Hbool b | UInt k i => Hint k i
  | UFloat32 f => Hf32 f | UFloat64 f => Hf64 f | UString s => Hstr s
  | UList l => Hlist l ((fix go l := match l return Forall P l with
      | [] => List.Forall_nil _ | v :: l' => List.Forall_cons _ _ _ (uvalue_rect_nested v) (go l') end) l)
  | UStringMap m => Hsmap m ((fix go m := match m return Forall (fun kv => P kv.2) m with
      | [] => List.Forall_nil _ | kv :: m' => List.Forall_cons _ _ _ (uvalue_rect_nested kv.2) (go m') end) m)
  | UInterfaceMap m => Himap m ((fix go m := match m return Forall (fun kv => P kv.2) m with
      | [] => List.Forall_nil _ | kv :: m' => List.Forall_cons _ _ _ (uvalue_rect_nested kv.2) (go m') end) m)
  end.
End UvalueInd.

(** [k.(string)]. *)
Definition stringKey (k : uvalue) : option string := match k with UString s => Some s | _ => None end.

(** ** The two map types *)

(** [mapUnstructuredString] and [mapUnstructuredInterface]. *)
Inductive UMap :=
  | mapUnstructuredString (m : list (string * uvalue))
  | mapUnstructuredInterface (m : list (uvalue * uvalue)).

Definition u_AsMap (v : uvalue) : option UMap :=
  match v with
  | UStringMap m => Some (mapUnstructuredString m)
  | UInterfaceMap m => Some (mapUnstructuredInterface m)
  | _ => None
  end.

(** [m[key]] for a key that is a string: a key of another dynamic type differs from it. *)
Fixpoint interface_get (key : string) (m : list (uvalue * uvalue)) : option uvalue :=
  match m with
  | [] => None
  | (k, v) :: m' =>
    match stringKey k with
    | Some s => if string_eqb s key then Some v else interface_get key m'
    | None => interface_get key m'
    end
  end.

Definition UMap_Get (m : UMap) (key : string) : option uvalue :=
  match m with
  | mapUnstructuredString m => assoc_get key m
  | mapUnstructuredInterface m => interface_get key m
  end.

Definition UMap_Has (m : UMap) (key : string) : bool :=
  match UMap_Get m key with Some _ => true | None => false end.

Definition UMap_Length (m : UMap) : nat :=
  match m with mapUnstructuredString m => length m | mapUnstructuredInterface m => length m end.
Definition UMap_Empty (m : UMap) : bool := (UMap_Length m =? 0)%nat.

(** [m[key] = val]: replaces the entry of the key or adds one. *)
Fixpoint interface_set (key : string) (val : uvalue) (m : list (uvalue * uvalue)) : list (uvalue * uvalue) :=
  match m with
  | [] => [(UString key, val)]
  | (k, v) :: m' =>
    if match stringKey k with Some s => string_eqb s key | None => false end then (k, val) :: m'
    else (k, v) :: interface_set key val m'
  end.

Definition UMap_Set (m : UMap) (key : string) (val : uvalue) : UMap :=
  match m with
  | mapUnstructuredString m => mapUnstructuredString (assoc_set key val m)
  | mapUnstructuredInterface m => mapUnstructuredInterface (interface_set key val m)
  end.

(** [delete(m, key)]. *)
Definition UMap_Delete (m : UMap) (key : string) : UMap :=
  match m with
  | mapUnstructuredString m => mapUnstructuredString (assoc_delete key m)
  | mapUnstructuredInterface m =>
    mapUnstructuredInterface (base.filter (fun kv : uvalue * uvalue => stringKey kv.1 <> Some key) m)
  end.

Section Iterate.
Context {S : Type} (fn : string -> uvalue -> S -> S * bool).

Fixpoint string_Iterate (m : list (string * uvalue)) (s : S) : S * bool :=
  match m with
  | [] => (s, true)
  | (k, v) :: m' => let '(s', ok) := fn k v s in if ok then string_Iterate m' s' else (s', false)
  end.

(** Keys that are not strings are skipped. *)
Fixpoint interface_Iterate (m : list (uvalue * uvalue)) (s : S) : S * bool :=
  match m with
  | [] => (s, true)
  | (k, v) :: m' =>
    match stringKey k with
    | None => interface_Iterate m' s
    | Some ks => let '(s', ok) := fn ks v s in if ok then interface_Iterate m' s' else (s', false)
    end
  end.

Definition UMap_Iterate (m : UMap) (s : S) : S * bool :=
  if UMap_Empty m then (s, true)
  else match m with
    | mapUnstructuredString m => string_Iterate m s
    | mapUnstructuredInterface m => interface_Iterate m s
    end.
End Iterate.

(** ** Equality *)

(** What a value that is not a map or a list stands for; a list or a map by its sort. *)
Definition scalarOf (v : uvalue) : value :=
  match v with
  | UNull => VNull | UBool b => VBool b | UInt k i => VInt k i
  | UFloat32 f => VFloat32 f | UFloat64 f => VFloat64 f | UString s => VString s
  | UList _ => VList [] | UStringMap _ | UInterfaceMap _ => VMap []
  end.

Section EqualsBody.
Variable Equals : uvalue -> uvalue -> bool.

(** [EqualsUsing] of either map type. *)
Definition UMap_EqualsUsing (m other : UMap) : bool :=
  let lhsLength := UMap_Length m in
  let rhsLength := UMap_Length other in
  if negb (lhsLength =? rhsLength)%nat then false
  else if (lhsLength =? 0)%nat then true
  else
    (UMap_Iterate (fun key value (_ : unit) =>
      match UMap_Get m key with
      | None => (tt, false)
      | Some lhsVal => (tt, Equals lhsVal value)
      end) other tt).2.

Fixpoint u_listEquals (lhs rhs : list uvalue) : bool :=
  match lhs, rhs with
  | lv :: lhs', rv :: rhs' => if Equals lv rv then u_listEquals lhs' rhs' else false
  | _, _ => true
  end.

(** [EqualsUsing]: values that are not both lists or both maps are compared by
    their scalars and sorts alone. *)
Definition u_EqualsUsing (lhs rhs : uvalue) : bool :=
  match lhs, rhs with
  | UList l, UList r => if negb (length l =? length r)%nat then false else u_listEquals l r
  | _, _ =>
    match u_AsMap lhs, u_AsMap rhs with
    | Some m, Some other => UMap_EqualsUsing m other
    | _, _ => EqualsUsing (fun _ _ => true) (scalarOf lhs) (scalarOf rhs)
    end
  end.
End EqualsBody.

Fixpoint u_height (v : uvalue) : nat :=
  match v with
  | UList l => S (foldr (fun v h => Nat.max (u_height v) h) 0%nat l)
  | UStringMap m => S (foldr (fun kv h => Nat.max (u_height kv.2) h) 0%nat m)
  | UInterfaceMap m => S (foldr (fun kv h => Nat.max (u_height kv.2) h) 0%nat m)
  | _ => O
  end.

Fixpoint u_Equals_fuel (n : nat) : uvalue -> uvalue -> bool :=
  match n with
  | O => fun _ _ => false
  | S n => u_EqualsUsing (u_Equals_fuel n)
  end.

Definition u_Equals (lhs rhs : uvalue) : bool := u_Equals_fuel (S (u_height lhs)) lhs rhs.

(** ** What a value stands for *)

(** The entries with string keys. *)
Definition entries (m : UMap) : list (string * uvalue) :=
  match m with
  | mapUnstructuredString m => m
  | mapUnstructuredInterface m => omap (fun kv : uvalue * uvalue => (fun s => (s, kv.2)) <$> stringKey kv.1) m
  end.

Fixpoint norm (v : uvalue) : value :=
  match v with
  | UList l => VList (norm <$> l)
  | UStringMap m => VMap ((fun kv : string * uvalue => (kv.1, norm kv.2)) <$> m)
  | UInterfaceMap m =>
    VMap (omap (fun kv : uvalue * uvalue => (fun s => (s, norm kv.2)) <$> stringKey kv.1) m)
  | v => scalarOf v
  end.

(** Every key of every map is a string. *)
Fixpoint string_keyed (v : uvalue) : bool :=
  match v with
  | UList l => forallb string_keyed l
  | UStringMap m => forallb (fun kv : string * uvalue => string_keyed kv.2) m
  | UInterfaceMap m =>
    forallb (fun kv : uvalue * uvalue => match kv.1 with UString _ => true | _ => false end && string_keyed kv.2) m
  | _ => true
  end.

Definition norm_entries (m : list (string * uvalue)) : Map := (fun kv => (kv.1, norm kv.2)) <$> m.

Lemma norm_map u m : u_AsMap u = Some m -> norm u = VMap (norm_entries (entries m)).
Proof.
  destruct u as [| | | | | | |l|l]; try done; intros [= <-]; [done|]. simpl. f_equal. unfold norm_entries.
  induction l as [|[k v] l IH]; [done|]. cbn. destruct (stringKey k); cbn; by rewrite IH.
Qed.

Section Entries.
Implicit Types (m : UMap).

Lemma Get_entries m k : UMap_Get m k = assoc_get k (entries m).
Proof.
  destruct m as [l|l]; [done|]. induction l as [|[k' v] l IH]; [done|]. cbn in *.
  destruct (stringKey k') as [s|]; cbn; [|exact IH]. by destruct (string_eqb s k).
Qed.

Lemma Set_entries m k v : entries (UMap_Set m k v) = assoc_set k v (entries m).
Proof.
  destruct m as [l|l]; [done|]. induction l as [|[k' x] l IH]; [done|]. cbn in *.
  destruct (stringKey k') as [s|] eqn:Ek; cbn; [|by rewrite Ek].
  destruct (string_eqb s k) eqn:E; cbn; rewrite Ek; cbn; [done|]. by rewrite IH.
Qed.

Lemma Delete_entries m k : entries (UMap_Delete m k) = assoc_delete k (entries m).
Proof.
  destruct m as [l|l]; [done|]. cbn [UMap_Delete entries]. induction l as [|[k' x] l IH]; [done|].
  rewrite filter_cons. cbn [fst]. destruct (stringKey k') as [s|] eqn:Ek.
  - change (omap _ ((k', x) :: l)) with (from_option (fun e => e :: omap (fun kv : uvalue * uvalue => (fun s => (s, kv.2)) <$> stringKey kv.1) l) (omap (fun kv : uvalue * uvalue => (fun s => (s, kv.2)) <$> stringKey kv.1) l) ((fun s => (s, x)) <$> stringKey k')).
    rewrite Ek. cbn [fmap option_fmap option_map from_option]. rewrite assoc_delete_cons, <-IH.
    destruct (string_eqb s k) eqn:E.
    + apply string_eqb_true in E. by rewrite decide_False by (intros H; apply H; by rewrite E).
    + apply string_eqb_false in E. rewrite decide_True by congruence. cbn. by rewrite Ek.
  - rewrite decide_True by done. cbn. rewrite Ek. exact IH.
Qed.

Lemma Iterate_entries {S} (fn : string -> uvalue -> S -> S * bool) m s :
  UMap_Iterate fn m s = string_Iterate fn (entries m) s.
Proof.
  unfold UMap_Iterate, UMap_Empty. destruct m as [[|e l]|[|e l]]; try done. cbn [UMap_Length length Nat.eqb].
  generalize (e :: l) as l'. clear e l. intros l. revert s. induction l as [|[k v] l IH]; intros s; [done|]. cbn.
  destruct (stringKey k); cbn; [|apply IH]. destruct (fn _ v s) as [s' []]; [apply IH|done].
Qed.
End Entries.

(** ** Maps of string keys *)

Definition map_keyed (m : UMap) : Prop :=
  UMap_Length m = length (entries m) /\ Forall (fun kv => string_keyed kv.2 = true) (entries m).

Lemma map_keyed_AsMap u m : string_keyed u = true -> u_AsMap u = Some m -> map_keyed m.
Proof.
  intros Hk Hm. destruct u as [| | | | | | |l|l]; try done; injection Hm as <-; unfold map_keyed; simpl in *.
  - split; [done|]. by rewrite forallb_Forall in Hk.
  - induction l as [|[k v] l IH]; [by split; [|constructor]|]. cbn in *. apply andb_true_iff in Hk as [[H1 H2]%andb_true_iff Hk].
    destruct (IH Hk) as [E F]. destruct k; try done. cbn. split; [by rewrite E|by constructor].
Qed.

Lemma u_height_norm u : string_keyed u = true -> u_height u = height (norm u).
Proof.
  induction u as [|b|k i|f|f|str|l IH|l IH|l IH] using uvalue_rect_nested; intros Hk; try done; simpl in *; f_equal.
  - induction IH as [|v l Hv _ IHl]; [done|]. cbn in *. apply andb_true_iff in Hk as [H1 H2]. by rewrite Hv, IHl.
  - induction IH as [|v l Hv _ IHl]; [done|]. cbn in *. apply andb_true_iff in Hk as [H1 H2]. by rewrite Hv, IHl.
  - induction IH as [|[k v] l Hv _ IHl]; [done|]. cbn in *. apply andb_true_iff in Hk as [[H0 H1]%andb_true_iff H2].
    destruct k; try done. cbn. by rewrite Hv, IHl.
Qed.

Lemma norm_get l k : assoc_get k (norm_entries l) = norm <$> assoc_get k l.
Proof. induction l as [|[k' v] l IH]; [done|]. simpl. by destruct (string_eqb k' k). Qed.

Section Agree.
Context (rec1 : uvalue -> uvalue -> bool) (rec2 : value -> value -> bool).
Hypothesis Hrec : forall a b, string_keyed a = true -> string_keyed b = true -> rec1 a b = rec2 (norm a) (norm b).

Lemma UMap_EqualsUsing_norm m other :
  map_keyed m -> map_keyed other ->
  UMap_EqualsUsing rec1 m other =
  mapUnstructuredString_EqualsUsing rec2 (norm_entries (entries m)) (norm_entries (entries other)).
Proof.
  intros [L1 F1] [L2 F2]. unfold UMap_EqualsUsing, mapUnstructuredString_EqualsUsing, norm_entries.
  rewrite !length_fmap, <-L1, <-L2. destruct (negb _); [done|]. destruct (_ =? 0)%nat; [done|].
  rewrite Iterate_entries. clear L1 L2. induction F2 as [|[k v] l Hv F2 IH]; [done|]. cbn.
  rewrite Get_entries. change (assoc_get k ((fun kv : string * uvalue => (kv.1, norm kv.2)) <$> entries m))
    with (assoc_get k (norm_entries (entries m))). rewrite norm_get.
  destruct (assoc_get k (entries m)) as [x|] eqn:E; [|done]. cbn.
  rewrite Hrec; [|apply assoc_get_Some in E; rewrite Forall_forall in F1; by apply (F1 (k, x))|done].
  destruct (rec2 _ _); [exact IH|done].
Qed.

Lemma u_listEquals_norm l1 l2 :
  forallb string_keyed l1 = true -> forallb string_keyed l2 = true ->
  u_listEquals rec1 l1 l2 = listRangeEquals rec2 (norm <$> l1) (norm <$> l2).
Proof.
  revert l2. induction l1 as [|a l1 IH]; intros [|b l2]; try done. cbn.
  intros [Ha H1]%andb_true_iff [Hb H2]%andb_true_iff. rewrite Hrec by done. destruct (rec2 _ _); [by apply IH|done].
Qed.

Lemma u_EqualsUsing_norm a b :
  string_keyed a = true -> string_keyed b = true ->
  u_EqualsUsing rec1 a b = EqualsUsing rec2 (norm a) (norm b).
Proof.
  intros Ka Kb. destruct (u_AsMap a) as [m|] eqn:Ea, (u_AsMap b) as [o|] eqn:Eb.
  - pose proof (map_keyed_AsMap a m Ka Ea) as Hm. pose proof (map_keyed_AsMap b o Kb Eb) as Ho.
    rewrite (norm_map a m Ea), (norm_map b o Eb). clear Ka Kb.
    transitivity (UMap_EqualsUsing rec1 m o); [|by rewrite UMap_EqualsUsing_norm].
    destruct a, b; try done; by injection Ea as <-; injection Eb as <-.
  - rewrite (norm_map a m Ea). by destruct a, b.
  - rewrite (norm_map b o Eb). destruct a as [| |[]| | | | | |]; try done; by destruct b.
  - destruct a as [| |[]| | | | | |], b as [| |[]| | | | | |]; try done.
    unfold u_EqualsUsing, EqualsUsing, ListEqualsUsing. cbn [norm IsFloat IsInt IsString IsBool IsList IsMap orb AsList].
    rewrite !length_fmap. destruct (negb _); [done|]. by apply u_listEquals_norm.
Qed.
End Agree.

(** Maps of either type are equal exactly when the values they stand for are. *)
Lemma u_Equals_norm a b :
  string_keyed a = true -> string_keyed b = true -> u_Equals a b = Equals (norm a) (norm b).
Proof.
  intros Ka Kb. unfold u_Equals, Equals. rewrite (u_height_norm a Ka).
  generalize (S (height (norm a))) as n. intros n. revert a b Ka Kb.
  induction n as [|n IH]; intros a b Ka Kb; [done|]. cbn [u_Equals_fuel Equals_fuel]. by apply u_EqualsUsing_norm.
Qed.

(** ** Ranges *)

(** A [listUnstructuredRange] (its value object aside), or the empty range. *)
Inductive ListRange := emptyRange | mkRange (list : list value) (i : Z).

(** [RangeUsing]. *)
Definition RangeUsing (l : list value) : ListRange :=
  if (length l =? 0)%nat then emptyRange else mkRange l (-1).

Definition range_Next (r : ListRange) : ListRange * bool :=
  match r with
  | emptyRange => (emptyRange, false)
  | mkRange l i => (mkRange l (i + 1), i + 1 <? Z.of_nat (length l))
  end.

(** Panics before the first [Next] and after the last item. *)
Definition range_Item (r : ListRange) : Outcome (Z * value) :=
  match r with
  | emptyRange => Panic
  | mkRange l i =>
    if i <? 0 then Panic
    else if Z.of_nat (length l) <=? i then Panic
    else match l !! Z.to_nat i with Some v => Ret (i, v) | None => Panic end
  end.

(** The loop of [ListEqualsUsing]; the right range advances only when the left one has an item. *)
Fixpoint rangesEqual (fuel : nat) (l r : ListRange) : Outcome bool :=
  match fuel with
  | O => Panic
  | S fuel =>
    let '(l, lok) := range_Next l in
    if lok then
      let '(r, rok) := range_Next r in
      if rok then
        lv ← range_Item l; rv ← range_Item r;
        if negb (Equals lv.2 rv.2) then Ret false else rangesEqual fuel l r
      else Ret true
    else Ret true
  end.

Definition ListEquals (lhs rhs : list value) : Outcome bool :=
  if negb (length lhs =? length rhs)%nat then Ret false
  else rangesEqual (S (length lhs)) (RangeUsing lhs) (RangeUsing rhs).

(** The loop of [ListCompareUsing]. *)
Fixpoint rangesCompare (fuel : nat) (l r : ListRange) : Outcome Z :=
  match fuel with
  | O => Panic
  | S fuel =>
    let '(l, lok) := range_Next l in
    let '(r, rok) := range_Next r in
    if negb lok && negb rok then Ret 0
    else if negb lok then Ret (-1)
    else if negb rok then Ret 1
    else
      lv ← range_Item l; rv ← range_Item r;
      let c := Compare lv.2 rv.2 in if negb (c =? 0) then Ret c else rangesCompare fuel l r
  end.

Definition ListCompare (lhs rhs : list value) : Outcome Z :=
  rangesCompare (S (length lhs)) (RangeUsing lhs) (RangeUsing rhs).

Definition ListLess (lhs rhs : list value) : Outcome bool := c ← ListCompare lhs rhs; Ret (c =? -1).

(** A range over [done ++ rest] that has passed [done]. *)
Definition range_at (d rest : list value) (r : ListRange) : Prop :=
  match r with
  | emptyRange => d = [] /\ rest = []
  | mkRange l i => l = d ++ rest /\ i = Z.of_nat (length d) - 1
  end.

Lemma RangeUsing_at l : range_at [] l (RangeUsing l).
Proof. by destruct l. Qed.

Lemma range_Next_end d r : range_at d [] r -> (range_Next r).2 = false.
Proof.
  destruct r as [|l i]; [done|]. intros [-> ->]. cbn. rewrite app_nil_r. apply Z.ltb_ge. lia.
Qed.

Lemma range_Next_item d x rest r :
  range_at d (x :: rest) r ->
  (range_Next r).2 = true /\ range_at (d ++ [x]) rest (range_Next r).1 /\
  exists i, range_Item (range_Next r).1 = Ret (i, x).
Proof.
  destruct r as [|l i]; [by intros []|]. intros [-> ->]. cbn [range_Next fst snd]. split; [|split].
  - apply Z.ltb_lt. rewrite length_app. simpl. lia.
  - split; [by rewrite <-app_assoc|]. rewrite length_app. simpl. lia.
  - exists (Z.of_nat (length d)). unfold range_Item. replace (Z.of_nat (length d) - 1 + 1) with (Z.of_nat (length d)) by lia.
    rewrite (proj2 (Z.ltb_ge _ _)) by lia. rewrite (proj2 (Z.leb_gt _ _)) by (rewrite length_app; simpl; lia).
    rewrite Nat2Z.id, lookup_app_r by lia. by rewrite Nat.sub_diag.
Qed.

Lemma rangesEqual_list d1 d2 l1 l2 r1 r2 fuel :
  range_at d1 l1 r1 -> range_at d2 l2 r2 -> (length l1 < fuel)%nat ->
  rangesEqual fuel r1 r2 = Ret (listRangeEquals Equals l1 l2).
Proof.
  revert d1 d2 l2 r1 r2 fuel. induction l1 as [|x l1 IH]; intros d1 d2 l2 r1 r2 [|fuel] H1 H2 Hf; try (simpl in Hf; lia);
    cbn [rangesEqual].
  { pose proof (range_Next_end d1 r1 H1) as E. destruct (range_Next r1) as [r1' []]; done. }
  destruct (range_Next_item d1 x l1 r1 H1) as (E1 & A1 & i1 & I1). destruct (range_Next r1) as [r1' []]; [|done].
  destruct l2 as [|y l2].
  { pose proof (range_Next_end d2 r2 H2) as E. destruct (range_Next r2) as [r2' []]; done. }
  destruct (range_Next_item d2 y l2 r2 H2) as (E2 & A2 & i2 & I2). destruct (range_Next r2) as [r2' []]; [|done].
  cbn [fst snd] in *. rewrite I1, I2. cbn [mbind Outcome_bind snd listRangeEquals].
  destruct (Equals x y); cbn [negb]; [|done]. apply (IH _ _ _ _ _ _ A1 A2). simpl in Hf. lia.
Qed.

Lemma rangesCompare_list d1 d2 l1 l2 r1 r2 fuel :
  range_at d1 l1 r1 -> range_at d2 l2 r2 -> (length l1 < fuel)%nat ->
  rangesCompare fuel r1 r2 = Ret (ListCompareUsing Compare l1 l2).
Proof.
  revert d1 d2 l2 r1 r2 fuel. induction l1 as [|x l1 IH]; intros d1 d2 l2 r1 r2 [|fuel] H1 H2 Hf; try (simpl in Hf; lia);
    cbn [rangesCompare].
  - pose proof (range_Next_end d1 r1 H1) as E1. destruct (range_Next r1) as [r1' []]; [done|].
    destruct l2 as [|y l2].
    + pose proof (range_Next_end d2 r2 H2) as E2. by destruct (range_Next r2) as [r2' []].
    + destruct (range_Next_item d2 y l2 r2 H2) as (E2 & _). by destruct (range_Next r2) as [r2' []].
  - destruct (range_Next_item d1 x l1 r1 H1) as (E1 & A1 & i1 & I1). destruct (range_Next r1) as [r1' []]; [|done].
    destruct l2 as [|y l2].
    { pose proof (range_Next_end d2 r2 H2) as E2. by destruct (range_Next r2) as [r2' []]. }
    destruct (range_Next_item d2 y l2 r2 H2) as (E2 & A2 & i2 & I2). destruct (range_Next r2) as [r2' []]; [|done].
    cbn [fst snd negb andb] in *. rewrite I1, I2. cbn [mbind Outcome_bind snd ListCompareUsing]. cbv zeta.
    destruct (negb _); [done|]. apply (IH _ _ _ _ _ _ A1 A2). simpl in Hf. lia.
Qed.

(** ** The general equality of maps *)

(** [MapEqualsUsing] of [map.go]. *)
Definition MapEqualsUsing (lhs rhs : option Map) : bool :=
  match lhs, rhs with
  | None, None => true
  | None, _ | _, None => false
  | Some _, Some _ =>
    if negb (map_Length lhs =? map_Length rhs)%nat then false
    else (MapZipUsing lhs rhs Unordered (fun _ l r (_ : unit) =>
      match l, r with Some l, Some r => (tt, Equals l r) | _, _ => (tt, false) end) tt).2
  end.

Lemma map_Iterate_forallb (f : string -> value -> bool) (m : Map) :
  (map_Iterate (fun k v (_ : unit) => (tt, f k v)) m tt) = (tt, forallb (fun kv => f kv.1 kv.2) m).
Proof. induction m as [|[k v] m IH]; [done|]. simpl. destruct (f k v); [exact IH|done]. Qed.

Lemma map_Iterate_unit_ext (f g : string -> value -> unit -> unit * bool) (m : Map) :
  (forall k v, f k v tt = g k v tt) -> map_Iterate f m tt = map_Iterate g m tt.
Proof.
  intros H. induction m as [|[k v] m IH]; [done|]. simpl. rewrite H. destruct (g k v tt) as [[] []]; [exact IH|done].
Qed.

(** The pairs that the traversal of both maps compares. *)
Lemma MapEqualsUsing_forallb (m other : Map) :
  length m = length other ->
  MapEqualsUsing (Some m) (Some other) =
  forallb (fun kv => match assoc_get kv.1 other with Some v => Equals kv.2 v | None => false end) m &&
  forallb (fun kv => match assoc_get kv.1 m with Some _ => true | None => false end) other.
Proof.
  intros L. unfold MapEqualsUsing. cbn [map_Length]. rewrite L, Nat.eqb_refl. cbn [negb MapZipUsing defaultMapZip].
  unfold unorderedMapZip. destruct (map_Empty (Some m) && map_Empty (Some other)) eqn:E.
  { apply andb_true_iff in E as [E1 E2]. by destruct m, other. }
  rewrite (map_Iterate_unit_ext _ (fun k x _ => (tt, match assoc_get k other with Some v => Equals x v | None => false end))).
  2: { intros k x. simpl. by destruct (assoc_get k other). }
  rewrite map_Iterate_forallb. destruct (forallb _ m); [|done]. cbn [negb andb].
  rewrite (map_Iterate_unit_ext _ (fun k _ _ => (tt, match assoc_get k m with Some _ => true | None => false end))).
  2: { intros k x. simpl. by destruct (assoc_get k m). }
  by rewrite map_Iterate_forallb.
Qed.

Lemma keys_within (m other : Map) :
  NoDup (assoc_keys m) -> NoDup (assoc_keys other) -> length m = length other ->
  (forall k, k ∈ assoc_keys other -> k ∈ assoc_keys m) -> forall k, k ∈ assoc_keys m -> k ∈ assoc_keys other.
Proof.
  intros N1 N2 L H k Hk.
  assert (P : assoc_keys other ≡ₚ assoc_keys m); [|by rewrite P].
  apply submseteq_length_Permutation; [by apply NoDup_submseteq|]. unfold assoc_keys. rewrite !length_fmap. lia.
Qed.

(** The general equality of maps and that of the map type itself agree. *)
Lemma MapEqualsUsing_agrees (m other : Map) :
  NoDup (assoc_keys m) -> NoDup (assoc_keys other) ->
  MapEqualsUsing (Some m) (Some other) = mapUnstructuredString_EqualsUsing Equals m other.
Proof.
  intros N1 N2. unfold mapUnstructuredString_EqualsUsing. destruct (length m =? length other)%nat eqn:L.
  2: { unfold MapEqualsUsing. cbn [map_Length]. by rewrite L. }
  apply Nat.eqb_eq in L. rewrite MapEqualsUsing_forallb by done. cbn [negb].
  destruct m as [|e m'] eqn:Em; [by destruct other|]. rewrite <-Em in *. assert (Z : (length m =? 0)%nat = false) by (by subst).
  rewrite Z. clear Em e m' Z.
  rewrite (map_Iterate_unit_ext _ (fun k v _ => (tt, match assoc_get k m with Some x => Equals x v | None => false end)))
    by (intros k v; by destruct (assoc_get k m)).
  rewrite map_Iterate_forallb. cbn [snd]. apply eq_true_iff_eq. rewrite andb_true_iff, !forallb_Forall, !Forall_forall. split.
  - intros [H1 H2] [k v] Hv. specialize (H2 _ Hv). simpl in *. destruct (assoc_get k m) as [x|] eqn:Ex; [|done].
    apply assoc_get_Some in Ex. specialize (H1 _ Ex). simpl in H1. by rewrite (proj2 (assoc_get_NoDup k v other N2) Hv) in H1.
  - intros H. assert (Hk : forall k, k ∈ assoc_keys other -> k ∈ assoc_keys m).
    { intros k Hk. apply list_elem_of_fmap in Hk as ([k' v] & -> & Hv). specialize (H _ Hv). simpl in *.
      destruct (assoc_get k' m) as [x|] eqn:Ex; [|done]. apply assoc_get_Some in Ex. by apply (list_elem_of_fmap_2 fst _ (k', x)). }
    pose proof (keys_within m other N1 N2 L Hk) as Hk'. split.
    + intros [k x] Hx. simpl. pose proof (list_elem_of_fmap_2 fst _ _ Hx) as Hin. apply Hk' in Hin. simpl in Hin.
      apply list_elem_of_fmap in Hin as ([k' v] & E & Hv). simpl in E. subst k'.
      rewrite (proj2 (assoc_get_NoDup k v other N2) Hv). specialize (H _ Hv). simpl in H.
      by rewrite (proj2 (assoc_get_NoDup k x m N1) Hx) in H.
    + intros [k v] Hv. specialize (H _ Hv). simpl in *. by destruct (assoc_get k m).
Qed.
