(* ===== verification/ReflectDynamic.v ===== *)
(** * Reflecting on dynamic values

    The value of an [interface{}] field, or what a conversion to unstructured
    returns, is a dynamic value: reflection shows it unchanged, but for the Go
    types of its numbers.  Integers become [int64], floats [float64]. *)
From S2P Require Import Prelude GoLib GoFloat Value ValueOrder Schema TypedHelpers GoReflect JsonTag ReflectCache.
From S2P Require Import ReflectCacheSpec ValueReflect ReflectSpec.

(** The unsigned kinds that reflection reads with [Uint]. *)
Definition unsigned (k : IntKind) : bool := match k with KUint | KUint32 | KUint16 | KUint8 => true | _ => false end.

Fixpoint shown (v : value) : value :=
  match v with
  | VInt k i => VInt KInt64 (if unsigned k then to_int64 i else i)
  | VFloat32 f => VFloat64 f
  | VList l => VList (map shown l)
  | VMap m => VMap (map (fun kv => (kv.1, shown kv.2)) m)
  | v => v
  end.

(** No uint64, which reflection refuses, and maps whose keys are distinct. *)
Fixpoint reflectable (v : value) : bool :=
  match v with
  | VInt KUint64 _ => false
  | VList l => forallb reflectable l
  | VMap m => bool_decide (NoDup (assoc_keys m)) && forallb (fun kv => reflectable kv.2) m
  | _ => true
  end.

(** The types that dynamic values have. *)
Definition builtin (t : GoType) : bool :=
  match t with
  | TBool | TInt _ | TFloat32 | TFloat64 | TString | TInterface | TSlice TInterface | TMap TString TInterface => true
  | _ => false
  end.

Section Dynamic.
Context {Pg : GoProgram} {J : GoJson}.
Hypothesis shallow : forall t, Type_Kind t = KdStruct -> inlineWithin 2 t = true.
(** Types that are not declared have no methods. *)
Hypothesis no_methods : forall t, builtin t = true -> converts t = false.

Abbreviation forms n := (fun r u => Unstructured n r = Ret u).

Lemma presents_plain (R : valueReflect -> value -> Prop) v d k u :
  converts (rv_type v) = false -> dereference v = Ret d -> kind d = Ret k ->
  (forall parent, R (mkValueReflect parent d k) u) -> presents R v u.
Proof.
  intros Hc Ed Ek HR c parent Hown. rewrite (mustReuse_presented shallow) by done. unfold presented. rewrite Hc. cbn.
  rewrite Ed. cbn. rewrite Ek. cbn. eexists. split; [done|apply HR].
Qed.

Lemma map_fst_zip {A B} (f : A -> B) (m : list (string * A)) : zip (m.*1) (f <$> m.*2) = (fun kv => (kv.1, f kv.2)) <$> m.
Proof. induction m as [|[k x] m IH]; [done|]. cbn. by rewrite IH. Qed.

Lemma dynamic_body n v b :
  (height v < S n)%nat -> reflectable v = true -> v <> VNull ->
  (forall c a, (height c < n)%nat -> reflectable c = true -> presents (forms n) (mkRV TInterface (toIface (goVal c)) a) (shown c)) ->
  exists k, kind (mkRV (goVal v).1 (goVal v).2 b) = Ret k /\
    forall parent, Unstructured (S n) (mkValueReflect parent (mkRV (goVal v).1 (goVal v).2 b) k) = Ret (shown v).
Proof.
  intros Hh Hr Hn IH. assert (HR : forall r u, forms n r u -> Unstructured n r = Ret u) by done.
  destruct v as [|x|k i|f|f|s|l|m]; try done; try (eexists; split; [done|]; intros parent; reflexivity).
  - destruct k; try done; (eexists; split; [done|]; intros parent; reflexivity).
  - exists listType. split; [done|]. intros parent.
    apply (list_agrees (forms n) (Unstructured n) HR parent (mkRV (goVal (VList l)).1 (goVal (VList l)).2 b)
      (map (fun x => toIface (goVal x)) l) (map shown l)); [done..|].
    cbn [goVal fst snd rv_type Type_Elem]. apply Forall2_fmap, Forall_Forall2_diag, Forall_forall. intros x Hx.
    cbn [reflectable] in Hr. rewrite forallb_Forall, Forall_forall in Hr. apply IH; [|by apply Hr].
    pose proof (height_child x (VList l) Hx). lia.
  - exists mapType. split; [done|]. intros parent. cbn [reflectable] in Hr. apply andb_true_iff in Hr as [N%bool_decide_eq_true Hr].
    set (gm := map (fun kv : string * value => (kv.1, toIface (goVal kv.2))) m).
    assert (Ek : gm.*1 = m.*1) by (unfold gm; rewrite <-list_fmap_compose; by apply list_fmap_ext).
    destruct (map_agrees (forms n) (Unstructured n) HR parent (mkRV (goVal (VMap m)).1 (goVal (VMap m)).2 b)
      gm (shown <$> m.*2)) as [E _]; [done|done| | |].
    + unfold assoc_keys. by rewrite Ek.
    + cbn [goVal fst snd rv_type Type_Elem]. unfold gm. rewrite <-list_fmap_compose. apply Forall2_fmap, Forall_Forall2_diag, Forall_forall. intros [k x] Hx.
      rewrite forallb_Forall, Forall_forall in Hr. apply IH; [|by apply (Hr (k, x))].
      pose proof (height_child x (VMap m)) as Hc. cbn [fst snd]. ospecialize (Hc _); [by apply list_elem_of_fmap_2' with (k, x)|]. lia.
    + cbn [Unstructured shown]. rewrite E. by rewrite Ek, map_fst_zip.
Qed.

(** Reflection shows a dynamic value, whether reached through an interface or directly. *)
Lemma dynamic_shown n v :
  (height v < n)%nat -> reflectable v = true ->
  (forall a, presents (forms n) (mkRV TInterface (toIface (goVal v)) a) (shown v)) /\
  (forall a, presents (forms n) (mkRV (goVal v).1 (goVal v).2 a) (shown v)).
Proof.
  revert v. induction n as [|n IH]; intros v Hh Hr; [lia|].
  assert (v = VNull \/ v <> VNull) as [-> |Hn] by (destruct v; auto).
  { split; intros; by eapply (presents_plain _ _ _ nullType); [apply no_methods|done|done|done..]. }
  assert (Hbody : forall a, exists k, kind (mkRV (goVal v).1 (goVal v).2 a) = Ret k /\
    forall parent, Unstructured (S n) (mkValueReflect parent (mkRV (goVal v).1 (goVal v).2 a) k) = Ret (shown v)).
  { intros a. apply dynamic_body; try done. intros c a' Hc Hrc. by apply IH. }
  assert (Hb : builtin (goVal v).1 = true) by (by destruct v).
  split; intros a.
  - destruct (Hbody false) as (k & Ek & Hu). replace (toIface (goVal v)) with (GIface (goVal v).1 (goVal v).2) by (by destruct v).
    by eapply (presents_plain _ _ (mkRV (goVal v).1 (goVal v).2 false) k); [apply no_methods|done|..].
  - destruct (Hbody a) as (k & Ek & Hu).
    by eapply (presents_plain _ _ (mkRV (goVal v).1 (goVal v).2 a) k); [apply no_methods|by apply dereference_goVal|..].
Qed.
End Dynamic.
