(* ===== verification/ReflectWrite.v ===== *)
(** * Writing to reflected values

    Setting a field of a struct that can be written in place changes that field
    and no other, whether the field is the struct's own or inlined: the paths of
    two fields are never prefixes of each other.  Setting and deleting entries of
    a map are the operations on maps. *)
From S2P Require Import Prelude GoLib GoFloat Value ValueOrder Schema TypedHelpers GoReflect JsonTag ReflectCache.
From S2P Require Import ReflectCacheSpec ValueReflect ReflectSpec ReflectDynamic.

(** ** The paths of a layout *)

Definition incomparable (p q : list nat) : Prop := ~ p `prefix_of` q /\ ~ q `prefix_of` p.

Lemma incomparable_sym p q : incomparable p q -> incomparable q p.
Proof. by intros []. Qed.

(** Paths that go on from [path] with different indices. *)
Lemma incomparable_branch path i j ext ext' : i <> j -> incomparable (path ++ i :: ext) (path ++ j :: ext').
Proof.
  intros Hij. split; intros H; apply prefix_app_inv in H; by apply prefix_cons_inv_1 in H.
Qed.

Section Paths.
Context {Pg : GoProgram}.

(** The paths of different fields are incomparable. *)
Definition separate (l : list (string * FieldInfo)) : Prop :=
  forall k1 k2 f1 f2, k1 <> k2 -> assoc_get k1 l = Some f1 -> assoc_get k2 l = Some f2 -> incomparable (fi_path f1) (fi_path f2).

(** No field of the layout lies below [path] at index [i] or later. *)
Definition clear_of (l : list (string * FieldInfo)) (path : list nat) (i : nat) : Prop :=
  forall k f j ext, assoc_get k l = Some f -> (i <= j)%nat -> incomparable (fi_path f) (path ++ j :: ext).

(** The fields that a step adds lie below [path], at index [i] or later. *)
Definition adds (l l' : list (string * FieldInfo)) (path : list nat) (i : nat) : Prop :=
  forall k f, assoc_get k l' = Some f -> assoc_get k l = Some f \/ exists j ext, (i <= j)%nat /\ fi_path f = path ++ j :: ext.

Definition places (rec : GoType -> list nat -> list (string * FieldInfo) -> list (string * FieldInfo)) : Prop :=
  forall t path acc, separate acc -> clear_of acc path 0 -> separate (rec t path acc) /\ adds acc (rec t path acc) path 0.

Lemma clear_after l l' path i :
  clear_of l path i ->
  (forall k f, assoc_get k l' = Some f -> assoc_get k l = Some f \/ exists ext, fi_path f = path ++ i :: ext) ->
  clear_of l' path (S i).
Proof.
  intros Hc Hl k f j ext Hf Hj. destruct (Hl k f Hf) as [Hf'|[e ->]]; [eapply Hc; [done|lia]|].
  apply incomparable_branch. lia.
Qed.

Lemma layoutFields_places rec fields i path acc :
  places rec -> separate acc -> clear_of acc path i ->
  separate (layoutFields rec fields i path acc) /\ adds acc (layoutFields rec fields i path acc) path i.
Proof.
  intros Hrec. revert i acc. induction fields as [|fd fields IH]; intros i acc Hs Hc; cbn [layoutFields].
  { split; [done|]. intros k f Hf. by left. }
  assert (Hnext : forall acc', separate acc' ->
    (forall k f, assoc_get k acc' = Some f -> assoc_get k acc = Some f \/ exists ext, fi_path f = path ++ i :: ext) ->
    separate (layoutFields rec fields (S i) path acc') /\ adds acc (layoutFields rec fields (S i) path acc') path i).
  { intros acc' Hs' Ha. destruct (IH (S i) acc' Hs') as [H1 H2]; [by eapply clear_after|]. split; [done|].
    intros k f Hf. destruct (H2 k f Hf) as [Hf'|(j & ext & Hj & E)]; [|right; exists j, ext; split; [lia|done]].
    destruct (Ha k f Hf') as [|[ext E]]; [by left|]. right. by exists i, ext. }
  destruct (lookupJsonTags fd) as [[[name omit] isInline] om]. apply Hnext; destruct omit; auto; destruct isInline.
  - destruct (inlinedType (f_Type fd)) as [e|]; [|done]. apply Hrec; [done|].
    intros k f j ext Hf _. rewrite <-app_assoc. by eapply Hc.
  - intros k1 k2 f1 f2 Hk. rewrite !assoc_get_set. destruct (string_eqb name k1) eqn:E1, (string_eqb name k2) eqn:E2.
    + apply string_eqb_true in E1, E2. congruence.
    + intros [= <-] H2. apply incomparable_sym. by eapply Hc.
    + intros H1 [= <-]. by eapply Hc.
    + by apply Hs.
  - destruct (inlinedType (f_Type fd)) as [e|]; [|by left]. intros k f Hf.
    destruct (Hrec e (path ++ [i]) acc) as [_ Ha]; [done| |].
    { intros k' f' j ext Hf' _. rewrite <-app_assoc. by eapply Hc. }
    destruct (Ha k f Hf) as [|(j & ext & _ & E)]; [by left|]. right. exists (j :: ext). by rewrite E, <-app_assoc.
  - intros k f. rewrite assoc_get_set. destruct (string_eqb name k); [|by left]. intros [= <-]. right. by exists [].
Qed.

Lemma layout_places k : places (layout k).
Proof.
  induction k as [|k IH]; intros t path acc Hs Hc; cbn [layout]; apply layoutFields_places; auto.
  intros t' path' acc' Hs' _. split; [done|]. intros k f Hf. by left.
Qed.

Lemma layoutOf_separate t : separate (layoutOf t).
Proof.
  unfold layoutOf. destruct (Type_Kind t); try done. apply layout_places; by intros k.
Qed.
End Paths.

(** ** Writing in place *)
Section Write.
Context {Pg : GoProgram} {J : GoJson}.

(** [v] with the value [x] in place of its own. *)
Definition with_val (v : RValue) (x : GoVal) : RValue := mkRV (rv_type v) x (rv_addr v).

Lemma dereference_struct v d l :
  dereference v = Ret d -> rv_val d = GStruct l ->
  forall l', dereference (with_val v (match rv_val v with GPtr _ => GPtr (GStruct l') | GIface t _ => GIface t (GStruct l') | _ => GStruct l' end)) =
    Ret (with_val d (GStruct l')).
Proof.
  unfold dereference, safeIsNil, Elem, with_val, Kind. destruct v as [t x a]. cbn [rv_type rv_val rv_addr].
  intros Ed El l'. destruct (Type_Kind t), x; simplify_eq/=; done.
Qed.

Lemma Field_struct d i f :
  Field_ d i = Ret f -> exists l x, rv_val d = GStruct l /\ l !! i = Some x /\ (i < length l)%nat /\ f = mkRV (rv_type f) x (rv_addr d).
Proof.
  unfold Field_. destruct (rv_val d) as [| | | | | | | | |l|]; try done. destruct (_ !! i) as [fd|]; [|done].
  destruct (l !! i) as [x|] eqn:Ex; [|done]. intros [= <-]. exists l, x. split_and!; try done. by eapply lookup_lt_Some.
Qed.

Lemma Field_insert d i f l y :
  Field_ d i = Ret f -> rv_val d = GStruct l -> Field_ (with_val d (GStruct (<[i := y]> l))) i = Ret (with_val f y).
Proof.
  intros Ef El. destruct (Field_struct d i f Ef) as (l' & x & El' & Ex & Hi & _). rewrite El in El'. injection El' as <-.
  unfold Field_ in *. rewrite El in Ef. cbn [rv_val with_val rv_type]. destruct (Type_Fields (rv_type d) !! i); [|done].
  rewrite Ex in Ef. rewrite list_lookup_insert_eq by done. by injection Ef as <-.
Qed.

Lemma Field_insert_ne d i j l y : i <> j -> rv_val d = GStruct l -> Field_ (with_val d (GStruct (<[i := y]> l))) j = Field_ d j.
Proof. intros Hij El. unfold Field_. rewrite El. cbn [rv_val with_val rv_type]. by rewrite list_lookup_insert_ne. Qed.

(** A successful write: where it goes, what is read there afterwards, and that the rest stays. *)
Lemma setAt_inv i path v new x :
  setAt (i :: path) v new = Ret x ->
  exists d f l y, dereference v = Ret d /\ Field_ d i = Ret f /\ rv_val d = GStruct l /\ setAt path f new = Ret y /\
    dereference (with_val v x) = Ret (with_val d (GStruct (<[i := y]> l))).
Proof.
  cbn [setAt]. destruct (dereference v) as [|d] eqn:Ed; [done|]. cbn. destruct (Field_ d i) as [|f] eqn:Ef; [done|]. cbn.
  destruct (setAt path f new) as [|y] eqn:Es; [done|]. cbn.
  destruct (Field_struct d i f Ef) as (l & x' & El & _). rewrite El. intros [= <-]. exists d, f, l, y. split_and!; try done.
  by apply (dereference_struct v d l Ed El).
Qed.

Lemma setAt_getFrom path v new x :
  setAt path v new = Ret x ->
  exists old w, getFrom path v = Ret old /\ assign (rv_type old) new = Ret w /\ rv_addr old = true /\
    getFrom path (with_val v x) = Ret (with_val old w).
Proof.
  revert v x. induction path as [|i path IH]; intros v x Hs.
  - cbn in Hs. destruct (rv_addr v) eqn:Ea; [|done]. by exists v, x.
  - destruct (setAt_inv i path v new x Hs) as (d & f & l & y & Ed & Ef & El & Es & Ed'). cbn [getFrom]. rewrite Ed, Ed'. cbn [mbind Outcome_bind].
    rewrite Ef, (Field_insert d i f l y Ef El). cbn [mbind Outcome_bind]. by apply IH.
Qed.

Lemma setAt_frame path q v new x :
  setAt path v new = Ret x -> incomparable path q -> getFrom q (with_val v x) = getFrom q v.
Proof.
  revert q v x. induction path as [|i path IH]; intros q v x Hs Hi; [destruct Hi as [H _]; destruct H; apply prefix_nil|].
  destruct q as [|j q]; [destruct Hi as [_ H]; destruct H; apply prefix_nil|].
  destruct (setAt_inv i path v new x Hs) as (d & f & l & y & Ed & Ef & El & Es & Ed'). cbn [getFrom]. rewrite Ed, Ed'. cbn [mbind Outcome_bind].
  destruct (decide (i = j)) as [<- |Hij].
  - rewrite (Field_insert d i f l y Ef El), Ef. cbn [mbind Outcome_bind]. apply IH; [done|]. destruct Hi as [H1 H2].
    split; intros H; [apply H1|apply H2]; by apply prefix_cons.
  - by rewrite Field_insert_ne.
Qed.

(** A write succeeds where the field can be read, is addressable, and the value assignable. *)
Lemma setAt_succeeds path v old new w :
  getFrom path v = Ret old -> rv_addr old = true -> assign (rv_type old) new = Ret w -> exists x, setAt path v new = Ret x.
Proof.
  revert v. induction path as [|i path IH]; intros v; cbn [getFrom setAt].
  - intros [= <-] -> Hw. eauto.
  - destruct (dereference v) as [|d]; [done|]. cbn [mbind Outcome_bind]. destruct (Field_ d i) as [|f] eqn:Ef; [done|]. cbn [mbind Outcome_bind]. intros Hg Ha Hw.
    destruct (IH f Hg Ha Hw) as [y ->]. cbn [mbind Outcome_bind]. destruct (Field_struct d i f Ef) as (l & _ & -> & _). eauto.
Qed.

(** ** Set and Get *)
Hypothesis shallow : forall t, Type_Kind t = KdStruct -> inlineWithin 2 t = true.

(** The struct after a write in place. *)
Definition written (r : valueReflect) (x : GoVal) : valueReflect :=
  mkValueReflect (ParentMap r) (with_val (vr_Value r) x) (vr_kind r).

(** [struct_update] in place: one field changes. *)
Lemma struct_update_in_place r key f oldVal new x :
  assoc_get key (layoutOf (rv_type (vr_Value r))) = Some f -> GetFrom f (vr_Value r) = Ret oldVal ->
  struct_update r f oldVal (Some new) = Ret (InPlace x) ->
  (exists w, assign (rv_type oldVal) new = Ret w /\ GetFrom f (vr_Value (written r x)) = Ret (with_val oldVal w)) /\
  forall key', key' <> key -> findJsonNameField (written r x) key' = findJsonNameField r key'.
Proof.
  intros Ef Eo Hu. unfold struct_update in Hu. destruct (rv_addr oldVal) eqn:Ea.
  2: { destruct (ParentMap r) as [[p k]|]; [|done]. destruct (setAt _ _ _) in Hu; done. }
  destruct (setAt (fi_path f) (vr_Value r) new) as [|y] eqn:Es; [done|]. cbn in Hu. injection Hu as ->. split.
  - destruct (setAt_getFrom _ _ _ _ Es) as (old & w & Eg & Ew & _ & Eg'). unfold GetFrom in *. rewrite Eo in Eg. injection Eg as <-. eauto.
  - intros key' Hk. unfold findJsonNameField. cbn [written vr_Value with_val rv_type]. rewrite !(findField_layout shallow). cbn [mbind Outcome_bind].
    destruct (assoc_get key' _) as [g|] eqn:Eg; [|done]. unfold GetFrom.
    rewrite (setAt_frame _ _ _ _ _ Es); [done|]. eapply layoutOf_separate; [|exact Ef|exact Eg]. done.
Qed.

(** Writing in place succeeds for an existing, addressable field and an assignable value. *)
Lemma struct_Set_succeeds r key f oldVal u new w :
  assoc_get key (layoutOf (rv_type (vr_Value r))) = Some f -> GetFrom f (vr_Value r) = Ret oldVal -> rv_addr oldVal = true ->
  newVal u = Some new -> assign (rv_type oldVal) new = Ret w ->
  exists x, struct_Set r key u = Ret (InPlace x).
Proof.
  intros Ef Eo Ea En Ew. unfold struct_Set. rewrite (findField_layout shallow), Ef. cbn [mbind Outcome_bind]. rewrite Eo, En. unfold struct_update. cbn [mbind Outcome_bind]. rewrite Ea.
  destruct (setAt_succeeds _ _ _ _ _ Eo Ea Ew) as [x ->]. by exists x.
Qed.

Lemma struct_Set_in_place r key u x :
  struct_Set r key u = Ret (InPlace x) ->
  exists f oldVal new w, assoc_get key (layoutOf (rv_type (vr_Value r))) = Some f /\ newVal u = Some new /\
    assign (rv_type oldVal) new = Ret w /\ GetFrom f (vr_Value (written r x)) = Ret (with_val oldVal w) /\
    forall key', key' <> key -> findJsonNameField (written r x) key' = findJsonNameField r key'.
Proof.
  unfold struct_Set. rewrite (findField_layout shallow). cbn [mbind Outcome_bind]. destruct (assoc_get key _) as [f|] eqn:Ef; [|done].
  destruct (GetFrom f (vr_Value r)) as [|oldVal] eqn:Eo; [done|]. cbn [mbind Outcome_bind]. destruct (newVal u) as [new|]; [|done]. intros Hu.
  destruct (struct_update_in_place r key f oldVal new x Ef Eo Hu) as [(w & Ew & Eg) Hrest].
  exists f, oldVal, new, w. done.
Qed.

(** Types that are not declared have no methods. *)
Hypothesis no_methods : forall t, builtin t = true -> converts t = false.

(** A value fits a field: the type is its own and the field is always shown, or it is [interface{}]. *)
Definition fits (f : FieldInfo) (u : value) : bool :=
  (bool_decide (fi_type f = (goVal u).1) && negb (fi_omitEmpty f)) || bool_decide (fi_type f = TInterface).

Lemma fits_assign f u old :
  fits f u = true -> u <> VNull -> rv_type old = fi_type f ->
  exists w, assign (rv_type old) (goVal u) = Ret w /\ CanOmit f (with_val old w) = Ret false /\
    forall n, (height u < n)%nat -> reflectable u = true ->
      presents (fun r u => Unstructured n r = Ret u) (with_val old w) (shown u).
Proof.
  intros Hf Hn Et. unfold fits in Hf. apply orb_true_iff in Hf as [Hf|Hf%bool_decide_eq_true].
  - apply andb_true_iff in Hf as [Ef%bool_decide_eq_true Ho%negb_true_iff]. exists (goVal u).2. unfold assign. rewrite Et, Ef.
    rewrite decide_True by done. split_and!; [done|by unfold CanOmit; rewrite Ho|]. intros n Hh Hr.
    unfold with_val. rewrite Et, Ef. by apply (dynamic_shown shallow no_methods n u Hh Hr).
  - exists (toIface (goVal u)). unfold assign. rewrite Et, Hf.
    assert (Hi : exists t x, toIface (goVal u) = GIface t x) by (destruct u; try done; eauto).
    split_and!; [by destruct u| |].
    + unfold CanOmit. destruct (fi_omitEmpty f); [|done]. unfold safeIsNil, isZero, with_val, Kind. cbn [rv_type rv_val]. rewrite Et, Hf.
      destruct Hi as (t & x & ->). done.
    + intros n Hh Hr. unfold with_val. rewrite Et, Hf. by apply (dynamic_shown shallow no_methods n u Hh Hr).
Qed.

(** Set writes what Get then shows, and leaves the other keys. *)
Lemma struct_Set_Get r key f old u :
  assoc_get key (layoutOf (rv_type (vr_Value r))) = Some f -> GetFrom f (vr_Value r) = Ret old -> rv_addr old = true ->
  rv_type old = fi_type f -> fits f u = true -> u <> VNull -> reflectable u = true ->
  exists x r', struct_Set r key u = Ret (InPlace x) /\
    struct_Get (written r x) key = Ret (Some r') /\ Unstructured (S (height u)) r' = Ret (shown u) /\
    forall key', key' <> key -> struct_Get (written r x) key' = struct_Get r key'.
Proof.
  intros Ef Eg Ea Et Hfit Hn Hr. destruct (fits_assign f u old Hfit Hn Et) as (w & Ew & Eo & Hp).
  assert (En : newVal u = Some (goVal u)) by (by destruct u).
  destruct (struct_Set_succeeds r key f old u (goVal u) w Ef Eg Ea En Ew) as [x Ex]. exists x.
  pose proof Ex as Hu. unfold struct_Set in Hu. rewrite (findField_layout shallow), Ef in Hu. cbn [mbind Outcome_bind] in Hu.
  rewrite Eg, En in Hu. cbn [mbind Outcome_bind] in Hu.
  destruct (struct_update_in_place r key f old (goVal u) x Ef Eg Hu) as [(w' & Ew' & Eg') Hrest]. rewrite Ew in Ew'. injection Ew' as <-.
  destruct (Hp (S (height u)) ltac:(lia) Hr None None) as (r' & Er & Hr'); [by left|]. exists r'. split_and!; [done| |done|].
  - unfold struct_Get, findJsonNameField. change (rv_type (vr_Value (written r x))) with (rv_type (vr_Value r)).
    rewrite (findField_layout shallow), Ef. cbn [mbind Outcome_bind]. rewrite Eg'. cbn [mbind Outcome_bind]. rewrite Eo.
    cbn [mbind Outcome_bind]. by rewrite Er.
  - intros key' Hk. unfold struct_Get. by rewrite (Hrest key' Hk).
Qed.
End Write.
