(* ===== verification/ConvertSpec.v ===== *)
(** * The limit on nesting of converted JSON

    A value with a [MarshalJSON] method is presented as the JSON it writes.  The
    numbers of that JSON are converted by a recursion whose depth is limited:
    exactly the documents with more than [maxDepth + 1] nested levels are refused. *)
From S2P Require Import Prelude GoLib GoFloat Value ValueOrder Schema TypedHelpers GoReflect JsonTag ReflectCache ValueReflect.

Section JtreeInd.
Context (P : jtree -> Prop).
Hypothesis (Hnull : P JNull) (Hbool : forall b, P (JBool b)) (Hnum : forall n, P (JNumber n)) (Hstr : forall s, P (JString s))
  (Harr : forall l, Forall P l -> P (JArray l)) (Hobj : forall m : list (string * jtree), Forall (fun kv => P kv.2) m -> P (JObject m)).

Fixpoint jtree_rect_nested (v : jtree) : P v :=
  match v with
  | JNull => Hnull
  | JBool b => Hbool b
  | JNumber n => Hnum n
  | JString s => Hstr s
  | JArray l => Harr l
      ((fix go l := match l return Forall P l with
        | [] => List.Forall_nil _
        | x :: l' => List.Forall_cons _ _ _ (jtree_rect_nested x) (go l')
        end) l)
  | JObject m => Hobj m
      ((fix go (m : list (string * jtree)) := match m return Forall (fun kv => P kv.2) m with
        | [] => List.Forall_nil _
        | kv :: m' => List.Forall_cons _ _ _ (jtree_rect_nested kv.2) (go m')
        end) m)
  end.
End JtreeInd.

(** The nested levels of arrays and objects. *)
Fixpoint levels (v : jtree) : Z :=
  match v with
  | JArray l => 1 + foldr (fun x n => Z.max (levels x) n) 0 l
  | JObject m => 1 + foldr (fun kv n => Z.max (levels kv.2) n) 0 m
  | _ => 0
  end.

Section Depth.
Context {Pg : GoProgram} {J : GoJson}.

(** Every number fits an int64 or a float64. *)
Fixpoint numbers_ok (v : jtree) : bool :=
  match v with
  | JNumber n => match convertNumber n with inl _ => false | inr _ => true end
  | JArray l => forallb numbers_ok l
  | JObject m => forallb (fun kv => numbers_ok kv.2) m
  | _ => true
  end.

(** The value, number conversion aside. *)
Fixpoint decoded (v : jtree) : value :=
  match v with
  | JNull => VNull
  | JBool b => VBool b
  | JString s => VString s
  | JNumber n => match convertNumber n with inl _ => VNull | inr u => u end
  | JArray l => VList (map decoded l)
  | JObject m => VMap (map (fun kv => (kv.1, decoded kv.2)) m)
  end.

Lemma levels_nonneg v : 0 <= levels v.
Proof.
  induction v as [| | | |l IH|m IH] using jtree_rect_nested; simpl; try lia;
    induction IH as [|x l Hx F IH']; simpl; lia.
Qed.

(** Decide the comparisons with the limit. *)
#[local] Ltac within_limit :=
  repeat match goal with
  | |- context [?a <=? ?b] => destruct (Z.leb_spec a b)
  | |- context [?a =? ?b] => destruct (Z.eqb_spec a b)
  end; cbn [orb]; try lia; done.

(** Within the limit the conversion gives the value; beyond it, the error. *)
Lemma convertEntry_levels depth v :
  0 <= depth -> numbers_ok v = true ->
  convertEntry depth v = if (depth + levels v <=? maxDepth + 1) || (levels v =? 0) then inr (decoded v) else inl ErrMaxDepth.
Proof.
  revert depth. induction v as [| | | |l IH|m IH] using jtree_rect_nested; intros depth Hd Hok; cbn [levels];
    try (rewrite orb_true_r; cbn in *; first [done|by destruct (convertNumber _)]).
  - cbn [convertEntry numbers_ok decoded] in *. pose proof (levels_nonneg (JArray l)) as Hn. cbn [levels] in Hn.
    set (mx := foldr (fun x n => Z.max (levels x) n) 0 l) in *.
    assert (Hmx : 0 <= mx) by (unfold mx; clear; induction l; simpl; lia).
    destruct (Z.ltb_spec maxDepth depth); [replace (_ || _) with false by lia; done|].
    match goal with |- match ?go l with _ => _ end = _ =>
      assert (Hgo : go l = if depth + mx <=? maxDepth then inr (map decoded l) else inl ErrMaxDepth) end.
    { unfold mx. clear mx Hmx Hn. rewrite forallb_Forall in Hok. induction IH as [|x l Hx F IH']; cbn [foldr map].
      - by destruct (Z.leb_spec (depth + 0) maxDepth); [|lia].
      - apply Forall_cons in Hok as [Hox Hok]. rewrite Hx, IH' by (done || lia). pose proof (levels_nonneg x).
        within_limit. }
    rewrite Hgo. within_limit.
  - cbn [convertEntry numbers_ok decoded] in *. pose proof (levels_nonneg (JObject m)) as Hn. cbn [levels] in Hn.
    set (mx := foldr (fun kv n => Z.max (levels kv.2) n) 0 m) in *.
    assert (Hmx : 0 <= mx) by (unfold mx; clear; induction m; simpl; lia).
    destruct (Z.ltb_spec maxDepth depth); [replace (_ || _) with false by lia; done|].
    match goal with |- match ?go m with _ => _ end = _ =>
      assert (Hgo : go m = if depth + mx <=? maxDepth then inr (map (fun kv => (kv.1, decoded kv.2)) m) else inl ErrMaxDepth) end.
    { unfold mx. clear mx Hmx Hn. rewrite forallb_Forall in Hok. induction IH as [|[k x] m Hx F IH']; cbn [foldr map].
      - by destruct (Z.leb_spec (depth + 0) maxDepth); [|lia].
      - apply Forall_cons in Hok as [Hox Hok]. cbn [fst snd] in *. rewrite Hx, IH' by (done || lia). pose proof (levels_nonneg x).
        within_limit. }
    rewrite Hgo. within_limit.
Qed.
End Depth.
