(* ===== verification/Validate.v ===== *)
(** * Package typed: validation against a schema

    Models [typed/validate.go].  The walker's recursion descends into the
    children of the value; its fuel is the height of the value, which
    [validate_unfold] shows to be enough.  The pool of spare walkers only
    recycles memory. *)
From S2P Require Import Prelude GoLib GoFloat Value ValueOrder PathElement SortedSlice FieldSet.
From S2P Require Import FieldSetSpec Schema TypedHelpers.
#[local] Set Warnings "-clear-no-such-hyp".

Definition validateScalar (t : Scalar) (v : option value) (prefix : Side) : ValidationErrors :=
  match v with
  | None => []
  | Some v =>
    if IsNull v then []
    else if string_eqb t Numeric then
      if negb (IsFloat v) && negb (IsInt v) then errorf (MsgExpectedNumeric prefix) else []
    else if string_eqb t String_ then
      if negb (IsString v) then errorf (MsgExpectedString prefix) else []
    else if string_eqb t Boolean then
      if negb (IsBool v) then errorf (MsgExpectedBoolean prefix) else []
    else if string_eqb t Untyped then
      if negb (IsFloat v) && negb (IsInt v) && negb (IsString v) && negb (IsBool v)
      then errorf (MsgExpectedScalar prefix) else []
    else errorf (MsgUnexpectedScalarType prefix t)
  end.

Section ValidateBody.
Variables (sc : Schema) (allowDuplicates : bool).
(** The recursive call, on a child and its type reference. *)
Variable validate : TypeRef -> option value -> option PathElement -> Outcome ValidationErrors.

(** The loop of [visitListItems] from index [i] on. *)
Fixpoint validate_visitListItems (t : ListT) (i : nat) (observedKeys : PathElementSet)
    (l : list value) (errs : ValidationErrors) : Outcome ValidationErrors :=
  match l with
  | [] => Ret errs
  | child :: l' =>
    if negb (string_eqb (l_ER t) Associative) then
      e ← validate (l_ElementType t) (Some child) (Some (peIndex (Z.of_nat i)));
      validate_visitListItems t (S i) observedKeys l' (errs ++ e)
    else
      match listItemToPathElement sc t child with
      | inl err => Ret (errs ++ errorf (MsgElement i err))
      | inr pe =>
        let errs :=
          if PathElementSet_Has observedKeys pe && negb allowDuplicates
          then errs ++ errorf (MsgDuplicate pe) else errs in
        let observedKeys := PathElementSet_Insert observedKeys pe in
        e ← validate (l_ElementType t) (Some child) (Some pe);
        validate_visitListItems t (S i) observedKeys l' (errs ++ e)
      end
  end.

Definition validate_doList (v : option value) (t : ListT) : Outcome ValidationErrors :=
  res ← listValue v;
  match res with
  | inl err => Ret (errorf err)
  | inr None => Ret []
  | inr (Some l) => validate_visitListItems t 0 [] l []
  end.

(** The iteration of [visitMapItems], which stops at an undeclared field. *)
Fixpoint validate_visitMapItems (t : MapT) (m : Map) (errs : ValidationErrors) :
    Outcome ValidationErrors :=
  match m with
  | [] => Ret errs
  | (key, val) :: m' =>
    let pe := peField key in
    let descend tr :=
      e ← validate tr (Some val) (Some pe); validate_visitMapItems t m' (errs ++ e) in
    match FindField t key with
    | Some sf => descend (sf_Type sf)
    | None =>
      if TypeRef_isZero (m_ElementType t)
      then Ret (errs ++ WithPrefix pe (errorf MsgNotDeclared))
      else descend (m_ElementType t)
    end
  end.

Definition validate_doMap (v : option value) (t : MapT) : Outcome ValidationErrors :=
  match mapValue v with
  | inl err => Ret (errorf err)
  | inr None => Ret []
  | inr (Some m) => validate_visitMapItems t m []
  end.

Definition validate_handler (v : option value) : atomHandler unit :=
  mkAtomHandler
    (fun t w => Ret (validateScalar t v NoSide, w))
    (fun t w => errs ← validate_doList v t; Ret (errs, w))
    (fun t w => errs ← validate_doMap v t; Ret (errs, w)).

Definition validate_body (tr : TypeRef) (v : option value) (prefixFn : option PathElement) :
    Outcome ValidationErrors :=
  res ← resolveSchema sc tr v (validate_handler v) tt;
  Ret (WithLazyPrefix prefixFn res.1).
End ValidateBody.

Definition oheight (v : option value) : nat := match v with Some v => S (height v) | None => 0%nat end.

Fixpoint validate_fuel (n : nat) (sc : Schema) (allowDuplicates : bool) :
    TypeRef -> option value -> option PathElement -> Outcome ValidationErrors :=
  match n with
  | O => fun _ _ _ => Panic
  | S n => validate_body sc allowDuplicates (validate_fuel n sc allowDuplicates)
  end.

Definition validate (sc : Schema) (allowDuplicates : bool) (tr : TypeRef) (v : option value)
    (prefixFn : option PathElement) : Outcome ValidationErrors :=
  validate_fuel (S (oheight v)) sc allowDuplicates tr v prefixFn.

(** ** The fuel is enough *)

Lemma validate_visitMapItems_ext rec1 rec2 t (m : Map) errs :
  (forall tr kv p, kv ∈ m -> rec1 tr (Some kv.2) p = rec2 tr (Some kv.2) p) ->
  validate_visitMapItems rec1 t m errs = validate_visitMapItems rec2 t m errs.
Proof.
  revert errs. induction m as [|[k x] m IH]; intros errs H; [done|]. simpl.
  assert (IH' : forall errs, validate_visitMapItems rec1 t m errs = validate_visitMapItems rec2 t m errs).
  { intros. apply IH. intros. apply H. by right. }
  destruct (FindField t k); [|destruct (TypeRef_isZero _); [done|]];
    rewrite (H _ (k, x)) by left; simpl; (destruct (rec2 _ _ _); [done|apply IH']).
Qed.

Lemma validate_visitListItems_ext sc dup rec1 rec2 t l i obs errs :
  (forall tr c p, c ∈ l -> rec1 tr (Some c) p = rec2 tr (Some c) p) ->
  validate_visitListItems sc dup rec1 t i obs l errs = validate_visitListItems sc dup rec2 t i obs l errs.
Proof.
  revert i obs errs. induction l as [|c l IH]; intros i obs errs H; [done|]. simpl.
  assert (IH' : forall i obs errs, validate_visitListItems sc dup rec1 t i obs l errs =
    validate_visitListItems sc dup rec2 t i obs l errs).
  { intros. apply IH. intros. apply H. by right. }
  destruct (negb _); [|destruct (listItemToPathElement sc t c); [done|]];
    rewrite H by left; simpl; (destruct (rec2 _ _ _); [done|apply IH']).
Qed.

(** The body only uses the recursive call on the children of the value. *)
Lemma validate_body_ext sc dup rec1 rec2 tr v p :
  (forall tr' c p' w, v = Some w -> c ∈ children w ->
    rec1 tr' (Some c) p' = rec2 tr' (Some c) p') ->
  validate_body sc dup rec1 tr v p = validate_body sc dup rec2 tr v p.
Proof.
  intros H. unfold validate_body, resolveSchema, handleAtom.
  destruct (Resolve sc tr) as [a|]; [|done].
  destruct (a_Map (deduceAtom a v)) as [t|].
  - simpl. unfold validate_doMap. destruct v as [v|]; [|done]. destruct v as [| | | | | | |m]; try done.
    simpl. rewrite (validate_visitMapItems_ext rec1 rec2); [done|].
    intros tr' kv p' Hkv. eapply H; [done|]. by apply list_elem_of_fmap_2.
  - destruct (a_Scalar (deduceAtom a v)); [done|].
    destruct (a_List (deduceAtom a v)) as [t|]; [|done].
    simpl. unfold validate_doList. destruct v as [v|]; [|done]. destruct v as [| | | | | |l|]; try done.
    simpl. rewrite (validate_visitListItems_ext sc dup rec1 rec2); [done|]. eauto.
Qed.

Lemma validate_fuel_enough sc dup n n' tr v p :
  (oheight v < n)%nat -> (oheight v < n')%nat ->
  validate_fuel n sc dup tr v p = validate_fuel n' sc dup tr v p.
Proof.
  revert n' tr v p. induction n as [|n IH]; intros [|n'] tr v p Hn Hn'; try lia.
  cbn [validate_fuel]. apply validate_body_ext. intros tr' c p' w -> Hc%height_child.
  cbn [oheight] in *. apply IH; simpl; lia.
Qed.

(** [validate] satisfies the recursive equation of the code. *)
Lemma validate_unfold sc dup tr v p :
  validate sc dup tr v p = validate_body sc dup (validate sc dup) tr v p.
Proof.
  unfold validate at 1. cbn [validate_fuel]. apply validate_body_ext.
  intros tr' c p' w -> Hc%height_child. apply validate_fuel_enough; simpl; lia.
Qed.

(** ** What validation accepts *)

Inductive Kind := KScalar (t : Scalar) | KList (t : ListT) | KMap (t : MapT).

(** The alternative of the atom that handles the value. *)
Definition kind_of (a : Atom) (v : value) : option Kind :=
  let a := deduceAtom a (Some v) in
  match a_Map a, a_Scalar a, a_List a with
  | Some m, _, _ => Some (KMap m)
  | None, Some s, _ => Some (KScalar s)
  | None, None, Some l => Some (KList l)
  | None, None, None => None
  end.

Definition scalar_ok (t : Scalar) (v : value) : Prop :=
  v = VNull \/
  t = Numeric /\ (IsFloat v = true \/ IsInt v = true) \/
  t = String_ /\ IsString v = true \/
  t = Boolean /\ IsBool v = true \/
  t = Untyped /\ (IsFloat v = true \/ IsInt v = true \/ IsString v = true \/ IsBool v = true).

(** The type of a field of a map: declared, or the element type. *)
Definition fieldType (t : MapT) (key : string) : option TypeRef :=
  match FindField t key with
  | Some sf => Some (sf_Type sf)
  | None => if TypeRef_isZero (m_ElementType t) then None else Some (m_ElementType t)
  end.

(** No path element of the sequence was seen before. *)
Fixpoint fresh_keys (seen : PathElementSet) (pes : list PathElement) : Prop :=
  match pes with
  | [] => True
  | pe :: pes' => PathElementSet_Has seen pe = false /\ fresh_keys (PathElementSet_Insert seen pe) pes'
  end.

Section Conforms.
Variables (sc : Schema) (dup : bool).

(** Every item has a path element, and no two the same one unless allowed. *)
Definition keys_ok (t : ListT) (seen : PathElementSet) (l : list value) : Prop :=
  l_ER t = Associative ->
  exists pes, Forall2 (fun c pe => listItemToPathElement sc t c = inr pe) l pes /\
    (dup = false -> fresh_keys seen pes).

(** The value is one of the type. *)
#[warnings="-register-all"]
Inductive conforms : TypeRef -> value -> Prop :=
| conforms_scalar tr v a t :
  Resolve sc tr = Some a -> kind_of a v = Some (KScalar t) -> scalar_ok t v -> conforms tr v
| conforms_null_list tr a t :
  Resolve sc tr = Some a -> kind_of a VNull = Some (KList t) -> conforms tr VNull
| conforms_null_map tr a t :
  Resolve sc tr = Some a -> kind_of a VNull = Some (KMap t) -> conforms tr VNull
| conforms_list tr a t l :
  Resolve sc tr = Some a -> kind_of a (VList l) = Some (KList t) ->
  Forall (conforms (l_ElementType t)) l -> keys_ok t [] l -> conforms tr (VList l)
| conforms_map tr a t m :
  Resolve sc tr = Some a -> kind_of a (VMap m) = Some (KMap t) ->
  Forall (fun kv => exists tr', fieldType t kv.1 = Some tr' /\ conforms tr' kv.2) m ->
  conforms tr (VMap m).

(** [validate] answers on [v], with no error exactly if [v] conforms. *)
Definition decides (v : value) : Prop :=
  forall tr p, exists errs, validate sc dup tr (Some v) p = Ret errs /\ (errs = [] <-> conforms tr v).

Lemma validateScalar_ok t v s : validateScalar t (Some v) s = [] <-> scalar_ok t v.
Proof.
  unfold validateScalar, scalar_ok.
  destruct (IsNull v) eqn:En; [destruct v; try done; tauto|].
  assert (Hn : v <> VNull) by (by intros ->).
  destruct (string_eqb t Numeric) eqn:E1; [apply string_eqb_true in E1 as ->|].
  { destruct (IsFloat v), (IsInt v); simpl; naive_solver. }
  destruct (string_eqb t String_) eqn:E2; [apply string_eqb_true in E2 as ->|].
  { destruct (IsString v); simpl; naive_solver. }
  destruct (string_eqb t Boolean) eqn:E3; [apply string_eqb_true in E3 as ->|].
  { destruct (IsBool v); simpl; naive_solver. }
  destruct (string_eqb t Untyped) eqn:E4; [apply string_eqb_true in E4 as ->|].
  { split.
    - intros H. do 4 right. split; [done|].
      destruct (IsFloat v), (IsInt v), (IsString v), (IsBool v); auto; done.
    - intros [?|[[? _]|[[? _]|[[? _]|[_ H]]]]]; try done.
      by destruct H as [-> |[-> |[-> | ->]]]; simpl; rewrite ?andb_false_r. }
  apply string_eqb_false in E1, E2, E3, E4. naive_solver.
Qed.

Lemma validate_visitMapItems_spec t (m : Map) errs0 :
  Forall (fun kv => decides kv.2) m ->
  exists errs, validate_visitMapItems (validate sc dup) t m errs0 = Ret errs /\
    (errs = [] <-> errs0 = [] /\
      Forall (fun kv => exists tr', fieldType t kv.1 = Some tr' /\ conforms tr' kv.2) m).
Proof.
  intros F. revert errs0. induction F as [|[k x] m Hx F IH]; intros errs0; simpl.
  { exists errs0. split; [done|]. split; [by auto|tauto]. }
  assert (Hstep : forall tr', fieldType t k = Some tr' ->
    exists errs, (e ← validate sc dup tr' (Some x) (Some (peField k));
      validate_visitMapItems (validate sc dup) t m (errs0 ++ e)) = Ret errs /\
    (errs = [] <-> errs0 = [] /\ Forall (fun kv => exists tr', fieldType t kv.1 = Some tr' /\
      conforms tr' kv.2) ((k, x) :: m))).
  { intros tr' Et. destruct (Hx tr' (Some (peField k))) as (e & Ee & He). simpl in Ee.
    rewrite Ee. simpl. destruct (IH (errs0 ++ e)) as (errs & -> & Herrs).
    exists errs. split; [done|]. rewrite Herrs, Forall_cons, app_nil, He. simpl. rewrite Et.
    split; [naive_solver|]. intros (-> & (? & [= <-] & ?) & ?). done. }
  unfold fieldType in Hstep at 1. destruct (FindField t k) as [sf|] eqn:Ef; [by apply Hstep|].
  destruct (TypeRef_isZero (m_ElementType t)) eqn:Ez; [|by apply Hstep].
  eexists. split; [done|]. rewrite app_nil, Forall_cons. unfold fieldType at 1. simpl.
  rewrite Ef, Ez. split; [by intros []|]. by intros (_ & (? & ? & _) & _).
Qed.

Lemma validate_visitListItems_spec t l i seen errs0 :
  Forall decides l ->
  exists errs, validate_visitListItems sc dup (validate sc dup) t i seen l errs0 = Ret errs /\
    (errs = [] <-> errs0 = [] /\ Forall (conforms (l_ElementType t)) l /\ keys_ok t seen l).
Proof.
  intros F. revert i seen errs0. induction F as [|c l Hc F IH]; intros i seen errs0; simpl.
  { exists errs0. split; [done|]. split; [|tauto]. intros ->. split_and!; [done|constructor|].
    intros _. exists []. split; [constructor|done]. }
  destruct (string_eqb (l_ER t) Associative) eqn:EA; simpl.
  - apply string_eqb_true in EA. unfold keys_ok in *.
    destruct (listItemToPathElement sc t c) as [err|pe] eqn:Epe.
    { eexists. split; [done|]. rewrite app_nil. split; [by intros []|].
      intros (_ & _ & H). destruct (H EA) as (pes & F2 & _). inversion F2; subst. congruence. }
    destruct (Hc (l_ElementType t) (Some pe)) as (e & -> & He). simpl.
    set (errs1 := if PathElementSet_Has seen pe && negb dup then errs0 ++ errorf (MsgDuplicate pe) else errs0).
    destruct (IH (S i) (PathElementSet_Insert seen pe) (errs1 ++ e)) as (errs & -> & Herrs).
    exists errs. split; [done|]. rewrite Herrs, app_nil, He, Forall_cons.
    assert (H1 : errs1 = [] <-> errs0 = [] /\ (dup = false -> PathElementSet_Has seen pe = false)).
    { unfold errs1. destruct (PathElementSet_Has seen pe), dup; simpl; rewrite ?app_nil;
        unfold errorf; naive_solver. }
    rewrite H1. split.
    + intros [[[-> Hf] Hcf] [Hl Hk]]. split_and!; auto. intros _.
      destruct (Hk EA) as (pes & F2 & Hfr). exists (pe :: pes). split; [by constructor|].
      intros Hd. split; auto.
    + intros (-> & [Hcf Hl] & Hk). destruct (Hk EA) as (pes & F2 & Hfr).
      inversion F2 as [|? pe' ? pes' Epe' F2']; subst. rewrite Epe in Epe'. injection Epe' as <-.
      split_and!; auto; [intros Hd; by destruct (Hfr Hd)|]. intros _. exists pes'.
      split; [done|]. intros Hd. by destruct (Hfr Hd).
  - apply string_eqb_false in EA.
    destruct (Hc (l_ElementType t) (Some (peIndex (Z.of_nat i)))) as (e & -> & He). simpl.
    destruct (IH (S i) seen (errs0 ++ e)) as (errs & -> & Herrs). exists errs. split; [done|].
    rewrite Herrs, app_nil, He, Forall_cons. unfold keys_ok. tauto.
Qed.
End Conforms.

Lemma WithLazyPrefix_nil p errs : WithLazyPrefix p errs = [] <-> errs = [].
Proof. destruct p; simpl; [|done]. by destruct errs. Qed.

(** One step of [validate], by the alternative of the atom that is selected. *)
Lemma validate_kind sc dup tr v p :
  validate sc dup tr (Some v) p =
  match Resolve sc tr with
  | None => Ret (WithLazyPrefix p (errorf (MsgNoType (tr_NamedType tr))))
  | Some a =>
    match kind_of a v with
    | None => Ret (WithLazyPrefix p (errorf (MsgInvalidAtom (tr_NamedType tr))))
    | Some (KScalar t) => Ret (WithLazyPrefix p (validateScalar t (Some v) NoSide))
    | Some (KList t) =>
      errs ← validate_doList sc dup (validate sc dup) (Some v) t; Ret (WithLazyPrefix p errs)
    | Some (KMap t) =>
      errs ← validate_doMap (validate sc dup) (Some v) t; Ret (WithLazyPrefix p errs)
    end
  end.
Proof.
  rewrite validate_unfold. unfold validate_body, resolveSchema, kind_of, handleAtom.
  destruct (Resolve sc tr) as [a|]; [|done].
  destruct (a_Map (deduceAtom a (Some v))).
  { simpl. by destruct (validate_doMap _ _ _). }
  destruct (a_Scalar (deduceAtom a (Some v))); [done|].
  destruct (a_List (deduceAtom a (Some v))); [|done].
  simpl. by destruct (validate_doList _ _ _ _ _).
Qed.

Definition conforms_as (sc : Schema) (dup : bool) (k : option Kind) (v : value) : Prop :=
  match k, v with
  | None, _ => False
  | Some (KScalar t), _ => scalar_ok t v
  | Some _, VNull => True
  | Some (KList t), VList l => Forall (conforms sc dup (l_ElementType t)) l /\ keys_ok sc dup t [] l
  | Some (KMap t), VMap m =>
    Forall (fun kv => exists tr', fieldType t kv.1 = Some tr' /\ conforms sc dup tr' kv.2) m
  | _, _ => False
  end.

Lemma conforms_kind sc dup tr v a :
  Resolve sc tr = Some a -> conforms sc dup tr v <-> conforms_as sc dup (kind_of a v) v.
Proof.
  intros Ea. split.
  - inversion 1; subst; rewrite Ea in *; simplify_eq; repeat case_match; simplify_eq; done || idtac.
    all: match goal with H : kind_of _ _ = _ |- _ => rewrite H end; simpl; auto.
  - destruct (kind_of a v) as [[t|t|t]|] eqn:Ek; simpl; [|destruct v; try done..|done].
    + intros. by eapply conforms_scalar.
    + intros. by eapply conforms_null_list.
    + intros []. by eapply conforms_list.
    + intros. by eapply conforms_null_map.
    + intros. by eapply conforms_map.
Qed.

Lemma conforms_Resolve sc dup tr v : conforms sc dup tr v -> is_Some (Resolve sc tr).
Proof. inversion 1; eauto. Qed.

(** Validation always answers, and accepts exactly the conforming values. *)
Lemma validate_decides sc dup v : decides sc dup v.
Proof.
  induction v as [|b|k i|f|f|str|l IH|m IH] using value_rect_nested; intros tr p; rewrite validate_kind;
    (destruct (Resolve sc tr) as [a|] eqn:Ea; [|eexists; split; [done|]; rewrite WithLazyPrefix_nil;
      split; [done|]; intros [? ?]%conforms_Resolve; congruence]);
    setoid_rewrite (conforms_kind sc dup tr _ a Ea);
    (destruct (kind_of a _) as [[t|t|t]|]; [eexists; split; [done|]; rewrite WithLazyPrefix_nil;
      by apply validateScalar_ok | | |
      eexists; split; [done|]; by rewrite WithLazyPrefix_nil]);
    try by (eexists; split; [done|]; by rewrite WithLazyPrefix_nil).
  - unfold validate_doList. simpl. destruct (validate_visitListItems_spec sc dup t l 0 [] [] IH) as (errs & -> & Herrs).
    eexists. split; [done|]. rewrite WithLazyPrefix_nil, Herrs. tauto.
  - unfold validate_doMap. simpl. destruct (validate_visitMapItems_spec sc dup t m [] IH) as (errs & -> & Herrs).
    eexists. split; [done|]. rewrite WithLazyPrefix_nil, Herrs. tauto.
Qed.

(** ** Distinct keys *)

(** Pairwise different path elements. *)
Fixpoint pes_distinct (pes : list PathElement) : bool :=
  match pes with
  | [] => true
  | pe :: pes' => forallb (fun x => negb (PathElement_Equals pe x)) pes' && pes_distinct pes'
  end.

(** The keys [validate] accepts are pairwise different. *)
Lemma fresh_keys_distinct r seen pes :
  pes_ok r seen = true -> Forall (pe_dom r) pes ->
  fresh_keys seen pes <-> Forall (fun pe => pes_mem pe seen = false) pes /\ pes_distinct pes = true.
Proof.
  intros Hs F. revert seen Hs. induction F as [|pe pes Hpe F IH]; intros seen Hs; simpl; [done|].
  rewrite (PathElementSet_Has_mem r), IH, Forall_cons by auto using PathElementSet_Insert_ok.
  rewrite andb_true_iff, forallb_Forall.
  assert (E : Forall (fun x => pes_mem x (PathElementSet_Insert seen pe) = false) pes <->
    Forall (fun x => negb (PathElement_Equals pe x) = true) pes /\ Forall (fun x => pes_mem x seen = false) pes).
  { rewrite <-Forall_and. rewrite !Forall_forall. rewrite Forall_forall in F.
    split; intros H x Hx; specialize (H x Hx); specialize (F x Hx);
      rewrite (pes_mem_Insert r) in * by done; rewrite negb_true_iff, <-orb_false_iff in *; done. }
  rewrite E. tauto.
Qed.
