(* ===== verification/SchemaSchema.v ===== *)
(** * Package schema: the schema of schemas

    The literal [SchemaSchemaYAML] of [schema/schemaschema.go] as the schema it
    describes, and the value that the YAML form of a schema denotes: the struct
    tags of [schema/elements.go] give the names of the fields, and a field tagged
    [omitempty] is left out when it is zero.  The schema of schemas accepts the
    form of every schema whose types and fields have distinct, non-empty names. *)
From S2P Require Import Prelude GoLib GoFloat Value ValueOrder PathElement SortedSlice FieldSet.
From S2P Require Import FieldSetSpec Schema TypedHelpers Validate.

(** ** The schema *)

Definition ssScalar (s : Scalar) : TypeRef := mkTypeRef None (mkAtom (Some s) None None) None.
Definition ssNamed (n : string) : TypeRef := mkTypeRef (Some n) Atom0 None.
Definition ssList (elementType : TypeRef) (er : ElementRelationship) (keys : list string) : TypeRef :=
  mkTypeRef None (mkAtom None (Some (mkListT elementType er keys)) None) None.

Definition ssString : TypeRef := ssScalar String_.

(** A named type that is a map with the given fields. *)
Definition ssStruct (name : string) (fields : list (string * TypeRef)) : TypeDef :=
  mkTypeDef name (mkAtom None None (Some (mkMapT
    (Some ((fun f => mkStructField f.1 f.2 None) <$> fields)) [] TypeRef0 EmptyString))).

Definition SchemaSchema : Schema := mkSchema [
  ssStruct "schema" [("types"%string, ssList (ssNamed "typeDef") Associative ["name"%string])];
  ssStruct "typeDef" [("name"%string, ssString); ("scalar"%string, ssString); ("map"%string, ssNamed "map");
    ("list"%string, ssNamed "list"); ("untyped"%string, ssNamed "untyped")];
  ssStruct "typeRef" [("namedType"%string, ssString); ("scalar"%string, ssString); ("map"%string, ssNamed "map");
    ("list"%string, ssNamed "list"); ("untyped"%string, ssNamed "untyped"); ("elementRelationship"%string, ssString)];
  mkTypeDef "scalar" (mkAtom (Some String_) None None);
  ssStruct "map" [("fields"%string, ssList (ssNamed "structField") Associative ["name"%string]);
    ("unions"%string, ssList (ssNamed "union") Atomic []); ("elementType"%string, ssNamed "typeRef");
    ("elementRelationship"%string, ssString)];
  ssStruct "unionField" [("fieldName"%string, ssString); ("discriminatorValue"%string, ssString)];
  ssStruct "union" [("discriminator"%string, ssString); ("deduceInvalidDiscriminator"%string, ssScalar Boolean);
    ("fields"%string, ssList (ssNamed "unionField") Associative ["fieldName"%string])];
  ssStruct "structField" [("name"%string, ssString); ("type"%string, ssNamed "typeRef");
    ("default"%string, ssNamed "__untyped_atomic_")];
  ssStruct "list" [("elementType"%string, ssNamed "typeRef"); ("elementRelationship"%string, ssString);
    ("keys"%string, ssList ssString Atomic [])];
  ssStruct "untyped" [("elementRelationship"%string, ssString)];
  mkTypeDef "__untyped_atomic_" (mkAtom (Some Untyped)
    (Some (mkListT (ssNamed "__untyped_atomic_") Atomic []))
    (Some (mkMapT None [] (ssNamed "__untyped_atomic_") Atomic)))].

(** ** The YAML form of a schema *)

(** Fields tagged [omitempty]. *)
Definition omitStr (k s : string) : Map := if string_eqb s EmptyString then [] else [(k, VString s)].
Definition omitNil (k : string) (o : option value) : Map := match o with Some v => [(k, v)] | None => [] end.
Definition omitList (k : string) (l : list value) : Map := match l with [] => [] | _ => [(k, VList l)] end.

Definition UnionField_yaml (f : UnionField) : value :=
  VMap [("fieldName"%string, VString (uf_FieldName f)); ("discriminatorValue"%string, VString (uf_DiscriminatorValue f))].

Definition Union_yaml (u : Union) : value :=
  VMap (omitNil "discriminator" (VString <$> un_Discriminator u) ++
    (if un_DeduceInvalidDiscriminator u then [("deduceInvalidDiscriminator"%string, VBool true)] else []) ++
    omitList "fields" (UnionField_yaml <$> un_Fields u)).

Fixpoint TypeRef_yaml (t : TypeRef) : Map :=
  match t with
  | mkTypeRef n a e =>
    omitNil "namedType" (VString <$> n) ++ Atom_yaml a ++
    omitNil "elementRelationship" ((fun p => VString (er_target p)) <$> e)
  end
with Atom_yaml (a : Atom) : Map :=
  match a with
  | mkAtom s l m =>
    omitNil "scalar" (VString <$> s) ++
    match l with Some l => [("list"%string, VMap (ListT_yaml l))] | None => [] end ++
    match m with Some m => [("map"%string, VMap (MapT_yaml m))] | None => [] end
  end
with ListT_yaml (l : ListT) : Map :=
  match l with
  | mkListT t er keys =>
    (if TypeRef_isZero t then [] else [("elementType"%string, VMap (TypeRef_yaml t))]) ++
    omitStr "elementRelationship" er ++ omitList "keys" (VString <$> keys)
  end
with MapT_yaml (m : MapT) : Map :=
  match m with
  | mkMapT fields unions t er =>
    match fields with
    | Some fs => omitList "fields" (map (fun f => VMap (StructField_yaml f)) fs)
    | None => []
    end ++
    omitList "unions" (Union_yaml <$> unions) ++
    (if TypeRef_isZero t then [] else [("elementType"%string, VMap (TypeRef_yaml t))]) ++
    omitStr "elementRelationship" er
  end
with StructField_yaml (f : StructField) : Map :=
  match f with
  | mkStructField n t d =>
    omitStr "name" n ++
    (if TypeRef_isZero t then [] else [("type"%string, VMap (TypeRef_yaml t))]) ++
    omitNil "default" d
  end.

Definition TypeDef_yaml (d : TypeDef) : value := VMap (omitStr "name" (td_Name d) ++ Atom_yaml (td_Atom d)).

Definition Schema_yaml (s : Schema) : value := VMap (omitList "types" (TypeDef_yaml <$> Types s)).

(** ** Schemas that are accepted *)

Definition distinct (names : list string) : bool := bool_decide (NoDup names).
Definition named (names : list string) : bool := forallb (fun n => negb (string_eqb n EmptyString)) names && distinct names.

(** A number that fits an int64 or a float64, everywhere in the value. *)
Fixpoint no_uint64 (v : value) : bool :=
  match v with
  | VInt KUint64 _ => false
  | VList l => forallb no_uint64 l
  | VMap m => forallb (fun kv => no_uint64 kv.2) m
  | _ => true
  end.

Definition Union_named (u : Union) : bool := distinct (uf_FieldName <$> un_Fields u).

Fixpoint TypeRef_named (t : TypeRef) : bool := match t with mkTypeRef _ a _ => Atom_named a end
with Atom_named (a : Atom) : bool :=
  match a with
  | mkAtom _ l m =>
    match l with Some l => ListT_named l | None => true end && match m with Some m => MapT_named m | None => true end
  end
with ListT_named (l : ListT) : bool := match l with mkListT t _ _ => TypeRef_named t end
with MapT_named (m : MapT) : bool :=
  match m with
  | mkMapT fields unions t _ =>
    match fields with
    | Some fs => named (map sf_Name fs) && forallb StructField_named fs
    | None => true
    end && forallb Union_named unions && TypeRef_named t
  end
with StructField_named (f : StructField) : bool :=
  match f with mkStructField _ t d => TypeRef_named t && match d with Some v => no_uint64 v | None => true end end.

Definition Schema_named (s : Schema) : bool :=
  named (td_Name <$> Types s) && forallb (fun d => Atom_named (td_Atom d)) (Types s).

(** ** Induction on types *)
Section TypeInd.
Context (PT : TypeRef -> Prop) (PA : Atom -> Prop) (PL : ListT -> Prop) (PM : MapT -> Prop) (PS : StructField -> Prop).
Hypothesis (HT : forall n a e, PA a -> PT (mkTypeRef n a e))
  (HA : forall s l m, (forall x, l = Some x -> PL x) -> (forall x, m = Some x -> PM x) -> PA (mkAtom s l m))
  (HL : forall t er keys, PT t -> PL (mkListT t er keys))
  (HM : forall fs us t er, Forall PS (default [] fs) -> PT t -> PM (mkMapT fs us t er))
  (HS : forall n t d, PT t -> PS (mkStructField n t d)).

Fixpoint TypeRef_rect_nested (t : TypeRef) : PT t :=
  match t with mkTypeRef n a e => HT n a e (Atom_rect_nested a) end
with Atom_rect_nested (a : Atom) : PA a :=
  match a with
  | mkAtom s l m => HA s l m
    (match l return forall x, l = Some x -> PL x with
     | Some y => fun x E => match E in _ = o return match o with Some x => PL x | None => True end with
       eq_refl => ListT_rect_nested y end
     | None => fun x E => match E in _ = o return match o with Some x => PL x | None => True end with
       eq_refl => I end
     end)
    (match m return forall x, m = Some x -> PM x with
     | Some y => fun x E => match E in _ = o return match o with Some x => PM x | None => True end with
       eq_refl => MapT_rect_nested y end
     | None => fun x E => match E in _ = o return match o with Some x => PM x | None => True end with
       eq_refl => I end
     end)
  end
with ListT_rect_nested (l : ListT) : PL l :=
  match l with mkListT t er keys => HL t er keys (TypeRef_rect_nested t) end
with MapT_rect_nested (m : MapT) : PM m :=
  match m with
  | mkMapT fs us t er => HM fs us t er
    (match fs return Forall PS (default [] fs) with
     | Some l => (fix go l := match l return Forall PS l with
       | [] => List.Forall_nil _
       | f :: l' => List.Forall_cons _ _ _ (StructField_rect_nested f) (go l')
       end) l
     | None => List.Forall_nil _
     end)
    (TypeRef_rect_nested t)
  end
with StructField_rect_nested (f : StructField) : PS f :=
  match f with mkStructField n t d => HS n t d (TypeRef_rect_nested t) end.
End TypeInd.

(** ** The schema of schemas accepts them *)

Lemma distinct_names {A} (name : A -> string) (pe : string -> PathElement) l :
  (forall a b, a <> b -> PathElement_Equals (pe a) (pe b) = false) -> NoDup (name <$> l) ->
  pes_distinct ((fun f => pe (name f)) <$> l) = true.
Proof.
  intros Hne. induction l as [|a l IH]; [done|]. rewrite !fmap_cons. intros [Ha Hl]%NoDup_cons. cbn [pes_distinct].
  apply andb_true_iff. split; [|auto]. apply forallb_Forall, Forall_fmap, Forall_forall. intros b Hb.
  apply negb_true_iff, Hne. intros E. apply Ha. rewrite E. by apply list_elem_of_fmap_2.
Qed.

Section Accepts.
Context (dup : bool).
Local Abbreviation ok_as tr := (conforms SchemaSchema dup tr).

(** The type of a field in a named type of the schema of schemas. *)
Definition ssField (type field : string) : option TypeRef :=
  match Resolve SchemaSchema (ssNamed type) with
  | Some a => match a_Map a with Some m => fieldType m field | None => None end
  | None => None
  end.

Definition entry_ok (type : string) (kv : string * value) : Prop :=
  exists tr, ssField type kv.1 = Some tr /\ ok_as tr kv.2.

Lemma struct_ok type m :
  (exists t, Resolve SchemaSchema (ssNamed type) = Some (mkAtom None None (Some t))) ->
  Forall (entry_ok type) m -> ok_as (ssNamed type) (VMap m).
Proof.
  intros [t Et] F. eapply conforms_map; [exact Et|reflexivity|]. eapply Forall_impl; [exact F|].
  intros kv (tr & E & H). exists tr. split; [|done]. unfold ssField in E. by rewrite Et in E.
Qed.

Lemma string_ok s : ok_as ssString (VString s).
Proof. eapply conforms_scalar; [reflexivity..|]. unfold scalar_ok. auto. Qed.

Lemma list_ok tr er keys l :
  Forall (ok_as tr) l -> keys_ok SchemaSchema dup (mkListT tr er keys) [] l -> ok_as (ssList tr er keys) (VList l).
Proof. intros. by eapply conforms_list. Qed.

Lemma omitNil_ok type k (o : option value) tr :
  ssField type k = Some tr -> (forall v, o = Some v -> ok_as tr v) -> Forall (entry_ok type) (omitNil k o).
Proof. intros E H. destruct o as [v|]; constructor; [|done]. exists tr. auto. Qed.

Lemma omitString_ok type k (o : option string) :
  ssField type k = Some ssString -> Forall (entry_ok type) (omitNil k (VString <$> o)).
Proof. intros E. apply (omitNil_ok _ _ _ _ E). intros v. destruct o; intros [= <-]. apply string_ok. Qed.

Lemma omitStr_ok type k s : ssField type k = Some ssString -> Forall (entry_ok type) (omitStr k s).
Proof. intros E. unfold omitStr. destruct (string_eqb s _); constructor; [|done]. exists ssString. split; [done|apply string_ok]. Qed.

Lemma omitList_ok type k l tr :
  ssField type k = Some tr -> ok_as tr (VList l) -> Forall (entry_ok type) (omitList k l).
Proof. intros E H. destruct l; constructor; [|done]. by exists tr. Qed.

Lemma atomic_ok tr l : Forall (ok_as tr) l -> ok_as (ssList tr Atomic []) (VList l).
Proof. intros F. by apply list_ok. Qed.

(** A list of maps with a key, which gives each its name. *)
Lemma keyed_ok {A} tr k (enc : A -> Map) (name : A -> string) (l : list A) :
  Forall (fun f => assoc_get k (enc f) = Some (VString (name f))) l -> NoDup (name <$> l) ->
  Forall (fun f => ok_as tr (VMap (enc f))) l ->
  ok_as (ssList tr Associative [k]) (VList ((fun f => VMap (enc f)) <$> l)).
Proof.
  intros Hk Hn Hl. apply list_ok; [by apply Forall_fmap|]. intros _.
  exists ((fun f => peKey [mkField k (VString (name f))]) <$> l). split.
  - apply Forall2_fmap, Forall_Forall2_diag. eapply Forall_impl; [exact Hk|]. intros f Ef. cbn beta.
    unfold listItemToPathElement, keyedAssociativeListItemToPathElement. cbn. by rewrite Ef.
  - intros _. apply (fresh_keys_distinct NoFloats); [done|by apply Forall_fmap, Forall_forall|]. split.
    + apply Forall_fmap, Forall_forall. done.
    + apply (distinct_names name (fun n => peKey [mkField k (VString n)])); [|done].
      intros a b Hab. cbn. rewrite string_eqb_refl. cbn.
      by rewrite (proj2 (string_eqb_false a b) Hab).
Qed.

Lemma any_ok v : no_uint64 v = true -> ok_as (ssNamed "__untyped_atomic_") v.
Proof.
  induction v as [|b|k i|f|f|str|l IH|m IH] using value_rect_nested; intros H.
  - by eapply conforms_null_map.
  - eapply conforms_scalar; [reflexivity..|]. unfold scalar_ok. naive_solver.
  - eapply conforms_scalar; [reflexivity| |]; [by destruct k|]. unfold scalar_ok. destruct k; naive_solver.
  - eapply conforms_scalar; [reflexivity..|]. unfold scalar_ok. naive_solver.
  - eapply conforms_scalar; [reflexivity..|]. unfold scalar_ok. naive_solver.
  - eapply conforms_scalar; [reflexivity..|]. unfold scalar_ok. naive_solver.
  - eapply conforms_list; [reflexivity..| |done]. cbn [no_uint64] in H. rewrite forallb_Forall in H.
    eapply Forall_impl; [exact (proj2 (Forall_and _ _) (conj IH H))|]. intros x [Hx Hu]. exact (Hx Hu).
  - eapply conforms_map; [reflexivity..|]. cbn [no_uint64] in H. rewrite forallb_Forall in H.
    eapply Forall_impl; [exact (proj2 (Forall_and _ _) (conj IH H))|]. intros [k x] [Hx Hu]. eexists. split; [reflexivity|]. auto.
Qed.

Lemma Union_ok u : Union_named u = true -> ok_as (ssNamed "union") (Union_yaml u).
Proof.
  intros H. apply struct_ok; [by eexists|]. rewrite !Forall_app. split_and!.
  - by apply omitString_ok.
  - destruct (un_DeduceInvalidDiscriminator u); constructor; [|done]. eexists. split; [reflexivity|].
    eapply conforms_scalar; [reflexivity..|]. unfold scalar_ok. naive_solver.
  - eapply omitList_ok; [reflexivity|]. apply (keyed_ok _ _ _ uf_FieldName).
    + by apply Forall_forall.
    + by apply bool_decide_eq_true in H.
    + apply Forall_forall. intros f _. apply struct_ok; [by eexists|]. repeat constructor; eexists; split; try reflexivity; apply string_ok.
Qed.

(** A reference is omitted when it is zero. *)
Lemma omitRef_ok type k (t : TypeRef) :
  ssField type k = Some (ssNamed "typeRef") -> ok_as (ssNamed "typeRef") (VMap (TypeRef_yaml t)) ->
  Forall (entry_ok type) (if TypeRef_isZero t then [] else [(k, VMap (TypeRef_yaml t))]).
Proof. intros E H. destruct (TypeRef_isZero t); constructor; [|done]. by exists (ssNamed "typeRef"). Qed.

(** The fields of an atom, within a type definition or a reference. *)
Definition atom_ok (a : Atom) : Prop :=
  Atom_named a = true -> forall type, type = "typeDef"%string \/ type = "typeRef"%string ->
  Forall (entry_ok type) (Atom_yaml a).

Lemma named_fields {A} (name : A -> string) (rest : A -> Map) l :
  named (name <$> l) = true ->
  NoDup (name <$> l) /\
  Forall (fun f => assoc_get "name" (omitStr "name" (name f) ++ rest f) = Some (VString (name f))) l.
Proof.
  intros [H1 H2]%andb_true_iff. split; [by apply bool_decide_eq_true in H2|].
  rewrite forallb_Forall, Forall_fmap in H1. eapply Forall_impl; [exact H1|]. intros f Hf. cbn beta in *.
  apply negb_true_iff in Hf. unfold omitStr. by rewrite Hf.
Qed.

Lemma Atom_accepted a : atom_ok a.
Proof.
  apply (Atom_rect_nested
    (fun t => TypeRef_named t = true -> ok_as (ssNamed "typeRef") (VMap (TypeRef_yaml t))) atom_ok
    (fun l => ListT_named l = true -> ok_as (ssNamed "list") (VMap (ListT_yaml l)))
    (fun m => MapT_named m = true -> ok_as (ssNamed "map") (VMap (MapT_yaml m)))
    (fun f => StructField_named f = true -> ok_as (ssNamed "structField") (VMap (StructField_yaml f)))); clear a.
  - intros n a e IH Hn. apply struct_ok; [by eexists|]. cbn [TypeRef_yaml]. rewrite !Forall_app. split_and!.
    + by apply omitString_ok.
    + apply IH; auto.
    + eapply omitNil_ok; [reflexivity|]. intros v. destruct e; intros [= <-]. apply string_ok.
  - intros s l m IHl IHm Hn type Ht. cbn [Atom_named] in Hn. apply andb_true_iff in Hn as [Hl Hm].
    cbn [Atom_yaml]. rewrite !Forall_app. split_and!.
    + apply omitString_ok. by destruct Ht as [-> | ->].
    + destruct l as [l|]; constructor; [|done]. exists (ssNamed "list"). split; [by destruct Ht as [-> | ->]|]. by apply IHl.
    + destruct m as [m|]; constructor; [|done]. exists (ssNamed "map"). split; [by destruct Ht as [-> | ->]|]. by apply IHm.
  - intros t er keys IH Hn. apply struct_ok; [by eexists|]. cbn [ListT_yaml]. rewrite !Forall_app. split_and!.
    + apply omitRef_ok; auto.
    + by apply omitStr_ok.
    + eapply omitList_ok; [reflexivity|]. apply atomic_ok, Forall_fmap, Forall_forall. intros k _. apply string_ok.
  - intros fs us t er IHf IHt Hn. cbn [MapT_named] in Hn. apply andb_true_iff in Hn as [[Hf Hu]%andb_true_iff Ht].
    apply struct_ok; [by eexists|]. cbn [MapT_yaml]. rewrite !Forall_app. split_and!.
    + destruct fs as [fs|]; [|constructor]. apply andb_true_iff in Hf as [Hnm Hf]. eapply omitList_ok; [reflexivity|].
      assert (E : forall f, StructField_yaml f = omitStr "name" (sf_Name f) ++
        ((if TypeRef_isZero (sf_Type f) then [] else [("type"%string, VMap (TypeRef_yaml (sf_Type f)))]) ++
         omitNil "default" (sf_Default f))) by by intros [].
      destruct (named_fields sf_Name (fun f => (if TypeRef_isZero (sf_Type f) then [] else [("type"%string, VMap (TypeRef_yaml (sf_Type f)))]) ++
         omitNil "default" (sf_Default f)) fs Hnm) as [Hd Hk].
      apply (keyed_ok _ _ StructField_yaml sf_Name); [|done|].
      * eapply Forall_impl; [exact Hk|]. intros f. cbn beta. by rewrite E.
      * rewrite forallb_Forall in Hf. eapply Forall_impl; [exact (proj2 (Forall_and _ _) (conj IHf Hf))|]. intros f [H1 H2]. auto.
    + eapply omitList_ok; [reflexivity|]. apply atomic_ok, Forall_fmap. rewrite forallb_Forall in Hu.
      eapply Forall_impl; [exact Hu|]. intros u Hu'. by apply Union_ok.
    + apply omitRef_ok; auto.
    + by apply omitStr_ok.
  - intros n t d IH Hn. cbn [StructField_named] in Hn. apply andb_true_iff in Hn as [Ht Hd].
    apply struct_ok; [by eexists|]. cbn [StructField_yaml]. rewrite !Forall_app. split_and!.
    + by apply omitStr_ok.
    + apply omitRef_ok; auto.
    + eapply omitNil_ok; [reflexivity|]. intros v ->. by apply any_ok.
Qed.

Lemma Schema_accepted s : Schema_named s = true -> ok_as (ssNamed "schema") (Schema_yaml s).
Proof.
  intros [Hn Ha]%andb_true_iff. rewrite forallb_Forall in Ha. apply struct_ok; [by eexists|].
  eapply omitList_ok; [reflexivity|].
  destruct (named_fields td_Name (fun d => Atom_yaml (td_Atom d)) (Types s) Hn) as [Hd Hk].
  apply (keyed_ok _ _ (fun d => omitStr "name" (td_Name d) ++ Atom_yaml (td_Atom d)) td_Name); [done..|].
  eapply Forall_impl; [exact Ha|]. intros d Hd'. cbn beta in *. apply struct_ok; [by eexists|]. rewrite Forall_app. split.
  - by apply omitStr_ok.
  - apply Atom_accepted; auto.
Qed.
End Accepts.
