(* ===== verification/ToFieldSet.v ===== *)
(** * Package typed: the set of fields of an object

    Models [typed/tofieldset.go].  The walker's mutable state is the shared
    set; the path is an argument.  Recursion as in [Validate]. *)
From S2P Require Import Prelude GoLib GoFloat Value ValueOrder PathElement SortedSlice FieldSet.
From S2P Require Import FieldSetSpec FieldSetOps FieldSetInsert Schema TypedHelpers Validate.

(** The loop that counts path elements: what was seen, what was seen twice,
    and the set with the duplicated items inserted. *)
Fixpoint markDuplicates (path : Path) (pes : list PathElement)
    (seen duplicates : PathElementSet) (set : FSet) : PathElementSet * FSet :=
  match pes with
  | [] => (duplicates, set)
  | pe :: pes' =>
    if PathElementSet_Has seen pe then
      if PathElementSet_Has duplicates pe then markDuplicates path pes' seen duplicates set
      else
        markDuplicates path pes' seen (PathElementSet_Insert duplicates pe)
          (Set_Insert set (path ++ [pe]))
    else markDuplicates path pes' (PathElementSet_Insert seen pe) duplicates set
  end.

Section ToFieldSetBody.
Variable sc : Schema.
(** The recursive call: type reference, child, path of the child, set. *)
Variable toFieldSet : TypeRef -> option value -> Path -> FSet -> Outcome (ValidationErrors * FSet).

(** The second loop of [visitListItems]. *)
Fixpoint tfs_items (t : ListT) (path : Path) (duplicates : PathElementSet) (l : list value)
    (errs : ValidationErrors) (set : FSet) : Outcome (ValidationErrors * FSet) :=
  match l with
  | [] => Ret (errs, set)
  | child :: l' =>
    let pe := itemPE sc t child in
    if PathElementSet_Has duplicates pe then tfs_items t path duplicates l' errs set
    else
      res ← toFieldSet (l_ElementType t) (Some child) (path ++ [pe]) set;
      tfs_items t path duplicates l' (errs ++ res.1) (Set_Insert res.2 (path ++ [pe]))
  end.

Definition tfs_visitListItems (t : ListT) (path : Path) (l : list value) (set : FSet) :
    Outcome (ValidationErrors * FSet) :=
  let '(duplicates, set) := markDuplicates path (itemPE sc t <$> l) [] [] set in
  tfs_items t path duplicates l [] set.

Definition tfs_doList (v : option value) (path : Path) (t : ListT) (set : FSet) :
    Outcome (ValidationErrors * FSet) :=
  res ← listValue v;
  if string_eqb (l_ER t) Atomic then Ret ([], Set_Insert set path)
  else
    match res with
    | inr (Some l) => tfs_visitListItems t path l set
    | _ => Ret ([], set)
    end.

Fixpoint tfs_visitMapItems (t : MapT) (path : Path) (m : Map) (errs : ValidationErrors) (set : FSet) :
    Outcome (ValidationErrors * FSet) :=
  match m with
  | [] => Ret (errs, set)
  | (key, val) :: m' =>
    let path2 := path ++ [peField key] in
    res ← toFieldSet (mapFieldType t key) (Some val) path2 set;
    let set :=
      if IsNull val || (IsMap val && (length (AsMap val) =? 0)%nat) then Set_Insert res.2 path2
      else match FindField t key with
        | None => Set_Insert res.2 path2
        | Some _ => res.2
        end in
    tfs_visitMapItems t path m' (errs ++ res.1) set
  end.

Definition tfs_doMap (v : option value) (path : Path) (t : MapT) (set : FSet) :
    Outcome (ValidationErrors * FSet) :=
  if string_eqb (m_ER t) Atomic then Ret ([], Set_Insert set path)
  else
    match mapValue v with
    | inr (Some m) => tfs_visitMapItems t path m [] set
    | _ => Ret ([], set)
    end.

Definition tfs_handler (v : option value) (path : Path) : atomHandler FSet :=
  mkAtomHandler
    (fun _ set => Ret ([], Set_Insert set path))
    (tfs_doList v path)
    (tfs_doMap v path).

Definition tfs_body (tr : TypeRef) (v : option value) (path : Path) (set : FSet) :
    Outcome (ValidationErrors * FSet) :=
  resolveSchema sc tr v (tfs_handler v path) set.
End ToFieldSetBody.

Fixpoint toFieldSet_fuel (n : nat) (sc : Schema) :
    TypeRef -> option value -> Path -> FSet -> Outcome (ValidationErrors * FSet) :=
  match n with
  | O => fun _ _ _ _ => Panic
  | S n => tfs_body sc (toFieldSet_fuel n sc)
  end.

Definition toFieldSet (sc : Schema) (tr : TypeRef) (v : option value) (path : Path) (set : FSet) :
    Outcome (ValidationErrors * FSet) :=
  toFieldSet_fuel (S (oheight v)) sc tr v path set.

(** ** The fuel is enough *)

Lemma tfs_items_ext sc rec1 rec2 t path dups l errs set :
  (forall tr c p s, c ∈ l -> rec1 tr (Some c) p s = rec2 tr (Some c) p s) ->
  tfs_items sc rec1 t path dups l errs set = tfs_items sc rec2 t path dups l errs set.
Proof.
  revert errs set. induction l as [|c l IH]; intros errs set H; [done|]. simpl.
  assert (IH' : forall errs set, tfs_items sc rec1 t path dups l errs set = tfs_items sc rec2 t path dups l errs set).
  { intros. apply IH. intros. apply H. by right. }
  destruct (PathElementSet_Has dups _); [apply IH'|].
  rewrite H by left. destruct (rec2 _ _ _ _); [done|apply IH'].
Qed.

Lemma tfs_visitMapItems_ext rec1 rec2 t path (m : Map) errs set :
  (forall tr kv p s, kv ∈ m -> rec1 tr (Some kv.2) p s = rec2 tr (Some kv.2) p s) ->
  tfs_visitMapItems rec1 t path m errs set = tfs_visitMapItems rec2 t path m errs set.
Proof.
  revert errs set. induction m as [|[k x] m IH]; intros errs set H; [done|]. simpl.
  rewrite (H _ (k, x)) by left. simpl. destruct (rec2 _ _ _ _); [done|]. apply IH.
  intros. apply H. by right.
Qed.

Lemma tfs_body_ext sc rec1 rec2 tr v p s :
  (forall tr' c p' s' w, v = Some w -> c ∈ children w ->
    rec1 tr' (Some c) p' s' = rec2 tr' (Some c) p' s') ->
  tfs_body sc rec1 tr v p s = tfs_body sc rec2 tr v p s.
Proof.
  intros H. unfold tfs_body, resolveSchema, handleAtom.
  destruct (Resolve sc tr) as [a|]; [|done].
  destruct (a_Map (deduceAtom a v)) as [t|].
  - simpl. unfold tfs_doMap. destruct (string_eqb _ _); [done|].
    destruct v as [v|]; [|done]. destruct v as [| | | | | | |m]; try done.
    simpl. apply tfs_visitMapItems_ext.
    intros tr' kv p' s' Hkv. eapply H; [done|]. by apply list_elem_of_fmap_2.
  - destruct (a_Scalar (deduceAtom a v)); [done|].
    destruct (a_List (deduceAtom a v)) as [t|]; [|done].
    simpl. unfold tfs_doList. destruct v as [v|]; [|done]. destruct v as [| | | | | |l|]; try done.
    simpl. destruct (string_eqb _ _); [done|]. unfold tfs_visitListItems.
    destruct (markDuplicates _ _ _ _ _). apply tfs_items_ext. eauto.
Qed.

Lemma toFieldSet_fuel_enough sc n n' tr v p s :
  (oheight v < n)%nat -> (oheight v < n')%nat ->
  toFieldSet_fuel n sc tr v p s = toFieldSet_fuel n' sc tr v p s.
Proof.
  revert n' tr v p s. induction n as [|n IH]; intros [|n'] tr v p s Hn Hn'; try lia.
  cbn [toFieldSet_fuel]. apply tfs_body_ext. intros tr' c p' s' w -> Hc%height_child.
  cbn [oheight] in *. apply IH; simpl; lia.
Qed.

Lemma toFieldSet_unfold sc tr v p s :
  toFieldSet sc tr v p s = tfs_body sc (toFieldSet sc) tr v p s.
Proof.
  unfold toFieldSet at 1. cbn [toFieldSet_fuel]. apply tfs_body_ext.
  intros tr' c p' s' w -> Hc%height_child. apply toFieldSet_fuel_enough; simpl; lia.
Qed.
