(* ===== verification/ToFieldSetSpec.v ===== *)
(** * Package typed: which fields ToFieldSet finds

    [ownedPaths] lists, from the schema and the value alone, the fields an
    object sets: leaves, atomic lists and maps, list items, undeclared fields
    and null or empty values.  [ToFieldSet] returns exactly the set of these
    paths, and no error on a value that conforms to the schema. *)
From S2P Require Import Prelude GoLib GoFloat Value ValueOrder PathElement SortedSlice FieldSet.
From S2P Require Import FieldSetSpec FieldSetOps FieldSetInsert Schema TypedHelpers Validate ToFieldSet.

(** How many path elements of the list are equal to [pe]. *)
Fixpoint occurrences (pe : PathElement) (l : list PathElement) : nat :=
  match l with
  | [] => 0
  | x :: l' => (if PathElement_Equals x pe then 1 else 0) + occurrences pe l'
  end%nat.

(** Is the field a member itself, besides what is below it? *)
Definition ownsField (t : MapT) (key : string) (val : value) : bool :=
  IsNull val || (IsMap val && (length (AsMap val) =? 0)%nat) ||
  match FindField t key with None => true | Some _ => false end.

Fixpoint ownedPaths (sc : Schema) (v : value) (tr : TypeRef) {struct v} : list Path :=
  match Resolve sc tr with
  | None => []
  | Some a =>
    match kind_of a v with
    | None => []
    | Some (KScalar _) => [[]]
    | Some (KList t) =>
      if string_eqb (l_ER t) Atomic then [[]]
      else
        match v with
        | VList l =>
          l ≫= (fun c =>
            let pe := itemPE sc t c in
            (if (2 <=? occurrences pe (itemPE sc t <$> l))%nat then []
             else cons pe <$> ownedPaths sc c (l_ElementType t)) ++ [[pe]])
        | _ => []
        end
    | Some (KMap t) =>
      if string_eqb (m_ER t) Atomic then [[]]
      else
        match v with
        | VMap m =>
          m ≫= (fun kv =>
            (cons (peField kv.1) <$> ownedPaths sc kv.2 (mapFieldType t kv.1)) ++
            (if ownsField t kv.1 kv.2 then [[peField kv.1]] else []))
        | _ => []
        end
    end
  end.

(** The schema has a type for every part of the value. *)
Fixpoint has_types (sc : Schema) (v : value) (tr : TypeRef) {struct v} : bool :=
  match Resolve sc tr with
  | None => false
  | Some a =>
    match kind_of a v with
    | None => false
    | Some (KScalar _) => true
    | Some (KList t) =>
      match v with VList l => forallb (fun c => has_types sc c (l_ElementType t)) l | _ => true end
    | Some (KMap t) =>
      match v with VMap m => forallb (fun kv => has_types sc kv.2 (mapFieldType t kv.1)) m | _ => true end
    end
  end.

Lemma has_types_kind sc v tr :
  has_types sc v tr = true <->
  exists a k, Resolve sc tr = Some a /\ kind_of a v = Some k /\
  match k, v with
  | KList t, VList l => Forall (fun c => has_types sc c (l_ElementType t) = true) l
  | KMap t, VMap m => Forall (fun kv => has_types sc kv.2 (mapFieldType t kv.1) = true) m
  | _, _ => True
  end.
Proof.
  split.
  - intros H. assert (exists a kd, Resolve sc tr = Some a /\ kind_of a v = Some kd) as (a & kd & Ea & Ek).
    { destruct v; cbn [has_types] in H; destruct (Resolve sc tr) as [a|] eqn:Ea; try done;
        destruct (kind_of a _) as [kd|] eqn:Ek; try done; by exists a, kd. }
    exists a, kd. split; [done|]. split; [done|]. destruct kd as [t|t|t], v; try done; cbn [has_types] in H; rewrite Ea, Ek in H;
      by apply Forall_forall; intros x Hx%list_elem_of_In; rewrite forallb_forall in H; apply H.
  - intros (a & kd & Ea & Ek & H). destruct v; cbn [has_types]; rewrite Ea, Ek; destruct kd; try done;
      apply forallb_forall; intros x Hx%list_elem_of_In; rewrite Forall_forall in H; by apply H.
Qed.

Lemma conforms_has_types sc dup v : forall tr, conforms sc dup tr v -> has_types sc v tr = true.
Proof.
  induction v as [|b|k i|f|f|str|l IH|m IH] using value_rect_nested; intros tr Hc; apply has_types_kind;
    destruct (conforms_Resolve _ _ _ _ Hc) as [a Ea]; apply (conforms_kind _ _ _ _ _ Ea) in Hc;
    (destruct (kind_of a _) as [[t|t|t]|] eqn:Ek; [| | |done]); (eexists a, _; split; [done|]; split; [done|]); try done.
  - destruct Hc as [F _]. rewrite Forall_forall in *. auto.
  - simpl in Hc. rewrite Forall_forall in *. intros kv Hkv. destruct (Hc _ Hkv) as (tr' & Et & Hx).
    replace (mapFieldType t kv.1) with tr'; [by apply IH|]. unfold mapFieldType. unfold fieldType in Et.
    destruct (FindField t kv.1); [by injection Et as <-|]. destruct (TypeRef_isZero _); [done|by injection Et as <-].
Qed.

Section Adds.
Context (r : Regime).
Implicit Types (s : FSet) (p q : Path) (Q : list Path).

Definition mentions Q p : bool := existsb (fun q => Path_Equals q p) Q.

(** [s'] is [s] with the paths [Q] inserted. *)
Definition adds s s' Q : Prop :=
  Set_ok r s' = true /\
  forall p, Forall (pe_dom r) p -> p <> [] -> Set_Has s' p = Set_Has s p || mentions Q p.

Lemma mentions_app Q1 Q2 p : mentions (Q1 ++ Q2) p = mentions Q1 p || mentions Q2 p.
Proof. apply existsb_app. Qed.

Lemma adds_refl s : Set_ok r s = true -> adds s s [].
Proof. split; [done|]. intros. by rewrite orb_false_r. Qed.

Lemma adds_trans s1 s2 s3 Q1 Q2 : adds s1 s2 Q1 -> adds s2 s3 Q2 -> adds s1 s3 (Q1 ++ Q2).
Proof.
  intros [H1 E1] [H2 E2]. split; [done|]. intros p Hp Hne.
  by rewrite E2, E1, mentions_app, orb_assoc by done.
Qed.

Lemma adds_Insert s q : Set_ok r s = true -> Forall (pe_dom r) q -> adds s (Set_Insert s q) [q].
Proof.
  intros Hs Hq. split; [by apply Set_Insert_ok|]. intros p Hp Hne.
  apply Set_ok_iff in Hs as [Hw _]. rewrite (Set_Has_Insert r) by done.
  unfold mentions. simpl. by rewrite orb_false_r, orb_comm.
Qed.

Lemma adds_equiv s s' Q Q' :
  (forall p, Forall (pe_dom r) p -> p <> [] -> mentions Q p = mentions Q' p) ->
  adds s s' Q -> adds s s' Q'.
Proof. intros H [Hs E]. split; [done|]. intros p Hp Hne. by rewrite <-H, E. Qed.
End Adds.

Lemma Path_Equals_snoc path pe p x :
  Path_Equals (path ++ [pe]) (p ++ [x]) = Path_Equals path p && PathElement_Equals pe x.
Proof.
  revert p. induction path as [|a path IH]; intros [|b p]; simpl.
  - by rewrite Path_Equals_cons, andb_true_r.
  - rewrite Path_Equals_cons, !Path_Equals_nil_l. destruct p; simpl; by rewrite andb_false_r.
  - rewrite Path_Equals_cons, !Path_Equals_nil_r. destruct path; simpl; by rewrite andb_false_r.
  - by rewrite !Path_Equals_cons, IH, andb_assoc.
Qed.

Lemma path_snoc (p : Path) : p <> [] -> exists q x, p = q ++ [x].
Proof. destruct p as [|x q _] using rev_ind; [done|]. eauto. Qed.

Section Duplicates.
Context (r : Regime) (path : Path).
Hypothesis Hpath : Forall (pe_dom r) path.
Implicit Types (pes prev : list PathElement) (pe : PathElement).

Lemma occurrences_app pe l1 l2 : occurrences pe (l1 ++ l2) = (occurrences pe l1 + occurrences pe l2)%nat.
Proof. induction l1 as [|x l1 IH]; simpl; [done|]. rewrite IH. lia. Qed.

Lemma occurrences_Equals pe pe' l :
  pe_dom r pe -> pe_dom r pe' -> Forall (pe_dom r) l -> PathElement_Equals pe pe' = true ->
  occurrences pe l = occurrences pe' l.
Proof.
  intros Hp Hp' Hl E. induction Hl as [|x l Hx Hl IH]; simpl; [done|].
  by rewrite IH, (pe_Equals_sym r x pe), (pe_Equals_sym r x pe'), (pe_Equals_trans_l r pe pe') by done.
Qed.

(** What the loop of [markDuplicates] knows after the items [prev]. *)
Record mark_inv prev (seen dups : PathElementSet) (s0 s : FSet) : Prop := {
  mi_seen_ok : pes_ok r seen = true;
  mi_dups_ok : pes_ok r dups = true;
  mi_seen pe : pe_dom r pe -> pes_mem pe seen = (1 <=? occurrences pe prev)%nat;
  mi_dups pe : pe_dom r pe -> pes_mem pe dups = (2 <=? occurrences pe prev)%nat;
  mi_ok : Set_ok r s = true;
  mi_Has p x : Forall (pe_dom r) p -> pe_dom r x ->
    Set_Has s (p ++ [x]) = Set_Has s0 (p ++ [x]) || (Path_Equals path p && pes_mem x dups);
}.

Lemma mark_inv_step pe prev seen dups s0 s :
  pe_dom r pe -> Forall (pe_dom r) prev -> mark_inv prev seen dups s0 s ->
  let '(seen', dups', s') :=
    if PathElementSet_Has seen pe then
      if PathElementSet_Has dups pe then (seen, dups, s)
      else (seen, PathElementSet_Insert dups pe, Set_Insert s (path ++ [pe]))
    else (PathElementSet_Insert seen pe, dups, s) in
  mark_inv (prev ++ [pe]) seen' dups' s0 s'.
Proof.
  intros Hpe Hprev [Hso Hdo Hs Hd Hok HH].
  rewrite !(PathElementSet_Has_mem r), Hs, Hd by done.
  assert (Hocc : forall x, pe_dom r x -> occurrences x (prev ++ [pe]) =
    (occurrences x prev + if PathElement_Equals pe x then 1 else 0)%nat).
  { intros. rewrite occurrences_app. simpl. lia. }
  assert (HE : forall x, pe_dom r x -> PathElement_Equals pe x = true ->
    occurrences x prev = occurrences pe prev).
  { intros. symmetry. by apply occurrences_Equals. }
  destruct (1 <=? occurrences pe prev)%nat eqn:E1; [destruct (2 <=? occurrences pe prev)%nat eqn:E2|];
    split; auto using PathElementSet_Insert_ok.
  - intros x Hx. rewrite Hs, Hocc by done. destruct (PathElement_Equals pe x) eqn:E; [|by rewrite Nat.add_0_r].
    rewrite (HE x Hx E). apply Nat.leb_le in E1. by rewrite !(proj2 (Nat.leb_le _ _)) by lia.
  - intros x Hx. rewrite Hd, Hocc by done. destruct (PathElement_Equals pe x) eqn:E; [|by rewrite Nat.add_0_r].
    rewrite (HE x Hx E). apply Nat.leb_le in E2. by rewrite !(proj2 (Nat.leb_le _ _)) by lia.
  - intros x Hx. rewrite Hs, Hocc by done. destruct (PathElement_Equals pe x) eqn:E; [|by rewrite Nat.add_0_r].
    rewrite (HE x Hx E). apply Nat.leb_le in E1. by rewrite !(proj2 (Nat.leb_le _ _)) by lia.
  - intros x Hx. rewrite (pes_mem_Insert r), Hd, Hocc by done.
    destruct (PathElement_Equals pe x) eqn:E; [|by rewrite Nat.add_0_r].
    rewrite (HE x Hx E). apply Nat.leb_le in E1. cbn [orb]. by rewrite (proj2 (Nat.leb_le _ _)) by lia.
  - apply Set_Insert_ok; [|done]. apply Forall_app; split; [done|by constructor].
  - intros p x Hp Hx. apply Set_ok_iff in Hok as [Hw _]. rewrite (Set_Has_Insert r), HH, (pes_mem_Insert r), Path_Equals_snoc;
      [|done..|apply Forall_app; split; [done|by constructor]|apply Forall_app; split; [done|by constructor]|done|by destruct p].
    by destruct (Path_Equals path p), (PathElement_Equals pe x), (Set_Has s0 (p ++ [x])), (pes_mem x dups).
  - intros x Hx. rewrite (pes_mem_Insert r), Hs, Hocc by done.
    destruct (PathElement_Equals pe x) eqn:E; [|by rewrite Nat.add_0_r].
    cbn [orb]. by rewrite (proj2 (Nat.leb_le _ _)) by lia.
  - intros x Hx. rewrite Hd, Hocc by done. destruct (PathElement_Equals pe x) eqn:E; [|by rewrite Nat.add_0_r].
    rewrite (HE x Hx E). apply Nat.leb_gt in E1. by rewrite !(proj2 (Nat.leb_gt _ _)) by lia.
Qed.

Lemma markDuplicates_inv pes prev seen dups s0 s :
  Forall (pe_dom r) pes -> Forall (pe_dom r) prev -> mark_inv prev seen dups s0 s ->
  exists seen', mark_inv (prev ++ pes) seen' (markDuplicates path pes seen dups s).1 s0
    (markDuplicates path pes seen dups s).2.
Proof.
  intros F. revert prev seen dups s. induction F as [|pe pes Hpe F IH]; intros prev seen dups s Hprev I.
  { exists seen. simpl. by rewrite app_nil_r. }
  pose proof (mark_inv_step pe prev seen dups s0 s Hpe Hprev I) as I'.
  assert (Hprev' : Forall (pe_dom r) (prev ++ [pe])) by (apply Forall_app; split; [done|by constructor]).
  rewrite (app_assoc prev [pe] pes : prev ++ pe :: pes = (prev ++ [pe]) ++ pes). cbn [markDuplicates].
  destruct (PathElementSet_Has seen pe); [destruct (PathElementSet_Has dups pe)|]; by eapply IH.
Qed.

Lemma markDuplicates_spec pes s :
  Forall (pe_dom r) pes -> Set_ok r s = true ->
  exists seen, mark_inv pes seen (markDuplicates path pes [] [] s).1 s (markDuplicates path pes [] [] s).2.
Proof.
  intros F Hs. apply (markDuplicates_inv pes [] [] [] s s); [done|constructor|].
  split; try done. intros. by rewrite andb_false_r, orb_false_r.
Qed.
End Duplicates.

(** ** The walker *)
Section Walk.
Context (r : Regime) (sc : Schema).
Implicit Types (path : Path) (s : FSet).

(** The relative paths [Q], below [path]. *)
Definition under path (Q : list Path) : list Path := (fun q => path ++ q) <$> Q.

Lemma mentions_under_nil path p : mentions (under path []) p = false.
Proof. done. Qed.

Lemma under_app path Q1 Q2 : under path (Q1 ++ Q2) = under path Q1 ++ under path Q2.
Proof. apply fmap_app. Qed.

Lemma under_cons path pe Q : under path (cons pe <$> Q) = under (path ++ [pe]) Q.
Proof.
  unfold under. rewrite <-list_fmap_compose. apply list_fmap_ext. intros _ q _. simpl.
  by rewrite <-app_assoc.
Qed.

(** What the walk of a value must do, for every type and starting point. *)
Definition walks (v : value) : Prop := forall tr path s,
  Forall (pe_dom r) path -> Forall (Forall (pe_dom r)) (ownedPaths sc v tr) -> Set_ok r s = true ->
  exists errs s', toFieldSet sc tr (Some v) path s = Ret (errs, s') /\
    adds r s s' (under path (ownedPaths sc v tr)) /\
    (has_types sc v tr = true -> errs = []).

Definition is_duplicate (pes : list PathElement) (pe : PathElement) : bool :=
  (2 <=? occurrences pe pes)%nat.

(** The paths the items loop inserts for an item. *)
Definition loopPaths (t : ListT) (pes : list PathElement) (c : value) : list Path :=
  if is_duplicate pes (itemPE sc t c) then []
  else (cons (itemPE sc t c) <$> ownedPaths sc c (l_ElementType t)) ++ [[itemPE sc t c]].

(** The items loop, given the duplicates of the whole list. *)
Lemma tfs_items_walk t path dups pes l errs0 s :
  Forall walks l -> Forall (pe_dom r) path -> pes_ok r dups = true ->
  (forall pe, pe_dom r pe -> pes_mem pe dups = is_duplicate pes pe) ->
  Forall (fun c => pe_dom r (itemPE sc t c)) l ->
  Forall (Forall (pe_dom r)) (l ≫= loopPaths t pes) -> Set_ok r s = true ->
  exists errs s', tfs_items sc (toFieldSet sc) t path dups l errs0 s = Ret (errs, s') /\
    adds r s s' (under path (l ≫= loopPaths t pes)) /\
    (Forall (fun c => has_types sc c (l_ElementType t) = true) l -> errs0 = [] -> errs = []).
Proof.
  intros W Hpath Hdups Hd. revert errs0 s.
  induction W as [|c l Hc W IH]; intros errs0 s Hpes HQ Hs.
  { exists errs0, s. split_and!; auto using adds_refl. }
  apply Forall_cons in Hpes as [Hpe Hpes]. rewrite bind_cons in HQ |- *.
  apply Forall_app in HQ as [HQc HQ]. cbn [tfs_items].
  rewrite (PathElementSet_Has_mem r), Hd by done. unfold loopPaths at 1 in HQc.
  unfold loopPaths at 1. destruct (is_duplicate pes (itemPE sc t c)).
  - destruct (IH errs0 s) as (errs & s' & -> & Ha & He); [done..|]. exists errs, s'.
    split_and!; auto. intros [_ F]%Forall_cons. by apply He.
  - apply Forall_app in HQc as [HQc _]. rewrite Forall_fmap in HQc.
    assert (Hp2 : Forall (pe_dom r) (path ++ [itemPE sc t c])).
    { apply Forall_app. split; [done|by constructor]. }
    destruct (Hc (l_ElementType t) (path ++ [itemPE sc t c]) s) as (e & s1 & -> & [Hs1 Ha1] & He1);
      [done| |done|].
    { eapply Forall_impl; [exact HQc|]. intros q Hq. by apply Forall_cons in Hq as []. }
    pose proof (adds_Insert r s1 (path ++ [itemPE sc t c]) Hs1 Hp2) as Ha2. simpl.
    destruct (IH (errs0 ++ e) (Set_Insert s1 (path ++ [itemPE sc t c]))) as (errs & s' & -> & Ha & He);
      [done|done|by apply Ha2|].
    exists errs, s'. split_and!; [done| |].
    + rewrite !under_app, under_cons, <-app_assoc.
      eapply adds_trans; [by split|]. by eapply adds_trans.
    + intros [Hcc F]%Forall_cons ->. apply He; [done|]. by rewrite He1.
Qed.

Lemma tfs_visitMapItems_walk t path (m : Map) errs0 s :
  Forall (fun kv => walks kv.2) m -> Forall (pe_dom r) path ->
  let Q := m ≫= (fun kv =>
    (cons (peField kv.1) <$> ownedPaths sc kv.2 (mapFieldType t kv.1)) ++
    (if ownsField t kv.1 kv.2 then [[peField kv.1]] else [])) in
  Forall (Forall (pe_dom r)) Q -> Set_ok r s = true ->
  exists errs s', tfs_visitMapItems (toFieldSet sc) t path m errs0 s = Ret (errs, s') /\
    adds r s s' (under path Q) /\
    (Forall (fun kv => has_types sc kv.2 (mapFieldType t kv.1) = true) m -> errs0 = [] -> errs = []).
Proof.
  intros W Hpath. revert errs0 s. induction W as [|[k x] m Hx W IH]; intros errs0 s Q HQ Hs; subst Q.
  { exists errs0, s. split_and!; auto using adds_refl. }
  rewrite bind_cons in HQ |- *. apply Forall_app in HQ as [HQx HQ].
  cbn [tfs_visitMapItems fst snd] in *. apply Forall_app in HQx as [HQx _]. rewrite Forall_fmap in HQx.
  assert (Hp2 : Forall (pe_dom r) (path ++ [peField k])).
  { apply Forall_app. split; [done|by constructor]. }
  destruct (Hx (mapFieldType t k) (path ++ [peField k]) s) as (e & s1 & Ee & [Hs1 Ha1] & He1);
    [done| |done|].
  { eapply Forall_impl; [exact HQx|]. intros q Hq. by apply Forall_cons in Hq as []. }
  cbn [snd] in Ee. rewrite Ee. simpl.
  set (s2 := if IsNull x || _ then _ else _).
  assert (Ha2 : adds r s1 s2 (under path (if ownsField t k x then [[peField k]] else []))).
  { unfold s2, ownsField. destruct (IsNull x || _); [by apply adds_Insert|]. simpl.
    destruct (FindField t k); [by apply adds_refl|by apply adds_Insert]. }
  destruct (IH (errs0 ++ e) s2) as (errs & s' & -> & Ha & He); [done|by apply Ha2|].
  exists errs, s'. split_and!; [done| |].
  - rewrite !under_app, under_cons, <-app_assoc.
    eapply adds_trans; [by split|]. by eapply adds_trans.
  - intros [Hc F]%Forall_cons ->. apply He; [done|]. by rewrite He1.
Qed.

(** All the paths of an item, as [ownedPaths] lists them. *)
Definition itemPaths (t : ListT) (pes : list PathElement) (c : value) : list Path :=
  (if is_duplicate pes (itemPE sc t c) then []
   else cons (itemPE sc t c) <$> ownedPaths sc c (l_ElementType t)) ++ [[itemPE sc t c]].

Lemma itemPaths_dom t pes l :
  Forall (Forall (pe_dom r)) (l ≫= itemPaths t pes) ->
  Forall (fun c => pe_dom r (itemPE sc t c)) l /\ Forall (Forall (pe_dom r)) (l ≫= loopPaths t pes).
Proof.
  rewrite !Forall_bind. intros F. split; (eapply Forall_impl; [exact F|]); intros c Hc.
  - unfold itemPaths, compose in Hc. apply Forall_app in Hc as [_ Hc]. apply Forall_cons in Hc as [Hc _].
    by apply Forall_cons in Hc as [].
  - unfold itemPaths, loopPaths, compose in *.
    by destruct (is_duplicate pes (itemPE sc t c)); [constructor|].
Qed.

Lemma occurrences_pos pe l : (0 < occurrences pe l)%nat -> Exists (fun x => PathElement_Equals x pe = true) l.
Proof.
  induction l as [|x l IH]; simpl; [lia|]. destruct (PathElement_Equals x pe) eqn:E; [by left|].
  intros H. right. apply IH. lia.
Qed.

(** Marking the duplicates and then visiting the others mentions every item. *)
Lemma mentions_items t path l q x :
  Forall (fun c => pe_dom r (itemPE sc t c)) l -> pe_dom r x ->
  let pes := itemPE sc t <$> l in
  (Path_Equals path q && is_duplicate pes x) || mentions (under path (l ≫= loopPaths t pes)) (q ++ [x]) =
  mentions (under path (l ≫= itemPaths t pes)) (q ++ [x]).
Proof.
  intros Hpes Hx pes.
  assert (Dpes : Forall (pe_dom r) pes) by (unfold pes; by apply Forall_fmap).
  assert (Hsplit : forall f, mentions (under path (l ≫= f)) (q ++ [x]) =
    existsb (fun c => mentions (under path (f c)) (q ++ [x])) l).
  { intros f. clear. induction l as [|c l IH]; [done|].
    rewrite bind_cons, under_app, mentions_app, IH. done. }
  rewrite !Hsplit. apply eq_true_iff_eq. rewrite orb_true_iff, !existsb_exists.
  assert (Hitem : forall c, mentions (under path (itemPaths t pes c)) (q ++ [x]) =
    mentions (under path (loopPaths t pes c)) (q ++ [x]) ||
    (Path_Equals path q && PathElement_Equals (itemPE sc t c) x)).
  { intros c. unfold itemPaths, loopPaths. rewrite under_app, mentions_app. unfold mentions at 2.
    simpl. rewrite Path_Equals_snoc. destruct (is_duplicate pes _); simpl; [by rewrite orb_false_r|].
    rewrite under_app, mentions_app. unfold mentions at 3. simpl. rewrite Path_Equals_snoc, orb_false_r.
    by destruct (mentions _ _), (Path_Equals path q && _). }
  setoid_rewrite Hitem. split.
  - intros [[Hq Hd]%andb_true_iff|(c & Hc & Hm)]; [|exists c; split; [done|by rewrite Hm]].
    apply Nat.leb_le in Hd. assert (E : (0 < occurrences x pes)%nat) by lia.
    apply occurrences_pos, Exists_exists in E as (pe & (c & -> & Hc)%list_elem_of_fmap & E).
    exists c. rewrite <-list_elem_of_In. split; [done|]. by rewrite Hq, E, orb_true_r.
  - intros (c & Hc & [Hm|[Hq E]%andb_true_iff]%orb_true_iff); [right; eauto|].
    apply list_elem_of_In in Hc. rewrite Forall_forall in Hpes. specialize (Hpes c Hc).
    destruct (is_duplicate pes (itemPE sc t c)) eqn:Ed.
    + left. unfold is_duplicate in *. by rewrite Hq, <-(occurrences_Equals r (itemPE sc t c) x).
    + right. exists c. rewrite <-list_elem_of_In. split; [done|]. unfold loopPaths. rewrite Ed.
      rewrite under_app, mentions_app. unfold mentions at 2. simpl.
      by rewrite Path_Equals_snoc, Hq, E, !orb_true_r.
Qed.

Lemma tfs_visitListItems_walk t path l s :
  Forall walks l -> Forall (pe_dom r) path ->
  Forall (Forall (pe_dom r)) (l ≫= itemPaths t (itemPE sc t <$> l)) -> Set_ok r s = true ->
  exists errs s', tfs_visitListItems sc (toFieldSet sc) t path l s = Ret (errs, s') /\
    adds r s s' (under path (l ≫= itemPaths t (itemPE sc t <$> l))) /\
    (Forall (fun c => has_types sc c (l_ElementType t) = true) l -> errs = []).
Proof.
  intros W Hpath HQ Hs. apply itemPaths_dom in HQ as [Hpes HL]. unfold tfs_visitListItems.
  destruct (markDuplicates_spec r path Hpath (itemPE sc t <$> l) s) as [seen [_ Hdo _ Hd Hok HH]];
    [by apply Forall_fmap|done|].
  destruct (markDuplicates path (itemPE sc t <$> l) [] [] s) as [dups s1]. cbn [fst snd] in *.
  destruct (tfs_items_walk t path dups (itemPE sc t <$> l) l [] s1) as (errs & s' & -> & [Ha1 Ha2] & He);
    [done..|].
  exists errs, s'. split_and!; [done| |intros F; by apply He].
  split; [done|]. intros p Hp Hne. rewrite Ha2 by done.
  destruct (path_snoc p Hne) as (q & x & ->). apply Forall_app in Hp as [Hq [Hx _]%Forall_cons].
  rewrite HH, Hd, <-orb_assoc by done. f_equal. by apply mentions_items.
Qed.

(** The step of [toFieldSet], by the alternative that is selected. *)
Lemma toFieldSet_kind tr v path s :
  toFieldSet sc tr (Some v) path s =
  match Resolve sc tr with
  | None => Ret (errorf (MsgNoType (tr_NamedType tr)), s)
  | Some a =>
    match kind_of a v with
    | None => Ret (errorf (MsgInvalidAtom (tr_NamedType tr)), s)
    | Some (KScalar t) => Ret ([], Set_Insert s path)
    | Some (KList t) => tfs_doList sc (toFieldSet sc) (Some v) path t s
    | Some (KMap t) => tfs_doMap (toFieldSet sc) (Some v) path t s
    end
  end.
Proof.
  rewrite toFieldSet_unfold. unfold tfs_body, resolveSchema, kind_of, handleAtom.
  destruct (Resolve sc tr) as [a|]; [|done].
  destruct (a_Map (deduceAtom a (Some v))); [done|].
  destruct (a_Scalar (deduceAtom a (Some v))); [done|].
  by destruct (a_List (deduceAtom a (Some v))).
Qed.

Lemma ownedPaths_kind tr v :
  ownedPaths sc v tr =
  match Resolve sc tr with
  | None => []
  | Some a =>
    match kind_of a v with
    | None => []
    | Some (KScalar _) => [[]]
    | Some (KList t) =>
      if string_eqb (l_ER t) Atomic then [[]]
      else match v with VList l => l ≫= itemPaths t (itemPE sc t <$> l) | _ => [] end
    | Some (KMap t) =>
      if string_eqb (m_ER t) Atomic then [[]]
      else
        match v with
        | VMap m =>
          m ≫= (fun kv =>
            (cons (peField kv.1) <$> ownedPaths sc kv.2 (mapFieldType t kv.1)) ++
            (if ownsField t kv.1 kv.2 then [[peField kv.1]] else []))
        | _ => []
        end
    end
  end.
Proof. by destruct v. Qed.

Lemma adds_here s path :
  Set_ok r s = true -> Forall (pe_dom r) path -> adds r s (Set_Insert s path) (under path [[]]).
Proof. intros. unfold under. simpl. rewrite app_nil_r. by apply adds_Insert. Qed.

Lemma toFieldSet_walks v : walks v.
Proof.
  induction v as [|b|k i|f|f|str|l IH|m IH] using value_rect_nested;
    intros tr path s Hpath HQ Hs; rewrite toFieldSet_kind; rewrite ownedPaths_kind in HQ |- *;
    (destruct (Resolve sc tr) as [a|] eqn:Ea; [|eexists _, s; split_and!; [done|by apply adds_refl|];
      intros (? & ? & ? & _)%has_types_kind; congruence]);
    (destruct (kind_of a _) as [[t|t|t]|] eqn:Ek;
      [eexists _, _; split_and!; [done|by apply adds_here|done]| | |
       eexists _, s; split_and!; [done|by apply adds_refl|];
       intros (? & ? & ? & ? & _)%has_types_kind; congruence]);
    unfold tfs_doList, tfs_doMap; cbn [listValue mapValue IsNull IsList IsMap negb mbind Outcome_bind AsList AsMap];
    (destruct (string_eqb _ Atomic); [eexists _, _; split_and!; [done|by apply adds_here|done]|]);
    try by (eexists _, s; split_and!; [done|by apply adds_refl|done]).
  - destruct (tfs_visitListItems_walk t path l s) as (errs & s' & -> & Ha & He); [done..|].
    exists errs, s'. split_and!; auto. intros (a' & k & Ea' & Ek' & F)%has_types_kind.
    rewrite Ea' in Ea. injection Ea as ->. rewrite Ek in Ek'. injection Ek' as <-. by apply He.
  - destruct (tfs_visitMapItems_walk t path m [] s) as (errs & s' & -> & Ha & He); [done..|].
    exists errs, s'. split_and!; auto. intros (a' & k & Ea' & Ek' & F)%has_types_kind.
    rewrite Ea' in Ea. injection Ea as ->. rewrite Ek in Ek'. injection Ek' as <-. by apply He.
Qed.
End Walk.
