(* ===== verification/Remove.v ===== *)
(** * Package typed: removing and extracting items

    Models [typed/remove.go].  The walker's output [w.out] is the state: [None]
    while it is nil, which [value.NewValueInterface] turns into a null. *)
From S2P Require Import Prelude GoLib GoFloat Value ValueOrder PathElement SortedSlice FieldSet.
From S2P Require Import FieldSetSpec FieldSetOps FieldSetInsert Schema TypedHelpers Validate.

Section RemovingWalker.
Variables (sc : Schema) (shouldExtract : bool).
(** The recursive call of [removeItemsWithSchema] on a child. *)
Variable removeItems : value -> FSet -> TypeRef -> value.

(** The loop of [doList]. *)
Fixpoint remove_items (t : ListT) (toRemove : FSet) (l : list value) (newItems : list value) :
    list value :=
  match l with
  | [] => newItems
  | item :: l' =>
    let pe := itemPE sc t item in
    let has := Set_Has toRemove [pe] in
    if has && negb shouldExtract then remove_items t toRemove l' newItems
    else
      let newItems :=
        if has then newItems ++ [removeItems item toRemove (l_ElementType t)] else newItems in
      let subset := Set_WithPrefix toRemove pe in
      if negb (Set_Empty subset) then
        remove_items t toRemove l' (newItems ++ [removeItems item subset (l_ElementType t)])
      else if shouldExtract then remove_items t toRemove l' newItems
      else remove_items t toRemove l' (newItems ++ [item])
  end.

Definition remove_doList (val : value) (toRemove : FSet) (t : ListT) (out : option value) :
    option value :=
  if negb (IsList val) then out
  else
    let l := AsList val in
    if (length l =? 0)%nat then out
    else if string_eqb (l_ER t) Atomic then if shouldExtract then Some val else out
    else
      let newItems := remove_items t toRemove l [] in
      if (0 <? length newItems)%nat then Some (VList newItems) else out.

(** [fieldTypes]: the declared types of the fields. *)
Definition removeFieldTypes (t : MapT) : list (string * TypeRef) :=
  foldl (fun types f => assoc_set (sf_Name f) (sf_Type f) types) [] (fields_of t).

(** The iteration of [doMap]. *)
Fixpoint remove_entries (t : MapT) (toRemove : FSet) (m : Map) (newMap : Map) : Map :=
  match m with
  | [] => newMap
  | (k, val) :: m' =>
    let pe := peField k in
    let fieldType :=
      match assoc_get k (removeFieldTypes t) with Some ft => ft | None => m_ElementType t end in
    if Set_Has toRemove [pe] then
      remove_entries t toRemove m'
        (if shouldExtract then assoc_set k (removeItems val toRemove fieldType) newMap else newMap)
    else
      let subset := Set_WithPrefix toRemove pe in
      if negb (Set_Empty subset) then
        remove_entries t toRemove m' (assoc_set k (removeItems val subset fieldType) newMap)
      else if shouldExtract then remove_entries t toRemove m' newMap
      else remove_entries t toRemove m' (assoc_set k val newMap)
  end.

Definition remove_doMap (val : value) (toRemove : FSet) (t : MapT) (out : option value) :
    option value :=
  if negb (IsMap val) then out
  else
    let m := AsMap val in
    if (length m =? 0)%nat then out
    else if string_eqb (m_ER t) Atomic then if shouldExtract then Some val else out
    else
      let newMap := remove_entries t toRemove m [] in
      if (0 <? length newMap)%nat then Some (VMap newMap) else out.

Definition remove_handler (val : value) (toRemove : FSet) : atomHandler (option value) :=
  mkAtomHandler
    (fun _ _ => Ret ([], Some val))
    (fun t out => Ret ([], remove_doList val toRemove t out))
    (fun t out => Ret ([], remove_doMap val toRemove t out)).

(** [removeItemsWithSchema] on a value that is not nil. *)
Definition remove_body (val : value) (toRemove : FSet) (tr : TypeRef) : value :=
  match resolveSchema sc tr (Some val) (remove_handler val toRemove) None with
  | Ret (_, Some out) => out
  | _ => VNull
  end.
End RemovingWalker.

Fixpoint remove_fuel (n : nat) (sc : Schema) (shouldExtract : bool) : value -> FSet -> TypeRef -> value :=
  match n with
  | O => fun _ _ _ => VNull
  | S n => remove_body sc shouldExtract (remove_fuel n sc shouldExtract)
  end.

Definition removeItemsWithSchema (val : value) (toRemove : FSet) (sc : Schema) (tr : TypeRef)
    (shouldExtract : bool) : value :=
  remove_fuel (S (height val)) sc shouldExtract val toRemove tr.

(** ** The fuel is enough *)

Lemma remove_items_ext sc ex rec1 rec2 t s l acc :
  (forall c s' tr, c ∈ l -> rec1 c s' tr = rec2 c s' tr) ->
  remove_items sc ex rec1 t s l acc = remove_items sc ex rec2 t s l acc.
Proof.
  revert acc. induction l as [|c l IH]; intros acc H; [done|]. simpl.
  assert (IH' : forall acc, remove_items sc ex rec1 t s l acc = remove_items sc ex rec2 t s l acc).
  { intros. apply IH. intros. apply H. by right. }
  rewrite !IH', !(H c) by left. done.
Qed.

Lemma remove_entries_ext ex rec1 rec2 t s (m : Map) acc :
  (forall kv s' tr, kv ∈ m -> rec1 kv.2 s' tr = rec2 kv.2 s' tr) ->
  remove_entries ex rec1 t s m acc = remove_entries ex rec2 t s m acc.
Proof.
  revert acc. induction m as [|[k x] m IH]; intros acc H; [done|]. simpl.
  assert (IH' : forall acc, remove_entries ex rec1 t s m acc = remove_entries ex rec2 t s m acc).
  { intros. apply IH. intros. apply H. by right. }
  rewrite !IH'. pose proof (fun s tr => H (k, x) s tr ltac:(left)) as Hx. simpl in Hx.
  by rewrite !Hx.
Qed.

Lemma remove_body_ext sc ex rec1 rec2 v s tr :
  (forall c s' tr', c ∈ children v -> rec1 c s' tr' = rec2 c s' tr') ->
  remove_body sc ex rec1 v s tr = remove_body sc ex rec2 v s tr.
Proof.
  intros H. unfold remove_body, resolveSchema, handleAtom.
  destruct (Resolve sc tr) as [a|]; [|done].
  destruct (a_Map (deduceAtom a (Some v))) as [t|].
  - simpl. unfold remove_doMap. destruct v as [| | | | | | |m]; try done. simpl.
    rewrite (remove_entries_ext ex rec1 rec2); [done|]. intros. apply H. by apply list_elem_of_fmap_2.
  - destruct (a_Scalar (deduceAtom a (Some v))); [done|].
    destruct (a_List (deduceAtom a (Some v))) as [t|]; [|done].
    simpl. unfold remove_doList. destruct v as [| | | | | |l|]; try done. simpl.
    rewrite (remove_items_ext sc ex rec1 rec2); [done|]. auto.
Qed.

Lemma remove_fuel_enough sc ex n n' v s tr :
  (height v < n)%nat -> (height v < n')%nat ->
  remove_fuel n sc ex v s tr = remove_fuel n' sc ex v s tr.
Proof.
  revert n' v s tr. induction n as [|n IH]; intros [|n'] v s tr Hn Hn'; try lia.
  simpl. apply remove_body_ext. intros c s' tr' Hc%height_child. apply IH; lia.
Qed.

Lemma remove_unfold v s sc tr ex :
  removeItemsWithSchema v s sc tr ex =
  remove_body sc ex (fun v s tr => removeItemsWithSchema v s sc tr ex) v s tr.
Proof.
  unfold removeItemsWithSchema at 1. simpl. apply remove_body_ext.
  intros c s' tr' Hc%height_child. apply remove_fuel_enough; lia.
Qed.

(** ** What removal removes *)

Lemma removeFieldTypes_FindField t k :
  assoc_get k (removeFieldTypes t) = sf_Type <$> FindField t k.
Proof.
  unfold removeFieldTypes, FindField, fieldIndex.
  assert (H : forall fs (i1 : list (string * TypeRef)) i2,
    (forall k, assoc_get k i1 = sf_Type <$> assoc_get k i2) ->
    assoc_get k (foldl (fun types f => assoc_set (sf_Name f) (sf_Type f) types) i1 fs) =
    sf_Type <$> assoc_get k (foldl (fun idx f => assoc_set (sf_Name f) f idx) i2 fs)).
  { induction fs as [|f fs IH]; intros i1 i2 H; [done|]. simpl. apply IH. intros k'.
    rewrite !assoc_get_set, H. by destruct (string_eqb (sf_Name f) k'). }
  by apply H.
Qed.

(** One step of [removeItemsWithSchema], by the alternative that is selected. *)
Lemma remove_kind v s sc tr ex :
  removeItemsWithSchema v s sc tr ex =
  match Resolve sc tr with
  | None => VNull
  | Some a =>
    match kind_of a v with
    | None => VNull
    | Some (KScalar _) => v
    | Some (KList t) =>
      default VNull (remove_doList sc ex (fun v s tr => removeItemsWithSchema v s sc tr ex) v s t None)
    | Some (KMap t) =>
      default VNull (remove_doMap ex (fun v s tr => removeItemsWithSchema v s sc tr ex) v s t None)
    end
  end.
Proof.
  rewrite remove_unfold. unfold remove_body, resolveSchema, kind_of, handleAtom.
  destruct (Resolve sc tr) as [a|]; [|done].
  destruct (a_Map (deduceAtom a (Some v))); [done|].
  destruct (a_Scalar (deduceAtom a (Some v))); [done|].
  by destruct (a_List (deduceAtom a (Some v))).
Qed.

(** What becomes of the value of a key. *)
Definition remove_entry (rec : value -> FSet -> TypeRef -> value) (t : MapT) (s : FSet)
    (k : string) (x : value) : option value :=
  if Set_Has s [peField k] then None
  else
    let subset := Set_WithPrefix s (peField k) in
    Some (if Set_Empty subset then x else rec x subset (mapFieldType t k)).

Lemma remove_entries_get rec t s (m acc : Map) k :
  NoDup (assoc_keys m) ->
  assoc_get k (remove_entries false rec t s m acc) =
  match assoc_get k m with
  | Some x => match remove_entry rec t s k x with Some y => Some y | None => assoc_get k acc end
  | None => assoc_get k acc
  end.
Proof.
  revert acc. induction m as [|[k' x] m IH]; intros acc ND; [done|].
  unfold assoc_keys in ND. simpl in ND. apply NoDup_cons in ND as [Hn ND].
  cbn [remove_entries]. cbv zeta. rewrite removeFieldTypes_FindField.
  assert (Et : (match sf_Type <$> FindField t k' with Some ft => ft | None => m_ElementType t end) =
    mapFieldType t k') by (unfold mapFieldType; by destruct (FindField t k')).
  rewrite Et. clear Et.
  assert (Estep : forall acc', assoc_get k (remove_entries false rec t s m acc') =
    match assoc_get k m with
    | Some x => match remove_entry rec t s k x with Some y => Some y | None => assoc_get k acc' end
    | None => assoc_get k acc' end) by (intros; by apply IH).
  cbn [assoc_get]. destruct (string_eqb k' k) eqn:Ek.
  - apply string_eqb_true in Ek as ->. apply assoc_get_None in Hn.
    unfold remove_entry. destruct (Set_Has s [peField k]); [by rewrite Estep, Hn|].
    cbv zeta. destruct (Set_Empty (Set_WithPrefix s (peField k)));
      cbn [negb]; by rewrite Estep, Hn, assoc_get_set, string_eqb_refl.
  - destruct (Set_Has s [peField k']); [apply Estep|].
    cbv zeta. destruct (Set_Empty (Set_WithPrefix s (peField k')));
      cbn [negb]; by rewrite Estep, assoc_get_set, Ek.
Qed.

(** Follow field names through maps. *)
Fixpoint valueAt (v : value) (names : list string) : option value :=
  match names with
  | [] => Some v
  | n :: names' =>
    match v with
    | VMap m => match assoc_get n m with Some x => valueAt x names' | None => None end
    | _ => None
    end
  end.

Lemma valueAt_not_map v n names : IsMap v = false -> valueAt v (n :: names) = None.
Proof. by destruct v. Qed.

Lemma remove_doList_not_map sc ex rec v s t : IsMap (default VNull (remove_doList sc ex rec v s t None)) = false.
Proof.
  unfold remove_doList. destruct v as [| | | | | |l|]; try done. simpl.
  repeat (case_match; try done).
Qed.

Lemma Set_Has_nonempty s p : Set_Has s p = true -> Set_Empty s = false.
Proof. intros H. apply not_true_iff_false. intros E. by rewrite Set_Empty_Has in H. Qed.

Lemma scalar_ok_not_map t m : ~ scalar_ok t (VMap m).
Proof.
  intros [H|[[_ [H|H]]|[[_ H]|[[_ H]|[_ [H|[H|[H|H]]]]]]]]; discriminate.
Qed.

Lemma remove_gone_step r sc dup v tr s n names :
  value_ok r v = true -> conforms sc dup tr v -> Set_wf r s = true ->
  Set_Has s (peField n :: (peField <$> names)) = true ->
  (forall x s' tr', value_ok r x = true -> conforms sc dup tr' x -> Set_wf r s' = true -> names <> [] ->
    Set_Has s' (peField <$> names) = true ->
    valueAt (removeItemsWithSchema x s' sc tr' false) names = None) ->
  valueAt (removeItemsWithSchema v s sc tr false) (n :: names) = None.
Proof.
  intros Hv Hc Hs HH IH. rewrite remove_kind.
  destruct (conforms_Resolve _ _ _ _ Hc) as [a Ea]. rewrite Ea.
  apply (conforms_kind _ _ _ _ _ Ea) in Hc.
  destruct (kind_of a v) as [[t|t|t]|]; [|by rewrite valueAt_not_map by apply remove_doList_not_map| |done].
  { apply valueAt_not_map. destruct v; try done. by apply scalar_ok_not_map in Hc. }
  unfold remove_doMap. destruct v as [| | | | | | |m]; try done. cbn [IsMap negb AsMap].
  destruct (_ =? _)%nat; [done|]. destruct (string_eqb _ _); [done|].
  destruct (_ <? _)%nat; [|done]. cbn [from_option id valueAt].
  apply value_ok_map in Hv as [ND Fv]. rewrite remove_entries_get by done.
  destruct (assoc_get n m) as [x|] eqn:Ex; [|done]. apply assoc_get_Some in Ex.
  rewrite Forall_forall in Fv. simpl in Hc. rewrite Forall_forall in Hc.
  destruct (Hc _ Ex) as (tr' & Et & Hcx). cbn [fst snd] in *. unfold remove_entry.
  destruct (Set_Has s [peField n]) eqn:E1; [done|]. cbv zeta.
  destruct names as [|n2 names]; [rewrite fmap_nil in HH; congruence|].
  rewrite fmap_cons, (Set_Has_cons r) in HH by done.
  rewrite (Set_WithPrefix_child r) by done.
  destruct (child (peField n) s) as [s'|] eqn:Es; [|done]. cbn [from_option id].
  rewrite (Set_Has_nonempty _ _ HH). apply IH; [by apply (Fv _ Ex)| |by eapply child_wf|done|done].
  unfold mapFieldType. unfold fieldType in Et. destruct (FindField t n); [by injection Et as <-|].
  destruct (TypeRef_isZero _); [done|by injection Et as <-].
Qed.

Lemma remove_gone r sc dup v tr s names :
  value_ok r v = true -> conforms sc dup tr v -> Set_wf r s = true -> names <> [] ->
  Set_Has s (peField <$> names) = true ->
  valueAt (removeItemsWithSchema v s sc tr false) names = None.
Proof.
  revert v tr s. induction names as [|n names IH]; intros v tr s Hv Hc Hs Hne HH; [done|].
  eapply remove_gone_step; eauto.
Qed.
