(* ===== verification/MapZip.v ===== *)
(** * Package value: what MapZip visits

    With [Unordered] traversal and a callback that never stops, [MapZipUsing]
    visits each key of the two maps once, with its two optional values. *)
From S2P Require Import Prelude GoLib GoFloat Value ValueOrder.

Lemma filter_all {A} (P : A -> Prop) `{!forall x, Decision (P x)} l : Forall P l -> base.filter P l = l.
Proof. induction 1 as [|x l Hx F IH]; [done|]. by rewrite filter_cons_True, IH. Qed.

Lemma filter_none {A} (P : A -> Prop) `{!forall x, Decision (P x)} l :
  Forall (fun x => ~ P x) l -> base.filter P l = [].
Proof. induction 1 as [|x l Hx F IH]; [done|]. by rewrite filter_cons_False. Qed.

(** The visits: the entries of [lhs], then the entries of [rhs] that are not in [lhs]. *)
Definition zipEntries (lhs rhs : option Map) : list (string * (option value * option value)) :=
  ((fun kv => (kv.1, (Some kv.2, map_Get rhs kv.1))) <$> default [] lhs) ++
  ((fun kv => (kv.1, (None, Some kv.2))) <$>
    base.filter (fun kv : string * value => map_Get lhs kv.1 = None) (default [] rhs)).

Section ZipFold.
Context {S : Type} (step : string -> option value -> option value -> S -> S).

Definition fold_visits (l : list (string * (option value * option value))) (s : S) : S :=
  foldl (fun s e => step e.1 e.2.1 e.2.2 s) s l.

Lemma map_Iterate_always (f : string -> value -> S -> S) m s :
  map_Iterate (fun k v s => (f k v s, true)) m s = (foldl (fun s kv => f kv.1 kv.2 s) s m, true).
Proof. revert s. induction m as [|[k v] m IH]; intros s; simpl; [done|]. apply IH. Qed.

Lemma map_Iterate_filter (P : string -> Prop) `{!forall k, Decision (P k)} (f : string -> value -> S -> S) m s :
  map_Iterate (fun k v s => if bool_decide (P k) then (f k v s, true) else (s, true)) m s =
  (foldl (fun s kv => f kv.1 kv.2 s) s (base.filter (fun kv => P kv.1) m), true).
Proof.
  revert s. induction m as [|[k v] m IH]; intros s; [done|]. simpl.
  rewrite filter_cons. simpl. destruct (decide (P k)) as [HP|HP].
  - rewrite bool_decide_eq_true_2 by done. simpl. apply IH.
  - rewrite bool_decide_eq_false_2 by done. apply IH.
Qed.

Lemma map_Iterate_same (f g : string -> value -> S -> S * bool) m s :
  (forall k v s, f k v s = g k v s) -> map_Iterate f m s = map_Iterate g m s.
Proof.
  intros H. revert s. induction m as [|[k v] m IH]; intros s; simpl; [done|].
  rewrite H. destruct (g k v s) as [s' []]; [apply IH|done].
Qed.

Lemma foldl_fmap_visits {A} (f : A -> string * (option value * option value)) l s :
  foldl (fun s e => step e.1 e.2.1 e.2.2 s) s (f <$> l) =
  foldl (fun s a => step (f a).1 (f a).2.1 (f a).2.2 s) s l.
Proof. revert s. induction l as [|a l IH]; intros s; simpl; [done|]. apply IH. Qed.

Lemma MapZipUsing_visits lhs rhs s :
  (MapZipUsing lhs rhs Unordered (fun k l r s => (step k l r s, true)) s).1 =
  fold_visits (zipEntries lhs rhs) s.
Proof.
  unfold zipEntries, fold_visits. rewrite foldl_app.
  destruct lhs as [l|]; [|destruct rhs as [m|]; [|done]].
  - simpl. unfold unorderedMapZip. destruct (map_Empty (Some l) && map_Empty rhs) eqn:E.
    { apply andb_true_iff in E as [El Er]. destruct l; [|done]. simpl.
      destruct rhs as [[|]|]; try done. }
    rewrite map_Iterate_always, !foldl_fmap_visits. simpl.
    destruct rhs as [m|]; [|done]. simpl.
    rewrite (map_Iterate_same _ (fun k v s => if bool_decide (assoc_get k l = None)
      then (step k None (Some v) s, true) else (s, true))).
    + by rewrite (map_Iterate_filter (fun k => assoc_get k l = None)).
    + intros k v s'. case_bool_decide as Ek; [by rewrite Ek|]. by destruct (assoc_get k l).
  - simpl. unfold unorderedMapZip. destruct m as [|kv m]; [done|]. simpl map_Empty. cbn [andb].
    rewrite map_Iterate_always. simpl negb. cbv iota. simpl.
    rewrite foldl_fmap_visits. simpl. rewrite filter_all; [done|by apply Forall_true].
Qed.
End ZipFold.

(** The values a visit shows are values of the two maps. *)
Lemma zipEntries_lhs lhs rhs k v o :
  (k, (Some v, o)) ∈ zipEntries lhs rhs -> exists m, lhs = Some m /\ (k, v) ∈ m.
Proof.
  unfold zipEntries. rewrite elem_of_app. intros [H|H].
  - apply list_elem_of_fmap in H as ([k' v'] & [= -> -> ->] & H). destruct lhs; [eauto|].
    by apply not_elem_of_nil in H.
  - by apply list_elem_of_fmap in H as (kv & [= ] & _).
Qed.

Lemma zipEntries_rhs lhs rhs k v o :
  (k, (o, Some v)) ∈ zipEntries lhs rhs -> exists m, rhs = Some m /\ (k, v) ∈ m.
Proof.
  unfold zipEntries. rewrite elem_of_app. intros [H|H].
  - apply list_elem_of_fmap in H as ([k' v'] & [= -> -> E] & H).
    destruct rhs as [m|]; [|done]. exists m. split; [done|]. simpl in E. by apply assoc_get_Some.
  - apply list_elem_of_fmap in H as ([k' v'] & [= -> -> ->] & H).
    apply list_elem_of_filter in H as [_ H]. destruct rhs; [eauto|by apply not_elem_of_nil in H].
Qed.

Lemma zipEntries_some lhs rhs k : (k, (None, None)) ∉ zipEntries lhs rhs.
Proof.
  unfold zipEntries. rewrite elem_of_app. intros [H|H];
    by apply list_elem_of_fmap in H as (kv & [= ] & _).
Qed.

(** A map zipped with itself. *)
Lemma zipEntries_diag m :
  NoDup (assoc_keys m) ->
  zipEntries (Some m) (Some m) = (fun kv => (kv.1, (Some kv.2, Some kv.2))) <$> m.
Proof.
  intros ND. unfold zipEntries. simpl.
  assert (E : base.filter (fun kv : string * value => assoc_get kv.1 m = None) m = []).
  { apply filter_none, Forall_forall. intros [k v] H. simpl.
    by rewrite (proj2 (assoc_get_NoDup k v m ND) H). }
  simpl in E. rewrite E, app_nil_r. apply list_fmap_ext. intros i [k v] H. simpl.
  apply list_elem_of_lookup_2 in H. by rewrite (proj2 (assoc_get_NoDup k v m ND) H).
Qed.

(** The visits of two maps with distinct keys: one for each key of either map. *)
Section ZipKeys.
Context (lhs rhs : option Map).
Hypothesis NL : NoDup (assoc_keys (default [] lhs)).
Hypothesis NR : NoDup (assoc_keys (default [] rhs)).

Lemma map_Get_default (m : option Map) k : map_Get m k = assoc_get k (default [] m).
Proof. by destruct m. Qed.

Lemma zipEntries_values e : e ∈ zipEntries lhs rhs -> e.2 = (map_Get lhs e.1, map_Get rhs e.1).
Proof.
  unfold zipEntries. rewrite elem_of_app. intros [H|H]; apply list_elem_of_fmap in H as ([k v] & -> & H); simpl.
  - by rewrite !map_Get_default, (proj2 (assoc_get_NoDup k v _ NL) H).
  - apply list_elem_of_filter in H as [E H]. simpl in E.
    by rewrite E, map_Get_default, (proj2 (assoc_get_NoDup k v _ NR) H).
Qed.

Lemma zipEntries_visits k :
  (map_Get lhs k <> None \/ map_Get rhs k <> None) <-> (k, (map_Get lhs k, map_Get rhs k)) ∈ zipEntries lhs rhs.
Proof.
  split.
  - intros H. unfold zipEntries. apply elem_of_app. destruct (map_Get lhs k) as [v|] eqn:EL.
    + left. rewrite map_Get_default in EL. apply assoc_get_Some in EL.
      apply list_elem_of_fmap. by exists (k, v).
    + right. destruct H as [H|H]; [done|]. destruct (map_Get rhs k) as [v|] eqn:ER; [|done].
      rewrite map_Get_default in ER. apply assoc_get_Some in ER.
      apply list_elem_of_fmap. exists (k, v). split; [done|]. by apply list_elem_of_filter.
  - intros H. destruct (map_Get lhs k), (map_Get rhs k); auto. by apply zipEntries_some in H.
Qed.

Lemma zipEntries_NoDup : NoDup (zipEntries lhs rhs).*1.
Proof.
  unfold zipEntries. rewrite fmap_app, <-!list_fmap_compose. apply NoDup_app. split_and!.
  - exact NL.
  - intros k Hk Hk'. apply list_elem_of_fmap in Hk' as ([k' v] & -> & H). apply list_elem_of_filter in H as [E _].
    simpl in *. rewrite map_Get_default in E. by apply assoc_get_None in E.
  - revert NR. unfold assoc_keys. generalize (default [] rhs) as m. induction m as [|[k v] m IH]; intros N; [constructor|].
    apply NoDup_cons in N as [Hk N]. rewrite filter_cons. destruct (decide _); [|by apply IH]. apply NoDup_cons. split; [|by apply IH].
    intros H. apply Hk. apply list_elem_of_fmap in H as ([k' v'] & E & H). apply list_elem_of_filter in H as [_ H].
    simpl in E. subst k'. by apply (list_elem_of_fmap_2 fst _ (k, v')).
Qed.
End ZipKeys.
