(* ===== verification/ReflectZip.v ===== *)
(** * Traversing two reflected values

    [structZip] and [unorderedReflectZip] are the fast paths of [Zip] for two
    structs of one type and two maps.  They visit what the general traversal
    visits in the unstructured forms: the keys of either, in the order of the
    keys for structs, with both optional values. *)
From S2P Require Import Prelude GoLib GoFloat Value ValueOrder Schema TypedHelpers GoReflect JsonTag ReflectCache.
From S2P Require Import ReflectCacheSpec ValueReflect ReflectSpec MapZip.

Abbreviation Visit A := (string * (option A * option A))%type.

(** A traversal, until the callback returns false. *)
Fixpoint foldVisits {A S} (fn : string -> option A -> option A -> S -> Outcome (S * bool))
    (vs : list (Visit A)) (s : S) : Outcome (S * bool) :=
  match vs with
  | [] => Ret (s, true)
  | (k, (l, r)) :: vs' => res ← fn k l r s; if res.2 : bool then foldVisits fn vs' res.1 else Ret (res.1, false)
  end.

(** The visits of the general traversal in the order of the keys. *)
Definition lexicalVisits (lhs rhs : Map) : list (Visit value) :=
  (fun k => (k, (assoc_get k lhs, assoc_get k rhs))) <$> orderedKeys (Some lhs) (Some rhs).

Fixpoint foldPure {S} (fn : string -> option value -> option value -> S -> S * bool) (vs : list (Visit value)) (s : S) : S * bool :=
  match vs with
  | [] => (s, true)
  | (k, (l, r)) :: vs' => let '(s', ok) := fn k l r s in if ok : bool then foldPure fn vs' s' else (s', false)
  end.

Lemma lexicalVisits_zip {S} (fn : string -> option value -> option value -> S -> S * bool) lhs rhs s :
  lexicalKeyOrderedMapZip fn (Some lhs) (Some rhs) s = foldPure fn (lexicalVisits lhs rhs) s.
Proof.
  unfold lexicalKeyOrderedMapZip, lexicalVisits. destruct (_ && _) eqn:E.
  { apply andb_true_iff in E as [E1%Nat.eqb_eq E2%Nat.eqb_eq]. by destruct lhs, rhs. }
  revert s. induction (orderedKeys _ _) as [|k ks IH]; intros s; [done|]. cbn. destruct (fn _ _ _ s) as [s' []]; auto.
Qed.

(** ** Strictly sorted lists of strings *)

Lemma StronglySorted_sublist {A} (P : A -> A -> Prop) l1 l2 : l1 `sublist_of` l2 -> StronglySorted P l2 -> StronglySorted P l1.
Proof.
  induction 1 as [|x l1 l2 H IH|x l1 l2 H IH]; intros Hs; [done| |]; apply StronglySorted_inv in Hs as [Hs F]; [|auto].
  constructor; [auto|]. rewrite Forall_forall in F |- *. intros y Hy. apply F. by eapply elem_of_sublist.
Qed.

Lemma sorted_strings_unique l1 l2 :
  StronglySorted str_lt l1 -> StronglySorted str_lt l2 -> NoDup l1 -> NoDup l2 -> (forall k, k ∈ l1 <-> k ∈ l2) -> l1 = l2.
Proof.
  intros S1 S2 N1 N2 H. apply (StronglySorted_unique_strong str_lt); [|done|done|by apply NoDup_Permutation].
  intros a b _ _. unfold str_lt. rewrite (cmp_antisym strings_Compare (fun _ => True) a b) by done. lia.
Qed.

Lemma assoc_get_key {V} k (v : V) m : assoc_get k m = Some v -> k ∈ assoc_keys m.
Proof. intros H%assoc_get_Some. by apply (list_elem_of_fmap_2 fst _ (k, v)). Qed.

Lemma orderedKeys_NoDup lhs rhs : NoDup (assoc_keys lhs) -> NoDup (assoc_keys rhs) -> NoDup (orderedKeys (Some lhs) (Some rhs)).
Proof.
  intros NL NR. unfold orderedKeys. rewrite sort_stable_perm. apply NoDup_app. split_and!; [done| |by apply NoDup_filter].
  intros k Hk [Hn _]%list_elem_of_filter. by apply assoc_get_None in Hn.
Qed.

(** ** The visits of the fast path for maps *)

(** The entries of [rhs], then the entries of [lhs] that are not in [rhs]. *)
Definition rightVisits (lhs rhs : Map) : list (Visit value) :=
  ((fun kv => (kv.1, (assoc_get kv.1 lhs, Some kv.2))) <$> rhs) ++
  ((fun kv => (kv.1, (Some kv.2, None))) <$> base.filter (fun kv : string * value => kv.1 ∉ assoc_keys rhs) lhs).

Lemma rightVisits_elem lhs rhs e :
  NoDup (assoc_keys lhs) -> NoDup (assoc_keys rhs) ->
  e ∈ rightVisits lhs rhs <-> e.2 = (assoc_get e.1 lhs, assoc_get e.1 rhs) /\ e.2 <> (None, None).
Proof.
  intros NL NR. unfold rightVisits. rewrite elem_of_app, !list_elem_of_fmap. setoid_rewrite list_elem_of_filter. split.
  - intros [([k v] & -> & Hv)|([k v] & -> & Hk & Hv)]; cbn [fst snd] in *.
    + by rewrite (proj2 (assoc_get_NoDup k v rhs NR) Hv).
    + apply assoc_get_None in Hk. by rewrite Hk, (proj2 (assoc_get_NoDup k v lhs NL) Hv).
  - destruct e as [k [o1 o2]]. cbn [fst snd]. intros ([= -> ->] & Hn). destruct (assoc_get k rhs) as [v|] eqn:Er.
    + left. exists (k, v). split; [done|]. by apply assoc_get_Some.
    + right. destruct (assoc_get k lhs) as [v|] eqn:El; [|done]. exists (k, v). split_and!; [done|by apply assoc_get_None|by apply assoc_get_Some].
Qed.

Lemma rightVisits_NoDup lhs rhs : NoDup (assoc_keys lhs) -> NoDup (assoc_keys rhs) -> NoDup (rightVisits lhs rhs).
Proof.
  intros NL NR. apply (NoDup_fmap_1 fst). unfold rightVisits. rewrite fmap_app, <-!list_fmap_compose. apply NoDup_app. split_and!.
  - exact NR.
  - intros k (kv & -> & Hkv)%list_elem_of_fmap (kv' & E & Hkv')%list_elem_of_fmap. cbn in E.
    apply list_elem_of_filter in Hkv' as [Hn _]. apply Hn. rewrite <-E. by apply (list_elem_of_fmap_2 fst).
  - eapply sublist_NoDup; [exact NL|]. apply (fmap_sublist fst), sublist_filter.
Qed.

(** The same visits as the general traversal, in another order. *)
Lemma rightVisits_perm lhs rhs :
  NoDup (assoc_keys lhs) -> NoDup (assoc_keys rhs) -> rightVisits lhs rhs ≡ₚ zipEntries (Some lhs) (Some rhs).
Proof.
  intros NL NR. apply NoDup_Permutation.
  - by apply rightVisits_NoDup.
  - apply (NoDup_fmap_1 fst). by apply zipEntries_NoDup.
  - intros e. rewrite rightVisits_elem by done. pose proof (zipEntries_visits (Some lhs) (Some rhs) e.1) as Hv. cbn [map_Get] in Hv.
    split.
    + intros [E Hn]. destruct e as [k o]. cbn [fst snd] in *. subst o. apply Hv.
      destruct (assoc_get k lhs); [by left|]. destruct (assoc_get k rhs); [by right|done].
    + intros He. pose proof (zipEntries_values (Some lhs) (Some rhs) NL NR e He) as Ee. cbn [map_Get] in Ee. split; [done|].
      intros E. clear Ee. destruct e as [k o]. cbn [fst snd] in *. subst o. by apply zipEntries_some in He.
Qed.

(** Visits that show the same keys, with related values. *)
Definition visits_rel {A} (R1 R2 : A -> value -> Prop) (a : Visit A) (b : Visit value) : Prop :=
  a.1 = b.1 /\ option_Forall2 R1 a.2.1 b.2.1 /\ option_Forall2 R2 a.2.2 b.2.2.
Definition visit_rel {A} (R : A -> value -> Prop) : Visit A -> Visit value -> Prop := visits_rel R R.

(** ** Structs *)
Section Structs.
Context {Pg : GoProgram} {J : GoJson} (R : valueReflect -> value -> Prop).

Fixpoint fieldVisits (fields : list FieldInfo) (os1 os2 : list (option value)) : list (Visit value) :=
  match fields, os1, os2 with
  | f :: fields, o1 :: os1, o2 :: os2 =>
    match o1, o2 with
    | None, None => fieldVisits fields os1 os2
    | _, _ => (fi_name f, (o1, o2)) :: fieldVisits fields os1 os2
    end
  | _, _, _ => []
  end.

Lemma zipOperand_shows f v o :
  field_shows R v f o -> exists fv omit x, GetFrom f v = Ret fv /\ CanOmit f fv = Ret omit /\ zipOperand f omit fv = Ret x /\
    option_Forall2 R x o /\ omit = match o with None => true | Some _ => false end.
Proof.
  intros (fv & omit & Eg & Eo & Et & Ho). destruct o as [u|].
  - destruct Ho as [-> Hp]. destruct (Hp (Some (fi_type f)) None) as (r & Er & Hr); [right; congruence|].
    exists fv, false, (Some r). unfold zipOperand. rewrite Er. split_and!; try done. by constructor.
  - subst. exists fv, true, None. split_and!; try done. constructor.
Qed.

Lemma zipFields_visits d1 d2 fields os1 os2 :
  Forall2 (field_shows R d1) fields os1 -> Forall2 (field_shows R d2) fields os2 ->
  exists vs, Forall2 (visit_rel R) vs (fieldVisits fields os1 os2) /\
    forall S (fn : string -> option valueReflect -> option valueReflect -> S -> Outcome (S * bool)) s,
      zipFields fn fields d1 d2 s = foldVisits fn vs s.
Proof.
  intros H1. revert os2. induction H1 as [|f o1 fields os1 Hf1 H1 IH]; intros os2 H2; inversion_clear H2 as [|? o2 ? os2' Hf2 H2'];
    [by exists []|].
  destruct (IH _ H2') as (vs & Hvs & Hfold).
  destruct (zipOperand_shows f d1 o1 Hf1) as (v1 & m1 & x1 & G1 & O1 & Z1 & R1 & ->).
  destruct (zipOperand_shows f d2 o2 Hf2) as (v2 & m2 & x2 & G2 & O2 & Z2 & R2 & ->).
  assert (Hgo : forall S fn s, zipFields fn (f :: fields) d1 d2 s =
    if match o1 with None => true | _ => false end && match o2 with None => true | _ => false end then foldVisits fn vs s
    else foldVisits (A := valueReflect) (S := S) fn ((fi_name f, (x1, x2)) :: vs) s).
  { intros S fn s. cbn [zipFields foldVisits]. rewrite G1. cbn. rewrite G2. cbn. rewrite O1. cbn. rewrite O2. cbn.
    destruct (_ && _); [apply Hfold|]. rewrite Z1. cbn. rewrite Z2. cbn. destruct (fn _ _ _ s) as [|[s' []]]; cbn; auto. }
  destruct o1, o2; [exists ((fi_name f, (x1, x2)) :: vs)..|exists vs]; (split; [|intros; apply Hgo]); cbn [fieldVisits]; try constructor; done.
Qed.

Lemma fieldVisits_sublist fields os1 os2 : (fieldVisits fields os1 os2).*1 `sublist_of` (fi_name <$> fields).
Proof.
  revert os1 os2. induction fields as [|f fields IH]; intros [|o1 os1] [|o2 os2]; cbn; try apply sublist_nil_l.
  destruct o1, o2; cbn; constructor; apply IH.
Qed.

Lemma fieldVisits_elem fields os1 os2 e :
  length os1 = length fields -> length os2 = length fields ->
  e ∈ fieldVisits fields os1 os2 <->
  exists i f o1 o2, fields !! i = Some f /\ os1 !! i = Some o1 /\ os2 !! i = Some o2 /\ e = (fi_name f, (o1, o2)) /\
    (is_Some o1 \/ is_Some o2).
Proof.
  revert os1 os2. induction fields as [|f fields IH]; intros [|o1 os1] [|o2 os2] L1 L2; simplify_eq/=.
  { split; [by intros ?%not_elem_of_nil|]. by intros (i & f & ? & ? & ? & _). }
  assert (Hn : (exists i f' o1' o2', (f :: fields) !! i = Some f' /\ (o1 :: os1) !! i = Some o1' /\ (o2 :: os2) !! i = Some o2' /\
      e = (fi_name f', (o1', o2')) /\ (is_Some o1' \/ is_Some o2')) <->
    (e = (fi_name f, (o1, o2)) /\ (is_Some o1 \/ is_Some o2)) \/ e ∈ fieldVisits fields os1 os2).
  { rewrite IH by done. split.
    - intros ([|i] & f' & o1' & o2' & E1 & E2 & E3 & E4 & Hs); simplify_eq/=; [by left|right]. by exists i, f', o1', o2'.
    - intros [[-> Hs]|(i & f' & o1' & o2' & ? & ? & ? & ? & Hs)]; [by exists 0%nat, f, o1, o2|by exists (S i), f', o1', o2']. }
  rewrite Hn. clear Hn IH. assert (Hnone : ~ (is_Some (@None value) \/ is_Some (@None value))) by (by intros [[]|[]]).
  destruct o1, o2; rewrite ?elem_of_cons; intuition eauto.
Qed.

Lemma visible_keys_get d fields os k :
  Forall2 (field_shows R d) fields os -> k ∈ assoc_keys (visible fields os) -> exists i f, fields !! i = Some f /\ fi_name f = k.
Proof.
  intros H Hk. apply (elem_of_sublist _ (fi_name <$> fields)) in Hk; [|by eapply visible_keys].
  apply list_elem_of_fmap in Hk as (f & -> & Hf). apply list_elem_of_lookup in Hf as [i Hi]. eauto.
Qed.

Lemma fieldVisits_lexical d1 d2 fields os1 os2 :
  Forall2 (field_shows R d1) fields os1 -> Forall2 (field_shows R d2) fields os2 ->
  StronglySorted str_lt (fi_name <$> fields) -> NoDup (fi_name <$> fields) ->
  fieldVisits fields os1 os2 = lexicalVisits (visible fields os1) (visible fields os2).
Proof.
  intros H1 H2 Hs N. pose proof (Forall2_length _ _ _ H1) as L1. pose proof (Forall2_length _ _ _ H2) as L2. symmetry in L1, L2.
  set (get := fun k => (k, (assoc_get k (visible fields os1), assoc_get k (visible fields os2)))).
  assert (He : forall e, e ∈ fieldVisits fields os1 os2 -> e = get e.1 /\
    (e.1 ∈ assoc_keys (visible fields os1) \/ e.1 ∈ assoc_keys (visible fields os2))).
  { intros e. rewrite fieldVisits_elem by done.
    intros (i & f & o1 & o2 & Ef & E1 & E2 & -> & Ho). unfold get. cbn [fst].
    pose proof (visible_get R d1 _ _ i f o1 H1 N Ef E1) as G1. pose proof (visible_get R d2 _ _ i f o2 H2 N Ef E2) as G2.
    rewrite G1, G2. split; [done|]. destruct Ho as [[x ->]|[x ->]]; [left|right]; eapply assoc_get_key; eassumption. }
  assert (Hk : forall k, k ∈ assoc_keys (visible fields os1) \/ k ∈ assoc_keys (visible fields os2) -> k ∈ (fieldVisits fields os1 os2).*1).
  { intros k Hk. assert (exists i f, fields !! i = Some f /\ fi_name f = k) as (i & f & Ef & <-)
      by (destruct Hk; [eapply (visible_keys_get d1)|eapply (visible_keys_get d2)]; eassumption).
    destruct (Forall2_lookup_l _ _ _ _ _ H1 Ef) as (o1 & E1 & _). destruct (Forall2_lookup_l _ _ _ _ _ H2 Ef) as (o2 & E2 & _).
    pose proof (visible_get R d1 _ _ i f o1 H1 N Ef E1) as G1. pose proof (visible_get R d2 _ _ i f o2 H2 N Ef E2) as G2.
    apply list_elem_of_fmap. exists (fi_name f, (o1, o2)). split; [done|].
    rewrite fieldVisits_elem by done. exists i, f, o1, o2. split_and!; try done.
    rewrite <-G1, <-G2. destruct Hk as [Hk|Hk]; [left|right]; apply not_eq_None_Some; intros Hn%assoc_get_None; done. }
  assert (Nv : forall d os, Forall2 (field_shows R d) fields os -> NoDup (assoc_keys (visible fields os))).
  { intros d os H. eapply sublist_NoDup; [exact N|by eapply visible_keys]. }
  destruct (orderedKeys_spec Compare (visible fields os1) (visible fields os2) (Nv _ _ H1) (Nv _ _ H2)) as [Ho Hin]. unfold lexicalVisits. fold get.
  replace (orderedKeys _ _) with (fieldVisits fields os1 os2).*1.
  - rewrite <-list_fmap_compose. rewrite <-(list_fmap_id (fieldVisits fields os1 os2)) at 1. apply list_fmap_ext.
    intros i e Hi. apply He. by eapply list_elem_of_lookup_2.
  - apply sorted_strings_unique; [by eapply StronglySorted_sublist, Hs; apply fieldVisits_sublist|done| | |].
    + eapply sublist_NoDup; [exact N|apply fieldVisits_sublist].
    + apply orderedKeys_NoDup; by eauto.
    + intros k. rewrite Hin. split; [|apply Hk]. intros (e & -> & Hin')%list_elem_of_fmap. by apply He.
Qed.

Hypothesis shallow : forall t, Type_Kind t = KdStruct -> inlineWithin 2 t = true.

Lemma orderedLayout_sorted t : StronglySorted str_lt (fi_name <$> orderedLayout t).
Proof. rewrite orderedLayout_names. apply sort_strings_strict, layoutOf_wf. Qed.

(** The fast path for structs visits what the ordered traversal of their unstructured forms does. *)
Lemma structZip_visits r1 r2 os1 os2 :
  let fields := orderedLayout (rv_type (vr_Value r1)) in
  Forall2 (field_shows R (vr_Value r1)) fields os1 -> Forall2 (field_shows R (vr_Value r2)) fields os2 ->
  exists vs, Forall2 (visit_rel R) vs (lexicalVisits (visible fields os1) (visible fields os2)) /\
    forall S (fn : string -> option valueReflect -> option valueReflect -> S -> Outcome (S * bool)) s,
      structZip fn r1 r2 s = foldVisits fn vs s.
Proof.
  intros fields H1 H2. destruct (zipFields_visits _ _ _ _ _ H1 H2) as (vs & Hvs & Hfold). exists vs. split.
  - by rewrite <-(fieldVisits_lexical _ _ _ _ _ H1 H2 (orderedLayout_sorted _) (orderedLayout_NoDup _)).
  - intros S fn s. unfold structZip. rewrite (structEntry_ordered shallow). apply Hfold.
Qed.

(** ** Maps *)

Abbreviation map_shows v := (Forall2 (fun kv u => presents R (mkRV (Type_Elem (rv_type v)) kv.2 false) u)).

Lemma foldVisits_app {A S} (fn : string -> option A -> option A -> S -> Outcome (S * bool)) vs1 vs2 s :
  foldVisits fn (vs1 ++ vs2) s = (res ← foldVisits fn vs1 s; if res.2 : bool then foldVisits fn vs2 res.1 else Ret (res.1, false)).
Proof.
  revert s. induction vs1 as [|[k [l r]] vs1 IH]; intros s; [by cbn|]. cbn. destruct (fn _ _ _ s) as [|[s' []]]; cbn; auto.
Qed.

Lemma zipRight_visits v1 v2 m1 m2 us1 us2 :
  rv_val v1 = GMap m1 -> map_shows v1 m1 us1 -> map_shows v2 m2 us2 ->
  exists vs, Forall2 (visit_rel R) vs ((fun kv => (kv.1, (assoc_get kv.1 (zip m1.*1 us1), Some kv.2))) <$> zip m2.*1 us2) /\
    forall S (fn : string -> option valueReflect -> option valueReflect -> S -> Outcome (S * bool)) s,
      zipRight fn v1 v2 ((fun kv => (kv.1, mkRV (Type_Elem (rv_type v2)) kv.2 false)) <$> m2) s = foldVisits fn vs s.
Proof.
  intros E1 H1. induction 1 as [|[k x] u m2 us2 Hp H2 (vs & Hvs & IH)]; [by exists []|]. cbn [snd] in Hp.
  destruct (Hp (Some (Type_Elem (rv_type v2))) (Some (v2, k))) as (r & Er & Hr); [by right|].
  assert (exists o, option_Forall2 R o (assoc_get k (zip m1.*1 us1)) /\
    (match MapIndex v1 k with
      | Some x => l ← mustReuse x (Some (Type_Elem (rv_type v1))) (Some (v1, k)); Ret (Some l)
      | None => Ret None
      end) = Ret o) as (o & Ho & Eo).
  { pose proof (zip_get _ m1 us1 k H1) as Hg. unfold MapIndex. rewrite E1. destruct (assoc_get k (zip m1.*1 us1)) as [y|].
    - destruct Hg as (z & -> & Hz). cbn [snd] in Hz. destruct (Hz (Some (Type_Elem (rv_type v1))) (Some (v1, k))) as (r' & Er' & Hr'); [by right|].
      exists (Some r'). split; [by constructor|]. cbn. by rewrite Er'.
    - rewrite Hg. exists None. by split; [constructor|]. }
  exists ((k, (o, Some r)) :: vs). split.
  { constructor; [|done]. split_and!; [done|done|by constructor]. }
  intros S fn s. cbn [fmap list_fmap zipRight fst snd]. rewrite Er. cbn [mbind Outcome_bind]. rewrite Eo. cbn [mbind Outcome_bind foldVisits].
  destruct (fn _ _ _ s) as [|[s' []]]; cbn; [done| |done]. apply IH.
Qed.

Lemma zipLeft_visits v visited m us :
  map_shows v m us ->
  exists vs, Forall2 (visit_rel R) vs ((fun kv => (kv.1, (Some kv.2, None))) <$>
      base.filter (fun kv : string * value => kv.1 ∉ visited) (zip m.*1 us)) /\
    forall S (fn : string -> option valueReflect -> option valueReflect -> S -> Outcome (S * bool)) s,
      zipLeft fn v visited ((fun kv => (kv.1, mkRV (Type_Elem (rv_type v)) kv.2 false)) <$> m) s = foldVisits fn vs s.
Proof.
  induction 1 as [|[k x] u m us Hp H (vs & Hvs & IH)]; [by exists []|]. cbn [snd] in Hp.
  cbn [fmap list_fmap zip zip_with fst snd]. rewrite filter_cons. cbn [fst]. destruct (decide (k ∉ visited)) as [Hk|Hk].
  - destruct (Hp (Some (Type_Elem (rv_type v))) (Some (v, k))) as (r & Er & Hr); [by right|].
    exists ((k, (Some r, None)) :: vs). split.
    { constructor; [|done]. split_and!; [done|by constructor|constructor]. }
    intros S fn s. cbn [zipLeft]. rewrite bool_decide_eq_false_2, Er by done. cbn [mbind Outcome_bind foldVisits].
    destruct (fn _ _ _ s) as [|[s' []]]; cbn; [done| |done]. apply IH.
  - exists vs. split; [done|]. intros S fn s. cbn [zipLeft]. apply dec_stable in Hk. rewrite bool_decide_eq_true_2 by done. apply IH.
Qed.

(** The fast path for maps. *)
Lemma unorderedReflectZip_visits r1 r2 m1 m2 us1 us2 :
  rv_val (vr_Value r1) = GMap m1 -> rv_val (vr_Value r2) = GMap m2 ->
  map_shows (vr_Value r1) m1 us1 -> map_shows (vr_Value r2) m2 us2 ->
  exists vs, Forall2 (visit_rel R) vs (rightVisits (zip m1.*1 us1) (zip m2.*1 us2)) /\
    forall S (fn : string -> option valueReflect -> option valueReflect -> S -> Outcome (S * bool)) s,
      unorderedReflectZip fn r1 (Some r2) s = foldVisits fn vs s.
Proof.
  intros E1 E2 H1 H2. destruct (zipRight_visits _ _ _ _ _ _ E1 H1 H2) as (vs2 & Hvs2 & F2).
  destruct (zipLeft_visits (vr_Value r1) m2.*1 _ _ H1) as (vs1 & Hvs1 & F1). exists (vs2 ++ vs1). split.
  { apply Forall2_app; [done|]. rewrite zip_keys by (by eapply Forall2_length). exact Hvs1. }
  intros S fn s. rewrite foldVisits_app, <-F2. unfold unorderedReflectZip, mapR_Empty, Len, MapEntries. rewrite E1, E2.
  replace ((_ <$> m2).*1) with m2.*1 by (rewrite <-list_fmap_compose; by apply list_fmap_ext).
  destruct m1 as [|a1 m1], m2 as [|a2 m2]; cbn [length Nat.eqb andb].
  { cbn. rewrite <-(F1 S fn s). done. }
  all: destruct (zipRight _ _ _ _ s) as [|[s' []]]; [done| |done]; apply F1.
Qed.
End Structs.
