(* ===== verification/ValueInterface.v ===== *)
(** * Package value: the interfaces Value, Map and List

    A [GoValue] is a value behind the interface [Value]: an unstructured value
    or a reflected one.  The methods dispatch on the implementation, as do the
    methods of the [Map] and [List] that it converts to; [EqualsUsing],
    [CompareUsing] and the traversals of [value/value.go], [value/map.go],
    [value/list.go], and the [EqualsUsing] and [ZipUsing] of each map and list
    type, work on any mix of the two.  A nil [Map] is [None]. *)
From S2P Require Import Prelude GoLib GoFloat Value ValueOrder Schema TypedHelpers GoReflect JsonTag ReflectCache.
From S2P Require Import ReflectCacheSpec ValueReflect ReflectSpec Unstructured.

(** ** Values *)

Inductive GoValue := OfUnstructured (v : value) | OfReflect (r : valueReflect).

Definition V_IsMap (x : GoValue) : bool := match x with OfUnstructured v => IsMap v | OfReflect r => r_IsMap r end.
Definition V_IsList (x : GoValue) : bool := match x with OfUnstructured v => IsList v | OfReflect r => r_IsList r end.
Definition V_IsBool (x : GoValue) : bool := match x with OfUnstructured v => IsBool v | OfReflect r => r_IsBool r end.
Definition V_IsInt (x : GoValue) : bool := match x with OfUnstructured v => IsInt v | OfReflect r => r_IsInt r end.
Definition V_IsFloat (x : GoValue) : bool := match x with OfUnstructured v => IsFloat v | OfReflect r => r_IsFloat r end.
Definition V_IsString (x : GoValue) : bool := match x with OfUnstructured v => IsString v | OfReflect r => r_IsString r end.
Definition V_IsNull (x : GoValue) : bool := match x with OfUnstructured v => IsNull v | OfReflect r => r_IsNull r end.

Definition V_AsBool (x : GoValue) : Outcome bool := match x with OfUnstructured v => Ret (AsBool v) | OfReflect r => r_AsBool r end.
Definition V_AsInt (x : GoValue) : Outcome Z := match x with OfUnstructured v => Ret (AsInt v) | OfReflect r => r_AsInt r end.
Definition V_AsFloat (x : GoValue) : Outcome spec_float := match x with OfUnstructured v => Ret (AsFloat v) | OfReflect r => r_AsFloat r end.
Definition V_AsString (x : GoValue) : Outcome string := match x with OfUnstructured v => Ret (AsString v) | OfReflect r => r_AsString r end.

Section Interface.
Context {Pg : GoProgram} {J : GoJson}.

(** ** Maps *)

Definition M_Length (x : GoValue) : Outcome nat :=
  match x with OfUnstructured v => Ret (length (AsMap v)) | OfReflect r => AsMap_Length r end.
Definition M_Empty (x : GoValue) : Outcome bool :=
  match x with OfUnstructured v => Ret (length (AsMap v) =? 0)%nat | OfReflect r => AsMap_Empty r end.
Definition M_Has (x : GoValue) (key : string) : Outcome bool :=
  match x with
  | OfUnstructured v => Ret (match assoc_get key (AsMap v) with Some _ => true | None => false end)
  | OfReflect r => AsMap_Has r key
  end.
Definition M_Get (x : GoValue) (key : string) : Outcome (option GoValue) :=
  match x with
  | OfUnstructured v => Ret (OfUnstructured <$> assoc_get key (AsMap v))
  | OfReflect r => o ← AsMap_Get r key; Ret (option_map OfReflect o)
  end.

Section Traverse.
Context {S : Type}.

Fixpoint M_iterate (fn : string -> GoValue -> S -> Outcome (S * bool)) (m : Map) (s : S) : Outcome (S * bool) :=
  match m with
  | [] => Ret (s, true)
  | (k, v) :: m' =>
    res ← fn k (OfUnstructured v) s;
    if res.2 : bool then M_iterate fn m' res.1 else Ret (res.1, false)
  end.

Definition M_Iterate (x : GoValue) (fn : string -> GoValue -> S -> Outcome (S * bool)) (s : S) : Outcome (S * bool) :=
  match x with
  | OfUnstructured v => if (length (AsMap v) =? 0)%nat then Ret (s, true) else M_iterate fn (AsMap v) s
  | OfReflect r => AsMap_Iterate r (fun k r => fn k (OfReflect r)) s
  end.

(** The methods of a map that may be nil. *)
Definition O_Length (x : option GoValue) : Outcome nat := match x with Some x => M_Length x | None => Ret 0%nat end.
Definition O_Empty (x : option GoValue) : Outcome bool := match x with Some x => M_Empty x | None => Ret true end.
Definition O_Has (x : option GoValue) (key : string) : Outcome bool := match x with Some x => M_Has x key | None => Ret false end.
Definition O_Get (x : option GoValue) (key : string) : Outcome (option GoValue) :=
  match x with Some x => M_Get x key | None => Ret None end.
Definition O_Iterate (x : option GoValue) (fn : string -> GoValue -> S -> Outcome (S * bool)) (s : S) : Outcome (S * bool) :=
  match x with Some x => M_Iterate x fn s | None => Ret (s, true) end.
End Traverse.

Section Zip.
Context {S : Type} (fn : string -> option GoValue -> option GoValue -> S -> Outcome (S * bool)).

Definition unorderedZip (lhs rhs : option GoValue) (s : S) : Outcome (S * bool) :=
  le ← O_Empty lhs;
  stop ← (if le : bool then O_Empty rhs else Ret false);
  if (stop : bool) then Ret (s, true)
  else
    res ← O_Iterate lhs (fun key lhsValue s => rhsValue ← O_Get rhs key; fn key (Some lhsValue) rhsValue s) s;
    if negb (res.2 : bool) then Ret (res.1, false)
    else
      O_Iterate rhs (fun key rhsValue s =>
        has ← O_Has lhs key;
        if negb (has : bool) then fn key None (Some rhsValue) s else Ret (s, true)) res.1.

(** The loop over the sorted keys. *)
Fixpoint orderedZip (lhs rhs : option GoValue) (ordered : list string) (s : S) : Outcome (S * bool) :=
  match ordered with
  | [] => Ret (s, true)
  | key :: ordered' =>
    litem ← O_Get lhs key;
    ritem ← O_Get rhs key;
    res ← fn key litem ritem s;
    if res.2 : bool then orderedZip lhs rhs ordered' res.1 else Ret (res.1, false)
  end.

Definition lexicalZip (lhs rhs : option GoValue) (s : S) : Outcome (S * bool) :=
  lhsLength ← O_Length lhs;
  rhsLength ← O_Length rhs;
  if ((lhsLength =? 0) && (rhsLength =? 0))%nat then Ret (s, true)
  else
    l ← O_Iterate lhs (fun key _ ordered => Ret (ordered ++ [key], true)) [];
    lr ← O_Iterate rhs (fun key _ ordered =>
      has ← O_Has lhs key;
      Ret (if negb (has : bool) then ordered ++ [key] else ordered, true)) l.1;
    orderedZip lhs rhs (sort_stable string_ltb lr.1) s.

Definition defaultZip (lhs rhs : option GoValue) (order : MapTraverseOrder) (s : S) : Outcome (S * bool) :=
  match order with Unordered => unorderedZip lhs rhs s | LexicalKeyOrder => lexicalZip lhs rhs s end.

(** The callback on two reflected values. *)
Definition reflectFn (key : string) (lhs rhs : option valueReflect) : S -> Outcome (S * bool) :=
  fn key (OfReflect <$> lhs) (OfReflect <$> rhs).

(** [mapReflect.ZipUsing]. *)
Definition mapReflect_ZipUsing (r : valueReflect) (other : option GoValue) (order : MapTraverseOrder) (s : S) : Outcome (S * bool) :=
  match other, order with
  | Some (OfReflect o), Unordered =>
    match vr_kind o with
    | mapType => unorderedReflectZip reflectFn r (Some o) s
    | _ => defaultZip (Some (OfReflect r)) other order s
    end
  | _, _ => defaultZip (Some (OfReflect r)) other order s
  end.

(** [structReflect.ZipUsing]. *)
Definition structReflect_ZipUsing (r : valueReflect) (other : option GoValue) (order : MapTraverseOrder) (s : S) : Outcome (S * bool) :=
  match other with
  | Some (OfReflect o) =>
    match vr_kind o with
    | structMapType =>
      if decide (rv_type (vr_Value r) = rv_type (vr_Value o)) then structZip reflectFn r o s
      else defaultZip (Some (OfReflect r)) other order s
    | _ => defaultZip (Some (OfReflect r)) other order s
    end
  | _ => defaultZip (Some (OfReflect r)) other order s
  end.

(** [Map.ZipUsing]. *)
Definition M_ZipUsing (x : GoValue) (other : option GoValue) (order : MapTraverseOrder) (s : S) : Outcome (S * bool) :=
  match x with
  | OfUnstructured _ => defaultZip (Some x) other order s
  | OfReflect r =>
    match vr_kind r with
    | structMapType => structReflect_ZipUsing r other order s
    | _ => mapReflect_ZipUsing r other order s
    end
  end.
End Zip.

(** [MapZipUsing]; the callback's arguments are swapped for a nil left map. *)
Definition V_MapZipUsing {S} (lhs rhs : option GoValue) (order : MapTraverseOrder)
    (fn : string -> option GoValue -> option GoValue -> S -> Outcome (S * bool)) (s : S) : Outcome (S * bool) :=
  match lhs, rhs with
  | Some l, _ => M_ZipUsing fn l rhs order s
  | None, Some r => M_ZipUsing (fun key rhs lhs => fn key lhs rhs) r lhs order s
  | None, None => Ret (s, true)
  end.

(** ** Lists *)

Definition L_Length (x : GoValue) : nat :=
  match x with OfUnstructured v => length (AsList v) | OfReflect r => listR_Length r end.

(** The range of an unstructured list, or of a reflected list ([None] is the empty range). *)
Inductive VRange := UnstructuredRange (r : ListRange) | ReflectRange (r : option listReflectRange).

Definition L_Range (x : GoValue) : VRange :=
  match x with OfUnstructured v => UnstructuredRange (RangeUsing (AsList v)) | OfReflect r => ReflectRange (listR_Range r) end.

Definition V_Next (r : VRange) : VRange * bool :=
  match r with
  | UnstructuredRange r => let '(r, ok) := range_Next r in (UnstructuredRange r, ok)
  | ReflectRange None => (ReflectRange None, false)
  | ReflectRange (Some rr) => let '(rr, ok) := lr_Next rr in (ReflectRange (Some rr), ok)
  end.

Definition V_Item (r : VRange) : Outcome (Z * GoValue) :=
  match r with
  | UnstructuredRange r => iv ← range_Item r; Ret (iv.1, OfUnstructured iv.2)
  | ReflectRange None => Panic
  | ReflectRange (Some rr) => iv ← lr_Item rr; Ret (iv.1, OfReflect iv.2)
  end.

(** [reflect.DeepEqual] of two values of one type.  Nil differs from an empty slice or map;
    floats are compared with [==].  The operands share no memory: for a slice, map or
    pointer compared with itself Go answers true at once, which makes a difference only if it
    holds a NaN or a function.  What Go says of two channels, unsafe pointers or complex
    numbers is the parameter [opaqueEqual]. *)
Context (opaqueEqual : bool).

Fixpoint GoDeepEqual (a b : GoVal) : bool :=
  let fix all (x y : list GoVal) : bool :=
    match x, y with
    | [], [] => true
    | v :: x', w :: y' => GoDeepEqual v w && all x' y'
    | _, _ => false
    end in
  match a, b with
  | GNil, GNil => true
  | GBool x, GBool y => Bool.eqb x y
  | GInt x, GInt y => x =? y
  | GFloat x, GFloat y => float_eqb x y
  | GString x, GString y => string_eqb x y
  | GSlice x, GSlice y => all x y
  | GMap x, GMap y =>
    (length x =? length y)%nat &&
    forallb (fun kv => match assoc_get kv.1 y with Some w => GoDeepEqual kv.2 w | None => false end) x
  | GPtr x, GPtr y => GoDeepEqual x y
  | GIface t x, GIface t' y => bool_decide (t = t') && GoDeepEqual x y
  | GStruct x, GStruct y => all x y
  | GOpaque, GOpaque => opaqueEqual
  | _, _ => false
  end.

(** [reflect.DeepEqual] of what two [reflect.Value]s hold. *)
Definition R_DeepEqual (a b : RValue) : bool := bool_decide (rv_type a = rv_type b) && GoDeepEqual (rv_val a) (rv_val b).

(** ** Equality *)
Section EqualsBody.
(** The recursive call of [EqualsUsing]. *)
Variable Equals : GoValue -> GoValue -> Outcome bool.

(** The loop of [ListEqualsUsing]; the right range advances only when the left one has an item. *)
Fixpoint V_rangesEqual (fuel : nat) (l r : VRange) : Outcome bool :=
  match fuel with
  | O => Panic
  | S fuel =>
    let '(l, lok) := V_Next l in
    if lok then
      let '(r, rok) := V_Next r in
      if rok then
        lv ← V_Item l; rv ← V_Item r;
        eq ← Equals lv.2 rv.2;
        if negb (eq : bool) then Ret false else V_rangesEqual fuel l r
      else Ret true
    else Ret true
  end.

Definition V_ListEqualsUsing (lhs rhs : GoValue) : Outcome bool :=
  if negb (L_Length lhs =? L_Length rhs)%nat then Ret false
  else V_rangesEqual (S (L_Length lhs)) (L_Range lhs) (L_Range rhs).

(** [List.EqualsUsing] of either list type. *)
Definition L_EqualsUsing (lhs rhs : GoValue) : Outcome bool :=
  match lhs, rhs with
  | OfReflect r, OfReflect other => Ret (R_DeepEqual (vr_Value r) (vr_Value other))
  | _, _ => V_ListEqualsUsing lhs rhs
  end.

(** [MapEqualsUsing]. *)
Definition V_MapEqualsUsing (lhs rhs : option GoValue) : Outcome bool :=
  match lhs, rhs with
  | None, None => Ret true
  | Some l, Some r =>
    lhsLength ← M_Length l;
    rhsLength ← M_Length r;
    if negb (lhsLength =? rhsLength)%nat then Ret false
    else
      res ← V_MapZipUsing lhs rhs Unordered (fun _ lhs rhs (_ : unit) =>
        match lhs, rhs with
        | Some l, Some r => eq ← Equals l r; Ret (tt, eq)
        | _, _ => Ret (tt, false)
        end) tt;
      Ret res.2
  | _, _ => Ret false
  end.

(** [EqualsUsing] of [mapUnstructuredString] and [mapReflect]: [get] gives the entry of the
    left map as the comparison wants it. *)
Definition entriesEqual (lhsLength : nat) (get : string -> Outcome (option GoValue)) (other : GoValue) : Outcome bool :=
  rhsLength ← M_Length other;
  if negb (lhsLength =? rhsLength)%nat then Ret false
  else if (lhsLength =? 0)%nat then Ret true
  else
    res ← M_Iterate other (fun key value (_ : unit) =>
      lhsVal ← get key;
      match lhsVal with
      | None => Ret (tt, false)
      | Some lhsVal => eq ← Equals lhsVal value; Ret (tt, eq)
      end) tt;
    Ret res.2.

Definition mapUnstructuredString_Equals (m : Map) (other : GoValue) : Outcome bool :=
  entriesEqual (length m) (fun key => Ret (OfUnstructured <$> assoc_get key m)) other.

Definition mapReflect_EqualsUsing (r : valueReflect) (other : GoValue) : Outcome bool :=
  let entry := Type_Elem (rv_type (vr_Value r)) in
  entriesEqual (mapR_Length r) (fun key =>
    match MapIndex (vr_Value r) key with
    | None => Ret None
    | Some lhsVal => r' ← mustReuse lhsVal (Some entry) None; Ret (Some (OfReflect r'))
    end) other.

Definition structReflect_EqualsUsing (r : valueReflect) (other : GoValue) : Outcome bool :=
  V_MapEqualsUsing (Some (OfReflect r)) (Some other).

(** [Map.EqualsUsing]. *)
Definition M_EqualsUsing (lhs rhs : GoValue) : Outcome bool :=
  match lhs with
  | OfUnstructured v => mapUnstructuredString_Equals (AsMap v) rhs
  | OfReflect r => match vr_kind r with structMapType => structReflect_EqualsUsing r rhs | _ => mapReflect_EqualsUsing r rhs end
  end.

(** The number a value stands for in a comparison with a float. *)
Definition V_floatOperand (x : GoValue) : Outcome (option spec_float) :=
  if V_IsFloat x then f ← V_AsFloat x; Ret (Some f)
  else if V_IsInt x then i ← V_AsInt x; Ret (Some (float64_of_int i))
  else Ret None.

Definition V_EqualsUsing (lhs rhs : GoValue) : Outcome bool :=
  if V_IsFloat lhs || V_IsFloat rhs then
    lf ← V_floatOperand lhs;
    match lf with
    | None => Ret false
    | Some lf => rf ← V_floatOperand rhs; Ret (match rf with Some rf => float_eqb lf rf | None => false end)
    end
  else if V_IsInt lhs then
    if V_IsInt rhs then l ← V_AsInt lhs; r ← V_AsInt rhs; Ret (l =? r) else Ret false
  else if V_IsInt rhs then Ret false
  else if V_IsString lhs then
    if V_IsString rhs then l ← V_AsString lhs; r ← V_AsString rhs; Ret (string_eqb l r) else Ret false
  else if V_IsString rhs then Ret false
  else if V_IsBool lhs then
    if V_IsBool rhs then l ← V_AsBool lhs; r ← V_AsBool rhs; Ret (Bool.eqb l r) else Ret false
  else if V_IsBool rhs then Ret false
  else if V_IsList lhs then
    if V_IsList rhs then L_EqualsUsing lhs rhs else Ret false
  else if V_IsList rhs then Ret false
  else if V_IsMap lhs then
    if V_IsMap rhs then M_EqualsUsing lhs rhs else Ret false
  else if V_IsMap rhs then Ret false
  else if V_IsNull lhs then Ret (V_IsNull rhs)
  else if V_IsNull rhs then Ret false
  else Ret true.
End EqualsBody.

(** ** Ordering *)
Section CompareBody.
(** The recursive call of [CompareUsing]. *)
Variable Compare : GoValue -> GoValue -> Outcome Z.

(** The loop of [ListCompareUsing]. *)
Fixpoint V_rangesCompare (fuel : nat) (l r : VRange) : Outcome Z :=
  match fuel with
  | O => Panic
  | S fuel =>
    let '(l, lok) := V_Next l in
    let '(r, rok) := V_Next r in
    if negb lok && negb rok then Ret 0
    else if negb lok then Ret (-1)
    else if negb rok then Ret 1
    else
      lv ← V_Item l; rv ← V_Item r;
      c ← Compare lv.2 rv.2;
      if negb (c =? 0) then Ret c else V_rangesCompare fuel l r
  end.

Definition V_ListCompareUsing (lhs rhs : GoValue) : Outcome Z :=
  V_rangesCompare (S (L_Length lhs)) (L_Range lhs) (L_Range rhs).

Definition V_MapCompareUsing (lhs rhs : option GoValue) : Outcome Z :=
  llength ← O_Length lhs;
  rlength ← O_Length rhs;
  if ((llength =? 0) && (rlength =? 0))%nat then Ret 0
  else
    res ← V_MapZipUsing lhs rhs LexicalKeyOrder (fun _ lhs rhs (s : Z * nat) =>
      let i := s.2 in
      c ← (if (i =? llength)%nat then Ret (-1)
        else if (i =? rlength)%nat then Ret 1
        else match lhs, rhs with
          | None, _ => Ret 1
          | _, None => Ret (-1)
          | Some l, Some r => Compare l r
          end);
      Ret ((c, S i), c =? 0)) (0, O);
    Ret res.1.1.

Definition V_CompareUsing (lhs rhs : GoValue) : Outcome Z :=
  if V_IsFloat lhs then
    if negb (V_IsFloat rhs) then
      if V_IsInt rhs then l ← V_AsFloat lhs; r ← V_AsInt rhs; Ret (FloatCompare l (float64_of_int r)) else Ret (-1)
    else l ← V_AsFloat lhs; r ← V_AsFloat rhs; Ret (FloatCompare l r)
  else if V_IsFloat rhs then
    if V_IsInt lhs then l ← V_AsInt lhs; r ← V_AsFloat rhs; Ret (FloatCompare (float64_of_int l) r) else Ret 1
  else if V_IsInt lhs then
    if negb (V_IsInt rhs) then Ret (-1) else l ← V_AsInt lhs; r ← V_AsInt rhs; Ret (IntCompare l r)
  else if V_IsInt rhs then Ret 1
  else if V_IsString lhs then
    if negb (V_IsString rhs) then Ret (-1) else l ← V_AsString lhs; r ← V_AsString rhs; Ret (strings_Compare l r)
  else if V_IsString rhs then Ret 1
  else if V_IsBool lhs then
    if negb (V_IsBool rhs) then Ret (-1) else l ← V_AsBool lhs; r ← V_AsBool rhs; Ret (BoolCompare l r)
  else if V_IsBool rhs then Ret 1
  else if V_IsList lhs then
    if negb (V_IsList rhs) then Ret (-1) else V_ListCompareUsing lhs rhs
  else if V_IsList rhs then Ret 1
  else if V_IsMap lhs then
    if negb (V_IsMap rhs) then Ret (-1) else V_MapCompareUsing (Some lhs) (Some rhs)
  else if V_IsMap rhs then Ret 1
  else if V_IsNull lhs then Ret (if negb (V_IsNull rhs) then -1 else 0)
  else if V_IsNull rhs then Ret 1
  else Ret 0.
End CompareBody.

(** ** Closing the recursion: values nested at most [n] deep *)

Fixpoint V_Equals (n : nat) : GoValue -> GoValue -> Outcome bool :=
  match n with O => fun _ _ => Panic | S n => V_EqualsUsing (V_Equals n) end.

Fixpoint V_Compare (n : nat) : GoValue -> GoValue -> Outcome Z :=
  match n with O => fun _ _ => Panic | S n => V_CompareUsing (V_Compare n) end.

Definition V_Less (n : nat) (lhs rhs : GoValue) : Outcome bool := c ← V_Compare n lhs rhs; Ret (c =? -1).
End Interface.
