(* ===== verification/ValueInterfaceSpec.v ===== *)
(** * Values behind the interface agree with their unstructured forms

    [shows n x u]: the value [x], unstructured or reflected, is [u].  Whatever
    the implementations of the operands, the traversals visit what the traversal
    of the unstructured forms visits, and the comparisons give what comparing the
    unstructured forms gives. *)
From S2P Require Import Prelude GoLib GoFloat Value ValueOrder Schema TypedHelpers GoReflect JsonTag ReflectCache.
From S2P Require Import ReflectCacheSpec ValueReflect ReflectSpec MapZip ReflectZip Unstructured ValueInterface.

(** ** Unstructured forms of Go values *)

(** Integers are int64 and the keys of maps are distinct. *)
Fixpoint go_value (v : value) : bool :=
  match v with
  | VInt _ i => negb (IsInt v) || (to_int64 i =? i)
  | VList l => forallb go_value l
  | VMap m => bool_decide (NoDup (assoc_keys m)) && forallb (fun kv => go_value kv.2) m
  | _ => true
  end.

Lemma go_value_child v c : go_value v = true -> c ∈ children v -> go_value c = true.
Proof.
  destruct v as [| | | | | |l|m]; simpl; try by intros _ ?%not_elem_of_nil.
  - rewrite forallb_Forall, Forall_forall. auto.
  - intros [_ H]%andb_true_iff ([k x] & -> & Hin)%list_elem_of_fmap.
    rewrite forallb_Forall, Forall_forall in H. by apply (H (k, x)).
Qed.

Lemma go_value_keys m : go_value (VMap m) = true -> NoDup (assoc_keys m).
Proof. simpl. by intros [H%bool_decide_eq_true _]%andb_true_iff. Qed.

(** Both orders of traversal visit the same. *)
Lemma lexicalVisits_perm l r :
  NoDup (assoc_keys l) -> NoDup (assoc_keys r) -> lexicalVisits l r ≡ₚ zipEntries (Some l) (Some r).
Proof.
  intros NL NR. pose proof (orderedKeys_NoDup l r NL NR) as N.
  assert (NV : NoDup (lexicalVisits l r).*1).
  { unfold lexicalVisits. rewrite <-list_fmap_compose. cbn. by rewrite list_fmap_id. }
  apply NoDup_Permutation; [by eapply NoDup_fmap_1|apply (NoDup_fmap_1 fst); by apply zipEntries_NoDup|].
  destruct (orderedKeys_spec Compare l r NL NR) as [_ Hk]. intros [k o]. unfold lexicalVisits. rewrite list_elem_of_fmap.
  pose proof (zipEntries_visits (Some l) (Some r) k) as Hv. cbn [map_Get] in Hv. split.
  - intros (k' & [= -> ->] & Hin%Hk). apply Hv. destruct Hin; [left|right]; by intros ?%assoc_get_None.
  - intros H. pose proof (zipEntries_values (Some l) (Some r) NL NR _ H) as E. cbn [snd fst map_Get] in E. subst o.
    exists k. split; [done|]. apply Hk. apply Hv in H as [H|H]; [left|right]; by apply not_eq_None_Some in H as [v H%assoc_get_key].
Qed.

(** No list occurs. *)
Fixpoint no_lists (v : value) : bool :=
  match v with
  | VList _ => false
  | VMap m => forallb (fun kv => no_lists kv.2) m
  | _ => true
  end.

Lemma no_lists_child v c : no_lists v = true -> c ∈ children v -> no_lists c = true.
Proof.
  destruct v as [| | | | | | |m]; simpl; try by intros _ ?%not_elem_of_nil.
  - done.
  - intros H ([k x] & -> & Hin)%list_elem_of_fmap. rewrite forallb_Forall, Forall_forall in H. by apply (H (k, x)).
Qed.

(** What a comparison returns against what comparing the forms gives: exactly that, or true
    only if it is true. *)
Class EqOutcome (P : Outcome bool -> bool -> Prop) : Prop := {
  eq_ret e : P (Ret e) e;
  eq_and o e k e' : P o e -> P k e' -> P (eq ← o; if negb (eq : bool) then Ret false else k) (if e then e' else false);
}.

Definition exactly (o : Outcome bool) (e : bool) : Prop := o = Ret e.
Definition at_most (o : Outcome bool) (e : bool) : Prop := exists b, o = Ret b /\ (b = true -> e = true).

#[export] Instance exactly_EqOutcome : EqOutcome exactly.
Proof. split; [done|]. unfold exactly. intros o [] k e' -> ->; done. Qed.
#[export] Instance at_most_EqOutcome : EqOutcome at_most.
Proof.
  split; [by intros e; exists e|]. intros o e k e' (b & -> & Hb) (b' & -> & Hb'). destruct b; cbn.
  - rewrite Hb by done. by exists b'.
  - by exists false.
Qed.

Section Spec.
Context {Pg : GoProgram} {J : GoJson}.

(** ** What the methods of a value give *)
Section Agrees.
Context (R : GoValue -> value -> Prop).

Definition V_step (r : VRange) : VRange := (V_Next r).1.

(** A range shows the items of a list. *)
Definition shows_range (r : VRange) (us : list value) : Prop :=
  forall j, (V_Next (Nat.iter j V_step r)).2 = bool_decide (j < length us)%nat /\
    forall u, us !! j = Some u -> exists i x, V_Item (Nat.iter (S j) V_step r) = Ret (i, x) /\ R x u.

Definition map_shows (x : GoValue) (m : Map) : Prop :=
  NoDup (assoc_keys m) /\ M_Length x = Ret (length m) /\ M_Empty x = Ret (length m =? 0)%nat /\
  (forall k, match assoc_get k m with
    | Some u => M_Has x k = Ret true /\ exists x', M_Get x k = Ret (Some x') /\ R x' u
    | None => M_Has x k = Ret false /\ M_Get x k = Ret None
    end) /\
  exists xs, Forall2 (fun a b => a.1 = b.1 /\ R a.2 b.2) xs m /\
    forall S (fn : string -> GoValue -> S -> Outcome (S * bool)) s, M_Iterate x fn s = foldEntries fn xs s.

Record vagrees (x : GoValue) (u : value) : Prop := {
  va_flags : (V_IsNull x, V_IsBool x, V_IsInt x, V_IsFloat x, V_IsString x, V_IsList x, V_IsMap x) =
    (IsNull u, IsBool u, IsInt u, IsFloat u, IsString u, IsList u, IsMap u);
  va_bool : IsBool u = true -> V_AsBool x = Ret (AsBool u);
  va_int : IsInt u = true -> V_AsInt x = Ret (AsInt u);
  va_float : IsFloat u = true -> V_AsFloat x = Ret (AsFloat u);
  va_string : IsString u = true -> V_AsString x = Ret (AsString u);
  va_list : forall l, u = VList l -> L_Length x = length l /\ shows_range (L_Range x) l;
  va_map : forall m, u = VMap m -> map_shows x m;
}.

Lemma shows_range_nil r : shows_range r [] -> (V_Next r).2 = false.
Proof. intros H. by destruct (H 0%nat). Qed.

Lemma shows_range_cons r u us :
  shows_range r (u :: us) ->
  exists r' i x, V_Next r = (r', true) /\ V_Item r' = Ret (i, x) /\ R x u /\ shows_range r' us.
Proof.
  intros H. destruct (H 0%nat) as [E Hi]. destruct (Hi u eq_refl) as (i & x & Ei & Hx). cbn in E, Ei.
  exists (V_step r), i, x. split; [unfold V_step; by destruct (V_Next r); cbn in *; subst|]. split; [done|]. split; [done|].
  intros j. destruct (H (S j)) as [E' Hi']. rewrite <-!Nat.iter_succ_r. split; [|done].
  rewrite E'. cbn [length]. apply bool_decide_ext. lia.
Qed.

(** *** Unstructured values *)

Lemma RangeUsing_shows l : Forall (fun c => R (OfUnstructured c) c) l -> shows_range (UnstructuredRange (RangeUsing l)) l.
Proof.
  intros F. assert (Hat : forall d rest r, range_at d rest r -> Forall (fun c => R (OfUnstructured c) c) rest ->
    shows_range (UnstructuredRange r) rest).
  { clear F. intros d rest. revert d. induction rest as [|c rest IH]; intros d r Hr F j.
    - split; [|done]. assert (E : forall j, exists r', Nat.iter j V_step (UnstructuredRange r) = UnstructuredRange r' /\
        match r' with emptyRange => True | mkRange l i => Z.of_nat (length l) <= i + 1 end).
      { clear j. intros j. induction j as [|j (r' & E & Hr')].
        - exists r. split; [done|]. destruct r; [done|]. destruct Hr as [-> ->]. rewrite app_nil_r. lia.
        - rewrite Nat.iter_succ, E. unfold V_step. destruct r' as [|l' i]; [by exists emptyRange|]. exists (mkRange l' (i + 1)). split; [done|]. lia. }
      destruct (E j) as ([|l' i] & -> & Hr'); [done|]. cbn. rewrite bool_decide_eq_false_2 by lia. apply Z.ltb_ge. lia.
    - apply Forall_cons in F as [Hc F]. destruct (range_Next_item d c rest r Hr) as (E & A & i & Ei).
      destruct (range_Next r) as [r' ok] eqn:En. cbn [fst snd] in *. subst ok. destruct j as [|j].
      + cbn. unfold V_step. cbn. rewrite En. split; [by rewrite bool_decide_eq_true_2 by lia|]. intros u [= <-]. cbn. rewrite Ei. cbn. by eexists _, _.
      + destruct (IH _ _ A F j) as [E1 E2]. rewrite !Nat.iter_succ_r. replace (V_step (UnstructuredRange r)) with (UnstructuredRange r') by (unfold V_step; cbn; by rewrite En).
        split; [|by rewrite Nat.iter_succ_r in E2]. rewrite E1. cbn [length]. apply bool_decide_ext. lia. }
  apply (Hat [] l _ (RangeUsing_at l) F).
Qed.

Lemma unstructured_agrees v :
  (forall m, v = VMap m -> NoDup (assoc_keys m)) -> (forall c, c ∈ children v -> R (OfUnstructured c) c) -> vagrees (OfUnstructured v) v.
Proof.
  intros N H. split; try done.
  - intros l ->. split; [done|]. by apply RangeUsing_shows, Forall_forall.
  - intros m ->. split; [by apply N|]. split; [done|]. split; [done|]. split.
    + intros k. cbn [M_Has M_Get AsMap]. destruct (assoc_get k m) as [u|] eqn:E; [|done]. split; [done|].
      exists (OfUnstructured u). split; [done|]. by apply H, (assoc_get_child k m).
    + exists ((fun kv => (kv.1, OfUnstructured kv.2)) <$> m). split.
      * apply Forall2_fmap_l, Forall_Forall2_diag, Forall_forall. intros [k u] Hin. split; [done|]. apply H. by apply (list_elem_of_fmap_2 snd _ (k, u)).
      * intros S fn s. cbn [M_Iterate AsMap]. destruct (length m =? 0)%nat eqn:E0.
        { apply Nat.eqb_eq, nil_length_inv in E0 as ->. done. }
        clear. revert s. induction m as [|[k u] m IH]; intros s; [done|]. cbn. destruct (fn _ _ s) as [|[s' []]]; cbn; auto.
Qed.

(** *** Reflected values *)

Lemma range_shows (Rr : valueReflect -> value -> Prop) d l :
  Len d = length l -> (forall r c, c ∈ l -> Rr r c -> R (OfReflect r) c) ->
  let range := mkListReflectRange d (-1) (Type_Elem (rv_type d)) in
  (forall i x, l !! i = Some x -> exists r', lr_Item (Nat.iter (S i) (fun rr => (lr_Next rr).1) range) = Ret (Z.of_nat i, r') /\ Rr r' x) ->
  shows_range (ReflectRange (match l with [] => None | _ => Some range end)) l.
Proof.
  intros Hl HR range H j. destruct l as [|c l].
  { split; [|done]. assert (forall j, Nat.iter j V_step (ReflectRange None) = ReflectRange None) as E.
    { clear. intros j. induction j as [|j IH]; [done|]. by rewrite Nat.iter_succ, IH. }
    by rewrite E. }
  assert (E : forall j, Nat.iter j V_step (ReflectRange (Some range)) = ReflectRange (Some (Nat.iter j (fun rr => (lr_Next rr).1) range))).
  { clear. intros j. induction j as [|j IH]; [done|]. rewrite !Nat.iter_succ, IH. unfold V_step. cbn [V_Next].
    by destruct (lr_Next _). }
  rewrite !E. split.
  - unfold range. rewrite lr_advance. cbn. rewrite Hl. apply eq_true_iff_eq. rewrite Z.ltb_lt, bool_decide_eq_true. cbn [length]. lia.
  - intros u Hu. destruct (H j u Hu) as (r' & Er & Hr). exists (Z.of_nat j), (OfReflect r'). cbn [V_Item]. rewrite Er. split; [done|].
    apply HR; [by eapply list_elem_of_lookup_2|done].
Qed.

Lemma reflect_agrees (Rr : valueReflect -> value -> Prop) r u :
  agrees Rr r u -> go_value u = true -> (forall r' c, c ∈ children u -> Rr r' c -> R (OfReflect r') c) -> vagrees (OfReflect r) u.
Proof.
  intros [Hf Ha] Hg HR. split; [exact Hf|..].
  - by destruct u.
  - intros Hi. destruct u as [| |k i| | | | |]; try done. cbn [V_AsInt AsInt] in *. rewrite Ha.
    simpl in Hg. destruct k; try done; by apply Z.eqb_eq in Hg as ->.
  - by destruct u.
  - by destruct u.
  - intros l ->. destruct Ha as (Hl & Hr & Hi). split; [done|]. unfold L_Range. rewrite Hr.
    apply (range_shows Rr); [done|by intros r' c; apply HR|]. intros i x Hx. by apply Hi.
  - intros m ->. destruct Ha as (N & Hl & He & Hk & rs & Hrs & Hit). split; [done|]. split; [done|]. split; [done|]. split.
    + intros k. specialize (Hk k). cbn [M_Has M_Get]. destruct (assoc_get k m) as [x|] eqn:E.
      * destruct Hk as (Hh & r' & Er & Hr). split; [done|]. rewrite Er. exists (OfReflect r'). split; [done|].
        apply HR; [by apply (assoc_get_child k m)|done].
      * destruct Hk as [Hh Er]. by rewrite Er.
    + exists ((fun kr => (kr.1, OfReflect kr.2)) <$> rs). split.
      * apply Forall2_fmap_l. eapply Forall2_impl_in; [|exact Hrs]. intros a b _ Hb [E Hr]. split; [done|].
        apply HR; [by apply list_elem_of_fmap_2|done].
      * intros S fn s. cbn [M_Iterate]. rewrite Hit. clear. revert s. induction rs as [|[k r'] rs IH]; intros s; [done|]. cbn.
        destruct (fn _ _ s) as [|[s' []]]; cbn; auto.
Qed.
End Agrees.

(** ** The traversals of [defaultMapZip] *)
Section DefaultZip.
Context (R1 R2 : GoValue -> value -> Prop) (x y : GoValue) (l r : Map).
Hypothesis (Hx : map_shows R1 x l) (Hy : map_shows R2 y r).

Lemma zip_get_related (z : GoValue) (m : Map) R k :
  map_shows R z m -> exists o, M_Get z k = Ret o /\ option_Forall2 R o (assoc_get k m).
Proof.
  intros (_ & _ & _ & Hk & _). specialize (Hk k). destruct (assoc_get k m) as [u|].
  - destruct Hk as (_ & x' & E & Hr). exists (Some x'). split; [done|by constructor].
  - destruct Hk as [_ E]. exists None. split; [done|constructor].
Qed.

Lemma zip_has (z : GoValue) (m : Map) R k :
  map_shows R z m -> M_Has z k = Ret (match assoc_get k m with Some _ => true | None => false end).
Proof. intros (_ & _ & _ & Hk & _). specialize (Hk k). destruct (assoc_get k m); by destruct Hk. Qed.

Lemma unorderedZip_visits :
  exists vs, Forall2 (visits_rel R1 R2) vs (zipEntries (Some l) (Some r)) /\
    forall S (fn : string -> option GoValue -> option GoValue -> S -> Outcome (S * bool)) s,
      unorderedZip fn (Some x) (Some y) s = foldVisits fn vs s.
Proof.
  pose proof Hx as (_ & _ & Ex & _ & xs & Fx & Ix). pose proof Hy as (_ & _ & Ey & _ & ys & Fy & Iy).
  assert (exists vs1, Forall2 (visits_rel R1 R2) vs1 ((fun kv => (kv.1, (Some kv.2, assoc_get kv.1 r))) <$> l) /\
    forall S (fn : string -> option GoValue -> option GoValue -> S -> Outcome (S * bool)) s,
      foldEntries (fun key lv s => rv ← M_Get y key; fn key (Some lv) rv s) xs s = foldVisits fn vs1 s) as (vs1 & F1 & E1).
  { clear Hx Ix Ex. induction Fx as [|[k a] [k' u] xs l' [Ek Hr] Fx IH]; [by exists []|]. cbn [fst snd] in Ek, Hr. subst k'.
    destruct IH as (vs & F & E). destruct (zip_get_related y r R2 k Hy) as (o & Eo & Ho).
    exists ((k, (Some a, o)) :: vs). split; [constructor; [by split_and!; [|constructor|]|done]|].
    intros S fn s. cbn. rewrite Eo. cbn. destruct (fn _ _ _ s) as [|[s' []]]; cbn; auto. }
  assert (exists vs2, Forall2 (visits_rel R1 R2) vs2 ((fun kv => (kv.1, (None, Some kv.2))) <$>
      base.filter (fun kv : string * value => map_Get (Some l) kv.1 = None) r) /\
    forall S (fn : string -> option GoValue -> option GoValue -> S -> Outcome (S * bool)) s,
      foldEntries (fun key rv s => has ← M_Has x key; if negb has then fn key None (Some rv) s else Ret (s, true)) ys s =
      foldVisits fn vs2 s) as (vs2 & F2 & E2).
  { clear F1 E1 vs1 Hy Iy Ey. induction Fy as [|[k b] [k' u] ys r' [Ek Hr] Fy IH]; [by exists []|]. cbn [fst snd] in Ek, Hr. subst k'.
    destruct IH as (vs & F & E). rewrite filter_cons. cbn [fst snd map_Get].
    pose proof (zip_has x l R1 k Hx) as Eh. destruct (assoc_get k l) as [v|] eqn:El.
    - rewrite decide_False by done. exists vs. split; [done|]. intros S fn s. cbn. rewrite Eh. cbn. apply E.
    - rewrite decide_True by done. exists ((k, (None, Some b)) :: vs). split.
      { cbn [fmap list_fmap]. constructor; [by split_and!; [|constructor|constructor]|done]. }
      intros S fn s. cbn. rewrite Eh. cbn. destruct (fn _ _ _ s) as [|[s' []]]; cbn; auto. }
  exists (vs1 ++ vs2). split; [by apply Forall2_app|]. intros S fn s. unfold unorderedZip. cbn [O_Empty O_Iterate O_Get O_Has].
  rewrite Ex. cbn [mbind Outcome_bind].
  assert (Hgo : (res ← M_Iterate x (fun key lhsValue s => rhsValue ← M_Get y key; fn key (Some lhsValue) rhsValue s) s;
    if negb (res.2 : bool) then Ret (res.1, false)
    else M_Iterate y (fun key rhsValue s =>
      has ← M_Has x key; if negb (has : bool) then fn key None (Some rhsValue) s else Ret (s, true)) res.1) = foldVisits fn (vs1 ++ vs2) s).
  { rewrite Ix, E1, foldVisits_app. destruct (foldVisits fn vs1 s) as [|[s' []]]; [done| |done]. cbn. by rewrite Iy, E2. }
  destruct (length l =? 0)%nat eqn:El; [|exact Hgo]. rewrite Ey. cbn [mbind Outcome_bind].
  destruct (length r =? 0)%nat eqn:Er; [|exact Hgo].
  apply Nat.eqb_eq, nil_length_inv in El, Er. subst l r. by inversion F1; inversion F2; subst.
Qed.

Lemma lexicalZip_visits :
  exists vs, Forall2 (visits_rel R1 R2) vs (lexicalVisits l r) /\
    forall S (fn : string -> option GoValue -> option GoValue -> S -> Outcome (S * bool)) s,
      lexicalZip fn (Some x) (Some y) s = foldVisits fn vs s.
Proof.
  pose proof Hx as (_ & Lx & _ & _ & xs & Fx & Ix). pose proof Hy as (_ & Ly & _ & _ & ys & Fy & Iy).
  assert (E1 : forall ks, foldEntries (fun key (_ : GoValue) ordered => Ret (ordered ++ [key], true)) xs ks = Ret (ks ++ assoc_keys l, true)).
  { clear Hx Lx Ix. induction Fx as [|[k a] [k' u] xs l' [Ek _] Fx IH]; intros ks; cbn; [by rewrite app_nil_r|].
    cbn in Ek. subst k'. rewrite IH. by rewrite <-app_assoc. }
  assert (E2 : forall ks, foldEntries (fun key (_ : GoValue) ordered =>
      has ← M_Has x key; Ret (if negb (has : bool) then ordered ++ [key] else ordered, true)) ys ks =
    Ret (ks ++ base.filter (fun key => map_Get (Some l) key = None) (assoc_keys r), true)).
  { clear E1 Hy Ly Iy. induction Fy as [|[k b] [k' u] ys r' [Ek _] Fy IH]; intros ks; [by cbn; rewrite app_nil_r|].
    cbn in Ek. subst k'. cbn [foldEntries]. rewrite (zip_has x l R1 k Hx). cbn [mbind Outcome_bind fst snd]. rewrite IH.
    change (assoc_keys ((k, u) :: r')) with (k :: assoc_keys r'). rewrite filter_cons. cbn [map_Get].
    destruct (assoc_get k l); cbn [negb]; [by rewrite decide_False|]. rewrite decide_True by done. by rewrite <-app_assoc. }
  assert (exists vs, Forall2 (visits_rel R1 R2) vs (lexicalVisits l r) /\
    forall S (fn : string -> option GoValue -> option GoValue -> S -> Outcome (S * bool)) s,
      orderedZip fn (Some x) (Some y) (orderedKeys (Some l) (Some r)) s = foldVisits fn vs s) as (vs & F & E).
  { unfold lexicalVisits. generalize (orderedKeys (Some l) (Some r)) as ks. intros ks. induction ks as [|k ks (vs & F & E)]; [by exists []|].
    destruct (zip_get_related x l R1 k Hx) as (o1 & G1 & Ho1). destruct (zip_get_related y r R2 k Hy) as (o2 & G2 & Ho2).
    exists ((k, (o1, o2)) :: vs). split; [by constructor|]. intros S fn s. cbn. rewrite G1. cbn. rewrite G2. cbn.
    destruct (fn _ _ _ s) as [|[s' []]]; cbn; auto. }
  exists vs. split; [done|]. intros S fn s. unfold lexicalZip. cbn [O_Length O_Iterate O_Has]. rewrite Lx. cbn [mbind Outcome_bind]. rewrite Ly. cbn [mbind Outcome_bind].
  destruct (_ && _) eqn:E0.
  { apply andb_true_iff in E0 as [E3%Nat.eqb_eq%nil_length_inv E4%Nat.eqb_eq%nil_length_inv]. subst l r. by inversion F; subst. }
  rewrite Ix, E1. cbn [mbind Outcome_bind fst]. rewrite Iy, E2. cbn [mbind Outcome_bind fst]. apply E.
Qed.

(** The order of the traversal. *)
Lemma defaultZip_visits order :
  exists vs, Forall2 (visits_rel R1 R2) vs (match order with Unordered => zipEntries (Some l) (Some r) | LexicalKeyOrder => lexicalVisits l r end) /\
    forall S (fn : string -> option GoValue -> option GoValue -> S -> Outcome (S * bool)) s,
      defaultZip fn (Some x) (Some y) order s = foldVisits fn vs s.
Proof. destruct order; [apply unorderedZip_visits|apply lexicalZip_visits]. Qed.
End DefaultZip.

(** ** What a value shows *)

(** [refines] for a value that reflection made: its kind is that of what it reflects on,
    which is supported. *)
Fixpoint full (n : nat) (r : valueReflect) (u : value) : Prop :=
  match n with
  | O => False
  | S n =>
    Unstructured (S n) r = Ret u /\ agrees (full n) r u /\
    kind (vr_Value r) = Ret (vr_kind r) /\ plain (supported n) (vr_Value r) = true
  end.

(** The value [x], at most [n] deep, has the unstructured form [u]. *)
Definition shows (n : nat) (x : GoValue) (u : value) : Prop :=
  go_value u = true /\
  match x with OfUnstructured v => v = u /\ (height v < n)%nat | OfReflect r => full n r u end.

(** The unstructured values among them. *)
Definition shows_unstructured (n : nat) (x : GoValue) (u : value) : Prop :=
  shows n x u /\ exists v, x = OfUnstructured v.

Lemma full_Unstructured n r u : full n r u -> Unstructured n r = Ret u.
Proof. destruct n; [done|]. by intros []. Qed.

Lemma shows_agrees n x u : shows (S n) x u -> vagrees (shows n) x u.
Proof.
  intros [Hg Hx]. destruct x as [v|r].
  - destruct Hx as [-> Hh]. apply unstructured_agrees; [by intros m ->; apply go_value_keys|].
    intros c Hc. split; [by eapply go_value_child|]. split; [done|]. pose proof (height_child c u Hc). lia.
  - destruct Hx as (_ & Ha & _). eapply reflect_agrees; [done|done|]. intros r' c Hc Hr. split; [by eapply go_value_child|done].
Qed.

Lemma shows_unstructured_agrees n x u : shows_unstructured (S n) x u -> vagrees (shows_unstructured n) x u.
Proof.
  intros [[Hg Hx] [v ->]]. destruct Hx as [-> Hh]. apply unstructured_agrees; [by intros m ->; apply go_value_keys|].
  intros c Hc. split; [|by eexists]. split; [by eapply go_value_child|]. split; [done|]. pose proof (height_child c u Hc). lia.
Qed.

Section Shallow.
Hypothesis shallow : forall t, Type_Kind t = KdStruct -> inlineWithin 2 t = true.

(** Every supported Go value is shown. *)
Lemma supported_full n v : supported n v = true -> exists u, presents (full n) v u.
Proof. revert n v. apply (supported_presents shallow); [apply full_Unstructured|done]. Qed.

(** *** The fast paths *)

Definition lift (v : Visit valueReflect) : Visit GoValue := (v.1, (OfReflect <$> v.2.1, OfReflect <$> v.2.2)).

Lemma lift_fold {S} (fn : string -> option GoValue -> option GoValue -> S -> Outcome (S * bool)) vs s :
  foldVisits (reflectFn fn) vs s = foldVisits fn (lift <$> vs) s.
Proof.
  revert s. induction vs as [|[k [a b]] vs IH]; intros s; [done|]. cbn [foldVisits fmap list_fmap lift fst snd].
  change (reflectFn fn k a b s) with (fn k (OfReflect <$> a) (OfReflect <$> b) s).
  destruct (fn _ _ _ s) as [|[s' []]]; cbn; auto.
Qed.

(** The visits of entries of two maps. *)
Definition entry_visits (l r : Map) (visits : list (Visit value)) : Prop :=
  Forall (fun v => (forall u, v.2.1 = Some u -> (v.1, u) ∈ l) /\ (forall u, v.2.2 = Some u -> (v.1, u) ∈ r)) visits.

Lemma lift_visits n l r vs visits :
  go_value (VMap l) = true -> go_value (VMap r) = true -> entry_visits l r visits ->
  Forall2 (visit_rel (full n)) vs visits -> Forall2 (visit_rel (shows n)) (lift <$> vs) visits.
Proof.
  intros Hl Hr He H. apply Forall2_fmap_l. eapply Forall2_impl_in; [|exact H]. intros [k [a b]] [k' [u w]] _ Hin (Ek & Ha & Hb).
  unfold entry_visits in He. rewrite Forall_forall in He. destruct (He _ Hin) as [H1 H2]. cbn [fst snd] in *. subst k'.
  split; [done|]. split.
  - destruct Ha as [a u Ha|]; constructor. split; [|done]. eapply go_value_child; [exact Hl|].
    apply (list_elem_of_fmap_2 snd _ (k, u)). by apply H1.
  - destruct Hb as [b w Hb|]; constructor. split; [|done]. eapply go_value_child; [exact Hr|].
    apply (list_elem_of_fmap_2 snd _ (k, w)). by apply H2.
Qed.

Lemma lexicalVisits_entries l r : entry_visits l r (lexicalVisits l r).
Proof.
  apply Forall_forall. intros v (k & -> & _)%list_elem_of_fmap. cbn. split; intros u H; by apply assoc_get_Some.
Qed.

Lemma perm_entries l r visits : visits ≡ₚ zipEntries (Some l) (Some r) -> entry_visits l r visits.
Proof.
  intros P. unfold entry_visits. rewrite P. apply Forall_forall. intros [k [o1 o2]] H. cbn [fst snd]. split; intros u ->.
  - apply zipEntries_lhs in H as (m & [= <-] & H). done.
  - apply zipEntries_rhs in H as (m & [= <-] & H). done.
Qed.

(** The fields of a reflected struct. *)
Lemma full_fields n p d m :
  full (S n) (mkValueReflect p d structMapType) (VMap m) ->
  exists os, Forall2 (field_shows (full n) d) (orderedLayout (rv_type d)) os /\ m = visible (orderedLayout (rv_type d)) os.
Proof.
  intros (U & _ & K & P). cbn [vr_kind vr_Value] in K, P. pose proof (kind_Kind _ _ K) as Kd. cbn in Kd.
  unfold plain in P. rewrite K in P. destruct (rv_val d); try done.
  destruct (fields_show (full n) (supported n) d _ (supported_full n) P) as [os Hos]. exists os. split; [done|].
  destruct (struct_agrees shallow (full n) (Unstructured n) (full_Unstructured n) p d os Hos Kd) as [U' _].
  cbn [Unstructured] in U. rewrite U' in U. by injection U.
Qed.

Lemma structZip_shows n r o l m :
  shows (S n) (OfReflect r) (VMap l) -> shows (S n) (OfReflect o) (VMap m) ->
  vr_kind r = structMapType -> vr_kind o = structMapType -> rv_type (vr_Value r) = rv_type (vr_Value o) ->
  exists vs, Forall2 (visit_rel (shows n)) vs (lexicalVisits l m) /\
    forall S (fn : string -> option GoValue -> option GoValue -> S -> Outcome (S * bool)) s,
      structZip (reflectFn fn) r o s = foldVisits fn vs s.
Proof.
  intros [Gl H1] [Gm H2] E1 E2 Et. destruct r as [p1 d1 k1], o as [p2 d2 k2]. cbn [vr_kind vr_Value] in *. subst k1 k2.
  destruct (full_fields n p1 d1 l H1) as (os1 & F1 & ->). destruct (full_fields n p2 d2 m H2) as (os2 & F2 & ->). clear H1 H2.
  rewrite <-Et in F2, Gm |- *.
  destruct (structZip_visits (full n) shallow (mkValueReflect p1 d1 structMapType) (mkValueReflect p2 d2 structMapType) os1 os2 F1 F2) as (vs & Hvs & Hf).
  exists (lift <$> vs). split.
  - eapply lift_visits; [exact Gl|exact Gm|apply lexicalVisits_entries|exact Hvs].
  - intros S fn s. by rewrite Hf, lift_fold.
Qed.
(** The entries of a reflected map. *)
Lemma full_entries n p d l :
  full (S n) (mkValueReflect p d mapType) (VMap l) ->
  exists m us, rv_val d = GMap m /\ NoDup (assoc_keys m) /\ l = zip m.*1 us /\
    Forall2 (fun kv u => presents (full n) (mkRV (Type_Elem (rv_type d)) kv.2 false) u) m us.
Proof.
  intros (U & _ & K & P). cbn [vr_kind vr_Value] in K, P. pose proof (kind_Kind _ _ K) as Kd. cbn in Kd.
  unfold plain in P. rewrite K in P. destruct (rv_val d) as [| | | | | |m| | | |] eqn:Ev; try done.
  apply andb_true_iff in P as [N%bool_decide_eq_true P].
  destruct (presents_all (full n) (fun kv : string * GoVal => mkRV (Type_Elem (rv_type d)) kv.2 false) (supported n) m
    (supported_full n) P) as [us Hus].
  exists m, us. split; [done|]. split; [done|]. split; [|done].
  destruct (map_agrees (full n) (Unstructured n) (full_Unstructured n) p d m us Ev Kd N Hus) as [U' _].
  cbn [Unstructured] in U. rewrite U' in U. by injection U.
Qed.

Lemma unorderedReflectZip_shows n r o l m :
  shows (S n) (OfReflect r) (VMap l) -> shows (S n) (OfReflect o) (VMap m) ->
  vr_kind r = mapType -> vr_kind o = mapType ->
  exists vs, Forall2 (visit_rel (shows n)) vs (rightVisits l m) /\
    forall S (fn : string -> option GoValue -> option GoValue -> S -> Outcome (S * bool)) s,
      unorderedReflectZip (reflectFn fn) r (Some o) s = foldVisits fn vs s.
Proof.
  intros [Gl H1] [Gm H2] E1 E2. destruct r as [p1 d1 k1], o as [p2 d2 k2]. cbn [vr_kind] in E1, E2. subst k1 k2.
  destruct (full_entries n p1 d1 l H1) as (m1 & us1 & V1 & N1 & -> & F1).
  destruct (full_entries n p2 d2 m H2) as (m2 & us2 & V2 & N2 & -> & F2).
  destruct (unorderedReflectZip_visits (full n) (mkValueReflect p1 d1 mapType) (mkValueReflect p2 d2 mapType)
    m1 m2 us1 us2 V1 V2 F1 F2) as (vs & Hvs & Hf).
  exists (lift <$> vs). split.
  - eapply lift_visits; [exact Gl|exact Gm| |exact Hvs]. apply perm_entries, rightVisits_perm; by apply go_value_keys.
  - intros S fn s. by rewrite Hf, lift_fold.
Qed.

(** [ZipUsing] of any two maps. *)
Lemma M_ZipUsing_visits n x y l r order :
  shows (S n) x (VMap l) -> shows (S n) y (VMap r) ->
  exists visits vs, visits ≡ₚ zipEntries (Some l) (Some r) /\ (order = LexicalKeyOrder -> visits = lexicalVisits l r) /\
    Forall2 (visit_rel (shows n)) vs visits /\
    forall S (fn : string -> option GoValue -> option GoValue -> S -> Outcome (S * bool)) s,
      M_ZipUsing fn x (Some y) order s = foldVisits fn vs s.
Proof.
  intros Hx Hy. pose proof (go_value_keys l (proj1 Hx)) as Nl. pose proof (go_value_keys r (proj1 Hy)) as Nr.
  assert (Hd : exists visits vs, visits ≡ₚ zipEntries (Some l) (Some r) /\ (order = LexicalKeyOrder -> visits = lexicalVisits l r) /\
    Forall2 (visit_rel (shows n)) vs visits /\
    forall S (fn : string -> option GoValue -> option GoValue -> S -> Outcome (S * bool)) s,
      defaultZip fn (Some x) (Some y) order s = foldVisits fn vs s).
  { destruct (defaultZip_visits (shows n) (shows n) x y l r (va_map _ _ _ (shows_agrees n x _ Hx) l eq_refl)
      (va_map _ _ _ (shows_agrees n y _ Hy) r eq_refl) order) as (vs & F & E).
    eexists _, vs. split; [|split; [|split; [exact F|exact E]]]; destruct order; try done. by apply lexicalVisits_perm. }
  destruct x as [v|rx]; [exact Hd|]. cbn [M_ZipUsing]. destruct y as [w|ry].
  { by destruct (vr_kind rx). }
  assert (Hm : r_IsMap rx = true) by (pose proof (va_flags _ _ _ (shows_agrees n _ _ Hx)) as E; by injection E).
  unfold structReflect_ZipUsing, mapReflect_ZipUsing, r_IsMap in *. destruct (vr_kind rx) eqn:Ex; try done.
  2: { destruct (vr_kind ry) eqn:Ey; try exact Hd. destruct (decide _) as [Et|]; [|exact Hd].
    destruct (structZip_shows n rx ry l r Hx Hy Ex Ey Et) as (vs & F & E). exists (lexicalVisits l r), vs.
    split; [by apply lexicalVisits_perm|]. done. }
  destruct order; [|exact Hd]. destruct (vr_kind ry) eqn:Ey; try exact Hd.
  destruct (unorderedReflectZip_shows n rx ry l r Hx Hy Ex Ey) as (vs & F & E). exists (rightVisits l r), vs.
  split; [by apply rightVisits_perm|]. done.
Qed.
(** ** Comparisons *)

Lemma foldVisits_pure {S} (R1 R2 : GoValue -> value -> Prop) (fn : string -> option GoValue -> option GoValue -> S -> Outcome (S * bool))
    (pure : string -> option value -> option value -> S -> S * bool) vs visits s :
  Forall2 (visits_rel R1 R2) vs visits ->
  (forall k a b o1 o2 s, option_Forall2 R1 a o1 -> option_Forall2 R2 b o2 -> fn k a b s = Ret (pure k o1 o2 s)) ->
  foldVisits fn vs s = Ret (foldPure pure visits s).
Proof.
  intros F Hfn. revert s. induction F as [|[k [a b]] [k' [o1 o2]] vs visits (Ek & Ha & Hb) F IH]; intros s; [done|].
  cbn [fst snd] in Ek, Ha, Hb. subst k'. cbn [foldVisits foldPure]. rewrite (Hfn k a b o1 o2 s Ha Hb). cbn [mbind Outcome_bind].
  destruct (pure k o1 o2 s) as [s' []]; cbn [fst snd]; [apply IH|done].
Qed.

Lemma vagrees_flags R x u : vagrees R x u ->
  (V_IsNull x = IsNull u /\ V_IsBool x = IsBool u /\ V_IsInt x = IsInt u /\ V_IsFloat x = IsFloat u) /\
  V_IsString x = IsString u /\ V_IsList x = IsList u /\ V_IsMap x = IsMap u.
Proof. intros H. pose proof (va_flags _ _ _ H) as E. by injection E. Qed.

Lemma IsList_AsList u : IsList u = true -> u = VList (AsList u).
Proof. by destruct u. Qed.
Lemma IsMap_AsMap u : IsMap u = true -> u = VMap (AsMap u).
Proof. by destruct u. Qed.

Section Ladders.
Context (R1 R2 : GoValue -> value -> Prop) (x y : GoValue) (u w : value).
Hypothesis (Hx : vagrees R1 x u) (Hy : vagrees R2 y w).

Lemma V_CompareUsing_agrees rec (cmp : value -> value -> Z) :
  (forall l m, u = VList l -> w = VList m -> V_ListCompareUsing rec x y = Ret (ListCompareUsing cmp l m)) ->
  (forall l m, u = VMap l -> w = VMap m -> V_MapCompareUsing rec (Some x) (Some y) = Ret (MapCompareUsing cmp (Some l) (Some m))) ->
  V_CompareUsing rec x y = Ret (CompareUsing cmp u w).
Proof.
  intros Hl Hm. destruct (vagrees_flags R1 x u Hx) as ((N1 & B1 & I1 & F1) & S1 & L1 & M1).
  destruct (vagrees_flags R2 y w Hy) as ((N2 & B2 & I2 & F2) & S2 & L2 & M2).
  unfold V_CompareUsing, CompareUsing. rewrite N1, B1, I1, F1, S1, L1, M1, N2, B2, I2, F2, S2, L2, M2.
  destruct (IsFloat u) eqn:Fu, (IsFloat w) eqn:Fw, (IsInt u) eqn:Iu, (IsInt w) eqn:Iw; cbn [negb];
    rewrite ?(va_float R1 x u Hx), ?(va_float R2 y w Hy), ?(va_int R1 x u Hx), ?(va_int R2 y w Hy) by done; try done.
  destruct (IsString u) eqn:Su, (IsString w) eqn:Sw; cbn [negb];
    rewrite ?(va_string R1 x u Hx), ?(va_string R2 y w Hy) by done; try done.
  destruct (IsBool u) eqn:Bu, (IsBool w) eqn:Bw; cbn [negb];
    rewrite ?(va_bool R1 x u Hx), ?(va_bool R2 y w Hy) by done; try done.
  destruct (IsList u) eqn:Lu, (IsList w) eqn:Lw; cbn [negb]; try done; [by apply Hl; apply IsList_AsList|].
  destruct (IsMap u) eqn:Mu, (IsMap w) eqn:Mw; cbn [negb]; try done; [by apply Hm; apply IsMap_AsMap|].
  by destruct (IsNull u), (IsNull w).
Qed.

Lemma V_floatOperand_agrees R z v : vagrees R z v -> V_floatOperand z = Ret (floatOperand v).
Proof.
  intros H. destruct (vagrees_flags R z v H) as ((_ & _ & I & F) & _). unfold V_floatOperand, floatOperand. rewrite I, F.
  destruct (IsFloat v) eqn:Fv; [by rewrite (va_float R z v H)|]. destruct (IsInt v) eqn:Iv; [by rewrite (va_int R z v H)|done].
Qed.

Lemma V_EqualsUsing_agrees (P : Outcome bool -> bool -> Prop) `{!EqOutcome P} opaque rec (eq : value -> value -> bool) :
  (forall l m, u = VList l -> w = VList m -> P (L_EqualsUsing opaque rec x y) (ListEqualsUsing eq l m)) ->
  (forall l m, u = VMap l -> w = VMap m -> P (M_EqualsUsing rec x y) (mapUnstructuredString_EqualsUsing eq l m)) ->
  P (V_EqualsUsing opaque rec x y) (EqualsUsing eq u w).
Proof.
  intros Hl Hm. destruct (vagrees_flags R1 x u Hx) as ((N1 & B1 & I1 & F1) & S1 & L1 & M1).
  destruct (vagrees_flags R2 y w Hy) as ((N2 & B2 & I2 & F2) & S2 & L2 & M2).
  unfold V_EqualsUsing, EqualsUsing. rewrite N1, B1, I1, F1, S1, L1, M1, N2, B2, I2, F2, S2, L2, M2.
  destruct (IsFloat u || IsFloat w) eqn:Ff.
  { rewrite (V_floatOperand_agrees R1 x u Hx), (V_floatOperand_agrees R2 y w Hy). cbn [mbind Outcome_bind].
    destruct (floatOperand u), (floatOperand w); apply eq_ret. }
  destruct (IsInt u) eqn:Iu, (IsInt w) eqn:Iw; rewrite ?(va_int R1 x u Hx), ?(va_int R2 y w Hy) by done; try apply eq_ret.
  destruct (IsString u) eqn:Su, (IsString w) eqn:Sw; rewrite ?(va_string R1 x u Hx), ?(va_string R2 y w Hy) by done; try apply eq_ret.
  destruct (IsBool u) eqn:Bu, (IsBool w) eqn:Bw; rewrite ?(va_bool R1 x u Hx), ?(va_bool R2 y w Hy) by done; try apply eq_ret.
  destruct (IsList u) eqn:Lu, (IsList w) eqn:Lw; try apply eq_ret; [by apply Hl; apply IsList_AsList|].
  destruct (IsMap u) eqn:Mu, (IsMap w) eqn:Mw; try apply eq_ret; [by apply Hm; apply IsMap_AsMap|].
  destruct (IsNull u), (IsNull w); apply eq_ret.
Qed.
End Ladders.

Section Loops.
Context (R1 R2 : GoValue -> value -> Prop).

Lemma V_rangesCompare_agrees rec cmp l m r1 r2 fuel :
  (forall a b u w, R1 a u -> R2 b w -> rec a b = Ret (cmp u w)) ->
  shows_range R1 r1 l -> shows_range R2 r2 m -> (length l < fuel)%nat ->
  V_rangesCompare rec fuel r1 r2 = Ret (ListCompareUsing cmp l m).
Proof.
  intros Hrec. revert m r1 r2 fuel. induction l as [|u l IH]; intros m r1 r2 [|fuel] H1 H2 Hf; try (simpl in Hf; lia); cbn [V_rangesCompare].
  - pose proof (shows_range_nil R1 r1 H1) as E1. destruct (V_Next r1) as [r1' ok1]. cbn in E1. subst ok1. destruct m as [|w m].
    + pose proof (shows_range_nil R2 r2 H2) as E2. destruct (V_Next r2) as [r2' ok2]. cbn in E2. by subst ok2.
    + destruct (shows_range_cons R2 r2 w m H2) as (r2' & i & b & E & _). by rewrite E.
  - destruct (shows_range_cons R1 r1 u l H1) as (r1' & i & a & E1 & I1 & Ha & H1'). rewrite E1. destruct m as [|w m].
    + pose proof (shows_range_nil R2 r2 H2) as E2. destruct (V_Next r2) as [r2' ok2]. cbn in E2. by subst ok2.
    + destruct (shows_range_cons R2 r2 w m H2) as (r2' & j & b & E2 & I2 & Hb & H2'). rewrite E2, I1, I2.
      cbn [negb andb mbind Outcome_bind snd ListCompareUsing]. rewrite (Hrec _ _ _ _ Ha Hb). cbn [mbind Outcome_bind].
      destruct (cmp u w =? 0); cbn [negb]; [|done]. apply IH; [done|done|]. simpl in Hf. lia.
Qed.

Lemma V_rangesEqual_agrees (P : Outcome bool -> bool -> Prop) `{!EqOutcome P} rec eq l m r1 r2 fuel :
  (forall a b u w, R1 a u -> R2 b w -> P (rec a b) (eq u w)) ->
  shows_range R1 r1 l -> shows_range R2 r2 m -> (length l < fuel)%nat ->
  P (V_rangesEqual rec fuel r1 r2) (listRangeEquals eq l m).
Proof.
  intros Hrec. revert m r1 r2 fuel. induction l as [|u l IH]; intros m r1 r2 [|fuel] H1 H2 Hf; try (simpl in Hf; lia); cbn [V_rangesEqual].
  - pose proof (shows_range_nil R1 r1 H1) as E1. destruct (V_Next r1) as [r1' ok1]. cbn in E1. subst ok1. apply eq_ret.
  - destruct (shows_range_cons R1 r1 u l H1) as (r1' & i & a & E1 & I1 & Ha & H1'). rewrite E1. destruct m as [|w m].
    + pose proof (shows_range_nil R2 r2 H2) as E2. destruct (V_Next r2) as [r2' ok2]. cbn in E2. subst ok2. apply eq_ret.
    + destruct (shows_range_cons R2 r2 w m H2) as (r2' & j & b & E2 & I2 & Hb & H2'). rewrite E2, I1, I2.
      cbn [mbind Outcome_bind snd listRangeEquals]. apply eq_and; [by apply Hrec|]. apply IH; [done|done|]. simpl in Hf. lia.
Qed.

Lemma V_ListCompareUsing_agrees rec cmp x y l m :
  (forall a b u w, R1 a u -> R2 b w -> rec a b = Ret (cmp u w)) ->
  vagrees R1 x (VList l) -> vagrees R2 y (VList m) -> V_ListCompareUsing rec x y = Ret (ListCompareUsing cmp l m).
Proof.
  intros Hrec Hx Hy. destruct (va_list _ _ _ Hx l eq_refl) as [L1 H1]. destruct (va_list _ _ _ Hy m eq_refl) as [L2 H2].
  unfold V_ListCompareUsing. rewrite L1. apply V_rangesCompare_agrees; auto with lia.
Qed.

Lemma V_ListEqualsUsing_agrees (P : Outcome bool -> bool -> Prop) `{!EqOutcome P} rec eq x y l m :
  (forall a b u w, R1 a u -> R2 b w -> P (rec a b) (eq u w)) ->
  vagrees R1 x (VList l) -> vagrees R2 y (VList m) -> P (V_ListEqualsUsing rec x y) (ListEqualsUsing eq l m).
Proof.
  intros Hrec Hx Hy. destruct (va_list _ _ _ Hx l eq_refl) as [L1 H1]. destruct (va_list _ _ _ Hy m eq_refl) as [L2 H2].
  unfold V_ListEqualsUsing, ListEqualsUsing. rewrite L1, L2. destruct (negb _); [apply eq_ret|].
  apply (V_rangesEqual_agrees P); auto with lia.
Qed.

(** [EqualsUsing] of the maps that look up the entries of the other map. *)
Lemma entriesEqual_agrees (P : Outcome bool -> bool -> Prop) `{!EqOutcome P} rec eq get y l m :
  (forall a b u w, R1 a u -> R2 b w -> P (rec a b) (eq u w)) ->
  (forall k, exists o, get k = Ret o /\ option_Forall2 R1 o (assoc_get k l)) -> map_shows R2 y m ->
  P (entriesEqual rec (length l) get y) (mapUnstructuredString_EqualsUsing eq l m).
Proof.
  intros Hrec Hget (_ & Ly & _ & _ & ys & Fy & Iy). unfold entriesEqual, mapUnstructuredString_EqualsUsing. rewrite Ly. cbn [mbind Outcome_bind].
  destruct (negb _); [apply eq_ret|]. destruct (_ =? 0)%nat; [apply eq_ret|]. rewrite Iy. clear Iy Ly.
  induction Fy as [|[k b] [k' w] ys m [Ek Hb] Fy IH]; [apply eq_ret|]. cbn [fst snd] in Ek, Hb. subst k'. cbn [foldEntries map_Iterate].
  destruct (Hget k) as (o & Eo & Ho). rewrite Eo. cbn [mbind Outcome_bind]. destruct Ho as [a u Ha|]; [|apply eq_ret].
  pose proof (eq_and _ _ _ _ (Hrec _ _ _ _ Ha Hb) IH) as Hand. destruct (rec a b) as [|[]]; cbn in Hand |- *; destruct (eq u w); exact Hand.
Qed.
End Loops.

(** [CompareUsing] of any two values is that of their unstructured forms. *)
Lemma V_Compare_shows n x y u w : shows n x u -> shows n y w -> V_Compare n x y = Ret (Compare u w).
Proof.
  revert x y u w. induction n as [|n IH]; intros x y u w Hx Hy.
  { destruct x; [by destruct Hx as [_ [_ ?%Nat.nlt_0_r]]|by destruct Hx]. }
  pose proof (shows_agrees n x u Hx) as Ax. pose proof (shows_agrees n y w Hy) as Ay.
  rewrite Compare_unfold. cbn [V_Compare]. apply (V_CompareUsing_agrees _ _ _ _ _ _ Ax Ay).
  - intros l m -> ->. by apply (V_ListCompareUsing_agrees (shows n) (shows n)).
  - intros l m -> ->. unfold V_MapCompareUsing, MapCompareUsing. cbn [O_Length map_Length].
    pose proof (va_map _ _ _ Ax l eq_refl) as (_ & Ll & _). pose proof (va_map _ _ _ Ay m eq_refl) as (_ & Lm & _).
    rewrite Ll, Lm. cbn [mbind Outcome_bind]. destruct (_ && _); [done|]. cbn [V_MapZipUsing MapZipUsing defaultMapZip].
    destruct (M_ZipUsing_visits n x y l m LexicalKeyOrder Hx Hy) as (visits & vs & _ & Hv & F & E). rewrite (Hv eq_refl) in F.
    rewrite E, lexicalVisits_zip. erewrite (foldVisits_pure (shows n) (shows n)); [reflexivity|exact F|].
    intros k a b o1 o2 [c i] Ha Hb. cbn [snd]. destruct (i =? length l)%nat; [done|]. destruct (i =? length m)%nat; [done|].
    destruct Ha as [a v Ha|]; [|done]. destruct Hb as [b v' Hb|]; [|done]. by rewrite (IH a b v v' Ha Hb).
Qed.
(** *** Equality *)

(** The pairs a visit compares are equal. *)
Definition visitEqual (eq : value -> value -> bool) (v : Visit value) : bool :=
  match v.2 with (Some a, Some b) => eq a b | _ => false end.

Lemma visits_equal eq l m visits :
  NoDup (assoc_keys l) -> NoDup (assoc_keys m) -> length l = length m -> visits ≡ₚ zipEntries (Some l) (Some m) ->
  forallb (visitEqual eq) visits = mapUnstructuredString_EqualsUsing eq l m.
Proof.
  intros Nl Nm L P. apply eq_true_iff_eq. rewrite mapEquals_spec, forallb_Forall, P, Forall_forall. split.
  - intros H. split; [done|]. intros k v' Hv. apply (assoc_get_NoDup k v' m Nm) in Hv.
    pose proof (zipEntries_visits (Some l) (Some m) k) as Hz. cbn [map_Get] in Hz. rewrite Hv in Hz.
    specialize (H _ (proj1 Hz ltac:(by right))). unfold visitEqual in H. cbn [snd] in H. destruct (assoc_get k l) as [v|]; [by exists v|done].
  - intros [_ H] [k o] Hv. pose proof (zipEntries_values (Some l) (Some m) Nl Nm _ Hv) as E. cbn [fst snd map_Get] in E. subst o.
    unfold visitEqual. cbn [snd]. assert (Hk : forall k, k ∈ assoc_keys m -> k ∈ assoc_keys l).
    { intros k' ([k2 v'] & -> & Hin)%list_elem_of_fmap. destruct (H _ _ Hin) as (v & Ev & _). by eapply assoc_get_key. }
    assert (Hm : k ∈ assoc_keys m).
    { apply (zipEntries_visits (Some l) (Some m) k) in Hv. cbn [map_Get] in Hv. destruct Hv as [Hv|Hv]; apply not_eq_None_Some in Hv as [v Hv%assoc_get_key]; [|done].
      by apply (keys_within l m Nl Nm L Hk). }
    apply list_elem_of_fmap in Hm as ([k' v'] & -> & Hin). destruct (H _ _ Hin) as (v & Ev & Hq). cbn [fst].
    by rewrite Ev, (proj2 (assoc_get_NoDup _ _ m Nm) Hin).
Qed.

(** [MapEqualsUsing], given what the traversal visits. *)
Lemma V_MapEqualsUsing_agrees (P : Outcome bool -> bool -> Prop) `{!EqOutcome P} (R1 R2 : GoValue -> value -> Prop) rec eq x y l m visits vs :
  (forall a b u w, R1 a u -> R2 b w -> P (rec a b) (eq u w)) ->
  NoDup (assoc_keys l) -> NoDup (assoc_keys m) -> M_Length x = Ret (length l) -> M_Length y = Ret (length m) ->
  visits ≡ₚ zipEntries (Some l) (Some m) -> Forall2 (visits_rel R1 R2) vs visits ->
  (forall S (fn : string -> option GoValue -> option GoValue -> S -> Outcome (S * bool)) s,
    M_ZipUsing fn x (Some y) Unordered s = foldVisits fn vs s) ->
  P (V_MapEqualsUsing rec (Some x) (Some y)) (mapUnstructuredString_EqualsUsing eq l m).
Proof.
  intros Hrec Nl Nm Lx Ly Hp F E. unfold V_MapEqualsUsing. rewrite Lx, Ly. cbn [mbind Outcome_bind].
  destruct (Nat.eqb_spec (length l) (length m)) as [L|L]; cbn [negb].
  2: { unfold mapUnstructuredString_EqualsUsing. rewrite (proj2 (Nat.eqb_neq _ _) L). apply eq_ret. }
  cbn [V_MapZipUsing]. rewrite E, <-(visits_equal eq l m visits Nl Nm L Hp). clear E Hp.
  induction F as [|[k [a b]] [k' [o1 o2]] vs visits (Ek & Ha & Hb) F IH]; [apply eq_ret|]. cbn [fst snd] in Ha, Hb.
  cbn [foldVisits forallb]. unfold visitEqual at 1. cbn [snd].
  destruct Ha as [a u Ha|], Hb as [b w Hb|]; try apply eq_ret.
  pose proof (eq_and _ _ _ _ (Hrec _ _ _ _ Ha Hb) IH) as Hand. destruct (rec a b) as [|[]]; cbn in Hand |- *; destruct (eq u w); exact Hand.
Qed.

(** A reflected map or struct against any map. *)
Lemma M_EqualsUsing_reflect (P : Outcome bool -> bool -> Prop) `{!EqOutcome P} (R1 R2 : GoValue -> value -> Prop) rec eq n r y l m visits vs :
  (forall a b u w, R1 a u -> R2 b w -> P (rec a b) (eq u w)) ->
  shows (S n) (OfReflect r) (VMap l) -> (forall a c, c ∈ children (VMap l) -> shows n a c -> R1 a c) -> map_shows R2 y m ->
  visits ≡ₚ zipEntries (Some l) (Some m) -> Forall2 (visits_rel R1 R2) vs visits ->
  (forall S (fn : string -> option GoValue -> option GoValue -> S -> Outcome (S * bool)) s,
    M_ZipUsing fn (OfReflect r) (Some y) Unordered s = foldVisits fn vs s) ->
  P (M_EqualsUsing rec (OfReflect r) y) (mapUnstructuredString_EqualsUsing eq l m).
Proof.
  intros Hrec Hx HR1 Hy Hp F E. pose proof (shows_agrees n _ _ Hx) as Ax.
  pose proof (va_map _ _ _ Ax l eq_refl) as (Nl & Ll & _). pose proof Hy as (Nm & Lm & _).
  assert (Hk : r_IsMap r = true) by (pose proof (va_flags _ _ _ Ax) as Ef; by injection Ef).
  unfold M_EqualsUsing, r_IsMap in *. destruct (vr_kind r) eqn:Ek; try done.
  2: { by apply (V_MapEqualsUsing_agrees P R1 R2 rec eq _ _ l m visits vs). }
  unfold mapReflect_EqualsUsing. destruct r as [p d k]. cbn [vr_kind vr_Value] in *. subst k.
  destruct Hx as [Gl Hf]. destruct (full_entries n p d l Hf) as (gm & us & Ev & N & -> & Fm).
  pose proof (Forall2_length _ _ _ Fm) as Hl. unfold mapR_Length, Len, MapIndex. cbn [vr_Value]. rewrite Ev.
  replace (length gm) with (length (zip gm.*1 us)) by (rewrite length_zip_with, length_fmap; lia).
  apply (entriesEqual_agrees R1 R2 P); [done| |done]. intros k. pose proof (zip_get _ gm us k Fm) as Hg.
  destruct (assoc_get k (zip gm.*1 us)) as [u|] eqn:Eu; [|rewrite Hg; exists None; by split; [|constructor]].
  destruct Hg as (z & -> & Hz). destruct (Hz (Some (Type_Elem (rv_type d))) None) as (r' & Er & Hr); [by right|].
  exists (Some (OfReflect r')). cbn [fmap option_fmap option_map snd] in *. rewrite Er. split; [done|]. constructor.
  pose proof (assoc_get_child k _ u Eu) as Hc. apply HR1; [done|]. split; [by eapply go_value_child|done].
Qed.

(** [EqualsUsing] of two values is that of their unstructured forms, unless lists of two reflected
    values meet. *)
Lemma V_Equals_shows opaque n x y u w :
  shows n x u -> shows n y w -> (exists v, x = OfUnstructured v) \/ (exists v, y = OfUnstructured v) \/ no_lists u = true ->
  V_Equals opaque n x y = Ret (Equals u w).
Proof.
  revert x y u w. induction n as [|n IH]; intros x y u w Hx Hy Hc.
  { destruct x; [by destruct Hx as [_ [_ ?%Nat.nlt_0_r]]|by destruct Hx]. }
  pose proof (shows_agrees n x u Hx) as Ax. pose proof (shows_agrees n y w Hy) as Ay. rewrite Equals_unfold. cbn [V_Equals].
  destruct x as [v|r].
  - assert (v = u) as -> by apply Hx. assert (Hu : shows_unstructured (S n) (OfUnstructured u) u) by (split; [done|by eexists]).
    apply shows_unstructured_agrees in Hu.
    assert (Hrec : forall a b u w, shows_unstructured n a u -> shows n b w -> V_Equals opaque n a b = Ret (Equals u w)).
    { intros a b u' w' [Ha He] Hb. apply IH; auto. }
    apply (V_EqualsUsing_agrees _ _ _ _ _ _ Hu Ay exactly).
    + intros l m -> ->. by apply (V_ListEqualsUsing_agrees (shows_unstructured n) (shows n) exactly).
    + intros l m -> ->. cbn [M_EqualsUsing AsMap]. apply (entriesEqual_agrees (shows_unstructured n) (shows n) exactly); [done| |by apply (va_map _ _ _ Ay)].
      intros k. destruct (zip_get_related _ l (shows_unstructured n) k (va_map _ _ _ Hu l eq_refl)) as (o & Eo & Ho). exists o. by split.
  - destruct y as [v|o].
    + assert (v = w) as -> by apply Hy. assert (Hw : shows_unstructured (S n) (OfUnstructured w) w) by (split; [done|by eexists]).
      apply shows_unstructured_agrees in Hw.
      assert (Hrec : forall a b u w, shows n a u -> shows_unstructured n b w -> V_Equals opaque n a b = Ret (Equals u w)).
      { intros a b u' w' Ha [Hb He]. apply IH; auto. }
      apply (V_EqualsUsing_agrees _ _ _ _ _ _ Ax Hw exactly).
      * intros l m -> ->. by apply (V_ListEqualsUsing_agrees (shows n) (shows_unstructured n) exactly).
      * intros l m -> ->. destruct (unorderedZip_visits (shows n) (shows_unstructured n) _ _ l m (va_map _ _ _ Ax l eq_refl)
          (va_map _ _ _ Hw m eq_refl)) as (vs & F & E).
        eapply (M_EqualsUsing_reflect exactly (shows n) (shows_unstructured n)); [done|exact Hx|done|by apply (va_map _ _ _ Hw)|done|exact F|].
        intros T fn s. rewrite <-E. cbn [M_ZipUsing]. by destruct (vr_kind r).
    + destruct Hc as [[? [=]]|[[? [=]]|Hc]]. apply (V_EqualsUsing_agrees _ _ _ _ _ _ Ax Ay exactly); [by intros l m -> ->|].
      intros l m -> ->. destruct (M_ZipUsing_visits n _ _ l m Unordered Hx Hy) as (visits & vs & P & _ & F & E).
      eapply (M_EqualsUsing_reflect exactly (fun a c => shows n a c /\ no_lists c = true) (shows n)); [|exact Hx| |by apply (va_map _ _ _ Ay)|exact P| |exact E].
      * intros a b u w [Ha Hn] Hb. apply IH; auto.
      * intros a c Hin Ha. split; [done|by eapply no_lists_child].
      * eapply Forall2_impl_in; [|exact F]. intros [k [a b]] [k' [o1 o2]] _ Hin (Ek & Ha & Hb). split; [done|]. split; [|done]. cbn [fst snd] in *.
        destruct Ha as [a c Ha|]; constructor. split; [done|]. eapply no_lists_child; [exact Hc|].
        pose proof (perm_entries l m visits P) as He. unfold entry_visits in He. rewrite Forall_forall in He.
        apply (list_elem_of_fmap_2 snd _ (k', c)). by apply (proj1 (He _ Hin)).
Qed.
(** ** Values as the package makes them *)

(** [x] is [u]: an unstructured value at most [n] deep, or what [NewValueReflect] returns for a supported
    object, with [u] its unstructured form. *)
Definition represents (n : nat) (x : GoValue) (u : value) : Prop :=
  go_value u = true /\
  match x with
  | OfUnstructured v => v = u /\ (height v < n)%nat
  | OfReflect r => exists t v, Type_Kind t = KdPtr /\ supported n (ValueOf t v) = true /\
      NewValueReflect (Some (t, v)) = Ret (inr (inr r)) /\ Unstructured n r = Ret u
  end.

Lemma represents_shows n x u : represents n x u -> shows n x u.
Proof.
  intros [Hg Hx]. split; [done|]. destruct x as [v|r]; [done|]. destruct Hx as (t & v & Hk & Hv & En & Eu).
  destruct (supported_full n (ValueOf t v) Hv) as [u' Hp]. destruct (Hp None None) as (r' & Er & Hr); [by left|].
  unfold NewValueReflect, wrapValueReflect in En. rewrite Hk in En. unfold mustReuse in Er.
  destruct (reuse (ValueOf t v) None None) as [|[|r2]]; try done. injection En as ->. injection Er as ->.
  pose proof (full_Unstructured n r' u' Hr) as E. rewrite Eu in E. by injection E as <-.
Qed.
End Shallow.
End Spec.
