(* ===== verification/ReflectEqual.v ===== *)
(** * Deep equality of Go values

    Two reflected lists are compared with [reflect.DeepEqual].  Deeply equal
    values of one type show equal unstructured forms, so [EqualsUsing] never
    says that values are equal whose forms differ; it says that values differ
    whose forms are equal when the Go values of two lists differ in what the
    forms do not show.  Types with their own conversion are not looked into: this
    is for programs in which deeply equal values of such a type are the same
    value ([conversions_exact]). *)
From S2P Require Import Prelude GoLib GoFloat Value ValueOrder Schema TypedHelpers GoReflect JsonTag ReflectCache.
From S2P Require Import ReflectCacheSpec ValueReflect ReflectSpec MapZip ReflectZip Unstructured ValueInterface ValueInterfaceSpec.

Lemma float_eqb_zero x y : float_eqb x y = true -> float_eqb x (S754_zero false) = float_eqb y (S754_zero false).
Proof. by destruct x as [[]|[]| |[]], y as [[]|[]| |[]]. Qed.

Section Deep.
Context {Pg : GoProgram} {J : GoJson}.
Context (opaqueEqual : bool).

Abbreviation deepEqual := (GoDeepEqual opaqueEqual).

(** ** What deep equality preserves *)

Lemma deep_slice x y :
  deepEqual (GSlice x) (GSlice y) = true <-> Forall2 (fun a b => deepEqual a b = true) x y.
Proof.
  revert y. induction x as [|a x IH]; intros [|b y]; [by split|split; [done|by inversion 1]..|].
  rewrite Forall2_cons, <-IH. cbn. by rewrite andb_true_iff.
Qed.

Lemma deep_struct x y :
  deepEqual (GStruct x) (GStruct y) = true <-> Forall2 (fun a b => deepEqual a b = true) x y.
Proof. rewrite <-deep_slice. done. Qed.

Lemma deep_map x y :
  deepEqual (GMap x) (GMap y) = true <->
  length x = length y /\ forall k a, (k, a) ∈ x -> exists b, assoc_get k y = Some b /\ deepEqual a b = true.
Proof.
  cbn [GoDeepEqual]. rewrite andb_true_iff, Nat.eqb_eq, forallb_Forall, Forall_forall. apply and_iff_compat_l. split.
  - intros H k a Hin. specialize (H (k, a) Hin). cbn in H. destruct (assoc_get k y) as [b|]; [by exists b|done].
  - intros H [k a] Hin. destruct (H k a Hin) as (b & E & Hb). cbn. by rewrite E.
Qed.

(** Values of one type that are deeply equal, both addressable or not. *)
Definition deep (a b : RValue) : Prop :=
  (rv_type a = rv_type b /\ rv_addr a = rv_addr b) /\ deepEqual (rv_val a) (rv_val b) = true.

(** Values without floats, maps, channels and functions. *)
Fixpoint exact (v : GoVal) : bool :=
  match v with
  | GNil | GBool _ | GInt _ | GString _ => true
  | GFloat _ | GMap _ | GOpaque => false
  | GSlice l | GStruct l => forallb exact l
  | GPtr x | GIface _ x => exact x
  end.

Lemma exact_all l m :
  Forall (fun a => forall b, exact a = true -> deepEqual a b = true -> a = b) l ->
  forallb exact l = true -> Forall2 (fun a b => deepEqual a b = true) l m -> l = m.
Proof.
  intros F E D. induction D as [|a b l m H D IH]; [done|]. cbn in E. apply andb_true_iff in E as [Ea E].
  apply Forall_cons in F as [Fa F]. by rewrite (Fa b Ea H), (IH F E).
Qed.

(** Deep equality of such values is equality. *)
Lemma exact_deep a : forall b, exact a = true -> deepEqual a b = true -> a = b.
Proof.
  induction a as [|b0|i|f|s|l IH|m IH|v IH|t v IH|l IH|] using GoVal_rect_nested; intros b Ha Hd; try done; destruct b; try done; cbn in Ha.
  - cbn in Hd. by apply eqb_prop in Hd as ->.
  - cbn in Hd. by apply Z.eqb_eq in Hd as ->.
  - cbn in Hd. by apply string_eqb_true in Hd as ->.
  - apply deep_slice in Hd. f_equal. by apply exact_all.
  - f_equal. by apply IH.
  - cbn in Hd. apply andb_true_iff in Hd as [->%bool_decide_eq_true Hd]. f_equal. by apply IH.
  - apply deep_struct in Hd. f_equal. by apply exact_all.
Qed.

Lemma deep_nil a b : deepEqual a b = true -> (match a with GNil => true | _ => false end) = (match b with GNil => true | _ => false end).
Proof. by destruct a, b. Qed.

Lemma deep_safeIsNil a b : deep a b -> safeIsNil a = safeIsNil b.
Proof. intros [[Et _] Ed]. unfold safeIsNil, Kind. rewrite Et. destruct (Type_Kind _); try done; by apply deep_nil. Qed.

Lemma deep_kind a b : deep a b -> kind a = kind b.
Proof.
  intros [[Et _] Ed]. unfold kind, nilOr, Kind. rewrite Et. apply deep_nil in Ed.
  destruct (Type_Kind (rv_type b)) as [|[]| | | | | | | | | | | | | |]; try done; by destruct (rv_val a), (rv_val b).
Qed.

Definition deep_outcome (a b : Outcome RValue) : Prop :=
  match a, b with Ret a, Ret b => deep a b | _, _ => True end.

Lemma deep_dereference a b : deep a b -> deep_outcome (dereference a) (dereference b).
Proof.
  intros D. pose proof D as [[Et Ea] Ed]. unfold dereference. rewrite <-(deep_safeIsNil a b D). unfold Kind. rewrite <-Et.
  destruct (_ && _); [|done]. unfold Elem. destruct (rv_val a), (rv_val b); try done; cbn in Ed.
  - by repeat split; cbn; rewrite ?Et.
  - apply andb_true_iff in Ed as [->%bool_decide_eq_true Ed]. by split.
Qed.

Lemma deep_Field a b i : deep a b -> deep_outcome (Field_ a i) (Field_ b i).
Proof.
  intros [[Et Ea] Ed]. unfold Field_. rewrite <-Et. destruct (rv_val a) as [| | | | | | | | |x|]; try done.
  destruct (rv_val b) as [| | | | | | | | |y|]; try done.
  - destruct (Type_Fields _ !! i) as [f|]; [|done]. destruct (x !! i) as [u|] eqn:Ex; [|done]. destruct (y !! i) as [w|] eqn:Ey; [|done].
    split; [by split|]. apply deep_struct in Ed. exact (Forall2_lookup_lr _ _ _ _ _ _ Ed Ex Ey).
Qed.

Lemma deep_bind x y (f g : RValue -> Outcome RValue) :
  deep_outcome x y -> (forall a b, deep a b -> deep_outcome (f a) (g b)) -> deep_outcome (x ≫= f) (y ≫= g).
Proof. destruct x as [|a], y as [|b]; cbn; auto. by destruct (f a). Qed.

Lemma deep_getFrom path a b : deep a b -> deep_outcome (getFrom path a) (getFrom path b).
Proof.
  revert a b. induction path as [|i path IH]; intros a b D; [exact D|]. cbn [getFrom].
  apply deep_bind; [by apply deep_dereference|]. intros a1 b1 D1. apply deep_bind; [by apply deep_Field|]. intros a2 b2 D2. by apply IH.
Qed.

Lemma deep_Len a b : deep a b -> Len a = Len b.
Proof.
  intros [_ Ed]. unfold Len. destruct (rv_val a) as [| | | |x|x|x| | | |], (rv_val b) as [| | | |y|y|y| | | |]; try done.
  - cbn in Ed. by apply string_eqb_true in Ed as ->.
  - apply deep_slice in Ed. by eapply Forall2_length.
  - by apply deep_map in Ed as [E _].
Qed.

Lemma deep_isZero a b : deep a b -> isZero a = isZero b.
Proof.
  intros D. pose proof D as [[Et _] Ed]. unfold isZero, IsNil, Kind. rewrite Et, (deep_Len a b D).
  destruct (Type_Kind (rv_type b)); try done; f_equal; destruct (rv_val a), (rv_val b); try done; cbn in Ed.
  - by apply eqb_prop in Ed as ->.
  - by apply Z.eqb_eq in Ed as ->.
  - by apply Z.eqb_eq in Ed as ->.
  - by apply float_eqb_zero.
  - by apply float_eqb_zero.
Qed.

Lemma deep_CanOmit f a b : deep a b -> CanOmit f a = CanOmit f b.
Proof. intros D. unfold CanOmit. by rewrite (deep_safeIsNil a b D), (deep_isZero a b D). Qed.

Lemma deep_Bytes a b : deep a b -> Bytes a = Bytes b.
Proof.
  intros [_ Ed]. unfold Bytes. destruct (rv_val a) as [| | | | |x| | | | |], (rv_val b) as [| | | | |y| | | | |]; try done.
  apply deep_slice in Ed. induction Ed as [|a' b' x y H F IH]; [done|]. cbn. rewrite IH. f_equal.
  destruct a', b'; try done. cbn in H. by apply Z.eqb_eq in H.
Qed.

(** ** Deeply equal values show equal forms *)

Hypothesis shallow : forall t, Type_Kind t = KdStruct -> inlineWithin 2 t = true.

(** The types of the program that have conversion methods hold no floats, maps, channels or functions
    (so that values of such a type are deeply equal only if they are the same), and convert to values
    that are deeply equal to themselves (which hold no NaN). *)
Definition conversions_exact : Prop := forall x u,
  converts (rv_type x) = true -> ToUnstructured (flagsOf (rv_type x)) x = inr u ->
  exact (rv_val x) = true /\ deepEqual (goVal u).2 (goVal u).2 = true.
Hypothesis conversions : conversions_exact.

Lemma deep_presented a b : deep a b -> deep_outcome (presented a) (presented b).
Proof.
  intros D. pose proof D as [[Et Ea] Ed]. unfold presented. rewrite <-Et. destruct (converts (rv_type a)) eqn:Ec; [|done].
  destruct (ToUnstructured _ a) as [|u] eqn:Eu; [done|]. destruct (conversions a u Ec Eu) as [Hx Hu].
  assert (b = a) as ->.
  { destruct a as [t x p], b as [t' y p']. cbn in *. subst. by rewrite (exact_deep x y). }
  rewrite Eu. destruct u; try done; by repeat split.
Qed.

(** What [mustReuse] makes of deeply equal values. *)
Lemma deep_mustReuse a b r1 r2 c1 c2 p1 p2 :
  deep a b -> own_entry c1 a -> own_entry c2 b -> mustReuse a c1 p1 = Ret r1 -> mustReuse b c2 p2 = Ret r2 -> deep (vr_Value r1) (vr_Value r2).
Proof.
  intros D O1 O2. rewrite !(mustReuse_presented shallow) by done. pose proof (deep_presented a b D) as Dp.
  destruct (presented a) as [|x], (presented b) as [|y]; try done. cbn in Dp |- *.
  pose proof (deep_dereference x y Dp) as Dd. destruct (dereference x) as [|x'], (dereference y) as [|y']; try done. cbn in Dd |- *.
  destruct (kind x'), (kind y'); try done. cbn. by intros [= <-] [= <-].
Qed.

Lemma deep_presents (R : valueReflect -> value -> Prop) a b u w :
  (forall r1 r2 u w, deep (vr_Value r1) (vr_Value r2) -> R r1 u -> R r2 w -> Equals u w = true) ->
  deep a b -> presents R a u -> presents R b w -> Equals u w = true.
Proof.
  intros HR D P1 P2. destruct (P1 None None) as (r1 & E1 & H1); [by left|]. destruct (P2 None None) as (r2 & E2 & H2); [by left|].
  apply (HR r1 r2); [|done|done]. eapply deep_mustReuse; [exact D| | |exact E1|exact E2]; by left.
Qed.

Lemma Equals_list l m : Equals (VList l) (VList m) = ListEqualsUsing Equals l m.
Proof. by rewrite Equals_unfold. Qed.
Lemma Equals_map l m : Equals (VMap l) (VMap m) = mapUnstructuredString_EqualsUsing Equals l m.
Proof. by rewrite Equals_unfold. Qed.

Section Parts.
Context (R : valueReflect -> value -> Prop).
Hypothesis HR : forall a b u w, deep a b -> presents R a u -> presents R b w -> Equals u w = true.

Lemma deep_lists t l m us ws :
  Forall2 (fun x u => presents R (mkRV t x true) u) l us -> Forall2 (fun x w => presents R (mkRV t x true) w) m ws ->
  Forall2 (fun a b => deepEqual a b = true) l m -> Equals (VList us) (VList ws) = true.
Proof.
  intros F1 F2 F. rewrite Equals_list, listEquals_Forall2. revert us ws F1 F2.
  induction F as [|a b l m D F IH]; intros us ws F1 F2; inversion_clear F1; inversion_clear F2; [constructor|].
  constructor; [|by apply IH]. by eapply (HR (mkRV t a true) (mkRV t b true)).
Qed.

Lemma deep_maps t l m us ws :
  NoDup (assoc_keys l) -> NoDup (assoc_keys m) ->
  Forall2 (fun kv u => presents R (mkRV t kv.2 false) u) l us -> Forall2 (fun kv w => presents R (mkRV t kv.2 false) w) m ws ->
  deepEqual (GMap l) (GMap m) = true -> Equals (VMap (zip l.*1 us)) (VMap (zip m.*1 ws)) = true.
Proof.
  intros N1 N2 F1 F2 [L D]%deep_map. pose proof (Forall2_length _ _ _ F1) as L1. pose proof (Forall2_length _ _ _ F2) as L2.
  rewrite Equals_map, mapEquals_spec, !length_zip_with, !length_fmap. split; [lia|]. intros k w Hw.
  assert (Hk : k ∈ assoc_keys (zip l.*1 us)).
  { apply (keys_within (zip m.*1 ws) (zip l.*1 us)); rewrite ?zip_keys by lia; [done|done|rewrite !length_zip_with, !length_fmap; lia| |].
    - intros k' ([k2 a] & -> & Ha)%list_elem_of_fmap. destruct (D k2 a Ha) as (b & Hb & _). by apply assoc_get_Some, (list_elem_of_fmap_2 fst) in Hb.
    - pose proof (list_elem_of_fmap_2 fst _ _ Hw : k ∈ assoc_keys (zip m.*1 ws)) as Hk. by rewrite zip_keys in Hk. }
  apply (assoc_get_NoDup k w) in Hw; [|by rewrite zip_keys].
  pose proof (zip_get _ m ws k F2) as G2. rewrite Hw in G2. destruct G2 as (b & Eb & Pb).
  pose proof (zip_get _ l us k F1) as G1. destruct (assoc_get k (zip l.*1 us)) as [u|] eqn:Eu.
  - destruct G1 as (a & Ea & Pa). exists u. split; [done|]. apply assoc_get_Some in Ea. destruct (D k a Ea) as (b' & Eb' & Dab).
    rewrite Eb in Eb'. injection Eb' as <-. by eapply (HR (mkRV t a false) (mkRV t b false)).
  - by apply assoc_get_None in Eu.
Qed.

Lemma deep_fields d1 d2 fields os1 os2 :
  deep d1 d2 -> NoDup (fi_name <$> fields) -> Forall2 (field_shows R d1) fields os1 -> Forall2 (field_shows R d2) fields os2 ->
  Equals (VMap (visible fields os1)) (VMap (visible fields os2)) = true.
Proof.
  intros D N F1 F2. assert (F : Forall2 (option_Forall2 (fun u w => Equals u w = true)) os1 os2).
  { clear N. revert os2 F2. induction F1 as [|f o1 fields os1 (v1 & m1 & G1 & O1 & T1 & H1) F1 IH]; intros os2 F2;
      inversion_clear F2 as [|? o2 ? os2' (v2 & m2 & G2 & O2 & T2 & H2)]; [constructor|]. constructor; [|by apply IH].
    pose proof (deep_getFrom (fi_path f) d1 d2 D) as Dv. unfold GetFrom in G1, G2. rewrite G1, G2 in Dv. cbn in Dv.
    rewrite (deep_CanOmit f v1 v2 Dv), O2 in O1. injection O1 as ->.
    destruct o1 as [u|], o2 as [w|]; [|by destruct H1; subst|by destruct H2; subst|constructor].
    constructor. destruct H1 as [_ P1], H2 as [_ P2]. by eapply HR. }
  rewrite Equals_map, mapEquals_spec. clear D. split.
  - clear F1 F2 N. revert fields. induction F as [|o1 o2 os1 os2 Ho F IH]; intros [|f fields]; [done..|]. rewrite !visible_cons.
    destruct Ho; cbn; auto.
  - intros k w Hw. unfold visible in Hw. apply list_elem_of_omap in Hw as ([f o2] & Hin & Ef).
    destruct o2 as [w'|]; [|done]. cbn in Ef. injection Ef as <- <-. apply list_elem_of_lookup in Hin as [i Hi].
    apply lookup_zip_with_Some in Hi as (f' & o2 & [= <- <-] & Hf & Ho2).
    destruct (Forall2_lookup_r _ _ _ _ _ F Ho2) as (o1 & Ho1 & Ho). inversion Ho as [u w2 E|]; subst.
    exists u. split; [|done]. by apply (visible_get R d1 _ _ i f (Some u) F1 N).
Qed.
End Parts.

(** The form of a value that is not a map or struct. *)
Lemma full_form n p d k u :
  full (S n) (mkValueReflect p d k) u ->
  match k, rv_val d with
  | nullType, _ => u = VNull
  | boolType, GBool b => u = VBool b
  | intType, GInt i => u = VInt KInt64 i
  | uintType, GInt i => u = VInt KInt64 (to_int64 i)
  | floatType, GFloat x => u = VFloat64 x
  | stringType, GString x => u = VString x
  | byteStringType, GSlice _ => u = VString (base64_encode (Bytes d))
  | listType, GSlice l => exists us, u = VList us /\ Forall2 (fun x u => presents (full n) (mkRV (Type_Elem (rv_type d)) x true) u) l us
  | mapType, GMap _ | structMapType, GStruct _ => exists m, u = VMap m
  | _, _ => False
  end.
Proof.
  intros (U & A & K & P). cbn [vr_kind vr_Value] in K, P. pose proof (kind_Kind _ _ K) as Kd. unfold plain in P. rewrite K in P.
  destruct k, (rv_val d) eqn:Ev; try done;
    try (destruct A as [Ef _]; destruct u; try done; by eexists);
    try (destruct (scalar_agrees (full n) (Unstructured n) p d _ _ K ltac:(rewrite Ev; reflexivity)) as [U' _];
      cbn [Unstructured] in U; rewrite U' in U; by injection U).
  destruct (presents_all (full n) (fun x => mkRV (Type_Elem (rv_type d)) x true) (supported n) l (supported_full shallow n) P) as [us Hus].
  exists us. split; [|done].
  destruct (list_agrees (full n) (Unstructured n) (full_Unstructured n) p d l us Ev Kd Hus) as [U' _].
  cbn [Unstructured] in U. rewrite U' in U. by injection U.
Qed.

(** The forms of deeply equal lists. *)
Lemma deep_list_forms n r1 r2 l m :
  (forall a b u w, deep a b -> presents (full n) a u -> presents (full n) b w -> Equals u w = true) ->
  rv_type (vr_Value r1) = rv_type (vr_Value r2) -> deepEqual (rv_val (vr_Value r1)) (rv_val (vr_Value r2)) = true ->
  full (S n) r1 (VList l) -> full (S n) r2 (VList m) -> Equals (VList l) (VList m) = true.
Proof.
  intros HR Et Ed H1 H2. destruct r1 as [p1 d1 k1], r2 as [p2 d2 k2]. cbn [vr_Value] in Et, Ed.
  apply full_form in H1, H2.
  assert (G : forall d k us, match k, rv_val d with
      | nullType, _ => VList us = VNull | boolType, GBool b => VList us = VBool b | intType, GInt i => VList us = VInt KInt64 i
      | uintType, GInt i => VList us = VInt KInt64 (to_int64 i) | floatType, GFloat x => VList us = VFloat64 x
      | stringType, GString x => VList us = VString x | byteStringType, GSlice _ => VList us = VString (base64_encode (Bytes d))
      | listType, GSlice l => exists us', VList us = VList us' /\
          Forall2 (fun x u => presents (full n) (mkRV (Type_Elem (rv_type d)) x true) u) l us'
      | mapType, GMap _ | structMapType, GStruct _ => exists m, VList us = VMap m | _, _ => False end ->
    exists x, rv_val d = GSlice x /\ Forall2 (fun x u => presents (full n) (mkRV (Type_Elem (rv_type d)) x true) u) x us).
  { intros d k us. destruct k, (rv_val d) as [| | | | |x|x| | | |]; try done; try (by intros [? ?]).
    intros (us' & [= <-] & F). by exists x. }
  apply G in H1 as (x & Ex & F1), H2 as (y & Ey & F2). rewrite Ex, Ey in Ed. rewrite Et in F1.
  eapply (deep_lists (full n) HR); [exact F1|exact F2|by apply deep_slice].
Qed.

(** Deeply equal values have equal forms. *)
Lemma deep_full n r1 r2 u w :
  deep (vr_Value r1) (vr_Value r2) -> full n r1 u -> full n r2 w -> Equals u w = true.
Proof.
  revert r1 r2 u w. induction n as [|n IH]; intros r1 r2 u w D H1 H2; [done|].
  assert (HR : forall a b u w, deep a b -> presents (full n) a u -> presents (full n) b w -> Equals u w = true).
  { intros a b u' w'. apply deep_presents. exact IH. }
  destruct r1 as [p1 d1 k], r2 as [p2 d2 k2]. cbn [vr_Value] in D.
  assert (k2 = k) as ->.
  { pose proof (deep_kind d1 d2 D) as E. destruct H1 as (_ & _ & K1 & _), H2 as (_ & _ & K2 & _). cbn in K1, K2. congruence. }
  pose proof (full_form n p1 d1 k u H1) as G1. pose proof (full_form n p2 d2 k w H2) as G2. pose proof D as [[Et _] Ed].
  destruct k; try (by subst).
  - destruct (rv_val d1) as [| | | | | |m1| | | |] eqn:E1; try done. destruct (rv_val d2) as [| | | | | |m2| | | |] eqn:E2; try done.
    destruct G1 as [l ->], G2 as [m ->].
    destruct (full_entries shallow n p1 d1 l H1) as (g1 & us & V1 & N1 & -> & F1). destruct (full_entries shallow n p2 d2 m H2) as (g2 & ws & V2 & N2 & -> & F2).
    rewrite E1 in V1. rewrite E2 in V2. injection V1 as <-. injection V2 as <-. rewrite Et in F1. by eapply (deep_maps (full n) HR).
  - destruct (rv_val d1) eqn:E1; try done. destruct (rv_val d2) eqn:E2; try done. destruct G1 as [l ->], G2 as [m ->].
    destruct (full_fields shallow n p1 d1 l H1) as (os1 & F1 & ->). destruct (full_fields shallow n p2 d2 m H2) as (os2 & F2 & ->).
    rewrite <-Et in F2 |- *. eapply (deep_fields (full n) HR d1 d2); [done|apply orderedLayout_NoDup|done|done].
  - destruct (rv_val d1) as [| | | | |l1| | | | |] eqn:E1; try done. destruct (rv_val d2) as [| | | | |l2| | | | |] eqn:E2; try done.
    destruct G1 as (us & -> & F1), G2 as (ws & -> & F2). eapply (deep_list_forms n (mkValueReflect p1 d1 _) (mkValueReflect p2 d2 _)); cbn [vr_Value]; rewrite ?E1, ?E2; [exact HR|exact Et|exact Ed|exact H1|exact H2].
  - destruct (rv_val d1), (rv_val d2); try done. subst. cbn in Ed. apply Z.eqb_eq in Ed as ->. rewrite Equals_unfold. cbn. apply Z.eqb_refl.
  - destruct (rv_val d1), (rv_val d2); try done. subst. cbn in Ed. apply Z.eqb_eq in Ed as ->. rewrite Equals_unfold. cbn. apply Z.eqb_refl.
  - destruct (rv_val d1), (rv_val d2); try done. subst. by rewrite Equals_unfold.
  - destruct (rv_val d1), (rv_val d2); try done. subst. by rewrite Equals_unfold.
  - rewrite (deep_Bytes d1 d2 D) in G1. destruct (rv_val d1), (rv_val d2); try done. subst. rewrite Equals_unfold. apply string_eqb_refl.
  - destruct (rv_val d1), (rv_val d2); try done. subst. by rewrite Equals_unfold.
Qed.
(** [EqualsUsing] of any two values returns, and says that they are equal only if their forms are. *)
Lemma V_Equals_sound n x y u w : shows n x u -> shows n y w -> at_most (V_Equals opaqueEqual n x y) (Equals u w).
Proof.
  revert x y u w. induction n as [|n IH]; intros x y u w Hx Hy.
  { destruct x; [by destruct Hx as [_ [_ ?%Nat.nlt_0_r]]|by destruct Hx]. }
  pose proof (shows_agrees n x u Hx) as Ax. pose proof (shows_agrees n y w Hy) as Ay. rewrite Equals_unfold. cbn [V_Equals].
  apply (V_EqualsUsing_agrees _ _ _ _ _ _ Ax Ay at_most).
  - intros l m -> ->. assert (Hl : at_most (V_ListEqualsUsing (V_Equals opaqueEqual n) x y) (ListEqualsUsing Equals l m))
      by (by apply (V_ListEqualsUsing_agrees (shows n) (shows n) at_most)).
    destruct x as [v|r]; [exact Hl|]. destruct y as [v|o]; [exact Hl|]. cbn [L_EqualsUsing]. eexists. split; [done|].
    unfold R_DeepEqual. intros [Et%bool_decide_eq_true Ed]%andb_true_iff. rewrite <-Equals_list.
    destruct Hx as [_ Hx], Hy as [_ Hy]. apply (deep_list_forms n r o); try done.
    intros a b u w. apply deep_presents, deep_full.
  - intros l m -> ->. destruct x as [v|r].
    + assert (v = VMap l) as -> by apply Hx. cbn [M_EqualsUsing AsMap].
      apply (entriesEqual_agrees (shows n) (shows n) at_most); [done| |by apply (va_map _ _ _ Ay)].
      intros k. destruct (zip_get_related _ l (shows n) k (va_map _ _ _ Ax l eq_refl)) as (o & Eo & Ho). by exists o.
    + destruct (M_ZipUsing_visits shallow n _ _ l m Unordered Hx Hy) as (visits & vs & Hp & _ & F & E).
      eapply (M_EqualsUsing_reflect shallow at_most (shows n) (shows n)); [exact IH|exact Hx|done|by apply (va_map _ _ _ Ay)|exact Hp|exact F|exact E].
Qed.
End Deep.
