(* ===== verification/Compare.v ===== *)
(** * Package typed: comparing two objects

    Models [typed/compare.go].  The walker's mutable fields are the state:
    [inLeaf], which is its own, and the comparison, which all walkers share.
    Recursion as in [Validate]; the fuel is the larger of the two heights. *)
From S2P Require Import Prelude GoLib GoFloat Value ValueOrder MapZip PathElement SortedSlice.
From S2P Require Import FieldSet FieldSetSpec FieldSetOps FieldSetInsert PathElementMap Schema TypedHelpers Validate.

Record Comparison := mkComparison {
  Removed : FSet;
  Modified : FSet;
  Added : FSet;
}.

Definition IsSame (c : Comparison) : bool :=
  Set_Empty (Removed c) && Set_Empty (Modified c) && Set_Empty (Added c).

(** [fields] may be nil. *)
Definition ExcludeFields (c : Comparison) (fields : option FSet) : Comparison :=
  match fields with
  | None => c
  | Some fields =>
    if Set_Empty fields then c
    else mkComparison (Set_RecursiveDifference (Removed c) fields)
      (Set_RecursiveDifference (Modified c) fields) (Set_RecursiveDifference (Added c) fields)
  end.

Definition insertRemoved (p : Path) (c : Comparison) : Comparison :=
  mkComparison (Set_Insert (Removed c) p) (Modified c) (Added c).
Definition insertModified (p : Path) (c : Comparison) : Comparison :=
  mkComparison (Removed c) (Set_Insert (Modified c) p) (Added c).
Definition insertAdded (p : Path) (c : Comparison) : Comparison :=
  mkComparison (Removed c) (Modified c) (Set_Insert (Added c) p).

(** The state of a [compareWalker]: [inLeaf] and the shared comparison. *)
Abbreviation cmpState := (bool * Comparison)%type.

Definition cmp_doLeaf (lhs rhs : option value) (path : Path) (w : cmpState) : cmpState :=
  let '(inLeaf, c) := w in
  if inLeaf then w
  else
    (true,
      match lhs, rhs with
      | None, _ => insertAdded path c
      | Some _, None => insertRemoved path c
      | Some l, Some r => if negb (Equals r l) then insertModified path c else c
      end).

Definition cmp_doScalar (lhs rhs : option value) (path : Path) (t : Scalar) (w : cmpState) :
    ValidationErrors * cmpState :=
  let lerrs := validateScalar t lhs LHS in
  let rerrs := validateScalar t rhs RHS in
  if ((0 <? length lerrs) && (0 <? length rerrs))%nat then (lerrs ++ rerrs, w)
  else ([], cmp_doLeaf lhs rhs path w).

(** [list, _ := w.derefList(...)]: nil for a nil or null value, or on an error. *)
Definition derefList (v : option value) : option (list value) :=
  match v with Some (VList l) => Some l | _ => None end.
Definition derefMap (v : option value) : option Map :=
  match v with Some (VMap m) => Some m | _ => None end.

Definition list_Length (l : option (list value)) : nat :=
  match l with Some l => length l | None => 0 end.

Definition listEqual (lList rList : list value) : bool :=
  if negb (length lList =? length rList)%nat then false else slicesEqual Equals lList rList.

Section CompareBody.
Variable sc : Schema.
(** The recursive call: type, operands, path, [inLeaf], prefix, comparison. *)
Variable compare : TypeRef -> option value -> option value -> Path -> bool -> option PathElement ->
  Comparison -> Outcome (ValidationErrors * Comparison).

(** Gather the items by path element, in a list for duplicates; [known] says
    which path elements are listed already. *)
Fixpoint gatherItems (t : ListT) (known : PathElement -> bool) (i : nat) (l : list value)
    (values : PathElementMap (list value)) (allPEs : list PathElement) (errs : ValidationErrors) :
    PathElementMap (list value) * list PathElement * ValidationErrors :=
  match l with
  | [] => (values, allPEs, errs)
  | child :: l' =>
    match listItemToPathElement sc t child with
    | inl err => gatherItems t known (S i) l' values allPEs (errs ++ errorf (MsgElement i err))
    | inr pe =>
      match PathElementMap_Get values pe with
      | Some list =>
        gatherItems t known (S i) l' (PathElementMap_Insert values pe (list ++ [child])) allPEs errs
      | None =>
        gatherItems t known (S i) l' (PathElementMap_Insert values pe [child])
          (if known pe then allPEs else allPEs ++ [pe]) errs
      end
    end
  end.

Definition compareListItem (t : ListT) (path : Path) (inLeaf : bool) (pe : PathElement)
    (lChild rChild : option value) (c : Comparison) : Outcome (ValidationErrors * Comparison) :=
  compare (l_ElementType t) lChild rChild (path ++ [pe]) inLeaf (Some pe) c.

(** One path element, with the items of both sides it identifies. *)
Definition comparePE (t : ListT) (path : Path) (inLeaf : bool) (pe : PathElement)
    (lList rList : list value) (c : Comparison) : Outcome (ValidationErrors * Comparison) :=
  match lList, rList with
  | [], [] | [_], [] | [], [_] | [_], [_] =>
    compareListItem t path inLeaf pe (head lList) (head rList) c
  | _ :: _ :: _, _ :: _ :: _ =>
    Ret ([], if negb (listEqual lList rList) then insertModified (path ++ [pe]) c else c)
  | _ :: _ :: _, _ =>
    res ← match rList with
      | r0 :: _ => compareListItem t path inLeaf pe None (Some r0) c
      | [] => Ret ([], c)
      end;
    Ret (res.1, insertRemoved (path ++ [pe]) res.2)
  | _, _ =>
    res ← match lList with
      | l0 :: _ => compareListItem t path inLeaf pe (Some l0) None c
      | [] => Ret ([], c)
      end;
    Ret (res.1, insertAdded (path ++ [pe]) res.2)
  end.

(** The loop over [allPEs]. *)
Fixpoint comparePEs (t : ListT) (path : Path) (inLeaf : bool)
    (lValues rValues : PathElementMap (list value)) (allPEs : list PathElement)
    (errs : ValidationErrors) (c : Comparison) : Outcome (ValidationErrors * Comparison) :=
  match allPEs with
  | [] => Ret (errs, c)
  | pe :: allPEs' =>
    let lList := default [] (PathElementMap_Get lValues pe) in
    let rList := default [] (PathElementMap_Get rValues pe) in
    if ((length lList =? 0) && (length rList =? 0))%nat then Ret (errs, c)
    else
      res ← comparePE t path inLeaf pe lList rList c;
      comparePEs t path inLeaf lValues rValues allPEs' (errs ++ res.1) res.2
  end.

Definition cmp_visitListItems (t : ListT) (path : Path) (inLeaf : bool)
    (lhs rhs : option (list value)) (c : Comparison) : Outcome (ValidationErrors * Comparison) :=
  let '(lValues, allPEs, errs) := gatherItems t (fun _ => false) 0 (default [] lhs) [] [] [] in
  let '(rValues, allPEs, errs) :=
    gatherItems t (fun pe => match PathElementMap_Get lValues pe with Some _ => true | None => false end)
      0 (default [] rhs) [] allPEs errs in
  comparePEs t path inLeaf lValues rValues allPEs errs c.

Definition cmp_doList (lhs rhs : option value) (path : Path) (t : ListT) (w : cmpState) :
    Outcome (ValidationErrors * cmpState) :=
  let l := derefList lhs in
  let r := derefList rhs in
  let emptyPromoteToLeaf := ((list_Length l =? 0) && (list_Length r =? 0))%nat in
  if string_eqb (l_ER t) Atomic || emptyPromoteToLeaf then Ret ([], cmp_doLeaf lhs rhs path w)
  else
    match l, r with
    | None, None => Ret ([], w)
    | _, _ =>
      res ← cmp_visitListItems t path w.1 l r w.2;
      Ret (res.1, (w.1, res.2))
    end.

Definition cmp_visitMapItem (t : MapT) (path : Path) (inLeaf : bool) (key : string)
    (lhs rhs : option value) (c : Comparison) : Outcome (ValidationErrors * Comparison) :=
  compare (mapFieldType t key) lhs rhs (path ++ [peField key]) inLeaf (Some (peField key)) c.

(** One callback of [MapZipUsing], on the errors and the comparison so far. *)
Definition cmp_zipStep (t : MapT) (path : Path) (inLeaf : bool) (key : string)
    (lhs rhs : option value) (st : Outcome (ValidationErrors * Comparison)) :
    Outcome (ValidationErrors * Comparison) :=
  st ← st;
  res ← cmp_visitMapItem t path inLeaf key lhs rhs st.2;
  Ret (st.1 ++ res.1, res.2).

Definition cmp_visitMapItems (t : MapT) (path : Path) (inLeaf : bool) (lhs rhs : option Map)
    (c : Comparison) : Outcome (ValidationErrors * Comparison) :=
  (MapZipUsing lhs rhs Unordered
    (fun key l r st => (cmp_zipStep t path inLeaf key l r st, true)) (Ret ([], c))).1.

Definition cmp_doMap (lhs rhs : option value) (path : Path) (t : MapT) (w : cmpState) :
    Outcome (ValidationErrors * cmpState) :=
  let l := derefMap lhs in
  let r := derefMap rhs in
  let emptyPromoteToLeaf := map_Empty l && map_Empty r in
  if string_eqb (m_ER t) Atomic || emptyPromoteToLeaf then Ret ([], cmp_doLeaf lhs rhs path w)
  else
    match l, r with
    | None, None => Ret ([], w)
    | _, _ =>
      res ← cmp_visitMapItems t path w.1 l r w.2;
      Ret (res.1, (w.1, res.2))
    end.

Definition cmp_handler (lhs rhs : option value) (path : Path) : atomHandler cmpState :=
  mkAtomHandler
    (fun t w => Ret (cmp_doScalar lhs rhs path t w))
    (cmp_doList lhs rhs path)
    (cmp_doMap lhs rhs path).

(** After the handlers: a node that is not a leaf and is on one side only. *)
Definition cmp_finish (lhs rhs : option value) (path : Path) (w : cmpState) : Comparison :=
  let '(inLeaf, c) := w in
  if negb inLeaf then
    match lhs, rhs with
    | None, _ => insertAdded path c
    | Some _, None => insertRemoved path c
    | Some _, Some _ => c
    end
  else c.

Definition cmp_body (tr : TypeRef) (lhs rhs : option value) (path : Path) (inLeaf : bool)
    (prefixFn : option PathElement) (c : Comparison) : Outcome (ValidationErrors * Comparison) :=
  match lhs, rhs with
  | None, None => Ret (errorf MsgBothNil, c)
  | _, _ =>
    match Resolve sc tr with
    | None =>
      match tr_NamedType tr with
      | None => Panic
      | Some name => Ret (errorf (MsgNoType (Some name)), c)
      end
    | Some a =>
      let alhs := deduceAtom a lhs in
      let arhs := deduceAtom a rhs in
      let ah := cmp_handler lhs rhs path in
      res ←
        match rhs with
        | None => handleAtom alhs tr ah (inLeaf, c)
        | Some _ =>
          if match lhs with None => true | Some _ => Atom_Equals alhs arhs end then
            handleAtom arhs tr ah (inLeaf, c)
          else
            res1 ← handleAtom alhs tr ah (inLeaf, c);
            res2 ← handleAtom arhs tr ah (inLeaf, res1.2.2);
            Ret (res1.1 ++ res2.1, res2.2)
        end;
      Ret (WithLazyPrefix prefixFn res.1, cmp_finish lhs rhs path res.2)
    end
  end.
End CompareBody.

Fixpoint compare_fuel (n : nat) (sc : Schema) :
    TypeRef -> option value -> option value -> Path -> bool -> option PathElement ->
    Comparison -> Outcome (ValidationErrors * Comparison) :=
  match n with
  | O => fun _ _ _ _ _ _ _ => Panic
  | S n => cmp_body sc (compare_fuel n sc)
  end.

Definition compare (sc : Schema) (tr : TypeRef) (lhs rhs : option value) (path : Path) (inLeaf : bool)
    (prefixFn : option PathElement) (c : Comparison) : Outcome (ValidationErrors * Comparison) :=
  compare_fuel (S (Nat.max (oheight lhs) (oheight rhs))) sc tr lhs rhs path inLeaf prefixFn c.

(** ** The fuel is enough *)

(** [c] is nil or a child of [v]. *)
Definition sub_of (v c : option value) : Prop :=
  match c with
  | None => True
  | Some x => exists w, v = Some w /\ x ∈ children w
  end.

Lemma sub_of_height v c : sub_of v c -> (oheight c <= oheight v)%nat /\ (oheight v = 0%nat \/ (oheight c < oheight v)%nat).
Proof.
  destruct c as [x|]; simpl.
  - intros (w & -> & H%height_child). simpl. lia.
  - intros _. lia.
Qed.

Section CompareExt.
Variable sc : Schema.
Variables rec1 rec2 : TypeRef -> option value -> option value -> Path -> bool -> option PathElement ->
  Comparison -> Outcome (ValidationErrors * Comparison).
Variables lhs rhs : option value.
Hypothesis Hrec : forall tr l r p b pf c, sub_of lhs l -> sub_of rhs r ->
  rec1 tr l r p b pf c = rec2 tr l r p b pf c.

Lemma sub_of_list v l x : derefList v = Some l -> x ∈ l -> sub_of v (Some x).
Proof. destruct v as [[]|]; try done. simpl. intros [= ->] H. eauto. Qed.

Lemma sub_of_map v m k x : derefMap v = Some m -> (k, x) ∈ m -> sub_of v (Some x).
Proof.
  destruct v as [[]|]; try done. simpl. intros [= ->] H. exists (VMap m). split; [done|].
  by apply (list_elem_of_fmap_2 snd _ (k, x)).
Qed.

(** All gathered items come from the list. *)
Definition from_list (l : list value) (values : PathElementMap (list value)) : Prop :=
  Forall (fun e => Forall (fun x => x ∈ l) e.2) values.

Lemma PathElementMap_Insert_Forall {V} (P : V -> Prop) (s : PathElementMap V) pe v :
  Forall (fun e => P e.2) s -> P v -> Forall (fun e => P e.2) (PathElementMap_Insert s pe v).
Proof.
  intros F Hv. unfold PathElementMap_Insert. destruct (_ =? _)%nat.
  { apply Forall_app. split; [done|by constructor]. }
  destruct (s !! _) as [m|]; [|done]. destruct (PathElement_Equals m.1 pe).
  { by apply Forall_insert. }
  unfold slice_insert_at. apply Forall_app. split; [by apply Forall_take|].
  constructor; [done|by apply Forall_drop].
Qed.

Lemma PathElementMap_Get_Forall {V} (P : V -> Prop) (s : PathElementMap V) pe v :
  Forall (fun e => P e.2) s -> PathElementMap_Get s pe = Some v -> P v.
Proof.
  intros F. unfold PathElementMap_Get. destruct (_ =? _)%nat; [done|].
  destruct (s !! _) as [m|] eqn:E; [|done]. destruct (PathElement_Equals m.1 pe); [|done].
  intros [= <-]. rewrite Forall_lookup in F. eauto.
Qed.

Lemma gatherItems_from t known i l l0 values pes errs :
  l ⊆ l0 -> from_list l0 values -> from_list l0 (gatherItems sc t known i l values pes errs).1.1.
Proof.
  revert i values pes errs. induction l as [|x l IH]; intros i values pes errs Hsub F; [done|].
  assert (Hsub' : l ⊆ l0) by (intros y Hy; apply Hsub; by right).
  assert (Hx : x ∈ l0) by (apply Hsub; left). simpl.
  destruct (listItemToPathElement sc t x); [by apply IH|].
  destruct (PathElementMap_Get values _) as [vs|] eqn:E; apply IH; auto;
    apply (PathElementMap_Insert_Forall (Forall (fun x => x ∈ l0))); auto.
  apply Forall_app. split; [|by constructor].
  by apply (PathElementMap_Get_Forall (Forall (fun x => x ∈ l0)) _ _ _ F E).
Qed.

Lemma comparePE_ext t path b pe lList rList c :
  Forall (fun x => sub_of lhs (Some x)) lList -> Forall (fun x => sub_of rhs (Some x)) rList ->
  comparePE rec1 t path b pe lList rList c = comparePE rec2 t path b pe lList rList c.
Proof.
  intros FL FR. unfold comparePE, compareListItem.
  destruct FL as [|l0 lList H0 FL]; [|destruct FL]; (destruct FR as [|r0 rList H1 FR]; [|destruct FR]);
    cbn [head]; rewrite ?Hrec; try done.
Qed.

Lemma comparePEs_ext t path b lV rV pes errs c :
  Forall (fun e => Forall (fun x => sub_of lhs (Some x)) e.2) lV ->
  Forall (fun e => Forall (fun x => sub_of rhs (Some x)) e.2) rV ->
  comparePEs rec1 t path b lV rV pes errs c = comparePEs rec2 t path b lV rV pes errs c.
Proof.
  intros FL FR. revert errs c. induction pes as [|pe pes IH]; intros errs c; [done|].
  cbn [comparePEs]. cbv zeta. destruct (_ && _)%nat; [done|]. rewrite comparePE_ext.
  - destruct (comparePE rec2 t path b pe _ _ c); [done|]. simpl. apply IH.
  - destruct (PathElementMap_Get lV pe) eqn:E; [|constructor].
    by apply (PathElementMap_Get_Forall (Forall (fun x => sub_of lhs (Some x))) lV pe).
  - destruct (PathElementMap_Get rV pe) eqn:E; [|constructor].
    by apply (PathElementMap_Get_Forall (Forall (fun x => sub_of rhs (Some x))) rV pe).
Qed.

Lemma from_list_sub v l values :
  derefList v = Some l \/ l = [] -> from_list l values ->
  Forall (fun e => Forall (fun x => sub_of v (Some x)) e.2) values.
Proof.
  intros Hl F. eapply Forall_impl; [exact F|]. intros e Fe. eapply Forall_impl; [exact Fe|].
  intros x Hx. destruct Hl as [E| ->]; [by eapply sub_of_list|by apply not_elem_of_nil in Hx].
Qed.

Lemma cmp_visitListItems_ext t path b c :
  cmp_visitListItems sc rec1 t path b (derefList lhs) (derefList rhs) c =
  cmp_visitListItems sc rec2 t path b (derefList lhs) (derefList rhs) c.
Proof.
  unfold cmp_visitListItems.
  pose proof (gatherItems_from t (fun _ => false) 0 (default [] (derefList lhs)) (default [] (derefList lhs))
    [] [] [] ltac:(done) ltac:(constructor)) as FL.
  destruct (gatherItems sc t (fun _ => false) 0 (default [] (derefList lhs)) [] [] []) as [[lV pes] errs].
  set (known := fun pe => match PathElementMap_Get lV pe with Some _ => true | None => false end).
  pose proof (gatherItems_from t known 0 (default [] (derefList rhs)) (default [] (derefList rhs))
    [] pes errs ltac:(done) ltac:(constructor)) as FR.
  destruct (gatherItems sc t known 0 (default [] (derefList rhs)) [] pes errs) as [[rV pes'] errs'].
  apply comparePEs_ext; eapply from_list_sub; try done.
  - destruct (derefList lhs); [by left|by right].
  - destruct (derefList rhs); [by left|by right].
Qed.

Lemma cmp_visitMapItems_ext t path b c :
  cmp_visitMapItems rec1 t path b (derefMap lhs) (derefMap rhs) c =
  cmp_visitMapItems rec2 t path b (derefMap lhs) (derefMap rhs) c.
Proof.
  unfold cmp_visitMapItems. rewrite !MapZipUsing_visits. unfold fold_visits.
  assert (Hin : forall e, e ∈ zipEntries (derefMap lhs) (derefMap rhs) ->
    sub_of lhs e.2.1 /\ sub_of rhs e.2.2).
  { intros [k [ol or]] H. simpl. split.
    - destruct ol as [x|]; [|done]. apply zipEntries_lhs in H as (m & E & H). by eapply sub_of_map.
    - destruct or as [x|]; [|done]. apply zipEntries_rhs in H as (m & E & H). by eapply sub_of_map. }
  revert Hin. generalize (zipEntries (derefMap lhs) (derefMap rhs)) as es.
  generalize (Ret (A := ValidationErrors * Comparison) ([], c)) as st.
  intros st es. revert st. induction es as [|e es IH]; intros st Hin; [done|]. simpl.
  destruct (Hin e ltac:(left)) as [H1 H2]. rewrite IH by (intros; apply Hin; by right). f_equal.
  unfold cmp_zipStep, cmp_visitMapItem. destruct st as [|st]; [done|]. simpl. by rewrite Hrec.
Qed.

Lemma cmp_handleAtom_ext a tr path w :
  handleAtom a tr (cmp_handler sc rec1 lhs rhs path) w = handleAtom a tr (cmp_handler sc rec2 lhs rhs path) w.
Proof.
  unfold handleAtom. destruct (a_Map a) as [t|].
  - simpl. unfold cmp_doMap. rewrite cmp_visitMapItems_ext. done.
  - destruct (a_Scalar a); [done|]. destruct (a_List a) as [t|]; [|done].
    simpl. unfold cmp_doList. rewrite cmp_visitListItems_ext. done.
Qed.

Lemma cmp_body_ext tr path b pf c :
  cmp_body sc rec1 tr lhs rhs path b pf c = cmp_body sc rec2 tr lhs rhs path b pf c.
Proof.
  unfold cmp_body. destruct (Resolve sc tr) as [a|]; [|done].
  rewrite !cmp_handleAtom_ext.
  destruct (handleAtom (deduceAtom a lhs) tr (cmp_handler sc rec2 lhs rhs path) (b, c)); [done|].
  simpl. by rewrite cmp_handleAtom_ext.
Qed.
End CompareExt.

Lemma compare_fuel_enough sc n n' tr lhs rhs p b pf c :
  (oheight lhs < n)%nat -> (oheight rhs < n)%nat -> (oheight lhs < n')%nat -> (oheight rhs < n')%nat ->
  compare_fuel n sc tr lhs rhs p b pf c = compare_fuel n' sc tr lhs rhs p b pf c.
Proof.
  revert n' tr lhs rhs p b pf c. induction n as [|n IH]; intros [|n'] tr lhs rhs p b pf c H1 H2 H3 H4; try lia.
  destruct (decide (lhs = None /\ rhs = None)) as [[-> ->]|Hne]; [done|].
  assert (0 < oheight lhs \/ 0 < oheight rhs)%nat by (destruct lhs, rhs; simpl; [lia..|tauto]).
  cbn [compare_fuel]. apply cmp_body_ext. intros tr' l r p' b' pf' c' Hl%sub_of_height Hr%sub_of_height.
  apply IH; lia.
Qed.

Lemma compare_unfold sc tr lhs rhs p b pf c :
  compare sc tr lhs rhs p b pf c = cmp_body sc (compare sc) tr lhs rhs p b pf c.
Proof.
  unfold compare at 1. destruct (decide (lhs = None /\ rhs = None)) as [[-> ->]|Hne]; [done|].
  assert (0 < oheight lhs \/ 0 < oheight rhs)%nat by (destruct lhs, rhs; simpl; [lia..|tauto]).
  cbn [compare_fuel]. apply cmp_body_ext. intros tr' l r p' b' pf' c' Hl%sub_of_height Hr%sub_of_height.
  apply compare_fuel_enough; lia.
Qed.
