(* ===== verification/CompareSpec.v ===== *)
(** * Package typed: an object compared with itself

    Comparing a conforming object with itself reports no error and leaves the
    comparison as it was. *)
From S2P Require Import Prelude GoLib GoFloat Value ValueOrder MapZip PathElement SortedSlice.
From S2P Require Import FieldSet FieldSetSpec FieldSetOps FieldSetInsert PathElementMap Schema TypedHelpers Validate.
From S2P Require Import Compare.

(** Every list the walkers descend into is associative, as the schema demands
    of a list that is not atomic. *)
Fixpoint lists_declared (sc : Schema) (v : value) (tr : TypeRef) {struct v} : bool :=
  match Resolve sc tr with
  | None => true
  | Some a =>
    match kind_of a v, v with
    | Some (KList t), VList l =>
      string_eqb (l_ER t) Atomic || (length l =? 0)%nat ||
      (string_eqb (l_ER t) Associative && forallb (fun c => lists_declared sc c (l_ElementType t)) l)
    | Some (KMap t), VMap m =>
      string_eqb (m_ER t) Atomic ||
      forallb (fun kv => lists_declared sc kv.2 (mapFieldType t kv.1)) m
    | _, _ => true
    end
  end.

Lemma lists_declared_kind sc v tr a :
  Resolve sc tr = Some a ->
  lists_declared sc v tr =
  match kind_of a v, v with
  | Some (KList t), VList l =>
    string_eqb (l_ER t) Atomic || (length l =? 0)%nat ||
    (string_eqb (l_ER t) Associative && forallb (fun c => lists_declared sc c (l_ElementType t)) l)
  | Some (KMap t), VMap m =>
    string_eqb (m_ER t) Atomic || forallb (fun kv => lists_declared sc kv.2 (mapFieldType t kv.1)) m
  | _, _ => true
  end.
Proof. intros E. destruct v; simpl; by rewrite E. Qed.

Lemma Equals_refl r v : value_ok r v = true -> Equals v v = true.
Proof.
  intros H. rewrite (Equals_Compare r) by done. apply Z.eqb_eq.
  by apply (cmp_refl Compare (value_dom r)).
Qed.

Lemma slicesEqual_refl r l :
  Forall (fun v => value_ok r v = true) l -> slicesEqual Equals l l = true.
Proof. induction 1 as [|v l H F IH]; simpl; [done|]. by rewrite (Equals_refl r). Qed.

Lemma handleAtom_kind {S} a v tr (ah : atomHandler S) w :
  handleAtom (deduceAtom a (Some v)) tr ah w =
  match kind_of a v with
  | Some (KScalar t) => doScalar ah t w
  | Some (KList t) => doList ah t w
  | Some (KMap t) => doMap ah t w
  | None => Ret (errorf (MsgInvalidAtom (tr_NamedType tr)), w)
  end.
Proof.
  unfold handleAtom, kind_of. destruct (a_Map _); [done|].
  destruct (a_Scalar _); [done|]. by destruct (a_List _).
Qed.

(** The gathered values do not depend on what else is listed. *)
Lemma gatherItems_values sc t known known' i i' l values pes pes' errs errs' :
  (gatherItems sc t known i l values pes errs).1.1 = (gatherItems sc t known' i' l values pes' errs').1.1.
Proof.
  revert i i' values pes pes' errs errs'. induction l as [|x l IH]; intros; [done|]. simpl.
  destruct (listItemToPathElement sc t x); [apply IH|].
  destruct (PathElementMap_Get values _); apply IH.
Qed.

Lemma gatherItems_errs sc t known i l values pes errs :
  Forall (fun c => exists pe, listItemToPathElement sc t c = inr pe) l ->
  (gatherItems sc t known i l values pes errs).2 = errs.
Proof.
  intros F. revert i values pes. induction F as [|x l [pe E] F IH]; intros; [done|]. simpl.
  rewrite E. destruct (PathElementMap_Get values _); apply IH.
Qed.

Section Self.
Context (r : Regime) (sc : Schema) (dup : bool).

Definition self_same (v : value) : Prop := forall tr path pf c,
  value_ok r v = true -> conforms sc dup tr v -> lists_declared sc v tr = true ->
  compare sc tr (Some v) (Some v) path false pf c = Ret ([], c).

Lemma doLeaf_self v path c :
  value_ok r v = true -> cmp_doLeaf (Some v) (Some v) path (false, c) = (true, c).
Proof. intros H. simpl. by rewrite (Equals_refl r v). Qed.

Lemma comparePEs_self t path values pes errs c :
  Forall (fun e => Forall (fun x => value_ok r x = true /\
    forall path pf c, compare sc (l_ElementType t) (Some x) (Some x) path false pf c = Ret ([], c)) e.2) values ->
  comparePEs (compare sc) t path false values values pes errs c = Ret (errs, c).
Proof.
  intros F. revert errs. induction pes as [|pe pes IH]; intros errs; [done|]. cbn [comparePEs]. cbv zeta.
  destruct (PathElementMap_Get values pe) as [l|] eqn:E; [|done]. cbn [from_option id].
  apply (PathElementMap_Get_Forall (Forall _) _ _ _ F) in E.
  destruct l as [|x l]; [done|]. apply Forall_cons in E as [[Hx Hcx] E].
  assert (Hpe : comparePE (compare sc) t path false pe (x :: l) (x :: l) c = Ret ([], c)).
  { destruct l as [|y l].
    - apply Hcx.
    - unfold comparePE, listEqual. rewrite Nat.eqb_refl. cbn [negb].
      rewrite (slicesEqual_refl r (x :: y :: l)); [done|]. constructor; [done|].
      eapply Forall_impl; [exact E|]. by intros ? []. }
  cbn [length Nat.eqb andb]. rewrite Hpe. simpl. by rewrite app_nil_r.
Qed.

Lemma visitListItems_self t path l c :
  Forall (fun x => value_ok r x = true /\
    forall path pf c, compare sc (l_ElementType t) (Some x) (Some x) path false pf c = Ret ([], c)) l ->
  Forall (fun c => exists pe, listItemToPathElement sc t c = inr pe) l ->
  cmp_visitListItems sc (compare sc) t path false (Some l) (Some l) c = Ret ([], c).
Proof.
  intros F K. unfold cmp_visitListItems. simpl.
  pose proof (gatherItems_errs sc t (fun _ => false) 0 l [] [] [] K) as E1.
  pose proof (gatherItems_from sc t (fun _ => false) 0 l l [] [] [] ltac:(done) ltac:(constructor)) as FL.
  destruct (gatherItems sc t (fun _ => false) 0 l [] [] []) as [[lV pes] errs] eqn:G1. simpl in E1, FL. subst errs.
  set (known := fun pe => match PathElementMap_Get lV pe with Some _ => true | None => false end).
  pose proof (gatherItems_errs sc t known 0 l [] pes [] K) as E2.
  pose proof (gatherItems_values sc t known (fun _ => false) 0 0 l [] pes [] [] []) as EV.
  rewrite G1 in EV. destruct (gatherItems sc t known 0 l [] pes []) as [[rV pes'] errs']. simpl in *. subst.
  apply comparePEs_self. eapply Forall_impl; [exact FL|]. intros e Fe.
  rewrite Forall_forall in F. eapply Forall_impl; [exact Fe|]. auto.
Qed.

Lemma visitMapItems_self t path (m : Map) c :
  NoDup (assoc_keys m) ->
  Forall (fun kv => forall path pf c,
    compare sc (mapFieldType t kv.1) (Some kv.2) (Some kv.2) path false pf c = Ret ([], c)) m ->
  cmp_visitMapItems (compare sc) t path false (Some m) (Some m) c = Ret ([], c).
Proof.
  intros ND F. unfold cmp_visitMapItems. rewrite MapZipUsing_visits, zipEntries_diag by done.
  unfold fold_visits. clear ND. induction F as [|kv m H F IH]; [done|]. rewrite fmap_cons. cbn [foldl fst snd].
  unfold cmp_zipStep at 2, cmp_visitMapItem. simpl. rewrite H. exact IH.
Qed.

Lemma fieldType_mapFieldType t k tr : fieldType t k = Some tr -> mapFieldType t k = tr.
Proof.
  unfold fieldType, mapFieldType. destruct (FindField t k); [by intros [= ->]|].
  destruct (TypeRef_isZero _); [done|]. by intros [= ->].
Qed.

(** The handler of the selected alternative leaves the comparison alone. *)
Lemma handler_self v tr a path c :
  (forall x, x ∈ children v -> self_same x) ->
  value_ok r v = true -> conforms sc dup tr v -> lists_declared sc v tr = true ->
  Resolve sc tr = Some a ->
  exists b, handleAtom (deduceAtom a (Some v)) tr (cmp_handler sc (compare sc) (Some v) (Some v) path) (false, c)
    = Ret ([], (b, c)).
Proof.
  intros IH Hv Hc Hl Ea. rewrite handleAtom_kind. rewrite (lists_declared_kind _ _ _ _ Ea) in Hl.
  apply (conforms_kind _ _ _ _ _ Ea) in Hc. destruct (kind_of a v) as [[t|t|t]|]; [| | |done].
  - exists true. simpl. unfold cmp_doScalar. rewrite (proj2 (validateScalar_ok t v LHS) Hc). simpl length.
    cbn [Nat.ltb Nat.leb andb]. by rewrite doLeaf_self.
  - cbn [doList cmp_handler]. unfold cmp_doList. destruct (_ || _) eqn:E.
    { exists true. by rewrite doLeaf_self. }
    apply orb_false_iff in E as [E1 E2]. destruct v as [| | | | | |l|]; try done. simpl in *.
    destruct Hc as [Hc Hk]. destruct l as [|x l]; [done|]. simpl in E2.
    rewrite E1 in Hl. cbn [orb Nat.eqb length] in Hl. apply andb_true_iff in Hl as [EA Hl].
    apply string_eqb_true in EA. rewrite forallb_Forall in Hl. apply value_ok_list in Hv.
    exists false. rewrite visitListItems_self; [done| |].
    + rewrite Forall_forall in Hv. rewrite Forall_forall in Hc. rewrite Forall_forall in Hl.
      apply Forall_forall. intros y Hy. split; [by apply Hv|]. intros. apply IH; auto.
    + destruct (Hk EA) as (pes & F2 & _). clear -F2.
      induction F2 as [|y pe l' pes' E F2 IHF]; [constructor|]. constructor; eauto.
  - cbn [doMap cmp_handler]. unfold cmp_doMap. destruct (_ || _) eqn:E.
    { exists true. by rewrite doLeaf_self. }
    apply orb_false_iff in E as [E1 E2]. destruct v as [| | | | | | |m]; try done. simpl in *.
    rewrite E1 in Hl. cbn [orb] in Hl. rewrite forallb_Forall in Hl.
    apply value_ok_map in Hv as [ND Hv]. exists false. rewrite visitMapItems_self; [done|done|].
    rewrite Forall_forall in Hv. rewrite Forall_forall in Hc. rewrite Forall_forall in Hl.
    apply Forall_forall. intros kv Hkv p pf c'. destruct (Hc kv Hkv) as (tr' & Et & Hcx).
    apply IH; [by apply list_elem_of_fmap_2|by apply Hv| |by apply Hl].
    by rewrite (fieldType_mapFieldType _ _ _ Et).
Qed.

Lemma compare_self_aux v : (forall x, x ∈ children v -> self_same x) -> self_same v.
Proof.
  intros IH tr path pf c Hv Hc Hl. rewrite compare_unfold. unfold cmp_body.
  destruct (conforms_Resolve _ _ _ _ Hc) as [a Ea]. rewrite Ea.
  destruct (handler_self v tr a path c IH Hv Hc Hl Ea) as [b Hb]. cbv zeta. rewrite Hb.
  destruct (Atom_Equals _ _); cbn [mbind Outcome_bind fst snd]; [|rewrite Hb];
    (destruct b; simpl; by destruct pf).
Qed.

Lemma compare_self v : self_same v.
Proof.
  induction v as [|b|k i|f|f|str|l IH|m IH] using value_rect_nested; apply compare_self_aux;
    simpl; intros x Hx; try by apply not_elem_of_nil in Hx.
  - rewrite Forall_forall in IH. auto.
  - apply list_elem_of_fmap in Hx as (kv & -> & Hkv). rewrite Forall_forall in IH. auto.
Qed.
End Self.
