(* ===== verification/CompareOk.v ===== *)
(** * Package typed: comparisons are well-formed

    When the values compared and the defaults of the schema are comparable, and
    no inlined scalar of the schema has an element relationship, [compare] does
    not panic and the sets it builds satisfy the invariant of [Set]. *)
From S2P Require Import Prelude GoLib GoFloat Value ValueOrder PathElement SortedSlice FieldSet.
From S2P Require Import FieldSetSpec FieldSetOps FieldSetInsert PathElementMap Schema TypedHelpers Validate MapZip.
From S2P Require Import Compare.

(** ** Safe schemas *)

(** A reference that does not resolve has a name to report. *)
Definition reports_name (n : option string) (a : Atom) (e : option ERPtr) : bool :=
  match n, e with
  | None, Some _ => match a_Map a, a_List a with None, None => false | _, _ => true end
  | _, _ => true
  end.

(** Every default in a type is comparable, and every reference is as above. *)
Fixpoint TypeRef_safe (r : Regime) (t : TypeRef) : bool :=
  let 'mkTypeRef n a e := t in Atom_safe r a && reports_name n a e
with Atom_safe (r : Regime) (a : Atom) : bool :=
  let 'mkAtom _ l m := a in
  match l with Some l => List_safe r l | None => true end &&
  match m with Some m => Map_safe r m | None => true end
with List_safe (r : Regime) (l : ListT) : bool :=
  let 'mkListT t _ _ := l in TypeRef_safe r t
with Map_safe (r : Regime) (m : MapT) : bool :=
  let 'mkMapT fields _ t _ := m in
  TypeRef_safe r t &&
  match fields with
  | None => true
  | Some fields =>
    (fix go (fs : list StructField) : bool :=
      match fs with [] => true | f :: fs' => Field_safe r f && go fs' end) fields
  end
with Field_safe (r : Regime) (f : StructField) : bool :=
  let 'mkStructField _ t d := f in
  TypeRef_safe r t && match d with Some v => value_ok r v | None => true end.

Definition Schema_safe (r : Regime) (sc : Schema) : bool :=
  forallb (fun t => Atom_safe r (td_Atom t)) (Types sc).

Lemma Map_safe_fields r m :
  Map_safe r m = TypeRef_safe r (m_ElementType m) && forallb (Field_safe r) (fields_of m).
Proof.
  destruct m as [fields u t e]. simpl. f_equal. destruct fields as [fs|]; [|done]. unfold fields_of. simpl.
  induction fs as [|f fs IH]; [done|]. simpl. by rewrite IH.
Qed.

(** An index built by name holds elements of the list. *)
Lemma index_elem {A} (name : A -> string) (l : list A) k x idx :
  assoc_get k (foldl (fun idx a => assoc_set (name a) a idx) idx l) = Some x ->
  x ∈ l \/ assoc_get k idx = Some x.
Proof.
  revert idx. induction l as [|a l IH]; intros idx; simpl; [by right|].
  intros [H|H]%IH; [left; by right|]. rewrite assoc_get_set in H.
  destruct (string_eqb _ _); [|by right]. injection H as <-. left. left.
Qed.

Section Safe.
Context (r : Regime) (sc : Schema).
Hypothesis Hsc : Schema_safe r sc = true.

Lemma FindField_safe m k f :
  Map_safe r m = true -> FindField m k = Some f -> Field_safe r f = true.
Proof.
  rewrite Map_safe_fields, andb_true_iff, forallb_Forall. intros [_ F] [H|H]%index_elem; [|done].
  rewrite Forall_forall in F. auto.
Qed.

Lemma mapFieldType_safe m k : Map_safe r m = true -> TypeRef_safe r (mapFieldType m k) = true.
Proof.
  intros Hm. unfold mapFieldType. destruct (FindField m k) as [f|] eqn:Ef.
  - apply (FindField_safe _ _ _ Hm) in Ef. destruct f as [n t d]. simpl in *. by apply andb_true_iff in Ef as [].
  - rewrite Map_safe_fields in Hm. by apply andb_true_iff in Hm as [].
Qed.

Lemma Resolve_safe tr a :
  TypeRef_safe r tr = true -> Resolve sc tr = Some a -> Atom_safe r a = true.
Proof.
  intros Htr. assert (Hn : forall b, resolveNoOverrides sc tr = Some b -> Atom_safe r b = true).
  { intros b. unfold resolveNoOverrides. destruct tr as [[n|] inl e]; simpl in *; apply andb_true_iff in Htr as [Htr _]; [|by intros [= <-]].
    destruct (FindNamedType sc n) as [td|] eqn:Et; [|done]. intros [= <-].
    apply index_elem in Et as [Hin|?]; [|done]. unfold Schema_safe in Hsc.
    rewrite forallb_Forall, Forall_forall in Hsc. by apply Hsc. }
  unfold Resolve, resolveOverride. destruct (tr_ER tr); [|by apply Hn].
  destruct (resolveNoOverrides sc tr) as [b|]; [|done]. specialize (Hn b eq_refl).
  destruct b as [s l m]. simpl. destruct m as [[fs u t e']|]; [by intros [= <-]|].
  destruct l as [[t e' ks]|]; [by intros [= <-]|done].
Qed.

(** A reference that does not resolve has a name. *)
Lemma Resolve_reports tr : TypeRef_safe r tr = true -> Resolve sc tr = None -> exists n, tr_NamedType tr = Some n.
Proof.
  destruct tr as [[n|] a e]; [by eauto|]. cbn [TypeRef_safe]. intros [_ Hn]%andb_true_iff.
  destruct e as [e|]; [|done]. destruct a as [s [l|] [m|]]; done.
Qed.

Lemma deduceAtom_safe a v : Atom_safe r a = true -> Atom_safe r (deduceAtom a v) = true.
Proof.
  destruct a as [s l m], v as [v|]; [|done]. simpl. intros [Hl Hm]%andb_true_iff.
  destruct s, l, m; simpl in *; destruct (_ || _), (IsList v), (IsMap v); simpl;
    rewrite ?Hl, ?Hm; done.
Qed.

Lemma element_defaults t : TypeRef_safe r (l_ElementType t) = true -> list_defaults_ok r sc t.
Proof.
  intros Ht k v. unfold getAssociativeKeyDefault. destruct (Resolve sc (l_ElementType t)) as [a|] eqn:Ea; [|done].
  apply (Resolve_safe _ _ Ht) in Ea. destruct a as [s l m]. simpl in *. apply andb_true_iff in Ea as [_ Hm].
  destruct m as [m|]; [|done]. destruct (FindField m k) as [f|] eqn:Ef; [|done].
  apply (FindField_safe _ _ _ Hm) in Ef. destruct f as [n t' d]. simpl in *. intros [= ->].
  by apply andb_true_iff in Ef as [].
Qed.
End Safe.

(** ** The walker keeps the invariant *)

Definition comparison_ok (r : Regime) (c : Comparison) : Prop :=
  Set_ok r (Removed c) = true /\ Set_ok r (Modified c) = true /\ Set_ok r (Added c) = true.

Lemma insert_comparison_ok r p c :
  Forall (pe_dom r) p -> comparison_ok r c ->
  comparison_ok r (insertRemoved p c) /\ comparison_ok r (insertModified p c) /\ comparison_ok r (insertAdded p c).
Proof. intros Hp (H1 & H2 & H3). unfold comparison_ok. simpl. split_and!; auto using Set_Insert_ok. Qed.

(** A call returns, and its comparison is well-formed. *)
Definition returns_ok (r : Regime) {A} (proj : A -> Comparison) (res : Outcome (ValidationErrors * A)) : Prop :=
  exists errs a, res = Ret (errs, a) /\ comparison_ok r (proj a).

Definition opt_ok (r : Regime) (v : option value) : Prop := forall x, v = Some x -> value_ok r x = true.

Lemma sub_of_ok r v c : opt_ok r v -> sub_of v c -> opt_ok r c.
Proof.
  intros Hv Hc x ->. destruct Hc as (w & -> & Hx). specialize (Hv w eq_refl).
  destruct w; cbn [children] in Hx; try (by apply not_elem_of_nil in Hx).
  - apply value_ok_list in Hv. rewrite Forall_forall in Hv. by apply Hv.
  - apply value_ok_map in Hv as [_ F]. rewrite Forall_forall in F.
    apply list_elem_of_fmap in Hx as (e & -> & He). by apply F.
Qed.

Lemma returns_ok_ret r {A} (proj : A -> Comparison) errs a :
  comparison_ok r (proj a) -> returns_ok r proj (Ret (errs, a)).
Proof. intros H. by exists errs, a. Qed.

Lemma returns_ok_bind r {A B} (proj : A -> Comparison) (proj' : B -> Comparison)
    (m : Outcome (ValidationErrors * A)) (k : ValidationErrors * A -> Outcome (ValidationErrors * B)) :
  returns_ok r proj m -> (forall errs a, comparison_ok r (proj a) -> returns_ok r proj' (k (errs, a))) ->
  returns_ok r proj' (res ← m; k res).
Proof. intros (errs & a & -> & Ha) Hk. by apply Hk. Qed.

Section WalkerOk.
Context (r : Regime) (sc : Schema).
Hypothesis Hsc : Schema_safe r sc = true.
Variable rec : TypeRef -> option value -> option value -> Path -> bool -> option PathElement ->
  Comparison -> Outcome (ValidationErrors * Comparison).
Variables lhs rhs : option value.
Hypothesis Hlhs : opt_ok r lhs.
Hypothesis Hrhs : opt_ok r rhs.
Hypothesis Hrec : forall tr l r' p b pf c, TypeRef_safe r tr = true -> sub_of lhs l -> sub_of rhs r' ->
  Forall (pe_dom r) p -> comparison_ok r c -> returns_ok r id (rec tr l r' p b pf c).

Lemma cmp_doLeaf_ok path w :
  Forall (pe_dom r) path -> comparison_ok r w.2 -> comparison_ok r (cmp_doLeaf lhs rhs path w).2.
Proof.
  intros Hp Hw. destruct w as [b c]. simpl in *. destruct (insert_comparison_ok r path c Hp Hw) as (H1 & H2 & H3).
  destruct b; [done|]. destruct lhs, rhs; simpl; [destruct (negb _)|..]; done.
Qed.

Lemma comparePE_ok t path b pe lL rL c :
  TypeRef_safe r (l_ElementType t) = true -> Forall (fun x => sub_of lhs (Some x)) lL ->
  Forall (fun x => sub_of rhs (Some x)) rL -> Forall (pe_dom r) path -> pe_dom r pe -> comparison_ok r c ->
  returns_ok r id (comparePE rec t path b pe lL rL c).
Proof.
  intros Ht FL FR Hp Hpe Hc.
  assert (Hpath : Forall (pe_dom r) (path ++ [pe])) by (apply Forall_app; auto using Forall_singleton).
  assert (Hins : forall c, comparison_ok r c -> _) by exact (fun c => insert_comparison_ok r (path ++ [pe]) c Hpath).
  assert (Hitem : forall l r', sub_of lhs l -> sub_of rhs r' -> returns_ok r id (compareListItem rec t path b pe l r' c)).
  { intros. by apply Hrec. }
  pose proof (returns_ok_ret r id [] c Hc) as Hret.
  unfold comparePE. destruct FL as [|l0 lL H0 FL]; [|destruct FL as [|l1 lL H1 FL]];
    (destruct FR as [|r0 rL H2 FR]; [|destruct FR as [|r1 rL H3 FR]]); cbn [head];
    try (apply Hitem; done);
    try (eapply returns_ok_bind; [solve [eauto|apply Hitem; done]|intros; apply returns_ok_ret; apply Hins; done]).
  apply returns_ok_ret. destruct (negb _); [|done]. by apply Hins.
Qed.

Lemma comparePEs_ok t path b lV rV pes errs c :
  TypeRef_safe r (l_ElementType t) = true ->
  Forall (fun e => Forall (fun x => sub_of lhs (Some x)) e.2) lV ->
  Forall (fun e => Forall (fun x => sub_of rhs (Some x)) e.2) rV ->
  Forall (pe_dom r) path -> Forall (pe_dom r) pes -> comparison_ok r c ->
  returns_ok r id (comparePEs rec t path b lV rV pes errs c).
Proof.
  intros Ht FL FR Hp Hpes. revert errs c.
  induction Hpes as [|pe pes Hpe Hpes IH]; intros errs c Hc; [by apply returns_ok_ret|].
  cbn [comparePEs]. cbv zeta. destruct (_ && _)%nat; [by apply returns_ok_ret|].
  apply (returns_ok_bind r id); [|intros; by apply IH]. apply comparePE_ok; try done.
  - destruct (PathElementMap_Get lV pe) eqn:E; [|constructor].
    by apply (PathElementMap_Get_Forall (Forall (fun x => sub_of lhs (Some x))) lV pe).
  - destruct (PathElementMap_Get rV pe) eqn:E; [|constructor].
    by apply (PathElementMap_Get_Forall (Forall (fun x => sub_of rhs (Some x))) rV pe).
Qed.

Lemma gatherItems_dom t known i l values pes errs :
  TypeRef_safe r (l_ElementType t) = true -> Forall (fun x => value_ok r x = true) l -> Forall (pe_dom r) pes ->
  Forall (pe_dom r) (gatherItems sc t known i l values pes errs).1.2.
Proof.
  intros Ht F. revert i values pes errs. induction F as [|x l Hx F IH]; intros i values pes errs FP; [done|].
  cbn [gatherItems]. destruct (listItemToPathElement sc t x) as [e|pe] eqn:Ei; [by apply IH|].
  apply (listItemToPathElement_dom r) in Ei; [|by apply element_defaults|done].
  destruct (PathElementMap_Get values pe) as [vs|] eqn:E; apply IH; auto.
  destruct (known pe); [done|]. apply Forall_app; auto using Forall_singleton.
Qed.

Lemma derefList_ok v : opt_ok r v -> Forall (fun x => value_ok r x = true) (default [] (derefList v)).
Proof. destruct v as [[]|]; intros H; try constructor. by apply value_ok_list, H. Qed.

Lemma cmp_visitListItems_ok t path b c :
  TypeRef_safe r (l_ElementType t) = true -> Forall (pe_dom r) path -> comparison_ok r c ->
  returns_ok r id (cmp_visitListItems sc rec t path b (derefList lhs) (derefList rhs) c).
Proof.
  intros Ht Hp Hc. unfold cmp_visitListItems. set (ll := default [] (derefList lhs)). set (rl := default [] (derefList rhs)).
  pose proof (gatherItems_dom t (fun _ => false) 0 ll [] [] [] Ht (derefList_ok _ Hlhs) ltac:(constructor)) as P1.
  pose proof (gatherItems_from sc t (fun _ => false) 0 ll ll [] [] [] ltac:(done) ltac:(constructor)) as F1.
  destruct (gatherItems sc t (fun _ => false) 0 ll [] [] []) as [[lV pes] errs].
  set (known := fun pe => match PathElementMap_Get lV pe with Some _ => true | None => false end).
  pose proof (gatherItems_dom t known 0 rl [] pes errs Ht (derefList_ok _ Hrhs) P1) as P2.
  pose proof (gatherItems_from sc t known 0 rl rl [] pes errs ltac:(done) ltac:(constructor)) as F2.
  destruct (gatherItems sc t known 0 rl [] pes errs) as [[rV pes'] errs'].
  apply comparePEs_ok; try done; eapply from_list_sub; try done.
  - unfold ll. destruct (derefList lhs); [by left|by right].
  - unfold rl. destruct (derefList rhs); [by left|by right].
Qed.

Lemma zipEntries_sub e : e ∈ zipEntries (derefMap lhs) (derefMap rhs) -> sub_of lhs e.2.1 /\ sub_of rhs e.2.2.
Proof.
  destruct e as [k [ol or]]. intros H. simpl. split.
  - destruct ol as [x|]; [|done]. apply zipEntries_lhs in H as (m & E & H). by eapply sub_of_map.
  - destruct or as [x|]; [|done]. apply zipEntries_rhs in H as (m & E & H). by eapply sub_of_map.
Qed.

Lemma cmp_visitMapItems_ok t path b c :
  Map_safe r t = true -> Forall (pe_dom r) path -> comparison_ok r c ->
  returns_ok r id (cmp_visitMapItems rec t path b (derefMap lhs) (derefMap rhs) c).
Proof.
  intros Ht Hp Hc. unfold cmp_visitMapItems. rewrite MapZipUsing_visits. unfold fold_visits.
  pose proof zipEntries_sub as Hin. revert Hin. pose proof (returns_ok_ret r id [] c Hc) as Hst. revert Hst.
  generalize (zipEntries (derefMap lhs) (derefMap rhs)) as es.
  generalize (Ret (A := ValidationErrors * Comparison) ([], c)) as st.
  intros st es. revert st. induction es as [|e es IH]; intros st Hst Hin; [done|].
  destruct (Hin e ltac:(left)) as [H1 H2]. cbn [foldl]. apply IH; [|intros; apply Hin; by right].
  unfold cmp_zipStep, cmp_visitMapItem. apply (returns_ok_bind r id); [done|]. intros errs0 c0 Hc0.
  apply (returns_ok_bind r id); [|intros; by apply returns_ok_ret].
  apply Hrec; auto using mapFieldType_safe. apply Forall_app; split; [done|]. by apply Forall_singleton.
Qed.

Lemma cmp_handleAtom_ok a tr path w :
  Atom_safe r a = true -> Forall (pe_dom r) path -> comparison_ok r w.2 ->
  returns_ok r snd (handleAtom a tr (cmp_handler sc rec lhs rhs path) w).
Proof.
  intros Ha Hp Hw. destruct a as [s l m]. simpl in Ha. apply andb_true_iff in Ha as [HL HM].
  pose proof (cmp_doLeaf_ok path w Hp Hw) as Hleaf. unfold handleAtom. cbn [a_Map a_Scalar a_List].
  destruct m as [t|]; [|destruct s as [t|]; [|destruct l as [t|]; [|by apply returns_ok_ret]]]; simpl.
  - unfold cmp_doMap. destruct (_ || _); [by apply returns_ok_ret|].
    pose proof (cmp_visitMapItems_ok t path w.1 w.2 HM Hp Hw) as Hv.
    destruct (derefMap lhs), (derefMap rhs); try (by apply returns_ok_ret);
      (eapply returns_ok_bind; [exact Hv|intros; by apply returns_ok_ret]).
  - unfold cmp_doScalar. destruct (_ && _)%nat; by apply returns_ok_ret.
  - unfold cmp_doList. destruct (_ || _); [by apply returns_ok_ret|].
    assert (Ht : TypeRef_safe r (l_ElementType t) = true) by (by destruct t).
    pose proof (cmp_visitListItems_ok t path w.1 w.2 Ht Hp Hw) as Hv.
    destruct (derefList lhs), (derefList rhs); try (by apply returns_ok_ret);
      (eapply returns_ok_bind; [exact Hv|intros; by apply returns_ok_ret]).
Qed.

Lemma cmp_finish_ok path w :
  Forall (pe_dom r) path -> comparison_ok r w.2 -> comparison_ok r (cmp_finish lhs rhs path w).
Proof.
  intros Hp Hw. destruct w as [b c]. simpl in *. destruct (insert_comparison_ok r path c Hp Hw) as (H1 & H2 & H3).
  destruct b; [done|]. by destruct lhs, rhs.
Qed.

(** The handlers of the two deduced types, run one after the other when they differ. *)
Lemma cmp_handlers_ok a tr path b c :
  Atom_safe r a = true -> Forall (pe_dom r) path -> comparison_ok r c ->
  let alhs := deduceAtom a lhs in let arhs := deduceAtom a rhs in let ah := cmp_handler sc rec lhs rhs path in
  returns_ok r snd
    match rhs with
    | None => handleAtom alhs tr ah (b, c)
    | Some _ => if match lhs with None => true | Some _ => Atom_Equals alhs arhs end
      then handleAtom arhs tr ah (b, c)
      else res1 ← handleAtom alhs tr ah (b, c); res2 ← handleAtom arhs tr ah (b, res1.2.2);
        Ret (res1.1 ++ res2.1, res2.2)
    end.
Proof.
  intros Ha Hp Hc. cbv zeta.
  assert (Hh : forall v w, comparison_ok r w.2 ->
    returns_ok r snd (handleAtom (deduceAtom a v) tr (cmp_handler sc rec lhs rhs path) w)).
  { intros v w Hw. apply cmp_handleAtom_ok; auto using deduceAtom_safe. }
  clear Hrec Hlhs. revert Hh. generalize (cmp_handler sc rec lhs rhs path) as ah. intros ah Hh.
  destruct rhs as [rv|]; [|by apply Hh].
  destruct (match lhs with None => true | Some _ => _ end); [by apply Hh|].
  eapply returns_ok_bind; [by apply Hh|]. intros errs1 w1 Hw1.
  eapply returns_ok_bind; [by apply Hh|]. intros errs2 w2 Hw2. by apply returns_ok_ret.
Qed.

Lemma cmp_body_ok tr path b pf c :
  TypeRef_safe r tr = true -> Forall (pe_dom r) path -> comparison_ok r c ->
  returns_ok r id (cmp_body sc rec tr lhs rhs path b pf c).
Proof.
  intros Htr Hp Hc. unfold cmp_body.
  pose proof (fun a Ha => cmp_handlers_ok a tr path b c Ha Hp Hc) as Hh.
  pose proof (fun w => cmp_finish_ok path w Hp) as Hf. cbv zeta in Hh.
  revert Hh Hf. generalize (cmp_handler sc rec lhs rhs path) as ah. intros ah Hh Hf.
  clear Hrec Hlhs Hrhs. destruct lhs as [lv|], rhs as [rv|]; [..|by apply returns_ok_ret].
  all: destruct (Resolve sc tr) as [a|] eqn:Ea;
    [|destruct (Resolve_reports r sc tr Htr Ea) as [n ->]; by apply returns_ok_ret].
  all: apply (Resolve_safe r sc Hsc tr a Htr) in Ea; cbv zeta.
  all: eapply returns_ok_bind; [exact (Hh a Ea)|intros; apply returns_ok_ret; by apply Hf].
Qed.
End WalkerOk.

Lemma compare_ok r sc tr lhs rhs path b pf c :
  Schema_safe r sc = true -> TypeRef_safe r tr = true -> opt_ok r lhs -> opt_ok r rhs ->
  Forall (pe_dom r) path -> comparison_ok r c ->
  returns_ok r id (compare sc tr lhs rhs path b pf c).
Proof.
  intros Hsc. unfold compare.
  assert (Hn : (oheight lhs < S (Nat.max (oheight lhs) (oheight rhs)) /\
    oheight rhs < S (Nat.max (oheight lhs) (oheight rhs)))%nat) by lia.
  revert Hn. generalize (S (Nat.max (oheight lhs) (oheight rhs))) as n. intros n.
  revert tr lhs rhs path b pf c. induction n as [|n IH]; intros tr lhs rhs path b pf c [Hl Hr] Htr Hlo Hro Hp Hc; [lia|].
  destruct (decide (lhs = None /\ rhs = None)) as [[-> ->]|Hne]; [by apply returns_ok_ret|].
  assert (0 < oheight lhs \/ 0 < oheight rhs)%nat by (destruct lhs, rhs; simpl; [lia..|tauto]).
  cbn [compare_fuel]. apply cmp_body_ok; try done. intros tr' l r' p b' pf' c' Htr' Hsl Hsr Hp' Hc'.
  pose proof (sub_of_height _ _ Hsl). pose proof (sub_of_height _ _ Hsr).
  apply IH; eauto using sub_of_ok. lia.
Qed.

(** ** Excluding fields *)

Lemma ExcludeFields_ok r c fields :
  comparison_ok r c -> (forall f, fields = Some f -> Set_ok r f = true) ->
  comparison_ok r (ExcludeFields c fields).
Proof.
  intros (H1 & H2 & H3) Hf. destruct fields as [f|]; [|done]. simpl. specialize (Hf f eq_refl).
  destruct (Set_Empty f); [done|]. unfold comparison_ok. simpl. auto using Set_RecursiveDifference_ok.
Qed.

(** Excluded fields, with everything below them, are not mentioned. *)
Lemma ExcludeFields_Has r c f q :
  comparison_ok r c -> Set_ok r f = true -> Forall (pe_dom r) q ->
  let c' := ExcludeFields c (Some f) in
  Set_Has (Removed c') q = Set_Has (Removed c) q && negb (covered f q) /\
  Set_Has (Modified c') q = Set_Has (Modified c) q && negb (covered f q) /\
  Set_Has (Added c') q = Set_Has (Added c) q && negb (covered f q).
Proof.
  intros ([H1 _]%Set_ok_iff & [H2 _]%Set_ok_iff & [H3 _]%Set_ok_iff) [Hf _]%Set_ok_iff Hq. simpl.
  destruct (Set_Empty f) eqn:Ef; simpl; [|by rewrite !(Set_Has_RecursiveDifference r)].
  assert (Hc : covered f q = false); [|by rewrite Hc, !andb_true_r].
  unfold covered. rewrite <-not_true_iff_false, existsb_exists. intros (x & _ & Hx).
  by rewrite (Set_Empty_Has f x Ef) in Hx.
Qed.
