(* ===== verification/Merge.v ===== *)
(** * Package typed: merging two objects

    Models [typed/merge.go].  The walker's mutable fields are the state:
    [inLeaf] and the output [out] ([None] while the pointer is nil).  The
    merge loop of [visitListItems] runs on the unread suffixes of the two
    lists; its fuel is the sum of their lengths.  Recursion as in [Compare]. *)
From S2P Require Import Prelude GoLib GoFloat Value ValueOrder MapZip PathElement SortedSlice.
From S2P Require Import FieldSet PathElementMap Schema TypedHelpers Validate Compare.

(** A [mergeRule] reads the operands and may set the output. *)
Abbreviation mergeRule := (option value -> option value -> option value -> option value).

Definition ruleKeepRHS : mergeRule := fun lhs rhs out =>
  match rhs, lhs with
  | Some v, _ => Some v
  | None, Some v => Some v
  | None, None => out
  end.

(** The state of a [mergingWalker]: [inLeaf] and [out]. *)
Abbreviation mergeState := (bool * option value)%type.

Definition merge_doLeaf (rule : mergeRule) (lhs rhs : option value) (w : mergeState) : mergeState :=
  let '(inLeaf, out) := w in
  if inLeaf then w else (true, rule lhs rhs out).

Definition merge_doScalar (rule : mergeRule) (lhs rhs : option value) (t : Scalar) (w : mergeState) :
    ValidationErrors * mergeState :=
  let lerrs := validateScalar t lhs LHS in
  let rerrs := validateScalar t rhs RHS in
  if ((0 <? length lerrs) && (0 <? length rerrs))%nat then (lerrs ++ rerrs, w)
  else ([], merge_doLeaf rule lhs rhs w).

(** The path elements of a list, the item each one identifies (a null for a
    duplicated one), and the errors. *)
Fixpoint indexListPathElements (sc : Schema) (t : ListT) (allowDuplicates : bool) (i : nat) (l : list value)
    (pes : list PathElement) (observed : PathElementMap value) (errs : ValidationErrors) :
    list PathElement * PathElementMap value * ValidationErrors :=
  match l with
  | [] => (pes, observed, errs)
  | child :: l' =>
    match listItemToPathElement sc t child with
    | inl err =>
      indexListPathElements sc t allowDuplicates (S i) l' pes observed (errs ++ errorf (MsgElement i err))
    | inr pe =>
      match PathElementMap_Get observed pe with
      | Some _ =>
        if negb allowDuplicates then
          indexListPathElements sc t allowDuplicates (S i) l' pes observed (errs ++ errorf (MsgDuplicate pe))
        else
          indexListPathElements sc t allowDuplicates (S i) l' (pes ++ [pe])
            (PathElementMap_Insert observed pe VNull) errs
      | None =>
        indexListPathElements sc t allowDuplicates (S i) l' (pes ++ [pe])
          (PathElementMap_Insert observed pe child) errs
      end
    end
  end.

(** [_, ok := m.Get(pe)]. *)
Definition pem_has {V} (m : PathElementMap V) (pe : PathElement) : bool :=
  match PathElementMap_Get m pe with Some _ => true | None => false end.

Section MergeBody.
Variables (sc : Schema) (rule : mergeRule) (postItemHook : option mergeRule).
(** The recursive call: type, operands, [inLeaf], prefix. *)
Variable merge : TypeRef -> option value -> option value -> bool -> option PathElement ->
  Outcome (ValidationErrors * option value).

Definition mergeListItem (t : ListT) (inLeaf : bool) (pe : PathElement) (lChild rChild : option value) :
    Outcome (ValidationErrors * option value) :=
  merge (l_ElementType t) lChild rChild inLeaf (Some pe).

(** [if mergeOut != nil { out = append(out, *mergeOut) }]; the errors of the
    item are stored in a variable that shadows [errs] and are lost. *)
Definition appendOut (out : list value) (res : ValidationErrors * option value) : list value :=
  match res.2 with Some v => out ++ [v] | None => out end.

Section Loop.
Variables (t : ListT) (inLeaf : bool) (observedLHS observedRHS : PathElementMap value).

(** [nextShared] and [sharedOrder] after the next one is taken. *)
Definition advance (sharedOrder : list PathElement) : option PathElement * list PathElement :=
  match sharedOrder with
  | [] => (None, [])
  | pe :: rest => (Some pe, rest)
  end.

(** [nextShared != nil && P(nextShared)]. *)
Definition nextIs (P : PathElement -> bool) (nextShared : option PathElement) : bool :=
  match nextShared with Some pe => P pe | None => false end.

(** The loop, from the suffixes [ls] of [lhs] (with its path elements) and
    [rs] of [rhsPEs]. *)
Fixpoint mergeLoop (fuel : nat) (ls : list (PathElement * value)) (rs : list PathElement)
    (shared : option PathElement * list PathElement) (mergedRHS : PathElementMap unit)
    (out : list value) : Outcome (list value) :=
  match fuel with
  | O => Panic
  | S fuel =>
    (** the block [if rI < rLen]: take the RHS item *)
    let takeRHS ls :=
      match rs with
      | [] => mergeLoop fuel ls rs shared mergedRHS out
      | pe :: rs' =>
        res ← mergeListItem t inLeaf pe (PathElementMap_Get observedLHS pe) (PathElementMap_Get observedRHS pe);
        mergeLoop fuel ls rs'
          (if nextIs (fun next => PathElement_Equals next pe) shared.1 then advance shared.2 else shared)
          (PathElementMap_Insert mergedRHS pe tt) (appendOut out res)
      end in
    match ls, rs with
    | [], [] => Ret out
    | (pe, lChild) :: ls', r :: rs' =>
      if PathElement_Equals pe r then
        res ← mergeListItem t inLeaf pe (PathElementMap_Get observedLHS pe) (PathElementMap_Get observedRHS pe);
        mergeLoop fuel ls' rs' (advance shared.2) (PathElementMap_Insert mergedRHS pe tt) (appendOut out res)
      else if pem_has observedRHS pe && nextIs (fun next => negb (PathElement_Equals next pe)) shared.1 then
        mergeLoop fuel ls' rs shared mergedRHS out
      else if negb (pem_has observedRHS pe) then
        res ← mergeListItem t inLeaf pe (Some lChild) None;
        mergeLoop fuel ls' rs shared mergedRHS (appendOut out res)
      else takeRHS (if pem_has mergedRHS pe then ls' else ls)
    | (pe, lChild) :: ls', [] =>
      if negb (pem_has observedRHS pe) then
        res ← mergeListItem t inLeaf pe (Some lChild) None;
        mergeLoop fuel ls' rs shared mergedRHS (appendOut out res)
      else takeRHS (if pem_has mergedRHS pe then ls' else ls)
    | [], _ :: _ => takeRHS ls
    end
  end.
End Loop.

Definition merge_visitListItems (t : ListT) (inLeaf : bool) (lhs rhs : option (list value))
    (out : option value) : Outcome (ValidationErrors * option value) :=
  let '(rhsPEs, observedRHS, rhsErrs) := indexListPathElements sc t false 0 (default [] rhs) [] [] [] in
  let '(lhsPEs, observedLHS, lhsErrs) := indexListPathElements sc t true 0 (default [] lhs) [] [] [] in
  let errs := rhsErrs ++ lhsErrs in
  if negb (length errs =? 0)%nat then Ret (errs, out)
  else
    let sharedOrder := base.filter (fun pe => pem_has observedLHS pe = true) rhsPEs in
    items ← mergeLoop t inLeaf observedLHS observedRHS (S (length lhsPEs + length rhsPEs))
      (zip lhsPEs (default [] lhs)) rhsPEs (advance sharedOrder) [] [];
    Ret (errs, if (0 <? length items)%nat then Some (VList items) else out).

Definition merge_doList (lhs rhs : option value) (t : ListT) (w : mergeState) :
    Outcome (ValidationErrors * mergeState) :=
  let l := derefList lhs in
  let r := derefList rhs in
  let emptyPromoteToLeaf := ((list_Length l =? 0) && (list_Length r =? 0))%nat in
  if string_eqb (l_ER t) Atomic || emptyPromoteToLeaf then Ret ([], merge_doLeaf rule lhs rhs w)
  else
    match l, r with
    | None, None => Ret ([], w)
    | _, _ =>
      res ← merge_visitListItems t w.1 l r w.2;
      Ret (res.1, (w.1, res.2))
    end.

(** The field's result is stored in the map under construction. *)
Definition merge_visitMapItem (t : MapT) (inLeaf : bool) (key : string) (lhs rhs : option value)
    (out : Map) : Outcome (ValidationErrors * Map) :=
  res ← merge (mapFieldType t key) lhs rhs inLeaf (Some (peField key));
  Ret (res.1, match res.2 with Some v => assoc_set key v out | None => out end).

Definition merge_zipStep (t : MapT) (inLeaf : bool) (key : string) (lhs rhs : option value)
    (st : Outcome (ValidationErrors * Map)) : Outcome (ValidationErrors * Map) :=
  st ← st;
  res ← merge_visitMapItem t inLeaf key lhs rhs st.2;
  Ret (st.1 ++ res.1, res.2).

Definition merge_visitMapItems (t : MapT) (inLeaf : bool) (lhs rhs : option Map) (out : option value) :
    Outcome (ValidationErrors * option value) :=
  res ← (MapZipUsing lhs rhs Unordered
    (fun key l r st => (merge_zipStep t inLeaf key l r st, true)) (Ret ([], []))).1;
  Ret (res.1, if (0 <? length res.2)%nat then Some (VMap res.2) else out).

Definition merge_doMap (lhs rhs : option value) (t : MapT) (w : mergeState) :
    Outcome (ValidationErrors * mergeState) :=
  let l := derefMap lhs in
  let r := derefMap rhs in
  let emptyPromoteToLeaf := map_Empty l && map_Empty r in
  if string_eqb (m_ER t) Atomic || emptyPromoteToLeaf then Ret ([], merge_doLeaf rule lhs rhs w)
  else
    match l, r with
    | None, None => Ret ([], w)
    | _, _ =>
      res ← merge_visitMapItems t w.1 l r w.2;
      Ret (res.1, (w.1, res.2))
    end.

Definition merge_handler (lhs rhs : option value) : atomHandler mergeState :=
  mkAtomHandler
    (fun t w => Ret (merge_doScalar rule lhs rhs t w))
    (merge_doList lhs rhs)
    (merge_doMap lhs rhs).

(** [merge], starting with no output. *)
Definition merge_body (tr : TypeRef) (lhs rhs : option value) (inLeaf : bool)
    (prefixFn : option PathElement) : Outcome (ValidationErrors * option value) :=
  match lhs, rhs with
  | None, None => Ret (errorf MsgBothNil, None)
  | _, _ =>
    match Resolve sc tr with
    | None =>
      match tr_NamedType tr with
      | None => Panic
      | Some name => Ret (errorf (MsgNoType (Some name)), None)
      end
    | Some a =>
      let alhs := deduceAtom a lhs in
      let arhs := deduceAtom a rhs in
      let ah := merge_handler lhs rhs in
      res ←
        match rhs with
        | None => handleAtom alhs tr ah (inLeaf, None)
        | Some _ =>
          if match lhs with None => true | Some _ => Atom_Equals alhs arhs end then
            handleAtom arhs tr ah (inLeaf, None)
          else
            res1 ← handleAtom alhs tr ah (inLeaf, None);
            res2 ← handleAtom arhs tr ah (inLeaf, None);
            Ret (res1.1 ++ res2.1, res2.2)
        end;
      let out :=
        match postItemHook with
        | Some hook => if negb res.2.1 then hook lhs rhs res.2.2 else res.2.2
        | None => res.2.2
        end in
      Ret (WithLazyPrefix prefixFn res.1, out)
    end
  end.
End MergeBody.

Fixpoint merge_fuel (n : nat) (sc : Schema) (rule : mergeRule) (hook : option mergeRule) :
    TypeRef -> option value -> option value -> bool -> option PathElement ->
    Outcome (ValidationErrors * option value) :=
  match n with
  | O => fun _ _ _ _ _ => Panic
  | S n => merge_body sc rule hook (merge_fuel n sc rule hook)
  end.

Definition merge (sc : Schema) (rule : mergeRule) (hook : option mergeRule) (tr : TypeRef)
    (lhs rhs : option value) (inLeaf : bool) (prefixFn : option PathElement) :
    Outcome (ValidationErrors * option value) :=
  merge_fuel (S (Nat.max (oheight lhs) (oheight rhs))) sc rule hook tr lhs rhs inLeaf prefixFn.

(** ** The fuel is enough *)

(** [c] is nil or lower than [v]. *)
Definition below (v c : option value) : Prop := c = None \/ (oheight c < oheight v)%nat.

Lemma below_child w x : x ∈ children w -> below (Some w) (Some x).
Proof. intros H%height_child. right. simpl. lia. Qed.

Lemma below_list v l x : derefList v = Some l -> x ∈ l -> below v (Some x).
Proof. destruct v as [[]|]; try done. simpl. intros [= ->] H. by apply below_child. Qed.

Lemma below_map v m k x : derefMap v = Some m -> (k, x) ∈ m -> below v (Some x).
Proof.
  destruct v as [[]|]; try done. simpl. intros [= ->] H. apply below_child.
  by apply (list_elem_of_fmap_2 snd _ (k, x)).
Qed.

(** The null that stands for a duplicated item is lower than its list. *)
Lemma below_null v l x : derefList v = Some l -> x ∈ l -> below v (Some VNull).
Proof. intros H Hx. destruct (below_list v l x H Hx) as [?|?]; [done|]. right. simpl in *. lia. Qed.

Lemma index_observed sc t dups i l pes observed errs (P : value -> Prop) :
  Forall P l -> (l <> [] -> P VNull) -> Forall (fun e => P e.2) observed ->
  Forall (fun e => P e.2) (indexListPathElements sc t dups i l pes observed errs).1.2.
Proof.
  intros F. revert i pes observed errs. induction F as [|x l Hx F IH]; intros i pes observed errs Hn Ho; [done|].
  assert (Hn' : l <> [] -> P VNull) by (intros; by apply Hn). simpl.
  destruct (listItemToPathElement sc t x); [by apply IH|].
  destruct (PathElementMap_Get observed _); [destruct (negb dups); [by apply IH|]|];
    apply IH; auto; apply PathElementMap_Insert_Forall; auto.
Qed.

Section MergeExt.
Variables (sc : Schema) (rule : mergeRule) (hook : option mergeRule).
Variables rec1 rec2 : TypeRef -> option value -> option value -> bool -> option PathElement ->
  Outcome (ValidationErrors * option value).
Variables lhs rhs : option value.
Hypothesis Hrec : forall tr l r b pf, below lhs l -> below rhs r ->
  rec1 tr l r b pf = rec2 tr l r b pf.

Lemma Get_below v (observed : PathElementMap value) pe :
  Forall (fun e => below v (Some e.2)) observed -> below v (PathElementMap_Get observed pe).
Proof.
  intros F. destruct (PathElementMap_Get observed pe) eqn:E; [|by left].
  by apply (PathElementMap_Get_Forall (fun x => below v (Some x)) _ _ _ F E).
Qed.

Lemma mergeLoop_ext t b oL oR fuel ls rs shared merged out :
  Forall (fun e => below lhs (Some e.2)) oL -> Forall (fun e => below rhs (Some e.2)) oR ->
  Forall (fun e => below lhs (Some e.2)) ls ->
  mergeLoop rec1 t b oL oR fuel ls rs shared merged out = mergeLoop rec2 t b oL oR fuel ls rs shared merged out.
Proof.
  intros FL FR. revert ls rs shared merged out.
  induction fuel as [|fuel IH]; intros ls rs shared merged out Fls; [done|].
  assert (Hboth : forall pe, mergeListItem rec1 t b pe (PathElementMap_Get oL pe) (PathElementMap_Get oR pe) =
    mergeListItem rec2 t b pe (PathElementMap_Get oL pe) (PathElementMap_Get oR pe)).
  { intros. apply Hrec; by apply Get_below. }
  assert (Hl : forall pe x, below lhs (Some x) ->
    mergeListItem rec1 t b pe (Some x) None = mergeListItem rec2 t b pe (Some x) None).
  { intros. apply Hrec; [done|by left]. }
  cbn [mergeLoop]. cbv zeta.
  destruct ls as [|[pe x] ls]; [|apply Forall_cons in Fls as [Hx Fls]]; destruct rs as [|r rs]; try done.
  - rewrite Hboth. destruct (mergeListItem rec2 _ _ _ _ _); [done|]. by apply IH.
  - rewrite Hl by done. destruct (negb _).
    + destruct (mergeListItem rec2 _ _ _ _ _); [done|]. by apply IH.
    + destruct (pem_has merged pe); apply IH; [done|by constructor].
  - rewrite !Hboth, Hl by done. destruct (PathElement_Equals pe r).
    { destruct (mergeListItem rec2 _ _ _ _ _); [done|]. by apply IH. }
    destruct (_ && _); [by apply IH|]. destruct (negb _).
    { destruct (mergeListItem rec2 _ _ _ _ _); [done|]. by apply IH. }
    destruct (mergeListItem rec2 _ _ r _ _); [done|].
    destruct (pem_has merged pe); apply IH; [done|by constructor].
Qed.

Lemma Forall_zip_r {A B} (P : B -> Prop) (l : list A) (k : list B) :
  Forall P k -> Forall (fun e => P e.2) (zip l k).
Proof. intros F. revert l. induction F as [|y k Hy F IH]; intros [|x l]; constructor; auto. Qed.

Lemma below_items v : Forall (fun x => below v (Some x)) (default [] (derefList v)).
Proof.
  destruct (derefList v) as [l|] eqn:E; [|constructor]. simpl. apply Forall_forall. intros x Hx.
  by eapply below_list.
Qed.

Lemma below_items_null v : default [] (derefList v) <> [] -> below v (Some VNull).
Proof.
  destruct (derefList v) as [[|x l]|] eqn:E; simpl; try done. intros _. eapply below_null; [done|left].
Qed.

Lemma merge_visitListItems_ext t b out :
  merge_visitListItems sc rec1 t b (derefList lhs) (derefList rhs) out =
  merge_visitListItems sc rec2 t b (derefList lhs) (derefList rhs) out.
Proof.
  unfold merge_visitListItems.
  pose proof (index_observed sc t false 0 (default [] (derefList rhs)) [] [] [] (fun x => below rhs (Some x))
    (below_items rhs) (below_items_null rhs) ltac:(constructor)) as FR.
  destruct (indexListPathElements sc t false 0 (default [] (derefList rhs)) [] [] []) as [[rPEs oR] rE].
  pose proof (index_observed sc t true 0 (default [] (derefList lhs)) [] [] [] (fun x => below lhs (Some x))
    (below_items lhs) (below_items_null lhs) ltac:(constructor)) as FL.
  destruct (indexListPathElements sc t true 0 (default [] (derefList lhs)) [] [] []) as [[lPEs oL] lE].
  cbn [fst snd] in *. destruct (negb _); [done|]. rewrite mergeLoop_ext; [done|done|done|].
  apply (Forall_zip_r (fun x => below lhs (Some x))), below_items.
Qed.

Lemma merge_visitMapItems_ext t b out :
  merge_visitMapItems rec1 t b (derefMap lhs) (derefMap rhs) out =
  merge_visitMapItems rec2 t b (derefMap lhs) (derefMap rhs) out.
Proof.
  unfold merge_visitMapItems. rewrite !MapZipUsing_visits. unfold fold_visits. f_equal.
  assert (Hin : forall e, e ∈ zipEntries (derefMap lhs) (derefMap rhs) ->
    below lhs e.2.1 /\ below rhs e.2.2).
  { intros [k [ol or]] H. simpl. split.
    - destruct ol as [x|]; [|by left]. apply zipEntries_lhs in H as (m & E & H). by eapply below_map.
    - destruct or as [x|]; [|by left]. apply zipEntries_rhs in H as (m & E & H). by eapply below_map. }
  revert Hin. generalize (zipEntries (derefMap lhs) (derefMap rhs)) as es.
  generalize (Ret (A := ValidationErrors * Map) ([], [])) as st.
  intros st es. revert st. induction es as [|e es IH]; intros st Hin; [done|]. simpl.
  destruct (Hin e ltac:(left)) as [H1 H2]. rewrite IH by (intros; apply Hin; by right). f_equal.
  unfold merge_zipStep, merge_visitMapItem. destruct st as [|st]; [done|]. simpl. by rewrite Hrec.
Qed.

Lemma merge_handleAtom_ext a tr w :
  handleAtom a tr (merge_handler sc rule rec1 lhs rhs) w = handleAtom a tr (merge_handler sc rule rec2 lhs rhs) w.
Proof.
  unfold handleAtom. destruct (a_Map a) as [t|].
  - simpl. unfold merge_doMap. by rewrite merge_visitMapItems_ext.
  - destruct (a_Scalar a); [done|]. destruct (a_List a) as [t|]; [|done].
    simpl. unfold merge_doList. by rewrite merge_visitListItems_ext.
Qed.

Lemma merge_body_ext tr b pf :
  merge_body sc rule hook rec1 tr lhs rhs b pf = merge_body sc rule hook rec2 tr lhs rhs b pf.
Proof.
  unfold merge_body. destruct (Resolve sc tr) as [a|]; [|done]. by rewrite !merge_handleAtom_ext.
Qed.
End MergeExt.

Lemma merge_fuel_enough sc rule hook n n' tr lhs rhs b pf :
  (oheight lhs < n)%nat -> (oheight rhs < n)%nat -> (oheight lhs < n')%nat -> (oheight rhs < n')%nat ->
  merge_fuel n sc rule hook tr lhs rhs b pf = merge_fuel n' sc rule hook tr lhs rhs b pf.
Proof.
  revert n' tr lhs rhs b pf. induction n as [|n IH]; intros [|n'] tr lhs rhs b pf H1 H2 H3 H4; try lia.
  destruct (decide (lhs = None /\ rhs = None)) as [[-> ->]|Hne]; [done|].
  assert (0 < oheight lhs \/ 0 < oheight rhs)%nat by (destruct lhs, rhs; simpl; [lia..|tauto]).
  cbn [merge_fuel]. apply merge_body_ext. intros tr' l r b' pf' [-> |Hl] [-> |Hr]; simpl in *; apply IH; simpl; lia.
Qed.

Lemma merge_unfold sc rule hook tr lhs rhs b pf :
  merge sc rule hook tr lhs rhs b pf = merge_body sc rule hook (merge sc rule hook) tr lhs rhs b pf.
Proof.
  unfold merge at 1. destruct (decide (lhs = None /\ rhs = None)) as [[-> ->]|Hne]; [done|].
  assert (0 < oheight lhs \/ 0 < oheight rhs)%nat by (destruct lhs, rhs; simpl; [lia..|tauto]).
  cbn [merge_fuel]. apply merge_body_ext.
  intros tr' l r b' pf' [-> |Hl] [-> |Hr]; simpl in *; apply merge_fuel_enough; simpl; lia.
Qed.
