(* ===== verification/MergeSpec.v ===== *)
(** * Package typed: an object merged with itself

    Merging a conforming object with itself gives back that object, with no
    error: every field, list item and their order are preserved. *)
From S2P Require Import Prelude GoLib GoFloat Value ValueOrder MapZip PathElement SortedSlice.
From S2P Require Import FieldSet FieldSetSpec PathElementMap Schema TypedHelpers Validate Compare CompareSpec.
From S2P Require Import Merge.

(** Every list the walkers descend into is associative and its keys are comparable. *)
Fixpoint well_keyed (r : Regime) (sc : Schema) (v : value) (tr : TypeRef) {struct v} : bool :=
  match Resolve sc tr with
  | None => true
  | Some a =>
    match kind_of a v, v with
    | Some (KList t), VList l =>
      string_eqb (l_ER t) Atomic || (length l =? 0)%nat ||
      (string_eqb (l_ER t) Associative &&
       forallb (fun c => pe_ok r (itemPE sc t c) && well_keyed r sc c (l_ElementType t)) l)
    | Some (KMap t), VMap m =>
      string_eqb (m_ER t) Atomic ||
      forallb (fun kv => well_keyed r sc kv.2 (mapFieldType t kv.1)) m
    | _, _ => true
    end
  end.

Lemma well_keyed_kind r sc v tr a :
  Resolve sc tr = Some a ->
  well_keyed r sc v tr =
  match kind_of a v, v with
  | Some (KList t), VList l =>
    string_eqb (l_ER t) Atomic || (length l =? 0)%nat ||
    (string_eqb (l_ER t) Associative &&
     forallb (fun c => pe_ok r (itemPE sc t c) && well_keyed r sc c (l_ElementType t)) l)
  | Some (KMap t), VMap m =>
    string_eqb (m_ER t) Atomic || forallb (fun kv => well_keyed r sc kv.2 (mapFieldType t kv.1)) m
  | _, _ => true
  end.
Proof. intros E. destruct v; simpl; by rewrite E. Qed.

Section Index.
Context (r : Regime) (sc : Schema) (t : ListT).

Lemma slice_find_distinct {V} pe pes (l : list V) :
  pe_dom r pe -> Forall (pe_dom r) pes -> forallb (fun x => negb (PathElement_Equals pe x)) pes = true ->
  slice_find fst pe (zip pes l) = None.
Proof.
  intros Hpe F H. rewrite forallb_Forall in H. apply slice_find_None.
  apply Forall_forall. intros [x y] Hxy%elem_of_zip_l. rewrite Forall_forall in H. rewrite Forall_forall in F.
  simpl. rewrite (pe_Equals_sym r) by auto. apply negb_true_iff. auto.
Qed.

(** Indexing a list without duplicates: each path element maps to its item. *)
Lemma index_distinct dups i l pes pes0 observed errs0 :
  Forall2 (fun c pe => listItemToPathElement sc t c = inr pe) l pes ->
  Forall (pe_dom r) pes -> pes_distinct pes = true -> slice_ok fst r observed = true ->
  Forall (fun pe => PathElementMap_Get observed pe = None) pes ->
  exists observed',
    indexListPathElements sc t dups i l pes0 observed errs0 = (pes0 ++ pes, observed', errs0) /\
    forall pe, pe_dom r pe -> PathElementMap_Get observed' pe =
      match slice_find fst pe (zip pes l) with
      | Some e => Some e.2 | None => PathElementMap_Get observed pe end.
Proof.
  intros F2. revert i pes0 observed. induction F2 as [|c pe l pes E F2 IH]; intros i pes0 observed D Hd Ho Hn.
  { exists observed. split; [by rewrite app_nil_r|done]. }
  apply Forall_cons in D as [Dpe D], Hn as [Hpe Hn]. simpl in Hd. apply andb_true_iff in Hd as [Hd1 Hd2].
  destruct (IH (S i) (pes0 ++ [pe]) (PathElementMap_Insert observed pe c)) as (observed' & E1 & E2); auto.
  - by apply PathElementMap_Insert_ok.
  - rewrite Forall_forall in Hn. rewrite forallb_Forall, Forall_forall in Hd1. rewrite Forall_forall in D.
    apply Forall_forall. intros x Hx.
    rewrite (PathElementMap_Get_Insert_eq r) by auto.
    specialize (Hd1 x Hx). apply negb_true_iff in Hd1. rewrite Hd1. auto.
  - exists observed'. simpl. rewrite E, Hpe. rewrite E1, <-app_assoc. split; [done|].
    intros x Hx. rewrite E2, (PathElementMap_Get_Insert_eq r) by done.
    destruct (PathElement_Equals pe x) eqn:Ex; [|done].
    rewrite slice_find_distinct; [done|done|done|].
    rewrite forallb_Forall, Forall_forall in Hd1. rewrite Forall_forall in D. apply forallb_Forall, Forall_forall.
    intros y Hy. rewrite <-(pe_Equals_trans_l r pe x y) by auto. auto.
Qed.
End Index.

Section SelfMerge.
Context (r : Regime) (sc : Schema).

Definition merge_same (v : value) : Prop := forall tr pf,
  value_ok r v = true -> conforms sc false tr v -> well_keyed r sc v tr = true ->
  merge sc ruleKeepRHS None tr (Some v) (Some v) false pf = Ret ([], Some v).

(** Equal lists are merged item by item. *)
Lemma mergeLoop_self t oL oR fuel pes l shared merged out :
  length pes = length l -> (length pes + length pes < fuel)%nat ->
  Forall (fun e => pe_dom r e.1 /\ PathElementMap_Get oL e.1 = Some e.2 /\
    PathElementMap_Get oR e.1 = Some e.2 /\
    forall pf, merge sc ruleKeepRHS None (l_ElementType t) (Some e.2) (Some e.2) false pf = Ret ([], Some e.2))
    (zip pes l) ->
  mergeLoop (merge sc ruleKeepRHS None) t false oL oR fuel (zip pes l) pes shared merged out = Ret (out ++ l).
Proof.
  revert fuel l shared merged out. induction pes as [|pe pes IH]; intros fuel [|x l] shared merged out Hlen Hf F; try done.
  { destruct fuel; [simpl in Hf; lia|]. simpl. by rewrite app_nil_r. }
  destruct fuel as [|fuel]; [simpl in Hf; lia|]. simpl in F. apply Forall_cons in F as [(D & EL & ER & Hm) F].
  simpl in *. rewrite (pe_Equals_refl r) by done. unfold mergeListItem. rewrite EL, ER, Hm. simpl.
  rewrite IH; [|lia|lia|done]. unfold appendOut. simpl. by rewrite <-app_assoc.
Qed.

Lemma zip_lookup_self {V} pes (l : list V) :
  Forall (pe_dom r) pes -> pes_distinct pes = true ->
  Forall (fun e => slice_find fst e.1 (zip pes l) = Some e) (zip pes l).
Proof.
  intros D. revert l. induction D as [|pe pes Dpe D IH]; intros [|x l] Hd; try constructor.
  - simpl. by rewrite (pe_Equals_refl r).
  - simpl in Hd. apply andb_true_iff in Hd as [Hd1 Hd2]. specialize (IH l Hd2).
    rewrite Forall_forall in IH. apply Forall_forall. intros [pe' x'] He. simpl.
    pose proof (elem_of_zip_l _ _ _ _ He) as Hin. rewrite forallb_Forall, Forall_forall in Hd1.
    specialize (Hd1 pe' Hin). apply negb_true_iff in Hd1. rewrite Hd1. by apply IH in He.
Qed.

Lemma visitListItems_merge_self t l out :
  l <> [] ->
  Forall (fun x => pe_dom r (itemPE sc t x) /\
    forall pf, merge sc ruleKeepRHS None (l_ElementType t) (Some x) (Some x) false pf = Ret ([], Some x)) l ->
  (exists pes, Forall2 (fun c pe => listItemToPathElement sc t c = inr pe) l pes /\ fresh_keys [] pes) ->
  merge_visitListItems sc (merge sc ruleKeepRHS None) t false (Some l) (Some l) out = Ret ([], Some (VList l)).
Proof.
  intros Hne F (pes & F2 & Hfr).
  assert (D : Forall (pe_dom r) pes).
  { clear Hfr Hne. induction F2 as [|c pe l pes E F2 IH]; [constructor|].
    apply Forall_cons in F as [[Hc _] F]. constructor; [|auto]. unfold itemPE in Hc. by rewrite E in Hc. }
  apply (fresh_keys_distinct r) in Hfr as [_ Hd]; [|done|done].
  unfold merge_visitListItems. cbn [from_option id].
  assert (N : Forall (fun pe => PathElementMap_Get (V := value) [] pe = None) pes) by by apply Forall_true.
  destruct (index_distinct r sc t false 0 l pes [] [] [] F2 D Hd eq_refl N) as (oR & -> & ER).
  destruct (index_distinct r sc t true 0 l pes [] [] [] F2 D Hd eq_refl N) as (oL & -> & EL).
  cbn [app length Nat.eqb negb].
  pose proof (Forall2_length _ _ _ F2) as Hlen.
  rewrite mergeLoop_self; [|done|cbn [app]; lia|].
  { simpl. by destruct l. }
  pose proof (zip_lookup_self pes l D Hd) as Z. rewrite Forall_forall in Z. rewrite Forall_forall in F.
  rewrite Forall_forall in D. apply Forall_forall. intros [pe x] He. simpl.
  pose proof (elem_of_zip_l _ _ _ _ He) as Hpe. pose proof (elem_of_zip_r _ _ _ _ He) as Hx.
  specialize (Z _ He). simpl in Z. rewrite EL, ER, Z by auto. destruct (F x Hx). auto.
Qed.

Lemma visitMapItems_merge_self t (m : Map) out :
  m <> [] -> NoDup (assoc_keys m) ->
  Forall (fun kv => forall pf,
    merge sc ruleKeepRHS None (mapFieldType t kv.1) (Some kv.2) (Some kv.2) false pf = Ret ([], Some kv.2)) m ->
  merge_visitMapItems (merge sc ruleKeepRHS None) t false (Some m) (Some m) out = Ret ([], Some (VMap m)).
Proof.
  intros Hne ND F. unfold merge_visitMapItems. rewrite MapZipUsing_visits, zipEntries_diag by done.
  unfold fold_visits.
  assert (H : forall m0, NoDup (assoc_keys (m0 ++ m)) ->
    foldl (fun s e => merge_zipStep (merge sc ruleKeepRHS None) t false e.1 e.2.1 e.2.2 s) (Ret ([], m0))
      ((fun kv => (kv.1, (Some kv.2, Some kv.2))) <$> m) = Ret ([], m0 ++ m)).
  { clear Hne ND. induction F as [|[k x] m H F IH]; intros m0 ND; [by rewrite app_nil_r|].
    rewrite fmap_cons. cbn [foldl fst snd]. unfold merge_zipStep at 2, merge_visitMapItem. simpl in *.
    rewrite H. simpl. rewrite assoc_set_absent.
    - rewrite IH, <-app_assoc; [done|]. by rewrite <-app_assoc.
    - apply assoc_get_None. unfold assoc_keys in *. rewrite fmap_app in ND. apply NoDup_app in ND as (_ & Hd & _).
      intros Hk. apply (Hd k Hk). simpl. left. }
  rewrite (H []) by done. simpl. by destruct m.
Qed.

Lemma handler_merge_self v tr a :
  (forall x, x ∈ children v -> merge_same x) ->
  value_ok r v = true -> conforms sc false tr v -> well_keyed r sc v tr = true ->
  Resolve sc tr = Some a ->
  exists b, handleAtom (deduceAtom a (Some v)) tr
    (merge_handler sc ruleKeepRHS (merge sc ruleKeepRHS None) (Some v) (Some v)) (false, None)
    = Ret ([], (b, Some v)).
Proof.
  intros IH Hv Hc Hl Ea. rewrite handleAtom_kind. rewrite (well_keyed_kind _ _ _ _ _ Ea) in Hl.
  apply (conforms_kind _ _ _ _ _ Ea) in Hc. destruct (kind_of a v) as [[t|t|t]|]; [| | |done].
  - exists true. simpl. unfold merge_doScalar. rewrite (proj2 (validateScalar_ok t v LHS) Hc). done.
  - cbn [doList merge_handler]. unfold merge_doList. destruct (_ || _) eqn:E; [by exists true|].
    apply orb_false_iff in E as [E1 E2]. destruct v as [| | | | | |l|]; try done. simpl in *.
    destruct Hc as [Hc Hk]. destruct l as [|x l]; [done|].
    rewrite E1 in Hl. cbn [orb Nat.eqb length] in Hl. apply andb_true_iff in Hl as [EA Hl].
    apply string_eqb_true in EA. rewrite forallb_Forall in Hl. apply value_ok_list in Hv.
    exists false. rewrite visitListItems_merge_self; [done|done| |].
    + rewrite Forall_forall in Hv. rewrite Forall_forall in Hc. rewrite Forall_forall in Hl.
      apply Forall_forall. intros y Hy. destruct (andb_prop _ _ (Hl y Hy)). split; [done|].
      intros. apply IH; auto.
    + destruct (Hk EA) as (pes & F2 & Hfr). eauto.
  - cbn [doMap merge_handler]. unfold merge_doMap. destruct (_ || _) eqn:E; [by exists true|].
    apply orb_false_iff in E as [E1 E2]. destruct v as [| | | | | | |m]; try done. simpl in *.
    rewrite E1 in Hl. cbn [orb] in Hl. rewrite forallb_Forall in Hl.
    apply value_ok_map in Hv as [ND Hv]. exists false.
    rewrite visitMapItems_merge_self; [done|by intros ->|done|].
    rewrite Forall_forall in Hv. rewrite Forall_forall in Hc. rewrite Forall_forall in Hl.
    apply Forall_forall. intros kv Hkv pf. destruct (Hc kv Hkv) as (tr' & Et & Hcx).
    apply IH; [by apply list_elem_of_fmap_2|by apply Hv| |by apply Hl].
    by rewrite (fieldType_mapFieldType _ _ _ Et).
Qed.

Lemma merge_self_aux v : (forall x, x ∈ children v -> merge_same x) -> merge_same v.
Proof.
  intros IH tr pf Hv Hc Hl. rewrite merge_unfold. unfold merge_body.
  destruct (conforms_Resolve _ _ _ _ Hc) as [a Ea]. rewrite Ea.
  destruct (handler_merge_self v tr a IH Hv Hc Hl Ea) as [b Hb]. cbv zeta. rewrite Hb.
  destruct (Atom_Equals _ _); cbn [mbind Outcome_bind fst snd]; by destruct pf.
Qed.

Lemma merge_self v : merge_same v.
Proof.
  induction v as [|b|k i|f|f|str|l IH|m IH] using value_rect_nested; apply merge_self_aux;
    simpl; intros x Hx; try by apply not_elem_of_nil in Hx.
  - rewrite Forall_forall in IH. auto.
  - apply list_elem_of_fmap in Hx as (kv & -> & Hkv). rewrite Forall_forall in IH. auto.
Qed.
End SelfMerge.
