(* ===== verification/MergeOk.v ===== *)
(** * Package typed: merging terminates and keeps values comparable

    On comparable objects and safe schemas [merge] does not panic: its loop over
    two lists ends within the sum of their lengths, and the merged object is
    comparable again.  The loop's invariant is that an item of the RHS is either
    still ahead or recorded in [mergedRHS]; without it the loop would not advance
    on an LHS item that is also in an exhausted RHS. *)
From S2P Require Import Prelude GoLib GoFloat Value ValueOrder PathElement SortedSlice FieldSet.
From S2P Require Import FieldSetSpec FieldSetOps FieldSetInsert PathElementMap Schema TypedHelpers Validate MapZip.
From S2P Require Import Compare CompareOk Merge.

(** ** Indexing a list *)

(** Every path element of the map is [Equals] to one of the list. *)
Definition index_covers (r : Regime) (observed : PathElementMap value) (pes : list PathElement) : Prop :=
  forall pe, pe_dom r pe -> pem_has observed pe = true -> existsb (fun x => PathElement_Equals x pe) pes = true.

Lemma pem_has_Insert r {V} (m : PathElementMap V) pe v pe' :
  pe_dom r pe -> pe_dom r pe' -> slice_ok fst r m = true ->
  pem_has (PathElementMap_Insert m pe v) pe' = PathElement_Equals pe pe' || pem_has m pe'.
Proof.
  intros. unfold pem_has. rewrite (PathElementMap_Get_Insert_eq r) by done. by destruct (PathElement_Equals pe pe').
Qed.

Lemma index_ok r sc t dups i l pes observed errs :
  list_defaults_ok r sc t -> Forall (fun x => value_ok r x = true) l ->
  Forall (pe_dom r) pes -> slice_ok fst r observed = true -> index_covers r observed pes ->
  let res := indexListPathElements sc t dups i l pes observed errs in
  Forall (pe_dom r) res.1.1 /\ slice_ok fst r res.1.2 = true /\ index_covers r res.1.2 res.1.1.
Proof.
  intros Ht F. revert i pes observed errs. induction F as [|x l Hx F IH]; intros i pes observed errs D Ho Hc; [done|].
  cbn [indexListPathElements]. destruct (listItemToPathElement sc t x) as [e|pe] eqn:E; [by apply IH|].
  apply (listItemToPathElement_dom r) in E; [|done..].
  assert (Hnew : forall v, let pes' := pes ++ [pe] in let observed' := PathElementMap_Insert observed pe v in
    Forall (pe_dom r) pes' /\ slice_ok fst r observed' = true /\ index_covers r observed' pes').
  { intros v. split_and!; [apply Forall_app; auto using Forall_singleton|by apply PathElementMap_Insert_ok|].
    intros pe' D'. rewrite (pem_has_Insert r) by done. rewrite existsb_app. simpl.
    intros [H|H]%orb_true_iff; [by rewrite H, orb_true_l, orb_true_r|]. by rewrite Hc. }
  destruct (PathElementMap_Get observed pe); [destruct (negb dups); [by apply IH|]|];
    by apply IH; apply Hnew.
Qed.

(** ** The loop *)

(** A call returns, and its output is comparable. *)
Definition returns_value (r : Regime) {A} (proj : A -> option value) (res : Outcome (ValidationErrors * A)) : Prop :=
  exists errs a, res = Ret (errs, a) /\ opt_ok r (proj a).

Lemma returns_value_ret r {A} (proj : A -> option value) errs a :
  opt_ok r (proj a) -> returns_value r proj (Ret (errs, a)).
Proof. intros H. by exists errs, a. Qed.

Lemma returns_value_bind r {A B} (proj : A -> option value) (proj' : B -> option value)
    (m : Outcome (ValidationErrors * A)) (k : ValidationErrors * A -> Outcome (ValidationErrors * B)) :
  returns_value r proj m -> (forall errs a, opt_ok r (proj a) -> returns_value r proj' (k (errs, a))) ->
  returns_value r proj' (res ← m; k res).
Proof. intros (errs & a & -> & Ha) Hk. by apply Hk. Qed.

(** An operand of a recursive call below [v]. *)
Definition operand (r : Regime) (v c : option value) : Prop := below v c /\ opt_ok r c.

Lemma operand_none r v : operand r v None.
Proof. split; [by left|done]. Qed.

Section MergeOk.
Context (r : Regime) (sc : Schema).
Hypothesis Hsc : Schema_safe r sc = true.
Variables (rule : mergeRule) (hook : option mergeRule).
Definition rule_keeps (f : mergeRule) : Prop := forall l r' out,
  opt_ok r l -> opt_ok r r' -> opt_ok r out -> opt_ok r (f l r' out).
Hypothesis Hrule : rule_keeps rule.
Hypothesis Hhook : forall h, hook = Some h -> rule_keeps h.
Variable rec : TypeRef -> option value -> option value -> bool -> option PathElement ->
  Outcome (ValidationErrors * option value).
Variables lhs rhs : option value.
Hypothesis Hlhs : opt_ok r lhs.
Hypothesis Hrhs : opt_ok r rhs.
Hypothesis Hrec : forall tr l r' b pf, TypeRef_safe r tr = true -> operand r lhs l -> operand r rhs r' ->
  returns_value r id (rec tr l r' b pf).

Definition items_ok (out : list value) : Prop := Forall (fun x => value_ok r x = true) out.

Section LoopOk.
Context (t : ListT) (b : bool) (oL oR : PathElementMap value).
Hypothesis Ht : TypeRef_safe r (l_ElementType t) = true.
Hypothesis FL : Forall (fun e => operand r lhs (Some e.2)) oL.
Hypothesis FR : Forall (fun e => operand r rhs (Some e.2)) oR.

Lemma Get_operand v (o : PathElementMap value) pe :
  Forall (fun e => operand r v (Some e.2)) o -> operand r v (PathElementMap_Get o pe).
Proof.
  intros F. destruct (PathElementMap_Get o pe) eqn:E; [|apply operand_none].
  by apply (PathElementMap_Get_Forall (fun x => operand r v (Some x)) _ _ _ F E).
Qed.

Lemma appendOut_ok out (res : ValidationErrors * option value) :
  items_ok out -> opt_ok r res.2 -> items_ok (appendOut out res).
Proof.
  intros Ho Hv. unfold appendOut. destruct (res.2) as [v|]; [|done].
  apply Forall_app. split; [done|]. apply Forall_singleton. by apply Hv.
Qed.

(** An item followed by the rest of the loop. *)
Lemma item_bind pe l r' out (k : list value -> Outcome (list value)) :
  operand r lhs l -> operand r rhs r' -> items_ok out ->
  (forall out', items_ok out' -> exists items, k out' = Ret items /\ items_ok items) ->
  exists items, (res ← mergeListItem rec t b pe l r'; k (appendOut out res)) = Ret items /\ items_ok items.
Proof.
  intros Hl Hr Ho Hk. destruct (Hrec (l_ElementType t) l r' b (Some pe) Ht Hl Hr) as (errs & a & E & Ha).
  unfold mergeListItem. rewrite E. apply Hk. by apply appendOut_ok.
Qed.

(** The invariant: an item of the RHS is ahead or merged. *)
Definition loop_inv (rs : list PathElement) (merged : PathElementMap unit) : Prop :=
  slice_ok fst r merged = true /\
  forall pe, pe_dom r pe -> pem_has oR pe = true ->
    pem_has merged pe = true \/ existsb (fun x => PathElement_Equals x pe) rs = true.

Lemma loop_inv_take pe x rs merged :
  pe_dom r pe -> pe_dom r x -> PathElement_Equals pe x = true ->
  loop_inv (x :: rs) merged -> loop_inv rs (PathElementMap_Insert merged pe tt).
Proof.
  intros Dp Dx E [Hm Hi]. split; [by apply PathElementMap_Insert_ok|]. intros pe' D' Ho.
  rewrite (pem_has_Insert r) by done. destruct (Hi pe' D' Ho) as [-> |H]; [left; apply orb_true_r|].
  simpl in H. apply orb_true_iff in H as [H|H]; [|by right]. left.
  by rewrite (pe_Equals_trans_l r pe x pe'), H.
Qed.

Lemma mergeLoop_ok fuel ls rs shared merged out :
  (length ls + length rs < fuel)%nat ->
  Forall (fun e => pe_dom r e.1 /\ operand r lhs (Some e.2)) ls -> Forall (pe_dom r) rs ->
  loop_inv rs merged -> items_ok out ->
  exists items, mergeLoop rec t b oL oR fuel ls rs shared merged out = Ret items /\ items_ok items.
Proof.
  revert ls rs shared merged out. induction fuel as [|fuel IH]; intros ls rs shared merged out Hf Fls Frs Hi Ho; [lia|].
  cbn [mergeLoop]. cbv zeta.
  assert (Hboth : forall pe x rs' ls' sh, rs = x :: rs' -> pe_dom r pe -> PathElement_Equals pe x = true ->
    Forall (fun e => pe_dom r e.1 /\ operand r lhs (Some e.2)) ls' -> (length ls' <= length ls)%nat ->
    exists items, (res ← mergeListItem rec t b pe (PathElementMap_Get oL pe) (PathElementMap_Get oR pe);
      mergeLoop rec t b oL oR fuel ls' rs' sh (PathElementMap_Insert merged pe tt) (appendOut out res)) = Ret items /\
      items_ok items).
  { intros pe x rs' ls' sh -> Dp E Fls' Hlen. apply Forall_cons in Frs as [Dx Frs]. simpl in Hf.
    apply item_bind; auto using Get_operand. intros out' Ho'. apply IH; auto; [simpl in *; lia|].
    by apply (loop_inv_take pe x). }
  destruct ls as [|[pe x] ls].
  - destruct rs as [|y rs]; [by exists out|]. pose proof Frs as [Dy _]%Forall_cons.
    apply (Hboth y y rs); auto. by apply (pe_Equals_refl r).
  - pose proof Fls as [[Dp Hx] Fls']%Forall_cons. cbn [length fst snd] in *.
    assert (Hl : exists items, (res ← mergeListItem rec t b pe (Some x) None;
      mergeLoop rec t b oL oR fuel ls rs shared merged (appendOut out res)) = Ret items /\ items_ok items).
    { apply item_bind; auto using operand_none. intros out' Ho'. apply IH; auto. lia. }
    destruct rs as [|y rs].
    + destruct (pem_has oR pe) eqn:EoR; simpl; [|exact Hl].
      destruct Hi as [Hm Hi']. destruct (Hi' pe Dp EoR) as [-> |H]; [|done].
      apply IH; auto; [simpl in *; lia|done].
    + pose proof Frs as [Dy Frs']%Forall_cons. destruct (PathElement_Equals pe y) eqn:Epy.
      { apply (Hboth pe y rs); auto. }
      destruct (_ && _); [apply IH; auto; simpl in *; lia|]. destruct (negb _); [exact Hl|].
      apply (Hboth y y rs); auto; [by apply (pe_Equals_refl r)|..]; destruct (pem_has merged pe); auto; simpl; lia.
Qed.
End LoopOk.

Lemma null_ok : opt_ok r (Some VNull).
Proof. by intros x [= <-]. Qed.

Lemma operand_items v : opt_ok r v -> Forall (fun x => operand r v (Some x)) (default [] (derefList v)).
Proof.
  intros Hv. pose proof (below_items v) as B. pose proof (derefList_ok r v Hv) as V.
  rewrite Forall_forall in B, V. apply Forall_forall. intros x Hx. split; [auto|].
  intros y [= <-]. auto.
Qed.

Lemma index_operand t dups v : opt_ok r v ->
  Forall (fun e => operand r v (Some e.2)) (indexListPathElements sc t dups 0 (default [] (derefList v)) [] [] []).1.2.
Proof.
  intros Hv. apply (index_observed _ _ _ _ _ _ _ _ (fun x => operand r v (Some x)));
    [by apply operand_items| |constructor].
  intros Hne. split; [by apply below_items_null|apply null_ok].
Qed.

Lemma merge_visitListItems_ok t b out :
  TypeRef_safe r (l_ElementType t) = true -> opt_ok r out ->
  returns_value r id (merge_visitListItems sc rec t b (derefList lhs) (derefList rhs) out).
Proof.
  intros Ht Ho. unfold merge_visitListItems. pose proof (element_defaults r sc Hsc t Ht) as Hd.
  assert (C0 : index_covers r [] []) by done.
  pose proof (index_operand t false rhs Hrhs) as FR. pose proof (index_operand t true lhs Hlhs) as FL.
  pose proof (index_ok r sc t false 0 (default [] (derefList rhs)) [] [] [] Hd (derefList_ok r rhs Hrhs)
    ltac:(constructor) eq_refl C0) as (DR & SR & CR).
  pose proof (index_ok r sc t true 0 (default [] (derefList lhs)) [] [] [] Hd (derefList_ok r lhs Hlhs)
    ltac:(constructor) eq_refl C0) as (DL & _ & _).
  destruct (indexListPathElements sc t false 0 (default [] (derefList rhs)) [] [] []) as [[rPEs oR] rE].
  destruct (indexListPathElements sc t true 0 (default [] (derefList lhs)) [] [] []) as [[lPEs oL] lE].
  cbn [fst snd] in *. destruct (negb _); [by apply returns_value_ret|].
  match goal with |- context [mergeLoop ?a ?b ?c ?d ?e ?f ?g ?h ?i ?j ?k] =>
    destruct (mergeLoop_ok t c oL oR Ht FL FR f g h i j k) as (items & -> & Hi) end; try done.
  - rewrite length_zip. lia.
  - apply Forall_forall. intros [pe x] He. rewrite Forall_forall in DL. split.
    + apply DL. by eapply elem_of_zip_l.
    + apply elem_of_zip_r in He. pose proof (operand_items lhs Hlhs) as F. rewrite Forall_forall in F. by apply F.
  - split; [done|]. intros pe D H. right. by apply CR.
  - by constructor.
  - apply returns_value_ret. destruct (_ <? _)%nat; [|done]. intros x [= <-]. by apply value_ok_list.
Qed.

Lemma zipEntries_operand e :
  e ∈ zipEntries (derefMap lhs) (derefMap rhs) -> operand r lhs e.2.1 /\ operand r rhs e.2.2.
Proof.
  intros H. pose proof (zipEntries_sub lhs rhs e H) as [H1 H2].
  split; (split; [|eauto using sub_of_ok]).
  - destruct (e.2.1) as [x|]; [|by left]. destruct H1 as (w & -> & Hx). by apply below_child.
  - destruct (e.2.2) as [x|]; [|by left]. destruct H2 as (w & -> & Hx). by apply below_child.
Qed.

Lemma merge_visitMapItems_ok t b out :
  Map_safe r t = true -> opt_ok r out ->
  returns_value r id (merge_visitMapItems rec t b (derefMap lhs) (derefMap rhs) out).
Proof.
  intros Ht Ho. unfold merge_visitMapItems. rewrite MapZipUsing_visits. unfold fold_visits.
  set (step := fun st e => _). cut (returns_value r (fun m => Some (VMap m))
    (foldl step (Ret ([], [])) (zipEntries (derefMap lhs) (derefMap rhs)))).
  { intros H. eapply returns_value_bind; [exact H|]. intros errs m Hm. apply returns_value_ret.
    simpl. by destruct (_ <? _)%nat. }
  pose proof zipEntries_operand as Hin. revert Hin.
  assert (Hst : returns_value r (fun m => Some (VMap m)) (Ret ([] : ValidationErrors, [] : Map))).
  { apply returns_value_ret. by intros x [= <-]. }
  revert Hst. generalize (zipEntries (derefMap lhs) (derefMap rhs)) as es.
  generalize (Ret (A := ValidationErrors * Map) ([], [])) as st.
  intros st es. revert st. induction es as [|e es IH]; intros st Hst Hin; [done|].
  destruct (Hin e ltac:(left)) as [H1 H2]. cbn [foldl]. apply IH; [|intros; apply Hin; by right].
  unfold step, merge_zipStep, merge_visitMapItem. eapply returns_value_bind; [exact Hst|]. intros errs0 m0 Hm0.
  destruct (Hrec (mapFieldType t e.1) e.2.1 e.2.2 b (Some (peField e.1))) as (errs & a & -> & Ha);
    [by apply mapFieldType_safe|done|done|].
  apply returns_value_ret. cbn [fst snd]. destruct a as [v|]; [|done]. intros x [= <-].
  apply map_set_ok; [by apply Hm0|by apply Ha].
Qed.

Lemma merge_doLeaf_ok w : opt_ok r w.2 -> opt_ok r (merge_doLeaf rule lhs rhs w).2.
Proof. intros Hw. destruct w as [b out]. simpl in *. destruct b; [done|]. simpl. by apply Hrule. Qed.

Lemma merge_handleAtom_ok a tr w :
  Atom_safe r a = true -> opt_ok r w.2 ->
  returns_value r snd (handleAtom a tr (merge_handler sc rule rec lhs rhs) w).
Proof.
  intros Ha Hw. destruct a as [s l m]. simpl in Ha. apply andb_true_iff in Ha as [HL HM].
  pose proof (merge_doLeaf_ok w Hw) as Hleaf. unfold handleAtom. cbn [a_Map a_Scalar a_List].
  destruct m as [t|]; [|destruct s as [t|]; [|destruct l as [t|]; [|by apply returns_value_ret]]]; simpl.
  - unfold merge_doMap. destruct (_ || _); [by apply returns_value_ret|].
    pose proof (merge_visitMapItems_ok t w.1 w.2 HM Hw) as Hv.
    destruct (derefMap lhs), (derefMap rhs); try (by apply returns_value_ret);
      (eapply returns_value_bind; [exact Hv|intros; by apply returns_value_ret]).
  - unfold merge_doScalar. destruct (_ && _)%nat; by apply returns_value_ret.
  - unfold merge_doList. destruct (_ || _); [by apply returns_value_ret|].
    assert (Ht : TypeRef_safe r (l_ElementType t) = true) by (by destruct t).
    pose proof (merge_visitListItems_ok t w.1 w.2 Ht Hw) as Hv.
    destruct (derefList lhs), (derefList rhs); try (by apply returns_value_ret);
      (eapply returns_value_bind; [exact Hv|intros; by apply returns_value_ret]).
Qed.

(** The handlers of the two deduced types, run one after the other when they differ. *)
Lemma merge_handlers_ok a tr b :
  Atom_safe r a = true ->
  let alhs := deduceAtom a lhs in let arhs := deduceAtom a rhs in let ah := merge_handler sc rule rec lhs rhs in
  returns_value r snd
    match rhs with
    | None => handleAtom alhs tr ah (b, None)
    | Some _ => if match lhs with None => true | Some _ => Atom_Equals alhs arhs end
      then handleAtom arhs tr ah (b, None)
      else res1 ← handleAtom alhs tr ah (b, None); res2 ← handleAtom arhs tr ah (b, None);
        Ret (res1.1 ++ res2.1, res2.2)
    end.
Proof.
  intros Ha. cbv zeta.
  assert (Hh : forall v, returns_value r snd
    (handleAtom (deduceAtom a v) tr (merge_handler sc rule rec lhs rhs) (b, None))).
  { intros v. apply merge_handleAtom_ok; [by apply deduceAtom_safe|done]. }
  revert Hh. generalize (merge_handler sc rule rec lhs rhs) as ah. intros ah Hh.
  clear Hrec Hlhs Hrhs. destruct rhs as [rv|]; [|by apply Hh].
  destruct (match lhs with None => true | Some _ => _ end); [by apply Hh|].
  eapply returns_value_bind; [apply Hh|]. intros errs1 w1 _.
  eapply returns_value_bind; [apply Hh|]. intros errs2 w2 Hw2. by apply returns_value_ret.
Qed.

Lemma merge_body_ok tr b pf :
  TypeRef_safe r tr = true -> returns_value r id (merge_body sc rule hook rec tr lhs rhs b pf).
Proof.
  intros Htr. unfold merge_body.
  pose proof (fun a Ha => merge_handlers_ok a tr b Ha) as Hh. cbv zeta in Hh. revert Hh.
  generalize (merge_handler sc rule rec lhs rhs) as ah. intros ah Hh.
  assert (Hout : forall w : mergeState, opt_ok r w.2 -> opt_ok r
    match hook with Some h => if negb w.1 then h lhs rhs w.2 else w.2 | None => w.2 end).
  { intros w Hw. destruct hook as [h|]; [|done]. destruct (negb w.1); [|done]. by apply (Hhook h). }
  clear Hrec Hlhs Hrhs. destruct lhs as [lv|], rhs as [rv|]; [..|by apply returns_value_ret].
  all: destruct (Resolve sc tr) as [a|] eqn:Ea;
    [|destruct (Resolve_reports r sc tr Htr Ea) as [n ->]; by apply returns_value_ret].
  all: apply (Resolve_safe r sc Hsc tr a Htr) in Ea; cbv zeta.
  all: eapply returns_value_bind; [exact (Hh a Ea)|intros errs w Hw; apply returns_value_ret; by apply (Hout w)].
Qed.
End MergeOk.

Lemma merge_ok r sc rule hook tr lhs rhs b pf :
  Schema_safe r sc = true -> rule_keeps r rule -> (forall h, hook = Some h -> rule_keeps r h) ->
  TypeRef_safe r tr = true -> opt_ok r lhs -> opt_ok r rhs ->
  returns_value r id (merge sc rule hook tr lhs rhs b pf).
Proof.
  intros Hsc Hrule Hhook. unfold merge.
  assert (Hn : (oheight lhs < S (Nat.max (oheight lhs) (oheight rhs)) /\
    oheight rhs < S (Nat.max (oheight lhs) (oheight rhs)))%nat) by lia.
  revert Hn. generalize (S (Nat.max (oheight lhs) (oheight rhs))) as n. intros n.
  revert tr lhs rhs b pf. induction n as [|n IH]; intros tr lhs rhs b pf [Hl Hr] Htr Hlo Hro; [lia|].
  destruct (decide (lhs = None /\ rhs = None)) as [[-> ->]|Hne]; [by apply returns_value_ret|].
  assert (0 < oheight lhs \/ 0 < oheight rhs)%nat by (destruct lhs, rhs; simpl; [lia..|tauto]).
  cbn [merge_fuel]. apply merge_body_ok; try done. intros tr' l r' b' pf' Htr' [Bl Ol] [Br Or].
  apply IH; auto. destruct Bl as [-> |Bl], Br as [-> |Br]; simpl in *; lia.
Qed.

Lemma ruleKeepRHS_keeps r : rule_keeps r ruleKeepRHS.
Proof. intros [l|] [r'|] out; simpl; auto. Qed.
