(* ===== verification/MergeRefine.v ===== *)
(** * Package typed: what merging computes

    A specification of the merge of two objects that does not mention the walker
    or its loop, and the proof that [merge] meets it on conforming objects: a
    scalar or atomic value is the right one if there is one; a map has the fields
    of both, each merged; a list has the items of the right list in their order,
    each merged with the left item of the same path element, interleaved with the
    items that are only in the left list, in their order. *)
From S2P Require Import Prelude GoLib GoFloat Value ValueOrder MapZip PathElement SortedSlice FieldSet.
From S2P Require Import FieldSetSpec PathElementMap Schema TypedHelpers Validate Compare CompareSpec Merge.
From S2P Require Import CompareOk MergeSpec MergeOk Remove.

(** ** The specification *)

(** [l] is made of the elements of [l1] and [l2], both in their order. *)
Inductive interleaving {A} : list A -> list A -> list A -> Prop :=
| interleaving_nil : interleaving [] [] []
| interleaving_left x l1 l2 l : interleaving l1 l2 l -> interleaving (x :: l1) l2 (x :: l)
| interleaving_right x l1 l2 l : interleaving l1 l2 l -> interleaving l1 (x :: l2) (x :: l).

(** The items of a list with a path element; several count as a null. *)
Definition items_at (sc : Schema) (t : ListT) (pe : PathElement) (l : list value) : list value :=
  base.filter (fun x => PathElement_Equals (itemPE sc t x) pe = true) l.

Definition the_item (l : list value) : option value :=
  match l with [] => None | [x] => Some x | _ => Some VNull end.

Definition item_at (sc : Schema) (t : ListT) (pe : PathElement) (l : list value) : option value :=
  the_item (items_at sc t pe l).

(** The pairs of items to merge. *)
Definition right_items (sc : Schema) (t : ListT) (l r : list value) : list (option value * option value) :=
  (fun x => (item_at sc t (itemPE sc t x) l, Some x)) <$> r.

Definition left_only (sc : Schema) (t : ListT) (l r : list value) : list (option value * option value) :=
  (fun x => (Some x, None)) <$> base.filter (fun x => item_at sc t (itemPE sc t x) r = None) l.

(** The kind of a merged value: the right value's, if there is one. *)
Definition merge_kind (a : Atom) (l r : option value) : option Kind :=
  match r, l with
  | Some x, _ => kind_of a x
  | None, Some x => kind_of a x
  | None, None => None
  end.

(** The values are taken whole. *)
Definition merges_whole (k : Kind) (l r : option value) : bool :=
  match k with
  | KScalar _ => true
  | KList t => string_eqb (l_ER t) Atomic ||
    ((list_Length (derefList l) =? 0) && (list_Length (derefList r) =? 0))%nat
  | KMap t => string_eqb (m_ER t) Atomic || (map_Empty (derefMap l) && map_Empty (derefMap r))
  end.

Inductive merged (sc : Schema) : TypeRef -> option value -> option value -> value -> Prop :=
| merged_intro tr a k l r v :
  Resolve sc tr = Some a -> merge_kind a l r = Some k -> merged_as sc k l r v -> merged sc tr l r v
with merged_as (sc : Schema) : Kind -> option value -> option value -> value -> Prop :=
| merged_whole k l r v :
  merges_whole k l r = true -> ruleKeepRHS l r None = Some v -> merged_as sc k l r v
| merged_list t l r order items :
  merges_whole (KList t) l r = false ->
  interleaving (right_items sc t (default [] (derefList l)) (default [] (derefList r)))
    (left_only sc t (default [] (derefList l)) (default [] (derefList r))) order ->
  Forall2 (fun e x => merged sc (l_ElementType t) e.1 e.2 x) order items ->
  merged_as sc (KList t) l r (VList items)
| merged_map t l r m :
  merges_whole (KMap t) l r = false ->
  (forall k, assoc_get k m = None <-> map_Get (derefMap l) k = None /\ map_Get (derefMap r) k = None) ->
  (forall k x, assoc_get k m = Some x ->
    merged sc (mapFieldType t k) (map_Get (derefMap l) k) (map_Get (derefMap r) k) x) ->
  merged_as sc (KMap t) l r (VMap m).

(** ** Indexing a list *)

Lemma PathElementMap_Get_Equals r {V} (m : PathElementMap V) pe pe' :
  pe_dom r pe -> pe_dom r pe' -> slice_ok fst r m = true -> PathElement_Equals pe pe' = true ->
  PathElementMap_Get m pe = PathElementMap_Get m pe'.
Proof.
  intros D D' Hm E. rewrite !(PathElementMap_Get_find r) by done. f_equal.
  apply (slice_find_Equals fst r); try done. by apply (slice_ok_dom fst r).
Qed.

Section IndexItems.
Context (r : Regime) (sc : Schema) (t : ListT).

Definition indexable (x : value) : Prop :=
  listItemToPathElement sc t x = inr (itemPE sc t x) /\ pe_dom r (itemPE sc t x).

Lemma items_at_cons pe x l :
  items_at sc t pe (x :: l) = if PathElement_Equals (itemPE sc t x) pe then x :: items_at sc t pe l else items_at sc t pe l.
Proof.
  unfold items_at. rewrite filter_cons. destruct (PathElement_Equals _ _); [by rewrite decide_True|by rewrite decide_False].
Qed.

(** Each path element maps to its item, or to null if there are several. *)
Lemma index_items dups i l pes0 observed errs0 :
  Forall indexable l -> slice_ok fst r observed = true ->
  (dups = false -> pes_distinct (itemPE sc t <$> l) = true /\
    Forall (fun x => PathElementMap_Get observed (itemPE sc t x) = None) l) ->
  exists observed',
    indexListPathElements sc t dups i l pes0 observed errs0 = (pes0 ++ (itemPE sc t <$> l), observed', errs0) /\
    slice_ok fst r observed' = true /\
    forall pe, pe_dom r pe -> PathElementMap_Get observed' pe =
      match PathElementMap_Get observed pe, items_at sc t pe l with
      | None, _ => item_at sc t pe l
      | Some v, [] => Some v
      | Some _, _ => Some VNull
      end.
Proof.
  intros F. revert i pes0 observed. induction F as [|x l [Ex Dx] F IH]; intros i pes0 observed Ho Hd.
  { exists observed. split; [by rewrite app_nil_r|]. split; [done|]. intros pe _. simpl.
    by destruct (PathElementMap_Get observed pe). }
  cbn [indexListPathElements]. rewrite Ex.
  assert (Hstep : forall v, (PathElementMap_Get observed (itemPE sc t x) = None /\ v = x \/
      (exists w, PathElementMap_Get observed (itemPE sc t x) = Some w) /\ dups = true /\ v = VNull) ->
    exists observed', indexListPathElements sc t dups (S i) l (pes0 ++ [itemPE sc t x])
        (PathElementMap_Insert observed (itemPE sc t x) v) errs0 = (pes0 ++ (itemPE sc t <$> x :: l), observed', errs0) /\
      slice_ok fst r observed' = true /\ forall pe, pe_dom r pe -> PathElementMap_Get observed' pe =
        match PathElementMap_Get observed pe, items_at sc t pe (x :: l) with
        | None, _ => item_at sc t pe (x :: l) | Some v, [] => Some v | Some _, _ => Some VNull end).
  { intros v Hv. destruct (IH (S i) (pes0 ++ [itemPE sc t x]) (PathElementMap_Insert observed (itemPE sc t x) v))
      as (o' & E & Ho' & G).
    - by apply PathElementMap_Insert_ok.
    - intros Hdup. destruct (Hd Hdup) as [Hdist Hn]. cbn [fmap list_fmap pes_distinct] in Hdist.
      apply andb_true_iff in Hdist as [Hx Hdist]. split; [done|]. apply Forall_cons in Hn as [_ Hn].
      rewrite forallb_Forall in Hx. rewrite Forall_fmap in Hx. rewrite Forall_forall in Hx, Hn, F.
      apply Forall_forall. intros y Hy. destruct (F y Hy) as [_ Dy].
      rewrite (PathElementMap_Get_Insert_eq r) by done. specialize (Hx y Hy). simpl in Hx.
      apply negb_true_iff in Hx. rewrite Hx. auto.
    - exists o'. rewrite E, <-app_assoc. split; [done|]. split; [done|]. intros pe Dpe.
      rewrite G, (PathElementMap_Get_Insert_eq r) by done. unfold item_at. rewrite items_at_cons.
      destruct (PathElement_Equals (itemPE sc t x) pe) eqn:Epe; [|done].
      assert (Eg : PathElementMap_Get observed pe = PathElementMap_Get observed (itemPE sc t x)).
      { symmetry. by apply (PathElementMap_Get_Equals r). }
      rewrite Eg. destruct Hv as [[-> ->]|([w ->] & _ & ->)]; destruct (items_at sc t pe l); done. }
  destruct (PathElementMap_Get observed (itemPE sc t x)) as [w|] eqn:Eg; [|by apply Hstep; left].
  destruct dups; cbn [negb]; [by apply Hstep; right; eauto|].
  destruct (Hd eq_refl) as [_ Hn]. apply Forall_cons in Hn as [Hn _]. by rewrite Eg in Hn.
Qed.
End IndexItems.

(** ** The loop *)

Section LoopSpec.
Context (r : Regime) (t : ListT) (oL oR : PathElementMap value) (P : option value * option value -> value -> Prop).
Variable rec : TypeRef -> option value -> option value -> bool -> option PathElement ->
  Outcome (ValidationErrors * option value).
Hypothesis HoL : slice_ok fst r oL = true.
Hypothesis HoR : slice_ok fst r oR = true.

(** The pair of items with a path element of the right list. *)
Definition both (pe : PathElement) : option value * option value :=
  (PathElementMap_Get oL pe, PathElementMap_Get oR pe).

Definition merges_to (e : option value * option value) : Prop :=
  exists x, (forall pf, rec (l_ElementType t) e.1 e.2 false pf = Ret ([], Some x)) /\ P e x.

(** The pairs of the items that are only in the left list. *)
Definition remaining (ls : list (PathElement * value)) : list (option value * option value) :=
  (fun e => (Some e.2, None)) <$> base.filter (fun e : PathElement * value => pem_has oR e.1 = false) ls.

Lemma remaining_cons pe x ls :
  remaining ((pe, x) :: ls) = if pem_has oR pe then remaining ls else (Some x, None) :: remaining ls.
Proof.
  unfold remaining. rewrite filter_cons. simpl. destruct (pem_has oR pe); [by rewrite decide_False|by rewrite decide_True].
Qed.

(** The loop adds the merges of an interleaving of the two sequences of pairs. *)
Definition loop_result (rs ls : list (option value * option value)) (out : list value) (res : Outcome (list value)) : Prop :=
  exists order items, interleaving rs ls order /\ Forall2 P order items /\ res = Ret (out ++ items).

Lemma loop_item pe e rs ls rs' ls' out (k : list value -> Outcome (list value)) :
  (forall order, interleaving rs ls order -> interleaving rs' ls' (e :: order)) ->
  merges_to e -> (forall out', loop_result rs ls out' (k out')) ->
  loop_result rs' ls' out (res ← mergeListItem rec t false pe e.1 e.2; k (appendOut out res)).
Proof.
  intros HI (x & E & Hx) Hk. unfold mergeListItem. rewrite E. cbn [mbind Outcome_bind].
  destruct (Hk (appendOut out ([], Some x))) as (order & items & I & F & ->).
  exists (e :: order), (x :: items). split_and!; [by apply HI|by constructor|].
  unfold appendOut. simpl. by rewrite <-app_assoc.
Qed.

Lemma both_Equals pe pe' : pe_dom r pe -> pe_dom r pe' -> PathElement_Equals pe pe' = true -> both pe = both pe'.
Proof. intros D D' E. unfold both. by rewrite !(PathElementMap_Get_Equals r _ pe pe'). Qed.

Lemma mergeLoop_spec fuel ls rs shared merged out :
  (length ls + length rs < fuel)%nat -> Forall (fun e => pe_dom r e.1) ls ->
  Forall (fun pe => pe_dom r pe /\ pem_has oR pe = true /\ merges_to (both pe)) rs ->
  Forall merges_to (remaining ls) -> loop_inv r oR rs merged ->
  loop_result (both <$> rs) (remaining ls) out (mergeLoop rec t false oL oR fuel ls rs shared merged out).
Proof.
  revert ls rs shared merged out. induction fuel as [|fuel IH]; intros ls rs shared merged out Hf Fls Frs Frem Hi; [lia|].
  cbn [mergeLoop]. cbv zeta.
  assert (Hboth : forall pe x rs' ls' sh, rs = x :: rs' -> pe_dom r pe -> PathElement_Equals pe x = true ->
    Forall (fun e => pe_dom r e.1) ls' -> (length ls' <= length ls)%nat -> remaining ls' = remaining ls ->
    loop_result (both <$> rs) (remaining ls) out
      (res ← mergeListItem rec t false pe (PathElementMap_Get oL pe) (PathElementMap_Get oR pe);
       mergeLoop rec t false oL oR fuel ls' rs' sh (PathElementMap_Insert merged pe tt) (appendOut out res))).
  { intros pe x rs' ls' sh -> Dp E Fls' Hlen Hrem. apply Forall_cons in Frs as [(Dx & Hx & Mx) Frs]. simpl in Hf.
    pose proof (both_Equals pe x Dp Dx E) as Eb.
    apply (loop_item pe (both pe) (both <$> rs') (remaining ls)); [rewrite Eb; by constructor|by rewrite Eb|].
    rewrite <-Hrem in Frem |- *. intros out'. apply IH; auto; [lia|]. by apply (loop_inv_take r oR pe x). }
  destruct ls as [|[pe x] ls].
  - destruct rs as [|y rs]; [exists [], []; rewrite app_nil_r; by repeat constructor|].
    pose proof Frs as [[Dy _] _]%Forall_cons. apply (Hboth y y rs); auto. by apply (pe_Equals_refl r).
  - pose proof Fls as [Dp Fls']%Forall_cons. cbn [length fst snd] in *.
    assert (Hl : pem_has oR pe = false -> loop_result (both <$> rs) (remaining ((pe, x) :: ls)) out
      (res ← mergeListItem rec t false pe (Some x) None;
       mergeLoop rec t false oL oR fuel ls rs shared merged (appendOut out res))).
    { intros Eo. rewrite remaining_cons, Eo in *. apply Forall_cons in Frem as [Mx Frem].
      apply (loop_item pe (Some x, None) (both <$> rs) (remaining ls)); [by constructor|done|].
      intros out'. apply IH; auto. lia. }
    destruct (pem_has oR pe) eqn:Eo.
    2: { destruct rs as [|y rs]; [by apply Hl|]. pose proof Frs as [(Dy & Hy & _) _]%Forall_cons.
      destruct (PathElement_Equals pe y) eqn:Epy; [|by apply Hl].
      unfold pem_has in Eo, Hy. by rewrite (PathElementMap_Get_Equals r _ pe y) in Eo; try done; destruct (PathElementMap_Get oR y). }
    rewrite remaining_cons, Eo in Frem, Hboth |- *. clear Hl. destruct rs as [|y rs].
    + destruct Hi as [Hm Hi']. destruct (Hi' pe Dp Eo) as [-> |H]; [|done]. cbn [negb].
      apply (IH ls []); auto; [simpl in *; lia|done].
    + pose proof Frs as [[Dy _] Frs']%Forall_cons. destruct (PathElement_Equals pe y) eqn:Epy.
      { apply (Hboth pe y rs); auto. }
      destruct (_ && _); [apply IH; auto; simpl in *; lia|]. cbn [negb].
      apply (Hboth y y rs); auto; [by apply (pe_Equals_refl r)|..]; destruct (pem_has merged pe); auto; try (simpl; lia).
      by rewrite remaining_cons, Eo.
Qed.
End LoopSpec.

(** ** Lists with distinct path elements *)

Section Items.
Context (r : Regime) (sc : Schema) (t : ListT).

Lemma items_at_fresh pe l :
  Forall (fun x => PathElement_Equals (itemPE sc t x) pe = false) l -> items_at sc t pe l = [].
Proof. induction 1 as [|x l H F IH]; [done|]. by rewrite items_at_cons, H. Qed.

Lemma item_at_elem pe l x :
  item_at sc t pe l = Some x -> (x ∈ l \/ x = VNull /\ l <> []).
Proof.
  unfold item_at. assert (H : forall y, y ∈ items_at sc t pe l -> y ∈ l).
  { intros y Hy. by apply list_elem_of_filter in Hy as []. }
  destruct (items_at sc t pe l) as [|y [|z k]]; [done|..]; intros [= <-].
  - left. apply H. left.
  - right. split; [done|]. intros ->. assert (Hy : y ∈ []) by (apply H; left). by apply not_elem_of_nil in Hy.
Qed.

Lemma item_at_None pe l :
  item_at sc t pe l <> None -> existsb (fun x => PathElement_Equals x pe) (itemPE sc t <$> l) = true.
Proof.
  unfold item_at. induction l as [|x l IH]; [done|]. rewrite items_at_cons, fmap_cons. cbn [existsb].
  destruct (PathElement_Equals (itemPE sc t x) pe); [done|]. intros H. by rewrite IH.
Qed.

Lemma item_at_self l x :
  Forall (fun x => pe_dom r (itemPE sc t x)) l -> pes_distinct (itemPE sc t <$> l) = true -> x ∈ l ->
  item_at sc t (itemPE sc t x) l = Some x.
Proof.
  intros D Hd Hx. unfold item_at. cut (items_at sc t (itemPE sc t x) l = [x]); [by intros ->|].
  induction D as [|y l Dy D IH]; [by apply not_elem_of_nil in Hx|].
  cbn [fmap list_fmap pes_distinct] in Hd. apply andb_true_iff in Hd as [Hy Hd].
  rewrite forallb_Forall in Hy. rewrite Forall_fmap in Hy. rewrite items_at_cons.
  apply elem_of_cons in Hx as [-> |Hx].
  - rewrite (pe_Equals_refl r) by done. f_equal. apply items_at_fresh. rewrite Forall_forall in Hy, D.
    apply Forall_forall. intros z Hz. rewrite (pe_Equals_sym r) by auto. specialize (Hy z Hz). by apply negb_true_iff in Hy.
  - rewrite Forall_forall in Hy. specialize (Hy x Hx). apply negb_true_iff in Hy. simpl in Hy. rewrite Hy. auto.
Qed.
End Items.

(** ** The walker *)

Section Refine.
Context (r : Regime) (sc : Schema).

(** The recursive calls. *)
Definition operand_conforms (dup : bool) (tr : TypeRef) (v : option value) : Prop := forall x, v = Some x ->
  value_ok r x = true /\ conforms sc dup tr x /\ well_keyed r sc x tr = true.

Definition merge_meets (tr : TypeRef) (l r' : option value) : Prop :=
  exists v, (forall pf, merge sc ruleKeepRHS None tr l r' false pf = Ret ([], Some v)) /\ merged sc tr l r' v.

Variables lhs rhs : option value.
Hypothesis Hrec : forall tr l r', operand_conforms true tr l -> operand_conforms false tr r' ->
  below lhs l -> below rhs r' -> (l <> None \/ r' <> None) -> merge_meets tr l r'.

Lemma operand_conforms_none dup tr : operand_conforms dup tr None.
Proof. done. Qed.

Lemma null_conforms dup tr x : conforms sc dup tr x -> operand_conforms true tr (Some VNull).
Proof.
  intros Hc y [= <-]. split_and!; [done| |by simpl; destruct (Resolve sc tr) as [a|]; [destruct (kind_of a VNull) as [[]|]|]].
  destruct (conforms_Resolve _ _ _ _ Hc) as [a Ea]. apply (conforms_kind _ _ _ _ _ Ea) in Hc.
  apply (conforms_kind _ _ _ _ _ Ea).
  assert (Hk : kind_of a VNull <> None).
  { intros Hn. assert (Hx : kind_of a x = None); [|by rewrite Hx in Hc].
    unfold kind_of in *. simpl in Hn. destruct a as [s l m]. destruct s, l, m; try done.
    simpl. by repeat case_match. }
  destruct (kind_of a VNull) as [[]|]; [by left|done..].
Qed.

Section Lists.
Context (t : ListT) (dup : bool).
Let l := default [] (derefList lhs).
Let rr := default [] (derefList rhs).
Hypothesis Hl : Forall (fun x => indexable r sc t x /\ operand_conforms true (l_ElementType t) (Some x)) l.
Hypothesis Hr : Forall (fun x => indexable r sc t x /\ operand_conforms false (l_ElementType t) (Some x)) rr.
Hypothesis Hd : pes_distinct (itemPE sc t <$> rr) = true.

Lemma left_item_meets pe x : item_at sc t pe l = Some x ->
  below lhs (Some x) /\ operand_conforms true (l_ElementType t) (Some x).
Proof.
  rewrite Forall_forall in Hl. intros [Hx|[-> Hne]]%item_at_elem.
  - destruct (Hl x Hx) as [_ Hc]. split; [|done]. pose proof (below_items lhs) as B. rewrite Forall_forall in B. by apply B.
  - split; [by apply below_items_null|]. destruct l as [|y k]; [done|].
    destruct (Hl y ltac:(left)) as [_ Hc]. destruct (Hc y eq_refl) as (_ & Hy & _). by eapply null_conforms.
Qed.

Lemma merge_visitListItems_spec out :
  (l <> [] \/ rr <> []) ->
  exists order items,
    merge_visitListItems sc (merge sc ruleKeepRHS None) t false (derefList lhs) (derefList rhs) out
      = Ret ([], Some (VList items)) /\
    interleaving (right_items sc t l rr) (left_only sc t l rr) order /\
    Forall2 (fun e x => merged sc (l_ElementType t) e.1 e.2 x) order items.
Proof.
  intros Hne. unfold merge_visitListItems. fold l rr.
  assert (Il : Forall (indexable r sc t) l) by (eapply Forall_impl; [exact Hl|tauto]).
  assert (Ir : Forall (indexable r sc t) rr) by (eapply Forall_impl; [exact Hr|tauto]).
  destruct (index_items r sc t false 0 rr [] [] [] Ir eq_refl) as (oR & -> & SR & GR).
  { intros _. split; [done|]. by apply Forall_true. }
  destruct (index_items r sc t true 0 l [] [] [] Il eq_refl) as (oL & -> & SL & GL); [done|].
  cbn [app length Nat.eqb negb].
  set (P := fun (e : option value * option value) x => merged sc (l_ElementType t) e.1 e.2 x).
  assert (GR' : forall x, x ∈ rr -> PathElementMap_Get oR (itemPE sc t x) = Some x).
  { intros x Hx. rewrite Forall_forall in Ir. rewrite GR by apply (Ir x Hx). simpl.
    apply (item_at_self r); [|done|done]. apply Forall_forall. intros y Hy. apply (Ir y Hy). }
  assert (EB : both oL oR <$> (itemPE sc t <$> rr) = right_items sc t l rr).
  { rewrite <-list_fmap_compose. apply list_fmap_ext. intros i x Hx%list_elem_of_lookup_2. unfold both, compose.
    rewrite GR' by done. rewrite Forall_forall in Ir. by rewrite GL by apply (Ir x Hx). }
  assert (ER : remaining oR (zip (itemPE sc t <$> l) l) = left_only sc t l rr).
  { clear Hne EB. unfold left_only. generalize Il. generalize l as k. induction k as [|x k IH]; intros Ik; [done|].
    apply Forall_cons in Ik as [[_ Dx] Ik]. cbn [fmap list_fmap zip zip_with]. rewrite remaining_cons, filter_cons, IH by done.
    unfold pem_has. rewrite GR by done. simpl.
    destruct (item_at sc t (itemPE sc t x) rr); [by rewrite decide_False|by rewrite decide_True]. }
  edestruct (mergeLoop_spec r t oL oR P (merge sc ruleKeepRHS None) SL SR) as (order & items & I & F & E);
    [..|rewrite E; clear E].
  - rewrite length_zip, !length_fmap. lia.
  - apply Forall_forall. intros [pe x] He%elem_of_zip_l. apply list_elem_of_fmap in He as (y & -> & Hy).
    rewrite Forall_forall in Il. apply (Il y Hy).
  - rewrite Forall_fmap. apply Forall_forall. intros x Hx. rewrite Forall_forall in Ir, Hr.
    destruct (Ir x Hx) as [_ Dx]. split; [done|]. unfold compose, pem_has. rewrite GR' by done. split; [done|].
    unfold merges_to, both. cbn [fst snd]. rewrite GR', GL by done. simpl. apply Hrec; [| | | |by right].
    + intros y Ey. by apply (proj2 (left_item_meets _ _ Ey)).
    + by apply (Hr x Hx).
    + destruct (item_at sc t (itemPE sc t x) l) as [y|] eqn:Ey; [by apply left_item_meets in Ey as []|by left].
    + pose proof (below_items rhs) as B. rewrite Forall_forall in B. by apply B.
  - rewrite ER. unfold left_only. rewrite Forall_fmap. apply Forall_forall. intros x Hx.
    apply list_elem_of_filter in Hx as [_ Hx]. rewrite Forall_forall in Hl. destruct (Hl x Hx) as [_ Hc].
    apply Hrec; [done|done| |by left|by left]. pose proof (below_items lhs) as B. rewrite Forall_forall in B. by apply B.
  - split; [done|]. intros pe Dpe Hpe. right. apply item_at_None. unfold pem_has in Hpe. rewrite GR in Hpe by done.
    simpl in Hpe. intros En. by rewrite En in Hpe.
  - rewrite ER, EB in I. exists order, items. split; [|done].
    assert (Hit : items <> []).
    { intros ->. apply Forall2_nil_inv_r in F as ->. inversion I as [E1 E2| |]. symmetry in E1, E2.
      apply fmap_nil_inv in E1. rewrite E1 in E2, Hne. unfold left_only in E2. apply fmap_nil_inv in E2.
      rewrite filter_all in E2; [by destruct Hne|by apply Forall_true]. }
    by destruct items.
Qed.
End Lists.

Section Maps.
Context (t : MapT).
Let l := derefMap lhs.
Let rr := derefMap rhs.
Definition fields_conform (dup : bool) (m : Map) : Prop := NoDup (assoc_keys m) /\
  Forall (fun kv => operand_conforms dup (mapFieldType t kv.1) (Some kv.2)) m.
Hypothesis Hl : fields_conform true (default [] l).
Hypothesis Hr : fields_conform false (default [] rr).

Lemma field_operand dup v k : fields_conform dup (default [] (derefMap v)) ->
  operand_conforms dup (mapFieldType t k) (map_Get (derefMap v) k) /\ below v (map_Get (derefMap v) k).
Proof.
  intros [_ F]. rewrite map_Get_default. destruct (assoc_get k _) as [x|] eqn:E; [|split; [done|by left]].
  apply assoc_get_Some in E. split.
  - rewrite Forall_forall in F. by apply (F (k, x)).
  - destruct (derefMap v) as [m|] eqn:Em; [|by apply not_elem_of_nil in E]. by apply (below_map v m k).
Qed.

(** Visiting the entries stores the merge of each under its key. *)
Lemma zipSteps_spec es m0 :
  NoDup es.*1 ->
  (forall e, e ∈ es -> merge_meets (mapFieldType t e.1) e.2.1 e.2.2) ->
  exists m,
    foldl (fun st e => merge_zipStep (merge sc ruleKeepRHS None) t false e.1 e.2.1 e.2.2 st) (Ret ([], m0)) es = Ret ([], m) /\
    (forall k, k ∉ es.*1 -> assoc_get k m = assoc_get k m0) /\
    (forall e, e ∈ es -> exists x, assoc_get e.1 m = Some x /\ merged sc (mapFieldType t e.1) e.2.1 e.2.2 x).
Proof.
  revert m0. induction es as [|e es IH]; intros m0 N H.
  { exists m0. split_and!; [done|done|]. by intros e ?%not_elem_of_nil. }
  rewrite fmap_cons in N. apply NoDup_cons in N as [Ne N].
  destruct (H e ltac:(left)) as (x & Ex & Mx). cbn [foldl].
  unfold merge_zipStep at 2, merge_visitMapItem. cbn [mbind Outcome_bind fst snd]. rewrite Ex. cbn [mbind Outcome_bind fst snd app].
  destruct (IH (assoc_set e.1 x m0) N) as (m & Em & Hout & Hin); [intros; apply H; by right|].
  exists m. split; [done|]. split.
  - intros k Hk. rewrite fmap_cons in Hk. apply not_elem_of_cons in Hk as [Hk Hks].
    rewrite Hout, assoc_get_set by done. by rewrite (proj2 (string_eqb_false _ _) (not_eq_sym Hk)).
  - intros e' [-> |He']%elem_of_cons; [|by apply Hin]. exists x. split; [|done].
    by rewrite Hout, assoc_get_set, string_eqb_refl.
Qed.

Lemma merge_visitMapItems_spec out :
  map_Empty l && map_Empty rr = false ->
  exists m,
    merge_visitMapItems (merge sc ruleKeepRHS None) t false l rr out = Ret ([], Some (VMap m)) /\
    (forall k, assoc_get k m = None <-> map_Get l k = None /\ map_Get rr k = None) /\
    (forall k x, assoc_get k m = Some x -> merged sc (mapFieldType t k) (map_Get l k) (map_Get rr k) x).
Proof.
  intros Hne. destruct Hl as [NL _], Hr as [NR _]. unfold merge_visitMapItems. rewrite MapZipUsing_visits. unfold fold_visits.
  destruct (zipSteps_spec (zipEntries l rr) []) as (m & -> & Hout & Hin).
  { by apply zipEntries_NoDup. }
  { intros e He. pose proof (zipEntries_values l rr NL NR e He) as Ee. destruct e as [k [ol or]]. simpl in *.
    injection Ee as -> ->. apply zipEntries_visits in He.
    destruct (field_operand true lhs k Hl), (field_operand false rhs k Hr). by apply Hrec. }
  assert (Hk : forall k, map_Get l k <> None \/ map_Get rr k <> None ->
    exists x, assoc_get k m = Some x /\ merged sc (mapFieldType t k) (map_Get l k) (map_Get rr k) x).
  { intros k H. apply zipEntries_visits in H. by apply (Hin _ H). }
  assert (Hn : forall k, map_Get l k = None /\ map_Get rr k = None -> assoc_get k m = None).
  { intros k [E1 E2]. rewrite Hout; [done|]. intros H. apply list_elem_of_fmap in H as ([k' [ol or]] & -> & H).
    pose proof (zipEntries_values l rr NL NR _ H) as Ee. simpl in *. injection Ee as -> ->.
    rewrite E1, E2 in H. by apply zipEntries_some in H. }
  exists m. split_and!.
  - cbn [mbind Outcome_bind fst snd]. destruct m as [|kv m]; [|done]. exfalso.
    assert (Hall : forall k, ~ (map_Get l k <> None \/ map_Get rr k <> None)) by (by intros k (x & ? & _)%Hk).
    clear -Hne Hall. destruct l as [[|[k v] l']|] eqn:El; simpl in *.
    + destruct rr as [[|[k v] r']|]; try done. apply (Hall k). right. simpl. by rewrite string_eqb_refl.
    + apply (Hall k). left. simpl. by rewrite string_eqb_refl.
    + destruct rr as [[|[k v] r']|]; try done. apply (Hall k). right. simpl. by rewrite string_eqb_refl.
  - intros k. split; [|apply Hn]. intros E.
    assert (Hboth : ~ (map_Get l k <> None \/ map_Get rr k <> None)) by (intros (x & Ex & _)%Hk; congruence).
    destruct (map_Get l k), (map_Get rr k); auto; destruct Hboth; auto.
  - intros k x Ex. destruct (decide (map_Get l k = None /\ map_Get rr k = None)) as [Hb|Hb].
    + rewrite (Hn k Hb) in Ex. done.
    + destruct (Hk k) as (y & Ey & My); [destruct (map_Get l k), (map_Get rr k); auto; tauto|]. congruence.
Qed.
End Maps.

(** ** The handlers *)

Lemma kind_of_list a w t l : kind_of a w = Some (KList t) -> kind_of a (VList l) = Some (KList t).
Proof.
  destruct a as [s li m]. unfold kind_of, deduceAtom. simpl.
  intros H; destruct s, li, m, (IsFloat w || IsInt w || IsString w || IsBool w), (IsList w), (IsMap w); simpl in *; congruence.
Qed.

Lemma kind_of_map a w t m : kind_of a w = Some (KMap t) -> kind_of a (VMap m) = Some (KMap t).
Proof.
  destruct a as [s li ma]. unfold kind_of, deduceAtom. simpl.
  intros H; destruct s, li, ma, (IsFloat w || IsInt w || IsString w || IsBool w), (IsList w), (IsMap w); simpl in *; congruence.
Qed.

Section Handlers.
Context (tr : TypeRef) (a : Atom).
Hypothesis Ea : Resolve sc tr = Some a.

(** The items of an operand of a list type that is not atomic. *)
Lemma list_operand dup v w t :
  operand_conforms dup tr v -> kind_of a w = Some (KList t) -> string_eqb (l_ER t) Atomic = false ->
  let l := default [] (derefList v) in
  Forall (fun x => indexable r sc t x /\ operand_conforms dup (l_ElementType t) (Some x)) l /\
  (dup = false -> pes_distinct (itemPE sc t <$> l) = true).
Proof.
  intros Hv Hk Hat. destruct (derefList v) as [[|y l]|] eqn:El; [by split; [constructor|]| |by split; [constructor|]].
  destruct v as [[]|]; try done. injection El as ->. destruct (Hv _ eq_refl) as (Vok & Hc & Hw).
  pose proof (kind_of_list a w t (y :: l) Hk) as Hk'. apply (conforms_kind _ _ _ _ _ Ea) in Hc.
  rewrite (well_keyed_kind _ _ _ _ _ Ea) in Hw. rewrite Hk' in Hc, Hw. destruct Hc as [Fc Hkeys].
  rewrite Hat in Hw. cbn [orb Nat.eqb length] in Hw. apply andb_true_iff in Hw as [EA Fw].
  apply string_eqb_true in EA. destruct (Hkeys EA) as (pes & F2 & Hfr). rewrite forallb_Forall in Fw.
  apply value_ok_list in Vok. cbn [from_option id]. cbv zeta.
  assert (Ep : pes = itemPE sc t <$> y :: l).
  { clear -F2. induction F2 as [|x pe k pes E F2 IH]; [done|]. rewrite fmap_cons, <-IH. unfold itemPE. by rewrite E. }
  assert (FI : Forall (fun x => listItemToPathElement sc t x = inr (itemPE sc t x)) (y :: l)).
  { rewrite Forall_forall. intros x Hx. apply list_elem_of_lookup in Hx as [i Hi].
    destruct (Forall2_lookup_l _ _ _ _ _ F2 Hi) as (pe & _ & E). unfold itemPE. by rewrite E. }
  rewrite Forall_forall in Fc, Fw, Vok, FI.
  assert (FX : Forall (fun x => indexable r sc t x /\ operand_conforms dup (l_ElementType t) (Some x)) (y :: l)).
  { apply Forall_forall. intros x Hx. destruct (andb_prop _ _ (Fw x Hx)) as [Dx Wx].
    split; [by split; [apply FI|]|]. intros z [= <-]. auto. }
  split; [done|]. intros Hdup. specialize (Hfr Hdup). rewrite Ep in Hfr.
  apply (fresh_keys_distinct r) in Hfr as [_ Hd]; [done|done|].
  rewrite Forall_fmap. eapply Forall_impl; [exact FX|]. by intros x [[_ ?] _].
Qed.

(** The fields of an operand of a map type that is not atomic. *)
Lemma map_operand dup v w t :
  operand_conforms dup tr v -> kind_of a w = Some (KMap t) -> string_eqb (m_ER t) Atomic = false ->
  fields_conform t dup (default [] (derefMap v)).
Proof.
  intros Hv Hk Hat. destruct (derefMap v) as [m|] eqn:Em; [|by split; [apply NoDup_nil|constructor]].
  destruct v as [[]|]; try done. injection Em as ->. destruct (Hv _ eq_refl) as (Vok & Hc & Hw).
  pose proof (kind_of_map a w t m Hk) as Hk'. apply (conforms_kind _ _ _ _ _ Ea) in Hc.
  rewrite (well_keyed_kind _ _ _ _ _ Ea) in Hw. rewrite Hk' in Hc, Hw. simpl in Hc. rewrite Hat in Hw. simpl in Hw.
  rewrite forallb_Forall in Hw. apply value_ok_map in Vok as [N Vok]. split; [done|].
  rewrite Forall_forall in Hc, Hw, Vok. apply Forall_forall. intros kv Hkv x [= <-].
  destruct (Hc kv Hkv) as (tr' & Et & Hx). apply fieldType_mapFieldType in Et. subst tr'.
  split_and!; [by apply Vok|done|by apply Hw].
Qed.

Hypothesis Hlhs : operand_conforms true tr lhs.
Hypothesis Hrhs : operand_conforms false tr rhs.

Lemma merge_doLeaf_spec k : (lhs <> None \/ rhs <> None) -> merges_whole k lhs rhs = true ->
  exists v, merge_doLeaf ruleKeepRHS lhs rhs (false, None) = (true, Some v) /\ merged_as sc k lhs rhs v.
Proof.
  intros Hne Hw. simpl. destruct (ruleKeepRHS lhs rhs None) as [v|] eqn:E.
  - exists v. split; [done|]. by constructor.
  - destruct lhs, rhs; try done. by destruct Hne.
Qed.

Lemma merge_handler_spec w k :
  (lhs = Some w \/ rhs = Some w) -> kind_of a w = Some k ->
  exists b v, handleAtom (deduceAtom a (Some w)) tr
    (merge_handler sc ruleKeepRHS (merge sc ruleKeepRHS None) lhs rhs) (false, None) = Ret ([], (b, Some v)) /\
    merged_as sc k lhs rhs v.
Proof.
  intros Hw Hk. rewrite handleAtom_kind, Hk.
  assert (Hne : lhs <> None \/ rhs <> None) by (destruct Hw as [-> | ->]; [left|right]; done).
  pose proof (merge_doLeaf_spec k Hne) as Hleaf. destruct k as [t|t|t]; cbn [doScalar doList doMap merge_handler].
  - destruct (Hleaf eq_refl) as (v & E & M). exists true, v. split; [|done]. unfold merge_doScalar. rewrite E.
    assert (Hs : scalar_ok t w).
    { destruct Hw as [Ew|Ew]; [destruct (Hlhs w Ew) as (_ & Hc & _)|destruct (Hrhs w Ew) as (_ & Hc & _)];
        apply (conforms_kind _ _ _ _ _ Ea) in Hc; by rewrite Hk in Hc. }
    destruct Hw as [-> | ->]; [rewrite (proj2 (validateScalar_ok t w LHS) Hs)|rewrite (proj2 (validateScalar_ok t w RHS) Hs)];
      [done|by rewrite andb_false_r].
  - unfold merge_doList. cbv zeta.
    destruct (string_eqb (l_ER t) Atomic || _) eqn:Ew; [destruct (Hleaf Ew) as (v & -> & M); eauto|].
    apply orb_false_iff in Ew as [Hat Hlen].
    destruct (list_operand true lhs w t Hlhs Hk Hat) as [FL _], (list_operand false rhs w t Hrhs Hk Hat) as [FR Hd].
    destruct (merge_visitListItems_spec t FL FR (Hd eq_refl) None) as (order & items & Ev & I & F).
    { destruct (derefList lhs) as [[|]|]; simpl in Hlen |- *; [|by left|]; right; by destruct (derefList rhs) as [[|]|]. }
    exists false, (VList items). split.
    + cbn [fst snd]. rewrite Ev. by destruct (derefList lhs), (derefList rhs).
    + apply (merged_list sc t lhs rhs order items); [|done|done]. simpl. by rewrite Hat.
  - unfold merge_doMap. cbv zeta.
    destruct (string_eqb (m_ER t) Atomic || _) eqn:Ew; [destruct (Hleaf Ew) as (v & -> & M); eauto|].
    apply orb_false_iff in Ew as [Hat Hlen].
    destruct (merge_visitMapItems_spec t (map_operand true lhs w t Hlhs Hk Hat) (map_operand false rhs w t Hrhs Hk Hat) None Hlen)
      as (m & Ev & Hn & Hm).
    exists false, (VMap m). split.
    + cbn [fst snd]. rewrite Ev. by destruct (derefMap lhs), (derefMap rhs).
    + apply merged_map; [|done|done]. simpl. by rewrite Hat.
Qed.

Lemma operand_kind dup v w : operand_conforms dup tr v -> v = Some w -> exists k, kind_of a w = Some k.
Proof.
  intros Hv Ev. destruct (Hv w Ev) as (_ & Hc & _). apply (conforms_kind _ _ _ _ _ Ea) in Hc.
  destruct (kind_of a w); [eauto|done].
Qed.
End Handlers.
End Refine.

(** ** Refinement *)

Lemma merge_body_spec r sc tr lhs rhs :
  (forall tr l r', operand_conforms r sc true tr l -> operand_conforms r sc false tr r' ->
    below lhs l -> below rhs r' -> (l <> None \/ r' <> None) -> merge_meets sc tr l r') ->
  operand_conforms r sc true tr lhs -> operand_conforms r sc false tr rhs -> (lhs <> None \/ rhs <> None) ->
  merge_meets sc tr lhs rhs.
Proof.
  intros Hrec Hl Hr Hne.
  assert (HR : exists a, Resolve sc tr = Some a).
  { destruct rhs as [x|]; [destruct (Hr x eq_refl) as (_ & Hc & _); by eapply conforms_Resolve|].
    destruct lhs as [x|]; [destruct (Hl x eq_refl) as (_ & Hc & _); by eapply conforms_Resolve|by destruct Hne]. }
  destruct HR as [a Ea].
  pose proof (merge_handler_spec r sc lhs rhs Hrec tr a Ea Hl Hr) as Hh.
  cut (exists k v, merge_kind a lhs rhs = Some k /\ merged_as sc k lhs rhs v /\
    forall pf, merge sc ruleKeepRHS None tr lhs rhs false pf = Ret ([], Some v)).
  { intros (k & v & Ek & M & E). exists v. split; [done|]. by econstructor. }
  setoid_rewrite merge_unfold. unfold merge_body. rewrite Ea.
  destruct rhs as [x|]; cbn [merge_kind].
  - destruct (operand_kind r sc tr a Ea false (Some x) x Hr eq_refl) as [k Ek].
    destruct (Hh x k (or_intror eq_refl) Ek) as (b & v & Ev & M). exists k, v.
    split_and!; [by destruct lhs|done|]. intros pf. destruct lhs as [y|].
    + destruct (operand_kind r sc tr a Ea true (Some y) y Hl eq_refl) as [k' Ek'].
      destruct (Hh y k' (or_introl eq_refl) Ek') as (b' & v' & Ev' & _). cbv zeta. rewrite Ev, Ev'.
      destruct (Atom_Equals _ _); cbn [mbind Outcome_bind fst snd app]; by destruct pf.
    + cbv zeta. rewrite Ev. cbn [mbind Outcome_bind fst snd]. by destruct pf.
  - destruct lhs as [y|]; [|by destruct Hne].
    destruct (operand_kind r sc tr a Ea true (Some y) y Hl eq_refl) as [k Ek].
    destruct (Hh y k (or_introl eq_refl) Ek) as (b & v & Ev & M). exists k, v. split_and!; [done|done|].
    intros pf. cbv zeta. rewrite Ev. cbn [mbind Outcome_bind fst snd]. by destruct pf.
Qed.

Lemma merge_refines r sc tr lhs rhs :
  operand_conforms r sc true tr lhs -> operand_conforms r sc false tr rhs -> (lhs <> None \/ rhs <> None) ->
  merge_meets sc tr lhs rhs.
Proof.
  assert (Hn : exists n, (oheight lhs < n /\ oheight rhs < n)%nat) by (exists (S (oheight lhs + oheight rhs)); lia).
  destruct Hn as [n Hn]. revert tr lhs rhs Hn. induction n as [|n IH]; intros tr lhs rhs [H1 H2] Hl Hr Hne; [lia|].
  assert (0 < oheight lhs \/ 0 < oheight rhs)%nat by (destruct lhs, rhs; simpl; [lia..|destruct Hne; done]).
  apply (merge_body_spec r); [|done..]. intros tr' l r' Hl' Hr' [-> |Bl] [-> |Br] Hne'; apply IH; simpl in *; auto; lia.
Qed.

(** ** Fields of the merged object *)

(** A value that is neither a map nor a list nor null. *)
Definition is_leaf (v : value) : bool := negb (IsMap v) && negb (IsList v) && negb (IsNull v).

Lemma field_conforms sc dup t m n x :
  conforms_as sc dup (Some (KMap t)) (VMap m) -> assoc_get n m = Some x -> conforms sc dup (mapFieldType t n) x.
Proof.
  simpl. rewrite Forall_forall. intros Hc Ex. destruct (Hc (n, x) (assoc_get_Some _ _ _ Ex)) as (tr' & Et & Hx).
  simpl in Et, Hx. by rewrite (fieldType_mapFieldType _ _ _ Et).
Qed.

(** Every leaf of the right object that field names reach is in the result. *)
Lemma merged_valueAt_right sc dup tr l x v names y :
  conforms sc dup tr x -> merged sc tr l (Some x) v -> valueAt x names = Some y -> is_leaf y = true ->
  valueAt v names = Some y.
Proof.
  revert tr l x v. induction names as [|n names IH]; intros tr l x v Hc M Hy Hleaf.
  - injection Hy as ->. inversion M as [tr' a k l' r' v' Ea Ek M']; subst. cbn [merge_kind] in Ek.
    apply (conforms_kind _ _ _ _ _ Ea) in Hc. rewrite Ek in Hc.
    inversion M'; subst; [by destruct l|destruct y; done..].
  - destruct x as [| | | | | | |m]; try done. simpl in Hy. destruct (assoc_get n m) as [x'|] eqn:Ex; [|done].
    inversion M as [tr' a k l' r' v' Ea Ek M']; subst. cbn [merge_kind] in Ek.
    apply (conforms_kind _ _ _ _ _ Ea) in Hc. rewrite Ek in Hc.
    inversion M' as [k' l'' r'' v'' Hw Hv|t l'' r'' order items Hw I F|t l'' r'' m' Hw Hkeys Hf]; subst; [|done|].
    + assert (v = VMap m) as -> by (destruct l; simpl in Hv; congruence). simpl. by rewrite Ex.
    + apply (field_conforms sc dup t m n x') in Hc; [|done]. simpl in Hkeys, Hf |- *.
      destruct (assoc_get n m') as [z|] eqn:Ez.
      * specialize (Hf n z Ez). rewrite Ex in Hf. by eapply IH.
      * apply Hkeys in Ez as [_ Ez]. congruence.
Qed.

(** The field names leave the right object at a map that is merged field by field. *)
Fixpoint leaves_object (sc : Schema) (tr : TypeRef) (x : value) (names : list string) : bool :=
  match names, x with
  | n :: names', VMap m =>
    match Resolve sc tr with
    | Some a =>
      match kind_of a x with
      | Some (KMap t) => negb (string_eqb (m_ER t) Atomic) &&
        match assoc_get n m with Some x' => leaves_object sc (mapFieldType t n) x' names' | None => true end
      | _ => false
      end
    | None => false
    end
  | _, _ => false
  end.

(** The left object alone is merged to itself, as far as field names show. *)
Lemma merged_valueAt_alone sc dup tr x v names y :
  conforms sc dup tr x -> merged sc tr (Some x) None v -> valueAt x names = Some y -> is_leaf y = true ->
  valueAt v names = Some y.
Proof.
  revert tr x v. induction names as [|n names IH]; intros tr x v Hc M Hy Hleaf.
  - injection Hy as ->. inversion M as [tr' a k l' r' v' Ea Ek M']; subst. cbn [merge_kind] in Ek.
    apply (conforms_kind _ _ _ _ _ Ea) in Hc. rewrite Ek in Hc.
    inversion M'; subst; [done|destruct y; done..].
  - destruct x as [| | | | | | |m]; try done. simpl in Hy. destruct (assoc_get n m) as [x'|] eqn:Ex; [|done].
    inversion M as [tr' a k l' r' v' Ea Ek M']; subst. cbn [merge_kind] in Ek.
    apply (conforms_kind _ _ _ _ _ Ea) in Hc. rewrite Ek in Hc.
    inversion M' as [k' l'' r'' v'' Hw Hv|t l'' r'' order items Hw I F|t l'' r'' m' Hw Hkeys Hf]; subst; [|done|].
    + simpl in Hv. injection Hv as <-. simpl. by rewrite Ex.
    + apply (field_conforms sc dup t m n x') in Hc; [|done]. simpl in Hkeys, Hf |- *.
      destruct (assoc_get n m') as [z|] eqn:Ez; [|apply Hkeys in Ez as [Ez _]; congruence].
      specialize (Hf n z Ez). rewrite Ex in Hf. by eapply IH.
Qed.

(** Every leaf of the left object that field names reach outside the right object is in the result. *)
Lemma merged_valueAt_left sc dup tr x x2 v names y :
  conforms sc dup tr x -> merged sc tr (Some x) (Some x2) v -> valueAt x names = Some y -> is_leaf y = true ->
  leaves_object sc tr x2 names = true -> valueAt v names = Some y.
Proof.
  revert tr x x2 v. induction names as [|n names IH]; intros tr x x2 v Hc M Hy Hleaf Hout; [done|].
  destruct x as [| | | | | | |m]; try done. simpl in Hy. destruct (assoc_get n m) as [x'|] eqn:Ex; [|done].
  inversion M as [tr' a k l' r' v' Ea Ek M']; subst. cbn [merge_kind] in Ek.
  destruct x2 as [| | | | | | |m2]; try done. cbn [leaves_object] in Hout. rewrite Ea, Ek in Hout.
  destruct k as [t|t|t]; try done. apply andb_true_iff in Hout as [Hat Hout]. apply negb_true_iff in Hat.
  apply (conforms_kind _ _ _ _ _ Ea) in Hc. rewrite (kind_of_map a _ t m Ek) in Hc. 
  apply (field_conforms sc dup t m n x') in Hc; [|done].
  inversion M' as [k' l'' r'' v'' Hw Hv|t' l'' r'' order items Hw I F|t' l'' r'' m' Hw Hkeys Hf]; subst.
  - simpl in Hw. rewrite Hat in Hw. destruct m; done.
  - simpl in Hkeys, Hf. simpl. destruct (assoc_get n m') as [z|] eqn:Ez; [|apply Hkeys in Ez as [Ez _]; congruence].
    specialize (Hf n z Ez). rewrite Ex in Hf. destruct (assoc_get n m2) as [z2|] eqn:E2; [by eapply IH|].
    by eapply merged_valueAt_alone.
Qed.
