(* ===== verification/CompareRefine.v ===== *)
(** * Package typed: what a comparison reports

    [nodeAt] finds the part of an object at a path, from the schema alone.
    [compare] of conforming objects succeeds; it reports as removed and as
    added exactly the paths at which one object has a part and the other none,
    and as modified exactly the paths at which both have a part that is a leaf
    for the walker and the parts are not equal. *)
From S2P Require Import Prelude GoLib GoFloat Value ValueOrder MapZip PathElement SortedSlice.
From S2P Require Import FieldSet FieldSetSpec FieldSetOps FieldSetInsert PathElementMap Schema TypedHelpers Validate.
From S2P Require Import ToFieldSet ToFieldSetSpec Compare CompareSpec CompareOk Merge MergeSpec MergeOk MergeRefine.

(** ** The parts of an object *)

(** The part of [v], seen as one of kind [k], at a path element, with its type:
    the item the element identifies, or the field it names. *)
Definition childAs (sc : Schema) (k : Kind) (v : value) (pe : PathElement) : option (TypeRef * value) :=
  match k, v with
  | KList t, VList l =>
    if string_eqb (l_ER t) Atomic then None
    else (fun c => (l_ElementType t, c)) <$> slice_find (itemPE sc t) pe l
  | KMap t, VMap m =>
    if string_eqb (m_ER t) Atomic then None
    else (fun kv => (mapFieldType t kv.1, kv.2)) <$> slice_find (fun kv => peField kv.1) pe m
  | _, _ => None
  end.

Definition kindAt (sc : Schema) (tr : TypeRef) (v : value) : option Kind :=
  a ← Resolve sc tr; kind_of a v.

Definition childAt (sc : Schema) (tr : TypeRef) (v : value) (pe : PathElement) : option (TypeRef * value) :=
  k ← kindAt sc tr v; childAs sc k v pe.

(** The part at a path. *)
Fixpoint nodeAt (sc : Schema) (tr : TypeRef) (v : value) (p : Path) : option (TypeRef * value) :=
  match p with
  | [] => Some (tr, v)
  | pe :: p' => c ← childAt sc tr v pe; nodeAt sc c.1 c.2 p'
  end.

(** A handler of kind [k] takes two values for a leaf: scalars, what is atomic,
    and what is empty, or not of the kind, on both sides. *)
Definition leafFor (k : Kind) (x y : option value) : bool :=
  match k with
  | KScalar _ => true
  | KList t => string_eqb (l_ER t) Atomic || ((list_Length (derefList x) =? 0) && (list_Length (derefList y) =? 0))%nat
  | KMap t => string_eqb (m_ER t) Atomic || (map_Empty (derefMap x) && map_Empty (derefMap y))
  end.

(** One of the kinds of the two values takes them for a leaf. *)
Definition leafPair (sc : Schema) (tr : TypeRef) (x y : value) : bool :=
  match kindAt sc tr x, kindAt sc tr y with
  | Some kx, Some ky => leafFor kx (Some x) (Some y) || leafFor ky (Some x) (Some y)
  | _, _ => false
  end.

(** ** Reports *)

Inductive Part := PRemoved | PModified | PAdded.

Definition part (k : Part) (c : Comparison) : FSet :=
  match k with PRemoved => Removed c | PModified => Modified c | PAdded => Added c end.

Definition insertPart (k : Part) (p : Path) (c : Comparison) : Comparison :=
  match k with PRemoved => insertRemoved p c | PModified => insertModified p c | PAdded => insertAdded p c end.

(** What a report says of a path. *)
Abbreviation Rep := (Part -> Path -> bool).

(** What the two optional parts at a path are reported as. *)
Definition reportOf (sc : Schema) (k : Part) (x y : option (TypeRef * value)) : bool :=
  match k, x, y with
  | PRemoved, Some _, None => true
  | PAdded, None, Some _ => true
  | PModified, Some (t, x), Some (_, y) => leafPair sc t x y && negb (Equals y x)
  | _, _, _ => false
  end.

Definition nodeOf (sc : Schema) (tr : TypeRef) (o : option value) (p : Path) : option (TypeRef * value) :=
  v ← o; nodeAt sc tr v p.

Definition reportAt (sc : Schema) (tr : TypeRef) (lo ro : option value) : Rep := fun k p =>
  reportOf sc k (nodeOf sc tr lo p) (nodeOf sc tr ro p).

(** The rest of a path below [path]. *)
Fixpoint strip (path p : Path) : option Path :=
  match path, p with
  | [], _ => Some p
  | a :: path', b :: p' => if PathElement_Equals a b then strip path' p' else None
  | _ :: _, [] => None
  end.

Definition beneath (path : Path) (f : Path -> bool) (p : Path) : bool :=
  match strip path p with Some q => f q | None => false end.

Definition nothing : Rep := fun _ _ => false.
Definition here (k : Part) : Rep := fun k' q => match k, k', q with
  | PRemoved, PRemoved, [] | PModified, PModified, [] | PAdded, PAdded, [] => true | _, _, _ => false end.
Definition both (f g : Rep) : Rep := fun k q => f k q || g k q.
Definition under1 (pe : PathElement) (f : Rep) : Rep := fun k q =>
  match q with x :: q' => PathElement_Equals pe x && f k q' | [] => false end.

Section Reports.
Context (r : Regime).
Implicit Types (f g : Rep) (c : Comparison) (path p q : Path).

(** [c'] is [c] with what [f] reports below [path]. *)
Definition adds_report path c c' f : Prop :=
  comparison_ok r c' /\
  forall k p, Forall (pe_dom r) p -> p <> [] -> Set_Has (part k c') p = Set_Has (part k c) p || beneath path (f k) p.

Definition same_report f g : Prop := forall k q, Forall (pe_dom r) q -> f k q = g k q.

Lemma strip_dom path p q : Forall (pe_dom r) p -> strip path p = Some q -> Forall (pe_dom r) q.
Proof.
  intros D. revert path. induction D as [|b p Hb D IH]; intros [|a path]; simpl; try by (intros [= <-]; auto).
  destruct (PathElement_Equals a b); [|done]. apply IH.
Qed.

Lemma adds_report_same path c c' f g : same_report f g -> adds_report path c c' f -> adds_report path c c' g.
Proof.
  intros Hfg [Hok H]. split; [done|]. intros k p Hp Hne. rewrite H by done. f_equal. unfold beneath.
  destruct (strip path p) as [q|] eqn:E; [|done]. by apply Hfg, (strip_dom _ _ _ Hp E).
Qed.

Lemma adds_report_nothing path c : comparison_ok r c -> adds_report path c c nothing.
Proof. intros Hc. split; [done|]. intros. unfold beneath. destruct (strip _ _); by rewrite orb_false_r. Qed.

Lemma adds_report_both path c1 c2 c3 f g :
  adds_report path c1 c2 f -> adds_report path c2 c3 g -> adds_report path c1 c3 (both f g).
Proof.
  intros [_ H1] [Hok H2]. split; [done|]. intros k p Hp Hne. rewrite H2, H1, <-orb_assoc by done. f_equal.
  unfold beneath. by destruct (strip _ _).
Qed.

Lemma strip_snoc path pe p : strip (path ++ [pe]) p = q ← strip path p; strip [pe] q.
Proof.
  revert p. induction path as [|a path IH]; intros [|b p]; try done. cbn [strip app].
  destruct (PathElement_Equals a b); [apply IH|done].
Qed.

Lemma adds_report_under path pe c c' f :
  adds_report (path ++ [pe]) c c' f -> adds_report path c c' (under1 pe f).
Proof.
  intros [Hok H]. split; [done|]. intros k p Hp Hne. rewrite H by done. f_equal. unfold beneath.
  rewrite strip_snoc. destruct (strip path p) as [[|x q]|]; [done| |done]. simpl.
  by destruct (PathElement_Equals pe x).
Qed.

Lemma strip_Path_Equals path p :
  Path_Equals path p = match strip path p with Some [] => true | _ => false end.
Proof.
  revert p. induction path as [|a path IH]; intros [|b p]; try done.
  rewrite Path_Equals_cons, IH. simpl. by destruct (PathElement_Equals a b).
Qed.

Lemma adds_report_here k path c :
  comparison_ok r c -> Forall (pe_dom r) path -> adds_report path c (insertPart k path c) (here k).
Proof.
  intros Hc Hp. split; [by destruct k; apply insert_comparison_ok|]. destruct Hc as (H1 & H2 & H3).
  intros k' p Hp' Hne. unfold beneath. pose proof (strip_Path_Equals path p) as E.
  destruct k, k'; cbn [part insertPart insertRemoved insertModified insertAdded Removed Modified Added here];
    rewrite ?(Set_Has_Insert r _ _ _) by (done || by apply Set_ok_iff);
    rewrite ?E; destruct (strip path p) as [[|x q]|]; rewrite ?orb_false_r, ?orb_true_r; done.
Qed.
End Reports.

(** ** The walker *)

(** The part below an operand, for a handler of kind [k]. *)
Definition childOf (sc : Schema) (k : Kind) (o : option value) (pe : PathElement) : option (TypeRef * value) :=
  v ← o; childAs sc k v pe.

(** What a leaf is reported as. *)
Definition leafReport (lo ro : option value) (k : Part) : bool :=
  match k, lo, ro with
  | PRemoved, Some _, None => true
  | PAdded, None, _ => true
  | PModified, Some l, Some r => negb (Equals r l)
  | _, _, _ => false
  end.

(** The report on two parts of the same type, of which one may be absent. *)
Definition pairReport (sc : Schema) (x y : option (TypeRef * value)) : Rep := fun k q =>
  match x, y with
  | None, None => false
  | Some (t, _), _ | None, Some (t, _) => reportAt sc t (snd <$> x) (snd <$> y) k q
  end.

(** What the handler of kind [h] reports. *)
Definition handlerReport (sc : Schema) (h : Kind) (lo ro : option value) : Rep := fun k q =>
  match q with
  | [] => leafFor h lo ro && leafReport lo ro k
  | x :: q' => pairReport sc (childOf sc h lo x) (childOf sc h ro x) k q'
  end.

Section Gather.
Context (r : Regime) (sc : Schema) (t : ListT).

Lemma slice_find_fresh x l pe :
  pe_dom r x -> pe_dom r pe -> Forall (fun c => pe_dom r (itemPE sc t c)) l ->
  forallb (fun y => negb (PathElement_Equals x y)) (itemPE sc t <$> l) = true -> PathElement_Equals x pe = true ->
  slice_find (itemPE sc t) pe l = None.
Proof.
  intros Hx Hpe Hl Hd E. rewrite forallb_Forall, Forall_fmap in Hd. apply slice_find_None.
  rewrite Forall_forall in Hl. rewrite Forall_forall in Hd. apply Forall_forall. intros c Hc. specialize (Hd c Hc).
  unfold compose in Hd. apply negb_true_iff in Hd.
  rewrite (pe_Equals_sym r _ pe) by auto. by rewrite <-(pe_Equals_trans_l r x pe) by auto.
Qed.

(** Gathering items with distinct path elements: each is found by its path
    element, and those not known before are listed. *)
Lemma gatherItems_distinct known i l values pes errs :
  Forall (indexable r sc t) l -> pes_distinct (itemPE sc t <$> l) = true -> slice_ok fst r values = true ->
  Forall (fun c => PathElementMap_Get values (itemPE sc t c) = None) l ->
  exists values',
    gatherItems sc t known i l values pes errs =
      (values', pes ++ base.filter (fun pe => known pe = false) (itemPE sc t <$> l), errs) /\
    forall pe, pe_dom r pe -> PathElementMap_Get values' pe =
      match slice_find (itemPE sc t) pe l with Some c => Some [c] | None => PathElementMap_Get values pe end.
Proof.
  intros Hl. revert i values pes. induction Hl as [|c l [Ec Dc] Hl IH]; intros i values pes Hd Ho Hn.
  { exists values. split; [by rewrite app_nil_r|done]. }
  apply Forall_cons in Hn as [Hc Hn]. rewrite fmap_cons in *. simpl in Hd. apply andb_true_iff in Hd as [Hd1 Hd2].
  assert (Dl : Forall (fun c => pe_dom r (itemPE sc t c)) l) by (eapply Forall_impl; [exact Hl|]; by intros ? []).
  destruct (IH (S i) (PathElementMap_Insert values (itemPE sc t c) [c])
    (if known (itemPE sc t c) then pes else pes ++ [itemPE sc t c]) Hd2) as (values' & E1 & E2).
  - by apply PathElementMap_Insert_ok.
  - rewrite Forall_forall in Dl. rewrite Forall_forall in Hn. rewrite forallb_Forall, Forall_fmap, Forall_forall in Hd1.
    apply Forall_forall. intros y Hy. rewrite (PathElementMap_Get_Insert_eq r) by auto.
    specialize (Hd1 y Hy). unfold compose in Hd1. apply negb_true_iff in Hd1. rewrite Hd1. auto.
  - exists values'. simpl. rewrite Ec, Hc, E1. split.
    + rewrite filter_cons. destruct (known (itemPE sc t c)); [by rewrite decide_False|].
      rewrite decide_True by done. by rewrite <-app_assoc.
    + intros pe Hpe. rewrite E2, (PathElementMap_Get_Insert_eq r) by done.
      destruct (PathElement_Equals (itemPE sc t c) pe) eqn:E; [|done]. by rewrite (slice_find_fresh (itemPE sc t c)).
Qed.
End Gather.

Section Walk.
Context (r : Regime) (sc : Schema).

Abbreviation operand := (operand_conforms r sc false).

(** A call reports what it should. *)
Definition reports (tr : TypeRef) (lo ro : option value) : Prop := forall path pf c,
  Forall (pe_dom r) path -> comparison_ok r c ->
  exists c', compare sc tr lo ro path false pf c = Ret ([], c') /\ adds_report r path c c' (reportAt sc tr lo ro).

(** The report of visiting parts one after the other. *)
Definition visitReport (es : list (PathElement * (TypeRef * (option value * option value)))) : Rep := fun k q =>
  match q with
  | x :: q' => existsb (fun e => PathElement_Equals e.1 x && reportAt sc e.2.1 e.2.2.1 e.2.2.2 k q') es
  | [] => false
  end.

Lemma visit_cons path c0 c1 c2 pe tr lo ro es :
  adds_report r (path ++ [pe]) c0 c1 (reportAt sc tr lo ro) -> adds_report r path c1 c2 (visitReport es) ->
  adds_report r path c0 c2 (visitReport ((pe, (tr, (lo, ro))) :: es)).
Proof.
  intros H1%adds_report_under H2. eapply adds_report_same; [|by eapply adds_report_both].
  intros k [|x q] _; done.
Qed.

Lemma comparePEs_report t path lV rV (pes : list PathElement) c :
  let pair pe := (head (default [] (PathElementMap_Get lV pe)), head (default [] (PathElementMap_Get rV pe))) in
  Forall (fun pe => pe_dom r pe /\
    (length (default [] (PathElementMap_Get lV pe)) <= 1)%nat /\ (length (default [] (PathElementMap_Get rV pe)) <= 1)%nat /\
    ((pair pe).1 <> None \/ (pair pe).2 <> None) /\ reports (l_ElementType t) (pair pe).1 (pair pe).2) pes ->
  Forall (pe_dom r) path -> comparison_ok r c ->
  exists c', comparePEs (compare sc) t path false lV rV pes [] c = Ret ([], c') /\
    adds_report r path c c' (visitReport ((fun pe => (pe, (l_ElementType t, pair pe))) <$> pes)).
Proof.
  intros pair F Hp. revert c. induction F as [|pe pes (Dpe & Hl & Hr & Hne & Hrep) F IH]; intros c Hc.
  { exists c. split; [done|]. eapply adds_report_same; [|by apply adds_report_nothing]. by intros k [|]. }
  destruct (Hrep (path ++ [pe]) (Some pe) c) as (c1 & E1 & A1);
    [apply Forall_app; auto using Forall_singleton|done|].
  destruct (IH c1) as (c2 & E2 & A2); [by apply A1|].
  exists c2. rewrite fmap_cons. split; [|by eapply visit_cons].
  revert E1 Hne Hl Hr. unfold pair. cbn [comparePEs fst snd]. cbv zeta.
  destruct (default [] (PathElementMap_Get lV pe)) as [|x [|]], (default [] (PathElementMap_Get rV pe)) as [|y [|]];
    cbn [length head Nat.eqb andb comparePE compareListItem]; intros E1 Hne Hl Hr; try lia;
    try (unfold compareListItem; rewrite E1; exact E2).
  by destruct Hne.
Qed.

Lemma zipSteps_report t path es c :
  Forall (fun e => reports (mapFieldType t e.1) e.2.1 e.2.2) es ->
  Forall (pe_dom r) path -> comparison_ok r c ->
  exists c', fold_visits (cmp_zipStep (compare sc) t path false) es (Ret ([], c)) = Ret ([], c') /\
    adds_report r path c c' (visitReport ((fun e => (peField e.1, (mapFieldType t e.1, e.2))) <$> es)).
Proof.
  intros F Hp. revert c. induction F as [|[k [lo ro]] es Hrep F IH]; intros c Hc.
  { exists c. split; [done|]. eapply adds_report_same; [|by apply adds_report_nothing]. by intros k [|]. }
  destruct (Hrep (path ++ [peField k]) (Some (peField k)) c) as (c1 & E1 & A1);
    [apply Forall_app; split; [done|by apply Forall_singleton]|done|].
  destruct (IH c1) as (c2 & E2 & A2); [by apply A1|].
  exists c2. rewrite fmap_cons. split; [|by eapply visit_cons].
  unfold fold_visits in *. cbn [foldl fst snd] in *. unfold cmp_zipStep at 2, cmp_visitMapItem.
  cbn [mbind Outcome_bind fst snd]. rewrite E1. exact E2.
Qed.

(** Visits that reach every part below once report what the parts are. *)
Lemma visit_complete es (cl cr : PathElement -> option (TypeRef * value)) k x q :
  Forall (fun e => PathElement_Equals e.1 x = true ->
    pairReport sc (cl x) (cr x) k q = reportAt sc e.2.1 e.2.2.1 e.2.2.2 k q) es ->
  (cl x <> None \/ cr x <> None -> Exists (fun e => PathElement_Equals e.1 x = true) es) ->
  visitReport es k (x :: q) = pairReport sc (cl x) (cr x) k q.
Proof.
  intros F Hex. simpl. apply eq_true_iff_eq. rewrite existsb_exists. split.
  - intros (e & He & [Ex Hr]%andb_true_iff). rewrite Forall_forall in F. rewrite (F e); [done|by apply list_elem_of_In|done].
  - intros Hr. assert (Hne : cl x <> None \/ cr x <> None).
    { unfold pairReport in Hr. destruct (cl x); [by left|]. destruct (cr x); [by right|done]. }
    apply Exists_exists in Hex as (e & He & Ex); [|done]. exists e. split; [by apply list_elem_of_In|].
    rewrite Forall_forall in F. by rewrite Ex, <-(F e He Ex), Hr.
Qed.

Lemma pairReport_typed t lo ro k q :
  lo <> None \/ ro <> None ->
  pairReport sc ((fun c => (t, c)) <$> lo) ((fun c => (t, c)) <$> ro) k q = reportAt sc t lo ro k q.
Proof. destruct lo, ro; try done. by intros [|]. Qed.

Lemma slice_find_self {A} (key : A -> PathElement) l a :
  pe_dom r (key a) -> a ∈ l -> slice_find key (key a) l <> None.
Proof.
  intros D. induction l as [|b l IH]; [by intros ?%not_elem_of_nil|]. intros [<-|Ha]%elem_of_cons; simpl.
  - by rewrite (pe_Equals_refl r).
  - destruct (PathElement_Equals (key b) (key a)); auto.
Qed.

Lemma childOf_list t o x :
  string_eqb (l_ER t) Atomic = false ->
  childOf sc (KList t) o x = (fun c => (l_ElementType t, c)) <$> slice_find (itemPE sc t) x (default [] (derefList o)).
Proof. intros E. destruct o as [[]|]; try done. simpl. by rewrite E. Qed.

Section Lists.
Context (t : ListT) (lhs rhs : option value).
Hypothesis Hat : string_eqb (l_ER t) Atomic = false.
Definition items_fit (l : list value) : Prop :=
  Forall (indexable r sc t) l /\ pes_distinct (itemPE sc t <$> l) = true.
Hypothesis HL : items_fit (default [] (derefList lhs)).
Hypothesis HR : items_fit (default [] (derefList rhs)).
Hypothesis Hrec : forall pe,
  let lo := slice_find (itemPE sc t) pe (default [] (derefList lhs)) in
  let ro := slice_find (itemPE sc t) pe (default [] (derefList rhs)) in
  lo <> None \/ ro <> None -> reports (l_ElementType t) lo ro.

Lemma compared_items_dom l : items_fit l -> Forall (fun c => pe_dom r (itemPE sc t c)) l.
Proof. intros [F _]. eapply Forall_impl; [exact F|]. by intros ? []. Qed.

Lemma found_head (o : option value) : head (default [] ((fun c => [c]) <$> o)) = o.
Proof. by destruct o. Qed.

Lemma cmp_visitListItems_report path c :
  Forall (pe_dom r) path -> comparison_ok r c ->
  exists c', cmp_visitListItems sc (compare sc) t path false (derefList lhs) (derefList rhs) c = Ret ([], c') /\
    adds_report r path c c' (fun k q => match q with
      | x :: q' => pairReport sc (childOf sc (KList t) lhs x) (childOf sc (KList t) rhs x) k q' | [] => false end).
Proof.
  intros Hp Hc. unfold cmp_visitListItems.
  pose proof (fun o x => childOf_list t o x Hat) as CO. pose proof (CO lhs) as CL. pose proof (CO rhs) as CR. clear CO.
  revert HL HR Hrec CL CR. generalize (default [] (derefList lhs)) (default [] (derefList rhs)). intros ll rl FL FR Hr CL CR.
  pose proof (compared_items_dom ll FL) as DL. pose proof (compared_items_dom rl FR) as DR. destruct FL as [IL NL], FR as [IR NR].
  destruct (gatherItems_distinct r sc t (fun _ => false) 0 ll [] [] [] IL NL eq_refl ltac:(by apply Forall_true))
    as (lV & -> & EL).
  set (known := fun pe => match PathElementMap_Get lV pe with Some _ => true | None => false end).
  destruct (gatherItems_distinct r sc t known 0 rl [] ([] ++ base.filter (fun pe => (fun _ => false) pe = false) (itemPE sc t <$> ll))
    [] IR NR eq_refl ltac:(by apply Forall_true)) as (rV & -> & ER).
  rewrite filter_all by by apply Forall_true. cbn [app].
  assert (GL : forall pe, pe_dom r pe -> PathElementMap_Get lV pe = (fun c => [c]) <$> slice_find (itemPE sc t) pe ll).
  { intros pe Hpe. rewrite EL by done. by destruct (slice_find _ pe ll). }
  assert (GR : forall pe, pe_dom r pe -> PathElementMap_Get rV pe = (fun c => [c]) <$> slice_find (itemPE sc t) pe rl).
  { intros pe Hpe. rewrite ER by done. by destruct (slice_find _ pe rl). }
  set (pes := (itemPE sc t <$> ll) ++ base.filter (fun pe => known pe = false) (itemPE sc t <$> rl)).
  assert (Hpes : Forall (fun pe => pe_dom r pe /\
    (slice_find (itemPE sc t) pe ll <> None \/ slice_find (itemPE sc t) pe rl <> None)) pes).
  { rewrite Forall_forall in DL. rewrite Forall_forall in DR. apply Forall_forall. intros pe [H|H]%elem_of_app.
    - apply list_elem_of_fmap in H as (x & -> & H). split; [auto|]. left. by apply slice_find_self; auto.
    - apply list_elem_of_filter in H as [_ (x & -> & H)%list_elem_of_fmap]. split; [auto|].
      right. by apply slice_find_self; auto. }
  destruct (comparePEs_report t path lV rV pes c) as (c' & E & A); [|done|done|].
  { eapply Forall_impl; [exact Hpes|]. intros pe [Dpe Hne]. rewrite (GL pe Dpe), (GR pe Dpe), !found_head.
    split_and!; [done|by destruct (slice_find _ pe ll); simpl; lia|by destruct (slice_find _ pe rl); simpl; lia|done|by apply Hr]. }
  exists c'. split; [exact E|]. eapply adds_report_same; [|exact A].
  intros k [|x q] Hq; [done|]. apply Forall_cons in Hq as [Dx _].
  rewrite CL, CR.
  apply (visit_complete _ (fun x => (fun c => (l_ElementType t, c)) <$> slice_find (itemPE sc t) x ll)
    (fun x => (fun c => (l_ElementType t, c)) <$> slice_find (itemPE sc t) x rl)).
  - apply Forall_fmap. eapply Forall_impl; [exact Hpes|]. intros pe [Dpe Hne] Ex. simpl in *.
    rewrite (GL pe Dpe), (GR pe Dpe), !found_head, <-(pairReport_typed _ _ _ _ _ Hne).
    by rewrite !(slice_find_Equals (itemPE sc t) r pe x) by done.
  - intros Hne. apply Exists_exists. cut (exists pe, pe ∈ pes /\ PathElement_Equals pe x = true).
    { intros (pe & Hpe & Ex). eexists. split; [by eapply list_elem_of_fmap_2|done]. }
    rewrite Forall_forall in DL. rewrite Forall_forall in DR. unfold pes. setoid_rewrite elem_of_app.
    destruct (slice_find _ x ll) as [y|] eqn:Ey.
    { apply slice_find_Some in Ey as [Hy Ey]. exists (itemPE sc t y). split; [left; by apply list_elem_of_fmap_2|done]. }
    destruct (slice_find _ x rl) as [y|] eqn:Ez; [|by destruct Hne].
    apply slice_find_Some in Ez as [Hy Ez]. exists (itemPE sc t y). split; [|done]. right.
    apply list_elem_of_filter. split; [|by apply list_elem_of_fmap_2]. unfold known. rewrite GL by auto.
    rewrite (slice_find_Equals (itemPE sc t) r _ x) by (auto; by apply Forall_forall). by rewrite Ey.
Qed.
End Lists.

Lemma peField_Equals k k' x :
  pe_dom r x -> PathElement_Equals (peField k) x = true -> PathElement_Equals (peField k') x = true -> k' = k.
Proof.
  intros Hx E E'. rewrite (pe_Equals_sym r) in E' by done. rewrite <-(pe_Equals_trans_l r (peField k) x) in E' by done.
  unfold PathElement_Equals in E'. simpl in E'. symmetry. by apply string_eqb_true.
Qed.

(** The field that a path element names. *)
Lemma slice_find_field (m : Map) k x :
  pe_dom r x -> PathElement_Equals (peField k) x = true ->
  slice_find (fun kv => peField kv.1) x m = (fun v => (k, v)) <$> assoc_get k m.
Proof.
  intros Hx E. induction m as [|[k' v] m IH]; [done|]. cbn [slice_find assoc_get fst]. destruct (string_eqb k' k) eqn:Ek.
  - apply string_eqb_true in Ek. subst k'. by rewrite E.
  - destruct (PathElement_Equals (peField k') x) eqn:E'; [|done].
    exfalso. apply (peField_Equals k k' x Hx E) in E'. subst k'. by rewrite string_eqb_refl in Ek.
Qed.

Lemma childOf_map t o x :
  string_eqb (m_ER t) Atomic = false ->
  childOf sc (KMap t) o x =
    (fun kv => (mapFieldType t kv.1, kv.2)) <$> slice_find (fun kv => peField kv.1) x (default [] (derefMap o)).
Proof. intros E. destruct o as [[]|]; try done. simpl. by rewrite E. Qed.

Lemma childOf_field t o k x :
  string_eqb (m_ER t) Atomic = false -> pe_dom r x -> PathElement_Equals (peField k) x = true ->
  childOf sc (KMap t) o x = (fun v => (mapFieldType t k, v)) <$> map_Get (derefMap o) k.
Proof.
  intros Ha Hx E. rewrite childOf_map, (slice_find_field _ k), map_Get_default by done.
  by destruct (assoc_get k _).
Qed.

Section Maps.
Context (t : MapT) (lhs rhs : option value).
Hypothesis Hat : string_eqb (m_ER t) Atomic = false.
Hypothesis NL : NoDup (assoc_keys (default [] (derefMap lhs))).
Hypothesis NR : NoDup (assoc_keys (default [] (derefMap rhs))).
Hypothesis Hrec : forall k, let lo := map_Get (derefMap lhs) k in let ro := map_Get (derefMap rhs) k in
  lo <> None \/ ro <> None -> reports (mapFieldType t k) lo ro.

Lemma cmp_visitMapItems_report path c :
  Forall (pe_dom r) path -> comparison_ok r c ->
  exists c', cmp_visitMapItems (compare sc) t path false (derefMap lhs) (derefMap rhs) c = Ret ([], c') /\
    adds_report r path c c' (fun k q => match q with
      | x :: q' => pairReport sc (childOf sc (KMap t) lhs x) (childOf sc (KMap t) rhs x) k q' | [] => false end).
Proof.
  intros Hp Hc. unfold cmp_visitMapItems. rewrite MapZipUsing_visits.
  pose proof (zipEntries_values _ _ NL NR) as HV. pose proof (zipEntries_some (derefMap lhs) (derefMap rhs)) as HS.
  assert (Hes : Forall (fun e => e.2 = (map_Get (derefMap lhs) e.1, map_Get (derefMap rhs) e.1) /\
    (e.2.1 <> None \/ e.2.2 <> None)) (zipEntries (derefMap lhs) (derefMap rhs))).
  { apply Forall_forall. intros [k [lo ro]] He. split; [by apply (HV _ He)|]. cbn [fst snd].
    destruct lo, ro; auto. by apply HS in He. }
  destruct (zipSteps_report t path (zipEntries (derefMap lhs) (derefMap rhs)) c) as (c' & E & A); [|done|done|].
  { eapply Forall_impl; [exact Hes|]. intros e [Ee Hne]. rewrite Ee in Hne |- *. by apply Hrec. }
  exists c'. split; [exact E|]. eapply adds_report_same; [|exact A].
  intros k [|x q] Hq; [done|]. apply Forall_cons in Hq as [Dx _].
  apply (visit_complete _ (fun x => childOf sc (KMap t) lhs x) (fun x => childOf sc (KMap t) rhs x)).
  - apply Forall_fmap. eapply Forall_impl; [exact Hes|]. intros e [Ee Hne] Ex. simpl in *.
    rewrite !(childOf_field t _ e.1) by done. rewrite Ee in Hne |- *. by apply pairReport_typed.
  - intros Hne. apply Exists_exists.
    cut (exists n, (map_Get (derefMap lhs) n <> None \/ map_Get (derefMap rhs) n <> None) /\ PathElement_Equals (peField n) x = true).
    { intros (n & Hn%zipEntries_visits & Ex). eexists. split; [by eapply list_elem_of_fmap_2|done]. }
    assert (Hf : forall o, childOf sc (KMap t) o x <> None ->
      exists n, map_Get (derefMap o) n <> None /\ PathElement_Equals (peField n) x = true).
    { intros o. rewrite childOf_map by done. destruct (slice_find _ x _) as [[n v]|] eqn:Es; [|done]. intros _.
      pose proof Es as Es'. apply slice_find_Some in Es as [_ Ex]. simpl in Ex. exists n. split; [|done].
      rewrite (slice_find_field _ n) in Es' by done. rewrite map_Get_default. by destruct (assoc_get n _). }
    destruct Hne as [(n & ? & ?)%Hf|(n & ? & ?)%Hf]; eauto.
Qed.
End Maps.
End Walk.

(** ** Kinds *)

(** Values of which the deduced atoms are equal are handled alike. *)
Lemma Atom_Equals_kind a x y :
  Atom_Equals (deduceAtom a (Some x)) (deduceAtom a (Some y)) = true -> kind_of a x = kind_of a y.
Proof.
  unfold kind_of, deduceAtom. destruct a as [s l m]. cbn [a_Scalar a_List a_Map].
  destruct (_ || IsBool x), (_ || IsBool y), (IsList x), (IsList y), (IsMap x), (IsMap y), s, l, m; by cbn.
Qed.

(** The kinds of two values are the same, or not of the same form. *)
Lemma kind_cases a x y kx ky : kind_of a x = Some kx -> kind_of a y = Some ky -> kx = ky \/ kx <> ky.
Proof.
  unfold kind_of, deduceAtom. destruct a as [s l m]. cbn [a_Scalar a_List a_Map].
  destruct (_ || IsBool x), (_ || IsBool y), (IsList x), (IsList y), (IsMap x), (IsMap y), s, l, m; cbn;
    intros [= <-] [= <-]; (by left) || (by right).
Qed.

(** An item and a field have different path elements. *)
Lemma itemPE_not_field sc t c k : PathElement_Equals (peField k) (itemPE sc t c) = false.
Proof.
  unfold itemPE, listItemToPathElement, keyedAssociativeListItemToPathElement, setItemToPathElement.
  repeat case_match; simplify_eq/=; done.
Qed.

Section Kinds.
Context (r : Regime) (sc : Schema) (tr : TypeRef) (a : Atom).
Hypothesis Ea : Resolve sc tr = Some a.

Lemma kindAt_atom v : kindAt sc tr v = kind_of a v.
Proof. unfold kindAt. by rewrite Ea. Qed.

(** Parts of one kind at the same path element have one type. *)
Lemma childAs_type k x y pe t1 x' t2 y' :
  pe_dom r pe -> childAs sc k x pe = Some (t1, x') -> childAs sc k y pe = Some (t2, y') -> t1 = t2.
Proof.
  intros Hpe. destruct k as [t|t|t]; [by destruct x|destruct x, y; try done; simpl..].
  - destruct (string_eqb _ _); [done|]. destruct (slice_find _ pe l), (slice_find _ pe l0); simpl; congruence.
  - destruct (string_eqb _ _); [done|].
    destruct (slice_find _ pe m) as [[k1 v1]|] eqn:E1, (slice_find _ pe m0) as [[k2 v2]|] eqn:E2; try done.
    simpl. intros [= <- _] [= <- _]. apply slice_find_Some in E1 as [_ E1], E2 as [_ E2]. simpl in E1, E2.
    by rewrite (peField_Equals r k1 k2 pe).
Qed.

(** A value has no parts of the kind of another one. *)
Lemma childAs_other x y kx ky pe :
  kind_of a x = Some kx -> kind_of a y = Some ky -> kx <> ky -> childAs sc kx y pe = None.
Proof.
  intros Hx Hy Hne. destruct kx as [t|t|t]; [done|destruct y; try done..].
  - rewrite (kind_of_list a x t) in Hy by done. congruence.
  - rewrite (kind_of_map a x t) in Hy by done. congruence.
Qed.

(** An item of one value and a field of another are not at the same path element. *)
Lemma childAs_apart x y kx ky pe :
  pe_dom r pe -> operand_conforms r sc false tr (Some x) -> operand_conforms r sc false tr (Some y) ->
  kind_of a x = Some kx -> kind_of a y = Some ky -> kx <> ky ->
  childAs sc kx x pe = None \/ childAs sc ky y pe = None.
Proof.
  intros Hpe Ox Oy Hx Hy Hne.
  assert (HA : forall t k l m (w : value), Resolve sc tr = Some a -> operand_conforms r sc false tr (Some (VList l)) ->
    kind_of a w = Some (KList t) -> childAs sc (KList t) (VList l) pe = None \/ childAs sc (KMap k) (VMap m) pe = None).
  { clear -Hpe. intros t k l m w Ea Ol Hw. simpl. destruct (string_eqb (l_ER t) _) eqn:Hat; [by left|].
    destruct (string_eqb (m_ER k) _); [by right|].
    destruct (slice_find (itemPE sc t) pe l) as [c|] eqn:E1; [|by left].
    destruct (slice_find _ pe m) as [[n v]|] eqn:E2; [|by right]. exfalso.
    destruct (list_operand r sc tr a Ea false (Some (VList l)) w t Ol Hw Hat) as [F _].
    apply slice_find_Some in E1 as [Hc E1], E2 as [_ E2]. simpl in E1, E2. cbn [derefList from_option id] in F.
    rewrite Forall_forall in F. destruct (F c Hc) as [[_ Dc] _].
    rewrite (pe_Equals_sym r) in E1 by done. rewrite <-(pe_Equals_trans_l r (peField n) pe) in E1 by done.
    by rewrite itemPE_not_field in E1. }
  destruct kx as [t|t|t], ky as [t'|t'|t']; try (by left); try (by right);
    destruct x as [| | | | | |lx|mx]; try (by left); destruct y as [| | | | | |ly|my]; try (by right).
  - rewrite (kind_of_list a (VList lx) t ly Hx) in Hy. congruence.
  - by apply (HA t t' lx my (VList lx)).
  - destruct (HA t' t ly mx (VList ly)); auto.
  - rewrite (kind_of_map a (VMap mx) t my Hx) in Hy. congruence.
Qed.

(** The reports of the handlers of the two values make the report of the pair. *)
Lemma handlers_report x y kx ky :
  operand_conforms r sc false tr (Some x) -> operand_conforms r sc false tr (Some y) ->
  kind_of a x = Some kx -> kind_of a y = Some ky ->
  same_report r (both (handlerReport sc kx (Some x) (Some y)) (handlerReport sc ky (Some x) (Some y)))
    (reportAt sc tr (Some x) (Some y)).
Proof.
  intros Ox Oy Hx Hy k q Hq. unfold both, reportAt, nodeOf. cbn [mbind option_bind]. destruct q as [|pe q].
  - cbn [handlerReport nodeAt]. destruct k; cbn [leafReport reportOf]; rewrite ?andb_false_r; [done| |done].
    unfold leafPair. rewrite !kindAt_atom, Hx, Hy. by destruct (leafFor kx _ _), (leafFor ky _ _), (negb _).
  - apply Forall_cons in Hq as [Hpe _]. cbn [handlerReport nodeAt childOf mbind option_bind].
    unfold childAt. rewrite !kindAt_atom, Hx, Hy. cbn [mbind option_bind].
    destruct (kind_cases a x y kx ky Hx Hy) as [<-|Hne].
    + rewrite orb_diag. destruct (childAs sc kx x pe) as [[t1 x']|] eqn:E1, (childAs sc kx y pe) as [[t2 y']|] eqn:E2;
        unfold pairReport, reportAt, nodeOf; cbn; try done; [|by destruct k].
      by rewrite <-(childAs_type _ _ _ _ _ _ _ _ Hpe E1 E2).
    + rewrite (childAs_other x y kx ky pe), (childAs_other y x ky kx pe) by done.
      destruct (childAs_apart x y kx ky pe) as [-> | ->]; try done;
        [destruct (childAs sc ky y pe) as [[t y']|]|destruct (childAs sc kx x pe) as [[t x']|]];
        unfold pairReport, reportAt, nodeOf; cbn; rewrite ?orb_false_r; try done; by destruct k.
Qed.
End Kinds.

Section Handler.
Context (r : Regime) (sc : Schema) (lhs rhs : option value).

Abbreviation operand := (operand_conforms r sc false).

Hypothesis Hrec : forall tr lo ro, sub_of lhs lo -> sub_of rhs ro -> lo <> None \/ ro <> None ->
  operand tr lo -> operand tr ro -> reports r sc tr lo ro.

Lemma cmp_doLeaf_report path c :
  Forall (pe_dom r) path -> comparison_ok r c ->
  exists c', cmp_doLeaf lhs rhs path (false, c) = (true, c') /\
    adds_report r path c c' (fun k q => match q with [] => leafReport lhs rhs k | _ => false end).
Proof.
  intros Hp Hc. simpl. eexists. split; [done|].
  pose proof (fun k => adds_report_here r k path c Hc Hp) as Hh.
  pose proof (adds_report_nothing r path c Hc) as Hn.
  destruct lhs as [l|], rhs as [y|]; [destruct (Equals y l) eqn:E; simpl|..];
    [eapply adds_report_same; [|exact Hn]|eapply adds_report_same; [|exact (Hh PModified)]
    |eapply adds_report_same; [|exact (Hh PRemoved)]|eapply adds_report_same; [|exact (Hh PAdded)]..];
    intros [] [|]; simpl; rewrite ?E; done.
Qed.

(** What a leaf has no parts of. *)
Lemma leafFor_childOf h x :
  leafFor h lhs rhs = true -> childOf sc h lhs x = None /\ childOf sc h rhs x = None.
Proof.
  destruct h as [t|t|t]; [by destruct lhs, rhs|cbn [leafFor]..].
  - destruct (string_eqb (l_ER t) Atomic) eqn:Hat; cbn [orb].
    { intros _. split; [destruct lhs as [[]|]|destruct rhs as [[]|]]; try done; simpl; by rewrite Hat. }
    rewrite !childOf_list by done.
    intros [H1%Nat.eqb_eq H2%Nat.eqb_eq]%andb_true_iff. by destruct (derefList lhs) as [[]|], (derefList rhs) as [[]|].
  - destruct (string_eqb (m_ER t) Atomic) eqn:Hat; cbn [orb].
    { intros _. split; [destruct lhs as [[]|]|destruct rhs as [[]|]]; try done; simpl; by rewrite Hat. }
    rewrite !childOf_map by done.
    intros [H1 H2]%andb_true_iff. by destruct (derefMap lhs) as [[]|], (derefMap rhs) as [[]|].
Qed.

(** Whatever the kind, a leaf is reported as one. *)
Lemma leaf_report h path c :
  leafFor h lhs rhs = true -> Forall (pe_dom r) path -> comparison_ok r c ->
  exists c', cmp_doLeaf lhs rhs path (false, c) = (true, c') /\ adds_report r path c c' (handlerReport sc h lhs rhs).
Proof.
  intros Hl Hp Hc. destruct (cmp_doLeaf_report path c Hp Hc) as (c' & E & A). exists c'. split; [done|].
  eapply adds_report_same; [|exact A]. intros k [|x q] _; simpl; [by rewrite Hl|].
  by destruct (leafFor_childOf h x Hl) as [-> ->].
Qed.

(** What is found in a list or a map is below it. *)
Lemma found_item t o pe : sub_of o (slice_find (itemPE sc t) pe (default [] (derefList o))).
Proof.
  destruct (slice_find _ pe _) as [c|] eqn:E; [|done]. apply slice_find_Some in E as [Hc _].
  destruct (derefList o) as [l|] eqn:El; [by eapply sub_of_list|by apply not_elem_of_nil in Hc].
Qed.

Lemma found_field o k : sub_of o (map_Get (derefMap o) k).
Proof.
  destruct (map_Get _ k) as [c|] eqn:E; [|done]. destruct (derefMap o) as [m|] eqn:Em; [|done].
  eapply sub_of_map; [done|]. by apply assoc_get_Some.
Qed.

Section Alternative.
Context (tr : TypeRef) (a : Atom).
Hypothesis Ea : Resolve sc tr = Some a.

Lemma found_item_operand o w t pe :
  operand tr o -> kind_of a w = Some (KList t) -> string_eqb (l_ER t) Atomic = false ->
  operand (l_ElementType t) (slice_find (itemPE sc t) pe (default [] (derefList o))).
Proof.
  intros Ho Hk Hat. destruct (list_operand r sc tr a Ea false o w t Ho Hk Hat) as [F _].
  destruct (slice_find _ pe _) as [c|] eqn:E; [|done]. apply slice_find_Some in E as [Hc _].
  rewrite Forall_forall in F. by apply F.
Qed.

Lemma found_field_operand o w t k :
  operand tr o -> kind_of a w = Some (KMap t) -> string_eqb (m_ER t) Atomic = false ->
  operand (mapFieldType t k) (map_Get (derefMap o) k).
Proof.
  intros Ho Hk Hat. destruct (map_operand r sc tr a Ea false o w t Ho Hk Hat) as [_ F].
  rewrite map_Get_default. destruct (assoc_get k _) as [c|] eqn:E; [|done]. apply assoc_get_Some in E.
  rewrite Forall_forall in F. by apply (F (k, c)).
Qed.

Hypothesis Hlhs : operand tr lhs.
Hypothesis Hrhs : operand tr rhs.

Lemma items_fit_operand o w t :
  operand tr o -> kind_of a w = Some (KList t) -> string_eqb (l_ER t) Atomic = false ->
  items_fit r sc t (default [] (derefList o)).
Proof.
  intros Ho Hk Hat. destruct (list_operand r sc tr a Ea false o w t Ho Hk Hat) as [F D].
  split; [|by apply D]. eapply Forall_impl; [exact F|]. by intros ? [].
Qed.

Lemma scalar_validates w t :
  (lhs = Some w \/ rhs = Some w) -> kind_of a w = Some (KScalar t) ->
  ((0 <? length (validateScalar t lhs LHS)) && (0 <? length (validateScalar t rhs RHS)))%nat = false.
Proof.
  intros Hw Hk. assert (Hs : scalar_ok t w).
  { destruct Hw as [Ew|Ew]; [destruct (Hlhs w Ew) as (_ & Hc & _)|destruct (Hrhs w Ew) as (_ & Hc & _)];
      apply (conforms_kind _ _ _ _ _ Ea) in Hc; by rewrite Hk in Hc. }
  destruct Hw as [-> | ->]; [rewrite (proj2 (validateScalar_ok t w LHS) Hs)|rewrite (proj2 (validateScalar_ok t w RHS) Hs)];
    [done|by rewrite andb_false_r].
Qed.

Lemma cmp_handler_report w h path c :
  (lhs = Some w \/ rhs = Some w) -> kind_of a w = Some h -> Forall (pe_dom r) path -> comparison_ok r c ->
  exists c', handleAtom (deduceAtom a (Some w)) tr (cmp_handler sc (compare sc) lhs rhs path) (false, c) =
      Ret ([], (leafFor h lhs rhs, c')) /\
    adds_report r path c c' (handlerReport sc h lhs rhs).
Proof.
  intros Hw Hk Hp Hc. rewrite handleAtom_kind, Hk. pose proof (leaf_report h path c) as Hleaf.
  destruct (leafFor h lhs rhs) eqn:Hl.
  { destruct (Hleaf eq_refl Hp Hc) as (c' & E & A). exists c'. split; [|done].
    destruct h as [t|t|t]; cbn [doScalar doList doMap cmp_handler leafFor] in Hl |- *.
    - unfold cmp_doScalar. cbv zeta. rewrite (scalar_validates w t Hw Hk). by rewrite E.
    - unfold cmp_doList. cbv zeta. by rewrite Hl, E.
    - unfold cmp_doMap. cbv zeta. by rewrite Hl, E. }
  clear Hleaf. destruct h as [t|t|t]; [done|..]; cbn [doList doMap cmp_handler leafFor] in Hl |- *.
  - unfold cmp_doList. cbv zeta. rewrite Hl. apply orb_false_iff in Hl as [Hat Hlen].
    destruct (cmp_visitListItems_report r sc t lhs rhs Hat (items_fit_operand lhs w t Hlhs Hk Hat)
      (items_fit_operand rhs w t Hrhs Hk Hat)) with (path := path) (c := c) as (c' & E & A); [|done..|].
    { intros pe lo ro Hne. apply Hrec; [apply found_item..|done|by eapply found_item_operand|by eapply found_item_operand]. }
    exists c'. cbn [fst snd]. rewrite E. split.
    + by destruct (derefList lhs), (derefList rhs).
    + eapply adds_report_same; [|exact A]. intros k [|x q] _; simpl; [by rewrite Hat, Hlen|done].
  - unfold cmp_doMap. cbv zeta. rewrite Hl. apply orb_false_iff in Hl as [Hat Hlen].
    destruct (cmp_visitMapItems_report r sc t lhs rhs Hat (proj1 (map_operand r sc tr a Ea false lhs w t Hlhs Hk Hat))
      (proj1 (map_operand r sc tr a Ea false rhs w t Hrhs Hk Hat))) with (path := path) (c := c) as (c' & E & A); [|done..|].
    { intros k lo ro Hne. apply Hrec; [apply found_field..|done|by eapply found_field_operand|by eapply found_field_operand]. }
    exists c'. cbn [fst snd]. rewrite E. split.
    + by destruct (derefMap lhs), (derefMap rhs).
    + eapply adds_report_same; [|exact A]. intros k [|x q] _; simpl; [by rewrite Hat, Hlen|done].
Qed.
End Alternative.
End Handler.

(** ** Refinement *)

Section Body.
Context (r : Regime) (sc : Schema) (tr : TypeRef) (a : Atom).
Hypothesis Ea : Resolve sc tr = Some a.

(** What the handler of the only value reports, with the node itself when it is not a leaf. *)
Lemma alone_report x kx (side : bool) :
  kind_of a x = Some kx ->
  let lo := if side then Some x else None in let ro := if side then None else Some x in
  same_report r
    (both (handlerReport sc kx lo ro)
      (if leafFor kx lo ro then nothing else here (if side then PRemoved else PAdded)))
    (reportAt sc tr lo ro).
Proof.
  intros Hx lo ro k q Hq. unfold both, reportAt, nodeOf. destruct q as [|pe q].
  - destruct (leafFor kx lo ro) eqn:E; unfold handlerReport; rewrite E; subst lo ro; by destruct side, k.
  - assert (En : (if leafFor kx lo ro then nothing else here (if side then PRemoved else PAdded)) k (pe :: q) = false).
    { destruct (leafFor _ _ _), side; by destruct k. }
    rewrite En, orb_false_r. subst lo ro. destruct side; cbn [handlerReport childOf nodeAt mbind option_bind];
      unfold childAt; rewrite (kindAt_atom sc tr a Ea), Hx; cbn [mbind option_bind];
      destruct (childAs sc kx x pe) as [[t x']|]; unfold pairReport, reportAt, nodeOf; cbn; try done; by destruct k.
Qed.

Lemma finish_alone path b c0 c x (side : bool) f :
  let lo := if side then Some x else None in let ro := if side then None else Some x in
  Forall (pe_dom r) path -> adds_report r path c0 c f ->
  adds_report r path c0 (cmp_finish lo ro path (b, c))
    (both f (if b then nothing else here (if side then PRemoved else PAdded))).
Proof.
  intros lo ro Hp A. eapply adds_report_both; [exact A|]. destruct A as [Hc _]. subst lo ro.
  destruct b; simpl; [by apply adds_report_nothing|]. destruct side.
  - by apply (adds_report_here r PRemoved).
  - by apply (adds_report_here r PAdded).
Qed.
End Body.

Section Refinement.
Context (r : Regime) (sc : Schema).

Abbreviation operand := (operand_conforms r sc false).

Lemma operand_alternative tr a x :
  Resolve sc tr = Some a -> operand tr (Some x) -> exists k, kind_of a x = Some k.
Proof.
  intros Ea Hx. by apply (operand_kind r sc tr a Ea false (Some x) x Hx).
Qed.

Lemma WithLazyPrefix_none pf : WithLazyPrefix pf [] = [].
Proof. by destruct pf. Qed.

Lemma compare_body_alone tr a lhs rhs x (side : bool) :
  Resolve sc tr = Some a -> lhs = (if side then Some x else None) -> rhs = (if side then None else Some x) ->
  (forall tr lo ro, sub_of lhs lo -> sub_of rhs ro -> lo <> None \/ ro <> None ->
    operand tr lo -> operand tr ro -> reports r sc tr lo ro) ->
  operand tr (Some x) -> reports r sc tr lhs rhs.
Proof.
  intros Ea El Er Hrec Hx path pf c Hp Hc. destruct (operand_alternative tr a x Ea Hx) as [k Ek].
  destruct (cmp_handler_report r sc lhs rhs Hrec tr a Ea) with (w := x) (h := k) (path := path) (c := c)
    as (c' & E & A); [by subst; destruct side|by subst; destruct side|subst; destruct side; auto|done..|].
  exists (cmp_finish lhs rhs path (leafFor k lhs rhs, c')). rewrite compare_unfold. unfold cmp_body. split.
  - clear A Hrec. subst. destruct side; cbv zeta; rewrite Ea, E; cbn [mbind Outcome_bind fst snd]; by rewrite WithLazyPrefix_none.
  - subst. eapply adds_report_same; [by apply (alone_report r sc tr a Ea x k side)|]. by apply finish_alone.
Qed.

Lemma compare_body_both tr a x y :
  Resolve sc tr = Some a ->
  (forall tr lo ro, sub_of (Some x) lo -> sub_of (Some y) ro -> lo <> None \/ ro <> None ->
    operand tr lo -> operand tr ro -> reports r sc tr lo ro) ->
  operand tr (Some x) -> operand tr (Some y) -> reports r sc tr (Some x) (Some y).
Proof.
  intros Ea Hrec Hx Hy path pf c Hp Hc.
  destruct (operand_alternative tr a x Ea Hx) as [kx Ekx], (operand_alternative tr a y Ea Hy) as [ky Eky].
  pose proof (cmp_handler_report r sc (Some x) (Some y) Hrec tr a Ea Hx Hy) as Hh.
  pose proof (handlers_report r sc tr a Ea x y kx ky Hx Hy Ekx Eky) as Hsame.
  setoid_rewrite compare_unfold. unfold cmp_body. rewrite Ea. cbv zeta.
  destruct (Atom_Equals (deduceAtom a (Some x)) (deduceAtom a (Some y))) eqn:EA.
  - apply Atom_Equals_kind in EA. rewrite Ekx, Eky in EA. injection EA as <-.
    destruct (Hh y kx path c) as (c' & E & A); [by right|done..|]. exists c'. rewrite E.
    cbn [mbind Outcome_bind fst snd cmp_finish]. rewrite WithLazyPrefix_none. split; [by destruct (leafFor _ _ _)|].
    eapply adds_report_same; [exact Hsame|]. eapply adds_report_same; [|exact A].
    intros k q _. unfold both. by rewrite orb_diag.
  - destruct (Hh x kx path c) as (c1 & E1 & A1); [by left|done..|].
    destruct (Hh y ky path c1) as (c2 & E2 & A2); [by right|done..|by apply A1|]. exists c2. rewrite E1.
    cbn [mbind Outcome_bind fst snd]. rewrite E2. cbn [mbind Outcome_bind fst snd cmp_finish app].
    rewrite WithLazyPrefix_none. split; [by destruct (leafFor ky _ _)|].
    eapply adds_report_same; [exact Hsame|]. by eapply adds_report_both.
Qed.

Lemma compare_refines tr lhs rhs :
  operand tr lhs -> operand tr rhs -> lhs <> None \/ rhs <> None -> reports r sc tr lhs rhs.
Proof.
  assert (Hn : exists n, (oheight lhs < n /\ oheight rhs < n)%nat) by (exists (S (oheight lhs + oheight rhs)); lia).
  destruct Hn as [n Hn]. revert tr lhs rhs Hn. induction n as [|n IH]; intros tr lhs rhs [H1 H2] Hl Hr Hne; [lia|].
  assert (Hrec : forall tr lo ro, sub_of lhs lo -> sub_of rhs ro -> lo <> None \/ ro <> None ->
    operand tr lo -> operand tr ro -> reports r sc tr lo ro).
  { intros tr' lo ro Sl%sub_of_height Sr%sub_of_height Hne' Ol Or. apply IH; [|done..].
    assert (0 < oheight lhs \/ 0 < oheight rhs)%nat by (destruct lhs, rhs; simpl; [lia..|by destruct Hne]).
    lia. }
  assert (HR : forall x, operand tr (Some x) -> exists a, Resolve sc tr = Some a).
  { intros x Hx. destruct (Hx x eq_refl) as (_ & Hc & _). by eapply conforms_Resolve. }
  destruct lhs as [x|], rhs as [y|].
  - destruct (HR x Hl) as [a Ea]. by apply (compare_body_both tr a).
  - destruct (HR x Hl) as [a Ea]. by apply (compare_body_alone tr a _ _ x true).
  - destruct (HR y Hr) as [a Ea]. by apply (compare_body_alone tr a _ _ y false).
  - by destruct Hne.
Qed.

(** The comparison from the root, member by member. *)
Lemma compare_members tr lhs rhs :
  operand tr lhs -> operand tr rhs -> lhs <> None \/ rhs <> None ->
  exists c, compare sc tr lhs rhs [] false None (mkComparison (NewSet []) (NewSet []) (NewSet [])) = Ret ([], c) /\
    comparison_ok r c /\
    forall k p, Forall (pe_dom r) p -> p <> [] -> Set_Has (part k c) p = reportAt sc tr lhs rhs k p.
Proof.
  intros Hl Hr Hne. destruct (compare_refines tr lhs rhs Hl Hr Hne [] None
    (mkComparison (NewSet []) (NewSet []) (NewSet []))) as (c & E & Hok & H); [constructor|done|].
  exists c. split_and!; [done..|]. intros k p Hp Hp'. rewrite H by done.
  assert (En : Set_Has (part k (mkComparison (NewSet []) (NewSet []) (NewSet []))) p = false).
  { destruct k; by apply Set_Empty_Has. }
  by rewrite En.
Qed.
End Refinement.
