(* ===== verification/SerializeSpec.v ===== *)
(** * Package fieldpath: reading what was written

    What the code relies on in the JSON library ([JsonLaws]), and the round trips:
    a path element or set that is written and read again is equal to the original
    by [Equals] (numbers come back as float64).  Whatever text is read, the set is
    well-formed. *)
From S2P Require Import Prelude GoLib GoFloat Value ValueOrder PathElement SortedSlice FieldSet FieldSetSpec.
From S2P Require Import FieldSetOps FieldSetInsert FieldSetIter CompareSpec Serialize.
From Stdlib Require Import Ascii DecimalString Decimal DecimalZ.

(** ** Valid UTF-8 *)

(** A continuation byte. *)
Definition utf8_cont (lo hi : N) (c : ascii) : bool := (lo <=? N_of_ascii c)%N && (N_of_ascii c <=? hi)%N.

(** The encoding of Unicode scalar values: no overlong forms, no surrogates. *)
Fixpoint utf8_valid (s : string) : bool :=
  match s with
  | EmptyString => true
  | String c s1 =>
    let n := N_of_ascii c in
    if (n <=? 0x7f)%N then utf8_valid s1
    else
      match s1 with
      | EmptyString => false
      | String c1 s2 =>
        if utf8_cont 0xc2 0xdf c then utf8_cont 0x80 0xbf c1 && utf8_valid s2
        else
          match s2 with
          | EmptyString => false
          | String c2 s3 =>
            let lo := if (n =? 0xe0)%N then 0xa0%N else 0x80%N in
            let hi := if (n =? 0xed)%N then 0x9f%N else 0xbf%N in
            if utf8_cont 0xe0 0xef c then utf8_cont lo hi c1 && utf8_cont 0x80 0xbf c2 && utf8_valid s3
            else
              match s3 with
              | EmptyString => false
              | String c3 s4 =>
                let lo := if (n =? 0xf0)%N then 0x90%N else 0x80%N in
                let hi := if (n =? 0xf4)%N then 0x8f%N else 0xbf%N in
                utf8_cont 0xf0 0xf4 c && utf8_cont lo hi c1 && utf8_cont 0x80 0xbf c2 &&
                utf8_cont 0x80 0xbf c3 && utf8_valid s4
              end
          end
      end
  end.

(** ** What the library is relied on for *)

(** Values that JSON represents: strings are text, numbers are finite and within
    what float64 holds exactly. *)
Fixpoint writable (v : value) : bool :=
  match v with
  | VNull | VBool _ => true
  | VInt _ _ => IsInt v && int_is_exact (AsInt v)
  | VFloat32 _ => false
  | VFloat64 f => match f with S754_zero _ | S754_finite _ _ _ => true | _ => false end
  | VString s => utf8_valid s
  | VList l => forallb writable l
  | VMap m => bool_decide (NoDup (assoc_keys m)) && forallb (fun kv => utf8_valid kv.1 && writable kv.2) m
  end.

Fixpoint doc_writable (d : jdoc) : bool :=
  match d with
  | DVal v => writable v
  | DObj fields =>
    (fix go (fs : list (string * jdoc)) : bool :=
      match fs with [] => true | (k, d') :: fs' => utf8_valid k && doc_writable d' && go fs' end) fields
  end.

(** The calls that write a document. *)
#[warnings="-register-all"]
Inductive calls : jdoc -> list jevent -> Prop :=
| calls_val v : calls (DVal v) [WriteVal v]
| calls_empty : calls (DObj []) [WriteEmptyObject]
| calls_object fields es :
  field_calls true fields es -> calls (DObj fields) (WriteObjectStart :: es ++ [WriteObjectEnd])
with field_calls : bool -> list (string * jdoc) -> list jevent -> Prop :=
| field_calls_nil first : field_calls first [] []
| field_calls_cons first k d es fields es' :
  calls d es -> field_calls false fields es' ->
  field_calls first ((k, d) :: fields) ((if first then [] else [WriteMore]) ++ WriteObjectField k :: es ++ es').

(** The document read has the fields of the one written, and equal values. *)
#[warnings="-register-all"]
Inductive delivers : jdoc -> jdoc -> Prop :=
| delivers_val v d : Equals v (iter_Read d) = true -> delivers (DVal v) d
| delivers_object fields fields' :
  Forall2 (fun e e' => e.1 = e'.1 /\ delivers e.2 e'.2) fields fields' -> delivers (DObj fields) (DObj fields').

(** Every value in the document is comparable: numbers are read as float64. *)
Fixpoint doc_ok (d : jdoc) : bool :=
  match d with
  | DVal v => value_ok ExactInts v
  | DObj fields =>
    (fix go (fs : list (string * jdoc)) : bool :=
      match fs with [] => true | (_, d') :: fs' => doc_ok d' && go fs' end) fields
  end.

Class JsonLaws `{JsonLib} : Prop := {
  render_read d es : calls d es -> doc_writable d = true ->
    exists text d', render es = Some text /\ utf8_valid text = true /\ read text = Some d' /\ delivers d d';
  read_ok text d : read text = Some d -> doc_ok d = true;
}.

(** ** Documents *)

Section JdocInd.
Context (P : jdoc -> Prop).
Hypothesis (Hval : forall v, P (DVal v)) (Hobj : forall fs, Forall (fun e => P e.2) fs -> P (DObj fs)).

Fixpoint jdoc_nested_ind (d : jdoc) : P d :=
  match d with
  | DVal v => Hval v
  | DObj fs => Hobj fs
      ((fix go (fs : list (string * jdoc)) := match fs return Forall (fun e => P e.2) fs with
        | [] => List.Forall_nil _
        | e :: fs' => List.Forall_cons _ _ _ (jdoc_nested_ind e.2) (go fs')
        end) fs)
  end.
End JdocInd.

Lemma doc_writable_obj fs :
  doc_writable (DObj fs) = true <-> Forall (fun e => utf8_valid e.1 = true /\ doc_writable e.2 = true) fs.
Proof.
  induction fs as [|[k d] fs IH]; [done|]. simpl in *. rewrite !andb_true_iff, Forall_cons, IH. simpl. tauto.
Qed.

Lemma doc_ok_obj fs : doc_ok (DObj fs) = true <-> Forall (fun e => doc_ok e.2 = true) fs.
Proof. induction fs as [|[k d] fs IH]; [done|]. simpl in *. by rewrite !andb_true_iff, Forall_cons, IH. Qed.

Lemma iter_Read_ok d : doc_ok d = true -> value_ok ExactInts (iter_Read d) = true.
Proof.
  induction d as [v|fs IH] using jdoc_nested_ind; [done|]. rewrite doc_ok_obj. intros F. cbn [iter_Read].
  assert (H0 : value_ok ExactInts (VMap []) = true) by done. revert H0. generalize (@nil (string * value)) as m.
  induction fs as [|[k d] fs IHfs]; intros m Hm; [done|].
  apply Forall_cons in IH as [Hd IH], F as [Fd F]. apply IHfs; auto. apply map_set_ok; auto.
Qed.

(** ** Numbers in keys *)

Lemma string_of_uint_head d : d <> Nil -> exists c s, NilZero.string_of_uint d = String c s /\ c <> "+"%char /\ c <> "-"%char.
Proof. destruct d; intros Hd; try done; simpl; eexists _, _; (split; [reflexivity|]); done. Qed.

Lemma to_uint_not_nil i : match Z.to_int i with Pos d | Neg d => d <> Nil end.
Proof.
  destruct i as [|p|p]; simpl; [done|..]; intros E; apply (f_equal Pos.of_uint) in E;
    rewrite DecimalPos.Unsigned.of_to in E; done.
Qed.

Lemma Atoi_itoa i : min_int <= i <= max_int -> Atoi (itoa i) = Some i.
Proof.
  intros Hi. unfold itoa, Atoi.
  assert (Hr : (min_int <=? i) && (i <=? max_int) = true) by (rewrite andb_true_iff, !Z.leb_le; lia).
  pose proof (DecimalZ.of_to i) as E. pose proof (to_uint_not_nil i) as Hn.
  destruct (Z.to_int i) as [d|d]; cbn [NilZero.string_of_int]; simpl in E.
  - destruct (string_of_uint_head d Hn) as (c & s & Es & Hp & Hm).
    pose proof (NilZero.usu d Hn) as Hu. rewrite Es in *.
    rewrite Hu. cbn [fmap option_fmap option_map].
    destruct c as [[] [] [] [] [] [] [] []]; try done; by rewrite E, Hr.
  - rewrite (NilZero.usu d Hn). cbn [fmap option_fmap option_map compose]. by rewrite E, Hr.
Qed.

Lemma itoa_utf8 i : utf8_valid (itoa i) = true.
Proof.
  assert (H : forall d, utf8_valid (NilEmpty.string_of_uint d) = true) by (induction d; done).
  assert (H' : forall d, utf8_valid (NilZero.string_of_uint d) = true) by (intros []; try apply H; done).
  unfold itoa. destruct (Z.to_int i); [apply H'|]. apply H'.
Qed.

(** ** Keys *)

(** The fields are in the order [Sort] gives them. *)
Fixpoint names_sorted (names : list string) : bool :=
  match names with
  | [] => true
  | n :: names' => forallb (fun n' => negb (string_ltb n' n)) names' && names_sorted names'
  end.

Lemma FieldList_Sort_sorted fs : names_sorted (Name <$> fs) = true -> FieldList_Sort fs = fs.
Proof.
  intros Hs. assert (H : sort_stable (fun a b => string_ltb (Name a) (Name b)) fs = fs).
  { induction fs as [|f fs IH]; [done|]. cbn [fmap list_fmap names_sorted] in Hs. apply andb_true_iff in Hs as [Hf Hs].
    cbn [sort_stable foldr]. fold (sort_stable (fun a b => string_ltb (Name a) (Name b)) fs). rewrite (IH Hs).
    destruct fs as [|g fs]; [done|]. simpl in *. apply andb_true_iff in Hf as [Hg _]. apply negb_true_iff in Hg.
    by rewrite Hg. }
  by destruct fs as [|f [|g [|h fs]]].
Qed.

(** ** Path elements *)

Definition pe_writable (pe : PathElement) : bool :=
  match FieldName pe, Key pe, PEValue pe, Index pe with
  | Some name, None, None, None => utf8_valid name
  | None, Some k, None, None =>
    names_sorted (Name <$> k) && forallb (fun f => utf8_valid (Name f) && writable (FieldValue f)) k
  | None, None, Some v, None => writable v
  | None, None, None, Some i => (min_int <=? i) && (i <=? max_int)
  | _, _, _, _ => false
  end.

Lemma writable_ok v : writable v = true -> value_ok ExactInts v = true.
Proof.
  induction v as [|b|k i|f|f|s|l IH|m IH] using value_rect_nested; try done.
  - simpl. intros [_ ->]%andb_true_iff. apply orb_true_r.
  - simpl. by destruct f.
  - cbn [writable value_ok]. rewrite !forallb_Forall. intros F. rewrite Forall_forall in *. auto.
  - cbn [writable value_ok]. rewrite !andb_true_iff, !forallb_Forall. intros [N F]. split; [done|].
    rewrite Forall_forall in *. intros kv Hkv. apply IH; [done|]. specialize (F kv Hkv). by apply andb_true_iff in F as [].
Qed.

Lemma pe_writable_dom pe : pe_writable pe = true -> pe_dom ExactInts pe.
Proof.
  destruct pe as [[n|] [k|] [v|] [i|]]; try done; unfold pe_writable, pe_dom, pe_ok, pe_single; simpl; intros Hw.
  - rewrite andb_true_r. apply andb_true_iff in Hw as [_ F]. unfold fieldlist_ok. rewrite forallb_Forall in *.
    eapply Forall_impl; [exact F|]. intros f [_ Hf]%andb_true_iff. by apply writable_ok.
  - by apply writable_ok.
Qed.

Definition key_doc (k : FieldList) : list (string * jdoc) := (fun f => (Name f, DVal (FieldValue f))) <$> k.

Lemma keyEvents_calls first k : field_calls first (key_doc k) (keyEvents first k).
Proof.
  revert first. induction k as [|f k IH]; intros first; [constructor|]. unfold key_doc. rewrite fmap_cons.
  apply (field_calls_cons first (Name f) (DVal (FieldValue f)) [WriteVal (FieldValue f)]); [constructor|apply IH].
Qed.

Section PathElements.
Context `{JsonLaws}.

(** A written path element is read as an equal one. *)
Lemma path_element_json pe : pe_writable pe = true ->
  exists s pe', SerializePathElement pe = inr s /\ utf8_valid s = true /\ string_eqb s "." = false /\
    DeserializePathElement s = inr pe' /\ PathElement_Equals pe pe' = true /\ pe_dom ExactInts pe'.
Proof.
  destruct pe as [[n|] [k|] [v|] [i|]]; try done; unfold pe_writable; simpl; intros Hw.
  - exists ("f:" ++ n)%string, (peField n). split_and!; try done. by apply string_eqb_refl.
  - apply andb_true_iff in Hw as [Hs Hk]. rewrite forallb_Forall in Hk. cbn [SerializePathElement FieldName Key].
    destruct (render_read (DObj (key_doc k)) (WriteObjectStart :: keyEvents true k ++ [WriteObjectEnd]))
      as (text & d' & Er & Hu & Hr & Hd).
    { constructor. apply keyEvents_calls. }
    { apply doc_writable_obj. unfold key_doc. rewrite Forall_fmap. eapply Forall_impl; [exact Hk|].
      intros f Hf. by apply andb_true_iff in Hf. }
    inversion Hd as [|? fs' F2]; subst. pose proof (read_ok _ _ Hr) as Hok. rewrite doc_ok_obj in Hok.
    set (k' := (fun f : string * jdoc => mkField f.1 (iter_Read f.2)) <$> fs').
    assert (HF : Forall2 (fun f f' => Name f = Name f' /\ Equals (FieldValue f) (FieldValue f') = true) k k').
    { unfold k'. apply Forall2_fmap_r. unfold key_doc in F2. apply Forall2_fmap_l in F2.
      eapply Forall2_impl; [exact F2|]. intros f e [En He]. simpl in *. split; [done|]. by inversion He; subst. }
    assert (Hn : Name <$> k' = Name <$> k).
    { clear -HF. induction HF as [|f f' k k' [E _] HF IH]; [done|]. by rewrite !fmap_cons, IH, E. }
    exists ("k:" ++ text)%string, (peKey k'). split_and!; try done.
    + unfold SerializePathElement, flush. simpl. by rewrite Er.
    + change (DeserializePathElement _) with (match readKey text with inl err => inl err | inr fields => inr (peKey (FieldList_Sort fields)) end). unfold readKey. rewrite Hr. fold k'. by rewrite FieldList_Sort_sorted by by rewrite Hn.
    + unfold PathElement_Equals, FieldList_Equals. simpl. rewrite (Forall2_length _ _ _ HF), Nat.eqb_refl. simpl.
      clear -HF. induction HF as [|f f' k k' [E1 E2] HF IH]; [done|]. simpl. rewrite E1, string_eqb_refl, E2. done.
    + unfold pe_dom, pe_ok, fieldlist_ok. simpl. rewrite andb_true_r. unfold k'. rewrite forallb_Forall, Forall_fmap.
      eapply Forall_impl; [exact Hok|]. intros e He. by apply iter_Read_ok.
  - destruct (render_read (DVal v) [WriteVal v] ltac:(constructor) Hw) as (text & d' & Er & Hu & Hr & Hd).
    pose proof (read_ok _ _ Hr) as Hok. exists ("v:" ++ text)%string, (peValue (iter_Read d')). split_and!; try done.
    + unfold SerializePathElement, flush. simpl. by rewrite Er.
    + change (DeserializePathElement _) with (match ReadJSONIter text with inl err => inl err | inr v => inr (peValue v) end). unfold ReadJSONIter. by rewrite Hr.
    + by inversion Hd; subst.
    + unfold pe_dom, pe_ok. simpl. by apply iter_Read_ok.
  - apply andb_true_iff in Hw as [H1 H2]. apply Z.leb_le in H1, H2. exists ("i:" ++ itoa i)%string, (peIndex i).
    split_and!; try done.
    + apply itoa_utf8.
    + change (DeserializePathElement _) with (match Atoi (itoa i) with Some i => inr (peIndex i) | None => inl ErrAtoi end). by rewrite Atoi_itoa.
    + unfold PathElement_Equals. simpl. by apply Z.eqb_refl.
Qed.
End PathElements.

(** ** Sets *)

(** The path element read for a written one. *)
Definition pe_same (pe pe' : PathElement) : Prop :=
  pe_dom ExactInts pe /\ pe_dom ExactInts pe' /\ PathElement_Equals pe pe' = true.

#[warnings="-register-all"]
Inductive set_same : FSet -> FSet -> Prop :=
| set_same_mk m c m' c' :
  Forall2 pe_same m m' -> Forall2 (fun n n' => pe_same n.1 n'.1 /\ set_same n.2 n'.2) c c' ->
  set_same (mkSet m c) (mkSet m' c').

(** Every path element of the set is writable. *)
Fixpoint Set_writable (s : FSet) : bool :=
  let (m, c) := s in forallb pe_writable m && forallb (fun n => pe_writable n.1 && Set_writable n.2) c.

Lemma pe_same_Less a a' b b' : pe_same a a' -> pe_same b b' -> PathElement_Less a b = PathElement_Less a' b'.
Proof.
  intros (Da & Da' & Ea) (Db & Db' & Eb). unfold PathElement_Less.
  rewrite (pe_Equals_l ExactInts a a' b) by done.
  rewrite (cmp_antisym PathElement_Compare (pe_dom ExactInts) b a') by done.
  rewrite (pe_Equals_l ExactInts b b' a') by done.
  by rewrite (cmp_antisym PathElement_Compare (pe_dom ExactInts) b' a') by done.
Qed.

Lemma pe_same_trans a b c : pe_dom ExactInts a -> PathElement_Equals a b = true -> pe_same b c -> pe_same a c.
Proof.
  intros Da E (Db & Dc & E2). split_and!; try done. by rewrite (pe_Equals_trans_l ExactInts a b c).
Qed.

Lemma slice_same {A} (key : A -> PathElement) l l' :
  slice_ok key ExactInts l = true -> Forall2 (fun a a' => pe_same (key a) (key a')) l l' -> slice_ok key ExactInts l' = true.
Proof.
  intros Hok F. induction F as [|a a' l l' Ha F IH]; [done|]. apply slice_ok_cons in Hok as (Da & FL & Hok).
  apply slice_ok_cons. split_and!; [apply Ha| |by apply IH]. clear IH Hok. induction F as [|b b' l l' Hb F IH]; [constructor|].
  apply Forall_cons in FL as [Hab FL]. constructor; [by rewrite <-(pe_same_Less (key a) (key a') (key b) (key b'))|auto].
Qed.

Lemma set_same_Equals s s' : set_same s s' -> Set_Equals s s' = true.
Proof.
  revert s'. induction s as [m c IH] using FSet_nested_ind. intros s' Hs. inversion Hs as [m0 c0 m' c' Fm Fc]; subst.
  cbn [Set_Equals Members Children]. apply andb_true_iff. split.
  - unfold PathElementSet_Equals. rewrite (Forall2_length _ _ _ Fm), Nat.eqb_refl. cbn [negb].
    clear -Fm. induction Fm as [|a a' m m' (_ & _ & E) F IH]; [done|]. simpl. by rewrite E.
  - unfold SetNodeMap_Equals. rewrite (Forall2_length _ _ _ Fc), Nat.eqb_refl. cbn [negb].
    clear Hs Fm. induction Fc as [|n n' c c' [(_ & _ & E) Hn] F IHc]; [done|]. apply Forall_cons in IH as [IHn IH].
    simpl. rewrite E, IHn by done. by apply IHc.
Qed.

Lemma set_same_Empty s s' : set_same s s' -> Set_Empty s' = Set_Empty s.
Proof.
  revert s'. induction s as [m c IH] using FSet_nested_ind. intros s' Hs. inversion Hs as [m0 c0 m' c' Fm Fc]; subst.
  cbn [Set_Empty Members Children]. rewrite !SetNodeMap_Empty_forall.
  assert (E : forallb (fun n => Set_Empty n.2) c' = forallb (fun n => Set_Empty n.2) c).
  { clear Hs. induction Fc as [|n n' c c' [_ Hn] F IHc]; [done|]. apply Forall_cons in IH as [IHn IH].
    simpl. by rewrite (IHn _ Hn), IHc. }
  rewrite E. unfold PathElementSet_Size. by rewrite (Forall2_length _ _ _ Fm).
Qed.

Lemma set_same_ok s s' : Set_ok ExactInts s = true -> set_same s s' -> Set_ok ExactInts s' = true.
Proof.
  revert s'. induction s as [m c IH] using FSet_nested_ind. intros s' Hok Hs. inversion Hs as [m0 c0 m' c' Fm Fc]; subst.
  apply Set_ok_mk in Hok as (Hm & Hc & Fn). apply Set_ok_mk. split_and!.
  - by apply (slice_same id m m').
  - apply (slice_same fst c c'); [done|]. eapply Forall2_impl; [exact Fc|]. by intros n n' [].
  - clear Hs Hm Hc Fm. induction Fc as [|n n' c c' [_ Hn] F IHc]; [constructor|].
    apply Forall_cons in IH as [IHn IH], Fn as [[En Hon] Fn]. constructor; [|by apply IHc].
    split; [by rewrite (set_same_Empty _ _ Hn)|by apply IHn].
Qed.

(** ** Writing a set and reading it again *)

(** What reading adds to the state, when it appends. *)
Definition push (st : option FSet) (ms : PathElementSet) (cs : SetNodeMap) : option FSet :=
  match ms, cs with
  | [], [] => st
  | _, _ => let d := default emptySet st in Some (mkSet (Members d ++ ms) (Children d ++ cs))
  end.

Lemma push_app st m1 c1 m2 c2 : push (push st m1 c1) m2 c2 = push st (m1 ++ m2) (c1 ++ c2).
Proof.
  destruct m1 as [|a m1], c1 as [|b c1], m2 as [|a' m2], c2 as [|b' c2]; simpl;
    rewrite <-?app_assoc; simpl; rewrite ?app_nil_r; done.
Qed.

(** The members and children to come are after those read. *)
Definition before (x : option PathElement) (pe : PathElement) : Prop :=
  match x with None => True | Some x => pe_dom ExactInts x /\ PathElement_Less x pe = true end.

Definition ready (st : option FSet) (ms : PathElementSet) (cs : SetNodeMap) : Prop :=
  Forall (before (last (Members (default emptySet st)))) ms /\
  Forall (fun c => before (fst <$> last (Children (default emptySet st))) c.1) cs.

Definition node_same (n n' : PathElement * FSet) : Prop := pe_same n.1 n'.1 /\ set_same n.2 n'.2.

Lemma before_same x pe pe' : pe_same pe pe' -> before x pe -> before x pe'.
Proof.
  intros Hs. destruct x as [x|]; [|done]. intros [Dx L]. split; [done|].
  rewrite <-L. symmetry. apply pe_same_Less; [|done]. split_and!; [done..|by apply (pe_Equals_refl ExactInts)].
Qed.

(** A path element of a slice is before the following ones, also as it is read. *)
Lemma before_next pe pe' pe2 : pe_same pe pe' -> pe_dom ExactInts pe2 -> PathElement_Less pe pe2 = true -> before (Some pe') pe2.
Proof.
  intros Hs D2 L. split; [apply Hs|]. rewrite <-L. symmetry. apply pe_same_Less; [done|].
  split_and!; [done..|by apply (pe_Equals_refl ExactInts)].
Qed.

Lemma ready_push st m0 c0 m0' c0' ms cs :
  (m0 = [] \/ exists m, m0 = [m]) -> (c0 = [] \/ exists c, c0 = [c]) ->
  Forall2 pe_same m0 m0' -> Forall2 node_same c0 c0' ->
  pes_ok ExactInts (m0 ++ ms) = true -> slice_ok fst ExactInts (c0 ++ cs) = true ->
  ready st (m0 ++ ms) (c0 ++ cs) -> ready (push st m0' c0') ms cs.
Proof.
  intros Hm0 Hc0 Fm Fc Om Oc [Rm Rc]. apply Forall_app in Rm as [_ Rm], Rc as [_ Rc].
  assert (Hm : Forall (before (last (Members (default emptySet st) ++ m0'))) ms).
  { destruct Hm0 as [-> |[m ->]].
    - apply Forall2_nil_inv_l in Fm as ->. by rewrite app_nil_r.
    - apply Forall2_cons_inv_l in Fm as (m' & ? & Hs & ->%Forall2_nil_inv_l & ->). rewrite last_snoc.
      apply slice_ok_cons in Om as (_ & FL & Om). apply slice_ok_dom in Om. rewrite Forall_forall in FL, Om.
      apply Forall_forall. intros x Hx. apply (before_next m); [done|by apply Om|by apply FL]. }
  assert (Hc : Forall (fun c => before (fst <$> last (Children (default emptySet st) ++ c0')) c.1) cs).
  { destruct Hc0 as [-> |[c ->]].
    - apply Forall2_nil_inv_l in Fc as ->. by rewrite app_nil_r.
    - apply Forall2_cons_inv_l in Fc as (c' & ? & [Hs _] & ->%Forall2_nil_inv_l & ->). rewrite last_snoc. simpl.
      apply slice_ok_cons in Oc as (_ & FL & Oc). apply slice_ok_dom in Oc. rewrite Forall_forall in FL, Oc.
      apply Forall_forall. intros x Hx. apply (before_next c.1); [done|by apply Oc|by apply FL]. }
  unfold ready. destruct m0' as [|a m0'], c0' as [|b c0']; cbn [push default from_option id Members Children];
    rewrite ?app_nil_r in *; done.
Qed.

Section SetJson.
Context `{JsonLaws}.

Definition matches (fs fs' : list (string * jdoc)) : Prop :=
  Forall2 (fun e e' => e.1 = e'.1 /\ delivers e.2 e'.2) fs fs'.

(** An entry whose path element comes after the ones read is appended. *)
Lemma readEntry_push key pe g (memb : bool) st b :
  string_eqb key "." = false -> DeserializePathElement key = inr pe ->
  (memb = true -> before (last (Members (default emptySet st))) pe) ->
  (g <> None -> before (fst <$> last (Children (default emptySet st))) pe) ->
  readEntry key (inr (g, memb)) (st, b) =
    inr (push st (if memb then [pe] else []) (match g with Some g => [(pe, g)] | None => [] end), b).
Proof.
  intros Hdot Hpe Hm Hg. unfold readEntry. rewrite Hdot, Hpe. cbn [fst snd].
  assert (Em : memb = true -> readMember pe (default emptySet st) =
    mkSet (Members (default emptySet st) ++ [pe]) (Children (default emptySet st))).
  { intros E. specialize (Hm E). unfold readMember. destruct (last _); [|done]. destruct Hm as [_ L]. by rewrite L. }
  assert (Ec : forall s g', g = Some g' -> Children s = Children (default emptySet st) ->
    readChild pe g' s = mkSet (Members s) (Children s ++ [(pe, g')])).
  { intros s g' -> Es. unfold readChild. rewrite Es. specialize (Hg ltac:(done)).
    destruct (last (Children (default emptySet st))); [|done]. destruct Hg as [_ L]. by rewrite L. }
  destruct memb; [rewrite Em by done|]; destruct g as [g|]; cbn [push default from_option id Members Children];
    rewrite ?app_nil_r; try done; by rewrite (Ec _ g) by done; simpl; rewrite ?app_nil_r.
Qed.

(** Calls that write members and children, and what reading them gives. *)
Definition writes (emitted : JsonError + list jevent) (first : bool) (ms : PathElementSet) (cs : SetNodeMap) : Prop :=
  exists fs es, emitted = inr es /\ field_calls first fs es /\ doc_writable (DObj fs) = true /\
    forall fs' st b, matches fs fs' -> ready st ms cs ->
      exists ms' cs', Forall2 pe_same ms ms' /\ Forall2 node_same cs cs' /\
        readFields readIterV1 fs' (st, b) = inr (push st ms' cs', b).

Lemma writes_nil first : writes (inr []) first [] [].
Proof.
  exists [], []. split_and!; [done|constructor|done|]. intros fs' st b Hf _. apply Forall2_nil_inv_l in Hf as ->.
  exists [], []. split_and!; [constructor..|done].
Qed.

(** One more field: a member, a child, or both. *)
Lemma writes_field first pe d ec m0 c0 rest ms cs :
  pe_writable pe = true -> calls d ec -> doc_writable d = true ->
  (m0 = [] \/ exists m, m0 = [m] /\ pe_dom ExactInts m /\ PathElement_Equals m pe = true) ->
  (c0 = [] \/ exists s, c0 = [(pe, s)]) ->
  pes_ok ExactInts (m0 ++ ms) = true -> slice_ok fst ExactInts (c0 ++ cs) = true ->
  (forall d', delivers d d' -> exists g memb, readIterV1 d' = inr (g, memb) /\
    memb = negb (length m0 =? 0)%nat /\
    Forall2 set_same (snd <$> c0) (match g with Some g => [g] | None => [] end)) ->
  writes rest false ms cs ->
  writes (emitField first pe (inr ec) rest) first (m0 ++ ms) (c0 ++ cs).
Proof.
  intros Hw Hd Hdw Hm0 Hc0 Om Oc Hread (fs & es & -> & Hf & Hfw & Hr).
  destruct (path_element_json pe Hw) as (key & pe' & Ekey & Hu & Hdot & Hde & Epe & Dpe').
  assert (Hsame : pe_same pe pe') by (split_and!; [by apply pe_writable_dom|done|done]).
  exists ((key, d) :: fs), ((if first then [] else [WriteMore]) ++ WriteObjectField key :: ec ++ es).
  split; [by unfold emitField; rewrite Ekey|]. split; [by constructor|]. split.
  { apply doc_writable_obj. constructor; [done|]. by apply doc_writable_obj. }
  intros fs0 st b Hmatch Hready. apply Forall2_cons_inv_l in Hmatch as ([k2 d'] & fs' & [Ek Hd'] & Hmatch & ->).
  simpl in Ek, Hd'. subst k2. destruct (Hread d' Hd') as (g & memb & Er & Ememb & Hg).
  set (m0' := if memb then [pe'] else []). set (c0' := match g with Some g => [(pe', g)] | None => [] end).
  assert (Fm : Forall2 pe_same m0 m0').
  { unfold m0'. rewrite Ememb. destruct Hm0 as [-> |(m & -> & Dm & Em)]; simpl; [constructor|].
    constructor; [|constructor]. by apply (pe_same_trans m pe). }
  assert (Fc : Forall2 node_same c0 c0').
  { unfold c0'. destruct Hc0 as [-> |[s ->]]; simpl in Hg; destruct g as [g|]; inversion Hg; subst; constructor;
      [by split|constructor]. }
  assert (Hready' : ready (push st m0' c0') ms cs).
  { apply (ready_push st m0 c0); auto; [destruct Hm0 as [?|(m & ? & _)]; eauto|destruct Hc0 as [?|[s ?]]; eauto]. }
  destruct (Hr fs' (push st m0' c0') b Hmatch Hready') as (ms' & cs' & Fms & Fcs & E).
  exists (m0' ++ ms'), (c0' ++ cs'). split; [by apply Forall2_app|]. split; [by apply Forall2_app|].
  cbn [readFields]. rewrite Er. destruct Hready as [Rm Rc]. rewrite (readEntry_push key pe' g memb st b Hdot Hde).
  - fold m0' c0'. rewrite E. by rewrite push_app.
  - intros ->. symmetry in Ememb. destruct Hm0 as [-> |(m & -> & Dm & Em)]; [done|]. simpl in Rm.
    apply Forall_cons in Rm as [Rm _]. eapply before_same; [|exact Rm]. by apply (pe_same_trans m pe).
  - intros Hgn. destruct Hc0 as [-> |[s ->]]; [by destruct g; [inversion Hg|destruct Hgn]|]. simpl in Rc.
    apply Forall_cons in Rc as [Rc _]. eapply before_same; [|exact Rc]. done.
Qed.

Lemma pes_ok_cons m ms : pes_ok ExactInts (m :: ms) = true -> pe_dom ExactInts m /\ pes_ok ExactInts ms = true.
Proof. intros H1. apply slice_ok_cons in H1 as (? & _ & ?). done. Qed.

(** What is written for a set, with its children written by [emit]. *)
Definition set_writes (s : FSet) : Prop := forall self,
  exists fs es, emitContentsV1 self s = inr es /\ field_calls true fs es /\ doc_writable (DObj fs) = true /\
    forall fs', matches fs fs' -> exists s', set_same s s' /\
      readIterV1 (DObj fs') = inr (if Set_Empty s then (None, true) else (Some s', self)).

Lemma writes_member first m ms cs rest :
  pe_writable m = true -> pes_ok ExactInts (m :: ms) = true -> slice_ok fst ExactInts cs = true ->
  writes rest false ms cs -> writes (emitField first m (inr [WriteEmptyObject]) rest) first (m :: ms) cs.
Proof.
  intros Hw Om Oc Hr. pose proof (pe_writable_dom m Hw) as Dm.
  apply (writes_field first m (DObj []) [WriteEmptyObject] [m] []); auto; [constructor| |].
  - right. exists m. split_and!; auto. by apply (pe_Equals_refl ExactInts).
  - intros d' Hd'. inversion Hd' as [|? fs' F]; subst. apply Forall2_nil_inv_l in F as ->.
    exists None, true. split_and!; [done|done|constructor].
Qed.

Lemma writes_child first c self m0 ms cs rest :
  pe_writable c.1 = true -> set_writes c.2 -> Set_Empty c.2 = false ->
  m0 = (if self : bool then m0 else []) ->
  (if self then exists m, m0 = [m] /\ pe_dom ExactInts m /\ PathElement_Equals m c.1 = true else True) ->
  pes_ok ExactInts (m0 ++ ms) = true -> slice_ok fst ExactInts (c :: cs) = true -> writes rest false ms cs ->
  writes (emitField first c.1 (emitObject (emitContentsV1 self c.2)) rest) first (m0 ++ ms) (c :: cs).
Proof.
  intros Hw Hs Hne Em0 Hm0 Om Oc Hr. destruct (Hs self) as (fs & es & -> & Hf & Hfw & Hread).
  destruct c as [pe s]. cbn [fst snd emitObject] in *.
  apply (writes_field first pe (DObj fs) _ m0 [(pe, s)]); auto.
  - by constructor.
  - destruct self; [by right|by left].
  - right. by exists s.
  - intros d' Hd'. inversion Hd' as [|? fs' F]; subst. destruct (Hread fs' F) as (s' & Hss & Er). rewrite Hne in Er.
    exists (Some s'), self. split_and!; [done| |by constructor].
    destruct self; [by destruct Hm0 as (m & -> & _)|by rewrite Em0].
Qed.

Lemma emitLoop_writes cs ms first :
  Forall (fun c => pe_writable c.1 = true /\ set_writes c.2 /\ Set_Empty c.2 = false) cs ->
  Forall (fun m => pe_writable m = true) ms -> slice_ok fst ExactInts cs = true -> pes_ok ExactInts ms = true ->
  writes (emitLoop emitContentsV1 cs ms first) first ms cs.
Proof.
  intros Fc. revert ms first. induction Fc as [|c cs (Wc & Sc & Ec) Fc IHc].
  { intros ms first Fm Oc. revert first. induction Fm as [|m ms Wm Fm IHm]; intros first Om; [apply writes_nil|].
    pose proof Om as [Dm Om']%pes_ok_cons. cbn [emitLoop]. apply writes_member; auto. }
  intros ms first Fm Oc. pose proof Oc as (Dc & _ & Oc')%slice_ok_cons. revert first.
  induction Fm as [|m ms Wm Fm IHm]; intros first Om.
  { apply (writes_child first c false [] []); auto. }
  pose proof Om as [Dm Om']%pes_ok_cons. cbn [emitLoop]. cbv zeta. destruct (PathElement_Compare m c.1 <? 0) eqn:E1.
  { apply writes_member; auto. }
  destruct (0 <? PathElement_Compare m c.1) eqn:E2.
  { apply (writes_child first c false [] (m :: ms)); auto. }
  apply (writes_child first c true [m] ms); auto. exists m. split_and!; auto.
  rewrite (PathElement_Equals_Compare ExactInts) by done. lia.
Qed.

Lemma Set_Empty_lengths m c : Set_ok ExactInts (mkSet m c) = true ->
  Set_Empty (mkSet m c) = ((length m =? 0) && (length c =? 0))%nat.
Proof.
  intros (_ & _ & F)%Set_ok_mk. destruct m; [|done]. cbn [Set_Empty]. rewrite SetNodeMap_Empty_forall. simpl.
  destruct F as [|n c [En _] F]; [done|]. simpl. by rewrite En.
Qed.

Lemma set_json s : Set_ok ExactInts s = true -> Set_writable s = true -> set_writes s.
Proof.
  induction s as [m c IH] using FSet_nested_ind. intros Hok Hw self.
  pose proof Hok as (Om & Oc & Fn)%Set_ok_mk. cbn [Set_writable] in Hw. apply andb_true_iff in Hw as [Wm Wc].
  rewrite forallb_Forall in Wm. rewrite forallb_Forall in Wc. rewrite (Set_Empty_lengths m c Hok). cbn [emitContentsV1]. cbv zeta.
  set (empty := ((length m =? 0) && (length c =? 0))%nat).
  destruct (emitLoop_writes c m (negb (self && negb empty))) as (fs & es & -> & Hf & Hfw & Hread); auto.
  { rewrite Forall_forall in *. intros n Hn. specialize (Wc n Hn). apply andb_true_iff in Wc as [W1 W2].
    destruct (Fn n Hn) as [En On]. split_and!; auto. }
  assert (Hr : forall fs' b, matches fs fs' -> exists m' c', Forall2 pe_same m m' /\ Forall2 node_same c c' /\
    readFields readIterV1 fs' (None, b) = inr (push None m' c', b)).
  { intros fs' b Hmatch. apply Hread; [done|]. split; apply Forall_true; done. }
  assert (Hpush : forall m' c' b, Forall2 pe_same m m' -> Forall2 node_same c c' ->
    orEmpty (push None m' c', b) = if empty then (None, true) else (Some (mkSet m' c'), b)).
  { unfold empty. intros m' c' b Fm Fc. by destruct Fm, Fc. }
  destruct (self && negb empty) eqn:Eself.
  - apply andb_true_iff in Eself as [-> Eempty%negb_true_iff].
    exists ((".", DObj [])%string :: fs), ([WriteObjectField "."; WriteEmptyObject] ++ es). split_and!; [done| | |].
    + apply (field_calls_cons true "." (DObj []) [WriteEmptyObject]); [constructor|done].
    + apply doc_writable_obj. constructor; [done|]. by apply doc_writable_obj.
    + intros fs0 Hmatch. apply Forall2_cons_inv_l in Hmatch as ([k d'] & fs' & [Ek _] & Hmatch & ->). simpl in Ek. subst k.
      destruct (Hr fs' true Hmatch) as (m' & c' & Fm & Fc & E). exists (mkSet m' c'). split; [by constructor|].
      change (readIterV1 (DObj ((".", d') :: fs'))) with
        (match readFields readIterV1 fs' (None, true) with inl err => inl err | inr st => inr (orEmpty st) end).
      rewrite E, Hpush by done. by rewrite Eempty.
  - exists fs, es. split_and!; [done|done|done|]. intros fs' Hmatch.
    destruct (Hr fs' false Hmatch) as (m' & c' & Fm & Fc & E). exists (mkSet m' c'). split; [by constructor|].
    cbn [readIterV1]. rewrite E, Hpush by done. destruct empty; [done|]. by rewrite andb_true_r in Eself; subst.
Qed.

(** A written set is read as an equal one. *)
Lemma Set_json_roundtrip s : Set_ok ExactInts s = true -> Set_writable s = true ->
  exists text s', Set_ToJSON s = inr text /\ Set_FromJSON text = inr s' /\
    Set_ok ExactInts s' = true /\ Set_Equals s s' = true.
Proof.
  intros Hok Hw. destruct (set_json s Hok Hw false) as (fs & es & Ee & Hf & Hfw & Hread).
  destruct (render_read (DObj fs) (WriteObjectStart :: es ++ [WriteObjectEnd])) as (text & d' & Er & _ & Hr & Hd);
    [by constructor|done|]. inversion Hd as [|? fs' F]; subst. destruct (Hread fs' F) as (s' & Hs & E).
  exists text, (if Set_Empty s then emptySet else s'). unfold Set_ToJSON, Set_FromJSON, flush. rewrite Ee.
  cbn [emitObject]. rewrite Er, Hr, E. split; [done|]. destruct (Set_Empty s) eqn:Es.
  - split_and!; [done|done|]. destruct s as [m c]. rewrite (Set_Empty_lengths m c Hok) in Es.
    by destruct m, c.
  - split_and!; [done|by apply (set_same_ok s)|by apply set_same_Equals].
Qed.
End SetJson.

(** ** Whatever is read is well-formed *)

Lemma slice_ok_snoc {A} (key : A -> PathElement) r l a :
  slice_ok key r l = true -> pe_dom r (key a) ->
  match last l with None => True | Some x => PathElement_Less (key x) (key a) = true end ->
  slice_ok key r (l ++ [a]) = true.
Proof.
  intros Hok Da. induction l as [|b l IH]; intros Hlast.
  - apply slice_ok_cons. split_and!; [done|constructor|done].
  - pose proof Hok as (Db & FL & Hok')%slice_ok_cons. simpl. apply slice_ok_cons. split_and!; [done| |].
    + apply Forall_app. split; [done|]. apply Forall_singleton. destruct (last l) as [x|] eqn:El.
      * rewrite last_cons, El in Hlast. apply last_Some in El as [l' ->]. apply Forall_app in FL as [_ [Lx _]%Forall_cons].
        apply slice_ok_dom in Hok'. apply Forall_app in Hok' as [_ [Dx _]%Forall_cons].
        by apply (pe_Less_trans r (key b) (key x)).
      * by rewrite last_cons, El in Hlast.
    + apply IH; [done|]. rewrite last_cons in Hlast. by destruct (last l).
Qed.

Section ReadOk.
Context `{JsonLaws}.

Lemma Deserialize_dom s pe : DeserializePathElement s = inr pe -> pe_dom ExactInts pe.
Proof.
  destruct s as [|typ [|sep b]]; try done. cbn [DeserializePathElement].
  destruct (negb _); [done|]. destruct (Ascii.eqb typ "f"); [by intros [= <-]|].
  destruct (Ascii.eqb typ "v").
  { unfold ReadJSONIter. destruct (read b) as [d|] eqn:Er; [|done]. intros [= <-].
    unfold pe_dom, pe_ok. simpl. by apply iter_Read_ok, (read_ok b). }
  destruct (Ascii.eqb typ "k").
  { destruct (readKey b) as [err|fields] eqn:Ek; [done|]. intros [= <-]. unfold pe_dom, pe_ok, fieldlist_ok. simpl.
    rewrite andb_true_r, forallb_Forall, FieldList_Sort_perm. unfold readKey in Ek.
    destruct (read b) as [[v|fs]|] eqn:Er; [|injection Ek as <-|done].
    - destruct v; try done. injection Ek as <-. constructor.
    - apply read_ok in Er. rewrite doc_ok_obj in Er. rewrite Forall_fmap. eapply Forall_impl; [exact Er|].
      intros e He. by apply iter_Read_ok. }
  destruct (Ascii.eqb typ "i"); [|done]. destruct (Atoi b); [|done]. by intros [= <-].
Qed.

Definition found_ok (st : option FSet) : Prop :=
  forall s, st = Some s -> Set_ok ExactInts s = true /\ Set_Empty s = false.

Lemma default_ok st : found_ok st -> Set_ok ExactInts (default emptySet st) = true.
Proof. intros Hst. destruct st as [s|]; [by apply Hst|done]. Qed.

Lemma readMember_ok pe s :
  pe_dom ExactInts pe -> Set_ok ExactInts s = true ->
  Set_ok ExactInts (readMember pe s) = true /\ Set_Empty (readMember pe s) = false.
Proof.
  intros D Hok. destruct s as [m c]. pose proof Hok as (Om & Oc & Fn)%Set_ok_mk. unfold readMember. cbn [Members Children].
  destruct (match last m with None => true | Some x => PathElement_Less x pe end) eqn:El.
  - split; [|destruct m; done]. apply Set_ok_mk. split_and!; [|done|done]. apply (slice_ok_snoc id); [done|done|]. by destruct (last m).
  - split; [apply Set_ok_mk; split_and!; [by apply PathElementSet_Insert_ok|done|done]|].
    assert (Hin : Set_Has (Set_Insert (mkSet m c) [pe]) [pe] = true).
    { rewrite (Set_Has_Insert ExactInts); try done; [|by apply Forall_singleton..|by apply Set_ok_iff in Hok as []].
      unfold Path_Equals. simpl. by rewrite (pe_Equals_refl ExactInts). }
    apply not_true_iff_false. intros HE.
    apply (Set_Empty_Has (Set_Insert (mkSet m c) [pe]) [pe]) in HE. congruence.
Qed.

Lemma readChild_ok pe g s :
  pe_dom ExactInts pe -> Set_ok ExactInts s = true -> Set_ok ExactInts g = true -> Set_Empty g = false ->
  Set_ok ExactInts (readChild pe g s) = true /\ Set_Empty (readChild pe g s) = false.
Proof.
  intros D Hok Hg Hne. destruct s as [m c]. pose proof Hok as (Om & Oc & Fn)%Set_ok_mk. unfold readChild. cbn [Members Children].
  set (c' := if match last c with None => true | Some x => PathElement_Less x.1 pe end then c ++ [(pe, g)]
    else let '(m0, loc) := SetNodeMap_Descend c pe in alter (fun n => (n.1, g)) loc m0).
  assert (Hc' : slice_ok fst ExactInts c' = true /\ Forall (fun n => Set_Empty n.2 = false /\ Set_ok ExactInts n.2 = true) c' /\ c' <> []).
  { unfold c'. destruct (match last c with None => true | Some x => PathElement_Less x.1 pe end) eqn:El.
    - split_and!; [apply (slice_ok_snoc fst); [done|done|by destruct (last c)]| |by destruct c].
      apply Forall_app. split; [done|]. by apply Forall_singleton.
    - change (let '(m0, loc) := SetNodeMap_Descend c pe in alter (fun n => (n.1, g)) loc m0) with (descend_alter c pe (fun _ => g)).
      split_and!; [by apply descend_alter_ok| |].
      + by apply (descend_alter_Forall ExactInts (fun s => Set_Empty s = false /\ Set_ok ExactInts s = true)).
      + destruct (descend_alter_split ExactInts c pe (fun _ => g) D Oc) as (l1 & l2 & k & sub & -> & _). by destruct l1. }
  destruct Hc' as (Oc' & Fn' & Hne'). assert (Hok' : Set_ok ExactInts (mkSet m c') = true) by (by apply Set_ok_mk).
  split; [done|]. rewrite (Set_Empty_lengths m c' Hok'). destruct c'; [done|]. apply andb_false_r.
Qed.

Lemma readEntry_ok key sub st st' :
  (forall g memb, sub = inr (g, memb) -> found_ok g) -> found_ok st.1 -> readEntry key sub st = inr st' -> found_ok st'.1.
Proof.
  intros Hsub Hst. unfold readEntry. destruct (string_eqb key "."); [by intros [= <-]|].
  destruct (DeserializePathElement key) as [err|pe] eqn:Ed; [by destruct err; try done; intros [= <-]|].
  apply Deserialize_dom in Ed. destruct sub as [err|[g memb]]; [done|]. specialize (Hsub g memb eq_refl). intros [= <-]. simpl.
  assert (Hm : found_ok (if memb then Some (readMember pe (default emptySet st.1)) else st.1)).
  { destruct memb; [|done]. intros s [= <-]. apply readMember_ok; [done|]. by apply default_ok. }
  destruct g as [g|]; [|done]. intros s [= <-]. destruct (Hsub g eq_refl). apply readChild_ok; auto. by apply default_ok.
Qed.

Lemma readIterV1_ok d st : readIterV1 d = inr st -> found_ok st.1.
Proof.
  revert st. induction d as [v|fs IH] using jdoc_nested_ind; intros st.
  { destruct v; try done. by intros [= <-]. }
  cbn [readIterV1]. assert (H0' : found_ok (None, false).1) by done. revert H0'.
  generalize ((None, false) : option FSet * bool) as st0. induction fs as [|[k d] fs IHfs]; intros st0 Hst0; cbn [readFields].
  - intros [= <-]. by destruct st0 as [[s|] b].
  - apply Forall_cons in IH as [Hd IH]. destruct (readEntry k (readIterV1 d) st0) as [err|st1] eqn:Ee; [done|].
    apply IHfs; [done|]. apply (readEntry_ok k (readIterV1 d) st0); [|done|done]. intros g memb E. by apply (Hd _ E).
Qed.

Lemma Set_FromJSON_ok text s : Set_FromJSON text = inr s -> Set_ok ExactInts s = true.
Proof.
  unfold Set_FromJSON. destruct (read text) as [d|]; [|done]. destruct (readIterV1 d) as [err|st] eqn:E; [done|].
  intros [= <-]. apply default_ok. by apply (readIterV1_ok d).
Qed.
End ReadOk.
