(* ===== verification/JsonInstance.v ===== *)
(** * A JSON library

    A concrete [JsonLib] that satisfies [JsonLaws]: the calls are encoded as a
    tree, the tree as a number and the number as its binary digits.  It shows that
    the laws can hold, and it lets the round trips be evaluated. *)
From S2P Require Import Prelude GoLib GoFloat Value ValueOrder PathElement SortedSlice FieldSet CompareSpec.
From S2P Require Import Serialize SerializeSpec.
From Stdlib Require Import Ascii.
From stdpp Require Import countable.
Open Scope Z_scope.

(** ** Trees *)

(** A leaf: a tag, and the parts of a scalar. *)
Abbreviation leaf := (nat * bool * positive * Z * string)%type.
Abbreviation tree := (gen_tree leaf).

Definition tag (n : nat) : tree := GenLeaf (n, false, 1%positive, 0, ""%string).

Definition IntKind_nat (k : IntKind) : nat :=
  match k with
  | KInt => 0 | KInt8 => 1 | KInt16 => 2 | KInt32 => 3 | KInt64 => 4
  | KUint => 5 | KUint8 => 6 | KUint16 => 7 | KUint32 => 8 | KUint64 => 9
  end.
Definition nat_IntKind (n : nat) : IntKind :=
  match n with
  | 0 => KInt | 1 => KInt8 | 2 => KInt16 | 3 => KInt32 | 4 => KInt64
  | 5 => KUint | 6 => KUint8 | 7 => KUint16 | 8 => KUint32 | _ => KUint64
  end%nat.

Definition float_leaf (n : nat) (f : spec_float) : leaf :=
  match f with
  | S754_zero b => (n, b, 1%positive, 0, "z"%string)
  | S754_infinity b => (n, b, 1%positive, 0, "i"%string)
  | S754_nan => (n, false, 1%positive, 0, "n"%string)
  | S754_finite b m e => (n, b, m, e, "f"%string)
  end.
Definition leaf_float (l : leaf) : spec_float :=
  let '(_, b, m, e, s) := l in
  if string_eqb s "z" then S754_zero b
  else if string_eqb s "i" then S754_infinity b
  else if string_eqb s "n" then S754_nan
  else S754_finite b m e.

Fixpoint value_tree (v : value) : tree :=
  match v with
  | VNull => tag 0
  | VBool b => GenLeaf (1%nat, b, 1%positive, 0, ""%string)
  | VInt k i => GenLeaf (2%nat, false, Pos.of_succ_nat (IntKind_nat k), i, ""%string)
  | VFloat32 f => GenLeaf (float_leaf 3 f)
  | VFloat64 f => GenLeaf (float_leaf 4 f)
  | VString s => GenLeaf (5%nat, false, 1%positive, 0, s)
  | VList l => GenNode 0 (value_tree <$> l)
  | VMap m => GenNode 1 ((fun kv => GenNode 0 [GenLeaf (5%nat, false, 1%positive, 0, kv.1); value_tree kv.2]) <$> m)
  end.

Definition tree_string (t : tree) : string :=
  match t with GenLeaf (_, _, _, _, s) => s | _ => ""%string end.

Fixpoint tree_value (t : tree) : value :=
  match t with
  | GenLeaf (n, b, p, i, s) =>
    match n with
    | 0 => VNull
    | 1 => VBool b
    | 2 => VInt (nat_IntKind (pred (Pos.to_nat p))) i
    | 3 => VFloat32 (leaf_float (n, b, p, i, s))
    | 4 => VFloat64 (leaf_float (n, b, p, i, s))
    | _ => VString s
    end%nat
  | GenNode 0 l => VList (tree_value <$> l)
  | GenNode _ l =>
    VMap ((fun e => match e with GenNode _ [k; v] => (tree_string k, tree_value v) | _ => (""%string, VNull) end) <$> l)
  end.

Lemma tree_value_tree v : tree_value (value_tree v) = v.
Proof.
  induction v as [|b|k i|f|f|s|l IH|m IH] using value_rect_nested; try done.
  - simpl. by destruct k.
  - by destruct f.
  - by destruct f.
  - cbn [value_tree tree_value]. f_equal. rewrite <-list_fmap_compose.
    induction IH as [|v l Hv IH IHl]; [done|]. rewrite fmap_cons, IHl. unfold compose. by rewrite Hv.
  - cbn [value_tree tree_value]. f_equal. rewrite <-list_fmap_compose.
    induction IH as [|[k v] m Hv IH IHm]; [done|]. rewrite fmap_cons, IHm. unfold compose. simpl in *. by rewrite Hv.
Qed.

Definition event_tree (e : jevent) : tree :=
  match e with
  | WriteObjectStart => GenNode 0 []
  | WriteObjectEnd => GenNode 1 []
  | WriteObjectField k => GenNode 2 [GenLeaf (5%nat, false, 1%positive, 0, k)]
  | WriteMore => GenNode 3 []
  | WriteEmptyObject => GenNode 4 []
  | WriteVal v => GenNode 5 [value_tree v]
  end.

Definition tree_event (t : tree) : jevent :=
  match t with
  | GenNode 0 _ => WriteObjectStart
  | GenNode 1 _ => WriteObjectEnd
  | GenNode 2 [k] => WriteObjectField (tree_string k)
  | GenNode 3 _ => WriteMore
  | GenNode 5 [v] => WriteVal (tree_value v)
  | _ => WriteEmptyObject
  end.

Lemma tree_event_tree e : tree_event (event_tree e) = e.
Proof. destruct e; try done. simpl. by rewrite tree_value_tree. Qed.

(** ** Texts *)

Fixpoint digits (p : positive) : string :=
  match p with
  | xH => ""
  | xO p => String "0" (digits p)
  | xI p => String "1" (digits p)
  end.

Fixpoint undigits (s : string) : positive :=
  match s with
  | EmptyString => xH
  | String c s' => if Ascii.eqb c "0" then xO (undigits s') else xI (undigits s')
  end.

Lemma undigits_digits p : undigits (digits p) = p.
Proof. induction p as [p IH|p IH|]; simpl; by rewrite ?IH. Qed.

Lemma digits_utf8 p : utf8_valid (digits p) = true.
Proof. induction p as [p IH|p IH|]; done. Qed.

(** ** Documents *)

(** Read a document from calls. *)
Fixpoint parse_doc (fuel : nat) (es : list jevent) : option (jdoc * list jevent) :=
  match fuel with
  | O => None
  | S fuel =>
    match es with
    | WriteVal v :: es' => Some (DVal v, es')
    | WriteEmptyObject :: es' => Some (DObj [], es')
    | WriteObjectStart :: es' =>
      match parse_fields fuel es' with Some (fs, es'') => Some (DObj fs, es'') | None => None end
    | _ => None
    end
  end
with parse_fields (fuel : nat) (es : list jevent) : option (list (string * jdoc) * list jevent) :=
  match fuel with
  | O => None
  | S fuel =>
    match es with
    | WriteObjectEnd :: es' => Some ([], es')
    | WriteObjectField k :: es' | WriteMore :: WriteObjectField k :: es' =>
      match parse_doc fuel es' with
      | Some (d, es'') =>
        match parse_fields fuel es'' with Some (fs, es3) => Some ((k, d) :: fs, es3) | None => None end
      | None => None
      end
    | _ => None
    end
  end.

Scheme calls_mut := Induction for calls Sort Prop with field_calls_mut := Induction for field_calls Sort Prop.

Lemma parse_doc_calls d es : calls d es -> forall fuel rest, (length es < fuel)%nat -> parse_doc fuel (es ++ rest) = Some (d, rest).
Proof.
  intros Hc.
  apply (calls_mut
    (fun d es _ => forall fuel rest, (length es < fuel)%nat -> parse_doc fuel (es ++ rest) = Some (d, rest))
    (fun first fs es _ => forall fuel rest, (length es < fuel)%nat ->
      parse_fields fuel (es ++ WriteObjectEnd :: rest) = Some (fs, rest))); [..|exact Hc].
  - intros v [|fuel] rest Hf; [simpl in Hf; lia|done].
  - intros [|fuel] rest Hf; [simpl in Hf; lia|done].
  - intros fs es' _ IH [|fuel] rest Hf; [lia|]. simpl in *. rewrite length_app in Hf. simpl in Hf.
    rewrite <-app_assoc. simpl. rewrite IH; [done|lia].
  - intros first [|fuel] rest Hf; [simpl in Hf; lia|done].
  - intros first k d' es1 fs es2 _ IH1 _ IH2 [|fuel] rest Hf; [lia|].
    assert (Hlen : (length es1 + length es2 < fuel)%nat) by (destruct first; simpl in Hf; rewrite length_app in Hf; lia).
    destruct first; simpl; rewrite <-app_assoc, IH1, IH2 by lia; done.
Qed.

(** ** The library *)

#[export] Instance digit_json : JsonLib := {|
  render es := Some (digits (encode (GenNode 0 (event_tree <$> es))));
  read text :=
    match decode (undigits text) with
    | Some (GenNode _ ts) =>
      match parse_doc (S (length ts)) (tree_event <$> ts) with
      | Some (d, _) => if doc_ok d then Some d else None
      | None => None
      end
    | _ => None
    end;
|}.

Lemma writable_doc_ok d : doc_writable d = true -> doc_ok d = true.
Proof.
  induction d as [v|fs IH] using jdoc_nested_ind; [by apply writable_ok|].
  rewrite doc_writable_obj, doc_ok_obj. intros F. rewrite Forall_forall in *. intros e He.
  apply IH; [done|]. by apply F.
Qed.

Lemma delivers_refl d : doc_ok d = true -> delivers d d.
Proof.
  induction d as [v|fs IH] using jdoc_nested_ind.
  - intros Hv. constructor. by apply (Equals_refl ExactInts).
  - rewrite doc_ok_obj. intros F. constructor. induction IH as [|e fs He IH IHfs]; [constructor|].
    inversion F; subst. constructor; [by split; [|apply He]|by apply IHfs].
Qed.

#[export] Instance digit_json_laws : JsonLaws.
Proof.
  constructor.
  - intros d es Hc Hw. pose proof (writable_doc_ok d Hw) as Hok.
    exists (digits (encode (GenNode 0 (event_tree <$> es)))), d.
    split_and!; [done|apply digits_utf8| |by apply delivers_refl]. unfold read, digit_json. rewrite undigits_digits, decode_encode.
    assert (E : tree_event <$> (event_tree <$> es) = es).
    { clear. induction es as [|e es IH]; [done|]. by rewrite !fmap_cons, IH, tree_event_tree. }
    pose proof (parse_doc_calls d es Hc (S (length es)) [] ltac:(lia)) as P. rewrite app_nil_r in P.
    by rewrite E, length_fmap, P, Hok.
  - intros text d. unfold read, digit_json. destruct (decode _) as [[|n ts]|]; try done.
    destruct (parse_doc _ _) as [[d' rest]|]; [|done]. destruct (doc_ok d') eqn:E; [|done]. by intros [= <-].
Qed.
