(* ===== verification/Reconcile.v ===== *)
(** * Package typed: reconciling field sets with schema changes

    Models [typed/reconcile_schema.go].  The walker's mutable state is the
    pair [toRemove], [toAdd] of optional sets; a child walker starts from a
    copy of it and its result is merged back.  The recursion descends the
    field set; its fuel is the depth of the set. *)
From S2P Require Import Prelude GoLib GoFloat Value ValueOrder PathElement SortedSlice FieldSet.
From S2P Require Import FieldSetSpec FieldSetOps FieldSetInsert Schema TypedHelpers.

Definition typeRefAtPath (t : MapT) (pe : PathElement) : option TypeRef :=
  let tr :=
    match FieldName pe with
    | Some name => match FindField t name with Some sf => sf_Type sf | None => m_ElementType t end
    | None => m_ElementType t
    end in
  if TypeRef_isZero tr then None else Some tr.

Definition isUntypedDeducedRef (t : TypeRef) : bool :=
  match tr_NamedType t with
  | Some name => string_eqb name "__untyped_deduced_"
  | None => match a_Scalar (tr_Inlined t) with Some s => string_eqb s "untyped" | None => false end
  end.

Definition isUntypedDeducedMap (m : MapT) : bool :=
  isUntypedDeducedRef (m_ElementType m) && option_is_nil (m_Fields m).

(** [toRemove] and [toAdd]. *)
Abbreviation recState := (option FSet * option FSet)%type.

Definition mergeAccumulated (mine theirs : option FSet) : option FSet :=
  match theirs with
  | None => mine
  | Some x => match mine with None => Some x | Some y => Some (Set_Union y x) end
  end.

(** [finishDescent]: merge what the child accumulated. *)
Definition finishDescent (v v2 : recState) : recState :=
  (mergeAccumulated v.1 v2.1, mergeAccumulated v.2 v2.2).

Section ReconcileBody.
Variable sc : Schema.
(** The recursive call: field set, type, path, [isAtomic], state. *)
Variable reconcile : option FSet -> TypeRef -> Path -> bool -> recState ->
  Outcome (ValidationErrors * recState).

(** [handleElement], for the children that have a type. *)
Definition rec_handleElement (typeOf : PathElement -> option TypeRef) (path : Path) (element : FSet)
    (pe : PathElement) (isMember : bool) (st : ValidationErrors * recState) :
    Outcome (ValidationErrors * recState) :=
  match typeOf pe with
  | None => Ret st
  | Some tr =>
    let sub := SetNodeMap_Get (Children element) pe in
    let hasChildren := match sub with Some _ => true | None => false end in
    res ← reconcile sub tr (path ++ [pe]) (isMember && negb hasChildren) st.2;
    Ret (st.1 ++ res.1, finishDescent st.2 res.2)
  end.

(** The two iterations of [visitListItems] and [visitMapItems]: the children
    that are not members, then the members. *)
Definition rec_visitItems (typeOf : PathElement -> option TypeRef) (path : Path) (element : FSet)
    (w : recState) : Outcome (ValidationErrors * recState) :=
  let st := foldl (fun st pe =>
    if PathElementSet_Has (Members element) pe then st
    else st ← st; rec_handleElement typeOf path element pe false st)
    (Ret ([], w)) (Children element).*1 in
  foldl (fun st pe => st ← st; rec_handleElement typeOf path element pe true st) st (Members element).

Definition rec_doList (fieldSet : option FSet) (path : Path) (isAtomic : bool) (t : ListT) (w : recState) :
    Outcome (ValidationErrors * recState) :=
  if negb isAtomic && string_eqb (l_ER t) Atomic then
    Ret ([], (Some (NewSet [path]), Some (NewSet [path])))
  else
    match fieldSet with
    | Some element => rec_visitItems (fun _ => Some (l_ElementType t)) path element w
    | None => Ret ([], w)
    end.

Definition rec_doMap (fieldSet : option FSet) (path : Path) (isAtomic : bool) (t : MapT) (w : recState) :
    Outcome (ValidationErrors * recState) :=
  if isUntypedDeducedMap t then Ret ([], w)
  else if negb isAtomic && string_eqb (m_ER t) Atomic then
    match fieldSet with
    | Some s =>
      if (0 <? Set_Size s)%nat then Ret ([], (Some (NewSet [path]), Some (NewSet [path])))
      else Ret ([], w)
    | None => Ret ([], w)
    end
  else
    match fieldSet with
    | Some element => rec_visitItems (typeRefAtPath t) path element w
    | None => Ret ([], w)
    end.

Definition rec_handler (fieldSet : option FSet) (path : Path) (isAtomic : bool) : atomHandler recState :=
  mkAtomHandler
    (fun _ w => Ret ([], w))
    (rec_doList fieldSet path isAtomic)
    (rec_doMap fieldSet path isAtomic).

Definition rec_body (fieldSet : option FSet) (tr : TypeRef) (path : Path) (isAtomic : bool) (w : recState) :
    Outcome (ValidationErrors * recState) :=
  match Resolve sc tr with
  | None => Ret (errorf (MsgUnresolved tr), w)
  | Some a => handleAtom a tr (rec_handler fieldSet path isAtomic) w
  end.
End ReconcileBody.

Fixpoint Set_depth (s : FSet) : nat :=
  let (_, c) := s in S (foldr (fun n d => Nat.max (Set_depth n.2) d) 0%nat c).

Definition fsDepth (s : option FSet) : nat := match s with Some s => Set_depth s | None => 0%nat end.

Fixpoint reconcile_fuel (n : nat) (sc : Schema) :
    option FSet -> TypeRef -> Path -> bool -> recState -> Outcome (ValidationErrors * recState) :=
  match n with
  | O => fun _ _ _ _ _ => Panic
  | S n => rec_body sc (reconcile_fuel n sc)
  end.

Definition reconcile (sc : Schema) (fieldSet : option FSet) (tr : TypeRef) (path : Path) (isAtomic : bool)
    (w : recState) : Outcome (ValidationErrors * recState) :=
  reconcile_fuel (S (fsDepth fieldSet)) sc fieldSet tr path isAtomic w.

(** [ReconcileFieldSetWithSchema]: errors, or the reconciled set ([None]: no change). *)
Definition ReconcileFieldSetWithSchema (fieldset : FSet) (sc : Schema) (tr : TypeRef) :
    Outcome (ValidationErrors + option FSet) :=
  res ← reconcile sc (Some fieldset) tr [] false (None, None);
  let '(errs, (toRemove, toAdd)) := res in
  Ret (if (0 <? length errs)%nat then inl errs
       else inr (match toAdd, toRemove with
         | None, None => None
         | _, _ =>
           let out := match toRemove with Some x => Set_RecursiveDifference fieldset x | None => fieldset end in
           Some (match toAdd with Some x => Set_Union out x | None => out end)
         end)).

(** ** The fuel is enough *)

Lemma Set_depth_child m c n : n ∈ c -> (Set_depth n.2 < Set_depth (mkSet m c))%nat.
Proof.
  simpl. intros H. induction c as [|x c IH]; [by apply not_elem_of_nil in H|]. simpl.
  apply elem_of_cons in H as [->|H]; [lia|]. specialize (IH H). lia.
Qed.

Lemma Get_depth element pe :
  (fsDepth (SetNodeMap_Get (Children element) pe) < Set_depth element)%nat.
Proof.
  destruct element as [m c]. unfold SetNodeMap_Get. cbn [Children].
  destruct (_ =? _)%nat; [simpl; lia|]. destruct (c !! _) as [n|] eqn:E; [|simpl; lia].
  destruct (PathElement_Equals n.1 pe); [|simpl; lia].
  apply list_elem_of_lookup_2 in E. by apply Set_depth_child.
Qed.

Section ReconcileExt.
Variable sc : Schema.
Variables rec1 rec2 : option FSet -> TypeRef -> Path -> bool -> recState ->
  Outcome (ValidationErrors * recState).

(** The two recursive calls agree below a field set. *)
Let agree_below (fieldSet : option FSet) : Prop :=
  forall fs tr p b w, (fsDepth fs < fsDepth fieldSet)%nat -> rec1 fs tr p b w = rec2 fs tr p b w.

Lemma rec_handleElement_ext typeOf path element pe b st :
  agree_below (Some element) ->
  rec_handleElement rec1 typeOf path element pe b st = rec_handleElement rec2 typeOf path element pe b st.
Proof.
  intros Hrec. unfold rec_handleElement. destruct (typeOf pe); [|done]. cbv zeta.
  rewrite Hrec; [done|]. apply Get_depth.
Qed.

Lemma rec_visitItems_ext typeOf path element w :
  agree_below (Some element) ->
  rec_visitItems rec1 typeOf path element w = rec_visitItems rec2 typeOf path element w.
Proof.
  intros Hrec. unfold rec_visitItems. cbv zeta.
  assert (H1 : forall l st, foldl (fun st pe => st ← st; rec_handleElement rec1 typeOf path element pe true st) st l =
    foldl (fun st pe => st ← st; rec_handleElement rec2 typeOf path element pe true st) st l).
  { induction l as [|pe l IH]; intros st; [done|]. simpl. rewrite IH. f_equal.
    destruct st as [|st]; [done|]. simpl. by apply rec_handleElement_ext. }
  rewrite H1. f_equal. clear H1. generalize (Ret (A := ValidationErrors * recState) ([], w)) as st.
  induction ((Children element).*1) as [|pe l IH]; intros st; [done|]. simpl. rewrite IH. f_equal.
  destruct (PathElementSet_Has (Members element) pe); [done|].
  destruct st as [|st]; [done|]. simpl. by apply rec_handleElement_ext.
Qed.

Lemma rec_body_ext fieldSet tr path b w :
  agree_below fieldSet ->
  rec_body sc rec1 fieldSet tr path b w = rec_body sc rec2 fieldSet tr path b w.
Proof.
  intros Hrec. unfold rec_body, handleAtom. destruct (Resolve sc tr) as [a|]; [|done].
  destruct (a_Map a) as [t|].
  - simpl. unfold rec_doMap. destruct (isUntypedDeducedMap t); [done|]. destruct (_ && _); [done|].
    destruct fieldSet as [element|]; [|done]. by apply rec_visitItems_ext.
  - destruct (a_Scalar a); [done|]. destruct (a_List a) as [t|]; [|done].
    simpl. unfold rec_doList. destruct (_ && _); [done|].
    destruct fieldSet as [element|]; [|done]. by apply rec_visitItems_ext.
Qed.
End ReconcileExt.

Lemma reconcile_fuel_enough sc n n' fs tr p b w :
  (fsDepth fs < n)%nat -> (fsDepth fs < n')%nat ->
  reconcile_fuel n sc fs tr p b w = reconcile_fuel n' sc fs tr p b w.
Proof.
  revert n' fs tr p b w. induction n as [|n IH]; intros [|n'] fs tr p b w H1 H2; try lia.
  cbn [reconcile_fuel]. apply rec_body_ext. intros. apply IH; lia.
Qed.

Lemma reconcile_unfold sc fs tr p b w :
  reconcile sc fs tr p b w = rec_body sc (reconcile sc) fs tr p b w.
Proof.
  unfold reconcile at 1. cbn [reconcile_fuel]. apply rec_body_ext. intros.
  apply reconcile_fuel_enough; lia.
Qed.
