(* ===== verification/ReconcileSpec.v ===== *)
(** * Package typed: what reconciliation does to a field set

    [collapses] names the fields of a set that the schema has made atomic since
    the set was written.  [ReconcileFieldSetWithSchema] replaces everything the
    set has at or below such a field by the field itself, keeps the rest, and
    reports no change when there is no such field. *)
From S2P Require Import Prelude GoLib GoFloat Value ValueOrder PathElement SortedSlice FieldSet.
From S2P Require Import FieldSetSpec FieldSetOps FieldSetInsert Schema TypedHelpers Validate Reconcile.

#[local] Set Warnings "-clear-no-such-hyp".

(** ** Reference *)

(** The alternative [handleAtom] chooses without a value. *)
Definition atom_kind (a : Atom) : option Kind :=
  match a_Map a, a_Scalar a, a_List a with
  | Some m, _, _ => Some (KMap m)
  | None, Some s, _ => Some (KScalar s)
  | None, None, Some l => Some (KList l)
  | None, None, None => None
  end.

(** Was granular (not owned as a leaf) and is atomic now. *)
Definition now_atomic (k : Kind) (fs : option FSet) : Prop :=
  match k with
  | KScalar _ => False
  | KList t => l_ER t = Atomic
  | KMap t => isUntypedDeducedMap t = false /\ m_ER t = Atomic /\ exists s, fs = Some s /\ (0 < Set_Size s)%nat
  end.

(** The types of the children the walker visits. *)
Definition visits (k : Kind) (isAtomic : bool) : option (PathElement -> option TypeRef) :=
  match k with
  | KScalar _ => None
  | KList t => if negb isAtomic && string_eqb (l_ER t) Atomic then None else Some (fun _ => Some (l_ElementType t))
  | KMap t =>
    if isUntypedDeducedMap t then None
    else if negb isAtomic && string_eqb (m_ER t) Atomic then None
    else Some (typeRefAtPath t)
  end.

(** The child is owned itself, and nothing below it. *)
Definition owned_as_leaf (element : FSet) (pe : PathElement) (isMember : bool) : bool :=
  isMember && match SetNodeMap_Get (Children element) pe with Some _ => false | None => true end.

(** The children in the order the walker visits them: a member or not. *)
Definition items (element : FSet) : list (PathElement * bool) :=
  ((fun pe => (pe, false)) <$> filter (fun pe => PathElementSet_Has (Members element) pe = false) (Children element).*1)
  ++ ((fun pe => (pe, true)) <$> Members element).

Inductive collapses (sc : Schema) : option FSet -> TypeRef -> bool -> Path -> Prop :=
  | collapses_here fs tr a k :
    Resolve sc tr = Some a -> atom_kind a = Some k -> now_atomic k fs -> collapses sc fs tr false []
  | collapses_below element tr isAtomic a k typeOf pe isMember tr' p :
    Resolve sc tr = Some a -> atom_kind a = Some k -> visits k isAtomic = Some typeOf ->
    (pe, isMember) ∈ items element -> typeOf pe = Some tr' ->
    collapses sc (SetNodeMap_Get (Children element) pe) tr' (owned_as_leaf element pe isMember) p ->
    collapses sc (Some element) tr isAtomic (pe :: p).

(** ** The walker follows the reference *)

Section Accumulate.
Context (r : Regime).

(** [w'] is [w] with the paths of [P], which are relative to [path]. *)
Definition accumulates (P : Path -> Prop) (path : Path) (w w' : option FSet) : Prop :=
  (forall x, w' = Some x -> Set_ok r x = true) /\
  (is_Some w' <-> is_Some w \/ exists p, P p) /\
  forall q, q <> [] -> Forall (pe_dom r) q ->
    opt_Has w' q = true <-> opt_Has w q = true \/ exists p, P p /\ Path_Equals (path ++ p) q = true.

Definition state_ok (w : option FSet) : Prop := forall x, w = Some x -> Set_ok r x = true.

Lemma accumulates_nothing P path w : state_ok w -> (forall p, ~ P p) -> accumulates P path w w.
Proof. intros Hw HP. split_and!; [done|..].
  - split; [by left|]. intros [?|[p ?%HP]]; done.
  - intros q _ _. split; [by left|]. intros [?|(p & ?%HP & _)]; done.
Qed.

Lemma accumulates_iff P P' path w w' :
  (forall p, P p <-> P' p) -> accumulates P path w w' -> accumulates P' path w w'.
Proof. intros H. unfold accumulates. by setoid_rewrite H. Qed.

Lemma accumulates_trans P P' path w w' w'' :
  accumulates P path w w' -> accumulates P' path w' w'' ->
  accumulates (fun p => P p \/ P' p) path w w''.
Proof.
  intros (Hk & Hs & Hq) (Hk' & Hs' & Hq'). split_and!; [done| |].
  - rewrite Hs', Hs. split; [intros [[?|[p ?]]|[p ?]]|intros [?|[p [?|?]]]]; eauto.
  - intros q Hne Hd. rewrite Hq', Hq by done.
    split; [intros [[?|(p & ? & ?)]|(p & ? & ?)]|intros [?|(p & [?|?] & ?)]]; eauto 6.
Qed.

Lemma mergeAccumulated_accumulates P path w w' :
  state_ok w -> accumulates P path w w' -> accumulates P path w (mergeAccumulated w w').
Proof.
  intros Hw (Hk & Hs & Hq). destruct w as [y|]; [|by destruct w'].
  destruct w' as [x|]; [|destruct (proj2 Hs) as [? ?]; [eauto|done]]. cbn [mergeAccumulated]. pose proof (Hk x eq_refl) as Hx. pose proof (Hw y eq_refl) as Hy. split_and!.
  - intros z [= <-]. by apply Set_Union_ok.
  - split; [left|]; eauto.
  - intros q Hne Hd. specialize (Hq q Hne Hd). simpl in *.
    apply Set_ok_iff in Hx as [Hx _], Hy as [Hy _].
    rewrite (Set_Has_Union r), orb_true_iff, Hq by done. clear. tauto.
Qed.

(** A walker that found the node atomic drops what it had accumulated. *)
Lemma collapse_accumulates path w :
  Forall (pe_dom r) path -> state_ok w ->
  accumulates (fun p => p = []) path w (mergeAccumulated w (Some (NewSet [path]))).
Proof.
  intros Hp Hw. assert (Hn : Set_ok r (NewSet [path]) = true) by (by apply NewSet_ok, Forall_singleton).
  assert (HasN : forall q, q <> [] -> Forall (pe_dom r) q ->
    Set_Has (NewSet [path]) q = true <-> exists p, p = [] /\ Path_Equals (path ++ p) q = true).
  { intros q Hne Hq. rewrite (Set_Has_NewSet r); [|by apply Forall_singleton|done..].
    cbn [existsb]. rewrite orb_false_r. split; [intros H; exists []; by rewrite app_nil_r|].
    intros (p & -> & H). by rewrite app_nil_r in H. }
  split_and!.
  - intros x. destruct w as [y|]; cbn [mergeAccumulated]; intros [= <-]; [|done].
    apply Set_Union_ok; [by apply Hw|done].
  - split; [intros _; right; by exists []|]. intros _. destruct w; simpl; eauto.
  - intros q Hne Hq. destruct w as [y|]; cbn [mergeAccumulated opt_Has].
    + pose proof (Hw y eq_refl) as [Hy _]%Set_ok_iff. apply Set_ok_iff in Hn as [Hn _].
      by rewrite (Set_Has_Union r), orb_true_iff, HasN.
    + rewrite HasN by done. split; [by right|]. by intros [?|?].
Qed.
End Accumulate.

Section Walker.
Context (r : Regime) (sc : Schema).

(** The two components of the state are the same set. *)
Definition runs_to (P : Path -> Prop) (path : Path) (w : recState)
    (res : Outcome (ValidationErrors * recState)) : Prop :=
  exists errs w', res = Ret (errs, w') /\ w'.1 = w'.2 /\
    accumulates r P path w.1 (mergeAccumulated w.1 w'.1).

(** One visited child: the state becomes the merged one. *)
Definition steps_to (P : Path -> Prop) (path : Path) (w : recState)
    (res : Outcome (ValidationErrors * recState)) : Prop :=
  exists errs w', res = Ret (errs, w') /\ w'.1 = w'.2 /\ accumulates r P path w.1 w'.1.

Variable rec : option FSet -> TypeRef -> Path -> bool -> recState -> Outcome (ValidationErrors * recState).

(** What the recursive call does on the children of [element]. *)
Definition rec_spec (element : FSet) : Prop :=
  forall pe isMember tr path w, (pe, isMember) ∈ items element ->
    Forall (pe_dom r) path -> w.1 = w.2 -> state_ok r w.1 ->
    runs_to (collapses sc (SetNodeMap_Get (Children element) pe) tr (owned_as_leaf element pe isMember))
      path w (rec (SetNodeMap_Get (Children element) pe) tr path (owned_as_leaf element pe isMember) w).

(** The paths of one child. *)
Definition below (typeOf : PathElement -> option TypeRef) (element : FSet) (item : PathElement * bool)
    (p : Path) : Prop :=
  exists tr' p', p = item.1 :: p' /\ typeOf item.1 = Some tr' /\
    collapses sc (SetNodeMap_Get (Children element) item.1) tr' (owned_as_leaf element item.1 item.2) p'.

Lemma handleElement_steps typeOf path element pe isMember errs w :
  rec_spec element -> (pe, isMember) ∈ items element ->
  Forall (pe_dom r) path -> pe_dom r pe -> w.1 = w.2 -> state_ok r w.1 ->
  steps_to (below typeOf element (pe, isMember)) path w
    (rec_handleElement rec typeOf path element pe isMember (errs, w)).
Proof.
  intros Hrec Hin Hp Hpe Ew Hw. unfold rec_handleElement.
  destruct (typeOf pe) as [tr|] eqn:Et.
  2:{ exists errs, w. split_and!; [done..|]. apply accumulates_nothing; [done|].
      intros p (tr' & p' & _ & E & _). simpl in E. congruence. }
  destruct (Hrec pe isMember tr (path ++ [pe]) w) as (errs' & w' & E & Ew' & Ha); [done| |done..|].
  { apply Forall_app; auto using Forall_singleton. }
  exists (errs ++ errs'), (finishDescent w w'). split_and!.
  - cbv zeta. unfold owned_as_leaf in E. cbn [snd].
    destruct (SetNodeMap_Get (Children element) pe); simpl in *; by rewrite E.
  - unfold finishDescent. simpl. by rewrite Ew, Ew'.
  - simpl. destruct Ha as (Hk & Hs & Hq). split_and!; [done| |].
    + rewrite Hs. split; (intros [?|[p H]]; [by left|right]).
      * exists (pe :: p), tr, p. done.
      * destruct H as (tr' & p' & -> & Et' & H). simpl in *. simplify_eq. eauto.
    + intros q Hne Hd. rewrite Hq by done. split; (intros [?|(p & H & HE)]; [by left|right]).
      * exists (pe :: p). split; [exists tr, p; done|]. by rewrite <-app_assoc in HE.
      * destruct H as (tr' & p' & -> & Et' & H). simpl in *. simplify_eq. exists p'.
        by rewrite <-app_assoc.
Qed.

(** The two loops are one over [items]. *)
Lemma visitItems_items typeOf path element w :
  rec_visitItems rec typeOf path element w =
  foldl (fun st item => st ← st; rec_handleElement rec typeOf path element item.1 item.2 st)
    (Ret ([], w)) (items element).
Proof.
  unfold rec_visitItems, items. rewrite foldl_app. cbv zeta.
  assert (HM : forall l st, foldl (fun st item => st ← st; rec_handleElement rec typeOf path element item.1 item.2 st) st
      ((fun pe => (pe, true)) <$> l) =
    foldl (fun st pe => st ← st; rec_handleElement rec typeOf path element pe true st) st l).
  { induction l as [|pe l IH]; intros st; [done|]. simpl. apply IH. }
  rewrite HM. f_equal. clear HM. generalize (Ret (A := ValidationErrors * recState) ([], w)) as st.
  induction ((Children element).*1) as [|pe l IH]; intros st; [done|]. simpl. rewrite filter_cons.
  destruct (PathElementSet_Has (Members element) pe); simpl; apply IH.
Qed.

Lemma items_steps typeOf path element l errs w :
  rec_spec element -> l ⊆ items element -> Forall (fun item => pe_dom r item.1) l ->
  Forall (pe_dom r) path -> w.1 = w.2 -> state_ok r w.1 ->
  steps_to (fun p => exists item, item ∈ l /\ below typeOf element item p) path w
    (foldl (fun st item => st ← st; rec_handleElement rec typeOf path element item.1 item.2 st)
      (Ret (errs, w)) l).
Proof.
  intros Hrec Hl Hd Hp. revert errs w. induction Hd as [|[pe b] l Hpe Hd IH]; intros errs w Ew Hw.
  { exists errs, w. split_and!; [done..|]. apply accumulates_nothing; [done|].
    by intros p (item & ?%not_elem_of_nil & _). }
  assert (Hpb : (pe, b) ∈ items element) by (apply Hl; left).
  destruct (handleElement_steps typeOf path element pe b errs w Hrec Hpb Hp Hpe Ew Hw)
    as (errs' & w' & E & Ew' & Ha).
  simpl. rewrite E.
  destruct (IH ltac:(intros x ?; apply Hl; by right) errs' w' Ew' (proj1 Ha)) as (errs'' & w'' & -> & Ew'' & Ha').
  exists errs'', w''. split_and!; [done..|].
  eapply accumulates_iff; [|by eapply accumulates_trans]. intros p. split.
  - intros [H|(item & Hin & H)]; [exists (pe, b); split; [left|done]|exists item; split; [by right|done]].
  - intros (item & [->|Hin]%elem_of_cons & H); [by left|right; eauto].
Qed.
End Walker.

Lemma items_dom r element :
  Set_wf r element = true -> Forall (fun item => pe_dom r item.1) (items element).
Proof.
  destruct element as [m c]. intros (Hm & Hc & _)%Set_wf_mk. apply slice_ok_dom in Hm, Hc.
  unfold items. apply Forall_app. split; apply Forall_fmap.
  - rewrite Forall_forall in Hc. apply Forall_forall.
    intros pe [_ (n & -> & Hn)%list_elem_of_fmap]%list_elem_of_filter. by apply Hc.
  - done.
Qed.

Lemma items_Get_wf r element item x :
  Set_wf r element = true -> SetNodeMap_Get (Children element) item = Some x -> Set_wf r x = true.
Proof.
  destruct element as [m c]. intros (Hm & Hc & F)%Set_wf_mk. unfold SetNodeMap_Get. cbn [Children].
  destruct (_ =? _)%nat; [done|]. destruct (c !! _) as [n|] eqn:E; [|done].
  destruct (PathElement_Equals n.1 item); [|done]. intros [= <-].
  apply list_elem_of_lookup_2 in E. rewrite Forall_forall in F. auto.
Qed.

Section Body.
Context (r : Regime) (sc : Schema)
  (rec : option FSet -> TypeRef -> Path -> bool -> recState -> Outcome (ValidationErrors * recState)).

(** A node of kind [k]: found atomic, visited, or left alone. *)
Lemma collapses_kind fs tr b a k p :
  Resolve sc tr = Some a -> atom_kind a = Some k ->
  collapses sc fs tr b p <->
  b = false /\ now_atomic k fs /\ p = [] \/
  exists element typeOf item, fs = Some element /\ visits k b = Some typeOf /\
    item ∈ items element /\ below sc typeOf element item p.
Proof.
  intros Ha Hk. split.
  - inversion 1; simplify_eq; [by left|]. right. do 3 eexists. split_and!; [done..|].
    by do 2 eexists.
  - intros [(-> & H & ->)|(element & typeOf & [pe m] & -> & Hv & Hin & tr' & p' & -> & Et & H)].
    + by eapply collapses_here.
    + by eapply collapses_below.
Qed.

Lemma visits_runs fs tr b a k typeOf path w :
  Resolve sc tr = Some a -> atom_kind a = Some k -> ~ (b = false /\ now_atomic k fs) ->
  visits k b = Some typeOf ->
  Forall (pe_dom r) path -> w.1 = w.2 -> state_ok r w.1 ->
  (forall element, fs = Some element -> Set_wf r element = true /\ rec_spec r sc rec element) ->
  runs_to r (collapses sc fs tr b) path w
    (match fs with Some element => rec_visitItems rec typeOf path element w | None => Ret ([], w) end).
Proof.
  intros Ha Hk Hn Hv Hp Ew Hw Hrec. destruct fs as [element|].
  - destruct (Hrec element eq_refl) as [Hwf Hs]. rewrite visitItems_items.
    destruct (items_steps r sc rec typeOf path element (items element) [] w) as (errs & w' & -> & Ew' & Hacc);
      auto using items_dom.
    exists errs, w'. split_and!; [done..|]. apply mergeAccumulated_accumulates; [done|].
    eapply accumulates_iff; [|exact Hacc]. intros p. rewrite (collapses_kind _ _ _ a k) by done. split.
    + intros (item & Hin & H). right. by exists element, typeOf, item.
    + intros [(? & ? & _)|(e & t & item & ? & ? & ? & ?)]; [tauto|]. simplify_eq. eauto.
  - exists [], w. split_and!; [done..|]. apply mergeAccumulated_accumulates; [done|].
    apply accumulates_nothing; [done|]. intros p. rewrite (collapses_kind _ _ _ a k) by done.
    intros [(? & ? & _)|(e & t & item & ? & _)]; [tauto|done].
Qed.

Lemma nothing_runs fs tr b path w errs :
  w.1 = w.2 -> state_ok r w.1 -> (forall p, ~ collapses sc fs tr b p) ->
  runs_to r (collapses sc fs tr b) path w (Ret (errs, w)).
Proof.
  intros Ew Hw Hn. exists errs, w. split_and!; [done..|].
  by apply mergeAccumulated_accumulates, accumulates_nothing.
Qed.

Lemma here_runs fs tr a k path w :
  Resolve sc tr = Some a -> atom_kind a = Some k -> now_atomic k fs -> visits k false = None ->
  Forall (pe_dom r) path -> state_ok r w.1 ->
  runs_to r (collapses sc fs tr false) path w (Ret ([], (Some (NewSet [path]), Some (NewSet [path])))).
Proof.
  intros Ha Hk Hn Hv Hp Hw. eexists [], _. split_and!; [done..|]. cbn [fst].
  eapply accumulates_iff; [|by apply collapse_accumulates]. intros p.
  rewrite (collapses_kind _ _ _ a k) by done. split; [naive_solver|].
  intros [(_ & _ & ?)|(e & t & item & _ & ? & _)]; congruence.
Qed.

Section OneNode.
Context (fs : option FSet) (tr : TypeRef) (b : bool) (path : Path) (w : recState) (a : Atom).
Hypothesis (Ha : Resolve sc tr = Some a) (Hp : Forall (pe_dom r) path).
Hypothesis (Ew : w.1 = w.2) (Hw : state_ok r w.1).
Hypothesis Hrec : forall element, fs = Some element -> Set_wf r element = true /\ rec_spec r sc rec element.

Lemma doList_runs t :
  atom_kind a = Some (KList t) ->
  runs_to r (collapses sc fs tr b) path w (rec_doList rec fs path b t w).
Proof.
  intros Hk. unfold rec_doList. destruct (negb b && string_eqb (l_ER t) Atomic) eqn:E.
  - pose proof E as [-> %negb_true_iff E']%andb_true_iff. apply string_eqb_true in E'.
    eapply here_runs; eauto. simpl. by rewrite E', string_eqb_refl.
  - eapply (visits_runs _ _ _ _ (KList t)); eauto.
    + simpl. intros [-> H]. by rewrite H, string_eqb_refl in E.
    + simpl. by rewrite E.
Qed.

Lemma doMap_runs t :
  atom_kind a = Some (KMap t) ->
  runs_to r (collapses sc fs tr b) path w (rec_doMap rec fs path b t w).
Proof.
  intros Hk. unfold rec_doMap. destruct (isUntypedDeducedMap t) eqn:Eu.
  { apply nothing_runs; [done..|]. intros p. rewrite (collapses_kind _ _ _ a (KMap t)) by done. simpl.
    rewrite Eu. naive_solver. }
  destruct (negb b && string_eqb (m_ER t) Atomic) eqn:E.
  - pose proof E as [-> %negb_true_iff E']%andb_true_iff. apply string_eqb_true in E'.
    assert (Hv : visits (KMap t) false = None) by (simpl; by rewrite Eu, E', string_eqb_refl).
    assert (Hno : (forall s, fs = Some s -> Set_Size s = 0%nat) -> forall p, ~ collapses sc fs tr false p).
    { intros H0 p. rewrite (collapses_kind _ _ _ a (KMap t)) by done. rewrite Hv.
      intros [(_ & (_ & _ & s & Es & Hlt) & _)|(e & ty & item & _ & ? & _)]; [|done].
      specialize (H0 s Es). lia. }
    destruct fs as [s|]; [|by apply nothing_runs, Hno].
    destruct (Nat.ltb_spec 0 (Set_Size s)).
    + eapply here_runs; eauto. simpl. eauto 6.
    + apply nothing_runs; [done..|]. apply Hno. intros ? [= <-]. lia.
  - eapply (visits_runs _ _ _ _ (KMap t)); eauto.
    + simpl. intros (-> & _ & H & _). by rewrite H, string_eqb_refl in E.
    + simpl. by rewrite Eu, E.
Qed.

Lemma body_runs : runs_to r (collapses sc fs tr b) path w (rec_body sc rec fs tr path b w).
Proof.
  unfold rec_body, handleAtom. rewrite Ha. pose proof doList_runs as HL. pose proof doMap_runs as HM.
  unfold atom_kind in HL, HM. destruct (a_Map a) as [m|] eqn:Em; [by apply HM|].
  destruct (a_Scalar a) as [s|] eqn:Es; [|destruct (a_List a) as [l|] eqn:El; [by apply HL|]].
  - apply nothing_runs; [done..|]. intros p. rewrite (collapses_kind _ _ _ a (KScalar s)); [|done|].
    + simpl. naive_solver.
    + unfold atom_kind. by rewrite Em, Es.
  - assert (Hk : atom_kind a = None) by (unfold atom_kind; by rewrite Em, Es, El).
    apply nothing_runs; [done..|]. intros p Hc. inversion Hc; congruence.
Qed.
End OneNode.
End Body.

Lemma reconcile_runs r sc fs tr path b w :
  (forall s, fs = Some s -> Set_wf r s = true) -> Forall (pe_dom r) path -> w.1 = w.2 -> state_ok r w.1 ->
  runs_to r (collapses sc fs tr b) path w (reconcile sc fs tr path b w).
Proof.
  remember (fsDepth fs) as n eqn:En. revert fs En tr path b w.
  induction n as [n IH] using lt_wf_ind. intros fs -> tr path b w Hfs Hp Ew Hw.
  rewrite reconcile_unfold. destruct (Resolve sc tr) as [a|] eqn:Ha.
  - eapply body_runs; eauto. intros element ->. split; [by apply Hfs|].
    intros pe isMember tr' path' w' _ Hp' Ew' Hw'. eapply IH; eauto.
    + apply Get_depth.
    + intros s. apply items_Get_wf. by apply Hfs.
  - unfold rec_body. rewrite Ha. apply nothing_runs; [done..|].
    intros p Hc. inversion Hc; congruence.
Qed.

(** ** The reconciled set *)

(** [q] is a field that collapses. *)
Definition collapsed (sc : Schema) (fs : FSet) (tr : TypeRef) (q : Path) : Prop :=
  exists p, collapses sc (Some fs) tr false p /\ Path_Equals p q = true.

(** [q] or a field above it collapses. *)
Definition inside_collapsed (sc : Schema) (fs : FSet) (tr : TypeRef) (q : Path) : Prop :=
  exists q', q' ∈ path_prefixes q /\ collapsed sc fs tr q'.

Lemma path_prefixes_dom r p q : Forall (pe_dom r) p -> q ∈ path_prefixes p -> Forall (pe_dom r) q.
Proof.
  intros Hp. revert q. induction Hp as [|pe p Hpe Hp IH]; intros q; simpl; [by intros ?%not_elem_of_nil|].
  intros [->|(x & -> & Hx)%list_elem_of_fmap]%elem_of_cons; constructor; auto.
Qed.

Lemma reconcile_answers r sc fs tr :
  Set_ok r fs = true ->
  exists res, ReconcileFieldSetWithSchema fs sc tr = Ret res /\
    match res with
    | inl errs => errs <> []
    | inr None => forall p, ~ collapses sc (Some fs) tr false p
    | inr (Some out) =>
      Set_ok r out = true /\ (exists p, collapses sc (Some fs) tr false p) /\
      forall q, q <> [] -> Forall (pe_dom r) q ->
        Set_Has out q = true <->
        Set_Has fs q = true /\ ~ inside_collapsed sc fs tr q \/ collapsed sc fs tr q
    end.
Proof.
  intros Hok. pose proof Hok as [Hwf _]%Set_ok_iff.
  destruct (reconcile_runs r sc (Some fs) tr [] false (None, None)) as (errs & [w1 w2] & E & Ew & Hk & Hs & Hq);
    [by intros s [= <-]|done..|].
  unfold ReconcileFieldSetWithSchema. rewrite E. cbn [mbind Outcome_bind]. eexists. split; [done|].
  destruct errs as [|e errs]; [|done]. cbn [length Nat.ltb Nat.leb].
  simpl in Ew, Hk, Hs, Hq. subst w2.
  replace (match w1 with Some x => Some x | None => None end) with w1 in * by (by destruct w1).
  destruct w1 as [x|]; simpl in *.
  - specialize (Hk x eq_refl). pose proof Hk as [Hxw _]%Set_ok_iff.
    split_and!; [by auto using Set_Union_ok, Set_RecursiveDifference_ok|naive_solver|].
    assert (HX : forall q, q <> [] -> Forall (pe_dom r) q -> Set_Has x q = true <-> collapsed sc fs tr q).
    { intros q Hne Hd. rewrite Hq by done. unfold collapsed. naive_solver. }
    intros q Hne Hd. rewrite (Set_Has_Union r), (Set_Has_RecursiveDifference r)
      by auto using Set_RecursiveDifference_wf.
    rewrite orb_true_iff, andb_true_iff, negb_true_iff, HX by done.
    assert (HC : covered x q = false <-> ~ inside_collapsed sc fs tr q); [|by rewrite HC].
    unfold covered, inside_collapsed. rewrite <-not_true_iff_false, existsb_exists.
    apply not_iff_compat. split; intros (q' & Hin & H); exists q'.
    + apply list_elem_of_In in Hin. split; [done|].
      apply HX; eauto using path_prefixes_nonnil, path_prefixes_dom.
    + split; [by apply list_elem_of_In|]. apply HX; eauto using path_prefixes_nonnil, path_prefixes_dom.
  - intros p Hp. destruct (proj2 Hs) as [? ?]; [eauto|done].
Qed.
