(* ===== verification/Typed.v ===== *)
(** * Package typed: typed values

    Models [typed/typed.go] (and the entry point of
    [typed/reconcile_schema.go] on a typed value).  A [*schema.Schema] is
    compared by address, so it carries one.  A nil [value.Value] is [None]; a
    nil [*TypedValue] is treated by the callers. *)
From S2P Require Import Prelude GoLib GoFloat Value ValueOrder PathElement SortedSlice FieldSet.
From S2P Require Import FieldSetSpec FieldSetOps FieldSetInsert Schema TypedHelpers Validate ToFieldSet Remove.
From S2P Require Import Compare Merge Reconcile.

(** A non-nil [*schema.Schema]: its address and what it points to. *)
Record SchemaPtr := mkSchemaPtr { sp_addr : nat; sp_schema : Schema }.

Definition SchemaPtr_eqb (a b : SchemaPtr) : bool := (sp_addr a =? sp_addr b)%nat.

Record TypedValue := mkTypedValue {
  tv_value : option value;
  tv_typeRef : TypeRef;
  tv_schema : SchemaPtr;
}.

(** ** Results with errors *)

(** A Go function with results [A] and an error: it panics, fails or succeeds. *)
Abbreviation Result E A := (Outcome (E + A)%type).

Definition ok {E A} (a : A) : Result E A := Ret (inr a).
Definition fail {E A} (e : E) : Result E A := Ret (inl e).

Definition bindR {E A B} (m : Result E A) (f : A -> Result E B) : Result E B :=
  match m with
  | Panic => Panic
  | Ret (inl e) => Ret (inl e)
  | Ret (inr a) => f a
  end.

(** [fmt.Errorf("...: %v", err)]. *)
Definition wrap {E E' A} (w : E -> E') (m : Result E A) : Result E' A :=
  match m with
  | Panic => Panic
  | Ret (inl e) => Ret (inl (w e))
  | Ret (inr a) => Ret (inr a)
  end.

Notation "x <- m ;; k" := (bindR m (fun x => k)) (at level 100, m at next level, right associativity).

(** ** Validation *)

Abbreviation ValidationOptions := Z.
Definition AllowDuplicates : ValidationOptions := 0.

Definition TypedValue_Validate (tv : TypedValue) (opts : list ValidationOptions) : Result ValidationErrors unit :=
  let allowDuplicates := existsb (fun opt => opt =? AllowDuplicates) opts in
  errs ← validate (sp_schema (tv_schema tv)) allowDuplicates (tv_typeRef tv) (tv_value tv) None;
  if negb (length errs =? 0)%nat then fail errs else ok tt.

Definition AsTyped (v : option value) (s : SchemaPtr) (tr : TypeRef) (opts : list ValidationOptions) :
    Result ValidationErrors TypedValue :=
  let tv := mkTypedValue v tr s in
  _ <- TypedValue_Validate tv opts;; ok tv.

Definition AsTypedUnvalidated (v : option value) (s : SchemaPtr) (tr : TypeRef) : TypedValue :=
  mkTypedValue v tr s.

(** ** Operations *)

Definition TypedValue_ToFieldSet (tv : TypedValue) : Result ValidationErrors FSet :=
  res ← toFieldSet (sp_schema (tv_schema tv)) (tv_typeRef tv) (tv_value tv) [] (NewSet []);
  if negb (length res.1 =? 0)%nat then fail res.1 else ok res.2.

(** The guard of [Compare] and [merge]. *)
Definition same_type (lhs rhs : TypedValue) : Result ValidationErrors unit :=
  if negb (SchemaPtr_eqb (tv_schema lhs) (tv_schema rhs)) then fail (errorf MsgDifferentSchemas)
  else if negb (TypeRef_Equals (tv_typeRef lhs) (tv_typeRef rhs)) then fail (errorf MsgDifferentTypes)
  else ok tt.

Definition TypedValue_Compare (lhs rhs : TypedValue) : Result ValidationErrors Comparison :=
  _ <- same_type lhs rhs;;
  res ← compare (sp_schema (tv_schema lhs)) (tv_typeRef lhs) (tv_value lhs) (tv_value rhs) [] false None
    (mkComparison (NewSet []) (NewSet []) (NewSet []));
  if (0 <? length res.1)%nat then fail res.1 else ok res.2.

(** The function [merge] of [typed.go], which drives the walker. *)
Definition typed_merge (lhs rhs : TypedValue) (rule : mergeRule) (postRule : option mergeRule) :
    Result ValidationErrors TypedValue :=
  _ <- same_type lhs rhs;;
  res ← merge (sp_schema (tv_schema lhs)) rule postRule (tv_typeRef lhs) (tv_value lhs) (tv_value rhs) false None;
  if (0 <? length res.1)%nat then fail res.1
  else ok (mkTypedValue res.2 (tv_typeRef lhs) (tv_schema lhs)).

Definition TypedValue_Merge (tv pso : TypedValue) : Result ValidationErrors TypedValue :=
  typed_merge tv pso ruleKeepRHS None.

(** [removeItemsWithSchema] on a value that may be nil: every handler calls a
    method of the value. *)
Definition removeItemsOf (tv : TypedValue) (items : FSet) (shouldExtract : bool) : Outcome value :=
  let sc := sp_schema (tv_schema tv) in
  match tv_value tv with
  | Some v => Ret (removeItemsWithSchema v items sc (tv_typeRef tv) shouldExtract)
  | None =>
    res ← resolveSchema sc (tv_typeRef tv) None (mkAtomHandler (fun _ _ => Panic) (fun _ _ => Panic) (fun _ _ => Panic)) tt;
    Ret VNull
  end.

Definition withValue (tv : TypedValue) (v : value) : TypedValue :=
  mkTypedValue (Some v) (tv_typeRef tv) (tv_schema tv).

Definition TypedValue_RemoveItems (tv : TypedValue) (items : FSet) : Outcome TypedValue :=
  v ← removeItemsOf tv items false; Ret (withValue tv v).

Definition TypedValue_ExtractItems (tv : TypedValue) (items : FSet) : Outcome TypedValue :=
  v ← removeItemsOf tv items true; Ret (withValue tv v).

Definition TypedValue_Empty (tv : TypedValue) : TypedValue := withValue tv VNull.

(** [typed.ReconcileFieldSetWithSchema] on a typed value. *)
Definition Reconcile_TypedValue (fieldset : FSet) (tv : TypedValue) : Result ValidationErrors (option FSet) :=
  ReconcileFieldSetWithSchema fieldset (sp_schema (tv_schema tv)) (tv_typeRef tv).
