(* ===== verification/Parser.v ===== *)
(** * Package typed: parsers

    Models [typed/parser.go], less [FromStructured].  Decoding YAML is the work
    of the library yaml.v2, which is a parameter ([YamlLib]): [unmarshalValue] is
    [yaml.Unmarshal] into an [interface{}], [unmarshalSchema] into a
    [schema.Schema].  The literals that the package itself decodes are given as
    the schemas they describe. *)
From S2P Require Import Prelude GoLib GoFloat Value ValueOrder PathElement SortedSlice FieldSet.
From S2P Require Import FieldSetSpec FieldSetOps FieldSetInsert Schema TypedHelpers Validate ToFieldSet Remove.
From S2P Require Import Compare Merge Reconcile Typed.

(** An object or a schema encoded in YAML. *)
Abbreviation YAMLObject := string.

Class YamlLib := {
  YamlError : Type;
  unmarshalValue : YAMLObject -> YamlError + value;
  unmarshalSchema : YAMLObject -> YamlError + Schema;
}.

(** ** Parseable types *)

Record ParseableType := mkParseableType { pt_TypeRef : TypeRef; pt_Schema : SchemaPtr }.

Definition ParseableType_IsValid (p : ParseableType) : bool :=
  match Resolve (sp_schema (pt_Schema p)) (pt_TypeRef p) with Some _ => true | None => false end.

(** A nil [interface{}] is the null value. *)
Definition FromUnstructured (p : ParseableType) (v : value) (opts : list ValidationOptions) :
    Result ValidationErrors TypedValue :=
  AsTyped (Some v) (pt_Schema p) (pt_TypeRef p) opts.

(** ** Parsers *)

(** A [*Parser]: the address of its schema is that of the parser. *)
Record Parser := mkParser { p_Schema : SchemaPtr }.

Definition TypeNames (p : Parser) : list string := td_Name <$> Types (sp_schema (p_Schema p)).

Definition Parser_Type (p : Parser) (name : string) : ParseableType :=
  mkParseableType (mkTypeRef (Some name) Atom0 None) (p_Schema p).

Section Yaml.
Context {Y : YamlLib}.

Inductive ParseError :=
  | ErrYaml (e : YamlError)
  | ErrInvalidObject (errs : ValidationErrors)
  | ErrInvalidSchema (e : ParseError).

Definition FromYAML (p : ParseableType) (object : YAMLObject) (opts : list ValidationOptions) :
    Result ParseError TypedValue :=
  match unmarshalValue object with
  | inl e => fail (ErrYaml e)
  | inr v => wrap ErrInvalidObject (AsTyped (Some v) (pt_Schema p) (pt_TypeRef p) opts)
  end.

(** [addr] is the address of the new parser. *)
Definition create (addr : nat) (s : YAMLObject) : Result ParseError Parser :=
  match unmarshalSchema s with
  | inl e => fail (ErrYaml e)
  | inr sc => ok (mkParser (mkSchemaPtr addr sc))
  end.

(** [ssParser] is the parser of the schema of schemas. *)
Definition NewParser (ssParser : Parser) (addr : nat) (s : YAMLObject) : Result ParseError Parser :=
  _ <- wrap ErrInvalidSchema (FromYAML (Parser_Type ssParser "schema") s []);; create addr s.
End Yaml.

(** ** Deduced types *)

Definition untypedAtomic : TypeRef := mkTypeRef (Some "__untyped_atomic_"%string) Atom0 None.
Definition untypedDeduced : TypeRef := mkTypeRef (Some "__untyped_deduced_"%string) Atom0 None.

(** The schema of [DeducedParseableType]: maps are granular, lists are atomic. *)
Definition deducedSchema : Schema := mkSchema [
  mkTypeDef "__untyped_atomic_" (mkAtom (Some Untyped)
    (Some (mkListT untypedAtomic Atomic [])) (Some (mkMapT None [] untypedAtomic Atomic)));
  mkTypeDef "__untyped_deduced_" (mkAtom (Some Untyped)
    (Some (mkListT untypedAtomic Atomic [])) (Some (mkMapT None [] untypedDeduced Separable)))].

Definition DeducedParseableType (addr : nat) : ParseableType :=
  Parser_Type (mkParser (mkSchemaPtr addr deducedSchema)) "__untyped_deduced_".

(** A conforming value is accepted. *)
Lemma AsTyped_conforms v sp tr :
  conforms (sp_schema sp) false tr v -> AsTyped (Some v) sp tr [] = ok (mkTypedValue (Some v) tr sp).
Proof.
  intros Hc. unfold AsTyped, TypedValue_Validate. cbn [existsb tv_schema tv_typeRef tv_value].
  destruct (validate_decides (sp_schema sp) false v tr None) as (errs & -> & H). by rewrite (proj2 H Hc).
Qed.
