(* ===== verification/Updater.v ===== *)
(** * Package merge: conflicts and the updater

    Models [merge/conflict.go] and [merge/update.go].  The [Converter] is a
    parameter: a pure function that returns an object (possibly nil) with an
    optional error, and a classifier of errors.  Every [range] over a Go map
    follows an order the runtime chooses, one for each loop of the source: the
    orders are the argument [Ranges].  A nil [*TypedValue] is [None]. *)
From stdpp Require Import gmap.
From S2P Require Import Prelude GoLib GoFloat Value ValueOrder PathElement SortedSlice FieldSet.
From S2P Require Import FieldSetSpec FieldSetOps FieldSetInsert FieldSetIter Managers Schema FieldSetSchema TypedHelpers.
From S2P Require Import Compare Typed.

(** ** Conflicts *)

Record Conflict := mkConflict { c_Manager : string; c_Path : Path }.
Abbreviation Conflicts := (list Conflict).

Definition Conflict_Equals (c c2 : Conflict) : bool :=
  if negb (string_eqb (c_Manager c) (c_Manager c2)) then false else Path_Equals (c_Path c) (c_Path c2).

Definition Conflicts_Equals (c c2 : Conflicts) : bool :=
  if negb (length c =? length c2)%nat then false else slicesEqual Conflict_Equals c c2.

Definition Conflicts_ToSet (c : Conflicts) : FSet :=
  foldl (fun set conflict => Set_Insert set (c_Path conflict)) (NewSet []) c.

(** [l] is the order of the range over the sets. *)
Definition ConflictsFromManagers (l : list (string * VersionedSet)) : Conflicts :=
  foldl (fun conflicts '(manager, set) =>
    foldl (fun conflicts p => conflicts ++ [mkConflict manager p]) conflicts (Set_Iterate (VSet set))) [] l.

(** ** Ranges over maps *)

(** The loops of [update.go] over a [ManagedFields]. *)
Inductive Site := SiteUpdate | SiteConflicts | SiteRemoved | SiteEmpty | SiteConflictError | SiteAddBack | SiteReconcile.

Record Ranges := mkRanges {
  range : Site -> ManagedFields -> list (string * VersionedSet);
  rangeVersions : gmap string FSet -> list (string * FSet);
}.

(** A range visits every entry once. *)
Class RangesOk (R : Ranges) := {
  range_enumerates site m : enumerates (range R site m) m;
  rangeVersions_enumerates m : rangeVersions R m ≡ₚ map_to_list m;
}.

(** ** The updater *)

(** What [Converter] provides. *)
Record Converter (E : Type) := mkConverter {
  Convert : option TypedValue -> string -> option TypedValue * option E;
  IsMissingVersionError : option E -> bool;
}.
#[global] Arguments mkConverter {E}.
#[global] Arguments Convert {E}.
#[global] Arguments IsMissingVersionError {E}.

Record Updater (E : Type) := mkUpdater {
  u_Converter : Converter E;
  IgnoredFields : gmap string FSet;
  returnInputOnNoop : bool;
}.
#[global] Arguments mkUpdater {E}.
#[global] Arguments u_Converter {E}.
#[global] Arguments IgnoredFields {E}.
#[global] Arguments returnInputOnNoop {E}.

Inductive UpdateError (E : Type) :=
  | ErrConvert (e : E)
  | ErrConvertOld (e : E)
  | ErrConvertNew (e : E)
  | ErrConvertMerged (e : E)
  | ErrConvertPruned (e : E)
  | ErrCompare (errs : ValidationErrors)
  | ErrConflicts (conflicts : Conflicts)
  | ErrReconcile (errs : ValidationErrors)
  | ErrMerge (errs : ValidationErrors)
  | ErrFieldSet (errs : ValidationErrors)
  | ErrPrune (e : UpdateError E)
  | ErrAddBackOwned (e : UpdateError E)
  | ErrAddBackDangling (e : UpdateError E).
#[global] Arguments ErrConvert {E}.
#[global] Arguments ErrConvertOld {E}.
#[global] Arguments ErrConvertNew {E}.
#[global] Arguments ErrConvertMerged {E}.
#[global] Arguments ErrConvertPruned {E}.
#[global] Arguments ErrCompare {E}.
#[global] Arguments ErrConflicts {E}.
#[global] Arguments ErrReconcile {E}.
#[global] Arguments ErrMerge {E}.
#[global] Arguments ErrFieldSet {E}.
#[global] Arguments ErrPrune {E}.
#[global] Arguments ErrAddBackOwned {E}.
#[global] Arguments ErrAddBackDangling {E}.

(** Dereference of a pointer. *)
Definition deref {A} (p : option A) : Outcome A := match p with Some a => Ret a | None => Panic end.

(** A loop whose body may fail. *)
Fixpoint foldlR {E A B} (f : A -> B -> Result E A) (a : A) (l : list B) : Result E A :=
  match l with
  | [] => ok a
  | b :: l' => a <- f a b;; foldlR f a l'
  end.

Record updState := mkUpdState {
  us_managers : ManagedFields;
  us_versions : gmap string Comparison;
  us_conflicts : ManagedFields;
  us_removed : ManagedFields;
}.

Section Updater.
Context {E : Type} (R : Ranges) (s : Updater E).

Definition comparePtr (oldObject newObject : option TypedValue) : Result (UpdateError E) Comparison :=
  o ← deref oldObject; n ← deref newObject; wrap ErrCompare (TypedValue_Compare o n).

(** The comparison of the objects at another version, [None] for a missing version. *)
Definition compareAt (oldObject newObject : option TypedValue) (version : string) :
    Result (UpdateError E) (option Comparison) :=
  let '(versionedOldObject, err) := Convert (u_Converter s) oldObject version in
  match err with
  | Some e => if IsMissingVersionError (u_Converter s) err then ok None else fail (ErrConvertOld e)
  | None =>
    let '(versionedNewObject, err) := Convert (u_Converter s) newObject version in
    match err with
    | Some e => if IsMissingVersionError (u_Converter s) err then ok None else fail (ErrConvertNew e)
    | None =>
      compare <- comparePtr versionedOldObject versionedNewObject;;
      ok (Some (ExcludeFields compare (IgnoredFields s !! version)))
    end
  end.

(** One iteration of the first loop of [update]. *)
Definition update_visit (oldObject newObject : option TypedValue) (workflow : string)
    (st : updState) (entry : string * VersionedSet) : Result (UpdateError E) updState :=
  let '(manager, managerSet) := entry in
  if string_eqb manager workflow then ok st
  else
    cached <- match us_versions st !! APIVersion managerSet with
      | Some compare => ok (Some (compare, us_versions st))
      | None =>
        compare <- compareAt oldObject newObject (APIVersion managerSet);;
        ok (match compare with
          | Some c => Some (c, <[APIVersion managerSet := c]> (us_versions st))
          | None => None
          end)
      end;;
    match cached with
    | None => ok (mkUpdState (delete manager (us_managers st)) (us_versions st) (us_conflicts st) (us_removed st))
    | Some (compare, versions) =>
      let conflictSet := Set_Intersection (VSet managerSet) (Set_Union (Modified compare) (Added compare)) in
      let conflicts :=
        if negb (Set_Empty conflictSet)
        then <[manager := NewVersionedSet conflictSet (APIVersion managerSet) false]> (us_conflicts st)
        else us_conflicts st in
      let removed :=
        if negb (Set_Empty (Removed compare))
        then <[manager := NewVersionedSet (Removed compare) (APIVersion managerSet) false]> (us_removed st)
        else us_removed st in
      ok (mkUpdState (us_managers st) versions conflicts removed)
    end.

(** One iteration of the loops that take fields from a manager. *)
Definition subtract (managers : ManagedFields) (entry : string * VersionedSet) : Result (UpdateError E) ManagedFields :=
  let '(manager, set) := entry in
  m ← deref (managers !! manager);
  ok (<[manager := NewVersionedSet (Set_Difference (VSet m) (VSet set)) (APIVersion m) (Applied m)]> managers).

(** One iteration of the last loop. *)
Definition dropEmpty (managers : ManagedFields) (entry : string * VersionedSet) : Result (UpdateError E) ManagedFields :=
  m ← deref (managers !! entry.1);
  ok (if Set_Empty (VSet m) then delete entry.1 managers else managers).

Definition update (oldObject newObject : option TypedValue) (version : string) (managers : ManagedFields)
    (workflow : string) (force : bool) : Result (UpdateError E) (ManagedFields * Comparison) :=
  compare <- comparePtr oldObject newObject;;
  let compare := ExcludeFields compare (IgnoredFields s !! version) in
  st <- foldlR (update_visit oldObject newObject workflow)
    (mkUpdState managers {[version := compare]} ∅ ∅) (range R SiteUpdate managers);;
  let conflicts := us_conflicts st in
  if negb force && negb (size conflicts =? 0)%nat then
    fail (ErrConflicts (ConflictsFromManagers (range R SiteConflictError conflicts)))
  else
    managers <- foldlR subtract (us_managers st) (range R SiteConflicts conflicts);;
    managers <- foldlR subtract managers (range R SiteRemoved (us_removed st));;
    managers <- foldlR dropEmpty managers (range R SiteEmpty managers);;
    ok (managers, compare).

(** One iteration of [reconcileManagedFieldsWithSchemaChanges]. *)
Definition reconcile_visit (liveObject : option TypedValue) (result : ManagedFields)
    (entry : string * VersionedSet) : Result (UpdateError E) ManagedFields :=
  let '(manager, versionedSet) := entry in
  let '(tv, err) := Convert (u_Converter s) liveObject (APIVersion versionedSet) in
  if IsMissingVersionError (u_Converter s) err then ok result
  else
    match err with
    | Some e => fail (ErrConvert e)
    | None =>
      tv ← deref tv;
      reconciled <- wrap ErrReconcile (Reconcile_TypedValue (VSet versionedSet) tv);;
      ok (<[manager := match reconciled with
        | Some x => NewVersionedSet x (APIVersion versionedSet) (Applied versionedSet)
        | None => versionedSet
        end]> result)
    end.

Definition reconcileManagedFieldsWithSchemaChanges (liveObject : option TypedValue) (managers : ManagedFields) :
    Result (UpdateError E) ManagedFields :=
  foldlR (reconcile_visit liveObject) ∅ (range R SiteReconcile managers).

(** [Update]: the new object and the managers. *)
Definition Update (liveObject newObject : option TypedValue) (version : string) (managers : ManagedFields)
    (manager : string) : Result (UpdateError E) (option TypedValue * ManagedFields) :=
  managers <- reconcileManagedFieldsWithSchemaChanges liveObject managers;;
  res <- update liveObject newObject version managers manager true;;
  let '(managers, compare) := res in
  let own := match managers !! manager with
    | Some m => m
    | None => NewVersionedSet (NewSet []) version false
    end in
  let ignored := default (NewSet []) (IgnoredFields s !! version) in
  let set := Set_RecursiveDifference
    (Set_Union (Set_Union (Set_Difference (VSet own) (Removed compare)) (Modified compare)) (Added compare))
    ignored in
  let managers := <[manager := NewVersionedSet set version false]> managers in
  ok (newObject, if Set_Empty set then delete manager managers else managers).

(** [addBackOwnedItemsForVersion]: [merged] and [pruned]. *)
Definition addBackOwnedItemsForVersion (merged pruned : option TypedValue) (version : string) (managed : FSet) :
    Result (UpdateError E) (option TypedValue * option TypedValue) :=
  let '(merged, err) := Convert (u_Converter s) merged version in
  match err with
  | Some e => if IsMissingVersionError (u_Converter s) err then ok (merged, pruned) else fail (ErrConvertMerged e)
  | None =>
    let '(pruned, err) := Convert (u_Converter s) pruned version in
    match err with
    | Some e => if IsMissingVersionError (u_Converter s) err then ok (merged, pruned) else fail (ErrConvertPruned e)
    | None =>
      m ← deref merged;
      mergedSet <- wrap ErrFieldSet (TypedValue_ToFieldSet m);;
      p ← deref pruned;
      prunedSet <- wrap ErrFieldSet (TypedValue_ToFieldSet p);;
      let ensure := Set_EnsureNamedFieldsAreMembers (sp_schema (tv_schema m)) (tv_typeRef m) in
      pruned ← TypedValue_RemoveItems m
        (Set_Difference (ensure mergedSet) (Set_Union (ensure prunedSet) (ensure managed)));
      ok (merged, Some pruned)
    end
  end.

(** The sets of the managers, by version. *)
Definition managedAtVersion (l : list (string * VersionedSet)) : gmap string FSet :=
  foldl (fun acc entry =>
    let v := APIVersion entry.2 in
    let acc := match acc !! v with Some _ => acc | None => <[v := NewSet []]> acc end in
    <[v := Set_Union (default (NewSet []) (acc !! v)) (VSet entry.2)]> acc) ∅ l.

Definition addBackOwnedItems (merged pruned : option TypedValue) (prunedVersion : string)
    (managedFields : ManagedFields) (applyingManager : string) : Result (UpdateError E) (option TypedValue) :=
  let atVersion := managedAtVersion (range R SiteAddBack managedFields) in
  res <- match atVersion !! prunedVersion with
    | Some managed =>
      res <- addBackOwnedItemsForVersion merged pruned prunedVersion managed;;
      ok (res, delete prunedVersion atVersion)
    | None => ok ((merged, pruned), atVersion)
    end;;
  let '(mp, atVersion) := res in
  mp <- foldlR (fun mp entry => addBackOwnedItemsForVersion mp.1 mp.2 entry.1 entry.2) mp
    (rangeVersions R atVersion);;
  ok mp.2.

Definition addBackDanglingItems (merged pruned : option TypedValue) (lastSet : VersionedSet) :
    Result (UpdateError E) (option TypedValue) :=
  let '(convertedPruned, err) := Convert (u_Converter s) pruned (APIVersion lastSet) in
  match err with
  | Some e => if IsMissingVersionError (u_Converter s) err then ok merged else fail (ErrConvertPruned e)
  | None =>
    p ← deref convertedPruned;
    prunedSet <- wrap ErrFieldSet (TypedValue_ToFieldSet p);;
    m ← deref merged;
    mergedSet <- wrap ErrFieldSet (TypedValue_ToFieldSet m);;
    let ensure := Set_EnsureNamedFieldsAreMembers (sp_schema (tv_schema m)) (tv_typeRef m) in
    out ← TypedValue_RemoveItems m
      (Set_Intersection (Set_Difference (ensure mergedSet) (ensure prunedSet)) (ensure (VSet lastSet)));
    ok (Some out)
  end.

(** [prune]; a nil [lastSet] is [None]. *)
Definition prune (merged : option TypedValue) (managers : ManagedFields) (applyingManager : string)
    (lastSet : option VersionedSet) : Result (UpdateError E) (option TypedValue) :=
  match lastSet with
  | None => ok merged
  | Some lastSet =>
    if Set_Empty (VSet lastSet) then ok merged
    else
      let version := APIVersion lastSet in
      let '(convertedMerged, err) := Convert (u_Converter s) merged version in
      match err with
      | Some e => if IsMissingVersionError (u_Converter s) err then ok merged else fail (ErrConvertMerged e)
      | None =>
        m ← deref convertedMerged;
        pruned ← TypedValue_RemoveItems m
          (Set_EnsureNamedFieldsAreMembers (sp_schema (tv_schema m)) (tv_typeRef m) (VSet lastSet));
        pruned <- wrap ErrAddBackOwned
          (addBackOwnedItems convertedMerged (Some pruned) version managers applyingManager);;
        pruned <- wrap ErrAddBackDangling (addBackDanglingItems convertedMerged pruned lastSet);;
        applying ← deref (managers !! applyingManager);
        let '(out, err) := Convert (u_Converter s) pruned (APIVersion applying) in
        match err with Some e => fail (ErrConvert e) | None => ok out end
      end
  end.

(** [value.EqualsUsing] on values that may be nil. *)
Definition EqualsPtr (lhs rhs : option value) : Outcome bool :=
  l ← deref lhs; r ← deref rhs; Ret (Equals l r).

Definition Apply (liveObject configObject : option TypedValue) (version : string) (managers : ManagedFields)
    (manager : string) (force : bool) : Result (UpdateError E) (option TypedValue * ManagedFields) :=
  managers <- reconcileManagedFieldsWithSchemaChanges liveObject managers;;
  live ← deref liveObject;
  config ← deref configObject;
  newObject <- wrap ErrMerge (TypedValue_Merge live config);;
  let lastSet := managers !! manager in
  set <- wrap ErrFieldSet (TypedValue_ToFieldSet config);;
  let set := match IgnoredFields s !! version with
    | Some ignored => Set_RecursiveDifference set ignored
    | None => set
    end in
  let managers := <[manager := NewVersionedSet set version true]> managers in
  newObject <- wrap ErrPrune (prune (Some newObject) managers manager lastSet);;
  res <- update liveObject newObject version managers manager force;;
  let '(managers, _) := res in
  if returnInputOnNoop s then ok (newObject, managers)
  else
    new ← deref newObject;
    same ← EqualsPtr (tv_value live) (tv_value new);
    Ret (inr (if (same : bool) then None else newObject, managers)).
End Updater.
