(* ===== verification/UpdaterSpec.v ===== *)
(** * Package merge: what an update does to the managers

    The loops of [update] write, for each manager they visit, only the entry of
    that manager; so the outcome of each is a function of the entry, whatever
    the order of the visits.  [updated] is that function for the whole of
    [update]. *)
From stdpp Require Import gmap.
From S2P Require Import Prelude GoLib GoFloat Value ValueOrder PathElement SortedSlice FieldSet.
From S2P Require Import FieldSetSpec FieldSetOps FieldSetInsert FieldSetIter Managers Schema FieldSetSchema TypedHelpers.
From S2P Require Import Compare CompareOk Typed Updater.

(** ** Loops that write the visited key only *)
Section OwnKey.
Context {E S B V : Type} (f : S -> string * B -> Result E S) (Inv : S -> Prop)
  (view : S -> string -> V) (upd : string -> B -> V -> V) (Pre : string -> B -> V -> Prop).
Hypothesis Hf : forall st k b, Inv st -> Pre k b (view st k) ->
  exists st', f st (k, b) = ok st' /\ Inv st' /\ view st' k = upd k b (view st k) /\
    forall k', k' <> k -> view st' k' = view st k'.

Lemma foldlR_own_key l st :
  NoDup l.*1 -> Inv st -> Forall (fun e => Pre e.1 e.2 (view st e.1)) l ->
  exists st', foldlR f st l = ok st' /\ Inv st' /\
    forall k, view st' k = match list_to_map (M := gmap string B) l !! k with
      | Some b => upd k b (view st k)
      | None => view st k
      end.
Proof.
  revert st. induction l as [|[k b] l IH]; intros st ND HI F; [by exists st|].
  apply NoDup_cons in ND as [Hn ND]. apply Forall_cons in F as [Hk F]. simpl in Hk.
  destruct (Hf st k b HI Hk) as (st1 & E1 & HI1 & Hv & Ho). cbn [foldlR]. rewrite E1. cbn [ok bindR].
  destruct (IH st1 ND HI1) as (st2 & E2 & HI2 & Hv2).
  { rewrite Forall_forall in F. apply Forall_forall. intros [k' b'] He. simpl. rewrite Ho; [by apply (F (k', b'))|].
    intros ->. apply Hn. by apply (list_elem_of_fmap_2 fst) in He. }
  exists st2. split_and!; [done..|]. intros k'. rewrite Hv2, list_to_map_cons.
  destruct (decide (k' = k)) as [->|Hne].
  - rewrite lookup_insert_eq, (not_elem_of_list_to_map_1 _ _ Hn). done.
  - rewrite lookup_insert_ne by done. rewrite Ho by done. done.
Qed.

Lemma foldlR_own_key_enum l m st :
  l ≡ₚ map_to_list m -> Inv st -> (forall k b, m !! k = Some b -> Pre k b (view st k)) ->
  exists st', foldlR f st l = ok st' /\ Inv st' /\
    forall k, view st' k = match m !! k with Some b => upd k b (view st k) | None => view st k end.
Proof.
  intros El HI HP. assert (ND : NoDup l.*1) by (rewrite El; apply NoDup_fst_map_to_list).
  destruct (foldlR_own_key l st ND HI) as (st' & E1 & HI' & Hv).
  { apply Forall_forall. intros [k b] He. apply HP, elem_of_map_to_list. by rewrite <-El. }
  exists st'. split_and!; [done..|]. intros k. rewrite Hv.
  by rewrite (list_to_map_proper l (map_to_list m) ND El), list_to_map_to_list.
Qed.
End OwnKey.

(** ** The outcome for one manager *)
Section Outcome.
Context {E : Type} (s : Updater E) (oldObject newObject : option TypedValue) (version workflow : string)
  (compare0 : Comparison).

(** The comparison at a version: the one computed first, or one of the
    converted objects. *)
Definition versionCmp (v : string) : Result (UpdateError E) (option Comparison) :=
  if decide (v = version) then ok (Some compare0) else compareAt s oldObject newObject v.

Definition cmpOf (v : string) : option Comparison :=
  match versionCmp v with Ret (inr (Some c)) => Some c | _ => None end.

Definition conflictOf (vs : VersionedSet) (c : Comparison) : FSet :=
  Set_Intersection (VSet vs) (Set_Union (Modified c) (Added c)).

Definition others (k : string) (vs : VersionedSet) : option Comparison :=
  if decide (k = workflow) then None else cmpOf (APIVersion vs).

(** The manager's version does not exist any more. *)
Definition obsolete (k : string) (vs : VersionedSet) : bool :=
  match others k vs with Some _ => false | None => negb (string_eqb k workflow) end.

Definition entry_conflict (k : string) (vs : VersionedSet) : option VersionedSet :=
  match others k vs with
  | None => None
  | Some c => if Set_Empty (conflictOf vs c) then None
    else Some (NewVersionedSet (conflictOf vs c) (APIVersion vs) false)
  end.

Definition entry_removed (k : string) (vs : VersionedSet) : option VersionedSet :=
  match others k vs with
  | None => None
  | Some c => if Set_Empty (Removed c) then None
    else Some (NewVersionedSet (Removed c) (APIVersion vs) false)
  end.

Definition minus (vs : VersionedSet) (x : option VersionedSet) : VersionedSet :=
  match x with
  | Some x => NewVersionedSet (Set_Difference (VSet vs) (VSet x)) (APIVersion vs) (Applied vs)
  | None => vs
  end.

(** What becomes of the entry of manager [k]. *)
Definition updated (k : string) (vs : VersionedSet) : option VersionedSet :=
  if obsolete k vs then None
  else
    let vs' := minus (minus vs (entry_conflict k vs)) (entry_removed k vs) in
    if Set_Empty (VSet vs') then None else Some vs'.

(** Every conversion and comparison that [update] needs succeeds, or reports
    a missing version. *)
Definition convertible (managers : ManagedFields) : Prop :=
  forall k vs, managers !! k = Some vs -> k <> workflow -> exists o, versionCmp (APIVersion vs) = ok o.

(** *** The first loop *)

Definition versions_ok (st : updState) : Prop :=
  us_versions st !! version = Some compare0 /\
  forall v c, us_versions st !! v = Some c -> versionCmp v = ok (Some c).

Definition entry_view (st : updState) (k : string) :
    option VersionedSet * option VersionedSet * option VersionedSet :=
  (us_managers st !! k, us_conflicts st !! k, us_removed st !! k).

Definition visited (k : string) (vs : VersionedSet)
    (old : option VersionedSet * option VersionedSet * option VersionedSet) :=
  let '(m, c, r) := old in
  (if obsolete k vs then None else m,
   match entry_conflict k vs with Some x => Some x | None => c end,
   match entry_removed k vs with Some x => Some x | None => r end).

(** The comparison the iteration uses, from the cache or computed. *)
Lemma visit_cache st vs o :
  versions_ok st -> versionCmp (APIVersion vs) = ok o ->
  exists versions',
    match us_versions st !! APIVersion vs with
    | Some compare => ok (Some (compare, us_versions st))
    | None =>
      compare <- compareAt s oldObject newObject (APIVersion vs);;
      ok (match compare with
        | Some c => Some (c, <[APIVersion vs := c]> (us_versions st))
        | None => None
        end)
    end = ok (E := UpdateError E) (match o with Some c => Some (c, versions') | None => None end) /\
    forall ms cs rs, versions_ok (mkUpdState ms versions' cs rs).
Proof.
  intros [Hv Hc] Ho. destruct (us_versions st !! APIVersion vs) as [c|] eqn:Ec.
  - pose proof (Hc _ _ Ec) as Hc'. rewrite Hc' in Ho. simplify_eq. exists (us_versions st). done.
  - pose proof Ho as Ho'. unfold versionCmp in Ho'.
    destruct (decide _) as [Heq|Hne]; [by rewrite Heq, Hv in Ec|]. rewrite Ho'.
    destruct o as [c|]; [|by exists (us_versions st)].
    exists (<[APIVersion vs := c]> (us_versions st)). split; [done|]. intros ms cs rs. split; simpl.
    + by rewrite lookup_insert_ne.
    + intros v c'. destruct (decide (v = APIVersion vs)) as [->|?].
      * rewrite lookup_insert_eq. by intros [= <-].
      * rewrite lookup_insert_ne by done. apply Hc.
Qed.

Lemma update_visit_own st k vs :
  versions_ok st -> (k <> workflow -> exists o, versionCmp (APIVersion vs) = ok o) ->
  exists st', update_visit s oldObject newObject workflow st (k, vs) = ok st' /\ versions_ok st' /\
    entry_view st' k = visited k vs (entry_view st k) /\
    forall k', k' <> k -> entry_view st' k' = entry_view st k'.
Proof.
  intros Hv Ho. unfold update_visit, visited, entry_view, entry_conflict, entry_removed, obsolete, others.
  destruct (decide (k = workflow)) as [->|Hne].
  { rewrite string_eqb_refl. exists st. done. }
  rewrite (proj2 (string_eqb_false k workflow) Hne). destruct (Ho Hne) as [o Eo].
  destruct (visit_cache st vs o Hv Eo) as (versions' & Ec & Hv'). rewrite Ec. cbn [bindR ok].
  unfold cmpOf. rewrite Eo. cbn [ok]. destruct o as [c|]; eexists; (split; [done|]).
  - split; [apply Hv'|]. unfold conflictOf. split.
    + simpl. destruct (Set_Empty (Set_Intersection _ _)), (Set_Empty (Removed c)); simpl; by rewrite ?lookup_insert_eq.
    + intros k' Hk. simpl.
      destruct (Set_Empty (Set_Intersection _ _)), (Set_Empty (Removed c)); simpl; by rewrite ?lookup_insert_ne.
  - split; [done|]. simpl. split; [by rewrite lookup_delete_eq|]. intros k' Hk. by rewrite lookup_delete_ne.
Qed.
End Outcome.

(** *** Success needs every conversion *)

Lemma foldlR_ok_inv {E S B} (f : S -> B -> Result E S) (Inv : S -> Prop) (Q : B -> Prop) l st st' :
  (forall st b st', Inv st -> f st b = ok st' -> Inv st' /\ Q b) ->
  Inv st -> foldlR f st l = ok st' -> Forall Q l.
Proof.
  intros Hf. revert st. induction l as [|b l IH]; intros st HI; cbn [foldlR]; [by intros|].
  destruct (f st b) as [|[e|st1]] eqn:E1; cbn [bindR]; [done|done|]. intros H.
  destruct (Hf _ _ _ HI E1) as [HI1 HQ]. constructor; [done|by eapply IH].
Qed.

Lemma update_visit_inv {E} (s : Updater E) o n version workflow c0 st k vs st' :
  versions_ok s o n version c0 st -> update_visit s o n workflow st (k, vs) = ok st' ->
  versions_ok s o n version c0 st' /\
  (k <> workflow -> exists x, versionCmp s o n version c0 (APIVersion vs) = ok x).
Proof.
  intros Hv H. assert (Hx : k <> workflow -> exists x, versionCmp s o n version c0 (APIVersion vs) = ok x).
  { intros Hne. unfold update_visit in H. rewrite (proj2 (string_eqb_false k workflow) Hne) in H.
    destruct Hv as [Hv Hc]. destruct (us_versions st !! APIVersion vs) as [c|] eqn:Ec; [eauto|].
    unfold versionCmp. destruct (decide _) as [Heq|_]; [by rewrite Heq, Hv in Ec|].
    destruct (compareAt s o n (APIVersion vs)) as [|[e|x]]; [done|done|by eexists]. }
  split; [|done]. destruct (update_visit_own s o n version workflow c0 st k vs Hv Hx) as (st1 & E1 & Hv1 & _).
  rewrite E1 in H. by simplify_eq.
Qed.

(** ** The other loops *)

Lemma subtract_loop {E} l (sets managers : ManagedFields) :
  l ≡ₚ map_to_list sets -> (forall k x, sets !! k = Some x -> is_Some (managers !! k)) ->
  exists managers', foldlR (subtract (E := E)) managers l = ok managers' /\
    forall k, managers' !! k = (fun vs => minus vs (sets !! k)) <$> managers !! k.
Proof.
  intros El Hsub.
  destruct (foldlR_own_key_enum (subtract (E := E)) (fun _ => True) (fun m k => m !! k)
    (fun k x o => (fun vs => minus vs (Some x)) <$> o) (fun k x o => is_Some o)) with (l := l) (m := sets) (st := managers)
    as (managers' & E1 & _ & Hv); [|done..|].
  - intros m k x _ [vs Hk]. unfold subtract. rewrite Hk. cbn [deref mbind Outcome_bind].
    eexists. split_and!; [done..| |].
    + by rewrite lookup_insert_eq.
    + intros k' Hk'. by rewrite lookup_insert_ne.
  - exists managers'. split; [done|]. intros k. rewrite Hv.
    destruct (sets !! k); [done|]. by destruct (managers !! k).
Qed.

Definition nonempty_entry (vs : VersionedSet) : option VersionedSet :=
  if Set_Empty (VSet vs) then None else Some vs.

Lemma dropEmpty_loop {E} l (managers : ManagedFields) :
  l ≡ₚ map_to_list managers ->
  exists managers', foldlR (dropEmpty (E := E)) managers l = ok managers' /\
    forall k, managers' !! k = managers !! k ≫= nonempty_entry.
Proof.
  intros El.
  destruct (foldlR_own_key_enum (dropEmpty (E := E)) (fun _ => True) (fun m k => m !! k)
    (fun k x o => o ≫= nonempty_entry) (fun k x o => is_Some o)) with (l := l) (m := managers) (st := managers)
    as (managers' & E1 & _ & Hv); [|done..| |].
  - intros m k x _ [vs Hk]. unfold dropEmpty, nonempty_entry. cbn [fst]. rewrite Hk.
    cbn [deref mbind Outcome_bind option_bind]. eexists. split_and!; [done..| |].
    + destruct (Set_Empty _); [by rewrite lookup_delete_eq|done].
    + intros k' Hk'. destruct (Set_Empty _); [by rewrite lookup_delete_ne|done].
  - intros k b Hk. by rewrite Hk.
  - exists managers'. split; [done|]. intros k. rewrite Hv. by destruct (managers !! k).
Qed.

(** ** The whole of update *)
Section UpdateSpec.
Context {E : Type} (R : Ranges) {HR : RangesOk R} (s : Updater E).
Context (oldObject newObject : option TypedValue) (version workflow : string) (managers : ManagedFields)
  (compare : Comparison).
Let compare0 := ExcludeFields compare (IgnoredFields s !! version).
Hypothesis Hcompare : comparePtr oldObject newObject = ok (E := UpdateError E) compare.
Hypothesis Hconv : convertible s oldObject newObject version workflow compare0 managers.

Let conflict := entry_conflict s oldObject newObject version workflow compare0.
Let removed := entry_removed s oldObject newObject version workflow compare0.
Let obs := obsolete s oldObject newObject version workflow compare0.

Lemma first_loop :
  exists st, foldlR (update_visit s oldObject newObject workflow)
      (mkUpdState managers {[version := compare0]} ∅ ∅) (range R SiteUpdate managers) = ok st /\
    forall k, us_managers st !! k = managers !! k ≫= (fun vs => if obs k vs then None else Some vs) /\
      us_conflicts st !! k = managers !! k ≫= conflict k /\
      us_removed st !! k = managers !! k ≫= removed k.
Proof.
  destruct (foldlR_own_key_enum (update_visit s oldObject newObject workflow)
    (versions_ok s oldObject newObject version compare0) entry_view
    (visited s oldObject newObject version workflow compare0)
    (fun k vs _ => k <> workflow -> exists o, versionCmp s oldObject newObject version compare0 (APIVersion vs) = ok o))
    with (l := range R SiteUpdate managers) (m := managers)
      (st := mkUpdState managers {[version := compare0]} ∅ ∅) as (st & E1 & _ & Hv).
  - intros. by apply update_visit_own.
  - apply range_enumerates.
  - split; simpl; [by rewrite lookup_singleton_eq|].
    intros v c [<- <-]%lookup_singleton_Some. unfold versionCmp. by rewrite decide_True.
  - intros k vs Hk Hne. by apply (Hconv k vs).
  - exists st. split; [done|]. intros k. specialize (Hv k). unfold entry_view in Hv. simpl in Hv.
    rewrite !lookup_empty in Hv. destruct (managers !! k) as [vs|]; simpl.
    + unfold visited in Hv. injection Hv as -> -> ->. fold obs conflict removed.
      destruct (obs k vs), (conflict k vs), (removed k vs); done.
    + by injection Hv as -> -> ->.
Qed.

(** Some other manager owns a field that the update changes. *)
Definition has_conflict : Prop := exists k vs, managers !! k = Some vs /\ is_Some (conflict k vs).

Lemma size_conflicts (m : ManagedFields) :
  (forall k, m !! k = managers !! k ≫= conflict k) -> (size m =? 0)%nat = false <-> has_conflict.
Proof.
  intros Hm. rewrite Nat.eqb_neq, map_size_ne_0_lookup. unfold has_conflict. split.
  - intros (k & x & Hk). rewrite Hm in Hk. apply bind_Some in Hk as (vs & ? & ?). exists k, vs. eauto.
  - intros (k & vs & Hk & [x Hx]). exists k, x. by rewrite Hm, Hk.
Qed.

(** A manager that is given conflicts or removals still exists. *)
Lemma kept_entry k vs : is_Some (conflict k vs) \/ is_Some (removed k vs) -> obs k vs = false.
Proof.
  unfold conflict, removed, obs, entry_conflict, entry_removed, obsolete.
  destruct (others _ _ _ _ _ _ k vs); [done|]. by intros [[? ?]|[? ?]].
Qed.

(** Without force, a conflict is an error that lists every conflicting field. *)
Lemma update_conflicts :
  has_conflict ->
  exists conflicts, update R s oldObject newObject version managers workflow false =
      fail (ErrConflicts (ConflictsFromManagers (range R SiteConflictError conflicts))) /\
    forall k, conflicts !! k = managers !! k ≫= conflict k.
Proof.
  intros Hc. destruct first_loop as (st & E1 & Hv). exists (us_conflicts st).
  split; [|intros k; apply Hv]. unfold update. rewrite Hcompare. cbn [bindR ok]. fold compare0.
  rewrite E1. cbn [bindR ok negb andb].
  by rewrite (proj2 (size_conflicts (us_conflicts st) (fun k => proj1 (proj2 (Hv k)))) Hc).
Qed.

(** Otherwise [update] succeeds, and treats the managers one by one. *)
Lemma update_succeeds force :
  force = true \/ ~ has_conflict ->
  exists managers', update R s oldObject newObject version managers workflow force = ok (managers', compare0) /\
    forall k, managers' !! k = managers !! k ≫= updated s oldObject newObject version workflow compare0 k.
Proof.
  intros Hf. destruct first_loop as (st & E1 & Hv). unfold update. rewrite Hcompare.
  cbn [bindR ok]. fold compare0. rewrite E1. cbn [bindR ok].
  assert (Hgo : negb force && negb (size (us_conflicts st) =? 0)%nat = false).
  { destruct Hf as [-> |Hn]; [done|]. apply andb_false_intro2, negb_false_iff.
    destruct (size (us_conflicts st) =? 0)%nat eqn:Es; [done|]. exfalso.
    apply Hn, (size_conflicts (us_conflicts st)); [|done]. intros k. apply Hv. }
  rewrite Hgo. clear Hgo Hf.
  destruct (subtract_loop (E := E) (range R SiteConflicts (us_conflicts st)) (us_conflicts st) (us_managers st))
    as (m1 & -> & H1); [apply range_enumerates| |].
  { intros k x. destruct (Hv k) as (-> & -> & _). destruct (managers !! k) as [vs|]; [|done]. simpl.
    intros Hx. rewrite kept_entry by eauto. eauto. }
  cbn [bindR ok].
  destruct (subtract_loop (E := E) (range R SiteRemoved (us_removed st)) (us_removed st) m1)
    as (m2 & -> & H2); [apply range_enumerates| |].
  { intros k x. rewrite H1. destruct (Hv k) as (-> & _ & ->). destruct (managers !! k) as [vs|]; [|done]. simpl.
    intros Hx. rewrite kept_entry by eauto. eauto. }
  cbn [bindR ok].
  destruct (dropEmpty_loop (E := E) (range R SiteEmpty m2) m2) as (m3 & -> & H3); [apply range_enumerates|].
  exists m3. split; [done|]. intros k. rewrite H3, H2, H1. destruct (Hv k) as (-> & -> & ->).
  destruct (managers !! k) as [vs|]; [|done]. simpl. unfold updated. fold (obs k vs) (conflict k vs) (removed k vs).
  by destruct (obs k vs).
Qed.
End UpdateSpec.

Lemma update_ok_inv {E} (R : Ranges) {HR : RangesOk R} (s : Updater E) o n version workflow managers force res :
  update R s o n version managers workflow force = ok res ->
  exists compare, comparePtr o n = ok (E := UpdateError E) compare /\
    convertible s o n version workflow (ExcludeFields compare (IgnoredFields s !! version)) managers /\
    (force = true \/ ~ has_conflict s o n version workflow managers compare).
Proof.
  intros H. pose proof H as H'. unfold update in H.
  destruct (comparePtr o n) as [|[e|compare]] eqn:Ec; [done|done|]. exists compare. split; [done|]. cbn [bindR] in H.
  destruct (foldlR _ _ _) as [|[e|st]] eqn:El in H; [done|done|].
  assert (Hconv : convertible s o n version workflow (ExcludeFields compare (IgnoredFields s !! version)) managers).
  { eapply (foldlR_ok_inv _ (versions_ok s o n version (ExcludeFields compare (IgnoredFields s !! version)))
      (fun e => e.1 <> workflow -> exists x, versionCmp s o n version _ (APIVersion e.2) = ok x)) in El.
    - intros k vs Hk Hne. rewrite Forall_forall in El. apply (El (k, vs)); [|done].
      rewrite (range_enumerates SiteUpdate managers). by apply elem_of_map_to_list.
    - intros st1 [k vs] st2. apply update_visit_inv.
    - split; simpl; [by rewrite lookup_singleton_eq|].
      intros v c [<- <-]%lookup_singleton_Some. unfold versionCmp. by rewrite decide_True. }
  split; [done|]. destruct force; [by left|right]. intros Hc.
  destruct (update_conflicts R s o n version workflow managers compare Ec Hconv Hc) as (cs & E1 & _).
  by rewrite E1 in H'.
Qed.

(** ** Sets of fields *)

(** The comparison mentions the field. *)
Definition touches (c : Comparison) (q : Path) : bool :=
  Set_Has (Modified c) q || Set_Has (Added c) q || Set_Has (Removed c) q.

Section OneManager.
Context {E : Type} (r : Regime) (s : Updater E) (o n : option TypedValue) (version workflow : string)
  (c0 : Comparison).

Lemma minus_Set_ok vs x :
  Set_ok r (VSet vs) = true -> (forall y, x = Some y -> Set_ok r (VSet y) = true) ->
  Set_ok r (VSet (minus vs x)) = true.
Proof. intros Hv Hx. destruct x as [y|]; [|done]. simpl. apply Set_Difference_ok; [done|by apply Hx]. Qed.

Lemma minus_Has vs x q :
  Forall (pe_dom r) q -> Set_ok r (VSet vs) = true -> (forall y, x = Some y -> Set_ok r (VSet y) = true) ->
  Set_Has (VSet (minus vs x)) q =
  Set_Has (VSet vs) q && negb (match x with Some y => Set_Has (VSet y) q | None => false end).
Proof.
  intros Hq [Hv _]%Set_ok_iff Hx. destruct x as [y|]; simpl; [|by rewrite andb_true_r].
  specialize (Hx y eq_refl). apply Set_ok_iff in Hx as [Hx _]. by apply (Set_Has_Difference r).
Qed.

Lemma minus_same vs x : APIVersion (minus vs x) = APIVersion vs /\ Applied (minus vs x) = Applied vs.
Proof. by destruct x. Qed.

Lemma nonempty_entry_ok set v :
  Set_ok r set = true ->
  (forall y, nonempty_entry (NewVersionedSet set v false) = Some y -> Set_ok r (VSet y) = true) /\
  forall q, match nonempty_entry (NewVersionedSet set v false) with
    | Some z => Set_Has (VSet z) q | None => false end = Set_Has set q.
Proof.
  intros Hs. unfold nonempty_entry. cbn [VSet]. destruct (Set_Empty set) eqn:Ee; split; try done.
  - intros q. by rewrite Set_Empty_Has.
  - by intros y [= <-].
Qed.

(** The workflow keeps its entry, unless it is empty. *)
Lemma updated_workflow vs : updated s o n version workflow c0 workflow vs = nonempty_entry vs.
Proof.
  unfold updated, obsolete, entry_conflict, entry_removed, others. rewrite decide_True by done.
  by rewrite string_eqb_refl.
Qed.

(** Any other manager keeps exactly the fields the comparison at its version
    does not mention. *)
Lemma updated_fields k vs c :
  k <> workflow -> cmpOf s o n version c0 (APIVersion vs) = Some c ->
  comparison_ok r c -> Set_ok r (VSet vs) = true ->
  exists set,
    updated s o n version workflow c0 k vs = nonempty_entry (NewVersionedSet set (APIVersion vs) (Applied vs)) /\
    Set_ok r set = true /\
    forall q, Forall (pe_dom r) q -> Set_Has set q = Set_Has (VSet vs) q && negb (touches c q).
Proof.
  intros Hne Ec (HR & HM & HA) Hs. unfold updated, obsolete, entry_conflict, entry_removed, others.
  rewrite decide_False by done. rewrite Ec.
  assert (HC : Set_ok r (conflictOf vs c) = true) by (apply Set_Intersection_ok, Set_Union_ok; done).
  pose proof (nonempty_entry_ok _ (APIVersion vs) HC) as [Hx Ex].
  pose proof (nonempty_entry_ok _ (APIVersion vs) HR) as [Hy Ey].
  set (x := nonempty_entry _) in Hx, Ex. set (y := nonempty_entry _) in Hy, Ey.
  exists (VSet (minus (minus vs x) y)). split_and!.
  - change (nonempty_entry (minus (minus vs x) y) =
      nonempty_entry (NewVersionedSet (VSet (minus (minus vs x) y)) (APIVersion vs) (Applied vs))). f_equal.
    destruct (minus_same (minus vs x) y) as [E1 E2], (minus_same vs x) as [E3 E4].
    rewrite E3 in E1. rewrite E4 in E2. rewrite <-E1, <-E2. by destruct (minus (minus vs x) y).
  - auto using minus_Set_ok.
  - intros q Hq. rewrite !minus_Has by auto using minus_Set_ok.
    rewrite Ex, Ey. unfold conflictOf, touches.
    apply Set_ok_iff in HM as [HM _], HA as [HA _], Hs as [Hs _].
    rewrite (Set_Has_Intersection r), (Set_Has_Union r) by auto using Set_Union_wf.
    by destruct (Set_Has (VSet vs) q), (Set_Has (Modified c) q), (Set_Has (Added c) q), (Set_Has (Removed c) q).
Qed.
End OneManager.

(** ** Conflicts *)

Lemma foldl_snoc_map {A B} (f : A -> B) l acc : foldl (fun acc p => acc ++ [f p]) acc l = acc ++ (f <$> l).
Proof. revert acc. induction l as [|a l IH]; intros acc; simpl; [by rewrite app_nil_r|]. by rewrite IH, <-app_assoc. Qed.

(** The conflicts are the paths of the sets, with their managers. *)
Lemma ConflictsFromManagers_elem l m c :
  enumerates l m ->
  c ∈ ConflictsFromManagers l <-> exists vs, m !! c_Manager c = Some vs /\ c_Path c ∈ Set_Iterate (VSet vs).
Proof.
  intros El. unfold ConflictsFromManagers.
  assert (H : forall acc, foldl (fun conflicts '(manager, set) =>
      foldl (fun conflicts p => conflicts ++ [mkConflict manager p]) conflicts (Set_Iterate (VSet set))) acc l =
    acc ++ (l ≫= (fun e => mkConflict e.1 <$> Set_Iterate (VSet e.2)))).
  { clear El. induction l as [|[k vs] l IH]; intros acc; simpl; [by rewrite app_nil_r|].
    by rewrite IH, foldl_snoc_map, <-app_assoc. }
  rewrite H, app_nil_l, list_elem_of_bind. unfold enumerates in El. destruct c as [k p]. simpl. split.
  - intros ([k' vs] & (p' & [= -> ->] & Hp)%list_elem_of_fmap & He). simpl in *. exists vs. split; [|done].
    apply elem_of_map_to_list. by rewrite <-El.
  - intros (vs & Hk & Hp). exists (k, vs). split; [by apply list_elem_of_fmap_2|].
    rewrite El. by apply elem_of_map_to_list.
Qed.

(** ** Reconciliation of every manager *)
Section ReconcileAll.
Context {E : Type} (R : Ranges) {HR : RangesOk R} (s : Updater E) (live : option TypedValue).

(** The entry after reconciliation: [None] for a missing version. *)
Definition reconcileEntry (vs : VersionedSet) : Result (UpdateError E) (option VersionedSet) :=
  let '(tv, err) := Convert (u_Converter s) live (APIVersion vs) in
  if IsMissingVersionError (u_Converter s) err then ok None
  else
    match err with
    | Some e => fail (ErrConvert e)
    | None =>
      tv ← deref tv;
      reconciled <- wrap ErrReconcile (Reconcile_TypedValue (VSet vs) tv);;
      ok (Some (match reconciled with
        | Some x => NewVersionedSet x (APIVersion vs) (Applied vs)
        | None => vs
        end))
    end.

Definition reconciledEntry (vs : VersionedSet) : option VersionedSet :=
  match reconcileEntry vs with Ret (inr o) => o | _ => None end.

Lemma reconcile_visit_entry result k vs :
  reconcile_visit s live result (k, vs) =
  (o <- reconcileEntry vs;; ok (match o with Some x => <[k := x]> result | None => result end)).
Proof.
  unfold reconcile_visit, reconcileEntry. destruct (Convert (u_Converter s) live (APIVersion vs)) as [tv err].
  destruct (IsMissingVersionError (u_Converter s) err); [done|]. destruct err as [e|]; [done|].
  destruct tv as [tv|]; [|done]. cbn [deref mbind Outcome_bind].
  by destruct (Reconcile_TypedValue (VSet vs) tv) as [|[e|[x|]]].
Qed.

Lemma reconcile_loop managers :
  (forall k vs, managers !! k = Some vs -> exists o, reconcileEntry vs = ok o) ->
  exists managers', reconcileManagedFieldsWithSchemaChanges R s live managers = ok managers' /\
    forall k, managers' !! k = managers !! k ≫= reconciledEntry.
Proof.
  intros Hok. unfold reconcileManagedFieldsWithSchemaChanges.
  destruct (foldlR_own_key_enum (reconcile_visit s live) (fun _ => True) (fun m k => m !! k)
    (fun k vs o => match reconciledEntry vs with Some x => Some x | None => o end)
    (fun k vs _ => exists o, reconcileEntry vs = ok o)) with (l := range R SiteReconcile managers)
    (m := managers) (st := (∅ : ManagedFields)) as (m' & E1 & _ & Hv).
  - intros m k vs _ [o Eo]. rewrite reconcile_visit_entry. unfold reconciledEntry. rewrite Eo. cbn [bindR ok].
    eexists. split_and!; [done..| |].
    + destruct o; [by rewrite lookup_insert_eq|done].
    + intros k' Hk. destruct o; [by rewrite lookup_insert_ne|done].
  - apply range_enumerates.
  - done.
  - done.
  - exists m'. split; [done|]. intros k. rewrite Hv, lookup_empty.
    destruct (managers !! k) as [vs|]; [|done]. simpl. by destruct (reconciledEntry vs).
Qed.
End ReconcileAll.

(** ** Update and Apply *)
Section UpdateApply.
Context {E : Type} (R : Ranges) {HR : RangesOk R} (s : Updater E).

(** The set the updating manager owns afterwards. *)
Definition ownAfterUpdate (compare : Comparison) (version : string) (own : option VersionedSet) : FSet :=
  Set_RecursiveDifference
    (Set_Union (Set_Union (Set_Difference (default emptySet (VSet <$> (own ≫= nonempty_entry))) (Removed compare))
      (Modified compare)) (Added compare))
    (default emptySet (IgnoredFields s !! version)).

Lemma Update_managers live new version managers0 managers manager compare :
  reconcileManagedFieldsWithSchemaChanges R s live managers0 = ok managers ->
  comparePtr live new = ok (E := UpdateError E) compare ->
  let c := ExcludeFields compare (IgnoredFields s !! version) in
  convertible s live new version manager c managers ->
  exists managers', Update R s live new version managers0 manager = ok (new, managers') /\
    managers' !! manager =
      nonempty_entry (NewVersionedSet (ownAfterUpdate c version (managers !! manager)) version false) /\
    forall k, k <> manager -> managers' !! k = managers !! k ≫= updated s live new version manager c k.
Proof.
  intros Hr Hc c Hconv. destruct (update_succeeds R s live new version manager managers compare Hc Hconv true)
    as (m1 & E1 & Hv); [by left|].
  unfold Update. rewrite Hr. cbn [bindR ok]. rewrite E1. cbn [bindR ok]. fold c.
  assert (Eown : VSet (match m1 !! manager with Some m => m | None => NewVersionedSet (NewSet []) version false end) =
    default emptySet (VSet <$> (managers !! manager ≫= nonempty_entry))).
  { rewrite Hv. destruct (managers !! manager) as [vs|]; [|done]. cbn [mbind option_bind].
    rewrite updated_workflow. by destruct (nonempty_entry vs). }
  rewrite Eown. change (NewSet []) with emptySet. fold (ownAfterUpdate c version (managers !! manager)).
  eexists. split; [done|]. unfold nonempty_entry. cbn [VSet]. split.
  - destruct (Set_Empty _); [by rewrite lookup_delete_eq|by rewrite lookup_insert_eq].
  - intros k Hk. rewrite <-Hv.
    destruct (Set_Empty _); rewrite ?lookup_delete_ne by done; by rewrite lookup_insert_ne.
Qed.

Lemma ownAfterUpdate_Has r c version own q :
  comparison_ok r c -> (forall vs, own = Some vs -> Set_ok r (VSet vs) = true) ->
  (forall f, IgnoredFields s !! version = Some f -> Set_ok r f = true) -> Forall (pe_dom r) q ->
  Set_ok r (ownAfterUpdate c version own) = true /\
  Set_Has (ownAfterUpdate c version own) q =
    (match own with Some vs => Set_Has (VSet vs) q | None => false end && negb (Set_Has (Removed c) q)
     || Set_Has (Modified c) q || Set_Has (Added c) q) &&
    negb (match IgnoredFields s !! version with Some f => covered f q | None => false end).
Proof.
  intros (HR' & HM & HA) Hown Hi Hq. unfold ownAfterUpdate.
  set (x := default emptySet (VSet <$> (own ≫= nonempty_entry))).
  set (ig := default emptySet (IgnoredFields s !! version)).
  assert (Hx : Set_ok r x = true /\ Set_Has x q = match own with Some vs => Set_Has (VSet vs) q | None => false end).
  { subst x. destruct own as [vs|]; simpl; [|by destruct q as [|? [|]]]. unfold nonempty_entry.
    specialize (Hown vs eq_refl). destruct (Set_Empty (VSet vs)) eqn:Ee; simpl; [|done].
    split; [done|]. rewrite (Set_Empty_Has _ q Ee). by rewrite Set_Empty_Has. }
  assert (Hg : Set_ok r ig = true /\ covered ig q = match IgnoredFields s !! version with Some f => covered f q | None => false end).
  { subst ig. destruct (IgnoredFields s !! version) as [f|]; simpl; [auto|]. split; [done|].
    unfold covered. rewrite <-not_true_iff_false, existsb_exists. intros (p & _ & Hp). by rewrite Set_Empty_Has in Hp. }
  destruct Hx as [Hx Ex], Hg as [Hg Eg]. split.
  { auto using Set_RecursiveDifference_ok, Set_Union_ok, Set_Difference_ok. }
  apply Set_ok_iff in HM as [HM _], HA as [HA _], HR' as [HR' _], Hx as [Hx _], Hg as [Hg _].
  rewrite (Set_Has_RecursiveDifference r), !(Set_Has_Union r), (Set_Has_Difference r)
    by auto using Set_Union_wf, Set_Difference_wf.
  by rewrite Ex, Eg.
Qed.

(** The set the applied configuration owns. *)
Definition appliedSet (version : string) (set : FSet) : FSet :=
  match IgnoredFields s !! version with Some ignored => Set_RecursiveDifference set ignored | None => set end.

(** After a successful [Apply] the applier owns what it applied, and nothing else. *)
Lemma Apply_owner live config version managers manager force obj managers' :
  Apply R s live config version managers manager force = ok (obj, managers') ->
  exists tv set, config = Some tv /\ TypedValue_ToFieldSet tv = ok set /\
    managers' !! manager = nonempty_entry (NewVersionedSet (appliedSet version set) version true).
Proof.
  unfold Apply. destruct (reconcileManagedFieldsWithSchemaChanges _ _ _ _) as [|[e|m]]; [done|done|].
  destruct live as [live|]; [|done]. destruct config as [config|]; [|done]. cbn [deref mbind Outcome_bind bindR].
  destruct (TypedValue_Merge live config) as [|[e|merged]]; [done|done|]. cbn [wrap bindR].
  destruct (TypedValue_ToFieldSet config) as [|[e|set]] eqn:Es; [done|done|]. cbn [wrap bindR].
  fold (appliedSet version set).
  destruct (prune _ _ _ _ _ _) as [|[e|new]]; [done|done|]. cbn [wrap bindR].
  destruct (update _ _ _ _ _ _ _ _) as [|[e|[m' c]]] eqn:Eu; [done|done|]. cbn [bindR].
  intros H. exists config, set. split_and!; [done..|].
  assert (m' = managers') as <-.
  { destruct (returnInputOnNoop s); [by injection H|]. destruct new as [new|]; [|done].
    cbn [deref mbind Outcome_bind] in H.
    destruct (EqualsPtr _ _) as [|b]; [done|]. cbn [mbind Outcome_bind] in H. by injection H. }
  pose proof Eu as (compare & Hc & Hconv & Hf)%update_ok_inv; [|done].
  destruct (update_succeeds R s _ _ _ _ _ _ Hc Hconv force Hf) as (m'' & Eu' & Hv).
  rewrite Eu in Eu'. injection Eu' as <- _.
  rewrite Hv, lookup_insert_eq. apply updated_workflow.
Qed.

(** A manager that owns nothing has nothing to prune. *)
Lemma prune_first merged managers manager lastSet :
  lastSet ≫= nonempty_entry = None -> prune R s merged managers manager lastSet = ok merged.
Proof.
  destruct lastSet as [vs|]; [|done]. cbn [mbind option_bind prune]. unfold nonempty_entry.
  by destruct (Set_Empty (VSet vs)).
Qed.

(** Up to its last step, a first [Apply] is an [update] from the live to the merged object. *)
Lemma Apply_first live config version managers0 managers manager force merged set lv mv :
  reconcileManagedFieldsWithSchemaChanges R s (Some live) managers0 = ok managers ->
  managers !! manager ≫= nonempty_entry = None ->
  TypedValue_Merge live config = ok merged -> TypedValue_ToFieldSet config = ok set ->
  tv_value live = Some lv -> tv_value merged = Some mv ->
  Apply R s (Some live) (Some config) version managers0 manager force =
    (res <- update R s (Some live) (Some merged) version
      (<[manager := NewVersionedSet (appliedSet version set) version true]> managers) manager force;;
     ok (if negb (returnInputOnNoop s) && Equals lv mv then None else Some merged, res.1)).
Proof.
  intros Hr Hl Hm Hs Elv Emv. unfold Apply. rewrite Hr. cbn [deref mbind Outcome_bind bindR ok].
  rewrite Hm. cbn [wrap bindR ok]. rewrite Hs. cbn [wrap bindR ok]. fold (appliedSet version set).
  rewrite prune_first by done. cbn [wrap bindR ok].
  destruct (update _ _ _ _ _ _ _ _) as [|[e|[m' c]]]; [done|done|]. cbn [bindR ok fst].
  destruct (returnInputOnNoop s); cbn [negb andb]; [done|].
  cbn [deref mbind Outcome_bind]. unfold EqualsPtr. rewrite Elv, Emv. cbn [deref mbind Outcome_bind].
  by destruct (Equals lv mv).
Qed.
End UpdateApply.
