(* ===== verification/State.v ===== *)
(** * Package fixture: the state of an object under a sequence of operations

    Models [internal/fixture/state.go]: an object with its managers, on which
    operations (updates, applies, forced applies, extract-and-apply, changes of
    the schema) run one after the other.  Methods of [*State] pass the state
    along and return it together with their error, because several of them
    change the state before they fail.  [cmp.Diff] of the library go-cmp is a
    parameter. *)
From stdpp Require Import gmap.
From S2P Require Import Prelude GoLib GoFloat Value ValueOrder PathElement SortedSlice FieldSet.
From S2P Require Import FieldSetSpec FieldSetOps FieldSetInsert FieldSetIter Managers Schema FieldSetSchema TypedHelpers.
From S2P Require Import Validate Compare Typed Parser Updater.
From Stdlib Require Import Ascii.

(** ** Indentation of literals *)

Definition tab : ascii := ascii_of_nat 9.
Definition newline : ascii := ascii_of_nat 10.

(** [bytes.Split] at newlines: at least one line. *)
Fixpoint splitLines (s : string) : list string :=
  match s with
  | EmptyString => [EmptyString]
  | String c s' =>
    if (Ascii.eqb c newline) then EmptyString :: splitLines s'
    else match splitLines s' with
      | [] => [String c EmptyString]
      | line :: lines => String c line :: lines
      end
  end.

(** [bytes.Join] with newlines. *)
Fixpoint joinLines (lines : list string) : string :=
  match lines with
  | [] => EmptyString
  | [line] => line
  | line :: lines' => String.append line (String newline (joinLines lines'))
  end.

(** The number of tabs a line starts with. *)
Fixpoint leadingTabs (s : string) : nat :=
  match s with
  | EmptyString => 0
  | String c s' => if Ascii.eqb c tab then S (leadingTabs s') else 0
  end.

(** [bytes.HasPrefix] for a prefix of [n] tabs, and the line without it. *)
Fixpoint stripTabs (n : nat) (s : string) : option string :=
  match n, s with
  | O, _ => Some s
  | S n, String c s' => if Ascii.eqb c tab then stripTabs n s' else None
  | S _, EmptyString => None
  end.

(** The length of the white space character at the front, or 0:
    [unicode.IsSpace] on the UTF-8 encoding. *)
Definition frontSpace (bs : list N) : nat :=
  match bs with
  | [] => 0
  | b :: bs' =>
    if ((9 <=? b) && (b <=? 13) || (b =? 32))%N then 1
    else match bs' with
      | [] => 0
      | c :: bs'' =>
        if ((b =? 194) && ((c =? 133) || (c =? 160)))%N then 2
        else match bs'' with
          | [] => 0
          | d :: _ =>
            if ((b =? 225) && (c =? 154) && (d =? 128) ||
                (b =? 226) && (c =? 128) &&
                  ((128 <=? d) && (d <=? 138) || (d =? 168) || (d =? 169) || (d =? 175)) ||
                (b =? 226) && (c =? 129) && (d =? 159) ||
                (b =? 227) && (c =? 128) && (d =? 128))%N then 3
            else 0
          end
      end
  end%nat.

(** [bytes.TrimSpace(line) == nil]: only white space. *)
Fixpoint allSpace (fuel : nat) (bs : list N) : bool :=
  match bs, fuel with
  | [], _ => true
  | _, O => false
  | _, S fuel => match frontSpace bs with O => false | n => allSpace fuel (drop n bs) end
  end.
Definition isBlank (line : string) : bool :=
  allSpace (String.length line) (N_of_ascii <$> String.list_ascii_of_string line).

(** The loop of [FixTabsOrDie]: the last line may be blank. *)
Fixpoint fixLines (n : nat) (lines : list string) : Outcome (list string) :=
  match lines with
  | [] => Ret []
  | line :: lines' =>
    if match lines' with [] => (String.length line <=? n)%nat && isBlank line | _ => false end
    then Ret [EmptyString]
    else
      match stripTabs n line with
      | None => Panic
      | Some line' => rest ← fixLines n lines'; Ret (line' :: rest)
      end
  end.

Definition FixTabsOrDie (s : YAMLObject) : Outcome YAMLObject :=
  let lines := match splitLines s with
    | EmptyString :: (_ :: _) as lines' => lines'
    | lines => lines
    end in
  lines' ← fixLines (leadingTabs (default EmptyString (head lines))) lines; Ret (joinLines lines').

(** ** The state *)

(** The interface [Parser]: what retrieves a type. *)
Abbreviation TypeParser := (string -> ParseableType).

Definition SameVersionParser (T : ParseableType) : TypeParser := fun _ => T.
Definition DeducedParser (addr : nat) : TypeParser := SameVersionParser (DeducedParseableType addr).

Record State (E : Type) := mkState {
  Live : option TypedValue;
  st_Parser : TypeParser;
  st_Managers : ManagedFields;
  st_Updater : Updater E;
}.
#[global] Arguments mkState {E}.
#[global] Arguments Live {E}.
#[global] Arguments st_Parser {E}.
#[global] Arguments st_Managers {E}.
#[global] Arguments st_Updater {E}.

Section Fixture.
Context {Y : YamlLib} {E : Type}.

Inductive StateError :=
  | ErrParse (e : ParseError)
  | ErrNewEmpty (errs : ValidationErrors)
  | ErrConverter (e : E)
  | ErrUpdater (e : UpdateError E)
  | ErrExpectedConflicts (expected got : Conflicts)
  | ErrExtractVersion (existing desired : string)
  | ErrExtractMerge (errs : ValidationErrors)
  | ErrChangeSchema (errs : ValidationErrors).

(** A method of [*State]: the state after it and its result. *)
Abbreviation M A := (State E -> Outcome (State E * (StateError + A))).

Definition retM {A} (a : A) : M A := fun s => Ret (s, inr a).
Definition failM {A} (e : StateError) : M A := fun s => Ret (s, inl e).
Definition bindM {A B} (m : M A) (f : A -> M B) : M B := fun s =>
  match m s with
  | Panic => Panic
  | Ret (s', inl e) => Ret (s', inl e)
  | Ret (s', inr a) => f a s'
  end.
(** A call that does not touch the state. *)
Definition liftM {Er A} (w : Er -> StateError) (r : Result Er A) : M A := fun s =>
  match r with
  | Panic => Panic
  | Ret (inl e) => Ret (s, inl (w e))
  | Ret (inr a) => Ret (s, inr a)
  end.
(** The error of a call as a value. *)
Definition tryM (m : M unit) : M (option StateError) := fun s =>
  match m s with
  | Panic => Panic
  | Ret (s', inl e) => Ret (s', inr (Some e))
  | Ret (s', inr _) => Ret (s', inr None)
  end.
Definition getM : M (State E) := fun s => Ret (s, inr s).

Definition setLive (o : option TypedValue) : M unit := fun s =>
  Ret (mkState o (st_Parser s) (st_Managers s) (st_Updater s), inr tt).
Definition setManagers (m : ManagedFields) : M unit := fun s =>
  Ret (mkState (Live s) (st_Parser s) m (st_Updater s), inr tt).
Definition setParser (p : TypeParser) : M unit := fun s =>
  Ret (mkState (Live s) p (st_Managers s) (st_Updater s), inr tt).

Notation "'let!' x := m 'in' k" := (bindM m (fun x => k)) (at level 10, x pattern, k at level 200).

Definition checkInit (version : string) : M unit :=
  let! s := getM in
  match Live s with
  | Some _ => retM tt
  | None =>
    let! obj := liftM ErrNewEmpty (FromUnstructured (st_Parser s version) VNull []) in
    setLive (Some obj)
  end.

(** [s.Live, err = s.Updater.Converter.Convert(s.Live, version)]: the object is
    assigned even when there is an error. *)
Definition convertLive (version : string) : M unit :=
  let! s := getM in
  let '(obj, err) := Convert (u_Converter (st_Updater s)) (Live s) version in
  let! _ := setLive obj in
  match err with Some e => failM (ErrConverter e) | None => retM tt end.

(** [R] orders the ranges of the call of the updater. *)
Definition State_UpdateObject (R : Ranges) (tv : option TypedValue) (version manager : string) : M unit :=
  let! _ := checkInit version in
  let! _ := convertLive version in
  let! s := getM in
  let! res := liftM ErrUpdater (Update R (st_Updater s) (Live s) tv version (st_Managers s) manager) in
  let! _ := setLive res.1 in
  setManagers res.2.

Definition State_ApplyObject (R : Ranges) (tv : option TypedValue) (version manager : string) (force : bool) : M unit :=
  let! _ := checkInit version in
  let! _ := convertLive version in
  let! s := getM in
  let! res := liftM ErrUpdater (Apply R (st_Updater s) (Live s) tv version (st_Managers s) manager force) in
  let! _ := setManagers res.2 in
  match res.1 with Some _ => setLive res.1 | None => retM tt end.

(** [parser.Type(version).FromYAML(FixTabsOrDie(obj), opts...)]. *)
Definition parseObject (p : TypeParser) (obj : YAMLObject) (version : string) (opts : list ValidationOptions) :
    Result ParseError TypedValue :=
  o ← FixTabsOrDie obj; FromYAML (p version) o opts.

Definition State_Update (R : Ranges) (obj : YAMLObject) (version manager : string) : M unit :=
  let! s := getM in
  let! tv := liftM ErrParse (parseObject (st_Parser s) obj version [AllowDuplicates]) in
  State_UpdateObject R (Some tv) version manager.

Definition State_Apply (R : Ranges) (obj : YAMLObject) (version manager : string) (force : bool) : M unit :=
  let! s := getM in
  let! tv := liftM ErrParse (parseObject (st_Parser s) obj version []) in
  State_ApplyObject R (Some tv) version manager force.

(** ** Operations *)

Definition hasConflict (conflicts : Conflicts) (conflict : Conflict) : bool :=
  existsb (fun c => Conflict_Equals conflict c) conflicts.

Definition addedConflicts (one other : Conflicts) : Conflicts :=
  List.filter (fun conflict => negb (hasConflict one conflict)) other.

(** The types that implement [Operation].  The expected conflicts of an apply are
    [None] when nil. *)
Inductive Operation :=
  | OpApply (Manager APIVersion : string) (Object : YAMLObject) (expected : option Conflicts)
  | OpApplyObject (Manager APIVersion : string) (Object : option TypedValue) (expected : option Conflicts)
  | OpForceApply (Manager APIVersion : string) (Object : YAMLObject)
  | OpForceApplyObject (Manager APIVersion : string) (Object : option TypedValue)
  | OpExtractApply (Manager APIVersion : string) (Object : YAMLObject)
  | OpExtractApplyObject (Manager APIVersion : string) (Object : option TypedValue)
  | OpUpdate (Manager APIVersion : string) (Object : YAMLObject)
  | OpUpdateObject (Manager APIVersion : string) (Object : option TypedValue)
  | OpChangeParser (p : Parser).

(** [preprocess] decodes the YAML of an operation. *)
Definition preprocess_Apply (parser : TypeParser) (m v : string) (obj : YAMLObject) (cs : option Conflicts) :
    Result ParseError Operation :=
  tv <- parseObject parser obj v [];; ok (OpApplyObject m v (Some tv) cs).

Definition preprocess_ForceApply (parser : TypeParser) (m v : string) (obj : YAMLObject) : Result ParseError Operation :=
  tv <- parseObject parser obj v [];; ok (OpForceApplyObject m v (Some tv)).

Definition preprocess_ExtractApply (parser : TypeParser) (m v : string) (obj : YAMLObject) : Result ParseError Operation :=
  tv <- parseObject parser obj v [];; ok (OpExtractApplyObject m v (Some tv)).

Definition preprocess_Update (parser : TypeParser) (m v : string) (obj : YAMLObject) : Result ParseError Operation :=
  tv <- parseObject parser obj v [AllowDuplicates];; ok (OpUpdateObject m v (Some tv)).

Definition preprocess (parser : TypeParser) (op : Operation) : Result ParseError Operation :=
  match op with
  | OpApply m v obj cs => preprocess_Apply parser m v obj cs
  | OpForceApply m v obj => preprocess_ForceApply parser m v obj
  | OpExtractApply m v obj => preprocess_ExtractApply parser m v obj
  | OpUpdate m v obj => preprocess_Update parser m v obj
  | OpApplyObject _ _ _ _ | OpForceApplyObject _ _ _ | OpExtractApplyObject _ _ _ | OpUpdateObject _ _ _
  | OpChangeParser _ => ok op
  end.

(** [ApplyObject.run]: the conflicts must be the expected ones. *)
Definition run_ApplyObject (R : Ranges) (m v : string) (obj : option TypedValue) (expected : option Conflicts) : M unit :=
  let! err := tryM (State_ApplyObject R obj v m false) in
  match expected with
  | None => match err with Some e => failM e | None => retM tt end
  | Some cs =>
    let check got :=
      if negb (length (addedConflicts cs got) =? 0)%nat || negb (length (addedConflicts got cs) =? 0)%nat
      then failM (ErrExpectedConflicts cs got) else retM tt in
    match err with
    | Some (ErrUpdater (ErrConflicts got)) => check got
    | Some e => failM e
    | None => check []
    end
  end.

(** [ExtractApplyObject.run]: apply the object on top of what the manager owns. *)
Definition run_ExtractApplyObject (R : Ranges) (m v : string) (obj : option TypedValue) : M unit :=
  let! s := getM in
  match Live s with
  | None => State_ApplyObject R obj v m true
  | Some _ =>
    let '(current, err) := Convert (u_Converter (st_Updater s)) (Live s) v in
    match err with
    | Some e => failM (ErrConverter e)
    | None =>
      let! set := match st_Managers s !! m with
        | None => retM (NewSet [])
        | Some mgr =>
          if negb (string_eqb (APIVersion mgr) v) then failM (ErrExtractVersion (APIVersion mgr) v)
          else retM (Set_Leaves (VSet mgr))
        end in
      let! merged := liftM ErrExtractMerge
        (c ← deref current; extracted ← TypedValue_ExtractItems c set; o ← deref obj; TypedValue_Merge extracted o) in
      State_ApplyObject R (Some merged) v m true
    end
  end.

(** [ChangeParser.run]: the parser is replaced even if the object does not fit it. *)
Definition run_ChangeParser (p : Parser) : M unit :=
  let! _ := setParser (Parser_Type p) in
  let! s := getM in
  let! live := liftM ErrChangeSchema (live ← deref (Live s); AsTyped (tv_value live) (p_Schema p) (tv_typeRef live) []) in
  setLive (Some live).

(** [Apply.run] and [ExtractApply.run]: preprocess, then run the result. *)
Definition run_Apply (R : Ranges) (m v : string) (obj : YAMLObject) (cs : option Conflicts) : M unit :=
  let! s := getM in
  let! tv := liftM ErrParse (parseObject (st_Parser s) obj v []) in
  run_ApplyObject R m v (Some tv) cs.

Definition run_ExtractApply (R : Ranges) (m v : string) (obj : YAMLObject) : M unit :=
  let! s := getM in
  let! tv := liftM ErrParse (parseObject (st_Parser s) obj v []) in
  run_ExtractApplyObject R m v (Some tv).

Definition run_ForceApply (R : Ranges) (m v : string) (obj : YAMLObject) : M unit := State_Apply R obj v m true.
Definition run_ForceApplyObject (R : Ranges) (m v : string) (obj : option TypedValue) : M unit :=
  State_ApplyObject R obj v m true.
Definition run_Update (R : Ranges) (m v : string) (obj : YAMLObject) : M unit := State_Update R obj v m.
Definition run_UpdateObject (R : Ranges) (m v : string) (obj : option TypedValue) : M unit := State_UpdateObject R obj v m.

(** The method [run] of the interface. *)
Definition run (R : Ranges) (op : Operation) : M unit :=
  match op with
  | OpApply m v obj cs => run_Apply R m v obj cs
  | OpApplyObject m v obj cs => run_ApplyObject R m v obj cs
  | OpForceApply m v obj => run_ForceApply R m v obj
  | OpForceApplyObject m v obj => run_ForceApplyObject R m v obj
  | OpExtractApply m v obj => run_ExtractApply R m v obj
  | OpExtractApplyObject m v obj => run_ExtractApplyObject R m v obj
  | OpUpdate m v obj => run_Update R m v obj
  | OpUpdateObject m v obj => run_UpdateObject R m v obj
  | OpChangeParser p => run_ChangeParser p
  end.

(** ** Test cases *)

Inductive TestError :=
  | ErrOperation (i : nat) (e : StateError)
  | ErrCompareLive (e : StateError)
  | ErrLiveDiffers (comparison : string)
  | ErrManagersDiffer (diff : ManagedFields)
  | ErrEmptySet (manager : string).

Record TestCase := mkTestCase {
  Ops : list Operation;
  tc_Object : YAMLObject;
  tc_APIVersion : string;
  tc_Managed : option ManagedFields;
  tc_ReturnInputOnNoop : bool;
  tc_IgnoredFields : gmap string FSet;
}.

(** [PreprocessOperations]: the operations it leaves in the test case. *)
Fixpoint PreprocessOperations (parser : TypeParser) (ops : list Operation) : Result ParseError (list Operation) :=
  match ops with
  | [] => ok []
  | op :: ops' =>
    op <- preprocess parser op;; ops' <- PreprocessOperations parser ops';; ok (op :: ops')
  end.

(** The loop over the operations, the ranges of the [i]-th ordered by [Rs i]. *)
Fixpoint runOps (Rs : nat -> Ranges) (i : nat) (ops : list Operation) (s : State E) :
    Outcome (State E * option TestError) :=
  match ops with
  | [] => Ret (s, None)
  | op :: ops' =>
    match run (Rs i) op s with
    | Panic => Panic
    | Ret (s', inl e) => Ret (s', Some (ErrOperation i e))
    | Ret (s', inr _) => runOps Rs (S i) ops' s'
    end
  end.

(** [UpdaterBuilder.BuildUpdater], and the state a test starts from. *)
Definition initState (tc : TestCase) (parser : TypeParser) (converter : Converter E) : State E :=
  mkState None parser ∅ (mkUpdater converter (tc_IgnoredFields tc) (tc_ReturnInputOnNoop tc)).

Definition BenchWithConverter (Rs : nat -> Ranges) (tc : TestCase) (parser : TypeParser) (converter : Converter E) :
    Outcome (option TestError) :=
  res ← runOps Rs 0 (Ops tc) (initState tc parser converter); Ret res.2.

(** [convertMapAnyToMapString] on maps with string keys. *)
Fixpoint convertMapAnyToMapString (obj : value) : value :=
  match obj with
  | VMap m => VMap ((fix go (m : Map) (out : Map) : Map :=
      match m with
      | [] => out
      | (key, v) :: m' => go m' (assoc_set key (convertMapAnyToMapString v) out)
      end) m [])
  | VList l => VList (map convertMapAnyToMapString l)
  | _ => obj
  end.

Section Test.
(** [cmp.Diff]. *)
Context (Diff : value -> value -> string).

(** [CompareLive]. *)
Definition CompareLive (obj : YAMLObject) (version : string) : M string :=
  fun s => match FixTabsOrDie obj with
  | Panic => Panic
  | Ret obj =>
    (let! _ := checkInit version in
     let! s := getM in
     let! tv := liftM ErrParse (FromYAML (st_Parser s version) obj [AllowDuplicates]) in
     let '(live, err) := Convert (u_Converter (st_Updater s)) (Live s) version in
     match err with
     | Some e => failM (ErrConverter e)
     | None =>
       liftM ErrConverter
         (t ← deref (tv_value tv); live ← deref live; l ← deref (tv_value live);
          ok (Diff (convertMapAnyToMapString t) (convertMapAnyToMapString l)))
     end) s
  end.

(** The last loop: the first manager with an empty set. *)
Fixpoint findEmpty (l : list (string * VersionedSet)) : option string :=
  match l with
  | [] => None
  | (manager, set) :: l' => if Set_Empty (VSet set) then Some manager else findEmpty l'
  end.

(** The checks on the managers: they are the expected ones, and none is empty.
    [order] is the order of the ranges. *)
Definition checkManagers (order : ManagedFields -> list (string * VersionedSet)) (managed : option ManagedFields)
    (m : ManagedFields) : option TestError :=
  match managed with
  | Some managed =>
    let diff := ManagedFields_Difference (order m) (order managed) m managed in
    if negb (size diff =? 0)%nat then Some (ErrManagersDiffer diff) else ErrEmptySet <$> findEmpty (order m)
  | None => ErrEmptySet <$> findEmpty (order m)
  end.

Definition TestWithConverter (Rs : nat -> Ranges) (order : ManagedFields -> list (string * VersionedSet))
    (tc : TestCase) (parser : TypeParser) (converter : Converter E) : Outcome (option TestError) :=
  res ← runOps Rs 0 (Ops tc) (initState tc parser converter);
  let '(s, err) := res in
  match err with
  | Some e => Ret (Some e)
  | None =>
    if string_eqb (tc_Object tc) EmptyString then Ret (checkManagers order (tc_Managed tc) (st_Managers s))
    else
      match CompareLive (tc_Object tc) (tc_APIVersion tc) s with
      | Panic => Panic
      | Ret (_, inl e) => Ret (Some (ErrCompareLive e))
      | Ret (s', inr comparison) =>
        if string_eqb comparison EmptyString then Ret (checkManagers order (tc_Managed tc) (st_Managers s'))
        else Ret (Some (ErrLiveDiffers comparison))
      end
  end.
End Test.
End Fixture.

#[global] Arguments StateError {Y} E.
#[global] Arguments Operation : clear implicits.
#[global] Arguments TestCase : clear implicits.

(** The converter of [Test] and [Bench]: any version but the empty one. *)
Definition dummyConverter : Converter string :=
  mkConverter (fun v version => if (String.length version =? 0)%nat then (None, Some version) else (v, None)) (fun _ => false).

(** ** Steps *)

(** A state and the states that an operation may lead to, whatever the orders of
    the ranges and whether or not it fails. *)
Inductive step {Y : YamlLib} {E} : State E -> State E -> Prop :=
  | step_run R op s s' res : RangesOk R -> run R op s = Ret (s', res) -> step s s'.

Abbreviation reachable := (rtc step).
