(* ===== verification/Format.v ===== *)
(** * Human-readable texts

    Models the [String] and [Error] methods of [value/value.go] ([ToString]),
    [fieldpath/element.go], [fieldpath/path.go], [fieldpath/set.go],
    [fieldpath/managers.go], [typed/compare.go] and [merge/conflict.go].  The verbs [%q] for a string and [%v] for a float, of package
    fmt, are parameters ([GoFormat]). *)
From stdpp Require Import gmap.
From S2P Require Import Prelude GoLib GoFloat Value ValueOrder PathElement SortedSlice FieldSet FieldSetIter.
From S2P Require Import Managers Serialize Schema TypedHelpers Compare Typed Updater State.

Class GoFormat := {
  quote : string -> string;
  formatFloat : spec_float -> string;
}.

Infix "+++" := String.append (right associativity, at level 60).

(** [strings.Join]. *)
Definition Join (strs : list string) (sep : string) : string := String.concat sep strs.

Definition nl : string := String newline EmptyString.

Definition formatBool (b : bool) : string := if b then "true" else "false".

Section Format.
Context {F : GoFormat}.

(** ** Package value *)

(** A map is visited in the order of its enumeration. *)
Fixpoint ToString (v : value) : string :=
  if IsNull v then "null"
  else if IsFloat v then formatFloat (AsFloat v)
  else if IsInt v then itoa (AsInt v)
  else if IsString v then quote (AsString v)
  else if IsBool v then formatBool (AsBool v)
  else
    match v with
    | VList l => "[" +++ Join (ToString <$> l) "," +++ "]"
    | VMap m => Join ((fun kv : string * value => kv.1 +++ "=" +++ ToString kv.2) <$> m) ""
    | _ => "{{undefined}}"
    end.

(** ** Package fieldpath *)

Definition PathElement_String (e : PathElement) : string :=
  match FieldName e, Key e, PEValue e, Index e with
  | Some n, _, _, _ => "." +++ n
  | None, Some k, _, _ =>
    "[" +++ Join ((fun f => Name f +++ "=" +++ ToString (FieldValue f)) <$> k) "," +++ "]"
  | None, None, Some v, _ => "[=" +++ ToString v +++ "]"
  | None, None, None, Some i => "[" +++ itoa i +++ "]"
  | None, None, None, None => "{{invalid path element}}"
  end.

Definition Path_String (fp : Path) : string := Join (PathElement_String <$> fp) "".

Definition Set_String (s : FSet) : string := Join (Path_String <$> Set_Iterate s) nl.

(** [lhs] in the order of the range over it. *)
Definition ManagedFields_String (lhs : list (string * VersionedSet)) : string :=
  foldl (fun s kv =>
    s +++ kv.1 +++ ":" +++ nl +++
    "- Applied: " +++ formatBool (Applied kv.2) +++ nl +++
    "- APIVersion: " +++ APIVersion kv.2 +++ nl +++
    "- Set: " +++ Set_String (VSet kv.2) +++ nl) "" lhs.

(** ** Package typed *)

Definition Comparison_String (c : Comparison) : string :=
  (if negb (Set_Empty (Modified c)) then "- Modified Fields:" +++ nl +++ Set_String (Modified c) +++ nl else "") +++
  (if negb (Set_Empty (Added c)) then "- Added Fields:" +++ nl +++ Set_String (Added c) +++ nl else "") +++
  (if negb (Set_Empty (Removed c)) then "- Removed Fields:" +++ nl +++ Set_String (Removed c) +++ nl else "").

(** ** Package merge *)

Definition Conflict_Error (c : Conflict) : string :=
  "conflict with " +++ quote (c_Manager c) +++ ": " +++ Path_String (c_Path c).

(** The map of the paths by manager, and its keys. *)
Definition groupConflicts (conflicts : Conflicts) : list (string * list Path) :=
  foldl (fun m c => assoc_set (c_Manager c) (default [] (assoc_get (c_Manager c) m) ++ [c_Path c]) m) [] conflicts.

Definition Conflicts_Error (conflicts : Conflicts) : string :=
  match conflicts with
  | [c] => Conflict_Error c
  | _ =>
    let m := groupConflicts conflicts in
    let managers := sort_stable string_ltb (assoc_keys m) in
    Join (managers ≫= (fun manager =>
      ("conflicts with " +++ quote manager +++ ":") ::
      ((fun path => "- " +++ Path_String path) <$> default [] (assoc_get manager m)))) nl
  end.
End Format.

(** ** What the texts show *)

Section FormatSpec.
Context {F : GoFormat}.

Lemma append_nil a b : a +++ b = EmptyString -> a = EmptyString /\ b = EmptyString.
Proof. by destruct a. Qed.

(** The text of a comparison is empty exactly when the comparison is. *)
Lemma Comparison_String_empty c : Comparison_String c = EmptyString <-> IsSame c = true.
Proof.
  unfold Comparison_String, IsSame. destruct (Set_Empty (Modified c)), (Set_Empty (Added c)), (Set_Empty (Removed c)); simpl; done.
Qed.

Definition conflictPaths (m : string) (conflicts : Conflicts) : list Path :=
  c_Path <$> base.filter (fun c => c_Manager c = m) conflicts.

Lemma groupConflicts_get m conflicts g :
  let get g := default [] (assoc_get m g) in
  get (foldl (fun m c => assoc_set (c_Manager c) (default [] (assoc_get (c_Manager c) m) ++ [c_Path c]) m) g conflicts) =
  get g ++ conflictPaths m conflicts.
Proof.
  cbv zeta. revert g. induction conflicts as [|c cs IH]; intros g; [by rewrite app_nil_r|]. cbn [foldl].
  rewrite IH, assoc_get_set. unfold conflictPaths. rewrite filter_cons.
  destruct (string_eqb (c_Manager c) m) eqn:E.
  - apply string_eqb_true in E. rewrite decide_True by done. rewrite fmap_cons, E. simpl. by rewrite <-app_assoc.
  - apply string_eqb_false in E. by rewrite decide_False.
Qed.

Lemma groupConflicts_keys conflicts g :
  NoDup (assoc_keys g) ->
  let g' := foldl (fun m c => assoc_set (c_Manager c) (default [] (assoc_get (c_Manager c) m) ++ [c_Path c]) m) g conflicts in
  NoDup (assoc_keys g') /\ forall m, m ∈ assoc_keys g' <-> m ∈ assoc_keys g \/ m ∈ c_Manager <$> conflicts.
Proof.
  cbv zeta. revert g. induction conflicts as [|c cs IH]; intros g ND; cbn [foldl].
  { split; [done|]. intros m. rewrite fmap_nil, elem_of_nil. tauto. }
  destruct (IH _ (assoc_set_NoDup (c_Manager c) (default [] (assoc_get (c_Manager c) g) ++ [c_Path c]) g ND)) as [ND' H].
  split; [exact ND'|]. intros m. rewrite H, assoc_set_elem, fmap_cons, elem_of_cons. tauto.
Qed.

(** The message groups the conflicts by manager, the managers in order, each with
    its fields in the order of the conflicts. *)
Lemma Conflicts_Error_groups conflicts :
  length conflicts <> 1%nat ->
  exists managers, StronglySorted str_lt managers /\ (forall m, m ∈ managers <-> m ∈ c_Manager <$> conflicts) /\
    Conflicts_Error conflicts = Join (managers ≫= (fun m =>
      ("conflicts with " +++ quote m +++ ":") ::
      ((fun p => "- " +++ Path_String p) <$> conflictPaths m conflicts))) nl.
Proof.
  intros Hlen. destruct (groupConflicts_keys conflicts [] (NoDup_nil_2)) as [ND H].
  exists (sort_stable string_ltb (assoc_keys (groupConflicts conflicts))).
  split; [by apply sort_strings_strict|]. split.
  { intros m. rewrite sort_stable_perm. unfold groupConflicts. rewrite H, elem_of_nil. tauto. }
  assert (E : forall m, default [] (assoc_get m (groupConflicts conflicts)) = conflictPaths m conflicts).
  { intros m. apply (groupConflicts_get m conflicts []). }
  transitivity (Join (sort_stable string_ltb (assoc_keys (groupConflicts conflicts)) ≫= (fun manager =>
    ("conflicts with " +++ quote manager +++ ":") ::
    ((fun path => "- " +++ Path_String path) <$> default [] (assoc_get manager (groupConflicts conflicts))))) nl).
  - by destruct conflicts as [|c [|c' cs]].
  - f_equal. generalize (sort_stable string_ltb (assoc_keys (groupConflicts conflicts))) as ms.
    induction ms as [|m ms IH]; [done|]. by rewrite !bind_cons, IH, E.
Qed.
End FormatSpec.
