(* ===== verification/Cli.v ===== *)
(** * The command line tool

    Models [internal/cli/options.go], [internal/cli/operation.go] and
    [smd/main.go].  The state of the outside world is the files, by path, and the
    text on the standard output; the errors of the operating system ([Os]),
    encoding and decoding YAML and JSON ([YamlWriter], [YamlLib], [JsonLib]) and
    the verbs of package fmt ([GoFormat], [GoPrintf]) are parameters.  The
    arguments of the command line come split into flags and values.  A write that fails writes
    nothing, and [ToJSONStream], which may flush a long text in several
    writes, is one write. *)
From stdpp Require Import gmap.
From S2P Require Import Prelude GoLib GoFloat Value ValueOrder PathElement SortedSlice FieldSet.
From S2P Require Import Serialize Schema TypedHelpers Validate Compare Merge Typed Parser Updater State Format.

(** ** The outside world *)

Class Os := {
  IoError : Type;
  notExist : string -> IoError;
  openError : string -> option IoError;
  createError : string -> option IoError;
}.

(** What a writer writes to. *)
Inductive Output := Stdout | OutFile (path : string).

Class OsWrite `{Os} := writeError : Output -> option IoError.

(** [yaml.Marshal]. *)
Class YamlWriter := {
  MarshalError : Type;
  yamlMarshal : value -> MarshalError + string;
}.

(** [fmt.Fprintf] with a format and no operands. *)
Class GoPrintf := formatNoOperands : string -> string.

Record World := mkWorld { w_files : gmap string string; w_stdout : string }.

Section Cli.
Context {O : Os} {W : OsWrite} {Y : YamlLib} {YW : YamlWriter} {J : JsonLib} {F : GoFormat} {P : GoPrintf}.

Inductive CliError :=
  | ErrTooManyOperations
  | ErrNeedTwoArgs
  | ErrSchemaRequired
  | ErrReadSchema (path : string) (e : IoError)
  | ErrSchemaInvalid (path : string) (e : ParseError)
  | ErrNoTypes
  | ErrNoOperation
  | ErrOpenOutput (path : string) (e : IoError)
  | ErrReadFile (path : string) (e : IoError)
  | ErrValidateFile (path : string) (e : ParseError)
  | ErrEmptyObject (e : ParseError)
  | ErrWalker (errs : ValidationErrors)
  | ErrJson (e : JsonError)
  | ErrMarshal (e : MarshalError)
  | ErrWrite (e : IoError).

Definition ReadFile (path : string) (w : World) : IoError + string :=
  match w_files w !! path with
  | None => inl (notExist path)
  | Some b => match openError path with Some e => inl e | None => inr b end
  end.

(** [os.Create]: an existing file is truncated. *)
Definition Create (path : string) (w : World) : IoError + World :=
  match createError path with
  | Some e => inl e
  | None => inr (mkWorld (<[path := EmptyString]> (w_files w)) (w_stdout w))
  end.

Definition Write (out : Output) (s : string) (w : World) : option IoError * World :=
  match writeError out with
  | Some e => (Some e, w)
  | None =>
    (None,
      match out with
      | Stdout => mkWorld (w_files w) (w_stdout w +++ s)
      | OutFile path => mkWorld (<[path := default EmptyString (w_files w !! path) +++ s]> (w_files w)) (w_stdout w)
      end)
  end.

(** ** operation.go *)

Record operationBase := mkBase { ob_parser : Parser; ob_typeName : string }.

Inductive CliOperation :=
  | OpListTypes (b : operationBase)
  | OpValidation (b : operationBase) (fileToValidate : string)
  | OpFieldset (b : operationBase) (fileToUse : string)
  | OpMerge (b : operationBase) (lhs rhs : string)
  | OpCompare (b : operationBase) (lhs rhs : string).

Definition parseFile (b : operationBase) (path : string) (w : World) : Result CliError TypedValue :=
  match ReadFile path w with
  | inl e => fail (ErrReadFile path e)
  | inr bytes => wrap (ErrValidateFile path) (FromYAML (Parser_Type (ob_parser b) (ob_typeName b)) bytes [])
  end.

(** The end of an [Execute] that writes its result. *)
Definition emit (out : Output) (w : World) (m : Result CliError string) : Outcome (option CliError * World) :=
  res ← m;
  Ret match res with
    | inl e => (Some e, w)
    | inr s => let '(e, w) := Write out s w in (ErrWrite <$> e, w)
    end.

Definition validation_Execute (b : operationBase) (file : string) (w : World) : Outcome (option CliError * World) :=
  res ← parseFile b file w; Ret (match res with inl e => Some e | inr _ => None end, w).

Definition fieldset_Execute (b : operationBase) (file : string) (out : Output) (w : World) :
    Outcome (option CliError * World) :=
  emit out w (
    tv <- parseFile b file w;;
    empty <- wrap ErrEmptyObject (FromYAML (Parser_Type (ob_parser b) (ob_typeName b)) "{}" []);;
    c <- wrap ErrWalker (TypedValue_Compare empty tv);;
    match Set_ToJSON (Added c) with inl e => fail (ErrJson e) | inr s => ok s end).

(** The results of the writes are not looked at. *)
Definition listTypes_Execute (b : operationBase) (out : Output) (w : World) : Outcome (option CliError * World) :=
  Ret (None, foldl (fun w td => (Write out (td_Name td +++ nl) w).2) w (Types (sp_schema (p_Schema (ob_parser b))))).

(** [value.ToYAML]; a nil value panics. *)
Definition ToYAML (v : option value) : Result CliError string :=
  match v with
  | None => Panic
  | Some v => match yamlMarshal v with inl e => fail (ErrMarshal e) | inr s => ok s end
  end.

Definition merge_Execute (b : operationBase) (lhs rhs : string) (out : Output) (w : World) :
    Outcome (option CliError * World) :=
  emit out w (
    lhs <- parseFile b lhs w;;
    rhs <- parseFile b rhs w;;
    tv <- wrap ErrWalker (TypedValue_Merge lhs rhs);;
    ToYAML (tv_value tv)).

Definition compare_Execute (b : operationBase) (lhs rhs : string) (out : Output) (w : World) :
    Outcome (option CliError * World) :=
  emit out w (
    lhs <- parseFile b lhs w;;
    rhs <- parseFile b rhs w;;
    got <- wrap ErrWalker (TypedValue_Compare lhs rhs);;
    ok (if IsSame got then "No difference" else formatNoOperands (Comparison_String got))).

Definition Execute (op : CliOperation) (out : Output) (w : World) : Outcome (option CliError * World) :=
  match op with
  | OpListTypes b => listTypes_Execute b out w
  | OpValidation b file => validation_Execute b file w
  | OpFieldset b file => fieldset_Execute b file out w
  | OpMerge b lhs rhs => merge_Execute b lhs rhs out w
  | OpCompare b lhs rhs => compare_Execute b lhs rhs out w
  end.

(** ** options.go *)

Record Options := mkOptions {
  schemaPath : string;
  typeName : string;
  output : string;
  listTypes : bool;
  validatePath : string;
  o_merge : bool;
  o_compare : bool;
  o_fieldset : string;
  lhsPath : string;
  rhsPath : string;
}.

Definition isEmpty (s : string) : bool := string_eqb s "".

(** A flag of package flag: what it sets, and its default. *)
Inductive FlagVar :=
  | StringVar (set : string -> Options -> Options) (default : string)
  | BoolVar (set : bool -> Options -> Options) (default : bool).

Definition AddFlags : list (string * FlagVar) := [
  ("schema"%string, StringVar (fun x o => mkOptions x (typeName o) (output o) (listTypes o) (validatePath o) (o_merge o) (o_compare o) (o_fieldset o) (lhsPath o) (rhsPath o)) "");
  ("type-name"%string, StringVar (fun x o => mkOptions (schemaPath o) x (output o) (listTypes o) (validatePath o) (o_merge o) (o_compare o) (o_fieldset o) (lhsPath o) (rhsPath o)) "");
  ("output"%string, StringVar (fun x o => mkOptions (schemaPath o) (typeName o) x (listTypes o) (validatePath o) (o_merge o) (o_compare o) (o_fieldset o) (lhsPath o) (rhsPath o)) "-");
  ("list-types"%string, BoolVar (fun x o => mkOptions (schemaPath o) (typeName o) (output o) x (validatePath o) (o_merge o) (o_compare o) (o_fieldset o) (lhsPath o) (rhsPath o)) false);
  ("validate"%string, StringVar (fun x o => mkOptions (schemaPath o) (typeName o) (output o) (listTypes o) x (o_merge o) (o_compare o) (o_fieldset o) (lhsPath o) (rhsPath o)) "");
  ("merge"%string, BoolVar (fun x o => mkOptions (schemaPath o) (typeName o) (output o) (listTypes o) (validatePath o) x (o_compare o) (o_fieldset o) (lhsPath o) (rhsPath o)) false);
  ("compare"%string, BoolVar (fun x o => mkOptions (schemaPath o) (typeName o) (output o) (listTypes o) (validatePath o) (o_merge o) x (o_fieldset o) (lhsPath o) (rhsPath o)) false);
  ("fieldset"%string, StringVar (fun x o => mkOptions (schemaPath o) (typeName o) (output o) (listTypes o) (validatePath o) (o_merge o) (o_compare o) x (lhsPath o) (rhsPath o)) "");
  ("lhs"%string, StringVar (fun x o => mkOptions (schemaPath o) (typeName o) (output o) (listTypes o) (validatePath o) (o_merge o) (o_compare o) (o_fieldset o) x (rhsPath o)) "");
  ("rhs"%string, StringVar (fun x o => mkOptions (schemaPath o) (typeName o) (output o) (listTypes o) (validatePath o) (o_merge o) (o_compare o) (o_fieldset o) (lhsPath o) x) "")].

(** The zero value of [Options], and the options before the arguments are parsed. *)
Definition zeroOptions : Options := mkOptions "" "" "" false "" false false "" "" "".
Definition initOptions : Options :=
  foldl (fun o f => match f.2 with StringVar set d => set d o | BoolVar set d => set d o end) zeroOptions AddFlags.

(** One argument of the command line: a flag and its value; [None] for an unknown flag or a
    value of the wrong kind, which ends the program. *)
Definition parseArg (arg : string * (string + bool)) (o : Options) : option Options :=
  match assoc_get arg.1 AddFlags, arg.2 with
  | Some (StringVar set _), inl s => Some (set s o)
  | Some (BoolVar set _), inr b => Some (set b o)
  | _, _ => None
  end.

Fixpoint parseArgs (args : list (string * (string + bool))) (o : Options) : option Options :=
  match args with [] => Some o | a :: args' => o ← parseArg a o; parseArgs args' o end.

(** How many operations were requested. *)
Definition countOperations (o : Options) : Z :=
  let c (b : bool) := if b then 1 else 0 in
  c (o_merge o) + c (o_compare o) + c (negb (isEmpty (validatePath o))) + c (listTypes o) + c (negb (isEmpty (o_fieldset o))).

(** The part of [Resolve] after the schema is read. *)
Definition resolveOperation (o : Options) (base : operationBase) : CliError + CliOperation :=
  if 1 <? countOperations o then inl ErrTooManyOperations
  else if listTypes o then inr (OpListTypes base)
  else if negb (isEmpty (validatePath o)) then inr (OpValidation base (validatePath o))
  else if o_merge o then
    if isEmpty (lhsPath o) || isEmpty (rhsPath o) then inl ErrNeedTwoArgs
    else inr (OpMerge base (lhsPath o) (rhsPath o))
  else if o_compare o then
    if isEmpty (lhsPath o) || isEmpty (rhsPath o) then inl ErrNeedTwoArgs
    else inr (OpCompare base (lhsPath o) (rhsPath o))
  else if negb (isEmpty (o_fieldset o)) then inr (OpFieldset base (o_fieldset o))
  else inl ErrNoOperation.

(** [ssParser] is the parser of the schema of schemas, [addr] the address of the new one. *)
Definition CliResolve (ssParser : Parser) (addr : nat) (o : Options) (w : World) : Result CliError CliOperation :=
  if isEmpty (schemaPath o) then fail ErrSchemaRequired
  else
    match ReadFile (schemaPath o) w with
    | inl e => fail (ErrReadSchema (schemaPath o) e)
    | inr b =>
      parser <- wrap (ErrSchemaInvalid (schemaPath o)) (NewParser ssParser addr b);;
      typeName <-
        (if isEmpty (typeName o) then
          match Types (sp_schema (p_Schema parser)) with
          | [] => fail ErrNoTypes
          | td :: _ => ok (td_Name td)
          end
        else ok (typeName o));;
      Ret (resolveOperation o (mkBase parser typeName))
    end.

Definition OpenOutput (o : Options) (w : World) : CliError + (Output * World) :=
  if string_eqb (output o) "-" then inr (Stdout, w)
  else
    match Create (output o) w with
    | inl e => inl (ErrOpenOutput (output o) e)
    | inr w => inr (OutFile (output o), w)
    end.

(** ** main.go *)

(** The messages of [log.Fatalf]; [None] is a normal exit. *)
Inductive Fatal := FatalFlags (e : CliError) | FatalOutput (e : CliError) | FatalExecute (e : CliError).

Definition smd_main (ssParser : Parser) (addr : nat) (o : Options) (w : World) : Outcome (option Fatal * World) :=
  op ← CliResolve ssParser addr o w;
  match op with
  | inl e => Ret (Some (FatalFlags e), w)
  | inr op =>
    match OpenOutput o w with
    | inl e => Ret (Some (FatalOutput e), w)
    | inr (out, w) =>
      match Execute op out w with
      | Panic => Panic
      | Ret (e, w) => Ret (match e with Some e => Some (FatalExecute e) | None => None end, w)
      end
    end
  end.
End Cli.
