(* ===== verification/StateSpec.v ===== *)
(** * What operations do to the state

    Invariants of the states that operations reach: no manager owns an empty
    set, the managers change only when an operation succeeds, and objects and
    sets stay well formed. *)
From stdpp Require Import gmap.
From S2P Require Import Prelude GoLib GoFloat Value ValueOrder PathElement SortedSlice FieldSet.
From S2P Require Import FieldSetSpec FieldSetOps FieldSetInsert FieldSetIter Managers Schema FieldSetSchema TypedHelpers.
From S2P Require Import Validate ToFieldSet ToFieldSetSpec Remove Compare CompareOk Merge MergeOk Reconcile ReconcileSpec.
From S2P Require Import Typed Parser Updater UpdaterSpec State.

(** ** Managers without empty sets *)

Definition no_empty (m : ManagedFields) : Prop := map_Forall (fun _ vs => Set_Empty (VSet vs) = false) m.

Lemma updated_nonempty {E} (s : Updater E) o n version workflow c k vs x :
  updated s o n version workflow c k vs = Some x -> Set_Empty (VSet x) = false.
Proof.
  unfold updated. destruct (obsolete _ _ _ _ _ _ _ _); [done|]. cbv zeta.
  destruct (Set_Empty _) eqn:Ee; [done|]. by intros [= <-].
Qed.

Lemma update_no_empty {E} (R : Ranges) {HR : RangesOk R} (s : Updater E) o n version managers workflow force managers' c :
  update R s o n version managers workflow force = ok (managers', c) -> no_empty managers'.
Proof.
  intros H k vs Hk. pose proof (update_ok_inv R s o n version workflow managers force _ H) as (compare & Hc & Hconv & Hf).
  destruct (update_succeeds R s o n version workflow managers compare Hc Hconv force Hf) as (m & E1 & Hv).
  rewrite H in E1. injection E1 as -> _. rewrite Hv in Hk. apply bind_Some in Hk as (vs0 & _ & Hu).
  by eapply updated_nonempty.
Qed.

Lemma Update_no_empty {E} (R : Ranges) {HR : RangesOk R} (s : Updater E) live new version managers manager o managers' :
  Update R s live new version managers manager = ok (o, managers') -> o = new /\ no_empty managers'.
Proof.
  unfold Update. destruct (reconcileManagedFieldsWithSchemaChanges _ _ _ _) as [|[e|m]]; [done|done|]. cbn [bindR].
  destruct (update _ _ _ _ _ _ _ _) as [|[e|[m1 c]]] eqn:Eu; [done|done|]. cbn [bindR].
  apply update_no_empty in Eu; [|done]. intros [= <- <-]. split; [done|].
  destruct (Set_Empty _) eqn:Ee.
  - intros k vs Hk%lookup_delete_Some. destruct Hk as [Hne Hk]. rewrite lookup_insert_ne in Hk by done. by apply (Eu k).
  - intros k vs [[<- <-]|[Hne Hk]]%lookup_insert_Some; [done|]. by apply (Eu k).
Qed.

(** The object of a successful [Apply], and that its managers are those of [update]. *)
Lemma Apply_no_empty {E} (R : Ranges) {HR : RangesOk R} (s : Updater E) live config version managers manager force o managers' :
  Apply R s live config version managers manager force = ok (o, managers') -> no_empty managers'.
Proof.
  unfold Apply. destruct (reconcileManagedFieldsWithSchemaChanges _ _ _ _) as [|[e|m]]; [done|done|].
  destruct live as [live|]; [|done]. destruct config as [config|]; [|done]. cbn [deref mbind Outcome_bind bindR].
  destruct (TypedValue_Merge live config) as [|[e|merged]]; [done|done|]. cbn [wrap bindR].
  destruct (TypedValue_ToFieldSet config) as [|[e|set]]; [done|done|]. cbn [wrap bindR].
  destruct (prune _ _ _ _ _ _) as [|[e|new]]; [done|done|]. cbn [wrap bindR].
  destruct (update _ _ _ _ _ _ _ _) as [|[e|[m' c]]] eqn:Eu; [done|done|]. cbn [bindR].
  apply update_no_empty in Eu; [|done].
  destruct (returnInputOnNoop s); [by intros [= _ <-]|]. destruct new as [new|]; [|done].
  cbn [deref mbind Outcome_bind]. destruct (EqualsPtr _ _) as [|b]; [done|]. cbn [mbind Outcome_bind].
  by intros [= _ <-].
Qed.

(** ** Reasoning on methods of the state *)
Section Methods.
Context {Y : YamlLib} {E : Type}.
Implicit Types (s : State E).

(** From a state with [P], a method returns one with [Q] and its result, or fails
    in one with [F]. *)
Definition triple {A} (P : State E -> Prop) (m : State E -> Outcome (State E * (StateError E + A)))
    (Q : A -> State E -> Prop) (F : State E -> Prop) : Prop :=
  forall s s' res, P s -> m s = Ret (s', res) -> match res with inl _ => F s' | inr a => Q a s' end.

Lemma triple_ret {A} (P F : State E -> Prop) (a : A) : triple P (retM a) (fun _ => P) F.
Proof. by intros s s' res H [= <- <-]. Qed.

Lemma triple_fail {A} (P F : State E -> Prop) e Q : (forall s, P s -> F s) -> triple P (failM (A := A) e) Q F.
Proof. intros HF s s' res H [= <- <-]. by apply HF. Qed.

Lemma triple_bind {A B} P (m : State E -> Outcome (State E * (StateError E + A))) Q (f : A -> _) (Q' : B -> _) F :
  triple P m Q F -> (forall a, triple (Q a) (f a) Q' F) -> triple P (bindM m f) Q' F.
Proof.
  intros Hm Hf s s' res H. unfold bindM. destruct (m s) as [|[s1 [e|a]]] eqn:Em; [done| |].
  - intros [= <- <-]. exact (Hm s s1 (inl e) H Em).
  - apply Hf. exact (Hm s s1 (inr a) H Em).
Qed.

Lemma triple_weaken {A} (P P' : State E -> Prop) m (Q Q' : A -> State E -> Prop) F :
  triple P' m Q' F -> (forall s, P s -> P' s) -> (forall a s, Q' a s -> Q a s) -> triple P m Q F.
Proof. intros H HP HQ s s' [e|a] Hs Em; [by apply (H s s' (inl e)); auto|]. apply HQ. by apply (H s s' (inr a)); auto. Qed.

Lemma triple_get P F : triple P getM (fun s0 s => s = s0 /\ P s) F.
Proof. by intros s s' res H [= <- <-]. Qed.

Lemma triple_lift {Er A} (P F : State E -> Prop) (w : Er -> StateError E) (r : Result Er A) :
  (forall s, P s -> F s) -> triple P (liftM w r) (fun a s => P s /\ r = ok a) F.
Proof.
  intros HF s s' res H. unfold liftM. destruct r as [|[e|a]]; [done|intros [= <- <-]; by apply HF|by intros [= <- <-]].
Qed.

Lemma triple_try P m F : triple P m (fun _ => F) F -> triple P (tryM m) (fun _ => F) F.
Proof.
  intros Hm s s' res H. unfold tryM. destruct (m s) as [|[s1 [e|a]]] eqn:Em; [done| |]; intros [= <- <-].
  - exact (Hm s s1 (inl e) H Em).
  - exact (Hm s s1 (inr a) H Em).
Qed.
End Methods.

(** ** Invariants *)

Definition withLive {E} (s : State E) (o : option TypedValue) : State E :=
  mkState o (st_Parser s) (st_Managers s) (st_Updater s).
Definition withManagers {E} (s : State E) (m : ManagedFields) : State E :=
  mkState (Live s) (st_Parser s) m (st_Updater s).
Definition withParser {E} (s : State E) (p : TypeParser) : State E :=
  mkState (Live s) p (st_Managers s) (st_Updater s).

Section Invariant.
Context {Y : YamlLib} {E : Type} (I : State E -> Prop) (good : TypedValue -> Prop) (goodText : YAMLObject -> Prop) (goodParser : Parser -> Prop).
Abbreviation convert s v := (Convert (u_Converter (st_Updater s)) (Live s) v).

(** What keeps [I]: the steps of the methods on [good] objects. *)
Hypothesis I_parses : forall s v obj opts tv, I s -> goodText obj -> parseObject (st_Parser s) obj v opts = ok tv -> good tv.
Hypothesis I_init : forall s v tv, I s -> Live s = None -> FromUnstructured (st_Parser s v) VNull [] = ok tv ->
  I (withLive s (Some tv)).
Hypothesis I_convert : forall s v, I s -> I (withLive s (convert s v).1).
Hypothesis I_update : forall R s obj v m res, RangesOk R -> I s -> (forall tv, obj = Some tv -> good tv) ->
  Update R (st_Updater s) (Live s) obj v (st_Managers s) m = ok res -> I (withManagers (withLive s res.1) res.2).
Hypothesis I_apply : forall R s obj v m force res, RangesOk R -> I s -> (forall tv, obj = Some tv -> good tv) ->
  Apply R (st_Updater s) (Live s) obj v (st_Managers s) m force = ok res ->
  I (withManagers (match res.1 with Some _ => withLive s res.1 | None => s end) res.2).
Hypothesis I_extract : forall s v c x set obj merged, I s -> (convert s v).1 = Some c ->
  TypedValue_ExtractItems c set = Ret x -> good obj -> TypedValue_Merge x obj = ok merged -> good merged.
Hypothesis I_parser : forall s p, I s -> goodParser p -> I (withParser s (Parser_Type p)).
Hypothesis I_schema : forall s p live tv, I s -> goodParser p -> Live s = Some live ->
  AsTyped (tv_value live) (p_Schema p) (tv_typeRef live) [] = ok tv -> I (withLive s (Some tv)).

Lemma checkInit_inv v : triple I (checkInit v) (fun _ => I) I.
Proof.
  eapply triple_bind; [apply triple_get|]. intros s0. cbn beta. destruct (Live s0) eqn:El.
  - eapply triple_weaken; [apply (triple_ret I)|by intros s [_ H]|done].
  - eapply triple_bind; [apply triple_lift; by intros s [_ H]|]. intros tv s s' res [[-> H] Ev] [= <- <-].
    by apply (I_init s0 v).
Qed.

Lemma convertLive_inv v : triple I (convertLive v) (fun _ => I) I.
Proof.
  eapply triple_bind; [apply triple_get|]. intros s0 s s' res [-> H]. cbn beta.
  pose proof (I_convert s0 v H) as Hc. destruct (convert s0 v) as [o [e|]]; by intros [= <- <-].
Qed.

Lemma State_UpdateObject_inv R obj v m :
  RangesOk R -> (forall tv, obj = Some tv -> good tv) -> triple I (State_UpdateObject R obj v m) (fun _ => I) I.
Proof.
  intros HR Hg. eapply triple_bind; [apply checkInit_inv|]. intros []. eapply triple_bind; [apply convertLive_inv|]. intros [].
  eapply triple_bind; [apply triple_get|]. intros s0. eapply triple_bind; [apply triple_lift; by intros s [_ H]|].
  intros upd s s' res [[-> H] Eu] [= <- <-]. by apply (I_update R s0 obj v m).
Qed.

Lemma State_ApplyObject_inv R obj v m force :
  RangesOk R -> (forall tv, obj = Some tv -> good tv) -> triple I (State_ApplyObject R obj v m force) (fun _ => I) I.
Proof.
  intros HR Hg. eapply triple_bind; [apply checkInit_inv|]. intros []. eapply triple_bind; [apply convertLive_inv|]. intros [].
  eapply triple_bind; [apply triple_get|]. intros s0. eapply triple_bind; [apply triple_lift; by intros s [_ H]|].
  intros upd s s' res [[-> H] Eu]. pose proof (I_apply R s0 obj v m force upd HR H Hg Eu) as HI.
  unfold bindM, setManagers, setLive, retM. destruct upd as [[tv|] m']; by intros [= <- <-].
Qed.

Lemma run_ApplyObject_inv R m v obj cs :
  RangesOk R -> (forall tv, obj = Some tv -> good tv) -> triple I (run_ApplyObject R m v obj cs) (fun _ => I) I.
Proof.
  intros HR Hg. eapply triple_bind; [apply triple_try; by apply State_ApplyObject_inv|]. intros err.
  assert (Hend : forall got cs, triple I (if negb (length (addedConflicts cs got) =? 0)%nat || negb (length (addedConflicts got cs) =? 0)%nat
      then failM (ErrExpectedConflicts cs got) else retM tt) (fun _ => I) I).
  { intros got cs'. destruct (_ || _); [by apply triple_fail|apply triple_ret]. }
  destruct cs as [cs|]; [|by destruct err; [apply triple_fail|apply triple_ret]].
  destruct err as [[]|]; try (by apply triple_fail); [|apply Hend].
  match goal with |- context [ErrUpdater ?e] => destruct e | _ => idtac end; try (by apply triple_fail); apply Hend.
Qed.

Lemma run_ExtractApplyObject_inv R m v obj :
  RangesOk R -> (forall tv, obj = Some tv -> good tv) -> triple I (run_ExtractApplyObject R m v obj) (fun _ => I) I.
Proof.
  intros HR Hg. eapply triple_bind; [apply triple_get|]. intros s0. cbn beta.
  destruct (Live s0) as [live|] eqn:El; [|eapply triple_weaken; [by apply State_ApplyObject_inv|by intros s [_ H]|done]].
  rewrite <-El. destruct (convert s0 v) as [current [e|]] eqn:Ec; [apply triple_fail; by intros s [_ H]|].
  apply (triple_bind _ _ (fun _ s => s = s0 /\ I s)).
  { destruct (st_Managers s0 !! m) as [mgr|]; [|apply triple_ret].
    destruct (negb _); [apply triple_fail; by intros s [_ H]|apply triple_ret]. }
  intros set. eapply triple_bind; [apply triple_lift; by intros s [_ H]|]. intros merged.
  intros s s' res [[-> H] Em]. destruct current as [c|]; [|done]. cbn [deref mbind Outcome_bind] in Em.
  destruct (TypedValue_ExtractItems c set) as [|x] eqn:Ex; [done|]. cbn [mbind Outcome_bind] in Em.
  destruct obj as [obj|]; [|done]. cbn [deref mbind Outcome_bind] in Em.
  apply (State_ApplyObject_inv R (Some merged) v m true HR); [|done]. intros tv [= <-].
  apply (I_extract s0 v c x set obj); auto. by rewrite Ec.
Qed.

Lemma run_ChangeParser_inv p : goodParser p -> triple I (run_ChangeParser p) (fun _ => I) I.
Proof.
  intros Hp. apply (triple_bind _ _ (fun _ => I)); [by intros s s' res H [= <- <-]; apply I_parser|]. intros [].
  eapply triple_bind; [apply triple_get|]. intros s0. eapply triple_bind; [apply triple_lift; by intros s [_ H]|].
  intros tv s s' res [[-> H] Ev] [= <- <-]. destruct (Live s0) as [live|] eqn:El; [|done]. by apply (I_schema s0 p live).
Qed.

(** An operation on [good] objects and texts. *)
Definition op_good (op : Operation) : Prop :=
  match op with
  | OpApply _ _ text _ | OpForceApply _ _ text | OpExtractApply _ _ text | OpUpdate _ _ text => goodText text
  | OpApplyObject _ _ obj _ | OpForceApplyObject _ _ obj | OpExtractApplyObject _ _ obj | OpUpdateObject _ _ obj =>
    forall tv, obj = Some tv -> good tv
  | OpChangeParser p => goodParser p
  end.

Lemma parse_then obj v opts (k : TypedValue -> State E -> Outcome (State E * (StateError E + unit))) :
  goodText obj -> (forall tv, good tv -> triple I (k tv) (fun _ => I) I) ->
  triple I (bindM getM (fun s => bindM (liftM ErrParse (parseObject (st_Parser s) obj v opts)) k)) (fun _ => I) I.
Proof.
  intros Ht Hk. eapply triple_bind; [apply triple_get|]. intros s0. eapply triple_bind; [apply triple_lift; by intros s [_ H]|].
  intros tv s s' res [[-> H] Ev]. apply (Hk tv); [|done]. by apply (I_parses s0 v obj opts).
Qed.

Lemma run_inv R op : RangesOk R -> op_good op -> triple I (run R op) (fun _ => I) I.
Proof.
  intros HR Hg. destruct op; cbn [run op_good] in *; try (apply parse_then; [exact Hg|]); intros; unfold run_ForceApplyObject, run_UpdateObject;
    auto using run_ApplyObject_inv, run_ExtractApplyObject_inv, State_UpdateObject_inv, State_ApplyObject_inv, run_ChangeParser_inv.
  all: try (apply run_ApplyObject_inv; [done|]; congruence).
  all: try (apply State_ApplyObject_inv; [done|]; congruence).
  all: try (apply run_ExtractApplyObject_inv; [done|]; congruence).
  all: apply State_UpdateObject_inv; [done|]; congruence.
Qed.

Lemma run_keeps R op s s' res : RangesOk R -> op_good op -> I s -> run R op s = Ret (s', res) -> I s'.
Proof. intros HR Hg Hs Er. pose proof (run_inv R op HR Hg s s' res Hs Er) as H. by destruct res. Qed.
End Invariant.

(** What every operation keeps, a sequence of operations keeps. *)
Lemma runOps_keeps {Y : YamlLib} {E} (I : State E -> Prop) (Q : Operation -> Prop) Rs i ops (s s' : State E) err :
  (forall R op s s' res, RangesOk R -> Q op -> I s -> run R op s = Ret (s', res) -> I s') ->
  (forall i, RangesOk (Rs i)) -> Forall Q ops -> I s -> runOps Rs i ops s = Ret (s', err) -> I s'.
Proof.
  intros HI HR F. revert i s. induction F as [|op ops Hop F IH]; intros i s Hs; simpl; [by intros [= <- _]|].
  destruct (run (Rs i) op s) as [|[s1 [e|u]]] eqn:Er; [done| |].
  - intros [= <- _]. by eapply HI.
  - apply IH. by eapply HI.
Qed.

(** ** No reachable state has an empty set *)
Section NoEmpty.
Context {Y : YamlLib} {E : Type}.
Local Abbreviation I := (fun s : State E => no_empty (st_Managers s)).

Lemma run_no_empty R op (s s' : State E) res :
  RangesOk R -> no_empty (st_Managers s) -> run R op s = Ret (s', res) -> no_empty (st_Managers s').
Proof.
  intros HR Hs. apply (run_keeps I (fun _ => True) (fun _ => True) (fun _ => True)); try done.
  - intros R' s0 obj v m [o m'] HR' _ _ Eu. by apply Update_no_empty in Eu as [_ ?].
  - intros R' s0 obj v m force [o m'] HR' _ _ Eu. apply Apply_no_empty in Eu; [|done]. by destruct o.
  - by destruct op.
Qed.

Lemma reachable_no_empty (s s' : State E) : reachable s s' -> no_empty (st_Managers s) -> no_empty (st_Managers s').
Proof. induction 1 as [|s1 s2 s3 [R op s1' s2' res HR Er] _ IH]; [done|]. intros Hs. eapply IH, run_no_empty; eauto. Qed.

Lemma findEmpty_None l m : enumerates l m -> no_empty m -> findEmpty l = None.
Proof.
  intros El Hm. assert (F : Forall (fun e => Set_Empty (VSet e.2) = false) l).
  { apply Forall_forall. intros [k vs] He. unfold enumerates in El. rewrite El in He.
    apply elem_of_map_to_list in He. by apply (Hm k vs). }
  clear El. induction F as [|[k vs] l Hk F IH]; simpl; [done|]. simpl in Hk. by rewrite Hk.
Qed.
End NoEmpty.

(** ** The last checks of a test *)
Section Checks.
Context {Y : YamlLib} {E : Type}.

Lemma runOps_error Rs i ops (s s' : State E) err : runOps Rs i ops s = Ret (s', Some err) -> exists j e, err = ErrOperation j e.
Proof.
  revert i s. induction ops as [|op ops IH]; intros i s; simpl; [done|].
  destruct (run (Rs i) op s) as [|[s1 [e|u]]]; [done| |by apply IH]. intros [= _ <-]. eauto.
Qed.

Lemma checkInit_same m v : triple (fun s : State E => st_Managers s = m) (checkInit v)
  (fun _ s => st_Managers s = m) (fun s => st_Managers s = m).
Proof.
  eapply triple_bind; [apply triple_get|]. intros s0. cbn beta. destruct (Live s0).
  - eapply triple_weaken; [apply (triple_ret (fun s => st_Managers s = m))|by intros s [_ H]|done].
  - eapply triple_bind; [apply triple_lift; by intros s [_ H]|]. by intros tv s s' res [[-> H] Ev] [= <- <-].
Qed.

Lemma CompareLive_managers Diff obj v (s s' : State E) res :
  CompareLive Diff obj v s = Ret (s', res) -> st_Managers s' = st_Managers s.
Proof.
  intros H. set (same := fun x : State E => st_Managers x = st_Managers s).
  assert (T : triple same (CompareLive Diff obj v) (fun _ => same) same);
    [|pose proof (T s s' res eq_refl H); by destruct res].
  unfold CompareLive. destruct (FixTabsOrDie obj) as [|o]; [done|].
  eapply triple_bind; [apply checkInit_same|]. intros []. eapply triple_bind; [apply triple_get|]. intros s0.
  eapply triple_bind; [apply triple_lift; by intros x [_ Hx]|]. intros tv. cbn beta.
  destruct (Convert _ _ _) as [l [e|]]; [apply triple_fail; by intros x [[_ Hx] _]|].
  eapply triple_weaken; [apply (triple_lift (fun x => same x))|by intros x [[_ Hx] _]|by intros a x [Hx _]]. done.
Qed.

Lemma checkManagers_nonempty order managed m manager :
  enumerates (order m) m -> no_empty m -> checkManagers (E := E) order managed m <> Some (ErrEmptySet manager).
Proof.
  intros Ho Hm. unfold checkManagers. rewrite (findEmpty_None _ m) by done.
  destruct managed as [x|]; [|done]. cbv zeta. by destruct (negb _).
Qed.
End Checks.

(** ** Failed operations *)
Section Failed.
Context {Y : YamlLib} {E : Type} (m0 : ManagedFields).
Local Abbreviation same := (fun s : State E => st_Managers s = m0).
Local Abbreviation any := (fun _ => (fun _ : State E => True)).

Lemma prepare_same v :
  triple same (bindM (checkInit v) (fun _ => convertLive v)) (fun _ => same) same.
Proof.
  apply (triple_bind _ _ (fun _ => same)).
  - apply checkInit_same.
  - intros []. eapply triple_bind; [apply triple_get|]. intros s0 s s' res [-> H]. cbn beta.
    destruct (Convert _ _ _) as [o [e|]]; by intros [= <- <-].
Qed.

(** Until the updater succeeds, nothing touches the managers. *)
Lemma prepared {A B} v (r : State E -> Result (UpdateError E) A) (k : A -> State E -> Outcome (State E * (StateError E + B))) :
  (forall a s s' e, k a s <> Ret (s', inl e)) ->
  triple same (bindM (checkInit v) (fun _ => bindM (convertLive v) (fun _ =>
    bindM getM (fun s => bindM (liftM ErrUpdater (r s)) k)))) any same.
Proof.
  intros Hk s s' res Hs. pose proof (prepare_same v s) as Hp. unfold bindM in *.
  destruct (checkInit v s) as [|[s1 [e|u]]]; [done| |].
  { intros [= <- <-]. by apply (Hp s1 (inl e)). }
  destruct (convertLive v s1) as [|[s2 [e|u']]]; [done| |].
  { intros [= <- <-]. by apply (Hp s2 (inl e)). }
  cbn [getM]. unfold liftM. destruct (r s2) as [|[e|a]]; [done| |].
  { intros [= <- <-]. by apply (Hp s2 (inr u')). }
  intros H. destruct res as [e|b]; [|done]. by apply Hk in H.
Qed.

Lemma State_UpdateObject_same R obj v m : triple same (State_UpdateObject R obj v m) any same.
Proof. apply prepared. intros a s s' e. done. Qed.

Lemma State_ApplyObject_same R obj v m force : triple same (State_ApplyObject R obj v m force) any same.
Proof. apply prepared. intros [[tv|] m'] s s' e; done. Qed.

Lemma parse_same {A} obj v opts (k : TypedValue -> State E -> Outcome (State E * (StateError E + A))) :
  (forall tv, triple same (k tv) any same) ->
  triple same (bindM getM (fun s => bindM (liftM ErrParse (parseObject (st_Parser s) obj v opts)) k)) any same.
Proof.
  intros Hk. eapply triple_bind; [apply triple_get|]. intros s0. eapply triple_bind; [apply triple_lift; by intros s [_ H]|].
  intros tv s s' res [[-> H] Ev]. by apply (Hk tv).
Qed.

Lemma run_ExtractApplyObject_same R m v obj : triple same (run_ExtractApplyObject R m v obj) any same.
Proof.
  eapply triple_bind; [apply triple_get|]. intros s0. cbn beta.
  destruct (Live s0) as [live|]; [|eapply triple_weaken; [apply State_ApplyObject_same|by intros s [_ H]|done]].
  destruct (Convert _ _ _) as [current [e|]]; [apply triple_fail; by intros s [_ H]|].
  apply (triple_bind _ _ (fun _ => same)).
  { destruct (st_Managers s0 !! m) as [mgr|]; [destruct (negb _)|]; [apply triple_fail; by intros s [_ H]|..];
      (eapply triple_weaken; [apply (triple_ret same)|by intros s [_ H]|done]). }
  intros set. eapply triple_bind; [by apply triple_lift|]. intros merged.
  eapply triple_weaken; [apply State_ApplyObject_same|by intros s [H _]|done].
Qed.

Lemma run_ChangeParser_same p : triple same (run_ChangeParser p) any same.
Proof.
  apply (triple_bind _ _ (fun _ => same)); [by intros s s' res H [= <- <-]|]. intros [].
  eapply triple_bind; [apply triple_get|]. intros s0. eapply triple_bind; [apply triple_lift; by intros s [_ H]|].
  by intros tv s s' res [[-> H] Ev] [= <- <-].
Qed.

(** An apply that succeeds without the conflicts it expects changes the managers and fails. *)
Lemma run_ApplyObject_fails R m v obj cs s s' e :
  same s -> run_ApplyObject R m v obj cs s = Ret (s', inl e) ->
  same s' \/ exists expected, e = ErrExpectedConflicts expected [].
Proof.
  intros Hs. unfold run_ApplyObject, bindM, tryM.
  destruct (State_ApplyObject R obj v m false s) as [|[s1 [e1|u]]] eqn:Ea; [done| |].
  - assert (Hs1 : same s1) by exact (State_ApplyObject_same R obj v m false s s1 (inl e1) Hs Ea).
    intros H. left. destruct cs as [cs|]; [|by injection H as <- _].
    destruct e1 as [| | |u| | | |]; try (by injection H as <- _).
    destruct u; try (by injection H as <- _). destruct (_ || _) in H; [by injection H as <- _|done].
  - intros H. right. destruct cs as [cs|]; [|done]. destruct (_ || _) in H; [|done]. injection H as _ <-. eauto.
Qed.

Lemma run_fails R op s s' e :
  same s -> run R op s = Ret (s', inl e) -> same s' \/ exists expected, e = ErrExpectedConflicts expected [].
Proof.
  intros Hs Er. destruct op; cbn [run] in Er.
  - unfold run_Apply, bindM, getM, liftM in Er. destruct (parseObject _ _ _ _) as [|[e'|tv]]; [done|by left; injection Er as <- _|].
    exact (run_ApplyObject_fails _ _ _ _ _ _ _ _ Hs Er).
  - exact (run_ApplyObject_fails _ _ _ _ _ _ _ _ Hs Er).
  - left. refine (parse_same _ _ _ _ _ s s' (inl e) Hs Er). intros tv. apply State_ApplyObject_same.
  - left. by apply (State_ApplyObject_same _ _ _ _ _ s s' (inl e) Hs Er).
  - left. refine (parse_same _ _ _ _ _ s s' (inl e) Hs Er). intros tv. apply run_ExtractApplyObject_same.
  - left. by apply (run_ExtractApplyObject_same _ _ _ _ s s' (inl e) Hs Er).
  - left. refine (parse_same _ _ _ _ _ s s' (inl e) Hs Er). intros tv. apply State_UpdateObject_same.
  - left. by apply (State_UpdateObject_same _ _ _ _ s s' (inl e) Hs Er).
  - left. by apply (run_ChangeParser_same _ s s' (inl e) Hs Er).
Qed.
End Failed.

(** ** Preprocessing *)

(** An operation does what its preprocessed form does. *)
Lemma run_preprocess {Y : YamlLib} {E} R op (s : State E) :
  run R op s = bindM (liftM ErrParse (preprocess (st_Parser s) op)) (run R) s.
Proof.
  destruct op; try done; cbn [run preprocess];
    unfold run_Apply, run_ForceApply, run_ExtractApply, run_Update, State_Apply, State_Update, preprocess_Apply,
      preprocess_ForceApply, preprocess_ExtractApply, preprocess_Update, bindM, getM, liftM;
    by destruct (parseObject _ _ _ _) as [|[e|tv]].
Qed.
