(* ===== verification/GoodState.v ===== *)
(** * Objects and sets stay well formed

    An object is good when its schema is safe (see [CompareOk.v]) and its value
    comparable.  Removal, extraction, merge and conversion keep objects good, the
    updater keeps the sets of the managers well formed, and so does every
    sequence of operations. *)
From stdpp Require Import gmap.
From S2P Require Import Prelude GoLib GoFloat Value ValueOrder PathElement SortedSlice FieldSet.
From S2P Require Import FieldSetSpec FieldSetOps FieldSetInsert FieldSetIter Managers Schema FieldSetSchema TypedHelpers.
From S2P Require Import Validate ToFieldSet ToFieldSetSpec Remove Compare CompareOk Merge MergeOk Reconcile ReconcileSpec.
From S2P Require Import Typed Parser Updater UpdaterSpec State StateSpec.

Section Good.
Context (r : Regime).

Definition good_tv (tv : TypedValue) : Prop :=
  Schema_safe r (sp_schema (tv_schema tv)) = true /\ TypeRef_safe r (tv_typeRef tv) = true /\ opt_ok r (tv_value tv).

Definition good_opt (o : option TypedValue) : Prop := forall tv, o = Some tv -> good_tv tv.

(** ** Removal *)

Lemma remove_items_keeps sc ex rec t s l acc :
  (forall c s tr, c ∈ l -> value_ok r c = true -> value_ok r (rec c s tr) = true) ->
  Forall (fun x => value_ok r x = true) l -> Forall (fun x => value_ok r x = true) acc ->
  Forall (fun x => value_ok r x = true) (remove_items sc ex rec t s l acc).
Proof.
  intros Hrec Hl. revert acc. induction Hl as [|c l Hc Hl IH]; intros acc Ha; [done|]. cbn [remove_items]. cbv zeta.
  assert (IH' : forall acc, Forall (fun x => value_ok r x = true) acc ->
    Forall (fun x => value_ok r x = true) (remove_items sc ex rec t s l acc)).
  { intros acc'. apply IH. intros c' s' tr' Hin. apply Hrec. by right. }
  assert (Hsnoc : forall acc x, Forall (fun x => value_ok r x = true) acc -> value_ok r x = true ->
    Forall (fun x => value_ok r x = true) (acc ++ [x])) by (intros; apply Forall_app_2; auto).
  assert (Hr : forall s tr, value_ok r (rec c s tr) = true) by (intros; apply Hrec; [by left|done]).
  repeat case_match; auto 6.
Qed.

Lemma remove_entries_keeps ex rec t s (m acc : Map) :
  (forall kv s tr, kv ∈ m -> value_ok r kv.2 = true -> value_ok r (rec kv.2 s tr) = true) ->
  Forall (fun kv => value_ok r kv.2 = true) m -> value_ok r (VMap acc) = true ->
  value_ok r (VMap (remove_entries ex rec t s m acc)) = true.
Proof.
  intros Hrec Hm. revert acc. induction Hm as [|[k x] m Hx Hm IH]; intros acc Ha; [done|]. cbn [remove_entries]. cbv zeta.
  assert (IH' : forall acc, value_ok r (VMap acc) = true -> value_ok r (VMap (remove_entries ex rec t s m acc)) = true).
  { intros acc'. apply IH. intros kv s' tr' Hin. apply Hrec. by right. }
  assert (Hr : forall s tr, value_ok r (rec x s tr) = true) by (intros; apply (Hrec (k, x)); [by left|done]).
  simpl in Hx. repeat case_match; auto using map_set_ok.
Qed.

Lemma removeItems_keeps sc ex v s tr : value_ok r v = true -> value_ok r (removeItemsWithSchema v s sc tr ex) = true.
Proof.
  revert s tr. induction v as [|b|k i|f|f|str|l IH|m IH] using value_rect_nested; intros s tr Hv; rewrite remove_kind;
    (destruct (Resolve sc tr) as [a|]; [|done]); (destruct (kind_of a _) as [[t|t|t]|]; try done);
    unfold remove_doList, remove_doMap; cbn [IsList IsMap negb AsList AsMap default]; try done.
  - destruct (_ =? _)%nat; [done|]. destruct (string_eqb _ _); [by destruct ex|]. destruct (_ <? _)%nat; [|done].
    cbn [default]. apply value_ok_list in Hv. apply value_ok_list. apply remove_items_keeps; [|done|constructor].
    intros c s' tr' Hc. rewrite Forall_forall in IH. by apply IH.
  - destruct (_ =? _)%nat; [done|]. destruct (string_eqb _ _); [by destruct ex|]. destruct (_ <? _)%nat; [|done].
    cbn [default]. apply value_ok_map in Hv as [_ Hv]. apply remove_entries_keeps; [|done|done].
    intros kv s' tr' Hc. rewrite Forall_forall in IH. by apply IH.
Qed.

Lemma removeItemsOf_keeps tv items ex v : good_tv tv -> removeItemsOf tv items ex = Ret v -> good_tv (withValue tv v).
Proof.
  intros (Hs & Ht & Hv). unfold removeItemsOf. destruct (tv_value tv) as [x|] eqn:Ev.
  - intros [= <-]. split_and!; [done..|]. intros y [= <-]. by apply removeItems_keeps, Hv.
  - destruct (resolveSchema _ _ _ _ _) as [|[e u]]; [done|]. intros [= <-]. split_and!; [done..|]. by intros y [= <-].
Qed.

Lemma RemoveItems_good tv items out : good_tv tv -> TypedValue_RemoveItems tv items = Ret out -> good_tv out.
Proof.
  intros Hg. unfold TypedValue_RemoveItems. destruct (removeItemsOf tv items false) as [|v] eqn:E; [done|].
  intros [= <-]. by eapply removeItemsOf_keeps.
Qed.

Lemma ExtractItems_good tv items out : good_tv tv -> TypedValue_ExtractItems tv items = Ret out -> good_tv out.
Proof.
  intros Hg. unfold TypedValue_ExtractItems. destruct (removeItemsOf tv items true) as [|v] eqn:E; [done|].
  intros [= <-]. by eapply removeItemsOf_keeps.
Qed.

(** ** Merge, comparison and validation *)

Lemma Merge_good a b out : good_tv a -> good_tv b -> TypedValue_Merge a b = ok out -> good_tv out.
Proof.
  intros (Hs & Ht & Ha) (_ & _ & Hb). unfold TypedValue_Merge, typed_merge.
  destruct (same_type a b) as [|[e|[]]]; [done|done|]. cbn [bindR].
  destruct (merge_ok r (sp_schema (tv_schema a)) ruleKeepRHS None (tv_typeRef a) (tv_value a) (tv_value b) false None)
    as (errs & out' & -> & Ho); [done|apply ruleKeepRHS_keeps|done..|]. cbn [mbind Outcome_bind].
  destruct (_ <? _)%nat; [done|]. intros [= <-]. done.
Qed.

Lemma Compare_good a b c : good_tv a -> good_tv b -> TypedValue_Compare a b = ok c -> comparison_ok r c.
Proof.
  intros (Hs & Ht & Ha) (_ & _ & Hb). unfold TypedValue_Compare.
  destruct (same_type a b) as [|[e|[]]]; [done|done|]. cbn [bindR].
  destruct (compare_ok r (sp_schema (tv_schema a)) (tv_typeRef a) (tv_value a) (tv_value b) [] false None
    (mkComparison (NewSet []) (NewSet []) (NewSet []))) as (errs & out' & -> & Ho); [done..|].
  cbn [mbind Outcome_bind]. destruct (_ <? _)%nat; [done|]. by intros [= <-].
Qed.

Lemma AsTyped_good v sp tr opts tv :
  Schema_safe r (sp_schema sp) = true -> TypeRef_safe r tr = true -> opt_ok r v ->
  AsTyped v sp tr opts = ok tv -> good_tv tv.
Proof.
  intros Hs Ht Hv. unfold AsTyped. destruct (TypedValue_Validate _ _) as [|[e|u]]; [done|done|].
  by intros [= <-].
Qed.

(** ** Field sets *)

(** The alternative of a safe atom is safe. *)
Lemma kind_of_safe a v k :
  Atom_safe r a = true -> kind_of a v = Some k ->
  match k with KScalar _ => True | KList t => List_safe r t = true | KMap t => Map_safe r t = true end.
Proof.
  intros Ha%(deduceAtom_safe r a (Some v)). unfold kind_of. destruct (deduceAtom a (Some v)) as [s l m].
  cbn [Atom_safe] in Ha. apply andb_true_iff in Ha as [Hl Hm]. cbn [a_Map a_Scalar a_List].
  destruct m as [m|]; [by intros [= <-]|]. destruct s; [by intros [= <-]|]. destruct l; [by intros [= <-]|done].
Qed.

Lemma ownedPaths_dom sc v tr :
  Schema_safe r sc = true -> TypeRef_safe r tr = true -> value_ok r v = true ->
  Forall (Forall (pe_dom r)) (ownedPaths sc v tr).
Proof.
  intros Hsc. revert tr. induction v as [|b|k i|f|f|str|l IH|m IH] using value_rect_nested; intros tr Htr Hv;
    rewrite ownedPaths_kind; (destruct (Resolve sc tr) as [a|] eqn:Ea; [|done]);
    apply (Resolve_safe r sc Hsc tr a Htr) in Ea;
    (destruct (kind_of a _) as [[t|t|t]|] eqn:Ek; [by repeat constructor| | |done]);
    (destruct (string_eqb _ Atomic); [by repeat constructor|]); try done;
    apply (kind_of_safe a _ _ Ea) in Ek.
  - apply value_ok_list in Hv. rewrite Forall_forall in IH, Hv.
    assert (Ht : TypeRef_safe r (l_ElementType t) = true) by (by destruct t).
    assert (Hd : forall c, c ∈ l -> pe_dom r (itemPE sc t c)).
    { intros c Hc. apply itemPE_dom; [by apply element_defaults|auto]. }
    apply Forall_forall. intros p (c & Hp & Hc)%list_elem_of_bind. unfold itemPaths in Hp.
    apply elem_of_app in Hp as [Hp|Hp%list_elem_of_singleton]; [|subst p; by repeat constructor; auto].
    destruct (is_duplicate _ _) in Hp; [by apply not_elem_of_nil in Hp|].
    apply list_elem_of_fmap in Hp as (q & -> & Hq). constructor; [auto|].
    specialize (IH c Hc _ Ht (Hv c Hc)). rewrite Forall_forall in IH. auto.
  - apply value_ok_map in Hv as [_ Hv]. rewrite Forall_forall in IH, Hv.
    apply Forall_forall. intros p (kv & Hp & Hc)%list_elem_of_bind.
    apply elem_of_app in Hp as [Hp|Hp].
    + apply list_elem_of_fmap in Hp as (q & -> & Hq). constructor; [done|].
      specialize (IH kv Hc _ (mapFieldType_safe r t kv.1 Ek) (Hv kv Hc)). rewrite Forall_forall in IH. auto.
    + destruct (ownsField _ _ _); [|by apply not_elem_of_nil in Hp].
      apply list_elem_of_singleton in Hp as ->. by repeat constructor.
Qed.

Lemma ToFieldSet_good tv set : good_tv tv -> TypedValue_ToFieldSet tv = ok set -> Set_ok r set = true.
Proof.
  intros (Hs & Ht & Hv). unfold TypedValue_ToFieldSet. destruct (tv_value tv) as [v|] eqn:Ev.
  - destruct (toFieldSet_walks r (sp_schema (tv_schema tv)) v (tv_typeRef tv) [] (NewSet [])) as (errs & s' & -> & Ha & _);
      [constructor|apply ownedPaths_dom; auto|done|].
    cbn [mbind Outcome_bind fst snd]. destruct (negb _); [done|]. intros [= <-]. apply Ha.
  - unfold toFieldSet. cbn [oheight toFieldSet_fuel]. unfold tfs_body, resolveSchema, handleAtom.
    destruct (Resolve _ _) as [[sc l m]|]; [|done]. cbn [deduceAtom a_Map a_Scalar a_List].
    destruct m as [m|]; [|destruct sc; [by intros [= <-]|by destruct l]]. cbn [doMap tfs_handler]. unfold tfs_doMap.
    destruct (string_eqb _ _); by intros [= <-].
Qed.

(** ** The managers *)

Definition managers_ok (m : ManagedFields) : Prop := map_Forall (fun _ vs => Set_ok r (VSet vs) = true) m.

(** What the updater is given: a converter that returns good objects for good
    objects, and well-formed sets of ignored fields. *)
Record updater_ok {E} (s : Updater E) : Prop := {
  converts_good : forall o v, good_opt o -> good_opt (Convert (u_Converter s) o v).1;
  ignored_ok : forall v f, IgnoredFields s !! v = Some f -> Set_ok r f = true;
}.

Lemma foldlR_keeps {E S B} (f : S -> B -> Result E S) (P : S -> Prop) (Q : B -> Prop) l st st' :
  (forall st b st', Q b -> P st -> f st b = ok st' -> P st') ->
  Forall Q l -> P st -> foldlR f st l = ok st' -> P st'.
Proof.
  intros Hf F. revert st. induction F as [|b l Hb F IH]; intros st HP; cbn [foldlR]; [by intros [= <-]|].
  destruct (f st b) as [|[e|st1]] eqn:E1; cbn [bindR]; [done|done|]. apply IH. by apply (Hf st b).
Qed.

Lemma enumerates_ok l m : enumerates l m -> managers_ok m -> Forall (fun e => Set_ok r (VSet e.2) = true) l.
Proof.
  intros El Hm. apply Forall_forall. intros [k vs] He. unfold enumerates in El. rewrite El in He.
  apply elem_of_map_to_list in He. by apply (Hm k).
Qed.

Section Managers.
Context {E : Type} (R : Ranges) {HR : RangesOk R} (s : Updater E) (Hs : updater_ok s).

Lemma converted o v tv err : good_opt o -> Convert (u_Converter s) o v = (Some tv, err) -> good_tv tv.
Proof. intros Ho Ec. by apply (converts_good s Hs o v Ho); rewrite Ec. Qed.

Lemma reconcile_managers_ok live m m' :
  managers_ok m -> reconcileManagedFieldsWithSchemaChanges R s live m = ok m' -> managers_ok m'.
Proof.
  intros Hm. apply (foldlR_keeps _ managers_ok (fun e => Set_ok r (VSet e.2) = true)).
  - intros st [k vs] st' Hb Hst H. rewrite reconcile_visit_entry in H.
    destruct (reconcileEntry s live vs) as [|[e|o]] eqn:Er; [done|done|]. cbn [bindR] in H. injection H as <-.
    destruct o as [x|]; [|done]. apply map_Forall_insert_2; [|done].
    unfold reconcileEntry in Er. destruct (Convert _ _ _) as [tv err].
    destruct (IsMissingVersionError _ _); [done|]. destruct err; [done|]. destruct tv as [tv|]; [|done].
    cbn [deref mbind Outcome_bind] in Er. unfold Reconcile_TypedValue in Er.
    destruct (reconcile_answers r (sp_schema (tv_schema tv)) (VSet vs) (tv_typeRef tv) Hb) as ([e|[y|]] & E1 & Hres);
      rewrite E1 in Er; cbn [wrap bindR] in Er; [done|..]; injection Er as <-; [|done]. apply Hres.
  - apply (enumerates_ok _ m); [apply range_enumerates|done].
  - apply map_Forall_empty.
Qed.

Lemma comparePtr_ok o n c : good_opt o -> good_opt n -> comparePtr o n = ok (E := UpdateError E) c -> comparison_ok r c.
Proof.
  intros Ho Hn. unfold comparePtr. destruct o as [o|]; [|done]. destruct n as [n|]; [|done]. cbn [deref mbind Outcome_bind].
  destruct (TypedValue_Compare o n) as [|[e|c']] eqn:Ec; [done|done|]. intros [= <-]. exact (Compare_good o n c' (Ho o eq_refl) (Hn n eq_refl) Ec).
Qed.

Lemma cmpOf_ok o n version c0 v c :
  good_opt o -> good_opt n -> comparison_ok r c0 -> cmpOf s o n version c0 v = Some c -> comparison_ok r c.
Proof.
  intros Ho Hn Hc. unfold cmpOf, versionCmp. destruct (decide _); [by intros [= <-]|]. unfold compareAt.
  destruct (Convert (u_Converter s) o v) as [vo [e|]] eqn:E1; [by destruct (IsMissingVersionError _ _)|].
  destruct (Convert (u_Converter s) n v) as [vn [e|]] eqn:E2; [by destruct (IsMissingVersionError _ _)|].
  destruct (comparePtr vo vn) as [|[e|c1]] eqn:E3; [done|done|]. cbn [bindR ok]. intros [= <-].
  apply ExcludeFields_ok; [|intros f; apply (ignored_ok s Hs)]. eapply comparePtr_ok; [| |exact E3].
  - intros tv ->. exact (converted o v tv None Ho E1).
  - intros tv ->. exact (converted n v tv None Hn E2).
Qed.

Lemma updated_ok o n version workflow c0 k vs x :
  good_opt o -> good_opt n -> comparison_ok r c0 -> Set_ok r (VSet vs) = true ->
  updated s o n version workflow c0 k vs = Some x -> Set_ok r (VSet x) = true.
Proof.
  intros Ho Hn Hc Hv. unfold updated. destruct (obsolete _ _ _ _ _ _ _ _); [done|]. cbv zeta.
  destruct (Set_Empty _); [done|]. intros [= <-].
  assert (Hoth : forall c, others s o n version workflow c0 k vs = Some c -> comparison_ok r c).
  { unfold others. destruct (decide _); [done|]. intros c. by apply cmpOf_ok. }
  apply minus_Set_ok; [apply minus_Set_ok; [done|]|]; intros y; unfold entry_conflict, entry_removed;
    (destruct (others _ _ _ _ _ _ _ _) as [c|]; [|done]); destruct (Hoth c eq_refl) as (HR1 & HM & HA);
    destruct (Set_Empty _); try done; intros [= <-]; [|done].
  by apply Set_Intersection_ok, Set_Union_ok.
Qed.

Lemma update_ok o n version managers workflow force m' c :
  good_opt o -> good_opt n -> managers_ok managers ->
  update R s o n version managers workflow force = ok (m', c) -> managers_ok m' /\ comparison_ok r c.
Proof.
  intros Ho Hn Hm H. pose proof (update_ok_inv R s o n version workflow managers force _ H) as (compare & Hc & Hconv & Hf).
  destruct (update_succeeds R s o n version workflow managers compare Hc Hconv force Hf) as (m & E1 & Hv).
  rewrite H in E1. injection E1 as <- ->.
  assert (Hc0 : comparison_ok r (ExcludeFields compare (IgnoredFields s !! version))).
  { apply ExcludeFields_ok; [exact (comparePtr_ok o n compare Ho Hn Hc)|]. intros f. apply (ignored_ok s Hs). }
  split; [|done]. intros k x. rewrite Hv. intros (vs & Hk & Hu)%bind_Some. eapply updated_ok; [..|exact Hu]; try done.
  by apply (Hm k).
Qed.

Lemma Update_ok live new version managers manager o m' :
  good_opt live -> good_opt new -> managers_ok managers ->
  Update R s live new version managers manager = ok (o, m') -> good_opt o /\ managers_ok m'.
Proof.
  intros Hl Hn Hm H. pose proof H as [-> _]%Update_no_empty; [|done]. split; [done|]. unfold Update in H.
  destruct (reconcileManagedFieldsWithSchemaChanges _ _ _ _) as [|[e|m]] eqn:Er; [done|done|]. cbn [bindR] in H.
  apply reconcile_managers_ok in Er; [|done].
  destruct (update _ _ _ _ _ _ _ _) as [|[e|[m1 c]]] eqn:Eu; [done|done|]. cbn [bindR] in H. injection H as <-.
  apply update_ok in Eu as [Hm1 (HR1 & HM & HA)]; [|done..].
  assert (Hset : Set_ok r (Set_RecursiveDifference
    (Set_Union (Set_Union (Set_Difference (VSet match m1 !! manager with Some m => m | None => NewVersionedSet (NewSet []) version false end) (Removed c)) (Modified c)) (Added c))
    (default (NewSet []) (IgnoredFields s !! version))) = true).
  { apply Set_RecursiveDifference_ok; [apply Set_Union_ok; [apply Set_Union_ok; [apply Set_Difference_ok|]|]|]; try done.
    - destruct (m1 !! manager) as [vs|] eqn:Ev; [by apply (Hm1 manager)|done].
    - destruct (IgnoredFields s !! version) as [f|] eqn:Ef; [by apply (ignored_ok s Hs version)|done]. }
  destruct (Set_Empty _); [|by apply map_Forall_insert_2]. apply map_Forall_delete. by apply map_Forall_insert_2.
Qed.

(** *** Pruning *)

Lemma convert_good o v o' err : good_opt o -> Convert (u_Converter s) o v = (o', err) -> good_opt o'.
Proof. intros Ho Ec. pose proof (converts_good s Hs o v Ho) as H. by rewrite Ec in H. Qed.

Lemma addBackForVersion_good mp v managed mp' :
  good_opt mp.1 /\ good_opt mp.2 -> addBackOwnedItemsForVersion s mp.1 mp.2 v managed = ok mp' ->
  good_opt mp'.1 /\ good_opt mp'.2.
Proof.
  intros [Hm Hp]. unfold addBackOwnedItemsForVersion.
  destruct (Convert (u_Converter s) mp.1 v) as [m [e|]] eqn:E1; apply convert_good in E1; try done.
  { destruct (IsMissingVersionError _ _); [|done]. by intros [= <-]. }
  destruct (Convert (u_Converter s) mp.2 v) as [p [e|]] eqn:E2; apply convert_good in E2; try done.
  { destruct (IsMissingVersionError _ _); [|done]. by intros [= <-]. }
  destruct m as [m|]; [|done]. cbn [deref mbind Outcome_bind].
  destruct (TypedValue_ToFieldSet m) as [|[e|ms]]; [done|done|]. cbn [wrap bindR].
  destruct p as [p|]; [|done]. cbn [deref mbind Outcome_bind].
  destruct (TypedValue_ToFieldSet p) as [|[e|ps]]; [done|done|]. cbn [wrap bindR].
  destruct (TypedValue_RemoveItems _ _) as [|out] eqn:Er; [done|]. cbn [mbind Outcome_bind]. intros [= <-].
  split; [done|]. intros tv [= <-]. exact (RemoveItems_good _ _ _ (E1 m eq_refl) Er).
Qed.

Lemma addBackOwned_good merged pruned v managed manager out :
  good_opt merged -> good_opt pruned -> addBackOwnedItems R s merged pruned v managed manager = ok out -> good_opt out.
Proof.
  intros Hm Hp. unfold addBackOwnedItems. set (at0 := managedAtVersion _).
  assert (H0 : forall mp at1, match at0 !! v with
      | Some managed => res <- addBackOwnedItemsForVersion s merged pruned v managed;; ok (res, delete v at0)
      | None => ok ((merged, pruned), at0) end = ok (E := UpdateError E) (mp, at1) -> good_opt mp.1 /\ good_opt mp.2).
  { intros mp at1. destruct (at0 !! v) as [x|]; [|by intros [= <- _]].
    destruct (addBackOwnedItemsForVersion _ _ _ _ _) as [|[e|res]] eqn:Ea; [done|done|]. intros [= <- _].
    by apply (addBackForVersion_good (merged, pruned) v x). }
  destruct (match at0 !! v with Some _ => _ | None => _ end) as [|[e|[mp at1]]]; [done|done|]. cbn [bindR].
  specialize (H0 mp at1 eq_refl). destruct (foldlR _ _ _) as [|[e|mp']] eqn:El; [done|done|]. intros [= <-].
  eapply (foldlR_keeps _ (fun mp => good_opt mp.1 /\ good_opt mp.2) (fun _ => True)) in El; [apply El| |by apply Forall_true|done].
  intros st b st' _ Hst Hb. by eapply addBackForVersion_good.
Qed.

Lemma addBackDangling_good merged pruned last out :
  good_opt merged -> good_opt pruned -> addBackDanglingItems s merged pruned last = ok out -> good_opt out.
Proof.
  intros Hm Hp. unfold addBackDanglingItems.
  destruct (Convert (u_Converter s) pruned _) as [p [e|]] eqn:E1; apply convert_good in E1; try done.
  { destruct (IsMissingVersionError _ _); [|done]. by intros [= <-]. }
  destruct p as [p|]; [|done]. cbn [deref mbind Outcome_bind].
  destruct (TypedValue_ToFieldSet p) as [|[e|ps]]; [done|done|]. cbn [wrap bindR].
  destruct merged as [m|]; [|done]. cbn [deref mbind Outcome_bind].
  destruct (TypedValue_ToFieldSet m) as [|[e|ms]]; [done|done|]. cbn [wrap bindR].
  destruct (TypedValue_RemoveItems _ _) as [|out'] eqn:Er; [done|]. cbn [mbind Outcome_bind]. intros [= <-] tv [= <-].
  exact (RemoveItems_good _ _ _ (Hm m eq_refl) Er).
Qed.

Lemma prune_good merged managers manager last out :
  good_opt merged -> prune R s merged managers manager last = ok out -> good_opt out.
Proof.
  intros Hm. unfold prune. destruct last as [last|]; [|by intros [= <-]].
  destruct (Set_Empty _); [by intros [= <-]|].
  destruct (Convert (u_Converter s) merged _) as [cm [e|]] eqn:E1; apply convert_good in E1; try done.
  { destruct (IsMissingVersionError _ _); [|done]. by intros [= <-]. }
  destruct cm as [m|]; [|done]. cbn [deref mbind Outcome_bind].
  destruct (TypedValue_RemoveItems _ _) as [|p0] eqn:E2; [done|]. cbn [mbind Outcome_bind].
  apply RemoveItems_good in E2; [|by apply E1].
  destruct (addBackOwnedItems _ _ _ _ _ _ _) as [|[e|p1]] eqn:E3; [done|done|]. cbn [wrap bindR].
  apply addBackOwned_good in E3; [|done|by intros tv [= <-]].
  destruct (addBackDanglingItems _ _ _ _) as [|[e|p2]] eqn:E4; [done|done|]. cbn [wrap bindR].
  apply addBackDangling_good in E4; [|done..].
  destruct (managers !! manager) as [x|]; [|done]. cbn [deref mbind Outcome_bind].
  destruct (Convert (u_Converter s) p2 _) as [o [e|]] eqn:E5; [done|]. apply convert_good in E5; [|done].
  by intros [= <-].
Qed.

Lemma Apply_ok live config version managers manager force o m' :
  good_opt live -> good_opt config -> managers_ok managers ->
  Apply R s live config version managers manager force = ok (o, m') -> good_opt o /\ managers_ok m'.
Proof.
  intros Hl Hc Hm. unfold Apply.
  destruct (reconcileManagedFieldsWithSchemaChanges _ _ _ _) as [|[e|m]] eqn:Er; [done|done|].
  apply reconcile_managers_ok in Er; [|done].
  destruct live as [live|]; [|done]. destruct config as [config|]; [|done]. cbn [deref mbind Outcome_bind bindR].
  specialize (Hl live eq_refl) as Hl1. specialize (Hc config eq_refl) as Hc1.
  destruct (TypedValue_Merge live config) as [|[e|merged]] eqn:Em; [done|done|]. cbn [wrap bindR].
  apply Merge_good in Em; [|done..].
  destruct (TypedValue_ToFieldSet config) as [|[e|set]] eqn:Et; [done|done|]. cbn [wrap bindR].
  apply ToFieldSet_good in Et; [|done]. fold (appliedSet s version set).
  assert (Ha : Set_ok r (appliedSet s version set) = true).
  { unfold appliedSet. destruct (IgnoredFields s !! version) as [f|] eqn:Ef; [|done].
    apply Set_RecursiveDifference_ok; [done|]. by apply (ignored_ok s Hs version). }
  destruct (prune _ _ _ _ _ _) as [|[e|new]] eqn:Ep; [done|done|]. cbn [wrap bindR].
  apply prune_good in Ep; [|by intros tv [= <-]].
  destruct (update _ _ _ _ _ _ _ _) as [|[e|[m1 c]]] eqn:Eu; [done|done|]. cbn [bindR].
  apply update_ok in Eu as [Hm1 _]; [|done|done|by apply map_Forall_insert_2].
  destruct (returnInputOnNoop s); [by intros [= <- <-]|]. destruct new as [new|]; [|done]. cbn [deref mbind Outcome_bind].
  destruct (EqualsPtr _ _) as [|b]; [done|]. cbn [mbind Outcome_bind]. intros [= <- <-]. split; [|done].
  by destruct b.
Qed.
End Managers.

(** ** The state *)

Section States.
Context {Y : YamlLib} {E : Type}.

Definition good_parser (p : TypeParser) : Prop :=
  forall v, Schema_safe r (sp_schema (pt_Schema (p v))) = true /\ TypeRef_safe r (pt_TypeRef (p v)) = true.

Record good_state (s : State E) : Prop := {
  live_good : good_opt (Live s);
  parser_good : good_parser (st_Parser s);
  managers_good : managers_ok (st_Managers s);
  updater_good : updater_ok (st_Updater s);
}.

(** The text decodes, if at all, to a comparable value. *)
Definition text_ok (obj : YAMLObject) : Prop :=
  forall text v, FixTabsOrDie obj = Ret text -> unmarshalValue text = inr v -> value_ok r v = true.

Lemma parse_good p obj v opts tv : good_parser p -> text_ok obj -> parseObject p obj v opts = ok tv -> good_tv tv.
Proof.
  intros Hp Hy. unfold parseObject, FromYAML. destruct (FixTabsOrDie obj) as [|o] eqn:Eo; [done|]. cbn [mbind Outcome_bind].
  destruct (unmarshalValue o) as [e|x] eqn:Ex; [done|].
  destruct (AsTyped _ _ _ _) as [|[e|tv']] eqn:Ea; [done|done|]. intros [= <-].
  eapply AsTyped_good; [apply Hp|apply Hp| |exact Ea]. intros y [= <-]. exact (Hy o x Eo Ex).
Qed.

Definition op_objects_good : Operation -> Prop :=
  op_good good_tv text_ok (fun p => Schema_safe r (sp_schema (p_Schema p)) = true).

Lemma run_good R op (s s' : State E) res :
  RangesOk R -> op_objects_good op -> good_state s -> run R op s = Ret (s', res) -> good_state s'.
Proof.
  intros HR. apply (run_keeps good_state good_tv text_ok); try done; clear s s' res R HR op.
  - intros s v obj opts tv Hs. by apply parse_good, parser_good.
  - intros s v tv [Hl Hp Hm Hu] _ Ea. split; try done. intros x [= <-].
    eapply AsTyped_good; [apply Hp|apply Hp| |exact Ea]. by intros y [= <-].
  - intros s v [Hl Hp Hm Hu]. split; try done. exact (converts_good _ Hu _ v Hl).
  - intros R s obj v m [o m'] HR [Hl Hp Hm Hu] Hg Eu. apply Update_ok in Eu as [Ho Hm']; [by split|done..].
  - intros R s obj v m force [o m'] HR [Hl Hp Hm Hu] Hg Eu. apply Apply_ok in Eu as [Ho Hm']; [|done..].
    by destruct o; split.
  - intros s v c x set obj merged [Hl Hp Hm Hu] Ec Ex Hg Em.
    apply Merge_good in Em; [done| |done]. eapply ExtractItems_good; [|exact Ex]. by apply (converts_good _ Hu _ v Hl).
  - intros s p [Hl Hp Hm Hu] Hg. by split.
  - intros s p live tv [Hl Hp Hm Hu] Hg El Ea. split; try done. intros x [= <-].
    destruct (Hl live El) as (_ & Ht & Hv). by eapply AsTyped_good.
Qed.
End States.
End Good.
