(* ===== verification/PruneSpec.v ===== *)
(** * Package merge: what pruning removes

    [prune] removes from the merged object what the applying manager applied
    before and does not apply any more.  For a scalar that is reached by field
    names ([leafAt]), with all managers at one version: it is removed if the
    manager applied it and no manager owns it now; it stays if a manager owns
    it, or if the manager had not applied it nor a field above it. *)
From stdpp Require Import gmap.
From S2P Require Import Prelude GoLib GoFloat Value ValueOrder PathElement SortedSlice FieldSet.
From S2P Require Import FieldSetSpec FieldSetOps FieldSetInsert FieldSetIter Managers Schema FieldSetSchema TypedHelpers.
From S2P Require Import Validate ToFieldSet ToFieldSetSpec Remove Compare CompareOk Typed Updater UpdaterSpec GoodState.

(** ** Leaves *)

(** The scalar [w] is in [v] at the field names, through granular maps. *)
Fixpoint leafAt (sc : Schema) (v : value) (tr : TypeRef) (names : list string) (w : value) : Prop :=
  exists a, Resolve sc tr = Some a /\
  match names with
  | [] => v = w /\ exists t, kind_of a v = Some (KScalar t)
  | n :: names' =>
    exists t m x, kind_of a v = Some (KMap t) /\ string_eqb (m_ER t) Atomic = false /\
      v = VMap m /\ assoc_get n m = Some x /\ leafAt sc x (mapFieldType t n) names' w
  end.

(** Finds it by evaluation. *)
Fixpoint findLeaf (sc : Schema) (v : value) (tr : TypeRef) (names : list string) : option value :=
  match Resolve sc tr with
  | None => None
  | Some a =>
    match names, kind_of a v with
    | [], Some (KScalar _) => Some v
    | n :: names', Some (KMap t) =>
      if string_eqb (m_ER t) Atomic then None
      else
        match v with
        | VMap m => match assoc_get n m with Some x => findLeaf sc x (mapFieldType t n) names' | None => None end
        | _ => None
        end
    | _, _ => None
    end
  end.

Lemma findLeaf_leafAt sc v tr names w : findLeaf sc v tr names = Some w -> leafAt sc v tr names w.
Proof.
  revert v tr. induction names as [|n names IH]; intros v tr; cbn [findLeaf leafAt];
    (destruct (Resolve sc tr) as [a|]; [|done]); (destruct (kind_of a v) as [[t|t|t]|] eqn:Ek; try done).
  - intros [= ->]. exists a. split; [done|]. split; [done|]. by exists t.
  - destruct (string_eqb _ _) eqn:EA; [done|]. destruct v as [| | | | | | |m]; try done.
    destruct (assoc_get n m) as [x|] eqn:Ex; [|done]. intros H%IH. exists a. split; [done|]. by exists t, m, x.
Qed.

Abbreviation fields names := (peField <$> names).

Lemma fields_dom r names : Forall (pe_dom r) (fields names).
Proof. apply Forall_fmap, Forall_true. done. Qed.

Lemma itemPE_FieldName sc t c : FieldName (itemPE sc t c) = None.
Proof.
  unfold itemPE, listItemToPathElement, keyedAssociativeListItemToPathElement, setItemToPathElement.
  by repeat case_match; simplify_eq.
Qed.

Lemma Equals_peField n pe : PathElement_Equals pe (peField n) = true -> FieldName pe = Some n.
Proof. unfold PathElement_Equals. cbn. destruct (FieldName pe); [by intros ->%string_eqb_true|done]. Qed.

Section Leaves.
Context (r : Regime) (sc : Schema).

Lemma leafAt_valueAt v tr names w : leafAt sc v tr names w -> valueAt v names = Some w.
Proof.
  revert v tr. induction names as [|n names IH]; intros v tr (a & Ea & H).
  - by destruct H as [-> _].
  - destruct H as (t & m & x & _ & _ & -> & Ex & H). cbn. rewrite Ex. by apply (IH x (mapFieldType t n)).
Qed.

(** The object owns its leaves. *)
Lemma leafAt_owned v tr names w : leafAt sc v tr names w -> fields names ∈ ownedPaths sc v tr.
Proof.
  revert v tr. induction names as [|n names IH]; intros v tr (a & Ea & H); rewrite ownedPaths_kind, Ea.
  - destruct H as (_ & t & ->). by apply list_elem_of_singleton.
  - destruct H as (t & m & x & -> & -> & -> & Ex & H). apply list_elem_of_bind. exists (n, x). split; [|by apply assoc_get_Some].
    apply elem_of_app. left. rewrite fmap_cons. by apply list_elem_of_fmap_2, IH.
Qed.

(** What an object owns at or below field names is there. *)
Lemma owned_valueAt v tr names q p :
  value_ok r v = true -> p ∈ ownedPaths sc v tr -> Path_Equals p (fields names ++ q) = true -> valueAt v names <> None.
Proof.
  revert v tr p. induction names as [|n names IH]; intros v tr p Hv Hp Heq; [done|].
  rewrite ownedPaths_kind in Hp. destruct (Resolve sc tr) as [a|]; [|by apply not_elem_of_nil in Hp].
  destruct (kind_of a v) as [[t|t|t]|]; [by apply list_elem_of_singleton in Hp as ->| | |by apply not_elem_of_nil in Hp];
    (destruct (string_eqb _ _); [by apply list_elem_of_singleton in Hp as ->|]);
    destruct v as [| | | | | |l|m]; try by apply not_elem_of_nil in Hp.
  - apply list_elem_of_bind in Hp as (c & Hp & _).
    assert (exists p', p = itemPE sc t c :: p') as [p' ->].
    { apply elem_of_app in Hp as [Hp| ->%list_elem_of_singleton]; [|by eexists].
      destruct (is_duplicate _ _); [by apply not_elem_of_nil in Hp|]. apply list_elem_of_fmap in Hp as (p' & -> & _). by eexists. }
    rewrite fmap_cons in Heq. cbn [app] in Heq. rewrite Path_Equals_cons in Heq.
    apply andb_true_iff in Heq as [Heq%Equals_peField _]. by rewrite itemPE_FieldName in Heq.
  - apply value_ok_map in Hv as [ND F]. apply list_elem_of_bind in Hp as ([k x] & Hp & Hin). cbn [fst snd] in Hp.
    assert (Hx : forall p', p = peField k :: p' -> assoc_get n m = Some x /\ Path_Equals p' (fields names ++ q) = true).
    { intros p' ->. rewrite fmap_cons in Heq. cbn [app] in Heq. rewrite Path_Equals_cons in Heq.
      apply andb_true_iff in Heq as [Heq%Equals_peField Hp']. injection Heq as ->. by rewrite assoc_get_NoDup. }
    rewrite Forall_forall in F. specialize (F _ Hin). cbn [snd] in F. cbn [valueAt].
    apply elem_of_app in Hp as [Hp|Hp].
    + apply list_elem_of_fmap in Hp as (p' & -> & Hp'). destruct (Hx p' eq_refl) as [-> Hq]. by eapply IH.
    + destruct (ownsField _ _ _); [|by apply not_elem_of_nil in Hp]. apply list_elem_of_singleton in Hp as ->.
      destruct (Hx [] eq_refl) as [-> Hq]. by destruct names.
Qed.

(** The fields above a leaf are owned, or named by the schema. *)
Lemma leafAt_prefixes v tr names w p :
  leafAt sc v tr names w -> p ∈ path_prefixes (fields names) ->
  p ∈ ownedPaths sc v tr \/ is_named sc tr p = true.
Proof.
  revert v tr p. induction names as [|n names IH]; intros v tr p (a & Ea & H) Hp; [by apply not_elem_of_nil in Hp|].
  destruct H as (t & m & x & Ek & EA & -> & Ex & H). rewrite fmap_cons in Hp. cbn [path_prefixes] in Hp.
  assert (Em : a_Map a = Some t).
  { clear -Ek. destruct a as [s l [m'|]]; unfold kind_of in Ek; cbn in *; [by injection Ek as ->|]. by destruct s, l. }
  assert (Ha : resolveOrZero sc tr = a) by (unfold resolveOrZero; by rewrite Ea).
  assert (Hown : forall q : Path, q ∈ ((cons (peField n) <$> ownedPaths sc x (mapFieldType t n)) ++
      (if ownsField t n x then [[peField n]] else [])) -> q ∈ ownedPaths sc (VMap m) tr).
  { intros q Hq. rewrite ownedPaths_kind, Ea, Ek, EA. apply list_elem_of_bind. exists (n, x). split; [done|].
    by apply assoc_get_Some. }
  apply elem_of_cons in Hp as [->|(q & -> & Hq)%list_elem_of_fmap].
  - cbn [is_named]. rewrite Ha. unfold isNamedField. cbn [FieldName peField]. rewrite Em.
    destruct (FindField t n) as [f|] eqn:Ef; [by right|]. left. apply Hown, elem_of_app. right.
    unfold ownsField. rewrite Ef, orb_true_r. by left.
  - destruct (IH x (mapFieldType t n) q H Hq) as [Hq'|Hq'].
    + left. apply Hown, elem_of_app. left. by apply list_elem_of_fmap_2.
    + right. destruct q as [|q0 q]; [by apply path_prefixes_nonnil in Hq|]. cbn [is_named]. rewrite Ha.
      unfold childTypeRef. cbn [FieldName peField]. rewrite Em. unfold mapFieldType in Hq'. by destruct (FindField t n).
Qed.

(** ** Removal and leaves *)

(** One step of removal at a map on the way to a leaf. *)
Lemma remove_map_step t a tr m s n x :
  Resolve sc tr = Some a -> kind_of a (VMap m) = Some (KMap t) -> string_eqb (m_ER t) Atomic = false ->
  value_ok r (VMap m) = true -> assoc_get n m = Some x ->
  let rec := fun v s tr => removeItemsWithSchema v s sc tr false in
  match remove_entry rec t s n x with
  | None => valueAt (removeItemsWithSchema (VMap m) s sc tr false) [n] = None
  | Some y => exists m', removeItemsWithSchema (VMap m) s sc tr false = VMap m' /\ assoc_get n m' = Some y
  end.
Proof.
  intros Ea Ek EA Hv Ex rec. rewrite remove_kind, Ea, Ek. unfold remove_doMap. cbn [IsMap negb AsMap].
  apply value_ok_map in Hv as [ND _]. rewrite EA.
  pose proof (remove_entries_get rec t s m [] n ND) as HG. rewrite Ex in HG. unfold rec in HG at 2.
  destruct (length m =? 0)%nat eqn:El.
  { apply Nat.eqb_eq, nil_length_inv in El as ->. done. }
  fold rec in HG |- *. destruct (remove_entry rec t s n x) as [y|].
  - destruct (remove_entries false rec t s m []) as [|e m'] eqn:Em; [done|]. cbn [length Nat.ltb Nat.leb default].
    by exists (e :: m').
  - cbn [assoc_get] in HG. destruct (0 <? _)%nat; [|done]. cbn [default from_option id valueAt]. by rewrite HG.
Qed.

Lemma remove_gone_leaf v tr s names w :
  value_ok r v = true -> leafAt sc v tr names w -> Set_wf r s = true -> names <> [] ->
  Set_Has s (fields names) = true ->
  valueAt (removeItemsWithSchema v s sc tr false) names = None.
Proof.
  revert v tr s. induction names as [|n names IH]; intros v tr s Hv Hl Hs Hne HH; [done|].
  destruct Hl as (a & Ea & t & m & x & Ek & EA & -> & Ex & Hl).
  pose proof (remove_map_step t a tr m s n x Ea Ek EA Hv Ex) as Hstep. cbv zeta in Hstep. unfold remove_entry in Hstep.
  apply value_ok_map in Hv as [_ Fv]. rewrite Forall_forall in Fv. specialize (Fv _ (assoc_get_Some _ _ _ Ex)).
  destruct (Set_Has s [peField n]) eqn:E1.
  { cbn [valueAt] in *. destruct (removeItemsWithSchema _ _ _ _ _) as [| | | | | | |m']; [done..|]. by destruct (assoc_get n m'). }
  destruct names as [|n2 names]; [change (Set_Has s [peField n] = true) in HH; congruence|].
  change (Set_Has s (peField n :: peField n2 :: fields names) = true) in HH.
  rewrite (Set_Has_cons r) in HH by done. rewrite (Set_WithPrefix_child r) in Hstep by done.
  destruct (child (peField n) s) as [s'|] eqn:Es; [|done]. cbn [default from_option id] in Hstep.
  rewrite (Set_Has_nonempty _ _ HH) in Hstep. destruct Hstep as (m' & -> & Em'). cbn [valueAt]. rewrite Em'.
  apply IH; try done. by eapply child_wf.
Qed.

Lemma remove_keeps_leaf v tr s names w :
  value_ok r v = true -> leafAt sc v tr names w -> Set_wf r s = true ->
  (forall p, p ∈ path_prefixes (fields names) -> Set_Has s p = false) ->
  leafAt sc (removeItemsWithSchema v s sc tr false) tr names w.
Proof.
  revert v tr s. induction names as [|n names IH]; intros v tr s Hv (a & Ea & Hl) Hs HH.
  { destruct Hl as (-> & t & Ek). exists a. split; [done|]. rewrite remove_kind, Ea, Ek. split; [done|]. by exists t. }
  destruct Hl as (t & m & x & Ek & EA & -> & Ex & Hl).
  pose proof (remove_map_step t a tr m s n x Ea Ek EA Hv Ex) as Hstep. cbv zeta in Hstep. unfold remove_entry in Hstep.
  apply value_ok_map in Hv as [_ Fv]. rewrite Forall_forall in Fv. specialize (Fv _ (assoc_get_Some _ _ _ Ex)).
  rewrite (HH [peField n]) in Hstep by (rewrite fmap_cons; by left). destruct Hstep as (m' & -> & Em').
  exists a. split; [done|]. exists t, m'. eexists. do 3 (split; [done|]). split; [exact Em'|].
  rewrite (Set_WithPrefix_child r) by done. destruct (child (peField n) s) as [s'|] eqn:Es; [|done].
  cbn [default from_option id]. destruct (Set_Empty s'); [done|]. apply IH; [done..|by eapply child_wf|].
  intros p Hp. specialize (HH (peField n :: p)). rewrite fmap_cons in HH. cbn [path_prefixes] in HH.
  destruct p as [|p0 p]; [by apply path_prefixes_nonnil in Hp|].
  rewrite (Set_Has_cons r), Es in HH by done. apply HH. right. by apply list_elem_of_fmap_2.
Qed.
End Leaves.

(** ** Removal keeps the types *)

Section Types.
Context (sc : Schema) (ex : bool).

Lemma has_types_null v tr : has_types sc v tr = true -> has_types sc VNull tr = true.
Proof.
  intros (a & kd & Ea & Ek & _)%has_types_kind. apply has_types_kind. exists a.
  assert (is_Some (kind_of a VNull)) as [kd' Ek'].
  { clear -Ek. destruct a as [s l t]. unfold kind_of, deduceAtom in *. cbn [IsNull IsFloat IsInt IsString IsBool IsList IsMap orb a_Map a_Scalar a_List].
    destruct t; [by eexists|]. destruct s; [by eexists|]. destruct l; [by eexists|]. by destruct (_ || _), (IsList v), (IsMap v). }
  exists kd'. split_and!; [done|done|]. by destruct kd'.
Qed.

Lemma remove_items_types rec t s l acc :
  (forall c s', c ∈ l -> has_types sc c (l_ElementType t) = true ->
    has_types sc (rec c s' (l_ElementType t)) (l_ElementType t) = true) ->
  Forall (fun c => has_types sc c (l_ElementType t) = true) l ->
  Forall (fun c => has_types sc c (l_ElementType t) = true) acc ->
  Forall (fun c => has_types sc c (l_ElementType t) = true) (remove_items sc ex rec t s l acc).
Proof.
  intros Hrec Hl. revert acc. induction Hl as [|c l Hc Hl IH]; intros acc Ha; [done|]. cbn [remove_items]. cbv zeta.
  assert (Hr : forall s, has_types sc (rec c s (l_ElementType t)) (l_ElementType t) = true) by (intros; apply Hrec; [by left|done]).
  assert (IH' := fun acc => IH (fun c s' Hin => Hrec c s' (list_elem_of_further _ _ _ Hin)) acc).
  repeat case_match; apply IH'; rewrite ?Forall_app; auto.
Qed.

Lemma remove_entries_types rec t s (m acc : Map) :
  (forall kv s', kv ∈ m -> has_types sc kv.2 (mapFieldType t kv.1) = true ->
    has_types sc (rec kv.2 s' (mapFieldType t kv.1)) (mapFieldType t kv.1) = true) ->
  Forall (fun kv => has_types sc kv.2 (mapFieldType t kv.1) = true) m ->
  Forall (fun kv => has_types sc kv.2 (mapFieldType t kv.1) = true) acc ->
  Forall (fun kv => has_types sc kv.2 (mapFieldType t kv.1) = true) (remove_entries ex rec t s m acc).
Proof.
  intros Hrec Hm. revert acc. induction Hm as [|[k x] m Hx Hm IH]; intros acc Ha; [done|]. cbn [remove_entries]. cbv zeta.
  rewrite removeFieldTypes_FindField.
  replace (match sf_Type <$> FindField t k with Some ft => ft | None => m_ElementType t end) with (mapFieldType t k)
    by (unfold mapFieldType; by destruct (FindField t k)).
  assert (Hr : forall s, has_types sc (rec x s (mapFieldType t k)) (mapFieldType t k) = true) by (intros; apply (Hrec (k, x)); [by left|done]).
  assert (IH' := fun acc => IH (fun c s' Hin => Hrec c s' (list_elem_of_further _ _ _ Hin)) acc).
  cbn [fst snd] in Hx. repeat case_match; apply IH'; try done; (apply assoc_set_Forall; [|done]); try done; apply Hr.
Qed.

Lemma removeItems_types v s tr : has_types sc v tr = true -> has_types sc (removeItemsWithSchema v s sc tr ex) tr = true.
Proof.
  revert s tr. induction v as [|b|k i|f|f|str|l IH|m IH] using value_rect_nested; intros s tr Hv; rewrite remove_kind;
    pose proof (has_types_null _ _ Hv) as Hn; pose proof Hv as (a & kd & Ea & Ek & H)%has_types_kind; rewrite Ea, Ek;
    destruct kd as [t|t|t]; try done; unfold remove_doList, remove_doMap; cbn [IsList IsMap negb AsList AsMap default from_option id]; try done.
  - destruct (_ =? _)%nat; [done|]. destruct (string_eqb _ _); [by destruct ex|]. destruct (_ <? _)%nat; [|done].
    apply has_types_kind. exists a, (KList t). split; [done|]. split; [done|]. apply remove_items_types; [|done|constructor].
    intros c s' Hc. rewrite Forall_forall in IH. by apply IH.
  - destruct (_ =? _)%nat; [done|]. destruct (string_eqb _ _); [by destruct ex|]. destruct (_ <? _)%nat; [|done].
    apply has_types_kind. exists a, (KMap t). split; [done|]. split; [done|]. apply remove_entries_types; [|done|constructor].
    intros kv s' Hc. rewrite Forall_forall in IH. by apply IH.
Qed.
End Types.

(** ** Nodes and members *)

Section Nodes.
Context (r : Regime).

(** There is a node at a proper prefix of a member ... *)
Lemma has_node_prefix s p q :
  Forall (pe_dom r) p -> Set_wf r s = true -> Set_Has s (p ++ q) = true -> q <> [] -> has_node s p = true.
Proof.
  intros Hp. revert s. induction Hp as [|pe p Hpe Hp IH]; intros s Hs HH Hq; [done|]. cbn [app] in HH.
  destruct (p ++ q) as [|x y] eqn:E; [by apply app_nil in E as [_ ->]|].
  rewrite (Set_Has_cons r) in HH by done. cbn [has_node]. destruct (child pe s) as [s'|] eqn:Es; [|done].
  apply IH; [by eapply child_wf|done|done].
Qed.

Lemma Set_nonempty_member s : Set_wf r s = true -> Set_Empty s = false -> exists p, Forall (pe_dom r) p /\ Set_Has s p = true.
Proof.
  intros Hs He. pose proof (Set_Iterate_dom r s Hs) as HD. pose proof (Set_Empty_Size s) as HE.
  rewrite Set_Size_Iterate in HE.
  destruct (Set_Iterate s) as [|p l] eqn:E; [cbn in HE; congruence|]. exists p. apply Forall_cons in HD as [Hp _]. split; [done|].
  rewrite <-(Set_Iterate_Has r) by done. rewrite E. cbn [existsb]. by rewrite (Path_Equals_refl r).
Qed.

(** ... and a member below every node. *)
Lemma has_node_member s p :
  Forall (pe_dom r) p -> Set_ok r s = true -> has_node s p = true -> p <> [] ->
  exists q, Forall (pe_dom r) q /\ Set_Has s (p ++ q) = true.
Proof.
  intros Hp. revert s. induction Hp as [|pe p Hpe Hp IH]; intros s Hs HN Hne; [done|]. cbn [has_node] in HN.
  destruct (child pe s) as [s'|] eqn:Es; [|done].
  assert (Hs' : Set_ok r s' = true /\ Set_Empty s' = false).
  { destruct s as [m c]. apply Set_ok_mk in Hs as (_ & _ & F). unfold child in Es.
    apply fmap_Some in Es as (n & [Hin _]%slice_find_Some & ->). rewrite Forall_forall in F. by destruct (F n Hin). }
  destruct Hs' as [Hs' He]. pose proof Hs as [Hw _]%Set_ok_iff. pose proof Hs' as [Hw' _]%Set_ok_iff.
  assert (exists q, Forall (pe_dom r) q /\ Set_Has s' (p ++ q) = true) as (q & Hq & HH).
  { destruct p as [|p0 p]; [exact (Set_nonempty_member s' Hw' He)|]. by apply IH. }
  exists q. split; [done|]. cbn [app]. destruct (p ++ q) as [|x y]; [by destruct s' as [[] ?]|].
  by rewrite (Set_Has_cons r), Es.
Qed.

(** ** The field set of an object *)

Lemma ToFieldSet_members tv v set p :
  good_tv r tv -> tv_value tv = Some v -> TypedValue_ToFieldSet tv = ok set ->
  Forall (pe_dom r) p -> p <> [] ->
  Set_Has set p = mentions (ownedPaths (sp_schema (tv_schema tv)) v (tv_typeRef tv)) p.
Proof.
  intros (Hs & Ht & Hv) Ev Hset Hp Hne. unfold TypedValue_ToFieldSet in Hset. rewrite Ev in Hset.
  destruct (toFieldSet_walks r (sp_schema (tv_schema tv)) v (tv_typeRef tv) [] (NewSet [])) as (errs & s' & E & [_ Ha] & _);
    [constructor|apply ownedPaths_dom; auto|done|].
  rewrite E in Hset. cbn [mbind Outcome_bind fst snd] in Hset. destruct (negb _); [done|]. injection Hset as <-.
  rewrite Ha by done. unfold under. rewrite (list_fmap_ext _ id) by done. rewrite list_fmap_id.
  by destruct p as [|x [|]].
Qed.

Lemma ToFieldSet_succeeds tv v :
  good_tv r tv -> tv_value tv = Some v -> has_types (sp_schema (tv_schema tv)) v (tv_typeRef tv) = true ->
  exists set, TypedValue_ToFieldSet tv = ok set.
Proof.
  intros (Hs & Ht & Hv) Ev Hty. unfold TypedValue_ToFieldSet. rewrite Ev.
  destruct (toFieldSet_walks r (sp_schema (tv_schema tv)) v (tv_typeRef tv) [] (NewSet [])) as (errs & s' & E & _ & He);
    [constructor|apply ownedPaths_dom; auto|done|].
  rewrite E, (He Hty). by exists s'.
Qed.

Lemma mentions_owned Q p : Forall (pe_dom r) p -> p ∈ Q -> mentions Q p = true.
Proof. intros Hp Hin. apply existsb_exists. exists p. split; [by apply list_elem_of_In|by apply (Path_Equals_refl r)]. Qed.

(** Field names that are not in the object are not in its field set, and no field below them. *)
Lemma ToFieldSet_absent tv v set names q :
  good_tv r tv -> tv_value tv = Some v -> TypedValue_ToFieldSet tv = ok set ->
  names <> [] -> Forall (pe_dom r) q -> valueAt v names = None -> Set_Has set (fields names ++ q) = false.
Proof.
  intros Hg Ev Hset Hne Hq Hn. rewrite (ToFieldSet_members tv v set) by
    first [done|by destruct names|apply Forall_app; split; [apply fields_dom|done]].
  apply not_true_iff_false. intros (p & Hp%list_elem_of_In & He)%existsb_exists. destruct Hg as (_ & _ & Hv).
  by apply (owned_valueAt r _ v (tv_typeRef tv) names q p (Hv v Ev) Hp He).
Qed.

Section Ensured.
Context (tv : TypedValue) (v : value) (set : FSet) (names : list string) (w : value).
Hypotheses (Hg : good_tv r tv) (Ev : tv_value tv = Some v) (Hset : TypedValue_ToFieldSet tv = ok set) (Hne : names <> []).
Abbreviation sc := (sp_schema (tv_schema tv)).
Abbreviation tr := (tv_typeRef tv).
Abbreviation ensure := (Set_EnsureNamedFieldsAreMembers sc tr).

Lemma ensured_ok : Set_ok r set = true.
Proof. by eapply ToFieldSet_good. Qed.

Lemma ensured_wf : Set_wf r set = true.
Proof. by pose proof ensured_ok as []%Set_ok_iff. Qed.

(** What [EnsureNamedFieldsAreMembers] makes of the field set: gone fields are not in it ... *)
Lemma ensured_absent : valueAt v names = None -> Set_Has (ensure set) (fields names) = false.
Proof.
  intros Hn. rewrite (Set_EnsureNamed_Has r) by (apply ensured_wf || apply fields_dom).
  pose proof (ToFieldSet_absent tv v set names [] Hg Ev Hset Hne (Forall_nil_2 _) Hn) as H0. rewrite app_nil_r in H0.
  rewrite H0. cbn [orb]. destruct (has_node set (fields names)) eqn:E; [|done].
  apply (has_node_member set (fields names) (fields_dom r names) ensured_ok) in E as (q & Hq & E); [|by destruct names].
  by rewrite (ToFieldSet_absent tv v set names q) in E.
Qed.

(** ... and a leaf is, with the fields above it. *)
Lemma ensured_leaf p : leafAt sc v tr names w -> p ∈ path_prefixes (fields names) -> Set_Has (ensure set) p = true.
Proof.
  intros Hl Hp. destruct (path_prefixes_split _ _ Hp) as [q Eq].
  assert (Hd : Forall (pe_dom r) p). { pose proof (fields_dom r names) as F. rewrite Eq in F. by apply Forall_app in F as []. }
  assert (Hown : forall x, Forall (pe_dom r) x -> x <> [] -> x ∈ ownedPaths sc v tr -> Set_Has set x = true).
  { intros x Hx Hx0 Hin. rewrite (ToFieldSet_members tv v set) by done. by apply mentions_owned. }
  rewrite (Set_EnsureNamed_Has r) by (apply ensured_wf || done).
  pose proof (path_prefixes_nonnil _ _ Hp) as Hp0.
  destruct (leafAt_prefixes sc v tr names w p Hl Hp) as [Ho| ->]; [by rewrite Hown|].
  destruct (decide (q = [])) as [->|Hq].
  { rewrite app_nil_r in Eq. rewrite Hown; [done|done|done|]. rewrite <-Eq. by apply (leafAt_owned sc v tr names w). }
  rewrite (has_node_prefix set p q); [by rewrite orb_true_r|done|apply ensured_wf| |done].
  rewrite <-Eq. apply Hown; [apply fields_dom|by destruct names|by apply (leafAt_owned sc v tr names w)].
Qed.
End Ensured.
End Nodes.

(** ** The sets of the managers, all at one version *)

Definition unionSets (u0 : FSet) (l : list (string * VersionedSet)) : FSet :=
  foldl (fun u e => Set_Union u (VSet e.2)) u0 l.

Lemma unionSets_Has r u0 l :
  Set_ok r u0 = true -> Forall (fun e => Set_ok r (VSet e.2) = true) l ->
  Set_ok r (unionSets u0 l) = true /\
  forall p, Forall (pe_dom r) p -> Set_Has (unionSets u0 l) p = Set_Has u0 p || existsb (fun e => Set_Has (VSet e.2) p) l.
Proof.
  intros H0 F. revert u0 H0. induction F as [|e l He F IH]; intros u0 H0.
  { split; [done|]. intros p _. cbn. by rewrite orb_false_r. }
  destruct (IH (Set_Union u0 (VSet e.2))) as [Ho HH]; [by apply Set_Union_ok|]. split; [exact Ho|]. intros p Hp.
  pose proof H0 as [Hw0 _]%Set_ok_iff. pose proof He as [Hw _]%Set_ok_iff. cbn [existsb].
  rewrite orb_assoc, <-(Set_Has_Union r u0 (VSet e.2)) by done. by apply HH.
Qed.

Definition addAtVersion (acc : gmap string FSet) (entry : string * VersionedSet) : gmap string FSet :=
  let v := APIVersion entry.2 in
  let acc := match acc !! v with Some _ => acc | None => <[v := NewSet []]> acc end in
  <[v := Set_Union (default (NewSet []) (acc !! v)) (VSet entry.2)]> acc.

Lemma addAtVersion_same V u0 e : APIVersion e.2 = V -> addAtVersion {[V := u0]} e = {[V := Set_Union u0 (VSet e.2)]}.
Proof.
  intros He. unfold addAtVersion. rewrite He. cbv zeta. rewrite !lookup_singleton_eq. cbn [default from_option id].
  apply insert_singleton_eq.
Qed.

Lemma managedAtVersion_one V l :
  l <> [] -> Forall (fun e => APIVersion e.2 = V) l ->
  managedAtVersion l = {[V := unionSets (NewSet []) l]}.
Proof.
  intros Hne F. change (managedAtVersion l) with (foldl addAtVersion ∅ l).
  assert (Hfold : forall u0, foldl addAtVersion {[V := u0]} l = {[V := unionSets u0 l]}).
  { clear Hne. induction F as [|e l He F IH]; intros u0; [done|]. cbn [foldl]. rewrite addAtVersion_same by done. apply IH. }
  destruct F as [|e l He F]; [done|]. specialize (Hfold (NewSet [])). cbn [foldl] in Hfold |- *.
  rewrite <-Hfold. f_equal. rewrite addAtVersion_same by done. unfold addAtVersion. rewrite He. cbv zeta.
  rewrite lookup_empty, lookup_insert_eq. cbn [default from_option id]. by rewrite insert_insert_eq.
Qed.

(** ** Pruning *)

Section Prune.
Context {E : Type} (R : Ranges) {HR : RangesOk R} (r : Regime) (s : Updater E) (V : string).
Context (managers : ManagedFields) (manager : string) (last : VersionedSet) (m : TypedValue) (v : value).
(** All managers and the objects are at one version. *)
Hypothesis Hconv : forall tv, Convert (u_Converter s) (Some tv) V = (Some tv, None).
Hypothesis Hver : forall k vs, managers !! k = Some vs -> APIVersion vs = V.
Hypothesis Hlast : APIVersion last = V.
Hypothesis Hsets : managers_ok r managers.
Hypothesis Hlast_ok : Set_ok r (VSet last) = true.
Hypothesis Hempty : Set_Empty (VSet last) = false.
Hypothesis Hg : good_tv r m.
Hypothesis Ev : tv_value m = Some v.
Hypothesis Htypes : has_types (sp_schema (tv_schema m)) v (tv_typeRef m) = true.
Hypothesis Hown : is_Some (managers !! manager).

Abbreviation sc := (sp_schema (tv_schema m)).
Abbreviation tr := (tv_typeRef m).
Abbreviation ensure := (Set_EnsureNamedFieldsAreMembers sc tr).
Abbreviation remove items := (removeItemsWithSchema v items sc tr false).

Definition managed : FSet := unionSets (NewSet []) (range R SiteAddBack managers).

Lemma managed_Has : Set_ok r managed = true /\
  forall p, Forall (pe_dom r) p ->
    Set_Has managed p = true <-> exists k vs, managers !! k = Some vs /\ Set_Has (VSet vs) p = true.
Proof.
  pose proof (range_enumerates SiteAddBack managers) as El. pose proof (enumerates_ok r _ _ El Hsets) as F.
  destruct (unionSets_Has r (NewSet []) _ eq_refl F) as [Ho HH]. split; [exact Ho|]. intros p Hp.
  unfold managed. rewrite HH, Set_Empty_Has by done. cbn [orb]. rewrite existsb_exists. unfold enumerates in El. split.
  - intros ([k vs] & Hin%list_elem_of_In & Hh). rewrite El in Hin. apply elem_of_map_to_list in Hin. by exists k, vs.
  - intros (k & vs & Hk & Hh). exists (k, vs). split; [|done]. apply list_elem_of_In. rewrite El. by apply elem_of_map_to_list.
Qed.

Lemma RemoveItems_value items : TypedValue_RemoveItems m items = Ret (withValue m (remove items)).
Proof. unfold TypedValue_RemoveItems, removeItemsOf. by rewrite Ev. Qed.

Lemma good_remove items : good_tv r (withValue m (remove items)).
Proof.
  destruct Hg as (Hs & Ht & Hv). split; [done|]. split; [done|]. intros x [= <-]. by apply removeItems_keeps, Hv.
Qed.

Lemma removed_set items : exists set, TypedValue_ToFieldSet (withValue m (remove items)) = ok set.
Proof. eapply (ToFieldSet_succeeds r); [apply good_remove|done|by apply removeItems_types]. Qed.

Lemma value_good : value_ok r v = true.
Proof. destruct Hg as (_ & _ & Hv). by apply Hv. Qed.

Lemma ensure_Has items p : Set_wf r items = true -> Forall (pe_dom r) p ->
  Set_Has (ensure items) p = Set_Has items p || (has_node items p && is_named sc tr p).
Proof. intros. by apply (Set_EnsureNamed_Has r). Qed.

Lemma ensure_wf items : Set_ok r items = true -> Set_wf r (ensure items) = true.
Proof. intros [Hw _]%Set_ok_iff. by apply Set_EnsureNamed_wf. Qed.

(** [prune] succeeds, with three removals. *)
Lemma prune_steps :
  exists mset set0 set1,
    TypedValue_ToFieldSet m = ok mset /\
    TypedValue_ToFieldSet (withValue m (remove (ensure (VSet last)))) = ok set0 /\
    let items1 := Set_Difference (ensure mset) (Set_Union (ensure set0) (ensure managed)) in
    TypedValue_ToFieldSet (withValue m (remove items1)) = ok set1 /\
    let items2 := Set_Intersection (Set_Difference (ensure mset) (ensure set1)) (ensure (VSet last)) in
    prune R s (Some m) managers manager (Some last) = ok (Some (withValue m (remove items2))).
Proof.
  destruct (ToFieldSet_succeeds r m v Hg Ev Htypes) as [mset Em].
  destruct (removed_set (ensure (VSet last))) as [set0 E0].
  destruct (removed_set (Set_Difference (ensure mset) (Set_Union (ensure set0) (ensure managed)))) as [set1 E1].
  exists mset, set0, set1. do 2 (split; [done|]). cbv zeta. split; [done|].
  unfold prune. rewrite Hempty, Hlast, Hconv. cbn [deref mbind Outcome_bind]. rewrite RemoveItems_value. cbn [mbind Outcome_bind].
  destruct Hown as [own Eown].
  assert (El : forall e, e ∈ range R SiteAddBack managers <-> managers !! e.1 = Some e.2).
  { intros [k vs]. pose proof (range_enumerates SiteAddBack managers) as El. unfold enumerates in El. rewrite El.
    apply elem_of_map_to_list. }
  unfold addBackOwnedItems. rewrite (managedAtVersion_one V).
  2:{ intros E2. specialize (El (manager, own)). rewrite E2 in El. by apply El, elem_of_nil in Eown. }
  2:{ apply Forall_forall. intros e He%El. by apply (Hver e.1). }
  rewrite lookup_singleton_eq. fold managed. unfold addBackOwnedItemsForVersion. rewrite !Hconv.
  cbn [deref mbind Outcome_bind]. rewrite Em. cbn [wrap bindR ok]. rewrite E0. cbn [wrap bindR ok].
  rewrite RemoveItems_value. cbn [mbind Outcome_bind bindR ok]. rewrite delete_singleton_eq.
  pose proof (rangeVersions_enumerates (R := R) ∅) as Ev0. rewrite map_to_list_empty in Ev0.
  apply Permutation_nil_r in Ev0. rewrite Ev0. cbn [foldlR bindR ok wrap snd].
  unfold addBackDanglingItems. rewrite Hlast, Hconv. cbn [deref mbind Outcome_bind]. rewrite E1. cbn [wrap bindR ok].
  rewrite Em. cbn [wrap bindR deref mbind Outcome_bind ok]. rewrite RemoveItems_value. cbn [mbind Outcome_bind bindR ok wrap].
  rewrite Eown. cbn [deref mbind Outcome_bind]. by rewrite (Hver manager own), Hconv.
Qed.

(** The three removals, by what is in their sets. *)
Lemma prune_items :
  exists mset set0 set1 items1 items2,
    TypedValue_ToFieldSet m = ok mset /\
    TypedValue_ToFieldSet (withValue m (remove (ensure (VSet last)))) = ok set0 /\
    TypedValue_ToFieldSet (withValue m (remove items1)) = ok set1 /\
    prune R s (Some m) managers manager (Some last) = ok (Some (withValue m (remove items2))) /\
    Set_wf r (ensure (VSet last)) = true /\ Set_wf r items1 = true /\ Set_wf r items2 = true /\
    forall p, Forall (pe_dom r) p ->
      Set_Has items1 p = Set_Has (ensure mset) p && negb (Set_Has (ensure set0) p || Set_Has (ensure managed) p) /\
      Set_Has items2 p = Set_Has (ensure mset) p && negb (Set_Has (ensure set1) p) && Set_Has (ensure (VSet last)) p.
Proof.
  destruct prune_steps as (mset & set0 & set1 & Em & E0 & H). cbv zeta in H.
  set (items1 := Set_Difference _ _) in H. destruct H as [E1 Ep].
  pose proof (ensure_wf mset (ensured_ok r m mset Hg Em)) as Wm.
  pose proof (ensure_wf set0 (ensured_ok r _ set0 (good_remove _) E0)) as W0.
  pose proof (ensure_wf set1 (ensured_ok r _ set1 (good_remove _) E1)) as W1.
  pose proof (ensure_wf managed (proj1 managed_Has)) as Wmg. pose proof (ensure_wf _ Hlast_ok) as Wl.
  assert (Wu : Set_wf r (Set_Union (ensure set0) (ensure managed)) = true) by (by apply Set_Union_wf).
  assert (Wd : Set_wf r (Set_Difference (ensure mset) (ensure set1)) = true) by (by apply Set_Difference_wf).
  exists mset, set0, set1, items1. eexists. do 3 (split; [done|]). split; [exact Ep|]. split; [done|].
  split; [by apply Set_Difference_wf|]. split; [by apply Set_Intersection_wf|]. intros p Hp. unfold items1.
  by rewrite (Set_Has_Intersection r), !(Set_Has_Difference r), (Set_Has_Union r) by done.
Qed.

(** *** What becomes of a leaf *)

Section Leaf.
Context (v' : value) (names : list string) (w : value).
Hypothesis Hprune : prune R s (Some m) managers manager (Some last) = ok (Some (withValue m v')).
Hypothesis Hleaf : leafAt sc v tr names w.
Hypothesis Hne : names <> [].

Lemma leaf_prefix p : p ∈ path_prefixes (fields names) -> Forall (pe_dom r) p.
Proof. intros [q Eq]%path_prefixes_split. pose proof (fields_dom r names) as F. rewrite Eq in F. by apply Forall_app in F as []. Qed.

(** No manager owns the leaf or anything below it. *)
Definition unowned : Prop := forall k vs, managers !! k = Some vs ->
  Set_Has (VSet vs) (fields names) = false /\ has_node (VSet vs) (fields names) = false.

Lemma unowned_managed : unowned -> Set_Has (ensure managed) (fields names) = false.
Proof.
  intros Hno. destruct managed_Has as [Omg HMg]. pose proof (fields_dom r names) as Hd. pose proof Omg as [Wmg _]%Set_ok_iff.
  rewrite ensure_Has by done. apply orb_false_iff. split.
  - apply not_true_iff_false. rewrite HMg by done. intros (k & vs & Hk & Hh). destruct (Hno k vs Hk). congruence.
  - destruct (has_node managed (fields names)) eqn:En; [|done]. exfalso.
    apply (has_node_member r managed _ Hd Omg) in En as (q & Hq & Hh); [|by destruct names].
    apply HMg in Hh as (k & vs & Hk & Hh); [|by apply Forall_app]. destruct (Hno k vs Hk) as [H1 H2].
    destruct (decide (q = [])) as [->|Hq0]; [rewrite app_nil_r in Hh; congruence|].
    apply (has_node_prefix r) in Hh; [congruence|done| |done]. by pose proof (Hsets k vs Hk) as []%Set_ok_iff.
Qed.

Lemma prune_removes :
  Set_Has (VSet last) (fields names) = true -> unowned -> valueAt v' names = None.
Proof.
  intros Hin Hno%unowned_managed.
  destruct prune_items as (mset & set0 & set1 & i1 & i2 & Em & E0 & E1 & Ep & Wl & W1 & W2 & HH).
  rewrite Hprune in Ep. injection Ep as ->.
  pose proof value_good as Hv. pose proof (fields_dom r names) as Hd. destruct (HH _ Hd) as [H1 H2].
  assert (Hgone : forall i, Set_wf r i = true -> Set_Has i (fields names) = true -> valueAt (remove i) names = None)
    by (intros; by apply (remove_gone_leaf r sc v tr _ names w)).
  assert (Habs : forall i set, TypedValue_ToFieldSet (withValue m (remove i)) = ok set -> Set_wf r i = true ->
    Set_Has i (fields names) = true -> Set_Has (ensure set) (fields names) = false).
  { intros i set Eset Wi Hi. apply (ensured_absent r _ _ set names (good_remove i) eq_refl Eset Hne). by apply Hgone. }
  assert (Hl : Set_Has (ensure (VSet last)) (fields names) = true).
  { rewrite ensure_Has by (done || by apply Set_ok_iff in Hlast_ok as []). by rewrite Hin. }
  assert (Hm : Set_Has (ensure mset) (fields names) = true).
  { eapply (ensured_leaf r m v mset names w); try done. apply path_prefixes_self. by destruct names. }
  rewrite Hm, Hno, (Habs _ _ E0) in H1 by done. rewrite Hm, Hl, (Habs _ _ E1) in H2 by done.
  by apply Hgone.
Qed.

(** The fields on the way to the leaf are named by the schema or owned by a manager, who owns the leaf. *)
Definition ownedLeaf : Prop :=
  (exists k vs, managers !! k = Some vs /\ Set_Has (VSet vs) (fields names) = true) /\
  forall p, p ∈ path_prefixes (fields names) ->
    is_named sc tr p = true \/ exists k vs, managers !! k = Some vs /\ Set_Has (VSet vs) p = true.

Lemma owned_managed p : ownedLeaf -> p ∈ path_prefixes (fields names) -> Set_Has (ensure managed) p = true.
Proof.
  intros [Hleafown Hall] Hp. destruct managed_Has as [Omg HMg]. pose proof Omg as [Wmg _]%Set_ok_iff.
  pose proof (leaf_prefix p Hp) as Hd. rewrite ensure_Has by done.
  rewrite <-HMg in Hleafown by apply fields_dom.
  destruct (Hall p Hp) as [Hn|Ho%HMg]; [|by rewrite Ho|done].
  destruct (path_prefixes_split _ _ Hp) as [q Eq]. rewrite Eq in Hleafown. destruct (decide (q = [])) as [->|Hq].
  - rewrite app_nil_r in Hleafown. by rewrite Hleafown.
  - rewrite (has_node_prefix r managed p q), Hn by done. apply orb_true_r.
Qed.

Lemma kept_leaf items :
  Set_wf r items = true -> (forall p, p ∈ path_prefixes (fields names) -> Set_Has items p = false) ->
  leafAt sc (remove items) tr names w.
Proof. intros. apply (remove_keeps_leaf r); auto using value_good. Qed.

Lemma prune_keeps_owned : ownedLeaf -> valueAt v' names = Some w.
Proof.
  intros Ho. destruct prune_items as (mset & set0 & set1 & i1 & i2 & Em & E0 & E1 & Ep & Wl & W1 & W2 & HH).
  rewrite Hprune in Ep. injection Ep as ->.
  apply (leafAt_valueAt sc _ tr), kept_leaf; [done|]. intros p Hp.
  assert (Hk : Set_Has (ensure set1) p = true).
  { apply (ensured_leaf r (withValue m (remove i1)) _ set1 names w (good_remove _) eq_refl E1 Hne p); [|done].
    apply kept_leaf; [done|]. intros p' Hp'. rewrite (proj1 (HH p' (leaf_prefix p' Hp'))), (owned_managed p') by done.
    by rewrite orb_true_r, andb_false_r. }
  by rewrite (proj2 (HH p (leaf_prefix p Hp))), Hk, andb_false_r.
Qed.

(** The leaf was not applied before, nor a field above it, nor, if the schema names that, anything below it. *)
Definition unapplied : Prop := forall p, p ∈ path_prefixes (fields names) ->
  Set_Has (VSet last) p = false /\ (has_node (VSet last) p && is_named sc tr p) = false.

Lemma prune_keeps_unapplied : unapplied -> valueAt v' names = Some w.
Proof.
  intros Hl. destruct prune_items as (mset & set0 & set1 & i1 & i2 & Em & E0 & E1 & Ep & Wl & W1 & W2 & HH).
  rewrite Hprune in Ep. injection Ep as ->.
  apply (leafAt_valueAt sc _ tr), kept_leaf; [done|]. intros p Hp.
  pose proof Hlast_ok as [Wl0 _]%Set_ok_iff. pose proof (leaf_prefix p Hp) as Hd.
  rewrite (proj2 (HH p Hd)), (ensure_Has (VSet last)) by done. destruct (Hl p Hp) as [-> ->]. by rewrite andb_false_r.
Qed.
End Leaf.
End Prune.
