(* ===== verification/PropsFieldpath.v ===== *)
(** * Properties of packages value and fieldpath

    The theorems on the order of values and path elements, and on the sets of
    paths as sets: what each operation does to the members, and that it keeps
    the invariant.  Every theorem with hypotheses is followed by an instance. *)
From stdpp Require Import gmap.
From S2P Require Import Prelude GoLib GoFloat Value ValueOrder PathElement SortedSlice FieldSet.
From S2P Require Import FieldSetSpec FieldSetOps FieldSetInsert FieldSetIter PathElementMap Managers Schema FieldSetSchema.

(** ** Instances used by the witnesses *)

Definition exA : PathElement := peField "a".
Definition exB : PathElement := peField "b".
Definition exKey : PathElement := peKey [mkField "name" (VString "x")].
Definition exSet1 : FSet := NewSet [[exA]; [exA; exB]; [exKey; exA]; [peIndex 3]].
Definition exSet2 : FSet := NewSet [[exB]; [exA; exB]; [exKey]].
Definition exPath : Path := [exA; exB].

Lemma exSets_ok : Set_ok NoFloats exSet1 = true /\ Set_ok NoFloats exSet2 = true.
Proof. split; vm_compute; reflexivity. Qed.

Lemma exPath_dom : Forall (pe_dom NoFloats) exPath.
Proof. repeat constructor. Qed.

(** ** Sets of paths *)

(** C22: [Set.Union] keeps the invariant of [Set], and its members are the paths
    in one of the two sets. *)
Theorem union_members r s s2 :
  Set_ok r s = true -> Set_ok r s2 = true ->
  Set_ok r (Set_Union s s2) = true /\
  forall p, Forall (pe_dom r) p -> Set_Has (Set_Union s s2) p = Set_Has s p || Set_Has s2 p.
Proof.
  intros H1 H2. split; [by apply Set_Union_ok|]. apply Set_ok_iff in H1 as [H1 _], H2 as [H2 _].
  intros p Hp. by apply (Set_Has_Union r).
Qed.

Lemma union_members_witness :
  Set_Has (Set_Union exSet1 exSet2) exPath = Set_Has exSet1 exPath || Set_Has exSet2 exPath.
Proof. apply (union_members NoFloats exSet1 exSet2 (proj1 exSets_ok) (proj2 exSets_ok)), exPath_dom. Defined.

(** [Set.Intersection] keeps the invariant, and its members are the paths in
    both sets. *)
Theorem intersection_members r s s2 :
  Set_ok r s = true -> Set_ok r s2 = true ->
  Set_ok r (Set_Intersection s s2) = true /\
  forall p, Forall (pe_dom r) p -> Set_Has (Set_Intersection s s2) p = Set_Has s p && Set_Has s2 p.
Proof.
  intros H1 H2. split; [by apply Set_Intersection_ok|]. apply Set_ok_iff in H1 as [H1 _], H2 as [H2 _].
  intros p Hp. by apply (Set_Has_Intersection r).
Qed.

Lemma intersection_members_witness :
  Set_Has (Set_Intersection exSet1 exSet2) exPath = Set_Has exSet1 exPath && Set_Has exSet2 exPath.
Proof. apply (intersection_members NoFloats exSet1 exSet2 (proj1 exSets_ok) (proj2 exSets_ok)), exPath_dom. Defined.

(** C21: [Set.Difference] keeps the invariant.  Of the paths that are not below a member of
    the second set, its members are those of the first set that are not in the second (so a
    parent stays when the second set has only children of it), and there it agrees with
    [RecursiveDifference].  Below a member of the second set the code does not do what its
    comment says ([difference_keeps_children]). *)
Theorem difference_members r s s2 :
  Set_ok r s = true -> Set_ok r s2 = true ->
  Set_ok r (Set_Difference s s2) = true /\
  forall p, Forall (pe_dom r) p -> not_below s2 p ->
    Set_Has (Set_Difference s s2) p = Set_Has s p && negb (Set_Has s2 p) /\
    Set_Has (Set_Difference s s2) p = Set_Has (Set_RecursiveDifference s s2) p.
Proof.
  intros H1 H2. split; [by apply Set_Difference_ok|]. apply Set_ok_iff in H1 as [H1 _], H2 as [H2 _].
  intros p Hp Hout. rewrite (Set_Has_Difference r), (Set_Has_RecursiveDifference r) by done. split; [done|].
  by rewrite (covered_not_below s2 p Hout).
Qed.

Lemma difference_members_witness :
  Set_Has (Set_Difference exSet1 exSet2) exPath = Set_Has exSet1 exPath && negb (Set_Has exSet2 exPath).
Proof.
  apply (difference_members NoFloats exSet1 exSet2 (proj1 exSets_ok) (proj2 exSets_ok)); [exact exPath_dom|].
  intros [|x [|y [|z p]]] q E Hq; try discriminate E; [vm_compute; reflexivity|injection E as <- <-; vm_compute; reflexivity|].
  injection E as <- <- <-. by destruct Hq.
Defined.

(** C20: [Set.RecursiveDifference] keeps the invariant, and its members are the
    paths of the first set of which no non-empty prefix is in the second. *)
Theorem recursive_difference_members r s s2 :
  Set_ok r s = true -> Set_ok r s2 = true ->
  Set_ok r (Set_RecursiveDifference s s2) = true /\
  forall p, Forall (pe_dom r) p ->
    Set_Has (Set_RecursiveDifference s s2) p = true <->
    Set_Has s p = true /\ forall p', p' ∈ path_prefixes p -> Set_Has s2 p' = false.
Proof.
  intros H1 H2. split; [by apply Set_RecursiveDifference_ok|]. apply Set_ok_iff in H1 as [H1 _], H2 as [H2 _].
  intros p Hp. rewrite (Set_Has_RecursiveDifference r), andb_true_iff, negb_true_iff by done.
  unfold covered. rewrite <-not_true_iff_false, existsb_exists. apply and_iff_compat_l. split.
  - intros H p' Hp'. destruct (Set_Has s2 p') eqn:E; [|done]. destruct H. exists p'. by rewrite <-list_elem_of_In.
  - intros H (p' & Hp' & E). apply list_elem_of_In in Hp'. by rewrite H in E.
Qed.

Lemma recursive_difference_members_witness :
  Set_Has (Set_RecursiveDifference exSet1 (NewSet [[exKey]])) exPath = true /\
  Set_Has (Set_RecursiveDifference exSet1 (NewSet [[exKey]])) [exKey; exA] <> true.
Proof.
  assert (H : Set_ok NoFloats (NewSet [[exKey]]) = true) by (vm_compute; reflexivity).
  split.
  - apply (recursive_difference_members NoFloats exSet1 (NewSet [[exKey]]) (proj1 exSets_ok) H); [apply exPath_dom|].
    split; [vm_compute; reflexivity|]. intros p' Hp.
    repeat (apply elem_of_cons in Hp as [-> |Hp]; [vm_compute; reflexivity|]). by apply not_elem_of_nil in Hp.
  - intros HH. apply (recursive_difference_members NoFloats exSet1 (NewSet [[exKey]]) (proj1 exSets_ok) H) in HH as [_ HH];
      [|by repeat constructor].
    specialize (HH [exKey] ltac:(left)). vm_compute in HH. discriminate.
Defined.

(** [Set.Insert] keeps the invariant and adds exactly the inserted path, up to
    equality of paths. *)
Theorem insert_members r s p :
  Set_ok r s = true -> Forall (pe_dom r) p ->
  Set_ok r (Set_Insert s p) = true /\
  forall q, Forall (pe_dom r) q -> q <> [] -> Set_Has (Set_Insert s p) q = Path_Equals p q || Set_Has s q.
Proof.
  intros Hs Hp. split; [by apply Set_Insert_ok|]. apply Set_ok_iff in Hs as [Hs _].
  intros q Hq Hne. by apply (Set_Has_Insert r).
Qed.

Lemma insert_members_witness :
  Set_Has (Set_Insert exSet2 [exA]) exPath = Path_Equals [exA] exPath || Set_Has exSet2 exPath.
Proof.
  apply (insert_members NoFloats exSet2 [exA] (proj2 exSets_ok)); [by repeat constructor|apply exPath_dom|done].
Defined.

(** C23: [Set.Equals] holds exactly for sets with the same members. *)
Theorem set_equals_same_members r s s2 :
  Set_ok r s = true -> Set_ok r s2 = true ->
  Set_Equals s s2 = true <-> forall p, Forall (pe_dom r) p -> Set_Has s p = Set_Has s2 p.
Proof.
  intros H1 H2. split; [|by apply Set_Equals_complete]. apply Set_ok_iff in H1 as [H1 _], H2 as [H2 _].
  intros HE p Hp. by apply (Set_Equals_sound r).
Qed.

Lemma set_equals_same_members_witness :
  Set_Equals (NewSet [[exA]; [exB]]) (NewSet [[exB]; [exA]]) = true /\
  forall p, Forall (pe_dom NoFloats) p -> Set_Has (NewSet [[exA]; [exB]]) p = Set_Has (NewSet [[exB]; [exA]]) p.
Proof.
  split; [vm_compute; reflexivity|].
  apply (set_equals_same_members NoFloats); vm_compute; reflexivity.
Defined.

(** C24: [Set.Iterate] passes every member to the callback exactly once, so building a
    set from the paths it passes gives an equal set. *)
Theorem iterate_roundtrip r s :
  Set_ok r s = true ->
  paths_distinct (Set_Iterate s) = true /\
  (forall p, Forall (pe_dom r) p -> existsb (fun q => Path_Equals q p) (Set_Iterate s) = Set_Has s p) /\
  Set_Equals (NewSet (Set_Iterate s)) s = true.
Proof.
  intros Hok. pose proof Hok as [Hwf _]%Set_ok_iff.
  assert (HI : forall p, Forall (pe_dom r) p -> existsb (fun q => Path_Equals q p) (Set_Iterate s) = Set_Has s p).
  { intros p Hp. by apply (Set_Iterate_Has r). }
  split_and!; [by apply (Set_Iterate_distinct r)|done|].
  pose proof (Set_Iterate_dom r s Hwf) as HD.
  apply (Set_Equals_complete r); [by apply NewSet_ok|done|]. intros p Hp.
  destruct p as [|pe p]; [done|]. by rewrite (Set_Has_NewSet r), HI.
Qed.

Lemma iterate_roundtrip_witness :
  length (Set_Iterate exSet1) = 4%nat /\ Set_Equals (NewSet (Set_Iterate exSet1)) exSet1 = true.
Proof. split; [vm_compute; reflexivity|]. apply (iterate_roundtrip NoFloats exSet1 (proj1 exSets_ok)). Defined.

(** [Set.Size] is the number of paths [Set.Iterate] passes, and [Set.Empty] holds
    exactly when it is zero. *)
Theorem size_counts_paths s :
  Set_Size s = length (Set_Iterate s) /\ Set_Empty s = (Set_Size s =? 0)%nat.
Proof. split; [apply Set_Size_Iterate|apply Set_Empty_Size]. Qed.

(** [Set.Leaves] keeps the invariant and the members with no member below them. *)
Theorem leaves_members r s :
  Set_ok r s = true ->
  Set_ok r (Set_Leaves s) = true /\
  forall p, Forall (pe_dom r) p -> p <> [] ->
    Set_Has (Set_Leaves s) p = true <->
    Set_Has s p = true /\ forall q, Forall (pe_dom r) q -> q <> [] -> Set_Has s (p ++ q) = false.
Proof. intros H. split; [by apply Set_Leaves_ok|]. intros p Hp Hne. by apply Set_Has_Leaves. Qed.

Lemma leaves_members_witness : Set_Has (Set_Leaves exSet1) [exA] <> true.
Proof.
  intros H. apply (leaves_members NoFloats exSet1 (proj1 exSets_ok)) in H as [_ H]; [|by repeat constructor|done].
  specialize (H [exB] ltac:(by repeat constructor) ltac:(done)). vm_compute in H. discriminate.
Defined.

(** [Set.WithPrefix] keeps the invariant and has exactly the paths that follow the
    path element in the set. *)
Theorem with_prefix_members r s pe :
  Set_ok r s = true -> pe_dom r pe ->
  Set_ok r (Set_WithPrefix s pe) = true /\
  forall p, Forall (pe_dom r) p -> p <> [] -> Set_Has (Set_WithPrefix s pe) p = Set_Has s (pe :: p).
Proof.
  intros Hok Hpe. pose proof Hok as [Hwf _]%Set_ok_iff. rewrite (Set_WithPrefix_child r) by done.
  split; [by apply default_child_ok|]. intros [|q p] Hp Hne; [done|].
  rewrite (Set_Has_opt r s pe q p Hwf Hpe). destruct (child pe s); [done|].
  by destruct p.
Qed.

Lemma with_prefix_members_witness : Set_Has (Set_WithPrefix exSet1 exA) [exB] = Set_Has exSet1 [exA; exB].
Proof. apply (with_prefix_members NoFloats exSet1 exA (proj1 exSets_ok)); by repeat constructor. Defined.

(** [Set.EnsureNamedFieldsAreMembers] keeps the invariant, keeps every member, and
    adds exactly the inner nodes of the set that are fields the schema names. *)
Theorem ensure_named_members r sc tr s :
  Set_ok r s = true ->
  Set_ok r (Set_EnsureNamedFieldsAreMembers sc tr s) = true /\
  forall p, Forall (pe_dom r) p ->
    Set_Has (Set_EnsureNamedFieldsAreMembers sc tr s) p = Set_Has s p || has_node s p && is_named sc tr p.
Proof.
  intros H. split; [by apply Set_EnsureNamed_ok|]. apply Set_ok_iff in H as [H _].
  intros p Hp. by apply (Set_EnsureNamed_Has r).
Qed.

Lemma ensure_named_members_witness :
  let sc := mkSchema [] in
  let tr := mkTypeRef None (mkAtom None None (Some (mkMapT
    (Some [mkStructField "b" (mkTypeRef None (mkAtom (Some "string"%string) None None) None) None]) [] TypeRef0 ""))) None in
  let s := NewSet [[exB; exA]] in
  Set_Has (Set_EnsureNamedFieldsAreMembers sc tr s) [exB] = true /\ Set_Has s [exB] = false.
Proof.
  intros sc tr s. split; [|vm_compute; reflexivity].
  rewrite (proj2 (ensure_named_members NoFloats sc tr s ltac:(vm_compute; reflexivity)) [exB] ltac:(by repeat constructor)).
  vm_compute. reflexivity.
Defined.

(** ** Path elements and values *)

(** C36: On comparable values (integers and no floats, or floats other than NaN and
    integers below 2^53 in magnitude) [Compare] is a total order with results in
    {-1, 0, 1}, and [Equals] holds exactly when [Compare] returns 0. *)
Theorem value_compare_order r u v w :
  value_ok r u = true -> value_ok r v = true -> value_ok r w = true ->
  -1 <= Compare u v <= 1 /\ Compare v u = - Compare u v /\
  (Compare u v <= 0 -> Compare v w <= 0 -> Compare u w <= 0) /\
  Equals u v = (Compare u v =? 0).
Proof.
  intros Hu Hv Hw. split; [|split; [|split]].
  - apply (cmp_range Compare (value_dom r) u v Hu Hv).
  - apply (cmp_antisym Compare (value_dom r) u v Hu Hv).
  - apply (cmp_trans Compare (value_dom r) u v w Hu Hv Hw).
  - by apply (Equals_Compare r).
Qed.

Lemma value_compare_order_witness :
  Equals (VList [VInt KInt64 1; VString "x"]) (VMap [("a"%string, VNull)]) =
    (Compare (VList [VInt KInt64 1; VString "x"]) (VMap [("a"%string, VNull)]) =? 0).
Proof. apply (value_compare_order NoFloats _ _ VNull); vm_compute; reflexivity. Defined.

(** Maps with the same entries have the same sorted entries. *)
Lemma sorted_entries_perm (l l' : Map) :
  NoDup (assoc_keys l) -> l ≡ₚ l' -> sorted_entries l = sorted_entries l'.
Proof.
  intros ND P. unfold sorted_entries.
  assert (CmpOrder (fun a b : string * value => strings_Compare a.1 b.1) (fun _ => True)).
  { by eapply (cmp_order_key _ _ strings_Compare (fun _ => True) fst); [apply _|..]. }
  assert (HS : forall m, StronglySorted (fun a b => strings_Compare a.1 b.1 <= 0) (sort_stable entry_less m)).
  { intros m. apply (sort_stable_sorted (fun a b : string * value => strings_Compare a.1 b.1) (fun _ => True)).
    by apply Forall_true. }
  apply (StronglySorted_unique_strong (fun a b => strings_Compare a.1 b.1 <= 0)); try done.
  - intros [k v] [k' v'] H1 H2 L1 L2. simpl in *. rewrite !sort_stable_perm in *. rewrite <-P in H2.
    assert (k = k') as <-.
    { apply strings_Compare_eq. pose proof (cmp_antisym strings_Compare (fun _ => True) k k' I I). lia. }
    f_equal. apply (assoc_get_NoDup k v l ND) in H1. apply (assoc_get_NoDup k v' l ND) in H2. congruence.
  - by rewrite !sort_stable_perm.
Qed.

(** Two maps compare as the sequences of their entries in the order of the keys,
    lexicographically, keys before values, whatever the order in which the maps
    hold their entries. *)
Theorem map_compare_sorted f l l' m m' :
  NoDup (assoc_keys l) -> NoDup (assoc_keys m) -> l ≡ₚ l' -> m ≡ₚ m' ->
  MapCompareUsing f (Some l) (Some m) =
    lex_compare (pair_compare strings_Compare f) (sorted_entries l) (sorted_entries m) /\
  MapCompareUsing f (Some l') (Some m') = MapCompareUsing f (Some l) (Some m).
Proof.
  intros Nl Nm Pl Pm.
  assert (Nl' : NoDup (assoc_keys l')) by (unfold assoc_keys in *; by rewrite <-Pl).
  assert (Nm' : NoDup (assoc_keys m')) by (unfold assoc_keys in *; by rewrite <-Pm).
  rewrite !MapCompareUsing_lex by done. split; [done|].
  by rewrite (sorted_entries_perm l l'), (sorted_entries_perm m m').
Qed.

Lemma map_compare_sorted_witness :
  MapCompareUsing Compare (Some [("b"%string, VNull); ("a"%string, VBool true)]) (Some [("a"%string, VBool true)]) =
  MapCompareUsing Compare (Some [("a"%string, VBool true); ("b"%string, VNull)]) (Some [("a"%string, VBool true)]).
Proof.
  apply (map_compare_sorted Compare [("a"%string, VBool true); ("b"%string, VNull)] _ [("a"%string, VBool true)] _).
  - apply (bool_decide_unpack _). vm_compute. exact I.
  - apply (bool_decide_unpack _). vm_compute. exact I.
  - apply Permutation_swap.
  - reflexivity.
Defined.

(** On comparable path elements [PathElement.Compare] is a total order with results
    in {-1, 0, 1}, [Less] is its strict part and [Equals] its equivalence. *)
Theorem path_element_order r a b c :
  pe_dom r a -> pe_dom r b -> pe_dom r c ->
  -1 <= PathElement_Compare a b <= 1 /\ PathElement_Compare b a = - PathElement_Compare a b /\
  (PathElement_Compare a b <= 0 -> PathElement_Compare b c <= 0 -> PathElement_Compare a c <= 0) /\
  (PathElement_Less a b = true <-> PathElement_Compare a b < 0) /\
  (PathElement_Equals a b = true <-> PathElement_Compare a b = 0).
Proof.
  intros Ha Hb Hc. split; [|split; [|split; [|split]]].
  - apply (cmp_range PathElement_Compare (pe_dom r) a b Ha Hb).
  - apply (cmp_antisym PathElement_Compare (pe_dom r) a b Ha Hb).
  - apply (cmp_trans PathElement_Compare (pe_dom r) a b c Ha Hb Hc).
  - apply pe_Less_spec.
  - by apply (pe_Equals_spec r).
Qed.

Lemma path_element_order_witness :
  PathElement_Less exA exKey = true <-> PathElement_Compare exA exKey < 0.
Proof. apply (path_element_order NoFloats exA exKey exB); vm_compute; reflexivity. Defined.

(** [FieldList.Sort] returns the fields in the order of their names, and the
    fields with the same name in the order they had. *)
Theorem field_list_sort f :
  FieldList_Sort f ≡ₚ f /\
  StronglySorted (fun a b => strings_Compare (Name a) (Name b) <= 0) (FieldList_Sort f) /\
  FieldList_Sort f = sort_stable (fun a b => string_ltb (Name a) (Name b)) f.
Proof. split_and!; [apply FieldList_Sort_perm|apply FieldList_Sort_names|apply FieldList_Sort_stable]. Qed.

(** [PathElementMap.Insert] keeps the slice sorted and without duplicates; after it
    [Get] returns the inserted value for an equal path element and the former
    answer for every other one. *)
Theorem path_element_map_get_insert {V} r (s : PathElementMap V) pe v :
  pe_dom r pe -> slice_ok fst r s = true ->
  slice_ok fst r (PathElementMap_Insert s pe v) = true /\
  forall pe', pe_dom r pe' ->
    PathElementMap_Get (PathElementMap_Insert s pe v) pe' =
      (if PathElement_Equals pe pe' then Some v else PathElementMap_Get s pe').
Proof.
  intros Hpe Hs. split; [by apply PathElementMap_Insert_ok|]. intros pe' Hpe'.
  by apply (PathElementMap_Get_Insert_eq r).
Qed.

Lemma path_element_map_get_insert_witness :
  PathElementMap_Get (PathElementMap_Insert (PathElementMap_Insert [] exA 1%nat) exKey 2%nat) exA = Some 1%nat.
Proof.
  rewrite (proj2 (path_element_map_get_insert NoFloats (PathElementMap_Insert [] exA 1%nat) exKey 2%nat
    ltac:(vm_compute; reflexivity) ltac:(vm_compute; reflexivity)) exA ltac:(vm_compute; reflexivity)).
  vm_compute. reflexivity.
Defined.

(** [SetFromValue] of a comparable value is a well-formed set whose members are
    exactly the paths of the leaves of the value. *)
Theorem set_from_value_members r v :
  value_ok r v = true ->
  Set_ok r (SetFromValue v) = true /\
  forall p, Forall (pe_dom r) p -> p <> [] ->
    Set_Has (SetFromValue v) p = existsb (fun q => Path_Equals q p) (leafPaths v).
Proof.
  intros Hv%leafPaths_dom. rewrite SetFromValue_NewSet. split; [by apply NewSet_ok|].
  intros p Hp Hne. by apply (Set_Has_NewSet r).
Qed.

Lemma set_from_value_members_witness :
  let v := VMap [("a"%string, VList [VMap [("name"%string, VString "x")]]); ("b"%string, VInt KInt64 1)] in
  Set_Has (SetFromValue v) [exB] = existsb (fun q => Path_Equals q [exB]) (leafPaths v).
Proof.
  intros v. apply (set_from_value_members NoFloats v); [vm_compute; reflexivity|by repeat constructor|done].
Defined.

(** ** Managed fields *)

Definition exVS1 : VersionedSet := NewVersionedSet exSet1 "v1" true.
Definition exVS2 : VersionedSet := NewVersionedSet exSet2 "v1" true.

(** [ManagedFields.Difference] gives, for each manager and whatever the order in
    which the maps are ranged over: nothing for a manager of neither map or with
    an empty set; the entry of the only map that has the manager; the right entry
    when the versions differ; otherwise the symmetric difference of the sets, if
    it is not empty. *)
Theorem managed_fields_difference ll lr lhs rhs k :
  enumerates ll lhs -> enumerates lr rhs ->
  ManagedFields_Difference ll lr lhs rhs !! k = diff_entry (lhs !! k) (rhs !! k).
Proof. apply ManagedFields_Difference_lookup. Qed.

Lemma managed_fields_difference_witness :
  let lhs : ManagedFields := {["m"%string := exVS1]} in
  let rhs : ManagedFields := {["m"%string := exVS2]} in
  ManagedFields_Difference [("m"%string, exVS1)] [("m"%string, exVS2)] lhs rhs !! "m"%string =
  diff_entry (Some exVS1) (Some exVS2).
Proof.
  intros lhs rhs. rewrite (managed_fields_difference [("m"%string, exVS1)] [("m"%string, exVS2)] lhs rhs "m").
  - reflexivity.
  - unfold enumerates, lhs. by rewrite map_to_list_singleton.
  - unfold enumerates, rhs. by rewrite map_to_list_singleton.
Defined.

(** [ManagedFields.Equals] compares the maps manager by manager (version, kind and
    set), whatever the order of the range, and [ManagedFields.Copy] is the same map. *)
Theorem managed_fields_equals l lhs rhs :
  enumerates l lhs ->
  (ManagedFields_Equals l lhs rhs = true <->
   forall k, match lhs !! k, rhs !! k with
     | Some leftV, Some rightV => vs_equal leftV rightV = true
     | None, None => True
     | _, _ => False
     end) /\
  ManagedFields_Copy l = lhs.
Proof. intros H. split; [by apply ManagedFields_Equals_iff|by apply ManagedFields_Copy_eq]. Qed.

Lemma managed_fields_equals_witness :
  ManagedFields_Copy [("m"%string, exVS1)] = {["m"%string := exVS1]}.
Proof.
  apply (managed_fields_equals [("m"%string, exVS1)] {["m"%string := exVS1]} ∅).
  unfold enumerates. by rewrite map_to_list_singleton.
Defined.
