(* ===== verification/PropsTyped.v ===== *)
(** * Properties of packages schema and typed

    Resolution of types, validation, field sets of objects, comparison, merge,
    removal and reconciliation, as theorems on the functions of [Schema.v] and
    [Typed.v].  Every theorem with hypotheses is followed by an instance. *)
From S2P Require Import Prelude GoLib GoFloat Value ValueOrder PathElement SortedSlice FieldSet.
From S2P Require Import FieldSetSpec FieldSetOps FieldSetInsert FieldSetIter PathElementMap Schema SchemaIndex FieldSetSchema TypedHelpers.
From S2P Require Import Validate ToFieldSet ToFieldSetSpec Remove MapZip Compare CompareSpec CompareOk.
From S2P Require Import Merge MergeSpec MergeOk MergeRefine CompareRefine Reconcile ReconcileSpec Typed.

(** ** Instances used by the witnesses *)

Definition scalarRef (s : Scalar) : TypeRef := mkTypeRef None (mkAtom (Some s) None None) None.
Definition namedRef (n : string) : TypeRef := mkTypeRef (Some n) Atom0 None.
Definition listRef (t : ListT) : TypeRef := mkTypeRef None (mkAtom None (Some t) None) None.

(** An object with a name, a list of items keyed by their names, and a set. *)
Definition exItem : MapT := mkMapT (Some [
  mkStructField "name" (scalarRef String_) None;
  mkStructField "n" (scalarRef Numeric) None]) [] TypeRef0 "separable".
Definition exItems : ListT := mkListT (namedRef "item") Associative ["name"%string].
Definition exObject : MapT := mkMapT (Some [
  mkStructField "name" (scalarRef String_) None;
  mkStructField "items" (listRef exItems) None;
  mkStructField "tags" (listRef (mkListT (scalarRef String_) Associative [])) None]) [] TypeRef0 "separable".
Definition exSchema : Schema := mkSchema [
  mkTypeDef "item" (mkAtom None None (Some exItem));
  mkTypeDef "object" (mkAtom None None (Some exObject))].
Definition exSP : SchemaPtr := mkSchemaPtr 1 exSchema.
Definition exTR : TypeRef := namedRef "object".

Definition exItemValue (name : string) (n : Z) : value :=
  VMap [("name"%string, VString name); ("n"%string, VInt KInt64 n)].
Definition exValue : value := VMap [
  ("name"%string, VString "o"); ("items"%string, VList [exItemValue "x" 1; exItemValue "y" 2]);
  ("tags"%string, VList [VString "p"; VString "q"])].
Definition exTV : TypedValue := mkTypedValue (Some exValue) exTR exSP.

Definition validates (sc : Schema) (dup : bool) (tr : TypeRef) (v : value) : bool :=
  match validate sc dup tr (Some v) None with Ret [] => true | _ => false end.

(** A conformance by evaluation. *)
Lemma validates_conforms sc dup tr v : validates sc dup tr v = true -> conforms sc dup tr v.
Proof.
  unfold validates. destruct (validate_decides sc dup v tr None) as (errs & -> & H).
  destruct errs; [|done]. intros _. by apply H.
Qed.

Lemma exValue_conforms : conforms exSchema false exTR exValue.
Proof. apply validates_conforms. vm_compute. reflexivity. Qed.

(** Comparable paths, by evaluation. *)
Lemma paths_ok_dom r (Q : list Path) : forallb (forallb (pe_ok r)) Q = true -> Forall (Forall (pe_dom r)) Q.
Proof.
  rewrite forallb_Forall. intros F. eapply Forall_impl; [exact F|]. intros p. by rewrite forallb_Forall.
Qed.

(** ** Schemas *)

(** [Schema.Resolve] with its cache returns what it computes without one, for any
    cache that holds only results of earlier resolutions, and leaves such a cache. *)
Theorem resolve_cache_transparent (same : TypeRef -> TypeRef -> bool) s tr c :
  (forall a b, same a b = true -> a = b) -> cache_ok s c ->
  (ResolveCached same s tr c).1 = Resolve s tr /\ cache_ok s (ResolveCached same s tr c).2.
Proof. intros Hs Hc. by apply ResolveCached_spec. Qed.

Lemma resolve_cache_transparent_witness :
  let tr := mkTypeRef (Some "item"%string) Atom0 (Some (mkERPtr 7 Atomic)) in
  (ResolveCached (fun _ _ => false) exSchema tr []).1 = Resolve exSchema tr.
Proof.
  intros tr. apply (resolve_cache_transparent (fun _ _ => false) exSchema tr []); [by intros|constructor].
Defined.

(** C40: However a schema has been searched, resolved from and copied into new schemas, its
    searches and those of its copies give what the types alone give: the index that is built
    once and the remembered overrides are never seen.  The same holds of the fields of a map. *)
Theorem schema_history_transparent (same : TypeRef -> TypeRef -> bool) types s m ms :
  (forall a b, same a b = true -> a = b) -> schema_history same types s -> map_history m ms ->
  (forall name, (State_FindNamedType s name).1 = FindNamedType (mkSchema types) name) /\
  (forall tr, (State_Resolve same s tr).1 = Resolve (mkSchema types) tr) /\
  (forall name, (MapState_FindField ms name).1 = FindField m name).
Proof.
  intros Hs H Hm. destruct (schema_history_ok same types s Hs H) as [Ok <-]. destruct (map_history_ok m ms Hm) as [Hl <-].
  split; [|split].
  - intros name. by apply FindNamedType_ok.
  - intros tr. by apply Resolve_ok.
  - intros name. by apply once_Do_ok.
Qed.

(** A copy of a schema that has been searched and has resolved an override. *)
Definition exSame (a b : TypeRef) : bool := false.
Definition exOverride : TypeRef := mkTypeRef (Some "item"%string) Atom0 (Some (mkERPtr 7 Atomic)).
Definition exSearched : SchemaState := (State_Resolve exSame (newSchema (Types exSchema)) exOverride).2.
Definition exCopied : SchemaState := default (newSchema []) (Schema_CopyInto exSearched (Some (newSchema []))).

Lemma schema_history_transparent_witness :
  (State_Resolve exSame exCopied exOverride).1 = Resolve exSchema exOverride /\ consumed (ss_m exCopied) = true /\
  (State_FindNamedType exCopied "item").1 = FindNamedType exSchema "item".
Proof.
  assert (Hh : schema_history exSame (Types exSchema) exCopied).
  { apply (history_copy _ _ exSearched []); [|reflexivity]. apply history_resolve, history_new. }
  destruct (schema_history_transparent exSame (Types exSchema) exCopied (mkMapT None [] TypeRef0 EmptyString) _
    ltac:(discriminate) Hh (map_new _)) as (Hf & Hr & _).
  split; [apply (Hr exOverride)|]. split; [vm_compute; reflexivity|apply (Hf "item"%string)].
Defined.

(** ** Validation *)

Definition allowsDuplicates (opts : list ValidationOptions) : bool := existsb (fun opt => opt =? AllowDuplicates) opts.

(** C32: [AsTyped] on a value that is not nil never panics; it returns the typed value
    exactly when the value conforms to the type (every scalar of its kind, every
    field declared or allowed, the items of associative lists with keys, and
    distinct ones unless duplicates are allowed), and an error otherwise. *)
Theorem as_typed_conforms v s tr opts :
  exists res, AsTyped (Some v) s tr opts = Ret res /\
    (res = inr (mkTypedValue (Some v) tr s) <-> conforms (sp_schema s) (allowsDuplicates opts) tr v) /\
    ((exists errs, res = inl errs /\ errs <> []) <-> ~ conforms (sp_schema s) (allowsDuplicates opts) tr v).
Proof.
  destruct (validate_decides (sp_schema s) (allowsDuplicates opts) v tr None) as (errs & E & H).
  unfold AsTyped, TypedValue_Validate. cbn [tv_schema tv_typeRef tv_value]. fold (allowsDuplicates opts).
  rewrite E. cbn [mbind Outcome_bind]. destruct errs as [|e errs]; cbn [length Nat.eqb negb].
  - exists (inr (mkTypedValue (Some v) tr s)). split; [done|]. split; [tauto|]. split; [by intros (? & ? & _)|].
    intros Hn. destruct Hn. by apply H.
  - exists (inl (e :: errs)). split; [done|]. split; [|split].
    + split; [done|]. by intros ?%H.
    + intros _ ?%H. done.
    + eauto.
Qed.

(** ** The field set of an object *)

(** C33: [TypedValue.ToFieldSet] of a conforming object succeeds with a well-formed set
    whose members are exactly the paths the object owns: its scalars and atomic
    containers, the items of its lists, and the fields that are null, an empty map
    or not declared by the type; below duplicate items it owns nothing. *)
Theorem to_field_set_owned r tv v :
  tv_value tv = Some v -> conforms (sp_schema (tv_schema tv)) true (tv_typeRef tv) v ->
  Forall (Forall (pe_dom r)) (ownedPaths (sp_schema (tv_schema tv)) v (tv_typeRef tv)) ->
  exists set, TypedValue_ToFieldSet tv = ok set /\ Set_ok r set = true /\
    forall p, Forall (pe_dom r) p -> p <> [] ->
      Set_Has set p = mentions (ownedPaths (sp_schema (tv_schema tv)) v (tv_typeRef tv)) p.
Proof.
  intros Ev Hc HQ. unfold TypedValue_ToFieldSet. rewrite Ev.
  destruct (toFieldSet_walks r (sp_schema (tv_schema tv)) v (tv_typeRef tv) [] (NewSet []))
    as (errs & set & -> & [Hok Ha] & He); [constructor|exact HQ|reflexivity|].
  rewrite (He (conforms_has_types _ _ _ _ Hc)). exists set. split; [done|]. split; [done|]. intros p Hp Hne. rewrite Ha by done.
  rewrite Set_Empty_Has by done. unfold under. by rewrite (list_fmap_id (ownedPaths _ _ _)).
Qed.

Lemma to_field_set_owned_witness :
  exists set, TypedValue_ToFieldSet exTV = ok set /\ Set_ok NoFloats set = true.
Proof.
  destruct (to_field_set_owned NoFloats exTV exValue) as (set & H1 & H2 & _); [reflexivity| | |exists set; exact (conj H1 H2)].
  - apply validates_conforms. vm_compute. reflexivity.
  - apply paths_ok_dom. vm_compute. reflexivity.
Defined.

(** ** Comparison *)

(** [TypedValue.Compare] of a conforming object with itself, when its lists are atomic or
    associative, succeeds and reports nothing: the comparison is [IsSame]. *)
Theorem compare_reflexive r tv v dup :
  tv_value tv = Some v -> value_ok r v = true ->
  conforms (sp_schema (tv_schema tv)) dup (tv_typeRef tv) v ->
  lists_declared (sp_schema (tv_schema tv)) v (tv_typeRef tv) = true ->
  TypeRef_Equals (tv_typeRef tv) (tv_typeRef tv) = true ->
  exists c, TypedValue_Compare tv tv = ok c /\ IsSame c = true.
Proof.
  intros Ev Hv Hc Hl Ht. exists (mkComparison emptySet emptySet emptySet).
  unfold TypedValue_Compare, same_type, SchemaPtr_eqb. rewrite Nat.eqb_refl, Ht, Ev. cbn [negb bindR ok].
  rewrite (compare_self r _ dup v) by done. done.
Qed.

Lemma compare_reflexive_witness : exists c, TypedValue_Compare exTV exTV = ok c /\ IsSame c = true.
Proof.
  apply (compare_reflexive NoFloats exTV exValue false); [reflexivity|vm_compute; reflexivity|exact exValue_conforms|
    vm_compute; reflexivity|vm_compute; reflexivity].
Defined.

(** C34: [TypedValue.Compare] never panics, when the objects and the
    defaults of the schema are comparable values and a reference of the schema that cannot
    be resolved has a name; when it finds no error, the three sets of the comparison
    satisfy the invariant of [Set]. *)
Theorem compare_well_formed r lhs rhs :
  Schema_safe r (sp_schema (tv_schema lhs)) = true -> TypeRef_safe r (tv_typeRef lhs) = true ->
  opt_ok r (tv_value lhs) -> opt_ok r (tv_value rhs) ->
  (exists errs, TypedValue_Compare lhs rhs = fail errs) \/
  (exists c, TypedValue_Compare lhs rhs = ok c /\
    Set_ok r (Removed c) = true /\ Set_ok r (Modified c) = true /\ Set_ok r (Added c) = true).
Proof.
  intros Hs Ht Hl Hr. unfold TypedValue_Compare, same_type.
  destruct (negb _); [by left; eexists|]. destruct (negb _); [by left; eexists|]. cbn [bindR ok].
  destruct (compare_ok r _ _ _ _ [] false None (mkComparison (NewSet []) (NewSet []) (NewSet [])) Hs Ht Hl Hr
    ltac:(constructor) ltac:(done)) as (errs & c & -> & Hc).
  cbn [mbind Outcome_bind fst snd]. destruct (_ <? _)%nat; [left|right]; eauto.
Qed.

Definition exValue2 : value := VMap [
  ("name"%string, VString "o2"); ("items"%string, VList [exItemValue "y" 3; exItemValue "z" 2])].
Definition exTV2 : TypedValue := mkTypedValue (Some exValue2) exTR exSP.

Lemma compare_well_formed_witness :
  exists c, TypedValue_Compare exTV exTV2 = ok c /\ IsSame c = false /\ Set_ok NoFloats (Modified c) = true.
Proof.
  destruct (compare_well_formed NoFloats exTV exTV2) as [[errs E]|(c & E & _ & Hm & _)];
    [vm_compute; reflexivity|vm_compute; reflexivity|intros x [= <-]; vm_compute; reflexivity..| |].
  - exfalso. vm_compute in E. discriminate E.
  - exists c. split; [exact E|]. split; [|exact Hm]. clear Hm. vm_compute in E. injection E as <-. vm_compute. reflexivity.
Defined.

(** [Comparison.ExcludeFields] removes from the three sets of a well-formed
    comparison exactly the excluded fields and everything below them. *)
Theorem exclude_fields_members r c f q :
  comparison_ok r c -> Set_ok r f = true -> Forall (pe_dom r) q ->
  let c' := ExcludeFields c (Some f) in
  Set_Has (Removed c') q = Set_Has (Removed c) q && negb (covered f q) /\
  Set_Has (Modified c') q = Set_Has (Modified c) q && negb (covered f q) /\
  Set_Has (Added c') q = Set_Has (Added c) q && negb (covered f q).
Proof. apply ExcludeFields_Has. Qed.

Lemma exclude_fields_members_witness :
  let c := mkComparison emptySet (NewSet [[peField "a"; peField "b"]]) emptySet in
  Set_Has (Modified (ExcludeFields c (Some (NewSet [[peField "a"]])))) [peField "a"; peField "b"] = false.
Proof.
  intros c. rewrite (proj1 (proj2 (exclude_fields_members NoFloats c (NewSet [[peField "a"]]) [peField "a"; peField "b"]
    ltac:(split_and!; vm_compute; reflexivity) ltac:(vm_compute; reflexivity) ltac:(repeat constructor)))).
  vm_compute. reflexivity.
Defined.

(** ** Merge, removal and reconciliation *)

(** The objects of a merge: comparable, of the type, with lists that are atomic or keyed. *)
Definition mergeable (r : Regime) (dup : bool) (sp : SchemaPtr) (tr : TypeRef) (v : value) : Prop :=
  value_ok r v = true /\ conforms (sp_schema sp) dup tr v /\ well_keyed r (sp_schema sp) v tr = true.

Lemma typed_merge_meets r live conf l c :
  tv_value live = Some l -> tv_value conf = Some c -> same_type live conf = ok tt ->
  mergeable r true (tv_schema live) (tv_typeRef live) l -> mergeable r false (tv_schema live) (tv_typeRef live) c ->
  exists v, TypedValue_Merge live conf = ok (mkTypedValue (Some v) (tv_typeRef live) (tv_schema live)) /\
    merged (sp_schema (tv_schema live)) (tv_typeRef live) (Some l) (Some c) v.
Proof.
  intros El Ec Hty Hl Hc. unfold TypedValue_Merge, typed_merge. rewrite Hty, El, Ec. cbn [bindR ok].
  destruct (merge_refines r (sp_schema (tv_schema live)) (tv_typeRef live) (Some l) (Some c)) as (v & -> & M);
    [by intros x [= <-]|by intros x [= <-]|by left|]. by exists v.
Qed.

(** C8: Merging a configuration into a live object, both conforming, succeeds, and the
    result is the merge the specification [merged] describes: scalars and atomic values
    of the configuration win, maps are merged field by field, an associative list has the
    items of the configuration in their order, each merged with the live item of the same
    key, interleaved with the other live items in their order. *)
Theorem merge_refines_spec r live conf l c :
  tv_value live = Some l -> tv_value conf = Some c -> same_type live conf = ok tt ->
  mergeable r true (tv_schema live) (tv_typeRef live) l -> mergeable r false (tv_schema live) (tv_typeRef live) c ->
  exists v, TypedValue_Merge live conf = ok (mkTypedValue (Some v) (tv_typeRef live) (tv_schema live)) /\
    merged (sp_schema (tv_schema live)) (tv_typeRef live) (Some l) (Some c) v.
Proof. apply typed_merge_meets. Qed.

Lemma exValue_mergeable : mergeable NoFloats true exSP exTR exValue.
Proof.
  split_and!; [vm_compute; reflexivity| |vm_compute; reflexivity]. apply validates_conforms. vm_compute. reflexivity.
Qed.

Lemma exValue2_mergeable : mergeable NoFloats false exSP exTR exValue2.
Proof.
  split_and!; [vm_compute; reflexivity| |vm_compute; reflexivity]. apply validates_conforms. vm_compute. reflexivity.
Qed.

Lemma merge_refines_spec_witness : exists v,
  TypedValue_Merge exTV exTV2 = ok (mkTypedValue (Some v) exTR exSP) /\
  merged exSchema exTR (Some exValue) (Some exValue2) v.
Proof.
  apply (merge_refines_spec NoFloats exTV exTV2 exValue exValue2); [reflexivity..|exact exValue_mergeable|exact exValue2_mergeable].
Defined.

(** C7: [TypedValue.Compare] of conforming objects of one type succeeds, and what it reports
    is determined by the parts of the two objects ([nodeAt] finds the part at a path):
    removed are the paths at which only the left object has a part, added those at
    which only the right one has, and modified those at which both have, one of the
    parts' types takes them for a leaf (a scalar, an atomic list or map, or nothing
    below on either side), and the parts are not equal. *)
Theorem compare_reports r lhs rhs x y :
  tv_value lhs = Some x -> tv_value rhs = Some y -> same_type lhs rhs = ok tt ->
  mergeable r false (tv_schema lhs) (tv_typeRef lhs) x -> mergeable r false (tv_schema lhs) (tv_typeRef lhs) y ->
  exists c, TypedValue_Compare lhs rhs = ok c /\ comparison_ok r c /\
    forall p, Forall (pe_dom r) p -> p <> [] ->
      let left := nodeAt (sp_schema (tv_schema lhs)) (tv_typeRef lhs) x p in
      let right := nodeAt (sp_schema (tv_schema lhs)) (tv_typeRef lhs) y p in
      (Set_Has (Removed c) p = true <-> is_Some left /\ right = None) /\
      (Set_Has (Added c) p = true <-> left = None /\ is_Some right) /\
      (Set_Has (Modified c) p = true <-> exists t u t' v, left = Some (t, u) /\ right = Some (t', v) /\
        leafPair (sp_schema (tv_schema lhs)) t u v = true /\ Equals v u = false).
Proof.
  intros Ex Ey Hty Hx Hy. unfold TypedValue_Compare. rewrite Hty, Ex, Ey. cbn [bindR ok].
  destruct (compare_members r (sp_schema (tv_schema lhs)) (tv_typeRef lhs) (Some x) (Some y))
    as (c & -> & Hok & H); [by intros ? [= <-]|by intros ? [= <-]|by left|].
  exists c. split; [done|]. split; [exact Hok|]. intros p Hp Hne.
  pose proof (H PRemoved p Hp Hne) as HR. pose proof (H PAdded p Hp Hne) as HA. pose proof (H PModified p Hp Hne) as HM.
  cbn [part] in HR, HA, HM. rewrite HR, HA, HM. unfold reportAt, nodeOf. cbn [mbind option_bind].
  destruct (nodeAt _ _ x p) as [[t u]|], (nodeAt _ _ y p) as [[t' v]|]; cbn [reportOf];
    rewrite ?andb_true_iff, ?negb_true_iff, ?is_Some_alt; naive_solver.
Qed.

Lemma compare_reports_witness : exists c, TypedValue_Compare exTV exTV2 = ok c /\
  let item n := [peField "items"; peKey [mkField "name"%string (VString n)]] in
  Set_Has (Removed c) (item "x"%string) = true /\ Set_Has (Added c) (item "z"%string) = true /\
  Set_Has (Modified c) (item "y"%string ++ [peField "n"]) = true /\ Set_Has (Modified c) (item "y"%string) = false.
Proof.
  destruct (compare_reports NoFloats exTV exTV2 exValue exValue2) as (c & E & _ & H);
    [reflexivity..|exact (conj (proj1 exValue_mergeable) (conj exValue_conforms (proj2 (proj2 exValue_mergeable))))|exact exValue2_mergeable|].
  exists c. split; [exact E|]. intros item.
  assert (D : forall n, Forall (pe_dom NoFloats) (item n)) by (intros n; repeat constructor).
  assert (D' : forall n, Forall (pe_dom NoFloats) (item n ++ [peField "n"])) by (intros n; repeat constructor).
  split_and!.
  - apply (H _ (D _)); [discriminate|]. vm_compute. split; [by eexists|done].
  - apply (H _ (D _)); [discriminate|]. vm_compute. split; [done|by eexists].
  - apply (H _ (D' _)); [discriminate|]. eexists _, _, _, _. split; [vm_compute; reflexivity|]. split; [vm_compute; reflexivity|]. split; vm_compute; reflexivity.
  - apply not_true_iff_false. intros HM. apply (H _ (D _)) in HM; [|discriminate].
    destruct HM as (t & u & t' & v & E1 & E2 & E3 & _). vm_compute in E1, E2. injection E1 as <- <-. injection E2 as <- <-.
    vm_compute in E3. discriminate E3.
Defined.

(** C9: Merging a configuration into a live object, both conforming, keeps the fields: every
    leaf of the configuration that field names reach has its value in the result, and so
    has every such leaf of the live object whose names leave the configuration at a map
    that is merged field by field. *)
Theorem merge_keeps_fields r live conf l c :
  tv_value live = Some l -> tv_value conf = Some c -> same_type live conf = ok tt ->
  mergeable r true (tv_schema live) (tv_typeRef live) l -> mergeable r false (tv_schema live) (tv_typeRef live) c ->
  exists v, TypedValue_Merge live conf = ok (mkTypedValue (Some v) (tv_typeRef live) (tv_schema live)) /\
    (forall names y, valueAt c names = Some y -> is_leaf y = true -> valueAt v names = Some y) /\
    (forall names y, valueAt l names = Some y -> is_leaf y = true ->
      leaves_object (sp_schema (tv_schema live)) (tv_typeRef live) c names = true -> valueAt v names = Some y).
Proof.
  intros El Ec Hty Hl Hc. destruct (typed_merge_meets r live conf l c El Ec Hty Hl Hc) as (v & E & M).
  exists v. split; [done|]. destruct Hl as (_ & Hl & _), Hc as (_ & Hc & _). split; intros names y.
  - by apply (merged_valueAt_right _ false _ _ _ _ _ _ Hc M).
  - by apply (merged_valueAt_left _ true _ _ _ _ _ _ Hl M).
Qed.

Definition exConf : value := VMap [("items"%string, VList [])].

Lemma exConf_mergeable : mergeable NoFloats false exSP exTR exConf.
Proof.
  split_and!; [vm_compute; reflexivity| |vm_compute; reflexivity]. apply validates_conforms. vm_compute. reflexivity.
Qed.

Lemma merge_keeps_fields_witness : exists v,
  TypedValue_Merge exTV (mkTypedValue (Some exConf) exTR exSP) = ok (mkTypedValue (Some v) exTR exSP) /\
  valueAt v ["name"%string] = Some (VString "o").
Proof.
  destruct (merge_keeps_fields NoFloats exTV (mkTypedValue (Some exConf) exTR exSP) exValue exConf) as (v & E & _ & H);
    [reflexivity..|exact exValue_mergeable|exact exConf_mergeable|].
  exists v. split; [exact E|]. apply H; reflexivity.
Defined.

(** C10: [TypedValue.Merge] never panics and its loop over two lists ends, for any comparable
    objects and a schema whose defaults are comparable and whose unresolvable references
    have names; when it finds no error, the result is a comparable object. *)
Theorem merge_terminates r lhs rhs :
  Schema_safe r (sp_schema (tv_schema lhs)) = true -> TypeRef_safe r (tv_typeRef lhs) = true ->
  opt_ok r (tv_value lhs) -> opt_ok r (tv_value rhs) ->
  (exists errs, TypedValue_Merge lhs rhs = fail errs) \/
  (exists tv, TypedValue_Merge lhs rhs = ok tv /\ opt_ok r (tv_value tv)).
Proof.
  intros Hs Ht Hl Hr. unfold TypedValue_Merge, typed_merge, same_type.
  destruct (negb _); [by left; eexists|]. destruct (negb _); [by left; eexists|]. cbn [bindR ok].
  destruct (merge_ok r _ ruleKeepRHS None (tv_typeRef lhs) (tv_value lhs) (tv_value rhs) false None Hs
    (ruleKeepRHS_keeps r) ltac:(done) Ht Hl Hr) as (errs & v & -> & Hv).
  cbn [mbind Outcome_bind fst snd]. destruct (_ <? _)%nat; [left|right]; eauto.
Qed.

Lemma merge_terminates_witness : exists tv, TypedValue_Merge exTV exTV2 = ok tv /\ opt_ok NoFloats (tv_value tv).
Proof.
  destruct (merge_terminates NoFloats exTV exTV2) as [[errs E]|H];
    [vm_compute; reflexivity|vm_compute; reflexivity|intros x [= <-]; vm_compute; reflexivity..| |exact H].
  exfalso. vm_compute in E. discriminate E.
Defined.

(** Merging a conforming object with itself gives the same object, when its lists are
    atomic or associative with distinct keys. *)
Theorem merge_idempotent r tv v :
  tv_value tv = Some v -> value_ok r v = true ->
  conforms (sp_schema (tv_schema tv)) false (tv_typeRef tv) v ->
  well_keyed r (sp_schema (tv_schema tv)) v (tv_typeRef tv) = true ->
  TypeRef_Equals (tv_typeRef tv) (tv_typeRef tv) = true ->
  TypedValue_Merge tv tv = ok tv.
Proof.
  intros Ev Hv Hc Hw Ht. unfold TypedValue_Merge, typed_merge, same_type, SchemaPtr_eqb.
  rewrite Nat.eqb_refl, Ht, Ev. cbn [negb bindR ok]. rewrite (merge_self r _ v) by done.
  cbn. unfold ok. do 2 f_equal. destruct tv. simpl in *. by rewrite Ev.
Qed.

Lemma merge_idempotent_witness : TypedValue_Merge exTV exTV = ok exTV.
Proof.
  apply (merge_idempotent NoFloats exTV exValue); [reflexivity|vm_compute; reflexivity|exact exValue_conforms|
    vm_compute; reflexivity|vm_compute; reflexivity].
Defined.

(** [TypedValue.RemoveItems] on a conforming object returns an object in which every
    removed field that is reached by field names is absent. *)
Theorem remove_items_absent r dup tv v items names :
  tv_value tv = Some v -> value_ok r v = true ->
  conforms (sp_schema (tv_schema tv)) dup (tv_typeRef tv) v -> Set_ok r items = true ->
  names <> [] -> Set_Has items (peField <$> names) = true ->
  exists v', TypedValue_RemoveItems tv items = Ret (withValue tv v') /\ valueAt v' names = None.
Proof.
  intros Ev Hv Hc [Hs _]%Set_ok_iff Hn Hi. unfold TypedValue_RemoveItems, removeItemsOf. rewrite Ev. simpl.
  eexists. split; [done|]. by eapply remove_gone.
Qed.

Lemma remove_items_absent_witness :
  exists v', TypedValue_RemoveItems exTV (NewSet [[peField "items"]]) = Ret (withValue exTV v') /\
    valueAt v' ["items"%string] = None.
Proof.
  apply (remove_items_absent NoFloats false exTV exValue (NewSet [[peField "items"]]) ["items"%string]);
    [reflexivity|vm_compute; reflexivity|exact exValue_conforms|vm_compute; reflexivity|discriminate|vm_compute; reflexivity].
Defined.

(** C19: [ReconcileFieldSetWithSchema] never panics.  When it reports no error, it returns
    no set exactly when no field of the set has become atomic, and otherwise a
    well-formed set: the fields that became atomic, and the former
    fields that are not at or below one of them. *)
Theorem reconcile_field_set r fs tv :
  Set_ok r fs = true ->
  let sc := sp_schema (tv_schema tv) in
  let tr := tv_typeRef tv in
  exists res, Reconcile_TypedValue fs tv = Ret res /\
    match res with
    | inl errs => errs <> []
    | inr None => forall p, ~ collapses sc (Some fs) tr false p
    | inr (Some out) =>
      Set_ok r out = true /\ (exists p, collapses sc (Some fs) tr false p) /\
      forall q, q <> [] -> Forall (pe_dom r) q ->
        Set_Has out q = true <->
        Set_Has fs q = true /\ ~ inside_collapsed sc fs tr q \/ collapsed sc fs tr q
    end.
Proof. intros H. by apply reconcile_answers. Qed.

(** The list of items became atomic: its items are replaced by the list. *)
Lemma reconcile_field_set_witness :
  let items := mkListT (namedRef "item") Atomic [] in
  let sc := mkSchema [mkTypeDef "item" (mkAtom None None (Some exItem));
    mkTypeDef "object" (mkAtom None None (Some (mkMapT (Some [mkStructField "items" (listRef items) None]) [] TypeRef0 "separable")))] in
  let tv := mkTypedValue (Some VNull) exTR (mkSchemaPtr 1 sc) in
  let fs := NewSet [[peField "items"; peKey [mkField "name" (VString "x")]]] in
  exists out, Reconcile_TypedValue fs tv = ok (Some out) /\ Set_ok NoFloats out = true /\
    Set_Iterate out = [[peField "items"]].
Proof.
  intros items sc tv fs.
  destruct (reconcile_field_set NoFloats fs tv ltac:(vm_compute; reflexivity)) as (res & E & H).
  destruct (Reconcile_TypedValue fs tv) as [|[e|[out|]]] eqn:E'; [vm_compute in E'; discriminate E'..| |vm_compute in E'; discriminate E'].
  injection E as <-. exists out. split; [reflexivity|]. split; [exact (proj1 H)|].
  vm_compute in E'. injection E' as <-. vm_compute. reflexivity.
Defined.
