(* ===== verification/PropsMerge.v ===== *)
(** * Properties of package merge

    What [Updater.Update] and [Updater.Apply] do to the managers of an object,
    for any converter, any order of the ranges over maps and any managers, and
    what pruning does to the merged object, with everything at one version. *)
From stdpp Require Import gmap.
From S2P Require Import Prelude GoLib GoFloat Value ValueOrder PathElement SortedSlice FieldSet.
From S2P Require Import FieldSetSpec FieldSetOps FieldSetInsert FieldSetIter Managers Schema FieldSetSchema TypedHelpers.
From S2P Require Import Validate ToFieldSet ToFieldSetSpec Remove Compare CompareOk Typed Updater UpdaterSpec GoodState PruneSpec PropsTyped.

(** ** Instances used by the witnesses *)

(** Ranges in the order of [map_to_list]. *)
Definition exRanges : Ranges := mkRanges (fun _ m => map_to_list m) (fun m => map_to_list m).
#[export] Instance exRanges_ok : RangesOk exRanges.
Proof. split; intros; [unfold enumerates|]; reflexivity. Qed.

(** The version v1 exists and needs no conversion. *)
Definition exConverter : Converter unit := mkConverter
  (fun tv v => if string_eqb v "v1" then (tv, None) else (None, Some tt))
  (fun e => match e with Some _ => true | None => false end).
Definition exUpdater : Updater unit := mkUpdater exConverter ∅ false.

Definition exOwns (p : Path) : VersionedSet := NewVersionedSet (NewSet [p]) "v1" false.
Definition exManagers : ManagedFields :=
  {["alice"%string := exOwns [peField "name"]; "bob"%string := NewVersionedSet (NewSet [[peField "a"]]) "v0" false;
    "me"%string := exOwns [peField "name"]]}.

Lemma exManagers_cases k vs :
  exManagers !! k = Some vs ->
  k = "alice"%string /\ vs = exOwns [peField "name"] \/
  k = "bob"%string /\ vs = NewVersionedSet (NewSet [[peField "a"]]) "v0" false \/
  k = "me"%string /\ vs = exOwns [peField "name"].
Proof.
  unfold exManagers. intros [[<- <-]|[_ Hk]]%lookup_insert_Some; [by left|].
  apply lookup_insert_Some in Hk as [[<- <-]|[_ Hk]]; [by right; left|].
  apply lookup_singleton_Some in Hk as [<- <-]. by right; right.
Qed.

Definition exCompare : Comparison :=
  match TypedValue_Compare exTV exTV2 with Ret (inr c) => c | _ => mkComparison emptySet emptySet emptySet end.

Lemma exCompare_eq : comparePtr (Some exTV) (Some exTV2) = ok (E := UpdateError unit) exCompare.
Proof. vm_compute. reflexivity. Qed.

Lemma exCompare_ok : comparison_ok NoFloats exCompare.
Proof. split_and!; vm_compute; reflexivity. Qed.

Lemma exConvertible : convertible exUpdater (Some exTV) (Some exTV2) "v1" "me"
  (ExcludeFields exCompare (IgnoredFields exUpdater !! "v1"%string)) exManagers.
Proof.
  intros k vs Hk _. apply exManagers_cases in Hk as [[-> ->]|[[-> ->]|[-> ->]]]; eexists; vm_compute; reflexivity.
Qed.

Lemma exReconciles k vs : exManagers !! k = Some vs -> exists o, reconcileEntry exUpdater (Some exTV) vs = ok o.
Proof.
  intros Hk. apply exManagers_cases in Hk as [[-> ->]|[[-> ->]|[-> ->]]]; eexists; vm_compute; reflexivity.
Qed.

(** ** The managers after an update *)

Section Statements.
Context {E : Type} (s : Updater E) (live new : option TypedValue) (version : string).

(** The comparison of the objects at the version of the request, without the ignored fields. *)
Definition requestCmp (compare : Comparison) : Comparison := ExcludeFields compare (IgnoredFields s !! version).

(** The comparison of the objects at another version, as [cmpOf] and [compareAt]. *)
Definition comparedAt (compare : Comparison) (v : string) : option Comparison :=
  cmpOf s live new version (requestCmp compare) v.
End Statements.

(** C1: [Updater.update], forced or without a conflict, succeeds when the conversions it
    needs do.  The manager of the request keeps its entry; a manager whose version
    is missing is dropped; any other manager keeps its version and kind, and of its
    fields exactly those that the comparison of the two objects at its version does
    not mention.  No manager is left with an empty set. *)
Theorem update_other_managers {E} (R : Ranges) {HR : RangesOk R} (s : Updater E) r old new version managers workflow force compare :
  comparePtr old new = ok (E := UpdateError E) compare ->
  convertible s old new version workflow (requestCmp s version compare) managers ->
  force = true \/ ~ has_conflict s old new version workflow managers compare ->
  exists managers', update R s old new version managers workflow force = ok (managers', requestCmp s version compare) /\
    managers' !! workflow = managers !! workflow ≫= nonempty_entry /\
    forall k, k <> workflow ->
      match managers !! k with
      | None => managers' !! k = None
      | Some vs =>
        match comparedAt s old new version compare (APIVersion vs) with
        | None => managers' !! k = None
        | Some c =>
          comparison_ok r c -> Set_ok r (VSet vs) = true ->
          exists set, managers' !! k = nonempty_entry (NewVersionedSet set (APIVersion vs) (Applied vs)) /\
            Set_ok r set = true /\
            forall q, Forall (pe_dom r) q -> Set_Has set q = Set_Has (VSet vs) q && negb (touches c q)
        end
      end.
Proof.
  intros Hc Hconv Hf. destruct (update_succeeds R s old new version workflow managers compare Hc Hconv force Hf)
    as (m' & E1 & Hv).
  exists m'. split; [done|]. split.
  - rewrite Hv. destruct (managers !! workflow) as [vs|]; [|done]. apply updated_workflow.
  - intros k Hk. rewrite Hv. destruct (managers !! k) as [vs|]; [|done]. cbn [mbind option_bind].
    destruct (comparedAt s old new version compare (APIVersion vs)) as [c|] eqn:Ec.
    + intros Hok Hs. by apply (updated_fields r).
    + unfold updated, obsolete, others. rewrite decide_False by done. unfold comparedAt, requestCmp in Ec. rewrite Ec.
      by rewrite (proj2 (string_eqb_false k workflow) Hk).
Qed.

Lemma update_other_managers_witness :
  exists managers', update exRanges exUpdater (Some exTV) (Some exTV2) "v1" exManagers "me" true =
      ok (managers', requestCmp exUpdater "v1" exCompare) /\
    managers' !! "bob"%string = None /\
    managers' !! "me"%string = Some (exOwns [peField "name"]).
Proof.
  destruct (update_other_managers exRanges exUpdater NoFloats (Some exTV) (Some exTV2) "v1" exManagers "me" true exCompare
    exCompare_eq exConvertible (or_introl eq_refl)) as (m' & E1 & Hw & Ho).
  exists m'. split; [exact E1|]. split; [exact (Ho "bob"%string ltac:(discriminate))|].
  rewrite Hw. vm_compute. reflexivity.
Defined.

(** C2: Without force, [Updater.update] fails exactly because of conflicts: when another
    manager owns a field that the request modifies or adds (as compared at that
    manager's version), the error lists, manager by manager, each of the fields in
    conflict and nothing else, whatever the order of the ranges. *)
Theorem update_reports_conflicts {E} (R : Ranges) {HR : RangesOk R} (s : Updater E) old new version managers workflow compare :
  comparePtr old new = ok (E := UpdateError E) compare ->
  convertible s old new version workflow (requestCmp s version compare) managers ->
  has_conflict s old new version workflow managers compare ->
  exists conflicts, update R s old new version managers workflow false = fail (ErrConflicts conflicts) /\
    forall c, c ∈ conflicts <->
      c_Manager c <> workflow /\ exists vs cmp, managers !! c_Manager c = Some vs /\
        comparedAt s old new version compare (APIVersion vs) = Some cmp /\
        c_Path c ∈ Set_Iterate (Set_Intersection (VSet vs) (Set_Union (Modified cmp) (Added cmp))).
Proof.
  intros Hc Hconv Hf. destruct (update_conflicts R s old new version workflow managers compare Hc Hconv Hf)
    as (cs & E1 & Hv).
  eexists. split; [exact E1|]. intros c. rewrite (ConflictsFromManagers_elem _ cs) by apply range_enumerates.
  rewrite Hv. unfold entry_conflict, others, comparedAt, conflictOf. split.
  - intros (x & (vs & Hk & Hx)%bind_Some & Hp).
    destruct (decide (c_Manager c = workflow)); [done|]. split; [done|].
    destruct (cmpOf _ _ _ _ _ (APIVersion vs)) as [cmp|] eqn:Ec; [|done].
    destruct (Set_Empty _); [done|]. injection Hx as <-. by exists vs, cmp.
  - intros (Hne & vs & cmp & Hk & Ec & Hp). rewrite Hk. cbn [mbind option_bind]. rewrite decide_False by done.
    unfold requestCmp in Ec. rewrite Ec.
    destruct (Set_Empty _) eqn:Ee; [|by eexists].
    rewrite Set_Empty_Size, Nat.eqb_eq, Set_Size_Iterate in Ee. apply nil_length_inv in Ee. rewrite Ee in Hp.
    by apply not_elem_of_nil in Hp.
Qed.

Lemma update_reports_conflicts_witness :
  exists conflicts, update exRanges exUpdater (Some exTV) (Some exTV2) "v1" exManagers "me" false =
      fail (ErrConflicts conflicts) /\ mkConflict "alice" [peField "name"] ∈ conflicts.
Proof.
  destruct (update_reports_conflicts exRanges exUpdater (Some exTV) (Some exTV2) "v1" exManagers "me" exCompare
    exCompare_eq exConvertible) as (cs & E1 & Hcs).
  - exists "alice"%string, (exOwns [peField "name"]). split; [vm_compute; reflexivity|].
    eexists. vm_compute. reflexivity.
  - exists cs. split; [exact E1|]. apply Hcs. split; [discriminate|].
    exists (exOwns [peField "name"]), exCompare. split; [vm_compute; reflexivity|]. split; [vm_compute; reflexivity|].
    vm_compute. left.
Defined.

(** C35: The outcome of a successful [Updater.update] does not depend on the order in which
    Go ranges over its maps: under any other order it succeeds with the same
    managers and the same comparison. *)
Theorem update_order_independent {E} (R R' : Ranges) {HR : RangesOk R} {HR' : RangesOk R'} (s : Updater E)
    old new version managers workflow force managers' c :
  update R s old new version managers workflow force = ok (managers', c) ->
  update R' s old new version managers workflow force = ok (managers', c).
Proof.
  intros H. pose proof (update_ok_inv R s old new version workflow managers force _ H) as (compare & Hc & Hconv & Hf).
  destruct (update_succeeds R s old new version workflow managers compare Hc Hconv force Hf) as (m1 & E1 & H1).
  destruct (update_succeeds R' s old new version workflow managers compare Hc Hconv force Hf) as (m2 & E2 & H2).
  rewrite E1 in H. injection H as <- <-. rewrite E2. unfold ok. do 3 f_equal.
  apply map_eq. intros k. by rewrite H1, H2.
Qed.

Lemma update_order_independent_witness :
  let R' := mkRanges (fun _ m => reverse (map_to_list m)) (fun m => map_to_list m) in
  exists managers' c,
    update exRanges exUpdater (Some exTV) (Some exTV2) "v1" exManagers "me" true = ok (managers', c) /\
    update R' exUpdater (Some exTV) (Some exTV2) "v1" exManagers "me" true = ok (managers', c).
Proof.
  intros R'. assert (HR' : RangesOk R').
  { split; intros; [unfold enumerates; simpl; apply reverse_Permutation|reflexivity]. }
  destruct (update exRanges exUpdater (Some exTV) (Some exTV2) "v1" exManagers "me" true) as [|[e|[m c]]] eqn:E1;
    [vm_compute in E1; discriminate E1..|].
  exists m, c. split; [reflexivity|].
  exact (update_order_independent exRanges R' exUpdater (Some exTV) (Some exTV2) "v1" exManagers "me" true m c E1).
Defined.

(** C3: [Updater.Update] succeeds when reconciliation, comparison and conversions do.  The
    updating manager then owns, at the version of the request and as an update,
    what it owned and the request did not remove, with what the request modified or
    added, less the ignored fields and everything below them; it is dropped if that
    is nothing.  Every other manager is treated as by [update]. *)
Theorem update_ownership {E} (R : Ranges) {HR : RangesOk R} (s : Updater E) r live new version managers0 managers manager compare :
  reconcileManagedFieldsWithSchemaChanges R s live managers0 = ok managers ->
  comparePtr live new = ok (E := UpdateError E) compare ->
  convertible s live new version manager (requestCmp s version compare) managers ->
  let c := requestCmp s version compare in
  exists managers' set, Update R s live new version managers0 manager = ok (new, managers') /\
    managers' !! manager = nonempty_entry (NewVersionedSet set version false) /\
    (comparison_ok r c -> (forall vs, managers !! manager = Some vs -> Set_ok r (VSet vs) = true) ->
     (forall f, IgnoredFields s !! version = Some f -> Set_ok r f = true) ->
     forall q, Forall (pe_dom r) q ->
       Set_Has set q =
         (match managers !! manager with Some vs => Set_Has (VSet vs) q | None => false end && negb (Set_Has (Removed c) q)
          || Set_Has (Modified c) q || Set_Has (Added c) q) &&
         negb (match IgnoredFields s !! version with Some f => covered f q | None => false end)) /\
    forall k, k <> manager -> managers' !! k = managers !! k ≫= updated s live new version manager c k.
Proof.
  intros Hr Hc Hconv c.
  destruct (Update_managers R s live new version managers0 managers manager compare Hr Hc Hconv) as (m' & E1 & Hm & Ho).
  exists m', (ownAfterUpdate s c version (managers !! manager)). split; [done|]. split; [done|]. split; [|done].
  intros Hok Hown Hi q Hq. by apply (ownAfterUpdate_Has s r).
Qed.

Lemma update_ownership_witness :
  exists managers' set, Update exRanges exUpdater (Some exTV) (Some exTV2) "v1" exManagers "me" = ok (Some exTV2, managers') /\
    managers' !! "me"%string = nonempty_entry (NewVersionedSet set "v1" false) /\ Set_Has set [peField "name"] = true.
Proof.
  destruct (reconcile_loop exRanges exUpdater (Some exTV) exManagers exReconciles) as (m & Er & Hv).
  destruct (update_ownership exRanges exUpdater NoFloats (Some exTV) (Some exTV2) "v1" exManagers m "me" exCompare Er exCompare_eq)
    as (m' & set & E1 & E2 & Hset & _).
  { intros k vs Hk _. rewrite Hv in Hk. apply bind_Some in Hk as (vs0 & Hk & Hr).
    apply exManagers_cases in Hk as [[-> ->]|[[-> ->]|[-> ->]]]; vm_compute in Hr; [|discriminate Hr|];
      injection Hr as <-; eexists; vm_compute; reflexivity. }
  assert (Hme : m !! "me"%string = Some (exOwns [peField "name"])) by (rewrite Hv; vm_compute; reflexivity).
  exists m', set. split; [exact E1|]. split; [exact E2|].
  rewrite Hset; [rewrite Hme; vm_compute; reflexivity|exact exCompare_ok| |done|by repeat constructor].
  rewrite Hme. intros vs [= <-]. vm_compute. reflexivity.
Defined.

(** C5: After a successful [Updater.Apply] the applying manager owns exactly the fields of
    its configuration, less the ignored ones, at the version of the request and
    marked as applied: whatever it owned before is forgotten. *)
Theorem apply_ownership {E} (R : Ranges) {HR : RangesOk R} (s : Updater E) live config version managers manager force obj managers' :
  Apply R s live config version managers manager force = ok (obj, managers') ->
  exists tv set, config = Some tv /\ TypedValue_ToFieldSet tv = ok set /\
    managers' !! manager = nonempty_entry (NewVersionedSet
      (match IgnoredFields s !! version with Some f => Set_RecursiveDifference set f | None => set end) version true).
Proof. apply Apply_owner. done. Qed.

Lemma apply_ownership_witness :
  exists obj managers' set, Apply exRanges exUpdater (Some exTV) (Some exTV2) "v1" exManagers "me" true = ok (obj, managers') /\
    TypedValue_ToFieldSet exTV2 = ok set /\
    managers' !! "me"%string = nonempty_entry (NewVersionedSet set "v1" true).
Proof.
  destruct (Apply exRanges exUpdater (Some exTV) (Some exTV2) "v1" exManagers "me" true) as [|[e|[obj m']]] eqn:E1;
    [vm_compute in E1; discriminate E1..|].
  destruct (apply_ownership exRanges exUpdater (Some exTV) (Some exTV2) "v1" exManagers "me" true obj m' E1)
    as (tv & set & Etv & Es & Hm).
  injection Etv as <-. exists obj, m', set. exact (conj eq_refl (conj Es Hm)).
Defined.

(** C4: A first [Updater.Apply] (by a manager that owns nothing) returns the merge of the live
    object and the configuration, or no object if the merge changes nothing and the
    input need not be returned; the managers are those of [update] from the live to
    the merged object, with the configuration's fields given to the applier.  Without
    force, a field of another manager that the merge changes is a conflict error. *)
Theorem apply_first {E} (R : Ranges) {HR : RangesOk R} (s : Updater E) live config version managers0 managers manager
    merged set lv mv compare :
  reconcileManagedFieldsWithSchemaChanges R s (Some live) managers0 = ok managers ->
  managers !! manager ≫= nonempty_entry = None ->
  TypedValue_Merge live config = ok merged -> TypedValue_ToFieldSet config = ok set ->
  tv_value live = Some lv -> tv_value merged = Some mv ->
  comparePtr (Some live) (Some merged) = ok (E := UpdateError E) compare ->
  let owned := <[manager := NewVersionedSet (appliedSet s version set) version true]> managers in
  let c := requestCmp s version compare in
  convertible s (Some live) (Some merged) version manager c owned ->
  (forall force, force = true \/ ~ has_conflict s (Some live) (Some merged) version manager owned compare ->
    exists managers',
      Apply R s (Some live) (Some config) version managers0 manager force =
        ok (if negb (returnInputOnNoop s) && Equals lv mv then None else Some merged, managers') /\
      forall k, managers' !! k = owned !! k ≫= updated s (Some live) (Some merged) version manager c k) /\
  (has_conflict s (Some live) (Some merged) version manager owned compare ->
    exists conflicts, Apply R s (Some live) (Some config) version managers0 manager false = fail (ErrConflicts conflicts)).
Proof.
  intros Hr Hl Hm Hs Elv Emv Hc owned c Hconv. split.
  - intros force Hf. rewrite (Apply_first R s live config version managers0 managers manager force merged set lv mv) by done.
    fold owned. destruct (update_succeeds R s _ _ version manager owned compare Hc Hconv force Hf) as (m' & -> & Hv).
    exists m'. split; [done|exact Hv].
  - intros Hf. rewrite (Apply_first R s live config version managers0 managers manager false merged set lv mv) by done.
    fold owned. destruct (update_conflicts R s _ _ version manager owned compare Hc Hconv Hf) as (cs & -> & _).
    by eexists.
Qed.

Definition exMerged : TypedValue :=
  match TypedValue_Merge exTV exTV2 with Ret (inr tv) => tv | _ => exTV end.
Definition exOwned : FSet := match TypedValue_ToFieldSet exTV2 with Ret (inr s) => s | _ => emptySet end.
Definition exCompareMerged : Comparison :=
  match TypedValue_Compare exTV exMerged with Ret (inr c) => c | _ => mkComparison emptySet emptySet emptySet end.

Lemma apply_first_witness :
  exists conflicts, Apply exRanges exUpdater (Some exTV) (Some exTV2) "v1" exManagers "new" false = fail (ErrConflicts conflicts).
Proof.
  destruct (reconcile_loop exRanges exUpdater (Some exTV) exManagers exReconciles) as (m & Er & Hv).
  destruct (apply_first exRanges exUpdater exTV exTV2 "v1" exManagers m "new" exMerged exOwned exValue
    (match tv_value exMerged with Some v => v | None => VNull end) exCompareMerged) as [_ H].
  - exact Er.
  - rewrite Hv. vm_compute. reflexivity.
  - vm_compute. reflexivity.
  - vm_compute. reflexivity.
  - reflexivity.
  - vm_compute. reflexivity.
  - vm_compute. reflexivity.
  - intros k vs [[<- <-]|[Hne Hk]]%lookup_insert_Some Hk'; [eexists; vm_compute; reflexivity|].
    rewrite Hv in Hk. apply bind_Some in Hk as (vs0 & Hk & Hr).
    apply exManagers_cases in Hk as [[-> ->]|[[-> ->]|[-> ->]]]; vm_compute in Hr; [|discriminate Hr|];
      injection Hr as <-; eexists; vm_compute; reflexivity.
  - apply H. exists "alice"%string, (exOwns [peField "name"]). split.
    + rewrite lookup_insert_ne by discriminate. rewrite Hv. vm_compute. reflexivity.
    + eexists. vm_compute. reflexivity.
Defined.

(** [reconcileManagedFieldsWithSchemaChanges] keeps, for each manager, the entry with
    its set reconciled (or unchanged when there is nothing to reconcile), and drops
    the managers whose version is missing, whatever the order of the range. *)
Theorem reconcile_managers {E} (R : Ranges) {HR : RangesOk R} (s : Updater E) live managers :
  (forall k vs, managers !! k = Some vs -> exists o, reconcileEntry s live vs = ok o) ->
  exists managers', reconcileManagedFieldsWithSchemaChanges R s live managers = ok managers' /\
    forall k o, managers' !! k = o <->
      match managers !! k with None => o = None | Some vs => reconcileEntry s live vs = ok o end.
Proof.
  intros H. destruct (reconcile_loop R s live managers H) as (m' & E1 & Hv). exists m'. split; [done|].
  intros k o. rewrite Hv. destruct (managers !! k) as [vs|] eqn:Ek; [|by split].
  destruct (H k vs Ek) as [o' Eo]. cbn [mbind option_bind]. unfold reconciledEntry. rewrite Eo. cbn [ok].
  unfold ok. split; [by intros ->|]. by intros [= ->].
Qed.

Lemma reconcile_managers_witness :
  exists managers', reconcileManagedFieldsWithSchemaChanges exRanges exUpdater (Some exTV) exManagers = ok managers' /\
    managers' !! "bob"%string = None.
Proof.
  destruct (reconcile_managers exRanges exUpdater (Some exTV) exManagers) as (m' & E1 & Hv).
  - exact exReconciles.
  - exists m'. split; [exact E1|]. apply Hv. vm_compute. reflexivity.
Defined.

(** ** Pruning *)

(** C6: [Updater.prune] succeeds when the managers and the objects are at one version and the
    schema has a type for every part of the object.  Of the scalars that are reached by
    field names, through granular maps, it removes what the applying manager had applied
    and no manager owns any more.  It keeps what a manager owns (and with it the fields
    above that the schema names), and what was not applied, nor a field above it. *)
Theorem prune_effect {E} (R : Ranges) {HR : RangesOk R} r (s : Updater E) V managers manager last m v :
  (forall tv, Convert (u_Converter s) (Some tv) V = (Some tv, None)) ->
  (forall k vs, managers !! k = Some vs -> APIVersion vs = V) -> APIVersion last = V ->
  managers_ok r managers -> Set_ok r (VSet last) = true -> Set_Empty (VSet last) = false ->
  good_tv r m -> tv_value m = Some v -> has_types (sp_schema (tv_schema m)) v (tv_typeRef m) = true ->
  is_Some (managers !! manager) ->
  exists v', prune R s (Some m) managers manager (Some last) = ok (Some (withValue m v')) /\
    forall names w, leafAt (sp_schema (tv_schema m)) v (tv_typeRef m) names w -> names <> [] ->
      (Set_Has (VSet last) (fields names) = true -> unowned managers names -> valueAt v' names = None) /\
      (ownedLeaf managers m names -> valueAt v' names = Some w) /\
      (unapplied last m names -> valueAt v' names = Some w).
Proof.
  intros Hc Hv Hl Hs Hlo He Hg Ev Ht Ho.
  destruct (prune_items R r s V managers manager last m v) as (? & ? & ? & ? & i & _ & _ & _ & Ep & _); [done..|].
  eexists. split; [exact Ep|]. intros names w Hleaf Hne. split_and!.
  - by eapply (prune_removes R r s V managers manager).
  - by eapply (prune_keeps_owned R r s V managers manager).
  - by eapply (prune_keeps_unapplied R r s V managers manager).
Qed.

(** A scalar and a granular map with two, all applied before; one is owned by another manager. *)
Definition exInner : MapT := mkMapT (Some [
  mkStructField "x" (scalarRef Numeric) None; mkStructField "y" (scalarRef Numeric) None]) [] TypeRef0 "separable".
Definition exOuter : MapT := mkMapT (Some [
  mkStructField "a" (scalarRef Numeric) None;
  mkStructField "s" (mkTypeRef None (mkAtom None None (Some exInner)) None) None]) [] TypeRef0 "separable".
Definition exPruned : value := VMap [("a"%string, VInt KInt64 1);
  ("s"%string, VMap [("x"%string, VInt KInt64 2); ("y"%string, VInt KInt64 3)])].
Definition exPrunedTV : TypedValue :=
  mkTypedValue (Some exPruned) (mkTypeRef None (mkAtom None None (Some exOuter)) None) (mkSchemaPtr 1 (mkSchema [])).
Definition exLast : VersionedSet :=
  NewVersionedSet (NewSet [[peField "a"]; [peField "s"; peField "x"]; [peField "s"; peField "y"]]) "v1" true.
Definition exOwners : ManagedFields :=
  {["me"%string := NewVersionedSet (NewSet []) "v1" true; "bob"%string := exOwns [peField "s"; peField "x"]]}.

Lemma prune_effect_witness :
  exists v', prune exRanges exUpdater (Some exPrunedTV) exOwners "me" (Some exLast) = ok (Some (withValue exPrunedTV v')) /\
    valueAt v' ["a"%string] = None /\ valueAt v' ["s"%string; "y"%string] = None /\
    valueAt v' ["s"%string; "x"%string] = Some (VInt KInt64 2).
Proof.
  assert (Hk : forall k vs, exOwners !! k = Some vs ->
    vs = NewVersionedSet (NewSet []) "v1" true \/ vs = exOwns [peField "s"; peField "x"]).
  { unfold exOwners. intros k vs [[_ <-]|[_ [_ <-]%lookup_singleton_Some]]%lookup_insert_Some; auto. }
  destruct (prune_effect exRanges NoFloats exUpdater "v1" exOwners "me" exLast exPrunedTV exPruned) as (v' & Ep & H).
  1: reflexivity. 1: intros k vs [->| ->]%Hk; reflexivity. 1: reflexivity.
  1: intros k vs [->| ->]%Hk; vm_compute; reflexivity. 1-2: vm_compute; reflexivity.
  1: split_and!; [vm_compute; reflexivity..|intros x [= <-]; vm_compute; reflexivity].
  1: reflexivity. 1: vm_compute; reflexivity. 1: vm_compute; by eexists.
  exists v'. split; [exact Ep|]. split_and!.
  - apply (H ["a"%string] (VInt KInt64 1)); [apply findLeaf_leafAt; vm_compute; reflexivity|discriminate|vm_compute; reflexivity|].
    intros k vs [->| ->]%Hk; split; vm_compute; reflexivity.
  - apply (H ["s"%string; "y"%string] (VInt KInt64 3)); [apply findLeaf_leafAt; vm_compute; reflexivity|discriminate|vm_compute; reflexivity|].
    intros k vs [->| ->]%Hk; split; vm_compute; reflexivity.
  - apply (proj1 (proj2 (H ["s"%string; "x"%string] (VInt KInt64 2) ltac:(apply findLeaf_leafAt; vm_compute; reflexivity) ltac:(discriminate)))). split.
    + exists "bob"%string, (exOwns [peField "s"; peField "x"]). split; vm_compute; reflexivity.
    + intros p [->|[->|[]%not_elem_of_nil]%elem_of_cons]%elem_of_cons; left; vm_compute; reflexivity.
Defined.
