(* ===== verification/PropsState.v ===== *)
(** * Properties of parsers and of sequences of operations

    The schema of schemas, and what holds of an object and its managers after
    any sequence of updates, applies and schema changes. *)
From stdpp Require Import gmap.
From S2P Require Import Prelude GoLib GoFloat Value ValueOrder PathElement SortedSlice FieldSet.
From S2P Require Import FieldSetSpec FieldSetOps FieldSetInsert FieldSetIter Managers Schema FieldSetSchema TypedHelpers.
From S2P Require Import Validate Compare CompareOk Typed SchemaSchema Parser Updater UpdaterSpec State StateSpec GoodState.
From S2P Require Import PropsTyped PropsMerge.

(** ** Instances used by the witnesses *)

(** A library that decodes a few texts. *)
#[export] Instance exYaml : YamlLib := {|
  YamlError := unit;
  unmarshalValue s :=
    if string_eqb s "schema" then inr (Schema_yaml exSchema)
    else if string_eqb s "object" then inr exValue
    else if string_eqb s "object2" then inr exValue2
    else inl tt;
  unmarshalSchema s := if string_eqb s "schema" then inr exSchema else inl tt;
|}.

Definition exParser : Parser := mkParser exSP.
Definition exOps : list Operation := [
  OpApply "alice" "object" "object" None;
  OpApply "bob" "object" "object2" (Some [
    mkConflict "alice" [peField "items"; peKey [mkField "name" (VString "y")]; peField "n"];
    mkConflict "alice" [peField "name"]]);
  OpForceApply "bob" "object" "object2";
  OpExtractApply "alice" "object" "object";
  OpUpdate "alice" "object" "object2"].
Definition exCase : TestCase := mkTestCase exOps "" "" None false ∅.

(** ** Parsers *)

(** C15: [NewParser] accepts the YAML form of every schema whose types, fields and union
    members have distinct names (non-empty for types and fields) and whose defaults
    hold no uint64: it conforms to the schema of schemas, and the parser of that
    schema results.  The schema of schemas itself is one of these. *)
Theorem new_parser_accepts {Y : YamlLib} (ssParser : Parser) addr text sc :
  sp_schema (p_Schema ssParser) = SchemaSchema -> Schema_named sc = true ->
  unmarshalValue text = inr (Schema_yaml sc) -> unmarshalSchema text = inr sc ->
  NewParser ssParser addr text = ok (mkParser (mkSchemaPtr addr sc)) /\ Schema_named SchemaSchema = true.
Proof.
  intros Hss Hn Hv Hsc. split; [|vm_compute; reflexivity]. unfold NewParser, FromYAML. rewrite Hv.
  rewrite AsTyped_conforms; [|cbn [Parser_Type pt_Schema pt_TypeRef]; rewrite Hss; by apply Schema_accepted].
  cbn [wrap bindR ok]. unfold create. by rewrite Hsc.
Qed.

Lemma new_parser_accepts_witness :
  NewParser (mkParser (mkSchemaPtr 7 SchemaSchema)) 8 "schema" = ok (mkParser (mkSchemaPtr 8 exSchema)).
Proof.
  apply (new_parser_accepts (mkParser (mkSchemaPtr 7 SchemaSchema)) 8 "schema" exSchema); vm_compute; reflexivity.
Defined.

(** ** Sequences of operations *)

(** C14: Whatever the operations of a test case (applies, updates, extractions, schema
    changes, failing or not), the converter, the parser and the orders of the ranges,
    no manager is left with an empty set: [TestWithConverter] never ends with the
    error of its last check. *)
Theorem no_empty_managers {Y : YamlLib} {E} (Diff : value -> value -> string) (Rs : nat -> Ranges) order tc parser
    (converter : Converter E) manager :
  (forall i, RangesOk (Rs i)) -> (forall m, enumerates (order m) m) ->
  TestWithConverter Diff Rs order tc parser converter <> Ret (Some (ErrEmptySet manager)).
Proof.
  intros HR Ho. unfold TestWithConverter.
  destruct (runOps Rs 0 (Ops tc) (initState tc parser converter)) as [|[s err]] eqn:Er; [done|]. cbn [mbind Outcome_bind].
  assert (Hs : no_empty (st_Managers s)).
  { eapply (runOps_keeps (fun s => no_empty (st_Managers s)) (fun _ => True)); [|exact HR|by apply Forall_true| |exact Er].
    - intros R op s1 s2 res HR1 _. by apply run_no_empty.
    - apply map_Forall_empty. }
  destruct err as [e|]; [apply runOps_error in Er as (j & e' & ->); done|].
  destruct (string_eqb _ _); [intros [= H]; revert H; by apply checkManagers_nonempty|].
  destruct (CompareLive _ _ _ _) as [|[s' [e|d]]] eqn:Ec; [done|done|].
  destruct (string_eqb d _); [|done]. apply CompareLive_managers in Ec. rewrite Ec.
  intros [= H]. revert H. by apply checkManagers_nonempty.
Qed.

Lemma no_empty_managers_witness :
  TestWithConverter (fun _ _ => EmptyString) (fun _ => exRanges) map_to_list exCase (Parser_Type exParser) dummyConverter <>
    Ret (Some (ErrEmptySet "bob")).
Proof. apply no_empty_managers; [intros _; exact exRanges_ok|intros m; unfold enumerates; reflexivity]. Defined.

(** C13: From a well-formed state, any sequence of operations on good objects leads to a
    well-formed state, also when an operation fails: the sets of all managers are
    sorted, without duplicates and without empty nodes, and the live object is
    comparable and of a safe schema.  Good are comparable objects of safe schemas, and
    texts that decode, if at all, to comparable values; the converter must return
    good objects for good objects. *)
Theorem operations_keep_well_formed {Y : YamlLib} {E} r (Rs : nat -> Ranges) ops (s s' : State E) err :
  (forall i, RangesOk (Rs i)) -> Forall (op_objects_good r) ops -> good_state r s -> runOps Rs 0 ops s = Ret (s', err) ->
  good_state r s'.
Proof.
  intros HR F. eapply runOps_keeps; [|done|exact F]. intros R op s1 s2 res HR1 Hop. by eapply run_good.
Qed.

Definition exState : State string := initState exCase (Parser_Type exParser) dummyConverter.
Definition exFinal : State string :=
  match runOps (fun _ => exRanges) 0 exOps exState with Ret (s, _) => s | Panic => exState end.

Lemma operations_keep_well_formed_witness :
  runOps (fun _ => exRanges) 0 exOps exState = Ret (exFinal, None) /\ good_state NoFloats exFinal.
Proof.
  assert (Er : runOps (fun _ => exRanges) 0 exOps exState = Ret (exFinal, None)) by (vm_compute; reflexivity).
  split; [exact Er|].
  apply (operations_keep_well_formed NoFloats (fun _ => exRanges) exOps exState exFinal None);
    [intros _; exact exRanges_ok| | |exact Er].
  - repeat apply Forall_cons_2; try apply Forall_nil_2; intros text v Et Ev; vm_compute in Et; injection Et as <-;
      vm_compute in Ev; injection Ev as <-; vm_compute; reflexivity.
  - split.
    + intros tv. discriminate.
    + intros v. split; reflexivity.
    + intros k vs. discriminate.
    + split; [|discriminate]. intros o v Ho. cbn. destruct (_ =? _)%nat; [discriminate|exact Ho].
Defined.

(** An operation that fails leaves the managers of the object as they were, except an
    apply that expected conflicts and met none, which has taken effect when it is
    reported. *)
Theorem failed_operation_keeps_managers {Y : YamlLib} {E} R op (s s' : State E) e :
  run R op s = Ret (s', inl e) ->
  st_Managers s' = st_Managers s \/ exists expected, e = ErrExpectedConflicts expected [].
Proof. by apply (run_fails (st_Managers s)). Qed.

Lemma failed_operation_keeps_managers_witness :
  let op := OpApply "carol" "object" "object" None in
  exists s' e, run exRanges op exFinal = Ret (s', inl e) /\ st_Managers s' = st_Managers exFinal.
Proof.
  intros op. destruct (run exRanges op exFinal) as [|[s' [e|u]]] eqn:Er; [vm_compute in Er; discriminate Er| |vm_compute in Er; discriminate Er].
  exists s', e. split; [reflexivity|].
  destruct (failed_operation_keeps_managers exRanges op exFinal s' e Er) as [H|[expected H]]; [exact H|].
  exfalso. subst e. vm_compute in Er. discriminate Er.
Defined.

(** Preprocessing changes nothing: an operation given as YAML does what the operation on
    the decoded object does, and its decoding errors are the same. *)
Theorem preprocess_transparent {Y : YamlLib} {E} R op (s : State E) :
  run R op s =
    match preprocess (st_Parser s) op with
    | Panic => Panic
    | Ret (inl e) => Ret (s, inl (ErrParse e))
    | Ret (inr op') => run R op' s
    end.
Proof.
  rewrite run_preprocess. unfold bindM, liftM. by destruct (preprocess _ _) as [|[e|op']].
Qed.
