(* ===== verification/PropsJson.v ===== *)
(** * Properties of the JSON form of path elements and sets

    Round trips and well-formedness of what is read, for every JSON library that
    satisfies [JsonLaws]; the instances use the library of [JsonInstance.v]. *)
From S2P Require Import Prelude GoLib GoFloat Value ValueOrder PathElement SortedSlice FieldSet FieldSetSpec.
From S2P Require Import Serialize SerializeSpec JsonInstance.
From Stdlib Require Import Ascii.

Definition exPort : PathElement :=
  peKey [mkField "port" (VInt KInt64 80); mkField "protocol" (VString "TCP")].

(** A path element that JSON represents (text, numbers that float64 holds exactly, keys
    in order) can be written, and reading the text gives a path element that is [Equals]
    to it and comparable. *)
Theorem path_element_roundtrip `{JsonLaws} pe :
  pe_writable pe = true ->
  exists s pe', SerializePathElement pe = inr s /\ DeserializePathElement s = inr pe' /\
    PathElement_Equals pe pe' = true /\ pe_ok ExactInts pe' = true.
Proof.
  intros Hw. destruct (path_element_json pe Hw) as (s & pe' & E1 & _ & _ & E2 & E3 & D). by exists s, pe'.
Qed.

Lemma path_element_roundtrip_witness : exists s pe',
  SerializePathElement exPort = inr s /\ DeserializePathElement s = inr pe' /\ PathElement_Equals exPort pe' = true.
Proof.
  destruct (path_element_roundtrip exPort) as (s & pe' & E1 & E2 & E3 & _); [vm_compute; reflexivity|].
  exists s, pe'. split; [exact E1|]. split; [exact E2|exact E3].
Defined.

(** C11: A well-formed set whose path elements JSON represents can be written by [ToJSON], and
    [FromJSON] of the text gives a well-formed set that is [Equals] to it. *)
Theorem set_json_roundtrip `{JsonLaws} s :
  Set_ok ExactInts s = true -> Set_writable s = true ->
  exists text s', Set_ToJSON s = inr text /\ Set_FromJSON text = inr s' /\
    Set_ok ExactInts s' = true /\ Set_Equals s s' = true.
Proof. apply Set_json_roundtrip. Qed.

(** A member, a child, and a member that is also a child. *)
Definition exOwned : FSet := NewSet [
  [peField "a"]; [peField "a"; peField "b"]; [peField "ports"; exPort]; [peField "ports"; exPort; peField "port"]; [peField "z"]].

Lemma set_json_roundtrip_witness : exists text s',
  Set_ToJSON exOwned = inr text /\ Set_FromJSON text = inr s' /\ Set_Equals exOwned s' = true.
Proof.
  destruct (set_json_roundtrip exOwned) as (text & s' & E1 & E2 & _ & E3); [vm_compute; reflexivity|vm_compute; reflexivity|].
  exists text, s'. split; [exact E1|]. split; [exact E2|exact E3].
Defined.

(** C12: Whatever text [Set.FromJSON] accepts, the set satisfies the invariant of [Set]: keys
    out of order or repeated are put in their place, and no empty node is made. *)
Theorem set_from_json_well_formed `{JsonLaws} text s :
  Set_FromJSON text = inr s -> Set_ok ExactInts s = true.
Proof. apply Set_FromJSON_ok. Qed.

(** The calls that write an object with keys out of order, one of them twice. *)
Definition exUnordered : list jevent := [
  WriteObjectStart; WriteObjectField "f:b"; WriteObjectStart; WriteObjectField "f:x"; WriteEmptyObject; WriteObjectEnd;
  WriteMore; WriteObjectField "f:a"; WriteEmptyObject; WriteMore; WriteObjectField "f:b"; WriteEmptyObject; WriteObjectEnd].

Lemma set_from_json_well_formed_witness : exists text s, render exUnordered = Some text /\
  Set_FromJSON text = inr s /\ s = NewSet [[peField "a"]; [peField "b"]; [peField "b"; peField "x"]] /\
  Set_ok ExactInts s = true.
Proof.
  destruct (render exUnordered) as [text|] eqn:Et; [|discriminate Et]. exists text.
  assert (E : Set_FromJSON text = inr (NewSet [[peField "a"]; [peField "b"]; [peField "b"; peField "x"]])).
  { injection Et as <-. vm_compute. reflexivity. }
  eexists. split; [reflexivity|]. split; [exact E|]. split; [reflexivity|]. apply (set_from_json_well_formed text). exact E.
Defined.

Lemma readFields_app `{JsonLib} fs1 fs2 st :
  readFields readIterV1 (fs1 ++ fs2) st =
  match readFields readIterV1 fs1 st with inl err => inl err | inr st => readFields readIterV1 fs2 st end.
Proof.
  revert st. induction fs1 as [|[k d] fs1 IH]; intros st; [done|]. cbn [readFields app].
  destruct (readEntry k (readIterV1 d) st); [done|]. apply IH.
Qed.

(** Reading a set skips the fields whose path elements are of an unknown type, with all
    they contain, wherever they are; every other field is read as without them. *)
Theorem read_skips_unknown `{JsonLib} fs1 fs2 typ rest d :
  typ <> "f"%char -> typ <> "v"%char -> typ <> "k"%char -> typ <> "i"%char ->
  readIterV1 (DObj (fs1 ++ (String typ (String ":" rest), d) :: fs2)) = readIterV1 (DObj (fs1 ++ fs2)).
Proof.
  intros Hf Hv Hk Hi. cbn [readIterV1]. rewrite !readFields_app.
  destruct (readFields readIterV1 fs1 (None, false)) as [|st]; [done|]. cbn [readFields]. unfold readEntry.
  assert (Hdot : string_eqb (String typ (String ":" rest)) "." = false) by (apply string_eqb_false; done).
  rewrite Hdot. cbn [DeserializePathElement].
  by rewrite (proj2 (Ascii.eqb_neq typ "f") Hf), (proj2 (Ascii.eqb_neq typ "v") Hv), (proj2 (Ascii.eqb_neq typ "k") Hk),
    (proj2 (Ascii.eqb_neq typ "i") Hi).
Qed.

Lemma read_skips_unknown_witness :
  readIterV1 (DObj [("f:a"%string, DObj []); ("x:new"%string, DVal (VBool true))]) = inr (Some (NewSet [[peField "a"]]), false).
Proof.
  rewrite (read_skips_unknown [("f:a"%string, DObj [])] [] "x"%char "new" (DVal (VBool true))); [vm_compute; reflexivity|discriminate..].
Defined.
