(* ===== verification/PropsReflect.v ===== *)
(** * Properties of values backed by Go structs

    Reflection presents Go structs, maps and slices as values.  The theorems hold
    for every program whose structs nest at most two inlinings
    ([shallow_program]); the instances use a small program like those of
    Kubernetes: an object with inlined metadata, a specification with optional
    fields, and a time that marshals itself. *)
From S2P Require Import Prelude GoLib GoFloat Value ValueOrder Schema TypedHelpers GoReflect JsonTag ReflectCache ReflectCacheSpec.
From S2P Require Import ValueReflect ReflectSpec ReflectDynamic ReflectWrite ConvertSpec MapZip ReflectZip.
From S2P Require Import Unstructured ValueInterface ValueInterfaceSpec ReflectEqual.
From Stdlib Require Import Ascii.

(** ** A program *)

Definition exTime : GoType := TNamed "Time" (TInt KInt64).

(** The text of a string without escapes. *)
Definition exUnquote (s : string) : string := String.substring 1 (String.length s - 2) s.

#[local] Instance exProgram : GoProgram := {|
  structs := [
    ("Object", [mkStructFieldT "Meta" ",inline" (TStruct "Meta"); mkStructFieldT "Spec" "spec,omitempty" (TPtr (TStruct "Spec"));
                mkStructFieldT "Created" "created" exTime; mkStructFieldT "Internal" "-" TChan]);
    ("Meta", [mkStructFieldT "Name" "name" TString;
              mkStructFieldT "Labels" "labels,omitempty" (TMap TString TString)]);
    ("Spec", [mkStructFieldT "Replicas" "replicas,omitempty" (TPtr (TInt KInt32));
              mkStructFieldT "Ports" "ports" (TSlice (TStruct "Port")); mkStructFieldT "Data" "data,omitempty" (TSlice (TInt KUint8));
              mkStructFieldT "Extra" "extra" TInterface]);
    ("Port", [mkStructFieldT "Port" "port" (TInt KInt32); mkStructFieldT "Protocol" "protocol,omitempty" TString])];
  hasMarshalJSON := fun t => match t with TNamed n _ => string_eqb n "Time" | _ => false end;
  hasUnmarshalJSON := fun t => match t with TPtr (TNamed "Time" _) => true | _ => false end;
  hasToUnstructured := fun _ => false;
  MarshalError := unit;
  MarshalJSON := fun _ v => match v with GInt _ => inr (String (ascii_of_nat 34) (String.append "now" (String (ascii_of_nat 34) EmptyString))) | _ => inl tt end;
  UnmarshalJSON := fun _ _ => inr (GInt 0);
  ToUnstructuredMethod := fun _ _ => VNull;
|}.

#[local] Instance exJson : GoJson := {|
  JsonErr := unit;
  decodeString := fun s => inr (exUnquote s);
  decodeObject := fun _ => inl tt;
  decodeArray := fun _ => inl tt;
  decodeInt64 := fun _ => inl tt;
  decodeFloat64 := fun _ => inl tt;
  numberInt64 := fun n => if string_eqb n "1" then inr 1 else inl tt;
  numberFloat64 := fun _ => inl tt;
  encode := fun _ _ => inl tt;
|}.

Definition exSpec (replicas : GoVal) : GoVal :=
  GStruct [replicas; GSlice [GStruct [GInt 80; GString "TCP"]; GStruct [GInt 443; GString EmptyString]]; GSlice [GInt 77; GInt 97; GInt 110];
           GIface (TSlice TInterface) (GSlice [GNil; GIface TString (GString "x")])].
Definition exObject : GoVal :=
  GPtr (GStruct [GStruct [GString "web"; GMap [("app", GString "a"); ("tier", GString "b")]]; GPtr (exSpec (GPtr (GInt 3))); GInt 0; GNil]).

Example ex_supported : supported 5 (ValueOf (TPtr (TStruct "Object")) exObject) = true.
Proof. vm_compute. reflexivity. Qed.

(** ** The view of a Go object *)

(** C16: In a program that inlines structs at most two deep, [NewValueReflect] accepts a pointer to a supported Go object, and the value it
    returns refines the unstructured form of the object: [Unstructured] terminates, and
    every accessor, at every depth, through every way to reach a part (items, ranges,
    lookups, iteration), gives what the unstructured form has. *)
Theorem reflect_refines {Pg : GoProgram} {J : GoJson} n t v :
  shallow_program = true -> Type_Kind t = KdPtr -> supported n (ValueOf t v) = true ->
  exists r u, NewValueReflect (Some (t, v)) = Ret (inr (inr r)) /\ refines n r u.
Proof.
  intros Hs Hk Hv. destruct (supported_refines (shallow_types Hs) n (ValueOf t v) Hv) as [u Hu].
  destruct (Hu None None) as (r & Er & Hr); [by left|]. exists r, u. split; [|done].
  unfold NewValueReflect, wrapValueReflect. rewrite Hk. unfold mustReuse in Er.
  destruct (reuse (ValueOf t v) None None) as [|[|]]; try done. by injection Er as ->.
Qed.

(** The object as the package sees it. *)
Definition exUnstructured : value := VMap [
  ("created", VString "now"); ("labels", VMap [("app", VString "a"); ("tier", VString "b")]); ("name", VString "web");
  ("spec", VMap [("data", VString "TWFu"); ("extra", VList [VNull; VString "x"]);
    ("ports", VList [VMap [("port", VInt KInt64 80); ("protocol", VString "TCP")]; VMap [("port", VInt KInt64 443)]]);
    ("replicas", VInt KInt64 3)])].

Lemma reflect_refines_witness : exists r u,
  NewValueReflect (Some (TPtr (TStruct "Object"), exObject)) = Ret (inr (inr r)) /\ Unstructured 5 r = Ret exUnstructured /\
  refines 5 r u /\ u = exUnstructured.
Proof.
  destruct (reflect_refines 5 (TPtr (TStruct "Object")) exObject) as (r & u & E & Hr);
    [vm_compute; reflexivity|reflexivity|vm_compute; reflexivity|].
  assert (Eu : Unstructured 5 r = Ret exUnstructured).
  { vm_compute in E. injection E as <-. vm_compute. reflexivity. }
  exists r, u. split; [exact E|]. split; [exact Eu|]. split; [exact Hr|].
  destruct Hr as [Hu _]. rewrite Eu in Hu. by injection Hu as <-.
Defined.

(** A dynamic value in an [interface{}], of any Go types but uint64, is shown as it is,
    with its integers as int64 and its floats as float64. *)
Theorem dynamic_values_shown {Pg : GoProgram} {J : GoJson} v addr parent :
  shallow_program = true -> (forall t, builtin t = true -> converts t = false) -> reflectable v = true ->
  exists r, mustReuse (mkRV TInterface (toIface (goVal v)) addr) None parent = Ret r /\ Unstructured (S (height v)) r = Ret (shown v).
Proof.
  intros Hs Hm Hr. destruct (dynamic_shown (shallow_types Hs) Hm (S (height v)) v) as [H _]; [lia|done|].
  apply H. by left.
Qed.

Lemma ex_no_methods t : builtin t = true -> converts t = false.
Proof. by destruct t. Qed.

Definition exDynamic : value := VMap [("a", VInt KUint8 7); ("b", VList [VFloat32 (S754_zero false); VNull]); ("c", VMap [])].

Lemma dynamic_values_shown_witness : exists r,
  mustReuse (mkRV TInterface (toIface (goVal exDynamic)) true) None None = Ret r /\
  Unstructured 3 r = Ret (VMap [("a", VInt KInt64 7); ("b", VList [VFloat64 (S754_zero false); VNull]); ("c", VMap [])]).
Proof. exact (dynamic_values_shown exDynamic true None eq_refl ex_no_methods eq_refl). Defined.

(** ** Traversals *)

(** [structZip], the fast path for two structs of one type, visits exactly the keys, in
    the order and with the values, that the ordered traversal of their unstructured forms
    visits. *)
Theorem struct_zip_lexical {Pg : GoProgram} {J : GoJson} n p1 p2 d1 d2 :
  shallow_program = true -> Kind d1 = KdStruct -> rv_type d1 = rv_type d2 ->
  plain (supported n) d1 = true -> plain (supported n) d2 = true ->
  let r1 := mkValueReflect p1 d1 structMapType in
  let r2 := mkValueReflect p2 d2 structMapType in
  exists m1 m2 vs, Unstructured (S n) r1 = Ret (VMap m1) /\ Unstructured (S n) r2 = Ret (VMap m2) /\
    Forall2 (visit_rel (refines n)) vs (lexicalVisits m1 m2) /\
    (forall S (fn : string -> option valueReflect -> option valueReflect -> S -> Outcome (S * bool)) s,
      structZip fn r1 r2 s = foldVisits fn vs s) /\
    (forall S (fn : string -> option value -> option value -> S -> S * bool) s,
      lexicalKeyOrderedMapZip fn (Some m1) (Some m2) s = foldPure fn (lexicalVisits m1 m2) s).
Proof.
  intros Hs Hk Et H1 H2 r1 r2. pose proof (shallow_types Hs) as Hsh.
  destruct (supported_fields Hsh n d1 Hk H1) as [os1 F1].
  destruct (supported_fields Hsh n d2) as [os2 F2]; [unfold Kind in *; by rewrite <-Et|done|].
  pose proof (refines_Unstructured n) as HR.
  destruct (struct_agrees Hsh (refines n) (Unstructured n) HR p1 d1 os1 F1 Hk) as [U1 _].
  destruct (struct_agrees Hsh (refines n) (Unstructured n) HR p2 d2 os2 F2) as [U2 _]; [unfold Kind in *; by rewrite <-Et|].
  rewrite <-Et in F2, U2. destruct (structZip_visits (refines n) Hsh r1 r2 os1 os2 F1 F2) as (vs & Hvs & Hfold).
  eexists _, _, vs. split; [exact U1|]. split; [exact U2|]. split; [exact Hvs|]. split; [exact Hfold|].
  intros S fn s. apply lexicalVisits_zip.
Qed.

Definition exPort80 : RValue := mkRV (TStruct "Port") (GStruct [GInt 80; GString "TCP"]) true.
Definition exPort443 : RValue := mkRV (TStruct "Port") (GStruct [GInt 443; GString EmptyString]) true.

Lemma struct_zip_lexical_witness : exists m1 m2 vs,
  Unstructured 2 (mkValueReflect None exPort80 structMapType) = Ret (VMap m1) /\
  Unstructured 2 (mkValueReflect None exPort443 structMapType) = Ret (VMap m2) /\
  lexicalVisits m1 m2 = [("port", (Some (VInt KInt64 80), Some (VInt KInt64 443))); ("protocol", (Some (VString "TCP"), None))] /\
  Forall2 (visit_rel (refines 1)) vs (lexicalVisits m1 m2).
Proof.
  destruct (struct_zip_lexical 1 None None exPort80 exPort443) as (m1 & m2 & vs & E1 & E2 & Hvs & _); [vm_compute; reflexivity..|].
  exists m1, m2, vs. split; [exact E1|]. split; [exact E2|]. split; [|exact Hvs].
  vm_compute in E1, E2. injection E1 as <-. injection E2 as <-. vm_compute. reflexivity.
Defined.

(** [unorderedReflectZip], the fast path for two maps, visits each key of either map once,
    with both optional values: the visits of the general traversal, in another order. *)
Theorem map_zip_visits {Pg : GoProgram} {J : GoJson} n p1 p2 d1 d2 :
  shallow_program = true -> kind d1 = Ret mapType -> kind d2 = Ret mapType ->
  plain (supported n) d1 = true -> plain (supported n) d2 = true ->
  let r1 := mkValueReflect p1 d1 mapType in
  let r2 := mkValueReflect p2 d2 mapType in
  exists m1 m2 vs visits, Unstructured (S n) r1 = Ret (VMap m1) /\ Unstructured (S n) r2 = Ret (VMap m2) /\
    visits ≡ₚ zipEntries (Some m1) (Some m2) /\ Forall2 (visit_rel (refines n)) vs visits /\
    forall S (fn : string -> option valueReflect -> option valueReflect -> S -> Outcome (S * bool)) s,
      unorderedReflectZip fn r1 (Some r2) s = foldVisits fn vs s.
Proof.
  intros Hs K1 K2 H1 H2 r1 r2. pose proof (shallow_types Hs) as Hsh. pose proof (refines_Unstructured n) as HR.
  destruct (supported_entries Hsh n d1 K1 H1) as (m1 & us1 & E1 & N1 & F1).
  destruct (supported_entries Hsh n d2 K2 H2) as (m2 & us2 & E2 & N2 & F2).
  destruct (map_agrees (refines n) (Unstructured n) HR p1 d1 m1 us1 E1 (kind_Kind _ _ K1) N1 F1) as [U1 _].
  destruct (map_agrees (refines n) (Unstructured n) HR p2 d2 m2 us2 E2 (kind_Kind _ _ K2) N2 F2) as [U2 _].
  destruct (unorderedReflectZip_visits (refines n) r1 r2 m1 m2 us1 us2 E1 E2 F1 F2) as (vs & Hvs & Hfold).
  eexists _, _, vs, _. split; [exact U1|]. split; [exact U2|]. split; [|split; [exact Hvs|exact Hfold]].
  apply rightVisits_perm; by rewrite zip_keys by (by eapply Forall2_length).
Qed.

Definition exLabels (m : list (string * GoVal)) : RValue := mkRV (TMap TString TString) (GMap m) false.
Definition exLabels1 : RValue := exLabels [("app", GString "a"); ("tier", GString "b")].
Definition exLabels2 : RValue := exLabels [("tier", GString "c"); ("zone", GString "d")].

Lemma map_zip_visits_witness : exists m1 m2 vs visits,
  Unstructured 2 (mkValueReflect None exLabels1 mapType) = Ret (VMap m1) /\
  Unstructured 2 (mkValueReflect None exLabels2 mapType) = Ret (VMap m2) /\
  visits ≡ₚ [("app", (Some (VString "a"), None)); ("tier", (Some (VString "b"), Some (VString "c"))); ("zone", (None, Some (VString "d")))] /\
  Forall2 (visit_rel (refines 1)) vs visits.
Proof.
  destruct (map_zip_visits 1 None None exLabels1 exLabels2) as (m1 & m2 & vs & visits & E1 & E2 & Hp & Hvs & _); [vm_compute; reflexivity..|].
  exists m1, m2, vs, visits. split; [exact E1|]. split; [exact E2|]. split; [|exact Hvs].
  vm_compute in E1, E2. injection E1 as <-. injection E2 as <-. exact Hp.
Defined.

(** ** Values behind the interface *)

(** C37: In a program that inlines structs at most two deep,
    [ZipUsing] of any two maps, unstructured or structs or maps of Go objects, visits each
    key of either map once, with what each map has for it; in the order of the keys if asked to,
    and through the fast paths, as the general traversal of the unstructured forms. *)
Theorem zip_visits {Pg : GoProgram} {J : GoJson} n x y l r order :
  shallow_program = true -> represents (S n) x (VMap l) -> represents (S n) y (VMap r) ->
  exists visits vs, visits ≡ₚ zipEntries (Some l) (Some r) /\ (order = LexicalKeyOrder -> visits = lexicalVisits l r) /\
    Forall2 (visit_rel (shows n)) vs visits /\
    forall S (fn : string -> option GoValue -> option GoValue -> S -> Outcome (S * bool)) s,
      M_ZipUsing fn x (Some y) order s = foldVisits fn vs s.
Proof.
  intros Hs Hx%(represents_shows (shallow_types Hs)) Hy%(represents_shows (shallow_types Hs)).
  by apply (M_ZipUsing_visits (shallow_types Hs)).
Qed.

(** C38: In a program that inlines structs at most two deep,
    [CompareUsing] of any two values, each unstructured or a Go object, returns what it returns
    for their unstructured forms; so does [Less]. *)
Theorem compare_interface {Pg : GoProgram} {J : GoJson} n x y u w :
  shallow_program = true -> represents n x u -> represents n y w ->
  V_Compare n x y = Ret (Compare u w) /\ V_Less n x y = Ret (Less u w).
Proof.
  intros Hs Hx%(represents_shows (shallow_types Hs)) Hy%(represents_shows (shallow_types Hs)).
  pose proof (V_Compare_shows (shallow_types Hs) n x y u w Hx Hy) as E. split; [exact E|]. unfold V_Less, Less. by rewrite E.
Qed.

(** C39: [EqualsUsing] of any two values, each unstructured or a Go object, in a program that inlines
    structs at most two deep: if one of the values is unstructured or no list occurs, it says that
    they are equal exactly if their unstructured forms are.  For any two values it does not panic,
    and says that they are equal only if their forms are, provided that the types of the program
    that have conversion methods hold no floats, maps, channels or functions and convert to no NaN
    ([conversions_exact]): [reflect.DeepEqual] of two lists does not look at what such types
    convert to. *)
Theorem equals_interface {Pg : GoProgram} {J : GoJson} opaque n x y u w :
  shallow_program = true -> represents n x u -> represents n y w ->
  (conversions_exact opaque -> exists b, V_Equals opaque n x y = Ret b /\ (b = true -> Equals u w = true)) /\
  ((exists v, x = OfUnstructured v) \/ (exists v, y = OfUnstructured v) \/ no_lists u = true ->
    V_Equals opaque n x y = Ret (Equals u w)).
Proof.
  intros Hs Hx%(represents_shows (shallow_types Hs)) Hy%(represents_shows (shallow_types Hs)). split.
  - intros Hc. exact (V_Equals_sound opaque (shallow_types Hs) Hc n x y u w Hx Hy).
  - by apply (V_Equals_shows (shallow_types Hs)).
Qed.

(** Objects that differ in the number of replicas. *)
Definition exReplicas (n : Z) : GoVal :=
  GPtr (GStruct [GStruct [GString "web"; GMap [("app", GString "a"); ("tier", GString "b")]]; GPtr (exSpec (GPtr (GInt n))); GInt 0; GNil]).
Definition exReflected (n : Z) : GoValue :=
  match NewValueReflect (Some (TPtr (TStruct "Object"), exReplicas n)) with Ret (inr (inr r)) => OfReflect r | _ => OfUnstructured VNull end.
Definition exForm (n : Z) : value := VMap [
  ("created", VString "now"); ("labels", VMap [("app", VString "a"); ("tier", VString "b")]); ("name", VString "web");
  ("spec", VMap [("data", VString "TWFu"); ("extra", VList [VNull; VString "x"]);
    ("ports", VList [VMap [("port", VInt KInt64 80); ("protocol", VString "TCP")]; VMap [("port", VInt KInt64 443)]]);
    ("replicas", VInt KInt64 n)])].

Lemma ex_represents : represents 5 (exReflected 3) (exForm 3) /\ represents 5 (exReflected 4) (exForm 4).
Proof.
  split; (split; [vm_compute; reflexivity|]).
  - exists (TPtr (TStruct "Object")), (exReplicas 3). split; [reflexivity|]. split; [|split]; vm_compute; reflexivity.
  - exists (TPtr (TStruct "Object")), (exReplicas 4). split; [reflexivity|]. split; [|split]; vm_compute; reflexivity.
Qed.

Lemma ex_unstructured : represents 5 (OfUnstructured (exForm 3)) (exForm 3).
Proof. split; [reflexivity|]. split; [reflexivity|]. vm_compute. lia. Qed.

(** A time is an integer, or nil, and converts to a string. *)
Lemma ex_time x t u :
  rv_type x = TNamed "Time" t -> ToUnstructured (flagsOf (rv_type x)) x = inr u ->
  rv_val x = GNil /\ u = VNull \/ (exists i, rv_val x = GInt i) /\ u = VString "now".
Proof.
  intros E. unfold ToUnstructured, getUnstructuredConverter, getJsonMarshaler, Kind. rewrite E.
  cbn [flagsOf isJsonMarshaler isStringConvertable ptrIsStringConvertable implementsConverter hasMarshalJSON hasToUnstructured exProgram].
  destruct (rv_val x), (Type_Kind (TNamed "Time" t)); cbn; intros [=]; subst; eauto.
Qed.

Lemma ex_conversions opaque : conversions_exact opaque.
Proof.
  intros x u Hc Hx. assert (exists t, rv_type x = TNamed "Time" t) as [t Et].
  { unfold converts, implementsConverter in Hc. destruct (rv_type x) as [| | | | | | | | | | | | | | | |name t]; try done. cbn in Hc. exists t.
    destruct (string_eqb name "Time") eqn:En; [|done]. by apply string_eqb_true in En as ->. }
  destruct (ex_time x t u Et Hx) as [[-> ->]|[[i ->] ->]]; by split.
Qed.

(** The object against its form, and against the object with more replicas. *)
Lemma zip_visits_witness : exists visits vs,
  visits ≡ₚ zipEntries (Some (AsMap (exForm 3))) (Some (AsMap (exForm 4))) /\
  Forall2 (visit_rel (shows 4)) vs visits /\ visits.*1 = ["created"; "labels"; "name"; "spec"].
Proof.
  destruct (zip_visits 4 (exReflected 3) (exReflected 4) (AsMap (exForm 3)) (AsMap (exForm 4)) LexicalKeyOrder)
    as (visits & vs & P & E & F & _); [vm_compute; reflexivity|exact (proj1 ex_represents)|exact (proj2 ex_represents)|].
  exists visits, vs. split; [exact P|]. split; [exact F|]. rewrite (E eq_refl). vm_compute. reflexivity.
Defined.

Lemma compare_interface_witness :
  V_Compare 5 (exReflected 3) (exReflected 4) = Ret (-1) /\ V_Compare 5 (exReflected 4) (OfUnstructured (exForm 3)) = Ret 1.
Proof.
  assert (Hs : shallow_program = true) by (vm_compute; reflexivity). split.
  - rewrite (proj1 (compare_interface 5 (exReflected 3) (exReflected 4) (exForm 3) (exForm 4) Hs (proj1 ex_represents) (proj2 ex_represents))).
    vm_compute. reflexivity.
  - rewrite (proj1 (compare_interface 5 (exReflected 4) (OfUnstructured (exForm 3)) (exForm 4) (exForm 3) Hs (proj2 ex_represents) ex_unstructured)).
    vm_compute. reflexivity.
Defined.

Lemma equals_interface_witness :
  V_Equals false 5 (exReflected 3) (OfUnstructured (exForm 3)) = Ret true /\ Equals (exForm 3) (exForm 3) = true /\
  exists b, V_Equals false 5 (exReflected 3) (exReflected 4) = Ret b /\ (b = true -> Equals (exForm 3) (exForm 4) = true).
Proof.
  assert (Hs : shallow_program = true) by (vm_compute; reflexivity). split; [|split; [vm_compute; reflexivity|]].
  - rewrite (proj2 (equals_interface false 5 (exReflected 3) (OfUnstructured (exForm 3)) (exForm 3) (exForm 3) Hs
      (proj1 ex_represents) ex_unstructured)); [vm_compute; reflexivity|]. right. left. by exists (exForm 3).
  - exact (proj1 (equals_interface false 5 (exReflected 3) (exReflected 4) (exForm 3) (exForm 4) Hs
      (proj1 ex_represents) (proj2 ex_represents)) (ex_conversions false)).
Defined.

(** Reflected lists with equal unstructured forms that are not equal: lists of numbers of two Go types,
    and lists of one type of structs whose omitted fields differ. *)
Definition int32List : valueReflect := mkValueReflect None (mkRV (TSlice (TInt KInt32)) (GSlice [GInt 1]) false) listType.
Definition int64List : valueReflect := mkValueReflect None (mkRV (TSlice (TInt KInt64)) (GSlice [GInt 1]) false) listType.
Definition metaList (labels : GoVal) : valueReflect :=
  mkValueReflect None (mkRV (TSlice (TStruct "Meta")) (GSlice [GStruct [GString "web"; labels]]) false) listType.

Theorem equal_lists_differ :
  V_Equals false 2 (OfReflect int32List) (OfReflect int64List) = Ret false /\
  Unstructured 2 int32List = Unstructured 2 int64List /\
  V_Equals false 3 (OfReflect (metaList GNil)) (OfReflect (metaList (GMap []))) = Ret false /\
  Unstructured 3 (metaList GNil) = Unstructured 3 (metaList (GMap [])).
Proof. split; [|split; [|split]]; vm_compute; reflexivity. Qed.

(** ** Writing *)

(** C18: In a program that inlines structs at most two deep and gives no methods to builtin types,
    [Set] on a struct that can be written in place stores a non-null value that [Get] then shows,
    and leaves what [Get] shows for every other key: for a key that names a field, inlined or
    not, that is of type [interface{}], or is not [omitempty] and has exactly the type of the
    value ([fits]). *)
Theorem struct_set_get {Pg : GoProgram} {J : GoJson} r key f old u :
  shallow_program = true -> (forall t, builtin t = true -> converts t = false) ->
  assoc_get key (layoutOf (rv_type (vr_Value r))) = Some f -> GetFrom f (vr_Value r) = Ret old -> rv_addr old = true ->
  rv_type old = fi_type f -> fits f u = true -> u <> VNull -> reflectable u = true ->
  exists x r', struct_Set r key u = Ret (InPlace x) /\
    struct_Get (written r x) key = Ret (Some r') /\ Unstructured (S (height u)) r' = Ret (shown u) /\
    forall key', key' <> key -> struct_Get (written r x) key' = struct_Get r key'.
Proof. intros Hs Hm. by apply (struct_Set_Get (shallow_types Hs) Hm). Qed.

(** The inlined name of the object. *)
Definition exMeta : valueReflect :=
  mkValueReflect None (mkRV (TStruct "Object") (GStruct [GStruct [GString "web"; GNil]; GNil; GInt 0; GNil]) true) structMapType.

Lemma struct_set_get_witness : exists x r',
  struct_Set exMeta "name" (VString "db") = Ret (InPlace x) /\
  x = GStruct [GStruct [GString "db"; GNil]; GNil; GInt 0; GNil] /\
  struct_Get (written exMeta x) "name" = Ret (Some r') /\ Unstructured 1 r' = Ret (VString "db") /\
  struct_Get (written exMeta x) "labels" = struct_Get exMeta "labels".
Proof.
  destruct (struct_set_get exMeta "name" (mkFieldInfo "name" false [0; 0]%nat TString) (mkRV TString (GString "web") true) (VString "db"))
    as (x & r' & E1 & E2 & E3 & E4); [vm_compute; reflexivity|exact ex_no_methods|vm_compute; reflexivity..|discriminate|reflexivity|].
  exists x, r'. split; [exact E1|]. split; [vm_compute in E1; by injection E1 as <-|]. split; [exact E2|]. split; [exact E3|].
  apply E4. discriminate.
Defined.

(** ** The cache of types *)

(** C17: Goroutines look up types concurrently, each starting from whatever map was published
    when it read it.  In a program that inlines structs at most two deep, from any such state
    every lookup terminates, although struct types may refer to each other in cycles, and
    returns the entry with the declared fields, their paths, and the conversions of that type.
    ([reflect_anomalies] has what happens to the paths three deep.) *)
Theorem cache_lookups_correct {Pg : GoProgram} fuel published s cm t :
  shallow_program = true -> (S (length fieldTypes) < fuel)%nat -> cache_run fuel published s -> cm ∈ published ->
  exists e s', TypeReflectEntryOf fuel cm t s = Some (e, s') /\ entry_ok (cs_heap s') t e.
Proof.
  intros Hs Hf Hr Hcm. destruct (cache_run_ok (shallow_types Hs) fuel published s Hf Hr) as [F C].
  rewrite Forall_forall in F. destruct (TypeReflectEntryOf_ok (shallow_types Hs) fuel cm t s Hf (F cm Hcm) C) as (e & s' & E & _ & He & _).
  by exists e, s'.
Qed.

Lemma cache_lookups_correct_witness : exists e s', TypeReflectEntryOf 20 [] (TStruct "Object") (mkCacheState [] []) = Some (e, s') /\
  resolve (cs_heap s') (structFields e) = [
    ("name", mkFieldInfo "name" false [0; 0]%nat TString);
    ("labels", mkFieldInfo "labels" true [0; 1]%nat (TMap TString TString));
    ("spec", mkFieldInfo "spec" true [1]%nat (TPtr (TStruct "Spec")));
    ("created", mkFieldInfo "created" false [2]%nat exTime)].
Proof.
  destruct (cache_lookups_correct 20 [[]] (mkCacheState [] []) [] (TStruct "Object")) as (e & s' & E & He);
    [vm_compute; reflexivity|vm_compute; lia|constructor|left|].
  exists e, s'. split; [exact E|]. rewrite (ok_fields _ _ _ He). vm_compute. reflexivity.
Defined.

(** ** Conversions *)

(** The numbers of a JSON document are converted exactly if it has at most
    [maxDepth + 1] nested levels; a deeper one is an error, whatever it holds. *)
Theorem conversion_depth {Pg : GoProgram} {J : GoJson} v :
  numbers_ok v = true ->
  convertEntry 0 v = if levels v <=? maxDepth + 1 then inr (decoded v) else inl ErrMaxDepth.
Proof.
  intros Hv. rewrite convertEntry_levels by done. rewrite Z.add_0_l.
  destruct (Z.leb_spec (levels v) (maxDepth + 1)); [done|]. by destruct (Z.eqb_spec (levels v) 0); [unfold maxDepth in *; lia|].
Qed.

(** Arrays nested in each other. *)
Definition nestedArrays (n : nat) : jtree := Nat.iter n (fun t => JArray [t]) (JNumber "1").

Lemma conversion_depth_witness :
  convertEntry 0 (nestedArrays 2) = inr (VList [VList [VInt KInt64 1]]) /\
  convertEntry 0 (nestedArrays (Z.to_nat 10002)) = inl ErrMaxDepth.
Proof.
  split; [exact (conversion_depth (nestedArrays 2) eq_refl)|].
  assert (E : (levels (nestedArrays (Z.to_nat 10002)) <=? maxDepth + 1) = false) by (vm_compute; reflexivity).
  rewrite (conversion_depth (nestedArrays (Z.to_nat 10002))); [|vm_compute; reflexivity]. rewrite E. reflexivity.
Defined.

(** ** Where reflection departs from its intent *)

(** Structs inlined three deep, the innermost with two fields. *)
Definition deepProgram : GoProgram := {|
  structs := [
    ("A", [mkStructFieldT "B" ",inline" (TStruct "B")]); ("B", [mkStructFieldT "C" ",inline" (TStruct "C")]);
    ("C", [mkStructFieldT "D" ",inline" (TStruct "D")]); ("D", [mkStructFieldT "X" "x" TString; mkStructFieldT "Y" "y" TString])];
  hasMarshalJSON := fun _ => false;
  hasUnmarshalJSON := fun _ => false;
  hasToUnstructured := fun _ => false;
  MarshalError := unit;
  MarshalJSON := fun _ _ => inl tt;
  UnmarshalJSON := fun _ _ => inl tt;
  ToUnstructuredMethod := fun _ _ => VNull;
|}.

Definition deepStruct (x y : string) : RValue :=
  mkRV (TStruct "A") (GStruct [GStruct [GStruct [GStruct [GString x; GString y]]]]) true.

(** A port in a map of structs: its entry cannot be written in place. *)
Definition portInMap (m : RValue) (k : string) (port : Z) (protocol : string) : valueReflect :=
  mkValueReflect (Some (m, k)) (mkRV (TStruct "Port") (GStruct [GInt port; GString protocol]) false) structMapType.

(** Two anomalies.  In a struct inlined three deep the paths of sibling fields share
    memory, so the first sibling shows the value of the second.  [Set] on a struct that is
    an entry of a map replaces the entry by a struct that has only the field that is set. *)
Theorem reflect_anomalies :
  (forall x y, Unstructured (Pg := deepProgram) 2 (mkValueReflect None (deepStruct x y) structMapType) =
    Ret (VMap [("x", VString y); ("y", VString y)])) /\
  (forall m k port old new, struct_Set (portInMap m k port old) "protocol" (VString new) =
    Ret (MapEntry k (GStruct [GInt 0; GString new]))).
Proof. split; reflexivity. Qed.
