(* ===== verification/PropsValue.v ===== *)
(** * Properties of allocators and of unstructured values *)
From S2P Require Import Prelude GoLib GoFloat Value ValueOrder Schema TypedHelpers GoReflect JsonTag ReflectCache ValueReflect Allocator AllocatorSpec.
From S2P Require Import AllocatorBound Unstructured.

(** ** Allocators *)

(** C28: a client that does not use an object after freeing it, and reads only
    what it has set, runs with the freelist allocator without panic and reads
    exactly what the contract of the objects says, the same as with the heap
    allocator, however objects are reused; and after any such run every freelist
    holds at most [freelistMaxSize] objects. *)
Theorem freelists_transparent prog s :
  arun prog ainit = Some s ->
  exists c ch,
    crun (A := freelistState) prog cinit = Ret c /\ crun (A := unit) prog cinit = Ret ch /\
    cl_seen c = as_seen s /\ cl_seen ch = as_seen s /\
    forall k, (length (freelist k (cl_alloc c)) <= freelistMaxSize)%nat.
Proof.
  intros H. destruct (crun_contract (A := freelistState) prog s H) as (c & Hc & Sc).
  destruct (crun_contract (A := unit) prog s H) as (ch & Hh & Sh).
  exists c, ch. split_and!; [done|done|by apply sim_seen in Sc|by apply sim_seen in Sh|].
  intros k. apply sim_inv in Sc. apply (Sc k).
Qed.

(** A traversal that frees a value and a range and gets them again. *)
Definition exClient : list Cmd := [
  CNew (FValueUnstructured (VInt KInt64 1)); CNew (FListUnstructuredRange [VInt KInt64 5; VInt KInt64 6] (-1)); CNew (FValueUnstructured (VInt KInt64 2));
  CRead 0; CFree 0; CNew (FValueUnstructured (VInt KInt64 3)); CNew (FValueUnstructured (VInt KInt64 4));
  CWriteInner 1 (FValueUnstructured (VInt KInt64 5)); CReadInner 1; CFree 1;
  CNew (FListUnstructuredRange [VInt KInt64 7] 0); CWriteInner 5 (FValueUnstructured (VInt KInt64 7));
  CRead 2; CRead 3; CRead 4; CReadInner 5; CFree 3].

Lemma freelists_transparent_witness :
  exists s c ch,
    arun exClient ainit = Some s /\ crun (A := freelistState) exClient cinit = Ret c /\ crun (A := unit) exClient cinit = Ret ch /\
    cl_seen c = as_seen s /\ cl_seen ch = as_seen s /\ (length (cl_mem c) < length (cl_mem ch))%nat.
Proof.
  destruct (arun exClient ainit) as [s|] eqn:E; [|by vm_compute in E].
  destruct (freelists_transparent exClient s E) as (c & ch & Hc & Hh & S1 & S2 & _).
  exists s, c, ch. split_and!; [done..|]. vm_compute in Hc, Hh. inversion Hc. inversion Hh. simpl. lia.
Defined.

(** C29: The freelist allocator uses freed objects again: a client that never holds more
    than [n] objects of any of the seven types at a time, with [n] at most
    [freelistMaxSize], makes it create at most [n] objects of each, and [n] more for each
    type of range that owns one (2 [n] of the unstructured and the reflected values, [n] of
    each of the other types), however many objects the client asks for. *)
Theorem freelist_memory_bounded n prog s :
  (n <= freelistMaxSize)%nat -> arun prog ainit = Some s -> holds_at_most n prog ainit = true ->
  exists c, crun (A := freelistState) prog cinit = Ret c /\
    forall k, (kindCount k (cl_mem c) <= n * S (length (ownersOf k)))%nat.
Proof. exact (memory_bounded n prog s). Qed.

(** A loop that takes a range and a value, and frees them. *)
Definition exFrees : list Cmd := mjoin ((fun i => [
  CNew (FListUnstructuredRange [VNull] (-1)); CNew (FValueUnstructured VNull); CFree (2 * i); CFree (2 * i + 1)]) <$> seq 0 12).

Lemma freelist_memory_bounded_witness :
  length exFrees = 48%nat /\ exists c, crun (A := freelistState) exFrees cinit = Ret c /\
    (kindCount kListUnstructuredRange (cl_mem c) <= 1)%nat /\ (kindCount kValueUnstructured (cl_mem c) <= 2)%nat /\
    (kindCount kValueReflect (cl_mem c) <= 2)%nat /\ (kindCount kMapReflect (cl_mem c) <= 1)%nat.
Proof.
  destruct (arun exFrees ainit) as [s|] eqn:E; [|by vm_compute in E]. split; [reflexivity|].
  destruct (freelist_memory_bounded 1 exFrees s) as (c & Ec & H); [apply Nat.leb_le; vm_compute; reflexivity|exact E|vm_compute; reflexivity|].
  exists c. split; [exact Ec|]. exact (conj (H kListUnstructuredRange) (conj (H kValueUnstructured) (conj (H kValueReflect) (H kMapReflect)))).
Defined.

(** ** Maps with dynamic keys *)

(** C30: A map with string keys behaves as the value it stands for, whichever of the two
    map types holds it: equality of values (at every depth), the number of entries, the
    lookup of a key and the entries an iteration passes are those of [norm]; and setting
    or deleting a key changes exactly that key. *)
Theorem dynamic_maps_agree a b m key val :
  string_keyed a = true -> string_keyed b = true -> u_AsMap a = Some m ->
  u_Equals a b = Equals (norm a) (norm b) /\
  UMap_Length m = length (AsMap (norm a)) /\
  (forall k, norm <$> UMap_Get m k = assoc_get k (AsMap (norm a))) /\
  (UMap_Iterate (fun k v l => (l ++ [(k, norm v)], true)) m []).1 = AsMap (norm a) /\
  (forall k, UMap_Get (UMap_Set m key val) k = if string_eqb key k then Some val else UMap_Get m k) /\
  (forall k, UMap_Get (UMap_Delete m key) k = if string_eqb key k then None else UMap_Get m k).
Proof.
  intros Ka Kb Hm. rewrite (norm_map a m Hm). cbn [AsMap]. split; [rewrite <-(norm_map a m Hm); by apply u_Equals_norm|].
  destruct (map_keyed_AsMap a m Ka Hm) as [L _]. split; [unfold norm_entries; by rewrite length_fmap|].
  split; [intros k; by rewrite Get_entries, norm_get|]. split.
  - rewrite Iterate_entries. unfold norm_entries.
    assert (H : forall l acc, (string_Iterate (fun k v l => (l ++ [(k, norm v)], true)) l acc).1 =
      acc ++ ((fun kv : string * uvalue => (kv.1, norm kv.2)) <$> l)).
    { induction l as [|[k v] l IH]; intros acc; [by rewrite app_nil_r|]. simpl. by rewrite IH, <-app_assoc. }
    apply H.
  - split; intros k; rewrite !Get_entries; [by rewrite Set_entries, assoc_get_set|].
    by rewrite Delete_entries, assoc_get_delete.
Qed.

(** The YAML form of [{a: 1, b: [2]}]. *)
Definition exDynamic : uvalue := UInterfaceMap [
  (UString "a", UInt KInt 1); (UString "b", UList [UInt KInt 2])].
Definition exJson : uvalue := UStringMap [
  ("b"%string, UList [UFloat64 (float64_of_int 2)]); ("a"%string, UFloat64 (float64_of_int 1))].

Lemma dynamic_maps_agree_witness :
  u_Equals exDynamic exJson = true /\
  UMap_Get (UMap_Delete (mapUnstructuredInterface [(UString "a", UInt KInt 1); (UString "b", UList [UInt KInt 2])]) "a") "b" =
    Some (UList [UInt KInt 2]).
Proof.
  destruct (dynamic_maps_agree exDynamic exJson _ "a" UNull ltac:(reflexivity) ltac:(reflexivity) ltac:(reflexivity))
    as (E & _ & _ & _ & _ & D).
  split; [rewrite E; vm_compute; reflexivity|rewrite D; reflexivity].
Defined.

(** ** Loops over ranges *)

(** C31: The loops that compare two lists through their ranges never call [Item] out of
    turn, end, and return what the recursions on the lists return ([ListEqualsUsing],
    [ListCompareUsing]); and for maps with distinct keys the equality of package value
    for any two maps agrees with the one of the map type. *)
Theorem range_loops_agree lhs rhs (m other : Map) :
  NoDup (assoc_keys m) -> NoDup (assoc_keys other) ->
  ListEquals lhs rhs = Ret (ListEqualsUsing Equals lhs rhs) /\
  ListCompare lhs rhs = Ret (ListCompareUsing Compare lhs rhs) /\
  MapEqualsUsing (Some m) (Some other) = Equals (VMap m) (VMap other).
Proof.
  intros N1 N2. split; [|split].
  - unfold ListEquals, ListEqualsUsing. destruct (negb _); [done|].
    apply (rangesEqual_list [] []); [apply RangeUsing_at..|lia].
  - apply (rangesCompare_list [] []); [apply RangeUsing_at..|lia].
  - rewrite MapEqualsUsing_agrees by done. by rewrite Equals_unfold.
Qed.

Lemma range_loops_agree_witness :
  ListEquals [VInt KInt 1; VNull] [VInt KInt64 1; VNull] = Ret true /\ ListCompare [VInt KInt 1] [VInt KInt 1; VNull] = Ret (-1) /\
  MapEqualsUsing (Some [("a"%string, VNull); ("b"%string, VBool true)]) (Some [("b"%string, VBool true); ("a"%string, VNull)]) = true.
Proof.
  destruct (range_loops_agree [VInt KInt 1; VNull] [VInt KInt64 1; VNull]
    [("a"%string, VNull); ("b"%string, VBool true)] [("b"%string, VBool true); ("a"%string, VNull)]
    ltac:(apply (bool_decide_unpack (NoDup _)); vm_compute; exact I) ltac:(apply (bool_decide_unpack (NoDup _)); vm_compute; exact I)) as (E1 & _ & E3).
  destruct (range_loops_agree [VInt KInt 1] [VInt KInt 1; VNull] [] [] ltac:(constructor) ltac:(constructor)) as (_ & E2 & _).
  rewrite E1, E2, E3. vm_compute. split_and!; reflexivity.
Defined.
