(* ===== verification/PropsCli.v ===== *)
(** * Properties of the command line tool

    What [Resolve] makes of the options, and what a run of the tool writes: the
    theorems compose the options, the reading of the schema and of the files, the
    walkers and the writing of the result.  They hold for every operating system,
    YAML and JSON library with the stated behaviour. *)
From stdpp Require Import gmap.
From S2P Require Import Prelude GoLib GoFloat Value ValueOrder PathElement SortedSlice FieldSet FieldSetSpec FieldSetIter.
From S2P Require Import Serialize SerializeSpec JsonInstance Schema TypedHelpers Validate MergeSpec MergeRefine Compare CompareOk CompareRefine.
From S2P Require Import Typed SchemaSchema Parser Updater State Format Cli PropsTyped.

(** ** Options *)

Section Resolve.
Context {O : Os} {Y : YamlLib} {YW : YamlWriter}.

(** Both arguments of a merge or a comparison. *)
Definition needTwo (o : Options) (op : string -> string -> CliOperation) : CliError + CliOperation :=
  if isEmpty (lhsPath o) || isEmpty (rhsPath o) then inl ErrNeedTwoArgs else inr (op (lhsPath o) (rhsPath o)).

(** The operations that the options ask for. *)
Definition requested (o : Options) (b : operationBase) : list (CliError + CliOperation) :=
  (if o_merge o then [needTwo o (OpMerge b)] else []) ++
  (if o_compare o then [needTwo o (OpCompare b)] else []) ++
  (if isEmpty (validatePath o) then [] else [inr (OpValidation b (validatePath o))]) ++
  (if listTypes o then [inr (OpListTypes b)] else []) ++
  (if isEmpty (o_fieldset o) then [] else [inr (OpFieldset b (o_fieldset o))]).

Lemma resolveOperation_requested o b :
  resolveOperation o b =
  match requested o b with [] => inl ErrNoOperation | [op] => op | _ => inl ErrTooManyOperations end.
Proof.
  unfold resolveOperation, countOperations, requested, needTwo.
  destruct (o_merge o), (o_compare o), (isEmpty (validatePath o)), (listTypes o), (isEmpty (o_fieldset o)); done.
Qed.

(** The type the operation is about: the one that was named, or the first of the schema. *)
Definition resolvedType (o : Options) (sc : Schema) (name : string) : Prop :=
  if isEmpty (typeName o) then exists td tds, Types sc = td :: tds /\ name = td_Name td else name = typeName o.

(** C26: [Options.Resolve] succeeds exactly when a schema is given, can be read and is a
    valid schema, the type is named or the schema has a type, and exactly one operation is
    requested, with both files if it needs two; the operation it returns is that one, with
    the parser of the schema and the type. *)
Theorem resolve_success ssParser addr o w op :
  CliResolve ssParser addr o w = ok op <->
  schemaPath o <> EmptyString /\
  exists text parser name,
    ReadFile (schemaPath o) w = inr text /\ NewParser ssParser addr text = ok parser /\
    resolvedType o (sp_schema (p_Schema parser)) name /\ requested o (mkBase parser name) = [inr op].
Proof.
  unfold CliResolve, resolvedType. destruct (isEmpty (schemaPath o)) eqn:Es.
  { split; [done|]. intros [Hs _]. by apply string_eqb_true in Es. }
  apply string_eqb_false in Es. destruct (ReadFile (schemaPath o) w) as [e|text].
  { split; [done|]. by intros (_ & ? & ? & ? & [=] & _). }
  destruct (NewParser ssParser addr text) as [|[e|parser]] eqn:En; cbn [wrap bindR ok fail];
    [split; [done|]; intros (_ & ? & ? & ? & [= <-] & E & _); unfold ok in E; congruence..|].
  assert (Hop : forall name, Ret (resolveOperation o (mkBase parser name)) = ok op <->
    requested o (mkBase parser name) = [inr op]).
  { intros name. rewrite resolveOperation_requested. destruct (requested o (mkBase parser name)) as [|x [|? ?]];
      split; unfold ok; intros; congruence. }
  destruct (isEmpty (typeName o)) eqn:Et.
  - destruct (Types (sp_schema (p_Schema parser))) as [|td tds] eqn:El; cbn [bindR ok fail].
    + split; [done|]. intros (_ & ? & ? & ? & [= <-] & E & (td & tds & E' & _) & _). unfold ok in E. congruence.
    + rewrite Hop. split; [intros H; split; [done|]; exists text, parser, (td_Name td); eauto 10|].
      intros (_ & ? & ? & ? & [= <-] & E & (td' & tds' & E' & ->) & H). rewrite En in E. injection E as <-.
      rewrite El in E'. by injection E' as <- <-.
  - cbn [bindR ok]. rewrite Hop. split; [intros H; split; [done|]; eauto 10|].
    intros (_ & ? & ? & ? & [= <-] & E & -> & H). rewrite En in E. by injection E as <-.
Qed.
End Resolve.

(** ** Instances used by the witnesses *)

(** Every file can be read and written; a few YAML texts are known. *)
#[local] Instance exOs : Os := {|
  IoError := unit; notExist _ := tt; openError _ := None; createError _ := None
|}.
#[local] Instance exOsWrite : OsWrite := fun _ => None.
#[local] Instance exCliYaml : YamlLib := {|
  YamlError := unit;
  unmarshalValue s :=
    if string_eqb s "schema" then inr (Schema_yaml exSchema)
    else if string_eqb s "object" then inr exValue
    else if string_eqb s "object2" then inr exValue2
    else if string_eqb s "{}" then inr (VMap [])
    else if string_eqb s "" then inr VNull
    else inl tt;
  unmarshalSchema s := if string_eqb s "schema" then inr exSchema else inl tt;
|}.
#[local] Instance exWriter : YamlWriter := {| MarshalError := unit; yamlMarshal v := if IsNull v then inr "null" else inr "written" |}.
#[local] Instance exFormat : GoFormat := {| quote s := s; formatFloat _ := "float" |}.
#[local] Instance exPrintf : GoPrintf := fun s => s.

Definition exSS : Parser := mkParser (mkSchemaPtr 7 SchemaSchema).
Definition exBase : operationBase := mkBase (mkParser (mkSchemaPtr 8 exSchema)) "object".
Definition exWorld : World := mkWorld (<["s" := "schema"]> (<["a" := "object"]> (<["b" := "object2"]> ∅))) "".
(** [smd --schema s --type-name object --fieldset a]. *)
Definition exOptions : Options :=
  default zeroOptions (parseArgs [("schema"%string, inl "s"%string); ("type-name"%string, inl "object"%string); ("fieldset"%string, inl "a"%string)] initOptions).

Lemma resolve_success_witness : CliResolve exSS 8 exOptions exWorld = ok (OpFieldset exBase "a").
Proof.
  apply (resolve_success exSS 8 exOptions exWorld (OpFieldset exBase "a")). split; [discriminate|].
  exists "schema"%string, (mkParser (mkSchemaPtr 8 exSchema)), "object"%string. split_and!; vm_compute; reflexivity.
Defined.

(** ** The output file *)

Section Output.
Context {O : Os} {W : OsWrite} {Y : YamlLib} {YW : YamlWriter} {J : JsonLib} {F : GoFormat} {P : GoPrintf}.

(** What a file holds has no influence on the resolution, unless it is the schema. *)
Lemma CliResolve_ignores ssParser addr o w f t :
  schemaPath o <> f ->
  CliResolve ssParser addr o (mkWorld (<[f := t]> (w_files w)) (w_stdout w)) = CliResolve ssParser addr o w.
Proof.
  intros Hf. unfold CliResolve, ReadFile. cbn [w_files]. by rewrite lookup_insert_ne by done.
Qed.

(** C27: The tool creates its output file before it reads its inputs, which empties the
    file: when the output is not the standard output and not the schema, whatever the
    file held before has no influence on the run, even when the file is one of the inputs
    of the operation, whose contents are then lost. *)
Theorem output_truncated_first ssParser addr o w t :
  schemaPath o <> output o -> output o <> "-"%string -> createError (output o) = None ->
  let run content := smd_main ssParser addr o (mkWorld (<[output o := content]> (w_files w)) (w_stdout w)) in
  (exists op, CliResolve ssParser addr o w = ok op) -> run t = run EmptyString.
Proof.
  intros Hs Ho Hc run [op E]. unfold run, smd_main. rewrite !CliResolve_ignores, E by done. cbn [mbind Outcome_bind ok].
  unfold OpenOutput, Create. rewrite (proj2 (string_eqb_false _ _) Ho), Hc. cbn [w_files w_stdout].
  by rewrite !insert_insert_eq.
Qed.
End Output.

(** Merging [b] into [a], with [a] as the output, merges [b] into nothing. *)
Definition exInPlace : Options := mkOptions "s" "object" "a" false "" true false "" "a" "b".

Lemma output_truncated_first_witness :
  smd_main exSS 8 exInPlace exWorld =
  smd_main exSS 8 exInPlace (mkWorld (<["a" := ""]> (w_files exWorld)) "").
Proof.
  pose proof (output_truncated_first exSS 8 exInPlace exWorld "object" ltac:(discriminate) ltac:(discriminate)
    ltac:(reflexivity) ltac:(eexists; vm_compute; reflexivity)) as H. cbv zeta in H.
  etransitivity; [|exact H]. f_equal.
Defined.

(** ** The field set of an object *)

Section Fieldset.
Context {O : Os} {W : OsWrite} {Y : YamlLib} {YW : YamlWriter} {J : JsonLib} {JL : JsonLaws} {F : GoFormat} {P : GoPrintf}.

Lemma parseFile_conforms b path w text y :
  ReadFile path w = inr text -> unmarshalValue text = inr y ->
  let T := Parser_Type (ob_parser b) (ob_typeName b) in
  conforms (sp_schema (pt_Schema T)) false (pt_TypeRef T) y ->
  parseFile b path w = ok (mkTypedValue (Some y) (pt_TypeRef T) (pt_Schema T)).
Proof.
  intros Hr Hy T Hc. unfold parseFile, FromYAML. by rewrite Hr, Hy, AsTyped_conforms.
Qed.

Lemma nodeAt_empty sc tr p : p <> [] -> nodeAt sc tr (VMap []) p = None.
Proof.
  destruct p as [|pe p]; [done|]. intros _. cbn [nodeAt]. unfold childAt. destruct (kindAt sc tr (VMap [])) as [[t|t|t]|]; try done.
  simpl. by destruct (string_eqb (m_ER t) Atomic).
Qed.

(** Comparing the empty object with [y] adds the parts of [y]. *)
Lemma compare_with_empty r sp tr y :
  TypeRef_Equals tr tr = true -> mergeable r false sp tr (VMap []) -> mergeable r false sp tr y ->
  exists c, TypedValue_Compare (mkTypedValue (Some (VMap [])) tr sp) (mkTypedValue (Some y) tr sp) = ok c /\
    Set_ok r (Added c) = true /\
    forall p, Forall (pe_dom r) p -> p <> [] -> Set_Has (Added c) p = true <-> is_Some (nodeAt (sp_schema sp) tr y p).
Proof.
  intros Ht He Hy.
  destruct (compare_members r (sp_schema sp) tr (Some (VMap [])) (Some y)) as (c & E & (_ & _ & Hok) & H);
    [by intros ? [= <-]|by intros ? [= <-]|by left|].
  exists c. unfold TypedValue_Compare, same_type. cbn [tv_schema tv_typeRef tv_value]. unfold SchemaPtr_eqb.
  rewrite Nat.eqb_refl, Ht. cbn [negb bindR ok]. rewrite E. split; [done|]. split; [exact Hok|]. intros p Hp Hne.
  pose proof (H PAdded p Hp Hne) as HA. cbn [part] in HA. rewrite HA. unfold reportAt, nodeOf. cbn [mbind option_bind]. rewrite nodeAt_empty by done.
  destruct (nodeAt _ tr y p); cbn [reportOf]; rewrite is_Some_alt; naive_solver.
Qed.

(** C25: A run of the tool that builds the field set of a file ends normally and appends a
    text to the standard output, from which [FromJSON] reads a set that has exactly the
    paths at which the object in the file has a part; for a type that accepts the empty
    map, a conforming object, and path elements that JSON can represent. *)
Theorem fieldset_output ssParser addr o w b file text y :
  CliResolve ssParser addr o w = ok (OpFieldset b file) -> output o = "-"%string -> writeError Stdout = None ->
  ReadFile file w = inr text -> unmarshalValue text = inr y -> unmarshalValue "{}" = inr (VMap []) ->
  let sp := p_Schema (ob_parser b) in let tr := mkTypeRef (Some (ob_typeName b)) Atom0 None in
  mergeable ExactInts false sp tr (VMap []) -> mergeable ExactInts false sp tr y ->
  (forall c, TypedValue_Compare (mkTypedValue (Some (VMap [])) tr sp) (mkTypedValue (Some y) tr sp) = ok c ->
    Set_writable (Added c) = true) ->
  exists json s, smd_main ssParser addr o w = Ret (None, mkWorld (w_files w) (w_stdout w +++ json)) /\
    Set_FromJSON json = inr s /\
    forall p, Forall (pe_dom ExactInts) p -> p <> [] ->
      Set_Has s p = true <-> is_Some (nodeAt (sp_schema sp) tr y p).
Proof.
  intros E Ho Hw Hr Hy He sp tr Me My Hwr.
  assert (Ht : TypeRef_Equals tr tr = true) by (cbn; by rewrite string_eqb_refl).
  destruct (compare_with_empty ExactInts sp tr y Ht Me My) as (c & Ec & Hok & Hc).
  destruct (Set_json_roundtrip (Added c) Hok (Hwr c Ec)) as (json & s & Ej & Es & Hs & Heq).
  exists json, s. split; [|split; [done|]].
  - unfold smd_main. rewrite E. cbn [mbind Outcome_bind ok]. unfold OpenOutput. rewrite Ho, string_eqb_refl.
    unfold Execute, fieldset_Execute. rewrite (parseFile_conforms b file w text y Hr Hy (proj1 (proj2 My))).
    unfold FromYAML. rewrite He, AsTyped_conforms by exact (proj1 (proj2 Me)). cbn [wrap bindR ok].
    change (pt_TypeRef (Parser_Type (ob_parser b) (ob_typeName b))) with tr.
    change (pt_Schema (Parser_Type (ob_parser b) (ob_typeName b))) with sp. rewrite Ec. cbn [wrap bindR ok]. rewrite Ej.
    unfold emit, Write. cbn [mbind Outcome_bind ok]. by rewrite Hw.
  - intros p Hp Hne. apply Set_ok_iff in Hs as [Hs _]. pose proof Hok as Hok'. apply Set_ok_iff in Hok' as [Hok' _].
    rewrite <-(Set_Equals_sound ExactInts (Added c) s p) by done. by apply Hc.
Qed.
End Fieldset.

Lemma fieldset_output_witness : exists json s,
  smd_main exSS 8 exOptions exWorld = Ret (None, mkWorld (w_files exWorld) json) /\ Set_FromJSON json = inr s /\
  Set_Has s [peField "items"; peKey [mkField "name"%string (VString "x")]; peField "n"] = true.
Proof.
  destruct (fieldset_output exSS 8 exOptions exWorld exBase "a" "object" exValue) as (json & s & E & Ej & H).
  - vm_compute. reflexivity.
  - reflexivity.
  - reflexivity.
  - vm_compute. reflexivity.
  - vm_compute. reflexivity.
  - vm_compute. reflexivity.
  - split_and!; [vm_compute; reflexivity| |vm_compute; reflexivity]. apply validates_conforms. vm_compute. reflexivity.
  - split_and!; [vm_compute; reflexivity| |vm_compute; reflexivity]. apply validates_conforms. vm_compute. reflexivity.
  - intros c Ec. vm_compute in Ec. injection Ec as <-. vm_compute. reflexivity.
  - exists json, s. split; [exact E|]. split; [exact Ej|]. apply H; [repeat constructor|discriminate|].
    vm_compute. by eexists.
Defined.
