(* ===== verification/PropsFindings.v ===== *)
(** * Behaviours that differ from what the code documents

    Concrete runs on which the code does not do what its comments, or the code
    around it, say. *)
From stdpp Require Import gmap.
From S2P Require Import Prelude GoLib GoFloat Value ValueOrder PathElement SortedSlice FieldSet.
From S2P Require Import FieldSetSpec FieldSetOps FieldSetInsert FieldSetIter Managers Schema TypedHelpers Validate.
From S2P Require Import Remove Compare Merge Typed Updater Unstructured SchemaIndex PropsTyped PropsMerge.

(** [Compare] is not a total order on all values.  It is not transitive on integers and
    floats together: 2^53+1 equals the float 2^53 (its conversion rounds), which equals
    2^53, but the two integers differ.  And it disagrees with [Equals] on NaN, which
    compares as 0 with every number and is not equal to itself. *)
Theorem compare_anomalies :
  let a := VInt KInt64 9007199254740992 in
  let f := VFloat64 (float64_of_int 9007199254740992) in
  let b := VInt KInt64 9007199254740993 in
  let nan := VFloat64 S754_nan in
  (Compare b f = 0 /\ Compare f a = 0 /\ Compare b a = 1) /\
  (Compare nan nan = 0 /\ Compare nan a = 0 /\ Equals nan nan = false).
Proof. vm_compute. auto. Qed.

(** [TypeRef.Equals] compares the pointers to the element relationships and not the
    relationships: the same override at another address makes the references
    different, so [Compare] and [Merge] refuse the two objects. *)
Theorem type_ref_equals_pointers n e addr addr' :
  addr <> addr' ->
  TypeRef_Equals (mkTypeRef (Some n) Atom0 (Some (mkERPtr addr e))) (mkTypeRef (Some n) Atom0 (Some (mkERPtr addr' e))) = false.
Proof.
  intros H. cbn. rewrite string_eqb_refl. cbn. unfold ERPtr_eqb. cbn.
  by rewrite (proj2 (Nat.eqb_neq addr addr') H).
Qed.

Lemma type_ref_equals_pointers_witness :
  TypeRef_Equals (mkTypeRef (Some "t"%string) Atom0 (Some (mkERPtr 1 Atomic)))
    (mkTypeRef (Some "t"%string) Atom0 (Some (mkERPtr 2 Atomic))) = false.
Proof. apply (type_ref_equals_pointers "t" Atomic 1 2). discriminate. Defined.

(** [Atom.Equals] ignores the list and the map of an atom with a scalar: atoms that
    allow different lists are reported equal. *)
Theorem atom_equals_ignores_lists s l l' :
  Atom_Equals (mkAtom (Some s) (Some l) None) (mkAtom (Some s) (Some l') None) = true.
Proof. cbn. by rewrite string_eqb_refl. Qed.

(** The errors of merging the items of an associative list are lost: an item whose number
    is a string in both lists is dropped without an error, though merging the two
    items themselves reports one. *)
Theorem merge_drops_item_errors :
  let item := VMap [("name"%string, VString "x"); ("n"%string, VString "not a number")] in
  let tv v tr := mkTypedValue (Some v) tr exSP in
  let obj := VMap [("items"%string, VList [item])] in
  (exists errs, TypedValue_Merge (tv item (namedRef "item")) (tv item (namedRef "item")) = fail errs) /\
  TypedValue_Merge (tv obj exTR) (tv obj exTR) = ok (tv (VMap [("items"%string, VList [VMap [("name"%string, VString "x")]])]) exTR).
Proof. split; [eexists|]; vm_compute; reflexivity. Qed.

(** [ExtractItems] with the field set of the object itself does not return the items of a
    keyed list: each item comes back twice, once as null. *)
Theorem extract_items_twice :
  let obj := VMap [("items"%string, VList [exItemValue "x" 1])] in
  let tv := mkTypedValue (Some obj) exTR exSP in
  exists set, TypedValue_ToFieldSet tv = ok set /\
    TypedValue_ExtractItems tv set =
      Ret (mkTypedValue (Some (VMap [("items"%string, VList [VNull; exItemValue "x" 1])])) exTR exSP).
Proof.
  intros obj tv. destruct (TypedValue_ToFieldSet tv) as [|[e|set]] eqn:Es; [vm_compute in Es; discriminate Es..|].
  exists set. split; [reflexivity|]. vm_compute in Es. injection Es as <-. vm_compute. reflexivity.
Qed.

(** A comparison without differences does not mean that the objects are equal: two
    orders of the same set compare as the same. *)
Theorem compare_same_but_different :
  let obj l := VMap [("tags"%string, VList l)] in
  let v := obj [VString "p"; VString "q"] in
  let w := obj [VString "q"; VString "p"] in
  Equals v w = false /\
  exists c, TypedValue_Compare (mkTypedValue (Some v) exTR exSP) (mkTypedValue (Some w) exTR exSP) = ok c /\ IsSame c = true.
Proof.
  intros obj v w. split; [vm_compute; reflexivity|].
  destruct (TypedValue_Compare _ _) as [|[e|c]] eqn:Ec; [vm_compute in Ec; discriminate Ec..|].
  exists c. split; [reflexivity|]. vm_compute in Ec. injection Ec as <-. vm_compute. reflexivity.
Qed.

(** [Compare] and [Merge] panic on objects of an inlined scalar type with an element
    relationship (which does not resolve), where [AsTyped] reports an error. *)
Theorem unresolved_inlined_type_panics :
  let tr := mkTypeRef None (mkAtom (Some String_) None None) (Some (mkERPtr 1 Atomic)) in
  let tv := mkTypedValue (Some (VString "s")) tr exSP in
  (exists errs, AsTyped (Some (VString "s")) exSP tr [] = fail errs) /\
  TypedValue_Compare tv tv = Panic /\ TypedValue_Merge tv tv = Panic.
Proof. split; [eexists; vm_compute; reflexivity|]. split; vm_compute; reflexivity. Qed.

(** A field can be in two sets of a comparison: when duplicates of an item are reduced to
    one, the item is both removed (the marker of the duplicates) and added. *)
Theorem compare_duplicates_twice :
  let obj l := mkTypedValue (Some (VMap [("items"%string, VList l)])) exTR exSP in
  let item := [peField "items"; peKey [mkField "name"%string (VString "x")]] in
  exists c, TypedValue_Compare (obj [exItemValue "x" 1; exItemValue "x" 2]) (obj [exItemValue "x" 1]) = ok c /\
    Set_Has (Removed c) item = true /\ Set_Has (Added c) item = true.
Proof.
  intros obj item. destruct (TypedValue_Compare _ _) as [|[e|c]] eqn:Ec; [vm_compute in Ec; discriminate Ec..|].
  exists c. split; [reflexivity|]. vm_compute in Ec. injection Ec as <-. split; vm_compute; reflexivity.
Qed.

(** Entries whose keys are not strings count for the length of a map but are never
    visited: two maps that differ only in such entries are equal. *)
Theorem dynamic_keys_ignored k k' v v' :
  stringKey k = None -> stringKey k' = None ->
  u_Equals (UInterfaceMap [(k, v)]) (UInterfaceMap [(k', v')]) = true /\
  u_Equals (UInterfaceMap [(k, v)]) (UInterfaceMap []) = false.
Proof.
  intros Hk Hk'. split; [|reflexivity]. unfold u_Equals. cbn [u_Equals_fuel u_height]. unfold u_EqualsUsing, UMap_EqualsUsing.
  cbn. by rewrite Hk'.
Qed.

Lemma dynamic_keys_ignored_witness :
  u_Equals (UInterfaceMap [(UInt KInt 1, UString "a")]) (UInterfaceMap [(UInt KInt 2, UString "b")]) = true.
Proof. apply (dynamic_keys_ignored (UInt KInt 1) (UInt KInt 2)); reflexivity. Defined.

(** [Schema.CopyInto] says that it overwrites a destination that is already initialized.  Copying
    a schema that was not searched into one that was leaves the index of the destination: the
    copy has the new types and finds the old ones.  Copying never replaces the resolved
    references of the destination either. *)
Theorem copy_keeps_stale_index s dst :
  index (ss_m s) = None -> schema_ok dst -> consumed (ss_m dst) = true ->
  exists d, Schema_CopyInto s (Some dst) = Some d /\ ss_Types d = ss_Types s /\ ss_resolvedTypes d = ss_resolvedTypes dst /\
    forall name, (State_FindNamedType d name).1 = FindNamedType (mkSchema (ss_Types dst)) name.
Proof.
  intros Hs [Hl _] Hc. eexists. split; [reflexivity|]. cbn. split; [done|]. split; [done|]. intros name.
  unfold copyIndex, once_Do, index_get. rewrite Hs, Hc. unfold lazy_ok in Hl. by rewrite Hl, Hc.
Qed.

Lemma copy_keeps_stale_index_witness :
  let old := (State_FindNamedType (newSchema [mkTypeDef "a" (mkAtom (Some String_) None None)]) "a").2 in
  exists d, Schema_CopyInto (newSchema [mkTypeDef "a" (mkAtom (Some Numeric) None None)]) (Some old) = Some d /\
    (State_FindNamedType d "a").1 = Some (mkTypeDef "a" (mkAtom (Some String_) None None)).
Proof.
  intros old. destruct (copy_keeps_stale_index (newSchema [mkTypeDef "a" (mkAtom (Some Numeric) None None)]) old) as (d & E & _ & _ & H);
    [reflexivity|by apply FindNamedType_ok, newSchema_ok|reflexivity|].
  exists d. split; [exact E|]. rewrite (H "a"%string). reflexivity.
Defined.

(** [addBackOwnedItems] says that it adds back the fields that were removed and other managers own.
    A field inside a list item that only the applying manager owned is not added back: the item is
    removed with it. *)
Theorem prune_drops_owned_in_item :
  let item := peKey [mkField "name"%string (VString "x")] in
  let last := NewVersionedSet (NewSet [[peField "items"; item]; [peField "items"; item; peField "name"]]) "v1" true in
  let managers : ManagedFields := {["me"%string := NewVersionedSet (NewSet [[peField "name"]]) "v1" true;
    "bob"%string := exOwns [peField "items"; item; peField "n"]]} in
  exists out, prune exRanges exUpdater (Some exTV) managers "me" (Some last) = ok (Some (withValue exTV out)) /\
    valueAt out ["items"%string] = Some (VList [exItemValue "y" 2]).
Proof.
  intros item last managers. eexists. split; [vm_compute; reflexivity|]. vm_compute. reflexivity.
Qed.

(** The comment of [Set.Difference] says that a child minus its parent is the empty set.  The
    members of the second set are not looked up among the children of the first: the child stays. *)
Theorem difference_keeps_children :
  let child := NewSet [[peField "a"; peField "b"]] in
  let parent := NewSet [[peField "a"]] in
  Set_Difference child parent = child /\ Set_Empty (Set_Difference child parent) = false /\
  Set_Empty (Set_RecursiveDifference child parent) = true.
Proof. split_and!; vm_compute; reflexivity. Qed.
